(* ===== verification/_CoqProject ===== *)
-Q . S2P
Prelude.v
Externals.v
StorageLayout.v
Types.v
Merkle.v
Instances.v
MerkleSpec.v
RequestLeaf.v
MerkleTests.v
MerkleZeros.v
LeafTests.v
Keccak.v
VectorTests.v
KeyFiles.v
TestUtils.v
LeafVectors.v
Mpt.v
MptSpec.v
MptClaims.v
TrieTests.v
QueueTests.v
QueueSuite.v
ProofTests.v
MptWitness.v
StoreHash.v
Consensus.v
ConsensusSpec.v
ConsensusWitness.v
Detector.v
DetectorSpec.v
Notice.v
BridgeHead.v
BridgeHeadSpec.v
Observer.v
System.v
SystemSpec.v
SystemWitness.v
SystemWindows.v
SystemProgress.v
Channels.v
ChannelsSpec.v
ChannelsProgress.v
ChannelsWitness.v
Supervision.v
Json.v
NoticeCodec.v
NoticeCodecSpec.v
Checkpoint.v
SystemFresh.v
SystemFreshWitness.v
CodecWitness.v
DetectorWitness.v
Rpc.v
ExecutionRpc.v
ExecutionRpcSpec.v
ExecutionRpcComplete.v
ExecutionRpcWitness.v
ExecutionRpcErrors.v
ConsensusRpc.v
ConsensusRpcSpec.v
ConsensusRpcWitness.v
FixtureGenerator.v
EndToEnd.v
EndToEndWitness.v
ProverConfig.v
ProverConfigSpec.v
Env.v
EnvSpec.v
LocalProver.v
Logging.v
Startup.v
StartupWitness.v
