(* ===== verification/Prelude.v ===== *)
(** * The Nori bridge head: a verification development

    This library models the Nori bridge head (the Rust workspace under src/) and
    proves what makes it correct.  The program keeps a destination chain informed
    of a queue of requests on Ethereum: a light client follows the beacon chain,
    a guest program proves each step of it together with the storage the queued
    requests ask for, and a host process finds the steps, has them proved and
    publishes the proofs.

    ** The parts and how they interact

    - A _request_ names a target contract, a storage slot and up to two collection
      keys; the queue contract stores five words per request and the number of
      requests, its head (nori-primitives/src/storage_layout.rs, types.rs).
    - The _guest_ (nori-program) gets a light client store, the updates from its
      slot to a later one, and the storage proofs of a batch of requests.  It
      checks the updates, then that the batch is the next one in the queue and
      what each slot holds, and commits 220 bytes: the two slots and store hashes,
      the execution state root, the Merkle root of the verified requests, and the
      queue cursors before and after the batch.
    - The _host_ (nori) asks beacon nodes and execution nodes for these inputs and
      runs the guest natively on them before it trusts them (rpcs/).  Its actors
      exchange messages: the finality change detector polls for a new finalized
      slot and emits the windows it can prove, the bridge head starts proofs and
      reports their results, the observer decides which window is proved next,
      advances the head and saves the checkpoint (bridge_head/).
    - The prover (sp1_prover.rs, sp1_prover_config.rs) is an external service.

    ** The files

    Foundations:
    - this file: results with panics ([res]), loops with early return, handlers of
      actors ([eff]), bytes, unsigned machine integers ([uint w], which wrap),
      fixed-size byte arrays, their lemmas and tactics ([res_inv], [eff_unfold]).
    - Externals: one class per third-party crate (hashes, tries, field and
      sponge), with classes of laws; Instances: concrete instances of all of them.
    - Json: serde_json values and the coders of derived structs.

    The guest:
    - StorageLayout (storage_layout.rs), Types (types.rs, the public output codec),
      RequestLeaf and Merkle (nori-hash/src/merkle_poseidon_fixed.rs), StoreHash
      (helios.rs, sha256_hash.rs), Mpt (nori-program/src/mpt.rs), Consensus
      (consensus.rs, main.rs): one definition per function, with the names of the
      source.
    - MerkleSpec, MptSpec, MptClaims (what a proof fixes), ConsensusSpec: their
      theorems; MptWitness and ConsensusWitness: a concrete queue and light client.

    The tests of the guest, stated for any input where the suite has a few:
    - MerkleTests: the reference roots and checks of merkle_fixed_tests;
      MerkleZeros: the programs that write the zeros table and the Poseidon
      vectors; LeafTests, LeafVectors: the request leaf, its byte routing and the
      vectors rendered from it (tests/request_leaf_byte_routing.rs).
    - TrieTests, QueueTests, QueueSuite, ProofTests: storage_proof_tests and
      queue_tests of mpt.rs; the first has the tries, the second the fixtures
      ([fixture]), the third the tests and concrete tries to run them on, the
      last the malformed proofs and the checks on the kinds of nodes.
    - Keccak: an executable keccak256; VectorTests: the tests of types.rs and
      nori-primitives/tests, and the checked-in test-vectors.  KeyFiles: the files
      of the verifying key that bin/make.rs and extract_zeroth_public_input.rs
      write.  TestUtils: the hexadecimal readers of nori/tests/test_utils.rs.

    The host, what it asks for:
    - Rpc (rpcs/mod.rs), ExecutionRpc (rpcs/execution/http.rs), ConsensusRpc
      (rpcs/consensus/mod.rs): queries as functions on the state of the node that
      answers, with its errors; timeouts and the order in which nodes finish are
      arguments.  ExecutionRpcSpec, ExecutionRpcComplete, ExecutionRpcErrors,
      ConsensusRpcSpec: their theorems; ExecutionRpcWitness, ConsensusRpcWitness: concrete nodes.
      FixtureGenerator: the binary of nori-test-fixtures, whose loop has no exit.
    - ProverConfig, ProverConfigSpec, LocalProver (sp1_prover_config.rs,
      sp1_prover.rs, grpc.rs), Env, EnvSpec (the [from_env] functions,
      contract.rs, validate.rs, [Client::new]), Logging (utils.rs, print_config).

    The host, its actors:
    - Detector, DetectorSpec (finality_change_detector.rs), Notice
      (notice_messages.rs), BridgeHead, BridgeHeadSpec (api.rs, handles.rs),
      Observer (observer.rs, checkpoint.rs): a [Record] with the locals or fields
      of each actor and one handler per arm of its loop.
    - System: the actors joined by queues.  An [action] is one iteration of one
      loop, [sys_exec] runs it, a run is any interleaving.  SystemSpec (the
      invariant of the job in progress), SystemWindows (what the windows in all
      messages satisfy), SystemProgress (how what is in flight drains), SystemFresh
      (what the detector knows of the head, and what it emits), SystemWitness and
      SystemFreshWitness (concrete runs).  The queues are unbounded, which admits
      more runs than the program has: only safety properties are stated of them.
    - Channels, ChannelsSpec, ChannelsProgress, ChannelsWitness: the same actors
      with the channel capacities of the source and sends that wait.  Every run of
      these is a run of System ([bounded_run_refines]); liveness is stated here.
    - Supervision: closed channels, when an actor has died.  Startup,
      StartupWitness: [main] and what [run] does before its loop.
    - NoticeCodec, NoticeCodecSpec: the JSON of notices.  Checkpoint: the
      checkpoint file and restarting.  CodecWitness: concrete coders.
    - EndToEnd, EndToEndWitness: the actors over the nodes and the guest.

    ** What the theorems show

    - The guest proves the right thing: an accepted batch is the next part of the
      real queue, each request with the value its slot really has
      ([verify_queue_refines]), and the state determines it
      ([verify_queue_deterministic]); every batch can be proved
      ([verify_queue_complete]), proofs that start where the last one ended drain
      the queue without gap or repetition ([proof_chain_drains_contiguously]) over
      a light client that only follows valid updates
      ([consensus_mpt_program_refines], [hash_chain_continuity],
      [sha256_hash_helios_store_binding]); no input makes it panic
      ([verify_queue_no_panic]).  The first two, and what a chain drained, assume
      sound exclusion proofs ([ExclusionSound]), which the alloy-trie version that
      the source pins does not have, as the comment at the top of mpt.rs says.
      With sound inclusion proofs alone [verify_queue_inclusion] is what remains:
      nothing that is not zero can be invented.  And whatever the trie verifier
      accepts, a proof fixes its claim ([tampering_rejected]).
    - The optimised Merkle routines agree with the reference tree
      ([fold_merkle_left_reference]), a root binds its leaves ([fold_merkle_left_binding]), the packing of a leaf puts every
      byte where the documented layout has it ([packing_routes_every_byte]), the
      public output codec is a bijection ([ProofOutputs_codec]), and the zeros table
      is what the program that writes it writes ([zeros_file_regenerated]).
    - The test suite: what its fixtures check at three requests holds for any
      number and any cursor ([fixtures_accepted]); the vectors that the Solidity
      contract and the Mina circuit are tested against are the model's (the runs
      of VectorTests).
    - The host prepares provable inputs: whatever the nodes answer, a window that is
      validated is one the guest accepts, with the outputs it announces
      ([validated_window_agrees], [prepared_inputs_provable]); a truthful node is
      enough ([truthful_node_accepted]); a node can make the preparation fail, but
      panic only by a key count above 255 ([preparation_panics_iff]).  What is
      asked of a node and made of its answers, retries included, is
      [get_proof_requests]; what several providers together return, panics
      included, is [query_with_fallback_answers].
    - The actors: one proof at a time ([one_proof_at_a_time]), no handler aborts
      ([handlers_never_abort]), emissions are fresh ([emission_fresh_in_system]), what
      is published is what was asked for, read and proved ([published_end_to_end],
      [published_proof_consistent]), a failed proof is followed by one of the
      observer's current window ([failed_job_retries_current_window]), a restart
      resumes where the last one stopped ([restart_resumes]).
    - Liveness with the channel capacities of the source: detector and bridge head
      can wait for each other for ever ([bounded_deadlock_reachable]); senders wait
      in no other cycle ([senders_wait_only_in_a_cycle]), and unless the two are in
      that embrace every reachable state can go on to the next proof, given nodes
      and a prover that answer ([bridge_keeps_proving]).
    - The process: a start runs everything or exits ([boot_runs_or_exits]), a dead
      actor ends it ([dead_actor_ends_process]), what a proof leaves when something
      of it cannot be saved is exact ([failed_save_outcome]); configurations that
      load can be served ([from_env_requests]); notices survive JSON but for one
      kind and for times that are not finite ([notice_roundtrip],
      [notices_well_tagged]).

    ** Conventions and bounds

    [Err] is an error the source returns, [Panic] a panic (index, unwrap, expect,
    underflow of a length); exits of the process are said to be so where they
    occur.  Integers are kept at their width; lengths of vectors are natural
    numbers, and the theorems that cast them assume that they fit
    ([vec_fits]).  Recursions that are not structural take fuel: [chunks] as many
    rounds as there are elements, the retry loop of ExecutionRpc its number of
    attempts, [bruteforce_levels] and [subtree] the size of the tree; each comment
    says why it is enough, and the theorems prove results, not the absence of
    wrong ones.  Theorems on runs assume fewer than 2^64 steps (the job counter
    would wrap).

    ** What is assumed

    Code outside src/ is a parameter: keccak256, SHA-256, Poseidon, alloy-trie,
    RLP, helios_consensus_core, rmp_serde, serde's coders of fixed bytes and
    U256, the parsers of URLs, addresses and floats, the SP1 SDK, the nodes and the
    clock.  Their laws are the classes [PastaFieldLaws], [MerkleZerosChain] (the
    data file is the chain of hashes of the sponge: by [zeros_file_regenerated]
    no more than that it is what [save_zeros] writes), [InclusionSound],
    [ExclusionSound], [EmptyRoot], [ProofComplete], [RlpInjective], [RlpNonempty],
    [ProofFunctional] (one proof shows one value), [TrieBuilderLaws] and
    [EmptyTrieProof] (alloy-trie's hash builder, which only tests use),
    [ProofAuthenticated] and [ProofConsumed] (what a malformed proof shows), [RmpLaws]
    and [SerdeLaws], and named hypotheses of a few theorems; every one has an
    instance.  No law says that a hash is collision free: where that matters the
    theorem ends in a collision of the very inputs that the program hashes.

    ** Not modelled

    Log lines, the printing of tests and of a store; the file system (which
    directories can be created and files written is a parameter); timeouts as durations (only whether they pass); the shutdown by ctrl-c; the
    build of the guest and the benchmarks, which only call modelled or external
    code; the writing of vectors as JSON text.  The commands by which a prover is reached are
    parameters. *)
From stdpp Require Export prelude gmap list strings numbers.
From Stdlib Require Export Init.Byte.
From Stdlib Require Import Strings.Byte.

Declare Scope nori_scope.
Delimit Scope nori_scope with nori.
Open Scope Z_scope.

(** ** Results: [Result<A, E>] of the source, plus the outcome of a panic. *)

Inductive res (E A : Type) :=
| Ok (a : A)
| Err (e : E)
| Panic.
Arguments Ok {E A} a.
Arguments Err {E A} e.
Arguments Panic {E A}.

#[global] Instance res_ret {E} : MRet (res E) := λ A a, Ok a.
#[global] Instance res_bind {E} : MBind (res E) := λ A B f m,
  match m with Ok a => f a | Err e => Err e | Panic => Panic end.
#[global] Instance res_fmap {E} : FMap (res E) := λ A B f m,
  match m with Ok a => Ok (f a) | Err e => Err e | Panic => Panic end.

(** [Result::map_err]. *)
Definition map_err {E F A} (f : E → F) (m : res E A) : res F A :=
  match m with Ok a => Ok a | Err e => Err (f e) | Panic => Panic end.

(** [Option::ok_or]. *)
Definition ok_or {E A} (o : option A) (e : E) : res E A :=
  match o with Some a => Ok a | None => Err e end.

(** [Option::unwrap] / [expect]: the program panics on [None]. *)
Definition unwrap {E A} (o : option A) : res E A :=
  match o with Some a => Ok a | None => Panic end.

(** The value of a result that is known to be [Ok] (for concrete examples). *)
Definition ok_default {E A} (d : A) (m : res E A) : A := match m with Ok a => a | _ => d end.

Definition is_ok {E A} (m : res E A) : bool :=
  match m with Ok _ => true | _ => false end.

Lemma ok_default_eq {E A} (d : A) (m : res E A) : is_ok m = true → m = Ok (ok_default d m).
Proof. by destruct m. Qed.

(** ** Loops with early return *)

(** [for x in l { f(x)?; }] *)
Fixpoint try_iter {E A} (f : A → res E ()) (l : list A) : res E () :=
  match l with
  | [] => Ok ()
  | x :: l => _ ← f x; try_iter f l
  end.

(** [for x in l { s = f(s, x)?; }] *)
Fixpoint try_fold {E S A} (f : S → A → res E S) (s : S) (l : list A) : res E S :=
  match l with
  | [] => Ok s
  | x :: l => s ← f s x; try_fold f s l
  end.

(** [for x in l { v.push(f(x)?); }], or [l.iter().map(f).collect::<Result<Vec<_>>>()]. *)
Fixpoint try_map {E A B} (f : A → res E B) (l : list A) : res E (list B) :=
  match l with
  | [] => Ok []
  | x :: l => y ← f x; ys ← try_map f l; Ok (y :: ys)
  end.

(** [l.iter().enumerate()] *)
Definition enumerate {A} (l : list A) : list (nat * A) := imap pair l.

(** [(1..=n).rev()] *)
Definition rev_range (n : nat) : list nat := reverse (seq 1 n).

(** [l.chunks(k)]; [length l] rounds are enough for [k > 0]. *)
Fixpoint chunks_fuel {A} (fuel k : nat) (l : list A) : list (list A) :=
  match fuel, l with
  | O, _ | _, [] => []
  | S fuel, _ => take k l :: chunks_fuel fuel k (drop k l)
  end.
Definition chunks {A} (k : nat) (l : list A) : list (list A) := chunks_fuel (length l) k l.

(** ** Actors: a handler updates the state, sends messages and may fail

    [eff S W E A] is a computation on a state [S] that sends messages [W] in
    order and ends in a [res E A]; the messages sent before a failure stay sent. *)
Definition eff (S W E A : Type) : Type := S → S * list W * res E A.

#[global] Instance eff_ret {S W E} : MRet (eff S W E) := λ A a s, (s, [], Ok a).
#[global] Instance eff_bind {S W E} : MBind (eff S W E) := λ A B f m s,
  match m s with
  | (s, ws, Ok a) => let '(s', ws', r) := f a s in (s', ws ++ ws', r)
  | (s, ws, Err e) => (s, ws, Err e)
  | (s, ws, Panic) => (s, ws, Panic)
  end.
Definition gets {S W E A} (f : S → A) : eff S W E A := λ s, (s, [], Ok (f s)).
Definition modify {S W E} (f : S → S) : eff S W E () := λ s, (f s, [], Ok ()).
Definition lift {S W E A} (r : res E A) : eff S W E A := λ s, (s, [], r).
(** [.expect(..)] on a result. *)
Definition expect_eff {S W E A} (m : eff S W E A) : eff S W E A := λ s,
  match m s with (s', ws, Err _) => (s', ws, Panic) | other => other end.
(** [tx.send(w).await?]: fails with [e] when the receiver is gone. *)
Definition send {S W E} (open : W → bool) (e : E) (w : W) : eff S W E () :=
  λ s, if open w then (s, [w], Ok ()) else (s, [], Err e).

(** Evaluate a handler on a state. *)
Ltac eff_unfold := unfold mbind, eff_bind, mret, eff_ret, modify, gets, lift, send; cbn.

(** ** Bytes *)

#[global] Instance byte_eq_dec : EqDecision byte := Byte.byte_eq_dec.
#[global] Program Instance byte_countable : Countable byte :=
  inj_countable Byte.to_N Byte.of_N _.
Next Obligation. intros b. apply Byte.of_to_N. Qed.
#[global] Instance byte_inhabited : Inhabited byte := populate x00.

Definition byte_Z (b : byte) : Z := Z.of_N (Byte.to_N b).
Definition byte_of_Z (z : Z) : byte :=
  match Byte.of_N (Z.to_N (z `mod` 256)) with Some b => b | None => x00 end.

(** Little-endian and big-endian encodings of [n] bytes. *)
Fixpoint le_bytes (n : nat) (z : Z) : list byte :=
  match n with
  | O => []
  | S n => byte_of_Z z :: le_bytes n (z `div` 256)
  end.
Fixpoint le_val (bs : list byte) : Z :=
  match bs with
  | [] => 0
  | b :: bs => byte_Z b + 256 * le_val bs
  end.
Definition be_bytes (n : nat) (z : Z) : list byte := reverse (le_bytes n z).
Definition be_val (bs : list byte) : Z := le_val (reverse bs).

(** [&bytes[a..b]]; the program panics when the range is not inside the slice. *)
Definition slice {E A} (l : list A) (a b : nat) : res E (list A) :=
  if decide (a ≤ b ≤ length l)%nat then Ok (take (b - a) (drop a l)) else Panic.

(** [l[i]] and [l[i] = x]. *)
Definition index {E A} (l : list A) (i : nat) : res E A := unwrap (l !! i).
Definition vec_set {E A} (l : list A) (i : nat) (x : A) : res E (list A) :=
  if decide (i < length l)%nat then Ok (<[i:=x]> l) else Panic.

(** ** Unsigned machine integers: a value with its range, arithmetic wraps. *)

Record uint (w : nat) := MkUint {
  uint_Z :> Z;
  uint_wf : bool_decide (0 ≤ uint_Z < 2 ^ Z.of_nat w)
}.
Arguments MkUint {w} _ _.
Arguments uint_Z {w} _.
Arguments uint_wf {w} _.

Lemma wrap_wf (w : nat) (z : Z) :
  bool_decide (0 ≤ z `mod` 2 ^ Z.of_nat w < 2 ^ Z.of_nat w).
Proof. apply bool_decide_pack, Z.mod_pos_bound. apply Z.pow_pos_nonneg; lia. Qed.

Definition to_uint (w : nat) (z : Z) : uint w := MkUint (z `mod` 2 ^ Z.of_nat w) (wrap_wf w z).
Abbreviation u8 := (uint 8).
Abbreviation u32 := (uint 32).
Abbreviation u64 := (uint 64).
Abbreviation U256 := (uint 256).

Definition uadd {w} (a b : uint w) : uint w := to_uint w (a + b).
Definition usub {w} (a b : uint w) : uint w := to_uint w (a - b).
Definition ucast {w} (w' : nat) (a : uint w) : uint w' := to_uint w' a.
Definition umin {w} (a b : uint w) : uint w := if decide (b < a) then b else a.

(** [v.len() as u64] *)
Definition len_u64 {A} (l : list A) : u64 := to_uint 64 (Z.of_nat (length l)).

(** ** Fixed-size byte arrays ([FixedBytes<N>], [[u8; N]]) *)

Record FixedBytes (n : nat) := MkFixed {
  fb_bytes : list byte;
  fb_wf : bool_decide (length fb_bytes = n)
}.
Arguments MkFixed {n} _ _.
Arguments fb_bytes {n} _.
Arguments fb_wf {n} _.
Abbreviation B256 := (FixedBytes 32).
Abbreviation Address := (FixedBytes 20).

(** [FixedBytes::from_slice]: panics when the slice has another length. *)
Definition from_slice {E} (n : nat) (l : list byte) : res E (FixedBytes n) :=
  match decide (length l = n) with
  | left H => Ok (MkFixed l (bool_decide_pack _ H))
  | right _ => Panic
  end.

Lemma be_bytes_wf (n : nat) (z : Z) : bool_decide (length (be_bytes n z) = n).
Proof.
  apply bool_decide_pack. unfold be_bytes. rewrite length_reverse.
  revert z. induction n as [|n IH]; intros z; simpl; [done|]. by rewrite IH.
Qed.
(** [U256::to_be_bytes], [u64::to_be_bytes] and the fixed array of a number. *)
Definition fb_of_Z (n : nat) (z : Z) : FixedBytes n := MkFixed (be_bytes n z) (be_bytes_wf n z).
(** [FixedBytes::ZERO], [Address::ZERO], [FixedBytes::default()]. *)
Definition fb_zero (n : nat) : FixedBytes n := fb_of_Z n 0.
(** [FixedBytes::repeat_byte]. *)
Definition repeat_byte (n : nat) (b : byte) : FixedBytes n :=
  MkFixed (replicate n b) (bool_decide_pack _ (length_replicate n b)).

(** ** Lemmas: results and loops *)

(** (The Standard Library's lemma on [In] has the name of stdpp's.) *)
Lemma Forall_elem {A} (P : A → Prop) l : Forall P l ↔ ∀ x, x ∈ l → P x.
Proof. apply list.Forall_forall. Qed.

Section Results.
Context {E : Type}.

Lemma bind_Ok {A B} (f : A → res E B) m b : m ≫= f = Ok b ↔ ∃ a, m = Ok a ∧ f a = Ok b.
Proof. destruct m; simpl; naive_solver. Qed.
Lemma bind_Err {A B} (f : A → res E B) m e :
  m ≫= f = Err e ↔ m = Err e ∨ ∃ a, m = Ok a ∧ f a = Err e.
Proof. destruct m; simpl; naive_solver. Qed.
Lemma bind_Panic {A B} (f : A → res E B) m :
  m ≫= f = Panic ↔ m = Panic ∨ ∃ a, m = Ok a ∧ f a = Panic.
Proof. destruct m; simpl; naive_solver. Qed.
Lemma Ok_bind {A B} (f : A → res E B) a : Ok a ≫= f = f a.
Proof. done. Qed.
Lemma fmap_Ok {A B} (f : A → B) (m : res E A) b : f <$> m = Ok b ↔ ∃ a, m = Ok a ∧ b = f a.
Proof. destruct m; simpl; naive_solver. Qed.
Lemma map_err_Ok {F A} (f : E → F) (m : res E A) a : map_err f m = Ok a ↔ m = Ok a.
Proof. destruct m; simpl; naive_solver. Qed.
Lemma map_err_Panic {F A} (f : E → F) (m : res E A) : map_err f m = Panic ↔ m = Panic.
Proof. destruct m; simpl; naive_solver. Qed.
Lemma map_err_Err {F A} (f : E → F) (m : res E A) e' :
  map_err f m = Err e' ↔ ∃ e, m = Err e ∧ e' = f e.
Proof. destruct m; simpl; naive_solver. Qed.
Lemma ok_or_Ok {A} (o : option A) (e : E) a : ok_or o e = Ok a ↔ o = Some a.
Proof. destruct o; simpl; naive_solver. Qed.
Lemma unwrap_Ok {A} (o : option A) a : unwrap (E:=E) o = Ok a ↔ o = Some a.
Proof. destruct o; simpl; naive_solver. Qed.
Lemma index_Ok {A} (l : list A) i a : index (E:=E) l i = Ok a ↔ l !! i = Some a.
Proof. apply unwrap_Ok. Qed.

Lemma try_iter_Ok {A} (f : A → res E ()) l u :
  try_iter f l = Ok u ↔ Forall (λ x, f x = Ok ()) l.
Proof.
  destruct u. induction l as [|x l IH]; simpl.
  - split; [by constructor|done].
  - rewrite bind_Ok, Forall_cons_iff. setoid_rewrite IH. split; [|naive_solver].
    intros [[] ?]; naive_solver.
Qed.
Lemma try_iter_no_panic {A} (f : A → res E ()) l :
  Forall (λ x, f x ≠ Panic) l → try_iter f l ≠ Panic.
Proof. induction 1; simpl; [done|]. rewrite bind_Panic. by intros [?|(? & _ & ?)]. Qed.

Lemma try_map_Ok {A B} (f : A → res E B) l ys :
  try_map f l = Ok ys ↔ Forall2 (λ x y, f x = Ok y) l ys.
Proof.
  revert ys. induction l as [|x l IH]; intros ys; simpl.
  - split; [intros [= <-]; constructor|]. by inversion_clear 1.
  - rewrite bind_Ok. split.
    + intros (y & Hy & (ys' & Hys & [= <-])%bind_Ok). constructor; [done|]. by apply IH.
    + intros H. inversion_clear H. eexists; split; [done|].
      apply bind_Ok. eexists; split; [by apply IH|done].
Qed.
Lemma try_map_no_panic {A B} (f : A → res E B) l :
  Forall (λ x, f x ≠ Panic) l → try_map f l ≠ Panic.
Proof.
  induction 1; simpl; [done|]. rewrite bind_Panic.
  intros [?|(y & _ & [?|(ys & _ & ?)]%bind_Panic)]; done.
Qed.
(** The first element that does not succeed decides. *)
Lemma try_map_Panic {A B} (f : A → res E B) l :
  try_map f l = Panic ↔ ∃ i x, l !! i = Some x ∧ f x = Panic ∧ ∀ y, y ∈ take i l → ∃ z, f y = Ok z.
Proof.
  induction l as [|x l IH]; simpl; [split; [done|by intros (i & x & ? & _)]|]. split.
  - intros [Hx|(y & Hy & [Hl|(ys & _ & ?)]%bind_Panic)]%bind_Panic; [|apply IH in Hl as (i & x' & Hi & Hx' & Ht)|done].
    + exists 0%nat, x. split_and!; [done..|]. intros z Hz. by apply elem_of_nil in Hz.
    + exists (S i), x'. split_and!; [done..|]. intros z [->|Hz]%elem_of_cons; [by exists y|by apply Ht].
  - intros ([|i] & x' & Hi & Hx' & Ht); [injection Hi as ->; by rewrite Hx'|].
    destruct (Ht x) as [y Hy]; [by left|]. rewrite Hy, Ok_bind.
    assert (try_map f l = Panic) as ->; [|done]. apply IH. exists i, x'. split_and!; [done..|].
    intros z Hz. apply Ht. by right.
Qed.
Lemma try_map_length {A B} (f : A → res E B) l ys : try_map f l = Ok ys → length ys = length l.
Proof. intros H%try_map_Ok. symmetry. by eapply Forall2_length. Qed.

(** A loop over a list succeeds when each of its steps does. *)
Lemma try_map_steps {A B} (f : A → res E B) (P : A → B → Prop) l :
  (∀ x, x ∈ l → ∃ y, f x = Ok y ∧ P x y) → ∃ ys, try_map f l = Ok ys ∧ Forall2 P l ys.
Proof.
  induction l as [|x l IH]; intros Hf; [by exists []|].
  destruct (Hf x) as (y & Hy & HP); [by left|]. destruct IH as (ys & Hys & HPs); [intros; apply Hf; by right|].
  exists (y :: ys). simpl. rewrite Hy, Ok_bind, Hys. split; [done|by constructor].
Qed.

Lemma try_fold_app {S A} (f : S → A → res E S) s l1 l2 :
  try_fold f s (l1 ++ l2) = s' ← try_fold f s l1; try_fold f s' l2.
Proof. revert s. induction l1 as [|x l1 IH]; intros s; simpl; [done|]. destruct (f s x); simpl; auto. Qed.
Lemma try_fold_ext {S A} (f g : S → A → res E S) s l :
  (∀ s x, x ∈ l → f s x = g s x) → try_fold f s l = try_fold g s l.
Proof.
  intros Hfg. revert s. induction l as [|x l IH]; intros s; simpl; [done|].
  rewrite Hfg by set_solver. destruct (g s x); simpl; auto. apply IH. set_solver.
Qed.

(** The Hoare rule of a loop: an invariant indexed by the elements already done. *)
Lemma try_fold_inv {S A} (P : list A → S → Prop) (f : S → A → res E S) s0 l :
  P [] s0 →
  (∀ done x rest s, l = done ++ x :: rest → P done s →
    ∃ s', f s x = Ok s' ∧ P (done ++ [x]) s') →
  ∃ s', try_fold f s0 l = Ok s' ∧ P l s'.
Proof.
  intros H0 Hstep.
  cut (∀ rest dn s, l = dn ++ rest → P dn s → ∃ s', try_fold f s rest = Ok s' ∧ P l s').
  { intros H. by apply (H l []). }
  induction rest as [|x rest IH]; intros dn s Hl Hs; simpl.
  - exists s. split; [done|]. by rewrite app_nil_r in Hl; subst.
  - destruct (Hstep _ _ _ _ Hl Hs) as (s' & -> & Hs'). simpl.
    apply (IH (dn ++ [x])); [|done]. by rewrite <-app_assoc.
Qed.
(** The same for a loop counting up, and for one counting down. *)
Lemma try_fold_seq {S} (P : nat → S → Prop) (f : S → nat → res E S) s0 n :
  P 0%nat s0 →
  (∀ k s, (k < n)%nat → P k s → ∃ s', f s k = Ok s' ∧ P (k + 1)%nat s') →
  ∃ s', try_fold f s0 (seq 0 n) = Ok s' ∧ P n s'.
Proof.
  intros H0 Hstep.
  destruct (try_fold_inv (λ dn s, P (length dn) s) f s0 (seq 0 n)) as (s' & ? & HP).
  - done.
  - intros dn k rest s Hl HP. rewrite length_app. simpl.
    assert (k = length dn) as ->.
    { apply (f_equal (.!! length dn)) in Hl. rewrite list_lookup_middle in Hl by done.
      apply lookup_seq in Hl. lia. }
    apply Hstep; [|done]. apply (f_equal length) in Hl.
    rewrite length_seq, length_app in Hl. simpl in Hl. lia.
  - rewrite length_seq in HP. by exists s'.
Qed.
Lemma try_fold_rev_range {S} (P : nat → S → Prop) (f : S → nat → res E S) s0 n :
  P n s0 →
  (∀ k s, (k < n)%nat → P (k + 1)%nat s → ∃ s', f s (k + 1)%nat = Ok s' ∧ P k s') →
  ∃ s', try_fold f s0 (rev_range n) = Ok s' ∧ P 0%nat s'.
Proof.
  revert s0. induction n as [|n IH]; intros s0 H0 Hstep.
  - by exists s0.
  - unfold rev_range. rewrite seq_S, reverse_app. simpl.
    destruct (Hstep n s0) as (s' & Hf & HP); [lia|by rewrite Nat.add_1_r|].
    rewrite Nat.add_1_r in Hf. rewrite Hf. simpl. apply IH; [done|]. intros. apply Hstep; [lia|done].
Qed.
(** Partial correctness of a loop: the invariant holds whenever the loop returns. *)
Lemma try_fold_Ok_ind {S A} (P : S → Prop) (f : S → A → res E S) s0 l s1 :
  try_fold f s0 l = Ok s1 → P s0 → (∀ s x s', x ∈ l → P s → f s x = Ok s' → P s') → P s1.
Proof.
  revert s0. induction l as [|x l IH]; intros s0; simpl.
  - by intros [= <-].
  - intros (s' & Hf & Hl)%bind_Ok H0 Hstep. eapply IH; [done| |].
    + eapply Hstep; [left|done|done].
    + intros. eapply Hstep; [by right|done|done].
Qed.
Lemma try_fold_no_panic {S A} (f : S → A → res E S) s l :
  (∀ s x, x ∈ l → f s x ≠ Panic) → try_fold f s l ≠ Panic.
Proof.
  revert s. induction l as [|x l IH]; intros s H; simpl; [done|].
  rewrite bind_Panic. intros [?|(s' & ? & ?)].
  - eapply H; [left|done].
  - eapply IH; [|done]. intros. apply H. by right.
Qed.
End Results.

(** ** Which errors a computation can end in ([False] for a panic) *)
Definition errs_in {E A} (P : E → Prop) (m : res E A) : Prop :=
  match m with Ok _ => True | Err e => P e | Panic => False end.

Section ErrsIn.
Context {E : Type} (P : E → Prop).
Lemma errs_in_bind {A B} (f : A → res E B) m :
  errs_in P m → (∀ a, m = Ok a → errs_in P (f a)) → errs_in P (m ≫= f).
Proof. destruct m; simpl; auto. Qed.
Lemma errs_in_map_err {F A} (f : F → E) (m : res F A) :
  errs_in (λ e, P (f e)) m → errs_in P (map_err f m).
Proof. by destruct m. Qed.
Lemma errs_in_ok_or {A} (o : option A) e : P e → errs_in P (ok_or o e).
Proof. by destruct o. Qed.
Lemma errs_in_try_iter {A} (f : A → res E ()) l : (∀ x, errs_in P (f x)) → errs_in P (try_iter f l).
Proof. intros Hf. induction l; [done|]. by apply errs_in_bind. Qed.
Lemma errs_in_try_map {A B} (f : A → res E B) l : (∀ x, errs_in P (f x)) → errs_in P (try_map f l).
Proof.
  intros Hf. induction l; [done|]. apply errs_in_bind; [done|]. intros. by apply errs_in_bind.
Qed.
Lemma errs_in_try_fold {S A} (f : S → A → res E S) s l :
  (∀ s x, errs_in P (f s x)) → errs_in P (try_fold f s l).
Proof. intros Hf. revert s. induction l; intros s; [done|]. by apply errs_in_bind. Qed.
Lemma errs_in_no_panic {A} (m : res E A) : errs_in P m → m ≠ Panic.
Proof. by destruct m. Qed.
Lemma errs_in_Err {A} (m : res E A) e : errs_in P m → m = Err e → P e.
Proof. by intros Hm ->. Qed.
End ErrsIn.
#[export] Hint Resolve errs_in_bind errs_in_map_err errs_in_ok_or errs_in_try_iter errs_in_try_map
  errs_in_try_fold : errs.

Lemma length_enumerate {A} (l : list A) : length (enumerate l) = length l.
Proof. apply length_imap. Qed.
Lemma elem_of_enumerate {A} (l : list A) i x : (i, x) ∈ enumerate l ↔ l !! i = Some x.
Proof.
  unfold enumerate. rewrite elem_of_lookup_imap. naive_solver.
Qed.

(** Break a hypothesis [m = Ok _] about a sequence of monadic steps into its steps. *)
Ltac res_inv :=
  repeat match goal with
  | H : mbind _ _ = Ok _ |- _ => apply bind_Ok in H as (? & ? & H)
  | H : fmap _ _ = Ok _ |- _ => apply fmap_Ok in H as (? & H & ?)
  | H : map_err _ _ = Ok _ |- _ => apply map_err_Ok in H
  | H : ok_or _ _ = Ok _ |- _ => apply ok_or_Ok in H
  | H : unwrap _ = Ok _ |- _ => apply unwrap_Ok in H
  | H : mret _ = Ok _ |- _ => injection H as H
  | H : Ok _ = Ok _ |- _ => injection H as H
  | H : Err _ = Ok _ |- _ => discriminate H
  | H : Panic = Ok _ |- _ => discriminate H
  | H : (if decide ?P then _ else _) = Ok _ |- _ => destruct (decide P)
  | H : (if ?b then _ else _) = Ok _ |- _ => destruct b eqn:?
  end.

(** ** Lemmas: handlers *)
Section Effects.
Context {S W E : Type}.

Lemma eff_bind_Ok {A B} (m : eff S W E A) (f : A → eff S W E B) s s' ws b :
  (m ≫= f) s = (s', ws, Ok b) ↔
  ∃ s1 ws1 a ws2, m s = (s1, ws1, Ok a) ∧ f a s1 = (s', ws2, Ok b) ∧ ws = ws1 ++ ws2.
Proof.
  unfold mbind, eff_bind. split.
  - destruct (m s) as [[s1 ws1] [a| |]]; [|done..]. destruct (f a s1) as [[s2 ws2] r] eqn:Hf.
    intros [= -> <- ->]. by exists s1, ws1, a, ws2.
  - intros (s1 & ws1 & a & ws2 & -> & -> & ->). done.
Qed.
(** The computation panics when it is run on [s]. *)
Definition panics {A} (m : eff S W E A) (s : S) : Prop := snd (m s) = Panic.
Lemma panics_bind {A B} (m : eff S W E A) (f : A → eff S W E B) s :
  panics (m ≫= f) s ↔ panics m s ∨ ∃ s1 ws a, m s = (s1, ws, Ok a) ∧ panics (f a) s1.
Proof.
  unfold panics, mbind, eff_bind. destruct (m s) as [[s1 ws] [a|e|]]; simpl.
  - destruct (f a s1) as [[s2 ws2] r] eqn:Hf; simpl. split.
    + intros ->. right. exists s1, ws, a. by rewrite Hf.
    + intros [?|(s1' & ws' & a' & [= <- <- <-] & Hp)]; [done|]. by rewrite Hf in Hp.
  - split; [done|]. by intros [?|(? & ? & ? & ? & _)].
  - split; [by left|done].
Qed.
Lemma panics_lift {A} (r : res E A) s : panics (lift r : eff S W E A) s ↔ r = Panic.
Proof. done. Qed.
Lemma panics_ret {A} (x : A) s : ¬ panics (mret x : eff S W E A) s.
Proof. done. Qed.
Lemma eff_bind_run {A B} (m : eff S W E A) (f : A → eff S W E B) s s1 ws1 a :
  m s = (s1, ws1, Ok a) → (m ≫= f) s = let '(s', ws', r) := f a s1 in (s', ws1 ++ ws', r).
Proof. unfold mbind, eff_bind. by intros ->. Qed.
Lemma lift_Ok {A} (r : res E A) s s' (ws : list W) a : (lift r : eff S W E A) s = (s', ws, Ok a) ↔ s' = s ∧ ws = [] ∧ r = Ok a.
Proof. unfold lift. naive_solver. Qed.
Lemma ret_Ok {A} (x : A) s s' (ws : list W) a : (mret x : eff S W E A) s = (s', ws, Ok a) ↔ s' = s ∧ ws = [] ∧ a = x.
Proof. unfold mret, eff_ret. naive_solver. Qed.
End Effects.

(** ** Lemmas: bytes *)

Lemma byte_Z_range b : 0 ≤ byte_Z b < 256.
Proof. unfold byte_Z. pose proof (Byte.to_N_bounded b). lia. Qed.
Lemma byte_Z_of_Z z : byte_Z (byte_of_Z z) = z `mod` 256.
Proof.
  unfold byte_of_Z, byte_Z. pose proof (Z.mod_pos_bound z 256 ltac:(lia)).
  destruct (Byte.of_N _) eqn:H'.
  - apply Byte.to_of_N in H'. lia.
  - apply Byte.of_N_None_iff in H'. lia.
Qed.
Lemma byte_of_Z_Z b : byte_of_Z (byte_Z b) = b.
Proof.
  unfold byte_of_Z. rewrite Z.mod_small by apply byte_Z_range.
  unfold byte_Z. by rewrite N2Z.id, Byte.of_to_N.
Qed.
Lemma byte_Z_inj b c : byte_Z b = byte_Z c → b = c.
Proof. intros H. by rewrite <-(byte_of_Z_Z b), H, byte_of_Z_Z. Qed.

Lemma pow256_S n : 256 ^ Z.of_nat (S n) = 256 * 256 ^ Z.of_nat n.
Proof. rewrite Nat2Z.inj_succ, Z.pow_succ_r by lia. done. Qed.
Lemma pow256_pos n : 0 < 256 ^ Z.of_nat n.
Proof. apply Z.pow_pos_nonneg; lia. Qed.
Lemma pow256_pow2 n : 256 ^ Z.of_nat n = 2 ^ (8 * Z.of_nat n).
Proof. change 256 with (2 ^ 8). rewrite <-Z.pow_mul_r by lia. done. Qed.

Lemma length_le_bytes n z : length (le_bytes n z) = n.
Proof. revert z. induction n; intros; simpl; auto. Qed.
Lemma le_val_le_bytes n z : le_val (le_bytes n z) = z `mod` 256 ^ Z.of_nat n.
Proof.
  revert z. induction n as [|n IH]; intros z; simpl.
  - by rewrite Z.mod_1_r.
  - rewrite IH, byte_Z_of_Z. change (Z.pos (Pos.of_succ_nat n)) with (Z.of_nat (S n)).
    rewrite pow256_S. rewrite Z.rem_mul_r; [lia|lia|apply pow256_pos].
Qed.
Lemma le_val_bound bs : 0 ≤ le_val bs < 256 ^ Z.of_nat (length bs).
Proof.
  induction bs as [|b bs IH]; [done|].
  change (le_val (b :: bs)) with (byte_Z b + 256 * le_val bs). simpl length. rewrite pow256_S.
  pose proof (byte_Z_range b). lia.
Qed.
Lemma le_bytes_le_val bs : le_bytes (length bs) (le_val bs) = bs.
Proof.
  induction bs as [|b bs IH]; simpl; [done|].
  pose proof (byte_Z_range b). f_equal.
  - apply byte_Z_inj. rewrite byte_Z_of_Z, Z.mul_comm, Z.mod_add by lia. by apply Z.mod_small.
  - rewrite Z.mul_comm, Z.div_add, Z.div_small by lia. done.
Qed.
Lemma le_val_inj bs cs : length bs = length cs → le_val bs = le_val cs → bs = cs.
Proof. intros Hl Hv. by rewrite <-(le_bytes_le_val bs), <-(le_bytes_le_val cs), Hl, Hv. Qed.
Lemma le_val_app bs cs : le_val (bs ++ cs) = le_val bs + 256 ^ Z.of_nat (length bs) * le_val cs.
Proof.
  induction bs as [|b bs IH].
  - rewrite Z.pow_0_r. simpl. lia.
  - simpl app. simpl length. rewrite pow256_S.
    change (le_val (b :: ?l)) with (byte_Z b + 256 * le_val l). rewrite IH. lia.
Qed.
Lemma le_val_zeros n : le_val (replicate n x00) = 0.
Proof. induction n as [|n IH]; simpl; [done|]. rewrite IH. done. Qed.

Lemma length_be_bytes n z : length (be_bytes n z) = n.
Proof. unfold be_bytes. by rewrite length_reverse, length_le_bytes. Qed.
Lemma be_val_be_bytes n z : be_val (be_bytes n z) = z `mod` 256 ^ Z.of_nat n.
Proof. unfold be_val, be_bytes. by rewrite reverse_involutive, le_val_le_bytes. Qed.
Lemma be_val_bound bs : 0 ≤ be_val bs < 256 ^ Z.of_nat (length bs).
Proof. unfold be_val. rewrite <-(length_reverse bs). apply le_val_bound. Qed.
Lemma be_bytes_be_val bs : be_bytes (length bs) (be_val bs) = bs.
Proof.
  unfold be_bytes, be_val. by rewrite <-(length_reverse bs), le_bytes_le_val, reverse_involutive.
Qed.
Lemma be_val_inj bs cs : length bs = length cs → be_val bs = be_val cs → bs = cs.
Proof. intros Hl Hv. by rewrite <-(be_bytes_be_val bs), <-(be_bytes_be_val cs), Hl, Hv. Qed.
Lemma be_bytes_inj n a b : 0 ≤ a < 256 ^ Z.of_nat n → 0 ≤ b < 256 ^ Z.of_nat n →
  be_bytes n a = be_bytes n b → a = b.
Proof.
  intros Ha Hb H. rewrite <-(Z.mod_small a (256 ^ Z.of_nat n)), <-(Z.mod_small b (256 ^ Z.of_nat n)) by done.
  by rewrite <-!be_val_be_bytes, H.
Qed.

(** ** Lemmas: slices and vectors *)

Lemma slice_Ok {E A} (l : list A) a b s :
  slice (E:=E) l a b = Ok s ↔ (a ≤ b ≤ length l)%nat ∧ s = take (b - a) (drop a l).
Proof. unfold slice. case_decide; naive_solver. Qed.
Lemma slice_in {E A} (l : list A) a b :
  (a ≤ b ≤ length l)%nat → slice (E:=E) l a b = Ok (take (b - a) (drop a l)).
Proof. intros. by apply slice_Ok. Qed.
Lemma index_in {E A} (l : list A) i x : l !! i = Some x → index (E:=E) l i = Ok x.
Proof. intros H. unfold index. by rewrite H. Qed.
Lemma vec_set_in {E A} (l : list A) i x :
  (i < length l)%nat → vec_set (E:=E) l i x = Ok (<[i:=x]> l).
Proof. intros. unfold vec_set. by rewrite decide_True. Qed.

(** [for (i, c) in l.iter().enumerate() { v[i] = g(c)?; }] fills a vector of the length of [l]. *)
Lemma enum_fill {E A B} (R : A → B → Prop) (g : A → res E B) (d : B) (l : list A) :
  Forall (λ c, ∃ z, g c = Ok z ∧ R c z) l →
  ∃ zs, try_fold (λ zs '(i, c), z ← g c; vec_set zs i z) (replicate (length l) d) (enumerate l) = Ok zs ∧
    Forall2 R l zs.
Proof.
  intros Hall. unfold enumerate.
  cut (∀ k pre, k = length pre → ∃ zs,
    try_fold (λ zs '(i, c), z ← g c; vec_set zs i z) (pre ++ replicate (length l) d)
      (imap (λ j c, (k + j, c)%nat) l) = Ok (pre ++ zs) ∧ Forall2 R l zs).
  { intros H. destruct (H 0%nat []) as (zs & ? & ?); [done|]. by exists zs. }
  induction Hall as [|c l (z & Hg & Hz) Hall IH]; intros k pre Hk.
  - exists []. simpl. by rewrite app_nil_r.
  - cbn [imap try_fold]. rewrite Hg, Ok_bind, vec_set_in by (rewrite length_app; simpl; lia).
    rewrite Ok_bind. simpl length. rewrite replicate_S, insert_app_r_alt by lia.
    replace (k + 0 - length pre)%nat with 0%nat by lia. simpl.
    destruct (IH (S k) (pre ++ [z])) as (zs & Hf & Hzs); [rewrite length_app; simpl; lia|].
    exists (z :: zs). rewrite <-!app_assoc in Hf. split; [|by constructor].
    simpl in Hf. etrans; [|exact Hf]. f_equal. apply imap_ext. intros. simpl. f_equal. lia.
Qed.

(** ** Lemmas: machine integers *)

Lemma uint_eq {w} (a b : uint w) : uint_Z a = uint_Z b → a = b.
Proof. destruct a as [a Ha], b as [b Hb]; simpl. intros ->. f_equal. apply proof_irrel. Qed.
Lemma uint_eq_iff {w} (a b : uint w) : a = b ↔ uint_Z a = uint_Z b.
Proof. split; [by intros ->|apply uint_eq]. Qed.
Lemma uint_range {w} (a : uint w) : 0 ≤ uint_Z a < 2 ^ Z.of_nat w.
Proof. destruct a as [a H]; simpl. by apply bool_decide_unpack in H. Qed.
#[global] Instance uint_eq_dec w : EqDecision (uint w).
Proof. refine (λ a b, cast_if (decide (uint_Z a = uint_Z b))); by rewrite uint_eq_iff. Defined.
Lemma uint_Z_to_uint w z : uint_Z (to_uint w z) = z `mod` 2 ^ Z.of_nat w.
Proof. done. Qed.
Lemma to_uint_small w z : 0 ≤ z < 2 ^ Z.of_nat w → uint_Z (to_uint w z) = z.
Proof. intros. by apply Z.mod_small. Qed.
Lemma to_uint_id {w} (a : uint w) : to_uint w a = a.
Proof. apply uint_eq. simpl. apply Z.mod_small, uint_range. Qed.
#[global] Program Instance uint_countable w : Countable (uint w) :=
  inj_countable uint_Z (λ z, Some (to_uint w z)) _.
Next Obligation. intros w a. apply (f_equal Some), to_uint_id. Qed.
#[global] Instance uint_inhabited w : Inhabited (uint w) := populate (to_uint w 0).
Lemma uadd_small {w} (a b : uint w) : a + b < 2 ^ Z.of_nat w → uint_Z (uadd a b) = a + b.
Proof. intros. apply Z.mod_small. pose proof (uint_range a). pose proof (uint_range b). lia. Qed.
Lemma usub_small {w} (a b : uint w) : b ≤ a → uint_Z (usub a b) = a - b.
Proof. intros. apply Z.mod_small. pose proof (uint_range a). pose proof (uint_range b). lia. Qed.
Lemma umin_Z {w} (a b : uint w) : uint_Z (umin a b) = Z.min a b.
Proof. unfold umin. case_decide; lia. Qed.
Lemma ucast_wider {w} (w' : nat) (a : uint w) : (w ≤ w')%nat → uint_Z (ucast w' a) = a.
Proof.
  intros. apply Z.mod_small. pose proof (uint_range a).
  pose proof (Z.pow_le_mono_r 2 (Z.of_nat w) (Z.of_nat w')). lia.
Qed.

(** Range facts of every machine integer in the context, with the widths evaluated. *)
Ltac uint_bounds :=
  repeat match goal with
  | a : uint ?w |- _ =>
    lazymatch goal with
    | _ : 0 ≤ uint_Z a < _ |- _ => fail
    | _ => let H := fresh "Hr" in pose proof (uint_range a) as H
    end
  end;
  change (2 ^ Z.of_nat 64) with 18446744073709551616 in *;
  change (2 ^ Z.of_nat 8) with 256 in *.
Ltac uint_lia := uint_bounds; lia.

(** ** Lemmas: fixed arrays *)

Section FixedBytesLemmas.
Context {n : nat}.
Lemma fb_eq (a b : FixedBytes n) : fb_bytes a = fb_bytes b → a = b.
Proof. destruct a as [a Ha], b as [b Hb]; simpl. intros ->. f_equal. apply proof_irrel. Qed.
Lemma fb_eq_iff (a b : FixedBytes n) : a = b ↔ fb_bytes a = fb_bytes b.
Proof. split; [by intros ->|apply fb_eq]. Qed.
Lemma length_fb (a : FixedBytes n) : length (fb_bytes a) = n.
Proof. destruct a as [a H]; simpl. by apply bool_decide_unpack in H. Qed.
#[global] Instance fb_eq_dec : EqDecision (FixedBytes n).
Proof. refine (λ a b, cast_if (decide (fb_bytes a = fb_bytes b))); by rewrite fb_eq_iff. Defined.
Lemma from_slice_Ok {E} l (a : FixedBytes n) : from_slice (E:=E) n l = Ok a ↔ l = fb_bytes a.
Proof.
  unfold from_slice. destruct (decide _) as [H|H]; split; intros H'; try done.
  - by injection H' as <-.
  - f_equal. by apply fb_eq.
  - subst. by destruct H; apply length_fb.
Qed.
Lemma from_slice_fb {E} (a : FixedBytes n) : from_slice (E:=E) n (fb_bytes a) = Ok a.
Proof. by apply from_slice_Ok. Qed.
Lemma fb_be_val_inj (a b : FixedBytes n) : be_val (fb_bytes a) = be_val (fb_bytes b) → a = b.
Proof. intros H. apply fb_eq, be_val_inj; [by rewrite !length_fb|done]. Qed.
Lemma fb_be_val_bound (a : FixedBytes n) : 0 ≤ be_val (fb_bytes a) < 256 ^ Z.of_nat n.
Proof. rewrite <-(length_fb a) at 3. apply be_val_bound. Qed.
Lemma fb_of_be_val (a : FixedBytes n) : fb_of_Z n (be_val (fb_bytes a)) = a.
Proof. apply fb_eq. simpl. rewrite <-(length_fb a) at 1. apply be_bytes_be_val. Qed.
End FixedBytesLemmas.
#[global] Program Instance fb_countable n : Countable (FixedBytes n) :=
  inj_countable fb_bytes (λ l, match decide (length l = n) with
    | left H => Some (MkFixed l (bool_decide_pack _ H)) | right _ => None end) _.
Next Obligation.
  intros n a. simpl. destruct (decide _) as [H|[]]; [|apply length_fb]. f_equal. by apply fb_eq.
Qed.
#[global] Instance fb_inhabited n : Inhabited (FixedBytes n) := populate (fb_zero n).

Create HintDb nori.
#[export] Hint Rewrite @length_fb @length_be_bytes @length_le_bytes @length_app @length_replicate
  @length_enumerate @length_take @length_drop : nori.
#[export] Hint Resolve uint_range length_fb byte_Z_range : nori.
#[global] Arguments be_bytes : simpl never.
#[global] Arguments be_val : simpl never.
#[global] Arguments to_uint : simpl never.
#[global] Arguments fb_of_Z : simpl never.
#[global] Arguments from_slice : simpl never.
#[global] Arguments slice : simpl never.
#[global] Arguments byte_Z : simpl never.
#[global] Arguments byte_of_Z : simpl never.
