(* ===== verification/Externals.v ===== *)
(** * Interfaces to the code the bridge head calls but does not contain

    Each class is what one third-party crate offers (its types and functions,
    left abstract); the [...Laws] classes state the documented behaviour that
    theorems rely on.  Concrete instances are in [Instances.v]. *)
From S2P Require Import Prelude.

(** Functions of another crate are total: [A + E] is their [Result<A, E>]. *)
Definition of_sum {E A} (s : A + E) : res E A := match s with inl a => Ok a | inr e => Err e end.

Lemma of_sum_Ok {E A} (s : A + E) a : of_sum s = Ok a ↔ s = inl a.
Proof. destruct s; simpl; naive_solver. Qed.
Lemma of_sum_no_panic {E A} (s : A + E) : of_sum s ≠ Panic.
Proof. by destruct s. Qed.

(** ** Hash functions: [alloy_primitives::keccak256], [sha2::Sha256] *)
Class Keccak := keccak256 : list byte → B256.
Class Sha256 := sha256_digest : list byte → B256.

(** ** alloy-trie and alloy-rlp *)

(** [alloy_trie::TrieAccount] *)
Record TrieAccount := MkTrieAccount {
  nonce : u64;
  balance : U256;
  storage_root : B256;
  code_hash : B256
}.
#[global] Instance TrieAccount_eq_dec : EqDecision TrieAccount.
Proof. solve_decision. Defined.

(** [alloy_primitives::Bytes] *)
Abbreviation Bytes := (list byte).

Class AlloyTrie := {
  Nibbles : Type;
  nibbles_unpack : B256 → Nibbles;
  ProofVerificationError : Type;
  pve_to_string : ProofVerificationError → string;
  (** [alloy_trie::proof::verify_proof(root, key, expected_value, proof)] *)
  verify_proof : B256 → Nibbles → option (list byte) → list Bytes → () + ProofVerificationError;
  EMPTY_ROOT_HASH : B256;
  (** [alloy_rlp::Encodable::encode] *)
  u256_encode : U256 → list byte;
  account_encode : TrieAccount → list byte
}.

(** What a state or storage trie with a given root holds. *)
Class TrieContents `{AlloyTrie} := trie_get : B256 → Nibbles → option (list byte).

(** An inclusion proof that verifies shows the value the trie holds. *)
Class InclusionSound `{TrieContents} := verify_proof_incl :
  ∀ root key v pf, verify_proof root key (Some v) pf = inl () → trie_get root key = Some v.
(** An exclusion proof that verifies shows that the trie has no such key
    (alloy-trie with pull request 134; the version the source pins accepts
    truncated proofs, see the comment at the top of mpt.rs). *)
Class ExclusionSound `{TrieContents} := verify_proof_excl :
  ∀ root key pf, verify_proof root key None pf = inl () → trie_get root key = None.
(** [verify_proof] walks the proof along the key and compares what it finds with
    the expected value: one proof shows one value for a key, sound or not. *)
Class ProofFunctional `{AlloyTrie} := verify_proof_functional : ∀ root key v1 v2 pf,
  verify_proof root key v1 pf = inl () → verify_proof root key v2 pf = inl () → v1 = v2.
(** The empty trie holds nothing. *)
Class EmptyRoot `{TrieContents} := empty_root_get : ∀ key, trie_get EMPTY_ROOT_HASH key = None.
(** [eth_getProof]: a node can prove what a trie holds at any key. *)
Class TrieProver `{AlloyTrie} := trie_prove : B256 → Nibbles → list Bytes.
Class ProofComplete `{TrieContents} `{!TrieProver} := trie_prove_ok :
  ∀ root key, verify_proof root key (trie_get root key) (trie_prove root key) = inl ().
(** RLP is an injective encoding. *)
Class RlpInjective `{AlloyTrie} := {
  u256_encode_inj :: Inj (=) (=) u256_encode;
  account_encode_inj :: Inj (=) (=) account_encode
}.

(** ** o1-labs field and sponge: [mina_curves::pasta::Fp], [o1_utils::FieldHelpers],
    [mina_poseidon] *)

Class PastaField := {
  Fp : Type;
  fp_eq_dec :: EqDecision Fp;
  (** [Fp::from(0)] *)
  fp_zero : Fp;
  FieldHelpersError : Type;
  fhe_to_string : FieldHelpersError → string;
  fp_from_bytes : list byte → Fp + FieldHelpersError;
  fp_to_bytes : Fp → list byte
}.

(** [FieldHelpers]: 32 bytes, little-endian, values below the modulus; the
    modulus of the Pallas base field is above [2 ^ 254]. *)
Class PastaFieldLaws `{PastaField} := {
  fp_modulus : Z;
  fp_Z : Fp → Z;
  fp_modulus_bound : 2 ^ 254 < fp_modulus < 2 ^ 255;
  fp_Z_range x : 0 ≤ fp_Z x < fp_modulus;
  fp_Z_inj :: Inj (=) (=) fp_Z;
  fp_zero_Z : fp_Z fp_zero = 0;
  fp_from_bytes_spec bs : length bs = 32%nat → le_val bs < fp_modulus →
    ∃ x, fp_from_bytes bs = inl x ∧ fp_Z x = le_val bs;
  fp_to_bytes_spec x : fp_to_bytes x = le_bytes 32 (fp_Z x)
}.

Class PoseidonSponge `{PastaField} := {
  Sponge : Type;
  (** [Poseidon::<Fp, PlonkSpongeConstantsKimchi, FULL_ROUNDS>::new(fp_kimchi::static_params())] *)
  sponge_new : Sponge;
  sponge_absorb : Sponge → list Fp → Sponge;
  sponge_squeeze : Sponge → Fp
}.

(** ** [Debug] output of third-party types, used in error messages only *)
Class DebugFmt := {
  debug_address : Address → string;
  debug_b256 : B256 → string;
  debug_u256 : U256 → string;
  debug_string : string → string
}.
