(* ===== verification/StorageLayout.v ===== *)
(** * nori-primitives/src/storage_layout.rs

    Storage slots of the NoriProofRequestQueue contract, shared by the guest
    and the host. *)
From S2P Require Import Prelude Externals.

Definition QUEUE_HEAD_STORAGE_INDEX : u8 := to_uint 8 0.
Definition QUEUE_REQUESTS_STORAGE_INDEX : u8 := to_uint 8 1.
Definition QUEUE_ENTRY_WORDS : nat := 5.
Definition MAX_COLLECTION_KEYS : nat := 2.

(** [U256::from_be_bytes] *)
Definition u256_from_be (b : B256) : U256 := to_uint 256 (be_val (fb_bytes b)).
(** [B256::from(U256)] and [U256::to_be_bytes::<32>()] *)
Definition b256_from_u256 (v : U256) : B256 := fb_of_Z 32 v.

(** [buf[off..off + src.len()].copy_from_slice(src)], for a range inside [buf]. *)
Definition write_at (off : nat) (src buf : list byte) : list byte :=
  take off buf ++ src ++ drop (off + length src) buf.

Definition storage_slot_of_index (index : u8) : B256 := b256_from_u256 (ucast 256 index).

(** [abi.encode(key, mapping_slot_index)]: the 64 bytes that are hashed. *)
Definition mapping_entry_preimage (key : U256) (mapping_slot_index : u8) : list byte :=
  let encoded := replicate 64 x00 in
  let encoded := write_at 0 (fb_bytes (b256_from_u256 key)) encoded in
  write_at 32 (fb_bytes (b256_from_u256 (ucast 256 mapping_slot_index))) encoded.

Definition mapping_entry_location `{Keccak} (key : U256) (mapping_slot_index : u8) : B256 :=
  keccak256 (mapping_entry_preimage key mapping_slot_index).

Definition struct_word_slot (base : B256) (word_index : u8) : B256 :=
  b256_from_u256 (uadd (u256_from_be base) (ucast 256 word_index)).

Definition word_of_address (address : Address) : U256 := to_uint 256 (be_val (fb_bytes address)).
Definition word_of_b256 (word : B256) : U256 := u256_from_be word.

(** ** Helper lemmas *)

Lemma pow256_32 : 256 ^ Z.of_nat 32 = 2 ^ Z.of_nat 256.
Proof. by vm_compute. Qed.
Lemma u256_from_be_Z (b : B256) : uint_Z (u256_from_be b) = be_val (fb_bytes b).
Proof. apply to_uint_small. rewrite <-pow256_32. apply fb_be_val_bound. Qed.
Lemma u256_from_be_inj : Inj (=) (=) u256_from_be.
Proof. intros a b H. apply fb_be_val_inj. by rewrite <-!u256_from_be_Z, H. Qed.
Lemma b256_from_u256_val (v : U256) : be_val (fb_bytes (b256_from_u256 v)) = v.
Proof. simpl. rewrite be_val_be_bytes. apply Z.mod_small. rewrite pow256_32. apply uint_range. Qed.
Lemma b256_from_u256_inj : Inj (=) (=) b256_from_u256.
Proof. intros a b H. apply uint_eq. by rewrite <-!b256_from_u256_val, H. Qed.
Lemma u256_from_be_of_u256 (v : U256) : u256_from_be (b256_from_u256 v) = v.
Proof. apply uint_eq. by rewrite u256_from_be_Z, b256_from_u256_val. Qed.
Lemma b256_from_u256_of_be (b : B256) : b256_from_u256 (u256_from_be b) = b.
Proof. apply fb_be_val_inj. by rewrite b256_from_u256_val, u256_from_be_Z. Qed.
Lemma word_of_address_Z (a : Address) : uint_Z (word_of_address a) = be_val (fb_bytes a).
Proof.
  apply to_uint_small. pose proof (fb_be_val_bound a) as H. split; [lia|].
  apply (Z.lt_trans _ (256 ^ Z.of_nat 20)); [lia|by vm_compute].
Qed.
Lemma word_of_address_inj : Inj (=) (=) word_of_address.
Proof. intros a b H. apply fb_be_val_inj. by rewrite <-!word_of_address_Z, H. Qed.
Lemma word_of_b256_inj : Inj (=) (=) word_of_b256.
Proof. apply u256_from_be_inj. Qed.
Lemma ucast_inj {w} w' : (w ≤ w')%nat → Inj (=) (=) (ucast (w:=w) w').
Proof. intros Hw a b H. apply uint_eq. rewrite <-(ucast_wider w' a), <-(ucast_wider w' b), H; done. Qed.

Lemma length_write_at off src buf : (off + length src ≤ length buf)%nat →
  length (write_at off src buf) = length buf.
Proof. intros. unfold write_at. rewrite !length_app, length_take, length_drop. lia. Qed.
Lemma write_at_app off src l1 l2 l3 : off = length l1 → length src = length l2 →
  write_at off src (l1 ++ l2 ++ l3) = l1 ++ src ++ l3.
Proof.
  intros -> Hl. unfold write_at. f_equal; [by rewrite take_app_length|]. f_equal.
  rewrite Hl, app_assoc, <-length_app. apply drop_app_length.
Qed.
Lemma mapping_entry_preimage_eq key i :
  mapping_entry_preimage key i =
  fb_bytes (b256_from_u256 key) ++ fb_bytes (b256_from_u256 (ucast 256 i)).
Proof.
  unfold mapping_entry_preimage.
  generalize (length_fb (b256_from_u256 key)), (length_fb (b256_from_u256 (ucast 256 i))).
  generalize (fb_bytes (b256_from_u256 key)) (fb_bytes (b256_from_u256 (ucast 256 i))).
  intros a b Ha Hb. replace (replicate 64 x00) with ([] ++ replicate 32 x00 ++ replicate 32 x00) by done.
  rewrite write_at_app by done. replace ([] ++ a ++ replicate 32 x00) with (a ++ replicate 32 x00 ++ []) by done.
  rewrite write_at_app by done. by rewrite app_nil_r.
Qed.
Lemma mapping_entry_preimage_inj k1 i1 k2 i2 :
  mapping_entry_preimage k1 i1 = mapping_entry_preimage k2 i2 → k1 = k2 ∧ i1 = i2.
Proof.
  rewrite !mapping_entry_preimage_eq. intros [H1 H2]%app_inj_1; [|by rewrite !length_fb].
  apply fb_eq, b256_from_u256_inj in H1. apply fb_eq, b256_from_u256_inj, ucast_inj in H2; [done|lia].
Qed.
Lemma struct_word_slot_val base i :
  be_val (fb_bytes (struct_word_slot base i)) = (be_val (fb_bytes base) + i) `mod` 2 ^ 256.
Proof.
  unfold struct_word_slot. rewrite b256_from_u256_val. unfold uadd. rewrite uint_Z_to_uint.
  rewrite u256_from_be_Z, ucast_wider by lia. done.
Qed.
Lemma struct_word_slot_inj base : Inj (=) (=) (struct_word_slot base).
Proof.
  intros i j H. apply uint_eq.
  apply (f_equal (λ b, be_val (fb_bytes b))) in H. rewrite !struct_word_slot_val in H.
  pose proof (uint_range i) as Hi. pose proof (uint_range j) as Hj.
  pose proof (fb_be_val_bound base) as Hb. set (b := be_val (fb_bytes base)) in *.
  change (2 ^ Z.of_nat 8) with 256 in *. rewrite pow256_32 in Hb.
  change (2 ^ Z.of_nat 256) with (2 ^ 256) in *.
  assert (256 < 2 ^ 256) by done.
  generalize dependent (2 ^ 256). intros M H Hb HM.
  destruct (decide (b + i < M)), (decide (b + j < M)).
  - rewrite !Z.mod_small in H by lia. lia.
  - rewrite (Z.mod_small (b + i)) in H by lia.
    replace (b + j) with (b + j - M + 1 * M) in H by lia. rewrite Z.mod_add, Z.mod_small in H by lia. lia.
  - rewrite (Z.mod_small (b + j)) in H by lia.
    replace (b + i) with (b + i - M + 1 * M) in H by lia. rewrite Z.mod_add, Z.mod_small in H by lia. lia.
  - replace (b + i) with (b + i - M + 1 * M) in H by lia. replace (b + j) with (b + j - M + 1 * M) in H by lia.
    rewrite !Z.mod_add, !Z.mod_small in H by lia. lia.
Qed.
#[export] Hint Rewrite @u256_from_be_of_u256 @b256_from_u256_of_be : nori.

(** ** Properties *)

(** The inputs [x] and [y] are different and have one keccak256 hash. *)
Definition keccak_collision `{Keccak} (x y : list byte) : Prop := x ≠ y ∧ keccak256 x = keccak256 y.

(** The storage location of a queue entry identifies the mapping and the
    entry's index: the 64-byte preimage is injective, so two locations agree
    only for the same key and slot index, or when the two preimages collide. *)
Lemma mapping_entry_location_binding `{Keccak} k1 i1 k2 i2 :
  (mapping_entry_location k1 i1 = mapping_entry_location k2 i2 ↔ k1 = k2 ∧ i1 = i2)
  ∨ keccak_collision (mapping_entry_preimage k1 i1) (mapping_entry_preimage k2 i2).
Proof.
  destruct (decide (mapping_entry_preimage k1 i1 = mapping_entry_preimage k2 i2)) as [Heq|Hne].
  - left. apply mapping_entry_preimage_inj in Heq as [-> ->]. done.
  - destruct (decide (mapping_entry_location k1 i1 = mapping_entry_location k2 i2)) as [Hl|Hl].
    + by right.
    + left. split; [done|]. intros [-> ->]. done.
Qed.

(** The words of a struct are at consecutive slots modulo [2^256], also
    when the base is within 255 slots of the maximum, so the five words of an
    entry never share a slot. *)
Lemma struct_word_slot_consecutive base i j :
  be_val (fb_bytes (struct_word_slot base i)) = (be_val (fb_bytes base) + i) `mod` 2 ^ 256 ∧
  (struct_word_slot base i = struct_word_slot base j ↔ i = j).
Proof. split; [apply struct_word_slot_val|]. split; [apply struct_word_slot_inj|by intros ->]. Qed.
