(* ===== verification/Types.v ===== *)
(** * nori-primitives/src/types.rs

    The data exchanged by guest and host, and the two public-output codecs
    ([ProofOutputs]: 220 bytes, [ConsensusProofOutputs]: 152 bytes). *)
From stdpp Require Import pretty.
From S2P Require Import Prelude Externals StorageLayout.

(** ** Queue witness data *)

Record QueueEntryProof := MkQueueEntryProof {
  qe_target : Address;
  qe_slot_key : B256;
  qe_collection_keys_count : u8;
  qe_collection_keys : B256 * B256;
  (** [[Vec<Bytes>; QUEUE_ENTRY_WORDS]] *)
  qe_word_proofs : vec (list Bytes) QUEUE_ENTRY_WORDS
}.

Record TargetSlotProof := MkTargetSlotProof {
  tsp_key : B256;
  tsp_value : U256;
  tsp_mpt_proof : list Bytes
}.

Record TargetStorageProof := MkTargetStorageProof {
  ts_target_address : Address;
  ts_account : option TrieAccount;
  ts_account_mpt_proof : list Bytes;
  ts_slots : list TargetSlotProof
}.

Record QueueStorage := MkQueueStorage {
  proof_request_queue_address : Address;
  proof_request_queue_account : TrieAccount;
  proof_request_queue_account_mpt_proof : list Bytes;
  head : u64;
  head_mpt_proof : list Bytes;
  input_cursor : u64;
  entries : list QueueEntryProof;
  targets : list TargetStorageProof
}.

Record VerifiedRequest := MkVerifiedRequest {
  vr_target : Address;
  vr_collection_keys_count : u8;
  vr_collection_keys : B256 * B256;
  vr_value : U256
}.

(** ** helios data *)

(** The types of [helios_consensus_core] that travel through the inputs. *)
Class HeliosTypes := {
  LightClientHeader : Type;
  SyncCommittee : Type;
  Update : Type;
  FinalityUpdate : Type;
  Forks : Type;
  (** the fields of [LightClientStore] the source never names *)
  StoreRest : Type
}.

(** [LightClientStore], with the fields the source reads or writes. *)
Record LightClientStore `{HeliosTypes} := MkStore {
  finalized_header : LightClientHeader;
  current_sync_committee : SyncCommittee;
  next_sync_committee : option SyncCommittee;
  previous_max_active_participants : u64;
  current_max_active_participants : u64;
  store_rest : StoreRest
}.

Record ProofInputs `{HeliosTypes} := MkProofInputs {
  pi_updates : list Update;
  pi_finality_update : FinalityUpdate;
  pi_expected_current_slot : u64;
  pi_store : LightClientStore;
  pi_genesis_root : B256;
  pi_forks : Forks;
  pi_store_hash : B256;
  pi_queue_storage : QueueStorage
}.

Record ProofInputsWithWindow `{HeliosTypes} := MkProofInputsWithWindow {
  input_slot : u64;
  expected_output_slot : u64;
  input_block_number : u64;
  expected_output_block_number : u64;
  proof_inputs : ProofInputs;
  expected_output_store_hash : B256;
  expected_output_queue_cursor : u64
}.

Record DualProofInputsWithWindow `{HeliosTypes} := MkDual {
  current_window : ProofInputsWithWindow;
  next_window : option ProofInputsWithWindow
}.

Record ConsensusProofInputs `{HeliosTypes} := MkConsensusProofInputs {
  cpi_updates : list Update;
  cpi_finality_update : FinalityUpdate;
  cpi_expected_current_slot : u64;
  cpi_store : LightClientStore;
  cpi_genesis_root : B256;
  cpi_forks : Forks;
  cpi_store_hash : B256
}.

#[global] Arguments MkStore {_}.
#[global] Arguments MkProofInputs {_}.
#[global] Arguments MkProofInputsWithWindow {_}.
#[global] Arguments MkDual {_}.
#[global] Arguments MkConsensusProofInputs {_}.

(** ** Public outputs *)

(** [anyhow::Error] *)
Abbreviation anyhow := string.

(** [u64::to_be_bytes] and [u64::from_be_bytes] *)
Definition u64_to_be_bytes (v : u64) : list byte := be_bytes 8 v.
Definition u64_from_be_bytes (b : FixedBytes 8) : u64 := to_uint 64 (be_val (fb_bytes b)).

(** [slice.try_into().context(msg)?] for [[u8; n]]: an error on another length. *)
Definition try_into_array (n : nat) (msg : string) (l : list byte) : res anyhow (FixedBytes n) :=
  match decide (length l = n) with
  | left H => Ok (MkFixed l (bool_decide_pack _ H))
  | right _ => Err msg
  end.

(** [u64::from_be_bytes(bytes[a..b].try_into().context(msg)?)] *)
Definition read_u64 (bytes : list byte) (a b : nat) (msg : string) : res anyhow u64 :=
  s ← slice bytes a b; arr ← try_into_array 8 msg s; Ok (u64_from_be_bytes arr).
(** [FixedBytes::from_slice(&bytes[a..b])] *)
Definition read_fixed (n : nat) (bytes : list byte) (a b : nat) : res anyhow (FixedBytes n) :=
  s ← slice bytes a b; from_slice n s.

(** A proof of the execution state root, which the program does not use yet. *)
Record ExecutionStateProof := MkExecutionStateProof {
  esp_execution_state_root : B256;
  esp_execution_state_branch : list B256;
  esp_gindex : string
}.

Record ProofOutputs := MkProofOutputs {
  po_input_slot : u64;
  po_input_store_hash : B256;
  po_output_slot : u64;
  po_output_store_hash : B256;
  po_execution_state_root : B256;
  po_verified_requests_root : B256;
  po_next_sync_committee_hash : B256;
  po_proof_request_queue_address : Address;
  po_input_queue_cursor : u64;
  po_output_queue_cursor : u64;
  po_output_block_number : u64
}.

Definition ProofOutputs_SIZE : nat := 220.

Definition ProofOutputs_to_bytes (o : ProofOutputs) : list byte :=
  let buf := replicate ProofOutputs_SIZE x00 in
  let buf := write_at 0 (u64_to_be_bytes (po_input_slot o)) buf in
  let buf := write_at 8 (fb_bytes (po_input_store_hash o)) buf in
  let buf := write_at 40 (u64_to_be_bytes (po_output_slot o)) buf in
  let buf := write_at 48 (fb_bytes (po_output_store_hash o)) buf in
  let buf := write_at 80 (fb_bytes (po_execution_state_root o)) buf in
  let buf := write_at 112 (fb_bytes (po_verified_requests_root o)) buf in
  let buf := write_at 144 (fb_bytes (po_next_sync_committee_hash o)) buf in
  let buf := write_at 176 (fb_bytes (po_proof_request_queue_address o)) buf in
  let buf := write_at 196 (u64_to_be_bytes (po_input_queue_cursor o)) buf in
  let buf := write_at 204 (u64_to_be_bytes (po_output_queue_cursor o)) buf in
  write_at 212 (u64_to_be_bytes (po_output_block_number o)) buf.

Definition ProofOutputs_from_bytes (bytes : list byte) : res anyhow ProofOutputs :=
  if decide (length bytes ≠ ProofOutputs_SIZE) then
    Err ("Invalid input length for ProofOutputs: expected " +:+ pretty ProofOutputs_SIZE
         +:+ " bytes, got " +:+ pretty (length bytes))
  else
    input_slot ← read_u64 bytes 0 8 "Failed to parse input_slot bytes";
    input_store_hash ← read_fixed 32 bytes 8 40;
    output_slot ← read_u64 bytes 40 48 "Failed to parse output_slot bytes";
    output_store_hash ← read_fixed 32 bytes 48 80;
    execution_state_root ← read_fixed 32 bytes 80 112;
    verified_requests_root ← read_fixed 32 bytes 112 144;
    next_sync_committee_hash ← read_fixed 32 bytes 144 176;
    proof_request_queue_address ← read_fixed 20 bytes 176 196;
    input_queue_cursor ← read_u64 bytes 196 204 "Failed to parse input_queue_cursor bytes";
    output_queue_cursor ← read_u64 bytes 204 212 "Failed to parse output_queue_cursor bytes";
    output_block_number ← read_u64 bytes 212 220 "Failed to parse output_block_number bytes";
    Ok (MkProofOutputs input_slot input_store_hash output_slot output_store_hash
          execution_state_root verified_requests_root next_sync_committee_hash
          proof_request_queue_address input_queue_cursor output_queue_cursor output_block_number).

Record ConsensusProofOutputs := MkConsensusProofOutputs {
  co_input_slot : u64;
  co_input_store_hash : B256;
  co_output_slot : u64;
  co_output_store_hash : B256;
  co_execution_state_root : B256;
  co_next_sync_committee_hash : B256;
  co_output_block_number : u64
}.

Definition ConsensusProofOutputs_SIZE : nat := 152.

Definition ConsensusProofOutputs_to_bytes (o : ConsensusProofOutputs) : list byte :=
  let buf := replicate ConsensusProofOutputs_SIZE x00 in
  let buf := write_at 0 (u64_to_be_bytes (co_input_slot o)) buf in
  let buf := write_at 8 (fb_bytes (co_input_store_hash o)) buf in
  let buf := write_at 40 (u64_to_be_bytes (co_output_slot o)) buf in
  let buf := write_at 48 (fb_bytes (co_output_store_hash o)) buf in
  let buf := write_at 80 (fb_bytes (co_execution_state_root o)) buf in
  let buf := write_at 112 (fb_bytes (co_next_sync_committee_hash o)) buf in
  write_at 144 (u64_to_be_bytes (co_output_block_number o)) buf.

Definition ConsensusProofOutputs_from_bytes (bytes : list byte) : res anyhow ConsensusProofOutputs :=
  if decide (length bytes ≠ ConsensusProofOutputs_SIZE) then
    Err ("Invalid input length for ConsensusProofOutputs: expected "
         +:+ pretty ConsensusProofOutputs_SIZE +:+ " bytes, got " +:+ pretty (length bytes))
  else
    input_slot ← read_u64 bytes 0 8 "Failed to parse input_slot bytes";
    input_store_hash ← read_fixed 32 bytes 8 40;
    output_slot ← read_u64 bytes 40 48 "Failed to parse output_slot bytes";
    output_store_hash ← read_fixed 32 bytes 48 80;
    execution_state_root ← read_fixed 32 bytes 80 112;
    next_sync_committee_hash ← read_fixed 32 bytes 112 144;
    output_block_number ← read_u64 bytes 144 152 "Failed to parse output_block_number bytes";
    Ok (MkConsensusProofOutputs input_slot input_store_hash output_slot output_store_hash
          execution_state_root next_sync_committee_hash output_block_number).

(** ** Helper lemmas *)

#[global] Arguments u64_to_be_bytes : simpl never.
#[global] Arguments u64_from_be_bytes : simpl never.

Lemma u64_to_from_be (v : u64) (b : FixedBytes 8) :
  fb_bytes b = u64_to_be_bytes v → u64_from_be_bytes b = v.
Proof.
  intros Hb. apply uint_eq. unfold u64_from_be_bytes. rewrite Hb. unfold u64_to_be_bytes.
  rewrite uint_Z_to_uint, be_val_be_bytes. change (256 ^ Z.of_nat 8) with (2 ^ Z.of_nat 64).
  rewrite Z.mod_mod by done. apply Z.mod_small, uint_range.
Qed.
Lemma u64_from_to_be (b : FixedBytes 8) : u64_to_be_bytes (u64_from_be_bytes b) = fb_bytes b.
Proof.
  unfold u64_to_be_bytes, u64_from_be_bytes. rewrite to_uint_small.
  - rewrite <-(length_fb b) at 1. apply be_bytes_be_val.
  - change (2 ^ Z.of_nat 64) with (256 ^ Z.of_nat 8). apply fb_be_val_bound.
Qed.
Lemma length_u64_to_be v : length (u64_to_be_bytes v) = 8%nat.
Proof. apply length_be_bytes. Qed.

(** Writing at the first free offset of a zeroed buffer appends. *)
Lemma write_at_fill pre src k off : off = length pre → (length src ≤ k)%nat →
  write_at off src (pre ++ replicate k x00) = (pre ++ src) ++ replicate (k - length src) x00.
Proof.
  intros -> Hk. replace (replicate k x00) with (replicate (length src) x00 ++ replicate (k - length src) x00)
    by (rewrite <-replicate_add; f_equal; lia).
  rewrite write_at_app; [by rewrite app_assoc|done|by rewrite length_replicate].
Qed.
Lemma slice_mid {E} (pre s post : list byte) a b : a = length pre → b = (length pre + length s)%nat →
  slice (E:=E) (pre ++ s ++ post) a b = Ok s.
Proof.
  intros -> ->. rewrite slice_in by (rewrite !length_app; lia).
  rewrite drop_app_length. replace (length pre + length s - length pre)%nat with (length s) by lia.
  by rewrite take_app_length.
Qed.
Lemma read_fixed_mid n (pre : list byte) (v : FixedBytes n) post a b :
  a = length pre → b = (length pre + n)%nat → read_fixed n (pre ++ fb_bytes v ++ post) a b = Ok v.
Proof.
  intros Ha Hb. unfold read_fixed. rewrite slice_mid by (rewrite ?length_fb; done). rewrite Ok_bind.
  apply from_slice_fb.
Qed.
Lemma read_u64_mid (pre : list byte) (v : u64) post a b msg :
  a = length pre → b = (length pre + 8)%nat → read_u64 (pre ++ u64_to_be_bytes v ++ post) a b msg = Ok v.
Proof.
  intros Ha Hb. unfold read_u64. rewrite slice_mid by (rewrite ?length_u64_to_be; done). rewrite Ok_bind.
  unfold try_into_array. case_decide as H; [|by destruct H; apply length_u64_to_be].
  rewrite Ok_bind. f_equal. by apply u64_to_from_be.
Qed.
(** A read that succeeds returns the bytes of its range. *)
Lemma read_fixed_Ok n bytes a b (v : FixedBytes n) :
  read_fixed n bytes a b = Ok v → (a ≤ b ≤ length bytes)%nat ∧ fb_bytes v = take (b - a) (drop a bytes).
Proof. unfold read_fixed. intros (s & [Hr ->]%slice_Ok & H%from_slice_Ok)%bind_Ok. done. Qed.
Lemma read_u64_Ok bytes a b msg v :
  read_u64 bytes a b msg = Ok v → (a ≤ b ≤ length bytes)%nat ∧ u64_to_be_bytes v = take (b - a) (drop a bytes).
Proof.
  unfold read_u64. intros (s & [Hr ->]%slice_Ok & H)%bind_Ok. split; [done|].
  unfold try_into_array in H. case_decide; [|done]. simpl in H. injection H as <-.
  apply u64_from_to_be.
Qed.
(** Reads inside the buffer succeed. *)
Lemma read_fixed_total n bytes a b : (a ≤ b ≤ length bytes)%nat → (b - a)%nat = n →
  ∃ v, read_fixed n bytes a b = Ok v.
Proof.
  intros Hab Hn. unfold read_fixed. rewrite slice_in by done. rewrite Ok_bind.
  unfold from_slice. case_decide as H; [by eexists|]. destruct H.
  rewrite length_take, length_drop. lia.
Qed.
Lemma read_u64_total bytes a b msg : (a ≤ b ≤ length bytes)%nat → (b - a)%nat = 8%nat →
  ∃ v, read_u64 bytes a b msg = Ok v.
Proof.
  intros Hab Hn. unfold read_u64. rewrite slice_in by done. rewrite Ok_bind.
  unfold try_into_array. case_decide as H; [by eexists|]. destruct H.
  rewrite length_take, length_drop. lia.
Qed.

Lemma ProofOutputs_to_bytes_app a b c d e f g h i j k :
  ProofOutputs_to_bytes (MkProofOutputs a b c d e f g h i j k) =
    u64_to_be_bytes a ++ fb_bytes b ++ u64_to_be_bytes c ++ fb_bytes d ++ fb_bytes e ++
    fb_bytes f ++ fb_bytes g ++ fb_bytes h ++ u64_to_be_bytes i ++ u64_to_be_bytes j ++
    u64_to_be_bytes k.
Proof.
  unfold ProofOutputs_to_bytes, ProofOutputs_SIZE. rewrite <-(app_nil_l (replicate _ _)).
  do 11 (rewrite write_at_fill by (rewrite ?length_app, ?length_u64_to_be, ?length_fb, ?length_nil; lia)).
  rewrite ?length_app, ?length_u64_to_be, ?length_fb.
  cbn [Nat.sub Nat.add replicate]. by rewrite app_nil_r, <-!app_assoc.
Qed.
Lemma ConsensusProofOutputs_to_bytes_app a b c d e f g :
  ConsensusProofOutputs_to_bytes (MkConsensusProofOutputs a b c d e f g) =
    u64_to_be_bytes a ++ fb_bytes b ++ u64_to_be_bytes c ++ fb_bytes d ++ fb_bytes e ++
    fb_bytes f ++ u64_to_be_bytes g.
Proof.
  unfold ConsensusProofOutputs_to_bytes, ConsensusProofOutputs_SIZE. rewrite <-(app_nil_l (replicate _ _)).
  do 7 (rewrite write_at_fill by (rewrite ?length_app, ?length_u64_to_be, ?length_fb, ?length_nil; lia)).
  rewrite ?length_app, ?length_u64_to_be, ?length_fb.
  cbn [Nat.sub Nat.add replicate]. by rewrite app_nil_r, <-!app_assoc.
Qed.

(** ** The two codecs *)

Lemma u64_to_be_bytes_inj : Inj (=) (=) u64_to_be_bytes.
Proof.
  intros a b H. apply uint_eq. apply be_bytes_inj in H; [done|..];
    change (256 ^ Z.of_nat 8) with (2 ^ Z.of_nat 64); apply uint_range.
Qed.
(** Two adjacent pieces of a buffer are one piece. *)
Lemma slice_join {A} (l : list A) k a b : b = (a + k)%nat → take k (drop a l) ++ drop b l = drop a l.
Proof. intros ->. by rewrite <-drop_drop, take_drop. Qed.

Lemma read_u64_at bytes a b msg (v : u64) : (a ≤ b ≤ length bytes)%nat →
  take (b - a) (drop a bytes) = u64_to_be_bytes v → read_u64 bytes a b msg = Ok v.
Proof.
  intros Hab H. destruct (read_u64_total bytes a b msg Hab) as [w Hw].
  { apply (f_equal length) in H. rewrite length_u64_to_be, length_take, length_drop in H. lia. }
  rewrite Hw. f_equal. apply read_u64_Ok in Hw as [_ Hw]. rewrite H in Hw.
  by apply u64_to_be_bytes_inj.
Qed.
Lemma read_fixed_at n bytes a b (v : FixedBytes n) : (a ≤ b ≤ length bytes)%nat →
  take (b - a) (drop a bytes) = fb_bytes v → read_fixed n bytes a b = Ok v.
Proof.
  intros Hab H. unfold read_fixed. rewrite slice_in, Ok_bind, H by done. apply from_slice_fb.
Qed.

(** Select the field at an offset of a concatenation of fields of known lengths. *)
Ltac field_lengths := rewrite ?length_app, ?length_u64_to_be, ?length_fb.
Ltac select_field :=
  repeat (rewrite drop_app_ge by (field_lengths; lia); field_lengths; cbn [Nat.sub]);
  rewrite drop_0; first [rewrite take_app_length' by (field_lengths; lia)
                        |rewrite take_ge by (field_lengths; lia)]; reflexivity.

(** Rewrite every field that was read into its piece of [bytes], and join the pieces. *)
Ltac read_fields bytes last :=
  repeat match goal with
  | H : read_u64 _ _ _ _ = Ok _ |- _ => apply read_u64_Ok in H as [_ H]
  | H : read_fixed _ _ _ _ = Ok _ |- _ => apply read_fixed_Ok in H as [_ H]
  end;
  repeat match goal with
  | H : _ = take _ (drop _ bytes) |- _ => rewrite H; clear H
  end;
  cbn [Nat.sub]; rewrite (take_ge (drop last bytes)) by (rewrite length_drop; lia);
  rewrite !(slice_join bytes) by done.

(** Every read of a buffer of the right length succeeds. *)
Ltac read_all :=
  repeat match goal with
  | |- context [read_u64 ?bs ?a ?b ?msg] =>
      let H := fresh in edestruct (read_u64_total bs a b msg) as [? H];
      [lia|done|rewrite H, Ok_bind; clear H]
  | |- context [read_fixed ?n ?bs ?a ?b] =>
      let H := fresh in edestruct (read_fixed_total n bs a b) as [? H];
      [lia|done|rewrite H, Ok_bind; clear H]
  end; by eexists.

Lemma ProofOutputs_codec_iff bytes o :
  ProofOutputs_from_bytes bytes = Ok o ↔ ProofOutputs_to_bytes o = bytes.
Proof.
  split.
  - unfold ProofOutputs_from_bytes. case_decide as Hlen; [done|]. intros H.
    unfold ProofOutputs_SIZE in Hlen. res_inv. subst o.
    rewrite ProofOutputs_to_bytes_app. read_fields bytes 212%nat. by rewrite drop_0.
  - intros <-. destruct o. unfold ProofOutputs_from_bytes.
    change ProofOutputs_SIZE with 220%nat.
    rewrite ProofOutputs_to_bytes_app, decide_False by (field_lengths; lia).
    erewrite !read_u64_at, !read_fixed_at by (field_lengths; first [lia|select_field]).
    done.
Qed.

(** C35: the 220-byte public output codec is a bijection between [ProofOutputs]
    and the buffers [from_bytes] accepts: decoding an encoding gives the value
    back, and an accepted buffer is the canonical encoding of its value. *)
Theorem ProofOutputs_codec bytes o :
  ProofOutputs_from_bytes bytes = Ok o ↔ ProofOutputs_to_bytes o = bytes.
Proof. apply ProofOutputs_codec_iff. Qed.

Lemma ProofOutputs_from_bytes_cases bytes :
  if decide (length bytes = 220%nat) then ∃ o, ProofOutputs_from_bytes bytes = Ok o
  else ∃ msg, ProofOutputs_from_bytes bytes = Err msg.
Proof.
  unfold ProofOutputs_from_bytes. change ProofOutputs_SIZE with 220%nat.
  case_decide as Hlen; [|rewrite decide_True by done; by eexists].
  rewrite decide_False by tauto. read_all.
Qed.
Lemma ProofOutputs_from_bytes_no_panic bytes : ProofOutputs_from_bytes bytes ≠ Panic.
Proof. pose proof (ProofOutputs_from_bytes_cases bytes) as Hc. case_decide; by destruct Hc as [? ->]. Qed.

(** [ProofOutputs::from_bytes] accepts exactly the 220-byte buffers and
    reports every other length as an error; it never panics. *)
Lemma ProofOutputs_from_bytes_total bytes :
  (if decide (length bytes = 220%nat) then ∃ o, ProofOutputs_from_bytes bytes = Ok o
   else ∃ msg, ProofOutputs_from_bytes bytes = Err msg).
Proof. apply ProofOutputs_from_bytes_cases. Qed.

(** The 152-byte codec of [ConsensusProofOutputs] is a bijection with the
    buffers it accepts, which are exactly those of 152 bytes. *)
Lemma ConsensusProofOutputs_codec bytes :
  (∀ o, ConsensusProofOutputs_from_bytes bytes = Ok o ↔ ConsensusProofOutputs_to_bytes o = bytes) ∧
  (if decide (length bytes = 152%nat) then ∃ o, ConsensusProofOutputs_from_bytes bytes = Ok o
   else ∃ msg, ConsensusProofOutputs_from_bytes bytes = Err msg).
Proof.
  split; [intros o; split|]; unfold ConsensusProofOutputs_from_bytes;
    change ConsensusProofOutputs_SIZE with 152%nat.
  - case_decide as Hlen; [done|]. intros H. res_inv. subst o.
    rewrite ConsensusProofOutputs_to_bytes_app. read_fields bytes 144%nat. by rewrite drop_0.
  - intros <-. destruct o. rewrite ConsensusProofOutputs_to_bytes_app, decide_False by (field_lengths; lia).
    erewrite !read_u64_at, !read_fixed_at by (field_lengths; first [lia|select_field]).
    done.
  - case_decide as Hlen; [|rewrite decide_True by done; by eexists].
    rewrite decide_False by tauto. read_all.
Qed.

(** The byte ranges the destination chain reads: both queue cursors and
    the block number are the last 24 bytes, big-endian, after the queue address. *)
Lemma ProofOutputs_layout o :
  let bytes := ProofOutputs_to_bytes o in
  take 32 (drop 112 bytes) = fb_bytes (po_verified_requests_root o) ∧
  take 20 (drop 176 bytes) = fb_bytes (po_proof_request_queue_address o) ∧
  be_val (take 8 (drop 196 bytes)) = po_input_queue_cursor o ∧
  be_val (take 8 (drop 204 bytes)) = po_output_queue_cursor o ∧
  be_val (drop 212 bytes) = po_output_block_number o.
Proof.
  destruct o as [a b c d e f g h i j k]. cbv zeta. rewrite ProofOutputs_to_bytes_app.
  cbn [po_verified_requests_root po_proof_request_queue_address po_input_queue_cursor
    po_output_queue_cursor po_output_block_number].
  assert (∀ v : u64, be_val (u64_to_be_bytes v) = v) as Hv.
  { intros v. unfold u64_to_be_bytes. rewrite be_val_be_bytes.
    change (256 ^ Z.of_nat 8) with (2 ^ Z.of_nat 64). apply Z.mod_small, uint_range. }
  rewrite <-(Hv i), <-(Hv j), <-(Hv k).
  split_and!; [| |f_equal..]; try select_field.
  rewrite <-(take_ge (drop 212 _) 8) by (rewrite length_drop; field_lengths; lia). select_field.
Qed.
