(* ===== verification/Merkle.v ===== *)
(** * nori-hash/src/merkle_poseidon_fixed.rs: the Merkle tree

    Root, full tree, authentication paths and their verification, over an
    abstract Poseidon sponge.  Vectors mutated in place are lists that are
    threaded through; an index or subtraction out of range is [Panic]. *)
From S2P Require Import Prelude Externals.

Definition MAX_TREE_DEPTH : nat := 16.
Definition MAX_BATCH : Z := Z.shiftl 1 (Z.of_nat MAX_TREE_DEPTH).
Definition N_MERKLE_ZEROS : nat := MAX_TREE_DEPTH + 1.

(** The bytes of [merkle-zeros.dat], one 32-byte little-endian word per line. *)
Definition MERKLE_ZEROS : list byte := mjoin (le_bytes 32 <$> [
  0;
  0x2fadbe2852044d028597455bc2abbd1bc873af205dfabb8a304600f3e09eeba8;
  0x569826a6d1d40b9920867b9bab036422703ccf764fee850be1bbd666a661eb8;
  0x1343e62a28defc26f281abf497855da4c3bd7924e7815ccd38ef760c98adaba;
  0x2d40970e5daa6605dc2d7fb5bba898fe5642de8d783cf42a15bf65a1dfa9e845;
  0x249ad66e58d5da43b120ba3e6c57b946d1a0285c13a129aa0947bf92b18ab48b;
  0x221f20e4e72489754b08a4fecbc505f23226566fd16ed7f6988bf8a25dd36f55;
  0x1fff56aab5d3a09432146bc335714abf14aa6dccc2603b793e403e868b3383a4;
  0x2fc953903538bda751b58b635166740f99dd9dc67c6152015748069bf95d968f;
  0x33ba0c42dfb6a499fff9588b1ce140a8825e17ba22d0391985d340265ea0ee04;
  0x252404fb2a7decc22ff75042d33f8b109af01e2b6d0c7e9c452e9ab6bf1a42a5;
  0x1dd70744a3d64556f2b022f8b61e5a9f71b174ac50ff2d2d0ac36d23c8ee392d;
  0x6ef1f0735963e125d7d5be73e42d5556450d35c6d4e651d23c9ec9e649f017b;
  0x244a804c9c862e76f4f2f1256f51a74df3aacdf5348c6a7abec6e0769ecc5468;
  0x31f12a141df40f3316a9df4bb525e936ca85f969e23c6bfd09b495df63e9d31b;
  0xccdd9994da4ffb1d39fcdf50d2c2c6240c423d6ec332865eea991c7bf1e5a9c;
  0x24807cf0bfd8d61f0f431456489ca762fb4f967c7c58665e80eadd9878b3af19]).

(** [usize::next_power_of_two] and [usize::trailing_zeros] *)
Definition next_power_of_two (n : nat) : nat := 2 ^ Nat.log2_up n.
Fixpoint pos_trailing_zeros (p : positive) : nat :=
  match p with xO p => S (pos_trailing_zeros p) | _ => 0 end.
Definition trailing_zeros (n : nat) : nat :=
  match N.of_nat n with N0 => 64 | Npos p => pos_trailing_zeros p end.

(** [usize::div_ceil(2)] *)
Definition div_ceil2 (n : nat) : nat := Nat.div2 (n + 1).

Definition compute_merkle_tree_depth_and_size (n_leaves : nat) : nat * nat :=
  match n_leaves with
  | 0%nat | 1%nat => (0, 1)%nat
  | _ =>
    let padded_size := next_power_of_two n_leaves in
    let depth := trailing_zeros padded_size in
    (depth, padded_size)
  end.

Section Merkle.
  Context `{PoseidonSponge}.

Definition poseidon_hash (input : list Fp) : Fp :=
  sponge_squeeze (sponge_absorb sponge_new input).

Definition get_merkle_zeros {E} : res E (list Fp) :=
  try_fold (λ zeros '(i, chunk),
    z ← match fp_from_bytes chunk with inl z => Ok z | inr _ => Panic end;
    vec_set zeros i z) (replicate N_MERKLE_ZEROS fp_zero) (enumerate (chunks 32 MERKLE_ZEROS)).

(** The sequence the data file is built from: zero, then the hash of the last value with itself. *)
Fixpoint zero_hash (level : nat) : Fp :=
  match level with
  | O => fp_zero
  | S level => let zero := zero_hash level in poseidon_hash [zero; zero]
  end.
Definition calculate_zeros : list Fp := zero_hash <$> seq 0 N_MERKLE_ZEROS.

(** The data file is that sequence for the sponge in use. *)
Class MerkleZerosChain := merkle_zeros_chain : ∀ E, get_merkle_zeros (E:=E) = Ok calculate_zeros.

Lemma get_merkle_zeros_E {E E'} zs : get_merkle_zeros (E:=E) = Ok zs → get_merkle_zeros (E:=E') = Ok zs.
Proof.
  unfold get_merkle_zeros. generalize (enumerate (chunks 32 MERKLE_ZEROS)) (replicate N_MERKLE_ZEROS fp_zero).
  intros l. induction l as [|[i c] l IH]; intros s; simpl; [by intros [= ->]|].
  destruct (fp_from_bytes c); simpl; [|done]. unfold vec_set. case_decide; [|done]. apply IH.
Qed.

(** [merkle_leaves.extend(repeat_n(0, padded_size - merkle_leaves.len()))]: the
    subtraction underflows (a panic, or an allocation that cannot succeed)
    when there are more leaves than [padded_size]. *)
Definition pad_leaves {E} (merkle_leaves : list Fp) (padded_size : nat) : res E (list Fp) :=
  if decide (length merkle_leaves ≤ padded_size)%nat
  then Ok (merkle_leaves ++ replicate (padded_size - length merkle_leaves) fp_zero)
  else Panic.

(** The parent at index [i]: the looked-up zero hash of a dummy pair, the hash of a real one. *)
Definition parent_node {E} (zeros : list Fp) (depth level n_non_dummy_nodes : nat)
    (nodes : list Fp) (i : nat) : res E Fp :=
  let left_idx := (2 * i)%nat in
  if decide (n_non_dummy_nodes ≤ left_idx)%nat then index zeros (depth + 1 - level)
  else
    let right_idx := (2 * i + 1)%nat in
    l ← index nodes left_idx; r ← index nodes right_idx;
    Ok (poseidon_hash [l; r]).

(** One level of the in-place fold: parents overwrite the front of the vector. *)
Definition fold_level_in_place {E} (zeros : list Fp) (depth level n_non_dummy_nodes : nat)
    (nodes : list Fp) : res E (list Fp) :=
  let level_width := (2 ^ level)%nat in
  try_fold (λ nodes i,
    x ← parent_node zeros depth level n_non_dummy_nodes nodes i; vec_set nodes i x)
    nodes (seq 0 (level_width / 2)).

(** Returns the root and the vector, whose contents are corrupted. *)
Definition fold_merkle_left {E} (merkle_leaves : list Fp) (padded_size depth : nat)
    (zeros : list Fp) : res E (Fp * list Fp) :=
  if decide (merkle_leaves = []) then Ok (fp_zero, merkle_leaves)
  else
    let n_leaves := length merkle_leaves in
    nodes ← pad_leaves merkle_leaves padded_size;
    '(nodes, _) ← try_fold (λ '(nodes, n_non_dummy_nodes) level,
      nodes ← fold_level_in_place zeros depth level n_non_dummy_nodes nodes;
      Ok (nodes, div_ceil2 n_non_dummy_nodes)) (nodes, n_leaves) (rev_range depth);
    root ← index nodes 0;
    Ok (root, nodes).

Definition build_merkle_tree {E} (merkle_leaves : list Fp) (padded_size depth : nat)
    (zeros : list Fp) : res E (list (list Fp)) :=
  let n_leaves := length merkle_leaves in
  leaves ← pad_leaves merkle_leaves padded_size;
  merkle_tree ← vec_set (replicate (depth + 1) []) depth leaves;
  '(merkle_tree, _) ← try_fold (λ '(merkle_tree, n_non_dummy_nodes) level,
    child_level ← index merkle_tree level;
    parent_level ← try_map (parent_node zeros depth level n_non_dummy_nodes child_level)
                     (seq 0 (2 ^ (level - 1)));
    merkle_tree ← vec_set merkle_tree (level - 1) parent_level;
    Ok (merkle_tree, div_ceil2 n_non_dummy_nodes)) (merkle_tree, n_leaves) (rev_range depth);
  Ok merkle_tree.

Definition get_merkle_path_from_leaves {E} (merkle_leaves : list Fp) (padded_size depth : nat)
    (leaf_index : u32) (zeros : list Fp) : res E (list Fp) :=
  if decide (merkle_leaves = []) then Ok []
  else
    let n_leaves := length merkle_leaves in
    nodes ← pad_leaves merkle_leaves padded_size;
    '(_, path, _, _) ← try_fold (λ '(nodes, path, position, n_non_dummy_nodes) level,
      let sibling_index := if decide (position `mod` 2 = 1)%nat then (position - 1)%nat
                           else (position + 1)%nat in
      sibling ← index nodes sibling_index;
      nodes ← fold_level_in_place zeros depth level n_non_dummy_nodes nodes;
      Ok (nodes, path ++ [sibling], (position / 2)%nat, div_ceil2 n_non_dummy_nodes))
      (nodes, [], Z.to_nat leaf_index, n_leaves) (rev_range depth);
    Ok path.

(** [merkle_tree.len() - 1] underflows on an empty tree. *)
Definition get_merkle_path_from_tree {E} (merkle_tree : list (list Fp)) (leaf_index : u32)
    : res E (list Fp) :=
  if decide (merkle_tree = []) then Panic
  else
    let depth := (length merkle_tree - 1)%nat in
    '(path, _) ← try_fold (λ '(path, leaf_index) level,
      let sibling := Z.lxor leaf_index 1 in
      nodes ← index merkle_tree level;
      node ← index nodes (Z.to_nat sibling);
      Ok (path ++ [node], leaf_index / 2)) ([], uint_Z leaf_index) (rev_range depth);
    Ok path.

(** A shift by 64 or more overflows. *)
Definition compute_merkle_root_from_path {E} (leaf_hash : Fp) (leaf_index : u64) (path : list Fp)
    : res E Fp :=
  try_fold (λ hash '(level, sibling),
    if decide (64 ≤ level)%nat then Panic
    else
      let bit := Z.land (Z.shiftr leaf_index (Z.of_nat level)) 1 in
      let '(left', right') := if decide (bit = 1) then (sibling, hash) else (hash, sibling) in
      Ok (poseidon_hash [left'; right'])) leaf_hash (enumerate path).

(** The recursive reference of the test suite: the root of the subtree of [2 ^ k]
    leaves at [offset], a missing leaf being zero. *)
Fixpoint reference_subtree (leaves : list Fp) (offset k : nat) : Fp :=
  match k with
  | O => default fp_zero (leaves !! offset)
  | S k =>
    let half := (2 ^ k)%nat in
    let left' := reference_subtree leaves offset k in
    let right' := reference_subtree leaves (offset + half) k in
    poseidon_hash [left'; right']
  end.
End Merkle.

(** ** Arithmetic of tree sizes *)

Lemma pos_trailing_zeros_pow k : pos_trailing_zeros (Pos.pow 2 (Pos.of_succ_nat k)) = S k.
Proof.
  induction k as [|k IH]; [done|]. rewrite SuccNat2Pos.inj_succ, Pos.pow_succ_r.
  change (2 * ?p)%positive with (xO p). simpl. by rewrite IH.
Qed.
Lemma trailing_zeros_pow2 k : trailing_zeros (2 ^ k) = k.
Proof.
  unfold trailing_zeros. destruct k as [|k]; [done|].
  replace (N.of_nat (2 ^ S k)) with (Npos (Pos.pow 2 (Pos.of_succ_nat k))).
  - apply pos_trailing_zeros_pow.
  - rewrite Nat2N.inj_pow. change (N.of_nat 2) with 2%N. simpl N.of_nat. done.
Qed.
Lemma div_ceil2_le n i : (div_ceil2 n ≤ i ↔ n ≤ 2 * i)%nat.
Proof.
  unfold div_ceil2. rewrite Nat.div2_div.
  pose proof (Nat.div_mod_eq (n + 1) 2). pose proof (Nat.mod_upper_bound (n + 1) 2). lia.
Qed.
Lemma pow2_pos k : (0 < 2 ^ k)%nat.
Proof. induction k; simpl; lia. Qed.
Lemma pow2_half k : (2 ^ (k + 1) / 2 = 2 ^ k)%nat.
Proof. rewrite Nat.add_1_r, Nat.pow_succ_r', Nat.mul_comm. by apply Nat.div_mul. Qed.
Lemma pow2_S k : (2 ^ (k + 1) = 2 * 2 ^ k)%nat.
Proof. by rewrite Nat.add_1_r, Nat.pow_succ_r'. Qed.

Lemma compute_depth_size_spec n d p : compute_merkle_tree_depth_and_size n = (d, p) →
  p = (2 ^ d)%nat ∧ (n ≤ p)%nat ∧ ∀ d', (n ≤ 2 ^ d')%nat → (d ≤ d')%nat.
Proof.
  destruct n as [|[|n]]; simpl.
  - intros [= <- <-]. split_and!; [done|lia|lia].
  - intros [= <- <-]. split_and!; [done|lia|lia].
  - unfold next_power_of_two. rewrite trailing_zeros_pow2. intros [= <- <-].
    destruct (Nat.log2_up_spec (S (S n))) as [_ Hub]; [lia|].
    split_and!; [done|done|]. intros d Hd. by apply Nat.log2_up_le_pow2; [lia|].
Qed.
Lemma compute_depth_size n d p : compute_merkle_tree_depth_and_size n = (d, p) →
  p = (2 ^ d)%nat ∧ (n ≤ p)%nat.
Proof. intros Hc. by apply compute_depth_size_spec in Hc as (? & ? & _). Qed.

(** The depth and padded size of [n] leaves are the least power of two that
    holds them and its exponent: [n <= 2^depth], and one level less is too small. *)
Lemma compute_merkle_tree_depth_and_size_least n :
  let '(depth, padded_size) := compute_merkle_tree_depth_and_size n in
  padded_size = (2 ^ depth)%nat ∧ (n ≤ padded_size)%nat ∧
  ∀ d, (n ≤ 2 ^ d)%nat → (depth ≤ d)%nat.
Proof.
  destruct (compute_merkle_tree_depth_and_size n) as [d p] eqn:Hc.
  by apply compute_depth_size_spec in Hc.
Qed.
