(* ===== verification/Instances.v ===== *)
(** * Concrete instances of the interfaces

    The Pallas base field with its 32-byte encoding (which satisfies every law
    of [PastaFieldLaws]), a small sponge that maps the Merkle zeros as Kimchi's
    Poseidon does, checksums for the byte hashes, and table tries.  They are
    what the witnesses of the theorems evaluate on. *)
From S2P Require Import Prelude Externals Merkle.

(** ** The Pallas base field *)

Definition pallas_modulus : Z := 0x40000000000000000000000000000000224698fc094cf91b992d30ed00000001.

Record PallasFp := MkPallasFp {
  pallas_Z : Z;
  pallas_wf : bool_decide (0 ≤ pallas_Z < pallas_modulus)
}.

Lemma pallas_eq x y : pallas_Z x = pallas_Z y → x = y.
Proof. destruct x, y; simpl. intros ->. f_equal. apply proof_irrel. Qed.
#[global] Instance pallas_eq_dec : EqDecision PallasFp.
Proof. refine (λ x y, cast_if (decide (pallas_Z x = pallas_Z y))); [by apply pallas_eq|congruence]. Defined.
Lemma pallas_wrap_wf z : bool_decide (0 ≤ z `mod` pallas_modulus < pallas_modulus).
Proof. by apply bool_decide_pack, Z.mod_pos_bound. Qed.
Definition pallas_of_Z (z : Z) : PallasFp := MkPallasFp (z `mod` pallas_modulus) (pallas_wrap_wf z).

#[global] Instance pallas_field : PastaField := {|
  Fp := PallasFp;
  fp_eq_dec := pallas_eq_dec;
  fp_zero := pallas_of_Z 0;
  FieldHelpersError := string;
  fhe_to_string e := e;
  fp_from_bytes bs :=
    if decide (length bs = 32%nat ∧ le_val bs < pallas_modulus) then inl (pallas_of_Z (le_val bs))
    else inr "failed to deserialize field bytes";
  fp_to_bytes x := le_bytes 32 (pallas_Z x)
|}.

#[global] Program Instance pallas_laws : PastaFieldLaws := {|
  fp_modulus := pallas_modulus;
  fp_Z := pallas_Z
|}.
Next Obligation. done. Qed.
Next Obligation. intros [z H]. simpl. by apply bool_decide_unpack in H. Qed.
Next Obligation. intros x y. apply pallas_eq. Qed.
Next Obligation. done. Qed.
Next Obligation.
  intros bs Hl Hv. exists (pallas_of_Z (le_val bs)). split.
  - simpl. by rewrite decide_True.
  - apply Z.mod_small. pose proof (le_val_bound bs). change fp_modulus with pallas_modulus in Hv. lia.
Qed.
Next Obligation. done. Qed.

(** ** A sponge: the input is kept, squeezing looks up the Merkle zeros and
    otherwise evaluates a polynomial. *)
Definition zeros_next (z : Z) : option Z :=
  let words := le_val <$> chunks 32 MERKLE_ZEROS in
  '(i, _) ← list_find (λ a, a = z) words; words !! (i + 1)%nat.

Definition toy_squeeze (l : list PallasFp) : PallasFp :=
  let value := foldr (λ x acc, 1 + pallas_Z x + 31 * acc) 0 l in
  match l with
  | [x; y] => if decide (pallas_Z x = pallas_Z y)
              then match zeros_next (pallas_Z x) with Some z => pallas_of_Z z | None => pallas_of_Z value end
              else pallas_of_Z value
  | _ => pallas_of_Z value
  end.

#[global] Instance toy_sponge : PoseidonSponge := {|
  Sponge := list PallasFp;
  sponge_new := [];
  sponge_absorb s l := s ++ l;
  sponge_squeeze := toy_squeeze
|}.

#[global] Instance res_eq_dec {E A} `{EqDecision E, EqDecision A} : EqDecision (res E A).
Proof. solve_decision. Defined.

(** The data file of the source is the chain of hashes of this sponge too. *)
#[global] Instance toy_zeros : MerkleZerosChain.
Proof.
  intros E. assert (get_merkle_zeros (E:=()) = Ok calculate_zeros) as H.
  { apply (bool_decide_unpack _). by vm_compute. }
  by apply (get_merkle_zeros_E (E:=())).
Qed.

(** ** Checksums for keccak256 and SHA-256 *)
Definition checksum (seed : Z) (l : list byte) : B256 :=
  fb_of_Z 32 (foldr (λ b acc, byte_Z b + 257 * acc + seed) (Z.of_nat (length l)) l).
#[global] Instance toy_keccak : Keccak := checksum 3.
#[global] Instance toy_sha256 : Sha256 := checksum 5.

(** ** Tries given by a table of their contents: a proof verifies exactly when
    the table holds the expected value. *)
Definition trie_table := list (B256 * B256 * list byte).

Definition table_get (tbl : trie_table) (root key : B256) : option (list byte) :=
  snd <$> (snd <$> list_find (λ '(r, k, _), r = root ∧ k = key) tbl).

Definition table_trie (tbl : trie_table) : AlloyTrie := {|
  Nibbles := B256;
  nibbles_unpack k := k;
  ProofVerificationError := string;
  pve_to_string e := e;
  verify_proof root key v _ := if decide (table_get tbl root key = v) then inl () else inr "value mismatch";
  EMPTY_ROOT_HASH := fb_of_Z 32 0x56e81f171bcc55a6ff8345e692c0f86e5b48e01b996cadc001622fb5e363b421;
  u256_encode v := be_bytes 32 v;
  account_encode a := be_bytes 8 (nonce a) ++ be_bytes 32 (balance a)
                      ++ fb_bytes (storage_root a) ++ fb_bytes (code_hash a)
|}.
Definition table_contents (tbl : trie_table) : @TrieContents (table_trie tbl) := table_get tbl.

Lemma uint_be_bytes_inj {w} n (a b : uint w) : Z.of_nat w = 8 * Z.of_nat n →
  be_bytes n a = be_bytes n b → a = b.
Proof.
  intros Hw Hab. apply uint_eq, (be_bytes_inj n); [..|done]; rewrite pow256_pow2, <-Hw; apply uint_range.
Qed.

Section Table.
Context (tbl : trie_table).
Existing Instance table_trie.
Existing Instance table_contents.
Lemma table_incl : @InclusionSound (table_trie tbl) (table_contents tbl).
Proof. intros root key v pf. simpl. by case_decide. Qed.
Lemma table_excl : @ExclusionSound (table_trie tbl) (table_contents tbl).
Proof. intros root key pf. simpl. by case_decide. Qed.
Lemma table_empty :
  Forall (λ '(r, _, _), r ≠ @EMPTY_ROOT_HASH (table_trie tbl)) tbl → @EmptyRoot (table_trie tbl) (table_contents tbl).
Proof.
  intros Hall key. unfold trie_get, table_contents, table_get.
  destruct (list_find _ tbl) as [[i [[r k] v]]|] eqn:Hf; [|done].
  apply list_find_Some in Hf as (Hl & [-> ->] & _). by apply (Forall_lookup_1 _ _ _ _ Hall) in Hl.
Qed.
Lemma table_rlp : @RlpInjective (table_trie tbl).
Proof.
  split.
  - intros a b H. by apply (uint_be_bytes_inj 32).
  - intros a b H. destruct a as [n1 b1 s1 c1], b as [n2 b2 s2 c2]. cbn in H.
    apply app_inj_1 in H as [Hn H]; [|by rewrite !length_be_bytes].
    apply app_inj_1 in H as [Hb H]; [|by rewrite !length_be_bytes].
    apply app_inj_1 in H as [Hs Hc]; [|by rewrite !length_fb].
    apply fb_eq in Hs as ->. apply fb_eq in Hc as ->.
    apply uint_be_bytes_inj in Hn as ->; [|done]. by apply uint_be_bytes_inj in Hb as ->.
Qed.
End Table.
