(* ===== verification/MerkleSpec.v ===== *)
(** * Correctness of the Merkle tree of nori-hash

    The in-place fold, the full tree and the two path routines compute the
    nodes of one reference tree ([node]); a path recomputes the root of that
    tree, and only the leaf it was made for does, unless two nodes on the way collide. *)
From S2P Require Import Prelude Externals Merkle Instances.

Section Spec.
Context `{PoseidonSponge}.

(** Node [i] at height [h] above the leaves. *)
Definition node (leaves : list Fp) (h i : nat) : Fp := reference_subtree leaves (i * 2 ^ h) h.

(** How many nodes at height [h] have a real leaf below them. *)
Fixpoint non_dummy (n h : nat) : nat :=
  match h with O => n | S h => div_ceil2 (non_dummy n h) end.

Lemma node_0 leaves i : node leaves 0 i = default fp_zero (leaves !! i).
Proof. unfold node. simpl. by rewrite Nat.mul_1_r. Qed.
Lemma node_S leaves h i :
  node leaves (S h) i = poseidon_hash [node leaves h (2 * i); node leaves h (2 * i + 1)].
Proof. unfold node. cbn [reference_subtree]. rewrite Nat.pow_succ_r'. do 3 f_equal; [lia|]. f_equal. f_equal. lia. Qed.

(** Below node [i] at height [h], the trees over [l1] and [l2] have a node (of
    one height and position) with different children and one hash. *)
Definition tree_collision (l1 l2 : list Fp) (h i : nat) : Prop := ∃ k j : nat,
  (k < h)%nat ∧ (j / 2 ^ (h - S k) = i)%nat ∧
  (node l1 k (2 * j), node l1 k (2 * j + 1)) ≠ (node l2 k (2 * j), node l2 k (2 * j + 1)) ∧
  poseidon_hash [node l1 k (2 * j); node l1 k (2 * j + 1)]
  = poseidon_hash [node l2 k (2 * j); node l2 k (2 * j + 1)].
Lemma tree_collision_S l1 l2 h i b : (b < 2)%nat → tree_collision l1 l2 h (2 * i + b) → tree_collision l1 l2 (S h) i.
Proof.
  intros Hb (k & j & Hk & Hj & Hc). exists k, j. split_and!; [lia| |apply Hc..].
  replace (S h - S k)%nat with (h - S k + 1)%nat by lia.
  rewrite Nat.pow_add_r, <-Nat.Div0.div_div, Hj. change (2 ^ 1)%nat with 2%nat.
  symmetry. apply (Nat.div_unique _ _ _ b); lia.
Qed.

Lemma non_dummy_le n h i : (non_dummy n h ≤ i ↔ n ≤ i * 2 ^ h)%nat.
Proof.
  revert i. induction h as [|h IH]; intros i; simpl; [lia|].
  rewrite div_ceil2_le, IH. lia.
Qed.
Lemma node_dummy leaves h i :
  (non_dummy (length leaves) h ≤ i)%nat → node leaves h i = zero_hash h.
Proof.
  rewrite non_dummy_le. revert i. induction h as [|h IH]; intros i Hi.
  - rewrite Nat.pow_0_r in Hi. rewrite node_0, lookup_ge_None_2 by lia. done.
  - rewrite Nat.pow_succ_r' in Hi. rewrite node_S, !IH by lia. done.
Qed.
Lemma calculate_zeros_lookup h : (h ≤ MAX_TREE_DEPTH)%nat → calculate_zeros !! h = Some (zero_hash h).
Proof.
  intros. unfold calculate_zeros. rewrite list_lookup_fmap, lookup_seq_lt; [done|].
  unfold N_MERKLE_ZEROS. lia.
Qed.

(** A vector whose first [2 ^ k] slots are the nodes at height [h]. *)
Definition level_ok (leaves : list Fp) (h k : nat) (nodes : list Fp) : Prop :=
  ∀ i, (i < 2 ^ k)%nat → nodes !! i = Some (node leaves h i).

Section Levels.
Context (leaves : list Fp) (depth : nat) (Hdepth : (depth ≤ MAX_TREE_DEPTH)%nat).

Lemma padded_level_ok {E} : (length leaves ≤ 2 ^ depth)%nat →
  ∃ nodes, pad_leaves (E:=E) leaves (2 ^ depth) = Ok nodes ∧
    length nodes = (2 ^ depth)%nat ∧ level_ok leaves 0 depth nodes.
Proof.
  intros Hl. unfold pad_leaves. rewrite decide_True by done. eexists; split_and!; [done| |].
  - rewrite length_app, length_replicate. lia.
  - intros i Hi. rewrite node_0. destruct (leaves !! i) as [x|] eqn:Hx.
    + rewrite lookup_app_l by by eapply lookup_lt_Some. done.
    + apply lookup_ge_None in Hx. rewrite lookup_app_r by done. apply lookup_replicate. split; [done|lia].
Qed.

Lemma parent_node_Ok {E} h level nodes i : (h + level + 1 = depth)%nat →
  nodes !! (2 * i)%nat = Some (node leaves h (2 * i)) →
  nodes !! (2 * i + 1)%nat = Some (node leaves h (2 * i + 1)) →
  parent_node (E:=E) calculate_zeros depth (level + 1) (non_dummy (length leaves) h) nodes i
  = Ok (node leaves (S h) i).
Proof.
  intros Hh Hl Hr. unfold parent_node. case_decide as Hc.
  - unfold index. replace (depth + 1 - (level + 1))%nat with (S h) by lia.
    rewrite calculate_zeros_lookup by lia. simpl unwrap. f_equal. symmetry.
    apply node_dummy, non_dummy_le. apply non_dummy_le in Hc. rewrite Nat.pow_succ_r'. lia.
  - unfold index. rewrite Hl, Hr. simpl. by rewrite node_S.
Qed.

(** The parents overwrite the front; a slot is read before it is overwritten. *)
Lemma fold_level_Ok {E} h level nodes : (h + level + 1 = depth)%nat →
  length nodes = (2 ^ depth)%nat → level_ok leaves h (level + 1) nodes →
  ∃ nodes', fold_level_in_place (E:=E) calculate_zeros depth (level + 1)
      (non_dummy (length leaves) h) nodes = Ok nodes' ∧
    length nodes' = (2 ^ depth)%nat ∧ level_ok leaves (S h) level nodes'.
Proof.
  intros Hh Hlen Hok. unfold fold_level_in_place. rewrite pow2_half.
  assert (2 ^ (level + 1) ≤ 2 ^ depth)%nat as Hle by (apply Nat.pow_le_mono_r; lia).
  unfold level_ok in *. rewrite pow2_S in Hle, Hok.
  destruct (try_fold_seq (E:=E) (λ k ns, length ns = (2 ^ depth)%nat ∧
    (∀ i, (i < k)%nat → ns !! i = Some (node leaves (S h) i)) ∧
    (∀ i, (k ≤ i < 2 * 2 ^ level)%nat → ns !! i = Some (node leaves h i)))
    (λ nodes i, x ← parent_node calculate_zeros depth (level + 1) (non_dummy (length leaves) h) nodes i;
                vec_set nodes i x) nodes (2 ^ level)) as (ns & Hns & Hl' & Hdone & _).
  - split_and!; [done|lia|]. intros i Hi. apply Hok. lia.
  - intros k ns Hk (Hl' & Hdone & Htodo).
    rewrite (parent_node_Ok h level) by (try apply Htodo; lia). rewrite Ok_bind.
    rewrite vec_set_in by lia. eexists; split; [done|]. split_and!.
    + by rewrite length_insert.
    + intros i Hi. destruct (decide (i = k)) as [->|].
      * apply list_lookup_insert_eq. lia.
      * rewrite list_lookup_insert_ne by done. apply Hdone. lia.
    + intros i Hi. rewrite list_lookup_insert_ne by lia. apply Htodo. lia.
  - exists ns. split_and!; [done|done|]. intros i Hi. by apply Hdone.
Qed.
End Levels.

Lemma fold_root {E} leaves depth : (depth ≤ MAX_TREE_DEPTH)%nat → (length leaves ≤ 2 ^ depth)%nat →
  (leaves = [] → depth = 0%nat) →
  ∃ scratch, fold_merkle_left (E:=E) leaves (2 ^ depth) depth calculate_zeros
    = Ok (node leaves depth 0, scratch).
Proof.
  intros Hd Hl Hnil. unfold fold_merkle_left. case_decide as Hempty.
  { exists leaves. rewrite Hnil by done. by rewrite Hempty, node_0. }
  destruct (padded_level_ok leaves depth Hd (E:=E)) as (ns0 & -> & Hlen0 & Hok0); [done|]. rewrite Ok_bind.
  destruct (try_fold_rev_range (E:=E) (λ k '(ns, c), ∃ h, (h + k = depth)%nat ∧
      c = non_dummy (length leaves) h ∧ length ns = (2 ^ depth)%nat ∧ level_ok leaves h k ns)
    (λ '(nodes, c) level, nodes ← fold_level_in_place calculate_zeros depth level c nodes;
       Ok (nodes, div_ceil2 c)) (ns0, length leaves) depth) as ([ns c] & -> & h & Hh & _ & _ & Hok).
  - by exists 0%nat.
  - intros k [ns c] Hk (h & Hh & -> & Hlen & Hok).
    destruct (fold_level_Ok leaves depth Hd (E:=E) h k ns) as (ns' & -> & Hlen' & Hok'); [lia|done|done|].
    eexists; split; [done|]. exists (S h). split_and!; [lia|done|done|done].
  - rewrite Ok_bind. erewrite index_in by (apply Hok; simpl; lia). rewrite Ok_bind.
    exists ns. do 3 f_equal. lia.
Qed.
(** ** The full tree *)

Definition tree_level (leaves : list Fp) (h k : nat) : list Fp := node leaves h <$> seq 0 (2 ^ k).

Lemma tree_level_lookup leaves h k i : (i < 2 ^ k)%nat → tree_level leaves h k !! i = Some (node leaves h i).
Proof. intros. unfold tree_level. by rewrite list_lookup_fmap, lookup_seq_lt. Qed.
Lemma tree_level_eq leaves h k nodes : length nodes = (2 ^ k)%nat → level_ok leaves h k nodes →
  nodes = tree_level leaves h k.
Proof.
  intros Hlen Hok. apply list_eq_same_length with (2 ^ k)%nat; [by unfold tree_level; rewrite length_fmap, length_seq|done|].
  intros i x y Hi Hx Hy. rewrite tree_level_lookup in Hy by done. rewrite Hok in Hx by done. congruence.
Qed.

Lemma build_tree_levels {E} leaves depth :
  (depth ≤ MAX_TREE_DEPTH)%nat → (length leaves ≤ 2 ^ depth)%nat →
  ∃ tree, build_merkle_tree (E:=E) leaves (2 ^ depth) depth calculate_zeros = Ok tree ∧
    length tree = (depth + 1)%nat ∧
    ∀ k, (k ≤ depth)%nat → tree !! k = Some (tree_level leaves (depth - k) k).
Proof.
  intros Hd Hl. unfold build_merkle_tree.
  destruct (padded_level_ok leaves depth Hd (E:=E)) as (ns0 & -> & Hlen0 & Hok0); [done|]. rewrite Ok_bind.
  rewrite vec_set_in by (rewrite length_replicate; lia). rewrite Ok_bind.
  match goal with |- context [try_fold ?f ?s _] => destruct (try_fold_rev_range (E:=E)
    (λ k '(tree, c), ∃ h, (h + k = depth)%nat ∧ c = non_dummy (length leaves) h ∧
      length tree = (depth + 1)%nat ∧
      ∀ k', (k ≤ k' ≤ depth)%nat → tree !! k' = Some (tree_level leaves (depth - k') k'))
    f s depth) as ([tree c] & -> & h & Hh & _ & Hlen & Htree) end.
  - exists 0%nat. split_and!; [done|done|by rewrite length_insert, length_replicate|].
    intros k' Hk'. replace k' with depth by lia.
    rewrite list_lookup_insert_eq by (rewrite length_replicate; lia).
    rewrite Nat.sub_diag. f_equal. by apply tree_level_eq.
  - intros k [tree c] Hk (h & Hh & -> & Hlen & Htree).
    rewrite (index_in tree _ _ (Htree (k + 1)%nat ltac:(lia))), Ok_bind.
    replace (depth - (k + 1))%nat with h by lia.
    replace (k + 1 - 1)%nat with k by lia.
    assert (try_map (parent_node (E:=E) calculate_zeros depth (k + 1) (non_dummy (length leaves) h)
      (tree_level leaves h (k + 1))) (seq 0 (2 ^ k)) = Ok (tree_level leaves (S h) k)) as ->.
    { apply try_map_Ok, Forall2_fmap_r, Forall_Forall2_diag, Forall_seq. intros i Hi.
      pose proof (pow2_S k). apply parent_node_Ok; [done|lia|apply tree_level_lookup; lia..]. }
    rewrite Ok_bind, vec_set_in by lia. rewrite Ok_bind.
    eexists; split; [done|]. exists (S h). split_and!; [lia|done|by rewrite length_insert|].
    intros k' Hk'. destruct (decide (k' = k)) as [->|].
    + rewrite list_lookup_insert_eq by lia. do 2 f_equal. lia.
    + rewrite list_lookup_insert_ne by done. apply Htree. lia.
  - rewrite Ok_bind. exists tree. split_and!; [done|done|]. intros k Hk. apply Htree. lia.
Qed.

(** ** Authentication paths *)

(** The other child of the parent of node [i]. *)
Definition sibling_of (i : nat) : nat := if decide (i `mod` 2 = 1)%nat then (i - 1)%nat else (i + 1)%nat.
(** The siblings on the way from leaf [i] up [n] levels, starting at height [h]. *)
Fixpoint sibling_path (leaves : list Fp) (h i n : nat) : list Fp :=
  match n with
  | O => []
  | S n => node leaves h (sibling_of i) :: sibling_path leaves (S h) (i / 2) n
  end.

Lemma sibling_path_snoc leaves h i n :
  sibling_path leaves h i (S n) =
  sibling_path leaves h i n ++ [node leaves (h + n) (sibling_of (i / 2 ^ n))].
Proof.
  revert h i. induction n as [|n IH]; intros h i.
  - cbn [sibling_path app]. change (2 ^ 0)%nat with 1%nat. by rewrite Nat.add_0_r, Nat.div_1_r.
  - change (sibling_path leaves h i (S (S n)))
      with (node leaves h (sibling_of i) :: sibling_path leaves (S h) (i / 2) (S n)).
    rewrite IH, Nat.Div0.div_div, <-Nat.pow_succ_r'.
    by replace (S h + n)%nat with (h + S n)%nat by lia.
Qed.
Lemma length_sibling_path leaves h i n : length (sibling_path leaves h i n) = n.
Proof. revert h i. induction n; intros; simpl; auto. Qed.

Lemma div2_spec i : (i = 2 * (i / 2) + i mod 2 ∧ (i mod 2 = 0 ∨ i mod 2 = 1))%nat.
Proof. pose proof (Nat.div_mod_eq i 2). pose proof (Nat.mod_upper_bound i 2). lia. Qed.
Lemma sibling_of_bound i k : (i < 2 ^ (k + 1) → sibling_of i < 2 ^ (k + 1))%nat.
Proof. rewrite pow2_S. pose proof (div2_spec i). unfold sibling_of. case_decide; lia. Qed.
Lemma parent_bound i k : (i < 2 ^ (k + 1) → i / 2 < 2 ^ k)%nat.
Proof. rewrite pow2_S. pose proof (div2_spec i). lia. Qed.
Lemma sibling_of_lxor i : Z.lxor (Z.of_nat i) 1 = Z.of_nat (sibling_of i).
Proof.
  unfold sibling_of. apply Z.bits_inj'. intros m Hm. rewrite Z.lxor_spec.
  pose proof (div2_spec i) as [Hi Hm2].
  case_decide as Hc.
  - replace (Z.of_nat i) with (2 * Z.of_nat (i / 2) + Z.b2z true) by (unfold Z.b2z; lia).
    replace (Z.of_nat (i - 1)) with (2 * Z.of_nat (i / 2) + Z.b2z false) by (unfold Z.b2z; lia).
    destruct (decide (m = 0)) as [->|].
    + by rewrite !Z.testbit_0_r.
    + replace m with (Z.succ (m - 1)) by lia. rewrite !Z.testbit_succ_r by lia.
      change 1 with (2 * 0 + Z.b2z true) at 2. rewrite Z.testbit_succ_r by lia.
      by rewrite Z.bits_0, xorb_false_r.
  - replace (Z.of_nat i) with (2 * Z.of_nat (i / 2) + Z.b2z false) by (unfold Z.b2z; lia).
    replace (Z.of_nat (i + 1)) with (2 * Z.of_nat (i / 2) + Z.b2z true) by (unfold Z.b2z; lia).
    destruct (decide (m = 0)) as [->|].
    + by rewrite !Z.testbit_0_r.
    + replace m with (Z.succ (m - 1)) by lia. rewrite !Z.testbit_succ_r by lia.
      change 1 with (2 * 0 + Z.b2z true) at 2. rewrite Z.testbit_succ_r by lia.
      by rewrite Z.bits_0, xorb_false_r.
Qed.

Lemma path_from_leaves_Ok {E} leaves depth (i : u32) :
  (depth ≤ MAX_TREE_DEPTH)%nat → (length leaves ≤ 2 ^ depth)%nat → leaves ≠ [] →
  (Z.to_nat i < 2 ^ depth)%nat →
  get_merkle_path_from_leaves (E:=E) leaves (2 ^ depth) depth i calculate_zeros
  = Ok (sibling_path leaves 0 (Z.to_nat i) depth).
Proof.
  intros Hd Hl Hne Hi. unfold get_merkle_path_from_leaves. rewrite decide_False by done.
  destruct (padded_level_ok leaves depth Hd (E:=E)) as (ns0 & -> & Hlen0 & Hok0); [done|]. rewrite Ok_bind.
  match goal with |- context [try_fold ?f ?s _] => destruct (try_fold_rev_range (E:=E)
    (λ k '(ns, path, pos, c), ∃ h, (h + k = depth)%nat ∧ c = non_dummy (length leaves) h ∧
      length ns = (2 ^ depth)%nat ∧ level_ok leaves h k ns ∧ pos = (Z.to_nat i / 2 ^ h)%nat ∧
      (pos < 2 ^ k)%nat ∧ path = sibling_path leaves 0 (Z.to_nat i) h)
    f s depth) as ([[[ns path] pos] c] & -> & h & Hh & _ & _ & _ & _ & _ & ->) end.
  - exists 0%nat. change (2 ^ 0)%nat with 1%nat. by rewrite Nat.div_1_r.
  - intros k [[[ns path] pos] c] Hk (h & Hh & -> & Hlen & Hok & Hpos & Hlt & ->).
    cbn beta iota zeta. fold (sibling_of pos). 
    erewrite index_in by (by apply Hok, sibling_of_bound). rewrite Ok_bind.
    destruct (fold_level_Ok leaves depth Hd (E:=E) h k ns) as (ns' & -> & Hlen' & Hok'); [lia|done|done|].
    rewrite Ok_bind. eexists; split; [done|]. exists (S h). split_and!; [lia|done|done|done| | |].
    + by rewrite Hpos, Nat.Div0.div_div, Nat.pow_succ_r', Nat.mul_comm.
    + by apply parent_bound.
    + by rewrite sibling_path_snoc, Hpos.
  - rewrite Ok_bind. do 2 f_equal. lia.
Qed.

Lemma path_from_tree_Ok {E} leaves depth tree (i : u32) :
  (Z.to_nat i < 2 ^ depth)%nat → length tree = (depth + 1)%nat →
  (∀ k, (k ≤ depth)%nat → tree !! k = Some (tree_level leaves (depth - k) k)) →
  get_merkle_path_from_tree (E:=E) tree i = Ok (sibling_path leaves 0 (Z.to_nat i) depth).
Proof.
  intros Hi Hlen Htree. unfold get_merkle_path_from_tree.
  rewrite decide_False by (intros ->; simpl in Hlen; lia).
  replace (length tree - 1)%nat with depth by lia.
  match goal with |- context [try_fold ?f ?s _] => destruct (try_fold_rev_range (E:=E)
    (λ k '(path, idx), ∃ h, (h + k = depth)%nat ∧ idx = Z.of_nat (Z.to_nat i / 2 ^ h) ∧
      (Z.to_nat i / 2 ^ h < 2 ^ k)%nat ∧ path = sibling_path leaves 0 (Z.to_nat i) h)
    f s depth) as ([path idx] & -> & h & Hh & _ & _ & ->) end.
  - exists 0%nat. change (2 ^ 0)%nat with 1%nat. rewrite Nat.div_1_r. pose proof (uint_range i).
    split_and!; [done|lia|done|done].
  - intros k [path idx] Hk (h & Hh & -> & Hlt & ->). cbn beta iota zeta.
    rewrite (index_in tree _ _ (Htree (k + 1)%nat ltac:(lia))), Ok_bind.
    replace (depth - (k + 1))%nat with h by lia. rewrite sibling_of_lxor, Nat2Z.id.
    erewrite index_in by (by apply tree_level_lookup, sibling_of_bound). rewrite Ok_bind.
    eexists; split; [done|]. exists (S h). rewrite Nat.pow_succ_r', (Nat.mul_comm 2), <-Nat.Div0.div_div.
    split_and!; [lia|by rewrite (Nat2Z.inj_div _ 2)|by apply parent_bound|by rewrite sibling_path_snoc].
  - rewrite Ok_bind. do 2 f_equal. lia.
Qed.

(** ** Verification of a path *)

Fixpoint hash_path (hash : Fp) (i : nat) (path : list Fp) : Fp :=
  match path with
  | [] => hash
  | s :: path =>
    hash_path (if decide (i `mod` 2 = 1)%nat then poseidon_hash [s; hash] else poseidon_hash [hash; s])
      (i / 2) path
  end.

Lemma compute_root_hash_path {E} hash (i : u64) path : (length path ≤ 64)%nat →
  compute_merkle_root_from_path (E:=E) hash i path = Ok (hash_path hash (Z.to_nat i) path).
Proof.
  intros Hl. unfold compute_merkle_root_from_path, enumerate.
  assert (uint_Z i = Z.of_nat (Z.to_nat i)) as Hi by (pose proof (uint_range i); lia).
  revert Hi. generalize (Z.to_nat i) as n. intros n ->.
  cut (∀ k h, (k + length path ≤ 64)%nat →
    try_fold (E:=E) (λ hash '(level, sibling), if decide (64 ≤ level)%nat then Panic
      else let bit := Z.land (Z.shiftr (Z.of_nat n) (Z.of_nat level)) 1 in
      let '(left', right') := if decide (bit = 1) then (sibling, hash) else (hash, sibling) in
      Ok (poseidon_hash [left'; right'])) h (imap (λ j x, ((k + j)%nat, x)) path)
    = Ok (hash_path h (n / 2 ^ k) path)).
  { intros Hc. specialize (Hc 0%nat hash Hl). change (2 ^ 0)%nat with 1%nat in Hc.
    rewrite Nat.div_1_r in Hc. done. }
  clear Hl. induction path as [|s path IH]; intros k h Hk; [done|].
  simpl length in Hk. cbn [imap try_fold]. rewrite Nat.add_0_r, decide_False by lia.
  rewrite (Z.land_ones _ 1 ltac:(lia) : Z.land _ 1 = _), Z.shiftr_div_pow2 by lia.
  cbn [hash_path]. rewrite Nat.Div0.div_div, (Nat.mul_comm _ 2), <-Nat.pow_succ_r'.
  assert ((Z.of_nat n / 2 ^ Z.of_nat k) `mod` 2 ^ 1 = Z.of_nat ((n / 2 ^ k) `mod` 2)) as ->.
  { rewrite Nat2Z.inj_mod, Nat2Z.inj_div, Nat2Z.inj_pow. done. }
  erewrite imap_ext; [|intros; simpl; by rewrite <-Nat.add_succ_comm].
  do 2 case_decide; try lia; rewrite Ok_bind; apply IH; lia.
Qed.

Lemma hash_path_siblings leaves h i n :
  hash_path (node leaves h i) i (sibling_path leaves h i n) = node leaves (h + n) (i / 2 ^ n).
Proof.
  revert h i. induction n as [|n IH]; intros h i.
  - change (2 ^ 0)%nat with 1%nat. by rewrite Nat.add_0_r, Nat.div_1_r.
  - cbn [hash_path sibling_path].
    replace (if decide _ then _ else _) with (node leaves (S h) (i / 2)).
    + by rewrite IH, Nat.Div0.div_div, <-Nat.pow_succ_r', Nat.add_succ_r.
    + rewrite node_S. unfold sibling_of. pose proof (div2_spec i).
      case_decide; do 2 f_equal; [f_equal; lia|f_equal; f_equal; lia|f_equal; lia|f_equal; f_equal; lia].
Qed.

(** After [k] steps up the two paths are at one node, reached from different children. *)
Definition path_collision (x y : Fp) (i : nat) (p q : list Fp) : Prop := ∃ (k : nat) (s t : Fp),
  p !! k = Some s ∧ q !! k = Some t ∧
  (hash_path x i (take k p), s) ≠ (hash_path y i (take k q), t) ∧
  hash_path x i (take (S k) p) = hash_path y i (take (S k) q).
(** Two paths for one index to one root start from one leaf, or collide on the way. *)
Lemma hash_path_binding x y i p q : length p = length q → hash_path x i p = hash_path y i q →
  x = y ∧ p = q ∨ path_collision x y i p q.
Proof.
  revert x y i q. induction p as [|s p IH]; intros x y i [|t q] Hl Heq; try done.
  - by left.
  - cbn [hash_path] in Heq. apply IH in Heq as [[Heq ->]|(k & a & b & Hc)]; [| |by injection Hl].
    + destruct (decide ((x, s) = (y, t))) as [[= -> ->]|Hne]; [by left|].
      right. by exists 0%nat, s, t.
    + right. by exists (S k), a, b.
Qed.
End Spec.

Section Theorems.
Context `{PoseidonSponge}.

Lemma max_batch_depth n depth size : Z.of_nat n ≤ MAX_BATCH →
  compute_merkle_tree_depth_and_size n = (depth, size) →
  size = (2 ^ depth)%nat ∧ (n ≤ 2 ^ depth)%nat ∧ (depth ≤ MAX_TREE_DEPTH)%nat ∧ (n = 0%nat → depth = 0%nat).
Proof.
  intros Hn Hc. pose proof Hc as (-> & Hl & Hmin)%compute_depth_size_spec. split_and!; [done|done| |].
  - apply Hmin. apply Nat2Z.inj_le. rewrite Nat2Z.inj_pow. exact Hn.
  - intros ->. by injection Hc as <- _.
Qed.

(** The leaves below a node are determined by its hash, unless two nodes below it collide. *)
Lemma node_binding l1 l2 h i : node l1 h i = node l2 h i →
  (∀ j, (j < 2 ^ h)%nat → default fp_zero (l1 !! (i * 2 ^ h + j)%nat) = default fp_zero (l2 !! (i * 2 ^ h + j)%nat))
  ∨ tree_collision l1 l2 h i.
Proof.
  revert i. induction h as [|h IH]; intros i Heq.
  - left. intros j Hj. rewrite !node_0 in Heq. change (2 ^ 0)%nat with 1%nat in *.
    replace j with 0%nat by lia. by rewrite Nat.mul_1_r, Nat.add_0_r.
  - rewrite !node_S in Heq.
    destruct (decide ((node l1 h (2 * i), node l1 h (2 * i + 1)) = (node l2 h (2 * i), node l2 h (2 * i + 1))))
      as [[= Ha Hb]|Hne].
    2:{ right. exists h, i. rewrite Nat.sub_diag, Nat.div_1_r. by split_and!; [lia|..]. }
    apply IH in Ha as [Ha|Hc]; [|right; apply (tree_collision_S _ _ _ _ 0); [lia|by rewrite Nat.add_0_r]].
    apply IH in Hb as [Hb|Hc]; [|right; by apply (tree_collision_S _ _ _ _ 1); [lia|]].
    left. intros j Hj. rewrite Nat.pow_succ_r' in *. destruct (decide (j < 2 ^ h)%nat).
    + replace (i * (2 * 2 ^ h) + j)%nat with (2 * i * 2 ^ h + j)%nat by lia. by apply Ha.
    + replace (i * (2 * 2 ^ h) + j)%nat with ((2 * i + 1) * 2 ^ h + (j - 2 ^ h))%nat by lia. apply Hb. lia.
Qed.

(** C11: the optimised in-place fold (dummy subtrees looked up in the zeros table)
    never panics on at most [MAX_BATCH] leaves and returns the root of the
    recursive reference tree over the zero-padded leaves. *)
Theorem fold_merkle_left_reference `{!MerkleZerosChain} {E} leaves depth size :
  Z.of_nat (length leaves) ≤ MAX_BATCH →
  compute_merkle_tree_depth_and_size (length leaves) = (depth, size) →
  ∃ scratch, (zeros ← get_merkle_zeros; fold_merkle_left (E:=E) leaves size depth zeros)
    = Ok (reference_subtree leaves 0 depth, scratch).
Proof.
  intros Hn Hc. destruct (max_batch_depth _ _ _ Hn Hc) as (-> & Hl & Hd & Hz0).
  rewrite merkle_zeros_chain, Ok_bind.
  apply fold_root; [done|done|]. intros ->. by apply Hz0.
Qed.

(** Both path routines (from the leaves, folding in place, and from the full
    tree) return the same [depth] siblings for every leaf index, and
    recomputing the root from them gives the root of the reference tree. *)
Lemma merkle_path_complete `{!MerkleZerosChain} {E} leaves depth size (i : u32) :
  Z.of_nat (length leaves) ≤ MAX_BATCH → leaves ≠ [] → (Z.to_nat i < size)%nat →
  compute_merkle_tree_depth_and_size (length leaves) = (depth, size) →
  ∃ zeros path tree, get_merkle_zeros (E:=E) = Ok zeros ∧
    get_merkle_path_from_leaves (E:=E) leaves size depth i zeros = Ok path ∧
    build_merkle_tree (E:=E) leaves size depth zeros = Ok tree ∧
    get_merkle_path_from_tree (E:=E) tree i = Ok path ∧
    length path = depth ∧
    compute_merkle_root_from_path (E:=E) (default fp_zero (leaves !! Z.to_nat i)) (ucast 64 i) path
    = Ok (reference_subtree leaves 0 depth).
Proof.
  intros Hn Hne Hi Hc. destruct (max_batch_depth _ _ _ Hn Hc) as (-> & Hl & Hd & _).
  destruct (build_tree_levels (E:=E) leaves depth) as (tree & Hb & Htl & Htree); [done|done|].
  exists calculate_zeros, (sibling_path leaves 0 (Z.to_nat i) depth), tree.
  split_and!; [apply merkle_zeros_chain|by apply path_from_leaves_Ok|done|by eapply path_from_tree_Ok
              |apply length_sibling_path|].
  rewrite compute_root_hash_path by (rewrite length_sibling_path; unfold MAX_TREE_DEPTH in Hd; lia).
  rewrite ucast_wider by lia. rewrite <-node_0, hash_path_siblings, Nat.div_small by done. done.
Qed.

(** A path of [depth] siblings that leads from a claimed leaf at index [i] to
    the root of a leaf vector proves that the leaf is the one at [i] and the
    path the one the tree has, or collides with it on the way up. *)
Lemma merkle_path_binding {E} leaves depth (i : u64) leaf path :
  (depth ≤ 64)%nat → length path = depth → (Z.to_nat i < 2 ^ depth)%nat →
  compute_merkle_root_from_path (E:=E) leaf i path = Ok (reference_subtree leaves 0 depth) →
  (leaf = default fp_zero (leaves !! Z.to_nat i) ∧ path = sibling_path leaves 0 (Z.to_nat i) depth)
  ∨ path_collision leaf (default fp_zero (leaves !! Z.to_nat i)) (Z.to_nat i) path
      (sibling_path leaves 0 (Z.to_nat i) depth).
Proof.
  intros Hd Hl Hi. rewrite compute_root_hash_path by lia. intros [= Hroot].
  rewrite <-node_0 in *. eapply (hash_path_binding _ _ (Z.to_nat i)).
  - by rewrite length_sibling_path.
  - by rewrite hash_path_siblings, Nat.div_small.
Qed.

(** C37: the root commits to the whole leaf vector: two batches of the same length
    with one root are the same batch, or in their two trees some node of one
    height and position has different children and one Poseidon hash. *)
Theorem fold_merkle_left_binding `{!MerkleZerosChain} {E} l1 l2 depth size root s1 s2 :
  Z.of_nat (length l1) ≤ MAX_BATCH → length l2 = length l1 →
  compute_merkle_tree_depth_and_size (length l1) = (depth, size) →
  (zeros ← get_merkle_zeros; fold_merkle_left (E:=E) l1 size depth zeros) = Ok (root, s1) →
  (zeros ← get_merkle_zeros; fold_merkle_left (E:=E) l2 size depth zeros) = Ok (root, s2) →
  l1 = l2 ∨ tree_collision l1 l2 depth 0.
Proof.
  intros Hn Hlen Hc. destruct (max_batch_depth _ _ _ Hn Hc) as (-> & Hl & Hd & Hz0).
  rewrite merkle_zeros_chain, !Ok_bind.
  destruct (fold_root (E:=E) l1 depth Hd Hl) as [s1' ->]; [intros ->; by apply Hz0|].
  destruct (fold_root (E:=E) l2 depth Hd) as [s2' ->]; [lia|intros ->; by apply Hz0; rewrite <-Hlen|].
  intros [= <- _] [= Heq _]. symmetry in Heq. apply node_binding in Heq as [Heq|]; [left|by right].
  apply list_eq_same_length with (length l1); [done|done|]. intros i x y Hi Hx Hy.
  specialize (Heq i ltac:(lia)). simpl in Heq. rewrite Hx, Hy in Heq. done.
Qed.

(** Reading the zeros table never panics: its 17 entries are canonical
    field elements, and the first is zero. *)
Lemma get_merkle_zeros_total `{!PastaFieldLaws} {E} :
  ∃ zeros, get_merkle_zeros (E:=E) = Ok zeros ∧ length zeros = N_MERKLE_ZEROS ∧
    fp_Z <$> zeros = le_val <$> chunks 32 MERKLE_ZEROS ∧ zeros !! 0%nat = Some fp_zero.
Proof.
  assert (Forall (λ c, length c = 32%nat ∧ le_val c < 2 ^ 254) (chunks 32 MERKLE_ZEROS)) as Hok.
  { apply (bool_decide_unpack _). by vm_compute. }
  assert (length (chunks 32 MERKLE_ZEROS) = N_MERKLE_ZEROS ∧
    (le_val <$> chunks 32 MERKLE_ZEROS) !! 0%nat = Some 0) as [Hlen Hhd] by by vm_compute.
  destruct (enum_fill (E:=E) (λ c z, fp_Z z = le_val c) (λ chunk, 
    match fp_from_bytes chunk with inl z => Ok z | inr _ => Panic end) fp_zero (chunks 32 MERKLE_ZEROS)) as (zeros & Hz & Hall).
  - refine (Forall_impl _ _ Hok). intros c [Hc Hv].
    destruct (fp_from_bytes_spec c Hc (Z.lt_trans _ _ _ Hv (proj1 fp_modulus_bound))) as (x & -> & ?). by exists x.
  - exists zeros. unfold get_merkle_zeros. rewrite <-Hlen. split_and!; [done| | |].
    + symmetry. by eapply Forall2_length.
    + clear -Hall. induction Hall; simpl; [done|]. by f_equal.
    + rewrite list_lookup_fmap in Hhd. destruct (chunks 32 MERKLE_ZEROS) as [|c cs]; [done|].
      inversion Hall as [|? z ? zs Hz0 ?]; subst. simpl in *. f_equal. injection Hhd as Hhd.
      apply (inj fp_Z). by rewrite Hz0, fp_zero_Z.
Qed.
End Theorems.

(** ** Witnesses: a batch of three leaves *)

Definition leaves3 : list Fp := pallas_of_Z <$> [11; 12; 13].
Definition fold3 : res string (Fp * list Fp) :=
  zeros ← get_merkle_zeros; fold_merkle_left leaves3 4 2 zeros.
Definition root3 : Fp := fst (ok_default (fp_zero, []) fold3).
Definition scratch3 : list Fp := snd (ok_default (fp_zero, []) fold3).
Definition path3 : list Fp := sibling_path leaves3 0 2 2.

Lemma fold_merkle_left_reference_witness :
  ∃ scratch, (zeros ← get_merkle_zeros (E:=string); fold_merkle_left leaves3 4 2 zeros)
    = Ok (reference_subtree leaves3 0 2, scratch).
Proof. apply (fold_merkle_left_reference leaves3 2 4); [done|vm_compute; reflexivity]. Defined.

Lemma merkle_path_complete_witness : ∃ zeros path tree, get_merkle_zeros (E:=string) = Ok zeros ∧
  get_merkle_path_from_leaves (E:=string) leaves3 4 2 (to_uint 32 2) zeros = Ok path ∧
  build_merkle_tree (E:=string) leaves3 4 2 zeros = Ok tree ∧
  get_merkle_path_from_tree (E:=string) tree (to_uint 32 2) = Ok path ∧ length path = 2%nat ∧
  compute_merkle_root_from_path (E:=string) (default fp_zero (leaves3 !! 2%nat)) (to_uint 64 2) path
  = Ok (reference_subtree leaves3 0 2).
Proof.
  apply (merkle_path_complete leaves3 2 4 (to_uint 32 2)); [done|done|vm_compute; lia|vm_compute; reflexivity].
Defined.

Lemma merkle_path_binding_witness :
  pallas_of_Z 13 = default fp_zero (leaves3 !! 2%nat) ∧ path3 = sibling_path leaves3 0 2 2
  ∨ path_collision (pallas_of_Z 13) (default fp_zero (leaves3 !! 2%nat)) 2 path3 (sibling_path leaves3 0 2 2).
Proof.
  apply (merkle_path_binding (E:=string) leaves3 2 (to_uint 64 2) (pallas_of_Z 13) path3);
    [lia|done|vm_compute; lia|vm_compute; reflexivity].
Defined.

Lemma fold_merkle_left_binding_witness : leaves3 = leaves3 ∨ tree_collision leaves3 leaves3 2 0.
Proof.
  apply (fold_merkle_left_binding (E:=string) leaves3 leaves3 2 4 root3 scratch3 scratch3);
    [done|done|vm_compute; reflexivity..].
Defined.
