(* ===== verification/RequestLeaf.v ===== *)
(** * nori-hash/src/merkle_poseidon_fixed.rs: the leaf of a verified request

    Packing of (target, key count, two keys, value) into four field elements,
    and their Poseidon hash. *)
From S2P Require Import Prelude Externals StorageLayout Types Merkle Instances.

Section RequestLeaf.
  Context `{PoseidonSponge}.

(** [Fp::from_bytes(..)?] into an [anyhow::Error] *)
Definition fp_from_bytes_anyhow (bs : list byte) : res anyhow Fp :=
  map_err fhe_to_string (of_sum (fp_from_bytes bs)).

Definition pack_request_leaf_fields (target : Address) (collection_keys_count : u8)
    (collection_key_0 collection_key_1 : B256) (value : U256) : res anyhow (list Fp) :=
  let target_bytes := fb_bytes target in
  let key_0_bytes := fb_bytes collection_key_0 in
  let key_1_bytes := fb_bytes collection_key_1 in
  let value_bytes := fb_bytes (b256_from_u256 value) in
  let first_field_bytes := write_at 0 target_bytes (replicate 32 x00) in
  first_field_bytes ← vec_set first_field_bytes 20 (byte_of_Z collection_keys_count);
  k0 ← index key_0_bytes 0; first_field_bytes ← vec_set first_field_bytes 21 k0;
  k1 ← index key_1_bytes 0; first_field_bytes ← vec_set first_field_bytes 22 k1;
  v0 ← index value_bytes 0; first_field_bytes ← vec_set first_field_bytes 23 v0;
  k0s ← slice key_0_bytes 1 32;
  let second_field_bytes := write_at 0 k0s (replicate 32 x00) in
  k1s ← slice key_1_bytes 1 32;
  let third_field_bytes := write_at 0 k1s (replicate 32 x00) in
  vs ← slice value_bytes 1 32;
  let fourth_field_bytes := write_at 0 vs (replicate 32 x00) in
  f1 ← fp_from_bytes_anyhow first_field_bytes;
  f2 ← fp_from_bytes_anyhow second_field_bytes;
  f3 ← fp_from_bytes_anyhow third_field_bytes;
  f4 ← fp_from_bytes_anyhow fourth_field_bytes;
  Ok [f1; f2; f3; f4].

Definition hash_request_leaf (target : Address) (collection_keys_count : u8)
    (collection_key_0 collection_key_1 : B256) (value : U256) : res anyhow Fp :=
  fields ← pack_request_leaf_fields target collection_keys_count collection_key_0 collection_key_1 value;
  Ok (poseidon_hash fields).

(** ** The packed bytes *)

(** The first field: 24 bytes of payload. *)
Definition first_payload (target : Address) (count : u8) (k0 k1 v : byte) : list byte :=
  fb_bytes target ++ [byte_of_Z count; k0; k1; v].

Lemma insert_pad (l : list byte) n (x : byte) :
  <[length l:=x]> (l ++ replicate (S n) x00) = (l ++ [x]) ++ replicate n x00.
Proof.
  rewrite insert_app_r_alt by done. rewrite Nat.sub_diag, <-app_assoc. done.
Qed.
Lemma vec_set_pad {E} (l : list byte) k n (x : byte) : k = length l →
  vec_set (E:=E) (l ++ replicate (S n) x00) k x = Ok ((l ++ [x]) ++ replicate n x00).
Proof.
  intros ->. rewrite vec_set_in by (rewrite length_app, length_replicate; lia). by rewrite insert_pad.
Qed.
Lemma write_at_front (src : list byte) n : length src = n → (n ≤ 32)%nat →
  write_at 0 src (replicate 32 x00) = src ++ replicate (32 - n) x00.
Proof. intros <- Hn. unfold write_at. simpl take. rewrite app_nil_l, drop_replicate. done. Qed.

Lemma fb32_cons (b : B256) : ∃ x t, fb_bytes b = x :: t ∧ length t = 31%nat.
Proof. pose proof (length_fb b) as Hl. destruct (fb_bytes b) as [|x t]; [done|]. exists x, t. by injection Hl. Qed.
Lemma slice_cons {E} (x : byte) t : length t = 31%nat → slice (E:=E) (x :: t) 1 32 = Ok t.
Proof. intros Hl. rewrite slice_in by (simpl; lia). rewrite skipn_cons, drop_0, take_ge; [done|lia]. Qed.

Context `{!PastaFieldLaws}.

Lemma fp_from_padded (l : list byte) n : length l = n → (n ≤ 31)%nat →
  ∃ x, fp_from_bytes_anyhow (l ++ replicate (32 - n) x00) = Ok x ∧ fp_Z x = le_val l.
Proof.
  intros Hl Hn.
  assert (le_val (l ++ replicate (32 - n) x00) = le_val l) as Hv.
  { rewrite le_val_app, le_val_zeros. lia. }
  pose proof (le_val_bound l) as Hb. pose proof fp_modulus_bound as Hm.
  destruct (fp_from_bytes_spec (l ++ replicate (32 - n) x00)) as (x & Hx & Hz).
  - rewrite length_app, length_replicate. lia.
  - rewrite Hv. rewrite Hl in Hb. pose proof (Z.pow_le_mono_r 256 (Z.of_nat n) 31 ltac:(lia) ltac:(lia)).
    eapply Z.lt_trans; [|exact (proj1 Hm)]. eapply Z.lt_le_trans; [apply Hb|]. by etrans.
  - exists x. unfold fp_from_bytes_anyhow. rewrite Hx, Hz, Hv. done.
Qed.

(** What [pack_request_leaf_fields] returns: the little-endian values of the payloads. *)
Lemma pack_fields_Ok target count key_0 key_1 value :
  ∃ k0 t0 k1 t1 v t fs,
    fb_bytes key_0 = k0 :: t0 ∧ fb_bytes key_1 = k1 :: t1 ∧ fb_bytes (b256_from_u256 value) = v :: t ∧
    length t0 = 31%nat ∧ length t1 = 31%nat ∧ length t = 31%nat ∧
    pack_request_leaf_fields target count key_0 key_1 value = Ok fs ∧
    fp_Z <$> fs = le_val <$> [first_payload target count k0 k1 v; t0; t1; t].
Proof.
  destruct (fb32_cons key_0) as (k0 & t0 & Hk0 & Hl0), (fb32_cons key_1) as (k1 & t1 & Hk1 & Hl1),
    (fb32_cons (b256_from_u256 value)) as (v & t & Hv & Hl).
  unfold pack_request_leaf_fields. rewrite Hk0, Hk1, Hv.
  rewrite (write_at_front _ 20) by (try apply length_fb; lia).
  pose proof (length_fb target) as Ht.
  rewrite (vec_set_pad _ 20 11) by done. rewrite Ok_bind. cbn [index lookup list_lookup unwrap]. rewrite Ok_bind.
  rewrite (vec_set_pad _ 21 10) by (rewrite !length_app; simpl; lia). rewrite !Ok_bind.
  rewrite (vec_set_pad _ 22 9) by (rewrite !length_app; simpl; lia). rewrite !Ok_bind.
  rewrite (vec_set_pad _ 23 8) by (rewrite !length_app; simpl; lia). rewrite !Ok_bind.
  rewrite !slice_cons by done. rewrite !Ok_bind. rewrite !(write_at_front _ 31) by (done || lia).
  destruct (fp_from_padded (first_payload target count k0 k1 v) 24) as (f1 & Hf1 & Hz1);
    [unfold first_payload; rewrite length_app; simpl; lia|lia|].
  destruct (fp_from_padded t0 31) as (f2 & Hf2 & Hz2); [done|lia|].
  destruct (fp_from_padded t1 31) as (f3 & Hf3 & Hz3); [done|lia|].
  destruct (fp_from_padded t 31) as (f4 & Hf4 & Hz4); [done|lia|].
  unfold first_payload in Hf1. rewrite <-!app_assoc in *.
  exists k0, t0, k1, t1, v, t, [f1; f2; f3; f4]. split_and!; try done.
  - change (32 - 24)%nat with 8%nat in *. simpl app in *. rewrite Hf1, Hf2, Hf3, Hf4. done.
  - simpl. by rewrite Hz1, Hz2, Hz3, Hz4.
Qed.

Lemma byte_of_Z_inj (a b : u8) : byte_of_Z a = byte_of_Z b → a = b.
Proof.
  intros Heq. apply (f_equal byte_Z) in Heq. rewrite !byte_Z_of_Z in Heq. apply uint_eq.
  pose proof (uint_range a). pose proof (uint_range b). change (2 ^ Z.of_nat 8) with 256 in *.
  by rewrite !Z.mod_small in Heq by lia.
Qed.
Lemma b256_of_bytes (a b : B256) x t : fb_bytes a = x :: t → fb_bytes b = x :: t → a = b.
Proof. intros Ha Hb. apply fb_eq. congruence. Qed.

Lemma pack_fields_inj t1 c1 a1 b1 v1 t2 c2 a2 b2 v2 fs :
  pack_request_leaf_fields t1 c1 a1 b1 v1 = Ok fs → pack_request_leaf_fields t2 c2 a2 b2 v2 = Ok fs →
  (t1, c1, a1, b1, v1) = (t2, c2, a2, b2, v2).
Proof.
  destruct (pack_fields_Ok t1 c1 a1 b1 v1) as (p0 & p1 & q0 & q1 & r0 & r1 & fs1 & Ha1 & Hb1 & Hv1 & L1 & L2 & L3 & -> & Hf1).
  destruct (pack_fields_Ok t2 c2 a2 b2 v2) as (p0' & p1' & q0' & q1' & r0' & r1' & fs2 & Ha2 & Hb2 & Hv2 & L1' & L2' & L3' & -> & Hf2).
  intros [= ->] [= ->]. rewrite Hf1 in Hf2. injection Hf2 as E1 E2 E3 E4.
  apply le_val_inj in E2 as ->; [|congruence]. apply le_val_inj in E3 as ->; [|congruence].
  apply le_val_inj in E4 as ->; [|congruence].
  apply le_val_inj in E1; [|unfold first_payload; by rewrite !length_app, !length_fb].
  apply app_inj_1 in E1 as [Ht E1]; [|by rewrite !length_fb]. injection E1 as Hc -> -> ->.
  apply fb_eq in Ht as ->. apply byte_of_Z_inj in Hc as ->.
  rewrite (b256_of_bytes _ _ _ _ Ha1 Ha2), (b256_of_bytes _ _ _ _ Hb1 Hb2).
  by rewrite (b256_from_u256_inj _ _ (b256_of_bytes _ _ _ _ Hv1 Hv2)).
Qed.

Lemma hash_request_leaf_Ok target count key_0 key_1 value :
  ∃ fs, pack_request_leaf_fields target count key_0 key_1 value = Ok fs ∧ length fs = 4%nat ∧
    hash_request_leaf target count key_0 key_1 value = Ok (poseidon_hash fs).
Proof.
  destruct (pack_fields_Ok target count key_0 key_1 value)
    as (? & ? & ? & ? & ? & ? & fs & _ & _ & _ & _ & _ & _ & Hp & Hf).
  exists fs. unfold hash_request_leaf. rewrite Hp. split_and!; [done| |done].
  apply (f_equal length) in Hf. by rewrite length_fmap in Hf.
Qed.

(** Hashing a request never fails: the four packed words are always
    canonical field elements, whatever the five inputs are. *)
Lemma hash_request_leaf_total target count key_0 key_1 value :
  ∃ hash, hash_request_leaf target count key_0 key_1 value = Ok hash.
Proof. destruct (hash_request_leaf_Ok target count key_0 key_1 value) as (fs & _ & _ & ->). by eexists. Qed.

(** The packing is injective: the key count, the unused bytes and the split of
    each 32-byte word over two fields lose nothing. *)
Lemma pack_request_leaf_fields_injective t1 c1 a1 b1 v1 t2 c2 a2 b2 v2 fs :
  pack_request_leaf_fields t1 c1 a1 b1 v1 = Ok fs → pack_request_leaf_fields t2 c2 a2 b2 v2 = Ok fs →
  t1 = t2 ∧ c1 = c2 ∧ a1 = a2 ∧ b1 = b2 ∧ v1 = v2.
Proof. intros P1 P2. pose proof (pack_fields_inj _ _ _ _ _ _ _ _ _ _ _ P1 P2). naive_solver. Qed.

(** Two requests whose packed fields differ and have one hash. *)
Definition leaf_collision (r1 r2 : Address * u8 * B256 * B256 * U256) : Prop := ∃ f1 f2 : list Fp,
  (let '(t, c, a, b, v) := r1 in pack_request_leaf_fields t c a b v) = Ok f1 ∧
  (let '(t, c, a, b, v) := r2 in pack_request_leaf_fields t c a b v) = Ok f2 ∧
  f1 ≠ f2 ∧ poseidon_hash f1 = poseidon_hash f2.

Lemma hash_request_leaf_inj t1 c1 a1 b1 v1 t2 c2 a2 b2 v2 :
  hash_request_leaf t1 c1 a1 b1 v1 = hash_request_leaf t2 c2 a2 b2 v2 →
  (t1, c1, a1, b1, v1) = (t2, c2, a2, b2, v2) ∨ leaf_collision (t1, c1, a1, b1, v1) (t2, c2, a2, b2, v2).
Proof.
  destruct (hash_request_leaf_Ok t1 c1 a1 b1 v1) as (f1 & P1 & L1 & ->).
  destruct (hash_request_leaf_Ok t2 c2 a2 b2 v2) as (f2 & P2 & L2 & ->). intros [= Heq].
  destruct (decide (f1 = f2)) as [->|Hne]; [left; by eapply pack_fields_inj|right; by exists f1, f2].
Qed.

(** A leaf commits to the request: two requests with one leaf hash are the
    same target, key count, keys and value, or the field elements they are packed
    into differ and have one Poseidon hash. *)
Lemma hash_request_leaf_binding t1 c1 a1 b1 v1 t2 c2 a2 b2 v2 hash :
  hash_request_leaf t1 c1 a1 b1 v1 = Ok hash → hash_request_leaf t2 c2 a2 b2 v2 = Ok hash →
  (t1 = t2 ∧ c1 = c2 ∧ a1 = a2 ∧ b1 = b2 ∧ v1 = v2) ∨
  leaf_collision (t1, c1, a1, b1, v1) (t2, c2, a2, b2, v2).
Proof.
  intros <- Heq. symmetry in Heq. apply hash_request_leaf_inj in Heq as [|]; [left; naive_solver|by right].
Qed.
End RequestLeaf.

(** ** Witnesses: the all-ones request of the source's tests *)

Definition packed_max : list Fp := ok_default []
  (pack_request_leaf_fields (repeat_byte 20 xff) (to_uint 8 255) (repeat_byte 32 xff) (repeat_byte 32 xff)
     (to_uint 256 (-1))).
Definition hashed_max : Fp := ok_default fp_zero
  (hash_request_leaf (repeat_byte 20 xff) (to_uint 8 255) (repeat_byte 32 xff) (repeat_byte 32 xff)
     (to_uint 256 (-1))).

Lemma pack_request_leaf_fields_injective_witness :
  let target := repeat_byte 20 xff in let key := repeat_byte 32 xff in
  target = target ∧ to_uint 8 255 = to_uint 8 511 ∧ key = key ∧ key = key ∧
  to_uint 256 (-1) = to_uint 256 (2 ^ 256 - 1).
Proof. apply (pack_request_leaf_fields_injective _ _ _ _ _ _ _ _ _ _ packed_max); vm_compute; reflexivity. Defined.

Lemma hash_request_leaf_binding_witness :
  let target := repeat_byte 20 xff in let key := repeat_byte 32 xff in
  (target = target ∧ to_uint 8 255 = to_uint 8 511 ∧ key = key ∧ key = key ∧
  to_uint 256 (-1) = to_uint 256 (2 ^ 256 - 1)) ∨
  leaf_collision (target, to_uint 8 255, key, key, to_uint 256 (-1))
    (target, to_uint 8 511, key, key, to_uint 256 (2 ^ 256 - 1)).
Proof. apply (hash_request_leaf_binding _ _ _ _ _ _ _ _ _ _ hashed_max); vm_compute; reflexivity. Defined.
