(* ===== verification/MerkleTests.v ===== *)
(** * nori-hash/src/merkle_poseidon_fixed.rs: the references of the test suite

    The module [merkle_fixed_tests]: its dummy requests, its two reference
    roots (brute force, recursive) and its checks, with an assertion that
    fails as [Panic].  The suite runs them on up to 50 leaves and on six
    regression counts; here they hold for every batch the program can build. *)
From stdpp Require Import pretty.
From S2P Require Import Prelude Externals StorageLayout Types Merkle Instances MerkleSpec RequestLeaf.

(** [assert_eq!] *)
Definition assert_eq {E A} `{EqDecision A} (a b : A) : res E () := if decide (a = b) then Ok () else Panic.

(** [assert_ne!] *)
Definition assert_ne {E A} `{EqDecision A} (a b : A) : res E () := if decide (a = b) then Panic else Ok ().

(** [let mut b = [0u8; n]; b[0..src.len()].copy_from_slice(src)] *)
Lemma zeroed_with_wf n (src : list byte) : bool_decide (length (take n (write_at 0 src (replicate n x00))) = n).
Proof.
  apply bool_decide_pack. unfold write_at. simpl.
  rewrite length_take, length_app, length_drop, length_replicate. lia.
Qed.
Definition zeroed_with (n : nat) (src : list byte) : FixedBytes n := MkFixed _ (zeroed_with_wf n src).

(** [i32::wrapping_add] *)
Definition i32_wrapping_add (a b : Z) : Z := (a + b + 2 ^ 31) `mod` 2 ^ 32 - 2 ^ 31.

(** [RequestLeafArgs] *)
Definition RequestLeafArgs : Type := Address * u8 * B256 * B256 * U256.

Definition dummy_request (i : Z) : RequestLeafArgs :=
  let i_bytes := le_bytes 4 i in
  let target := zeroed_with 20 i_bytes in
  let count := to_uint 8 (i `mod` 3) in
  let key_0 := zeroed_with 32 i_bytes in
  let j_bytes := le_bytes 4 (i32_wrapping_add i 1000000) in
  let key_1 := zeroed_with 32 j_bytes in
  let value := to_uint 256 (be_val (fb_bytes (zeroed_with 32 i_bytes))) in
  (target, count, key_0, key_1, value).

(** [(0..n_leaves).map(dummy_request).collect()] *)
Definition dummy_requests (n_leaves : Z) : list RequestLeafArgs :=
  (λ i, dummy_request (Z.of_nat i)) <$> seq 0 (Z.to_nat n_leaves).

Section Tests.
  Context `{PoseidonSponge}.

Definition build_leaves (pairs : list RequestLeafArgs) : res anyhow (list Fp) :=
  try_map (λ '(target, count, key_0, key_1, value),
    hash_request_leaf target count key_0 key_1 value) pairs.

Definition full_merkle_test (pairs : list RequestLeafArgs) (leaf_index : nat) : res anyhow () :=
  zeros ← get_merkle_zeros;
  leaves ← build_leaves pairs;
  let '(depth, padded_size) := compute_merkle_tree_depth_and_size (length leaves) in
  '(root, _) ← fold_merkle_left leaves padded_size depth zeros;
  path ← get_merkle_path_from_leaves leaves padded_size depth (to_uint 32 (Z.of_nat leaf_index)) zeros;
  let leaf_hash := default fp_zero (leaves !! leaf_index) in
  recomputed_root ← compute_merkle_root_from_path leaf_hash (to_uint 64 (Z.of_nat leaf_index)) path;
  assert_eq recomputed_root root.

(** The body of the loop of [test_all_leaf_counts_and_indices_with_build_and_fold]. *)
Definition check_paths (leaves : list Fp) (padded_size depth : nat) (zeros : list Fp)
    (merkle_tree : list (list Fp)) (root_via_fold : Fp) (i : nat) : res anyhow () :=
  path_fold ← get_merkle_path_from_leaves leaves padded_size depth (to_uint 32 (Z.of_nat i)) zeros;
  path_build ← get_merkle_path_from_tree merkle_tree (to_uint 32 (Z.of_nat i));
  _ ← assert_eq path_fold path_build;
  leaf_hash ← index leaves i;
  recomputed_root ← compute_merkle_root_from_path leaf_hash (to_uint 64 (Z.of_nat i)) path_fold;
  assert_eq recomputed_root root_via_fold.

Definition check_leaf_count (zeros : list Fp) (pairs : list RequestLeafArgs) : res anyhow () :=
  leaves ← unwrap (match build_leaves pairs with Ok leaves => Some leaves | _ => None end);
  let '(depth, padded_size) := compute_merkle_tree_depth_and_size (length leaves) in
  '(root_via_fold, _) ← fold_merkle_left leaves padded_size depth zeros;
  merkle_tree ← build_merkle_tree leaves padded_size depth zeros;
  level ← index merkle_tree 0; root_via_build ← index level 0;
  _ ← assert_eq root_via_build root_via_fold;
  expected_padded ← pad_leaves leaves padded_size;
  leaf_layer ← index merkle_tree depth;
  _ ← assert_eq leaf_layer expected_padded;
  try_iter (check_paths leaves padded_size depth zeros merkle_tree root_via_fold) (seq 0 (length pairs)).

Definition test_all_leaf_counts_and_indices_with_build_and_fold : res anyhow () :=
  zeros ← get_merkle_zeros;
  try_iter (λ n_leaves, check_leaf_count zeros (dummy_requests (Z.of_nat n_leaves))) (seq 0 51).

(** One round of [while level.len() > 1]: an odd level indexes out of range. *)
Definition bruteforce_level {E} (level : list Fp) : res E (list Fp) :=
  try_map (λ k, l ← index level (2 * k); r ← index level (2 * k + 1); Ok (poseidon_hash [l; r]))
    (seq 0 (div_ceil2 (length level))).
(** A level of more than one node is followed by a shorter one, so [length level] rounds are enough. *)
Fixpoint bruteforce_levels {E} (fuel : nat) (level : list Fp) : res E (list Fp) :=
  if decide (1 < length level)%nat then
    match fuel with
    | O => Panic
    | S fuel => next ← bruteforce_level level; bruteforce_levels fuel next
    end
  else Ok level.
Definition reference_root_bruteforce {E} (leaves : list Fp) (padded_size : nat) : res E Fp :=
  let level := take padded_size leaves ++ replicate (padded_size - length leaves) fp_zero in
  level ← bruteforce_levels (length level) level;
  index level 0.

(** The recursion halves [size]; [size] itself is enough fuel, and a [size] of
    zero recurses for ever (the stack overflows). *)
Fixpoint subtree {E} (fuel : nat) (leaves : list Fp) (offset size : nat) : res E Fp :=
  match fuel with
  | O => Panic
  | S fuel =>
    if decide (size = 1%nat) then
      if decide (offset < length leaves)%nat then index leaves offset else Ok fp_zero
    else
      let half := (size / 2)%nat in
      l ← subtree fuel leaves offset half;
      r ← subtree fuel leaves (offset + half) half;
      Ok (poseidon_hash [l; r])
  end.
Definition reference_root_recursive {E} (leaves : list Fp) (padded_size : nat) : res E Fp :=
  subtree padded_size leaves 0 padded_size.

Definition REGRESSION_LEAF_COUNTS : list Z := [1; 3; 5; 6; 9; 17].

(** The loops of [regression_a2090_bruteforce_reference] and
    [regression_a2090_recursive_reference]: the failures they report. *)
Definition regression_failures (reference : list Fp → nat → res anyhow Fp) (name : string)
    (pairs : list RequestLeafArgs) : res anyhow (list string) :=
  zeros ← get_merkle_zeros;
  leaves ← unwrap (match build_leaves pairs with Ok leaves => Some leaves | _ => None end);
  let '(depth, padded_size) := compute_merkle_tree_depth_and_size (length leaves) in
  expected ← reference leaves padded_size;
  tree ← build_merkle_tree leaves padded_size depth zeros;
  level ← index tree 0; root_build ← index level 0;
  '(root_fold, _) ← fold_merkle_left leaves padded_size depth zeros;
  let failure routine := ("[n_leaves=" +:+ pretty (length pairs) +:+ "] " +:+ routine
    +:+ " root does not match " +:+ name +:+ " reference")%string in
  Ok ((if decide (root_build ≠ expected) then [failure "build_merkle_tree"%string] else []) ++
      (if decide (root_fold ≠ expected) then [failure "fold_merkle_left"%string] else [])).
Definition regression_test (reference : list Fp → nat → res anyhow Fp) (name : string) : res anyhow () :=
  failures ← try_map (λ n_leaves, regression_failures reference name (dummy_requests n_leaves)) REGRESSION_LEAF_COUNTS;
  if decide (mjoin failures ≠ []) then Panic else Ok ().
Definition regression_a2090_bruteforce_reference : res anyhow () := regression_test reference_root_bruteforce "brute-force".
Definition regression_a2090_recursive_reference : res anyhow () := regression_test reference_root_recursive "recursive".

Definition test_large_slots : res anyhow () := full_merkle_test (dummy_requests 1000) 543.
End Tests.

(** ** The references agree with the tree *)
Section References.
Context `{PoseidonSponge}.

Lemma bruteforce_level_Ok {E} leaves h k :
  bruteforce_level (E:=E) (tree_level leaves h (k + 1)) = Ok (tree_level leaves (S h) k).
Proof.
  unfold bruteforce_level. pose proof (pow2_S k).
  replace (div_ceil2 (length _)) with (2 ^ k)%nat.
  - apply try_map_Ok, Forall2_fmap_r, Forall_Forall2_diag, Forall_seq. intros i Hi.
    unfold index. rewrite !tree_level_lookup by lia. simpl. by rewrite node_S.
  - unfold tree_level. rewrite length_fmap, length_seq. apply Nat.le_antisymm; [|by apply div_ceil2_le; lia].
    destruct (decide (div_ceil2 (2 ^ (k + 1)) ≤ 2 ^ k - 1)%nat) as [Hd|]; [|pose proof (pow2_pos k); lia].
    apply div_ceil2_le in Hd. pose proof (pow2_pos k). lia.
Qed.
Lemma bruteforce_levels_Ok {E} leaves h k fuel : (2 ^ k ≤ fuel)%nat →
  bruteforce_levels (E:=E) fuel (tree_level leaves h k) = Ok (tree_level leaves (h + k) 0).
Proof.
  revert h fuel. induction k as [|k IH]; intros h fuel Hf.
  - destruct fuel; by rewrite Nat.add_0_r.
  - pose proof (pow2_S k) as H2. rewrite Nat.add_1_r in H2. pose proof (pow2_pos k).
    assert (length (tree_level leaves h (S k)) = 2 ^ S k)%nat as Hl by (unfold tree_level; by rewrite length_fmap, length_seq).
    destruct fuel as [|fuel]; [lia|]. cbn [bruteforce_levels]. rewrite decide_True by lia.
    rewrite <-(Nat.add_1_r k), bruteforce_level_Ok, Ok_bind, IH by lia. do 2 f_equal. lia.
Qed.
Lemma reference_root_bruteforce_Ok {E} leaves depth : (depth ≤ MAX_TREE_DEPTH)%nat →
  (length leaves ≤ 2 ^ depth)%nat →
  reference_root_bruteforce (E:=E) leaves (2 ^ depth) = Ok (reference_subtree leaves 0 depth).
Proof.
  intros Hd Hl. unfold reference_root_bruteforce. rewrite take_ge by done.
  destruct (padded_level_ok leaves depth Hd (E:=E) Hl) as (nodes & Hp & Hlen & Hok).
  unfold pad_leaves in Hp. rewrite decide_True in Hp by done. injection Hp as ->.
  rewrite (tree_level_eq leaves 0 depth nodes) by done.
  rewrite bruteforce_levels_Ok by (rewrite <-(tree_level_eq leaves 0 depth nodes) by done; lia).
  rewrite Ok_bind. unfold index. by rewrite tree_level_lookup by (simpl; lia).
Qed.
Lemma subtree_Ok {E} leaves k : ∀ fuel offset, (k < fuel)%nat →
  subtree (E:=E) fuel leaves offset (2 ^ k) = Ok (reference_subtree leaves offset k).
Proof.
  induction k as [|k IH]; intros [|fuel] offset Hf; try lia; cbn [subtree].
  - rewrite decide_True by done. cbn [reference_subtree]. case_decide as Hc.
    + apply lookup_lt_is_Some_2 in Hc as [x Hx]. unfold index. by rewrite Hx.
    + by rewrite lookup_ge_None_2 by lia.
  - pose proof (pow2_half k) as Hh. pose proof (pow2_S k) as H2. rewrite Nat.add_1_r in Hh, H2.
    pose proof (pow2_pos k). rewrite decide_False by lia. rewrite Hh, !IH by lia. done.
Qed.
Lemma reference_root_recursive_Ok {E} leaves depth :
  reference_root_recursive (E:=E) leaves (2 ^ depth) = Ok (reference_subtree leaves 0 depth).
Proof. apply subtree_Ok, Nat.pow_gt_lin_r. lia. Qed.

Lemma assert_eq_refl {E A} `{EqDecision A} (a : A) : assert_eq (E:=E) a a = Ok ().
Proof. unfold assert_eq. by rewrite decide_True. Qed.

Context `{!PastaFieldLaws}.
Lemma build_leaves_Ok pairs : ∃ leaves, build_leaves pairs = Ok leaves ∧ length leaves = length pairs.
Proof.
  induction pairs as [|[[[[t c] k0] k1] v] pairs (leaves & Hb & Hl)]; [by exists []|].
  destruct (hash_request_leaf_total t c k0 k1 v) as [x Hx]. exists (x :: leaves).
  unfold build_leaves in *. simpl. rewrite Hx, Ok_bind, Hb. simpl. by rewrite Hl.
Qed.
End References.

Section Checks.
Context `{PoseidonSponge} `{!PastaFieldLaws} `{!MerkleZerosChain}.

(** What the two tree routines return on the leaves of a batch. *)
Lemma tree_routines (leaves : list Fp) : Z.of_nat (length leaves) ≤ MAX_BATCH →
  ∃ depth scratch tree,
    compute_merkle_tree_depth_and_size (length leaves) = (depth, 2 ^ depth)%nat ∧
    (depth ≤ MAX_TREE_DEPTH)%nat ∧ (length leaves ≤ 2 ^ depth)%nat ∧
    fold_merkle_left (E:=anyhow) leaves (2 ^ depth) depth calculate_zeros
      = Ok (reference_subtree leaves 0 depth, scratch) ∧
    build_merkle_tree (E:=anyhow) leaves (2 ^ depth) depth calculate_zeros = Ok tree ∧
    length tree = (depth + 1)%nat ∧
    ∀ k, (k ≤ depth)%nat → tree !! k = Some (tree_level leaves (depth - k) k).
Proof.
  intros Hn. destruct (compute_merkle_tree_depth_and_size (length leaves)) as [depth size] eqn:Hc.
  destruct (max_batch_depth _ _ _ Hn Hc) as (-> & Hl & Hd & Hz).
  destruct (fold_root (E:=anyhow) leaves depth Hd Hl) as [scratch Hf]; [by intros ->; apply Hz|].
  destruct (build_tree_levels (E:=anyhow) leaves depth Hd Hl) as (tree & Hb & Hlt & Htree).
  by exists depth, scratch, tree.
Qed.

Lemma tree_size_bound depth : (depth ≤ MAX_TREE_DEPTH)%nat → Z.of_nat (2 ^ depth) ≤ 65536.
Proof.
  intros Hd. change 65536 with (2 ^ Z.of_nat 16). rewrite Nat2Z.inj_pow. apply Z.pow_le_mono_r; [lia|].
  unfold MAX_TREE_DEPTH in Hd. lia.
Qed.
Lemma u32_of_index (leaves : list Fp) depth i : (depth ≤ MAX_TREE_DEPTH)%nat →
  (length leaves ≤ 2 ^ depth)%nat → (i < length leaves)%nat → Z.to_nat (to_uint 32 (Z.of_nat i)) = i.
Proof.
  intros Hd Hl Hi. pose proof (tree_size_bound depth Hd).
  rewrite to_uint_small by (change (2 ^ Z.of_nat 32) with 4294967296; lia). apply Nat2Z.id.
Qed.

(** The path of a leaf leads to the root of the reference tree. *)
Lemma path_root (leaves : list Fp) depth i : (depth ≤ MAX_TREE_DEPTH)%nat → (i < 2 ^ depth)%nat →
  compute_merkle_root_from_path (E:=anyhow) (default fp_zero (leaves !! i)) (to_uint 64 (Z.of_nat i))
    (sibling_path leaves 0 i depth) = Ok (reference_subtree leaves 0 depth).
Proof.
  intros Hd Hi. rewrite compute_root_hash_path by (rewrite length_sibling_path; unfold MAX_TREE_DEPTH in Hd; lia).
  pose proof (tree_size_bound depth Hd).
  rewrite to_uint_small by (change (2 ^ Z.of_nat 64) with 18446744073709551616; lia).
  rewrite Nat2Z.id, <-node_0, hash_path_siblings, Nat.div_small by done. done.
Qed.

Lemma check_paths_Ok (leaves : list Fp) depth tree i : (depth ≤ MAX_TREE_DEPTH)%nat →
  (length leaves ≤ 2 ^ depth)%nat → length tree = (depth + 1)%nat →
  (∀ k, (k ≤ depth)%nat → tree !! k = Some (tree_level leaves (depth - k) k)) →
  (i < length leaves)%nat →
  check_paths leaves (2 ^ depth) depth calculate_zeros tree (reference_subtree leaves 0 depth) i = Ok ().
Proof.
  intros Hd Hl Hlt Htree Hi. unfold check_paths.
  pose proof (u32_of_index leaves depth i Hd Hl Hi) as Hu.
  rewrite path_from_leaves_Ok by (done || (rewrite Hu; lia) || (intros ->; simpl in Hi; lia)).
  rewrite Ok_bind. rewrite (path_from_tree_Ok leaves depth) by (done || (rewrite Hu; lia)).
  rewrite Ok_bind, assert_eq_refl, Ok_bind, Hu.
  destruct (lookup_lt_is_Some_2 leaves i Hi) as [x Hx].
  rewrite (index_in leaves i x Hx), Ok_bind.
  pose proof (path_root leaves depth i Hd ltac:(lia)) as Hr. rewrite Hx in Hr. change (default fp_zero (Some x)) with x in Hr.
  rewrite Hr, Ok_bind. apply assert_eq_refl.
Qed.

Lemma check_leaf_count_Ok pairs : Z.of_nat (length pairs) ≤ MAX_BATCH →
  check_leaf_count calculate_zeros pairs = Ok ().
Proof.
  intros Hn. unfold check_leaf_count. destruct (build_leaves_Ok pairs) as (leaves & -> & Hl).
  cbn [unwrap]. rewrite Ok_bind. rewrite <-Hl in Hn.
  destruct (tree_routines leaves Hn) as (depth & scratch & tree & -> & Hd & Hle & -> & -> & Hlt & Htree).
  rewrite !Ok_bind. rewrite (index_in tree 0 _ (Htree 0%nat ltac:(lia))), Ok_bind.
  rewrite (index_in _ 0 _ (tree_level_lookup _ _ 0 0 ltac:(simpl; lia))), Ok_bind, Nat.sub_0_r. unfold node at 1. rewrite Nat.mul_0_l, assert_eq_refl, Ok_bind.
  destruct (padded_level_ok leaves depth Hd (E:=anyhow) Hle) as (nodes & -> & Hln & Hok). rewrite Ok_bind.
  rewrite (index_in tree depth _ (Htree depth ltac:(lia))), Ok_bind, Nat.sub_diag.
  rewrite (tree_level_eq leaves 0 depth nodes) by done. rewrite assert_eq_refl, Ok_bind.
  apply try_iter_Ok, Forall_seq. intros i Hi. apply check_paths_Ok; lia || done.
Qed.

Lemma suite_ok pairs : Z.of_nat (length pairs) ≤ MAX_BATCH →
  (zeros ← get_merkle_zeros; check_leaf_count zeros pairs) = Ok () ∧
  regression_failures reference_root_bruteforce "brute-force" pairs = Ok [] ∧
  regression_failures reference_root_recursive "recursive" pairs = Ok [] ∧
  ∀ i, (i < length pairs)%nat → full_merkle_test pairs i = Ok ().
Proof.
  intros Hn. destruct (build_leaves_Ok pairs) as (leaves & Hb & Hl). pose proof Hn as Hn'. rewrite <-Hl in Hn'.
  destruct (tree_routines leaves Hn') as (depth & scratch & tree & Hc & Hd & Hle & Hf & Ht & Hlt & Htree).
  assert (∀ reference name, reference leaves (2 ^ depth)%nat = Ok (reference_subtree leaves 0 depth) →
    regression_failures reference name pairs = Ok []) as Hreg.
  { intros reference name Href. unfold regression_failures.
    rewrite merkle_zeros_chain, Ok_bind, Hb. cbn [unwrap]. rewrite Ok_bind, Hc, Href, Ok_bind, Ht, Ok_bind.
    rewrite (index_in tree 0 _ (Htree 0%nat ltac:(lia))), Ok_bind.
    rewrite (index_in _ 0 _ (tree_level_lookup _ _ 0 0 ltac:(simpl; lia))), Ok_bind, Hf, Ok_bind, Nat.sub_0_r. unfold node. rewrite Nat.mul_0_l. by rewrite !decide_False by auto. }
  split_and!.
  - rewrite merkle_zeros_chain, Ok_bind. by apply check_leaf_count_Ok.
  - apply Hreg. by apply reference_root_bruteforce_Ok.
  - apply Hreg, reference_root_recursive_Ok.
  - intros i Hi. unfold full_merkle_test. rewrite merkle_zeros_chain, Ok_bind, Hb, Ok_bind, Hc, Hf, Ok_bind.
    rewrite <-Hl in Hi. pose proof (u32_of_index leaves depth i Hd Hle Hi) as Hu.
    rewrite path_from_leaves_Ok by (done || (rewrite Hu; lia) || (intros ->; simpl in Hi; lia)).
    rewrite Ok_bind, Hu, path_root by (done || lia). rewrite Ok_bind. apply assert_eq_refl.
Qed.


(** The tree checks of the test suite, run there on at most fifty dummy requests,
    hold for every list of requests up to the batch limit: the in-place fold, the
    full tree, the brute-force reference (every pair hashed, no zeros table) and the
    recursive reference have one root, both path routines agree at every leaf and
    lead back to it, and neither regression test reports a failure. *)
Lemma merkle_suite_generalises pairs : Z.of_nat (length pairs) ≤ MAX_BATCH →
  (zeros ← get_merkle_zeros; check_leaf_count zeros pairs) = Ok () ∧
  regression_failures reference_root_bruteforce "brute-force" pairs = Ok [] ∧
  regression_failures reference_root_recursive "recursive" pairs = Ok [] ∧
  ∀ i, (i < length pairs)%nat → full_merkle_test pairs i = Ok ().
Proof. apply suite_ok. Qed.

Lemma length_dummy_requests n : length (dummy_requests n) = Z.to_nat n.
Proof. unfold dummy_requests. by rewrite length_fmap, length_seq. Qed.
Lemma dummy_requests_fit n : n ≤ MAX_BATCH → Z.of_nat (length (dummy_requests n)) ≤ MAX_BATCH.
Proof. rewrite length_dummy_requests. change MAX_BATCH with 65536. lia. Qed.
Lemma regression_ok reference name :
  (∀ pairs, Z.of_nat (length pairs) ≤ MAX_BATCH → regression_failures reference name pairs = Ok []) →
  regression_test reference name = Ok ().
Proof.
  intros Href. unfold regression_test.
  assert (try_map (λ n_leaves, regression_failures reference name (dummy_requests n_leaves)) REGRESSION_LEAF_COUNTS
    = Ok (replicate 6 [])) as ->; [|done].
  apply try_map_Ok. repeat constructor; apply Href, dummy_requests_fit; done.
Qed.
(** The tests themselves. *)
Lemma merkle_tests_pass :
  test_all_leaf_counts_and_indices_with_build_and_fold = Ok () ∧ test_large_slots = Ok () ∧
  regression_a2090_bruteforce_reference = Ok () ∧ regression_a2090_recursive_reference = Ok ().
Proof.
  split_and!.
  - unfold test_all_leaf_counts_and_indices_with_build_and_fold. rewrite merkle_zeros_chain, Ok_bind.
    apply try_iter_Ok, Forall_seq. intros n Hn. apply check_leaf_count_Ok, dummy_requests_fit.
    change MAX_BATCH with 65536. lia.
  - assert (1000 ≤ MAX_BATCH) as Hn by (change MAX_BATCH with 65536; lia).
    destruct (suite_ok (dummy_requests 1000) (dummy_requests_fit 1000 Hn)) as (_ & _ & _ & Hall).
    unfold test_large_slots. apply Hall. rewrite length_dummy_requests. lia.
  - apply regression_ok. intros pairs Hn. exact (proj1 (proj2 (suite_ok pairs Hn))).
  - apply regression_ok. intros pairs Hn. exact (proj1 (proj2 (proj2 (suite_ok pairs Hn)))).
Qed.
End Checks.

(** ** Witness: the dummy requests of the regression count 5 *)
Lemma merkle_suite_generalises_witness :
  (zeros ← get_merkle_zeros; check_leaf_count zeros (dummy_requests 5)) = Ok () ∧
  regression_failures reference_root_bruteforce "brute-force" (dummy_requests 5) = Ok [] ∧
  regression_failures reference_root_recursive "recursive" (dummy_requests 5) = Ok [] ∧
  ∀ i, (i < length (dummy_requests 5))%nat → full_merkle_test (dummy_requests 5) i = Ok ().
Proof. exact (merkle_suite_generalises (dummy_requests 5) ltac:(by vm_compute)). Defined.
