(* ===== verification/MerkleZeros.v ===== *)
(** * nori-hash: the files that are made from Poseidon

    [merkle_zeros] of merkle_poseidon_fixed.rs, which builds the zeros table
    that the crate includes, and bin/hash_vectors.rs.  The reader of the table
    inverts its writer, so that the law [MerkleZerosChain] says no more than that
    the checked-in table is what the writer makes. *)
From stdpp Require Import pretty.
From S2P Require Import Prelude Externals Merkle MerkleSpec.

(** [PathBuf]: the components from the innermost to the root. *)
Abbreviation Path := (list string).

Section Files.
  Context `{PoseidonSponge}.

(** The bytes that [save_zeros] writes. *)
Definition zeros_bytes : list byte := mjoin (fp_to_bytes <$> calculate_zeros).

(** [find_workspace_root]: walks up to the root and keeps the last directory with a manifest. *)
Fixpoint find_from (exists_ : Path → bool) (dir : Path) (last_found : option Path) : option Path :=
  let last_found := if exists_ ("Cargo.toml"%string :: dir) then Some dir else last_found in
  match dir with
  | [] => last_found
  | _ :: parent => find_from exists_ parent last_found
  end.
Definition find_workspace_root (exists_ : Path → bool) (dir : Path) : option Path := find_from exists_ dir None.

(** [save_zeros]: the file it writes, and its contents. *)
Definition save_zeros (current_dir : option Path) (exists_ : Path → bool) : res string (Path * list byte) :=
  let bytes := zeros_bytes in
  project_dir ← unwrap current_dir;
  cargo_dir ← unwrap (find_workspace_root exists_ project_dir);
  Ok (["merkle-zeros.dat"; "src"; "nori-hash"]%string ++ cargo_dir, bytes).

(** ** bin/hash_vectors.rs *)

(** [Fp::from] on [u64], and [FieldHelpers::to_biguint] *)
Context (fp_from : u64 → Fp) (to_biguint : Fp → Z).

Definition fp_to_decimal (fp : Fp) : string := pretty (to_biguint fp).
(** The inputs of a vector, and its output in decimal. *)
Definition hash_vector (inputs : list Z) : list Z * string :=
  (inputs, fp_to_decimal (poseidon_hash ((λ i, fp_from (to_uint 64 i)) <$> inputs))).
Definition hash_vectors : list (list Z * string) :=
  ((λ i, hash_vector [i]) <$> seqZ 0 10000)
  ++ ((λ i, hash_vector [i; i + 1]) <$> seqZ 0 5000)
  ++ ((λ i, hash_vector [i; i + 1; i + 2]) <$> seqZ 0 5000).
End Files.

(** ** The workspace is the outermost directory with a manifest *)
Section Spec.
  Context `{PoseidonSponge}.

Lemma find_from_Some exists_ dir last_found root : find_from exists_ dir last_found = Some root →
  (∃ inner, dir = inner ++ root ∧ exists_ ("Cargo.toml"%string :: root) = true) ∨ last_found = Some root.
Proof.
  revert last_found. induction dir as [|x dir IH]; intros l; simpl.
  - destruct (exists_ _) eqn:He; [intros [= <-]; left; by exists []|by right].
  - intros [(inner & -> & He)|Hl]%IH; [left; by exists (x :: inner)|].
    destruct (exists_ ("Cargo.toml"%string :: x :: dir)) eqn:He; [|by right]. injection Hl as <-. left. by exists [].
Qed.
Lemma find_from_outermost exists_ inner outer last_found root :
  find_from exists_ (inner ++ outer) last_found = Some root → exists_ ("Cargo.toml"%string :: outer) = true →
  (length root ≤ length outer)%nat.
Proof.
  revert last_found. induction inner as [|x inner IH]; intros l; simpl; [|by apply IH].
  intros Hf He. assert (find_from exists_ outer None = Some root ∨ root = outer) as Hor.
  { destruct outer as [|x outer]; simpl in *; rewrite He in *; [by left|by left]. }
  destruct Hor as [[(inner & -> & _)|?]%find_from_Some| ->]; [rewrite length_app; lia|done|done].
Qed.
Lemma find_workspace_root_outermost exists_ dir root : find_workspace_root exists_ dir = Some root →
  exists_ ("Cargo.toml"%string :: root) = true ∧ root `suffix_of` dir ∧
  ∀ outer, outer `suffix_of` dir → exists_ ("Cargo.toml"%string :: outer) = true → root `suffix_of` outer.
Proof.
  intros Hf. pose proof (find_from_Some _ _ _ _ Hf) as [(inner & -> & He)|?]; [|done].
  split_and!; [done|by exists inner|]. intros outer [inner' Heq] Ho. unfold find_workspace_root in Hf. rewrite Heq in Hf.
  pose proof (find_from_outermost _ _ _ _ _ Hf Ho) as Hle.
  exists (take (length outer - length root) outer).
  assert (drop (length outer - length root) outer = root) as Hd.
  { assert (length inner + length root = length inner' + length outer)%nat as Hl by (rewrite <-!length_app; by f_equal).
    apply (f_equal (drop (length inner))) in Heq. rewrite drop_app_length in Heq.
    symmetry. etrans; [exact Heq|]. rewrite drop_app_ge by lia. f_equal. lia. }
  rewrite <-Hd at 2. by rewrite take_drop.
Qed.

(** ** Reading what was written *)

(** The reader of the table, on any bytes. *)
Definition zeros_of_bytes {E} (bytes : list byte) : res E (list Fp) :=
  try_fold (λ zeros '(i, chunk),
    z ← match fp_from_bytes chunk with inl z => Ok z | inr _ => Panic end;
    vec_set zeros i z) (replicate N_MERKLE_ZEROS fp_zero) (enumerate (chunks 32 bytes)).
Lemma get_merkle_zeros_reads {E} : get_merkle_zeros (E:=E) = zeros_of_bytes MERKLE_ZEROS.
Proof. done. Qed.

Lemma chunks_fuel_mjoin {A} k (ls : list (list A)) fuel : (0 < k)%nat → Forall (λ l, length l = k) ls →
  (length (mjoin ls) ≤ fuel)%nat → chunks_fuel fuel k (mjoin ls) = ls.
Proof.
  intros Hk Hls. revert fuel. induction Hls as [|l ls Hl _ IH]; intros fuel Hf; [by destruct fuel|].
  change (mjoin (l :: ls)) with (l ++ mjoin ls) in *. rewrite length_app in Hf.
  destruct fuel as [|fuel]; [lia|]. destruct l as [|x l]; [simpl in Hl; lia|]. cbn [chunks_fuel app].
  change (x :: l ++ mjoin ls) with ((x :: l) ++ mjoin ls). rewrite <-Hl, take_app_length, drop_app_length, Hl.
  f_equal. apply IH. simpl in Hf. lia.
Qed.
Lemma chunks_mjoin {A} k (ls : list (list A)) : (0 < k)%nat → Forall (λ l, length l = k) ls → chunks k (mjoin ls) = ls.
Proof. intros. by apply chunks_fuel_mjoin. Qed.

Context `{!PastaFieldLaws}.

Lemma fp_from_to_bytes x : fp_from_bytes (fp_to_bytes x) = inl x.
Proof.
  rewrite fp_to_bytes_spec. pose proof (fp_Z_range x) as Hx. pose proof fp_modulus_bound as Hm.
  assert (le_val (le_bytes 32 (fp_Z x)) = fp_Z x) as Hv.
  { rewrite le_val_le_bytes. apply Z.mod_small. assert (2 ^ 255 < 256 ^ Z.of_nat 32) by done. lia. }
  destruct (fp_from_bytes_spec (le_bytes 32 (fp_Z x))) as (y & -> & Hy); [apply length_le_bytes|lia|].
  f_equal. apply (inj fp_Z). lia.
Qed.

(** Every table of field elements is read back. *)
Lemma zeros_roundtrip {E} zeros : length zeros = N_MERKLE_ZEROS →
  zeros_of_bytes (E:=E) (mjoin (fp_to_bytes <$> zeros)) = Ok zeros.
Proof.
  intros Hl. unfold zeros_of_bytes. rewrite chunks_mjoin; [|lia|].
  2: { apply Forall_fmap, Forall_true. intros x. simpl. rewrite fp_to_bytes_spec. apply length_le_bytes. }
  destruct (enum_fill (E:=E) (λ c z, fp_from_bytes c = inl z)
    (λ chunk, match fp_from_bytes chunk with inl z => Ok z | inr _ => Panic end) fp_zero (fp_to_bytes <$> zeros)) as (zs & Hz & Hall).
  { apply Forall_fmap, Forall_true. intros x. simpl. exists x. by rewrite fp_from_to_bytes. }
  rewrite length_fmap, Hl in Hz. rewrite Hz. f_equal. clear Hz Hl.
  remember (fp_to_bytes <$> zeros) as bs eqn:Hb. revert zeros Hb.
  induction Hall as [|b z bs zs Hbz _ IH]; intros [|x zeros] Hb; try done.
  rewrite fmap_cons in Hb. injection Hb as -> ->. rewrite fp_from_to_bytes in Hbz. injection Hbz as <-. f_equal. by apply IH.
Qed.
Lemma length_calculate_zeros : length calculate_zeros = N_MERKLE_ZEROS.
Proof. unfold calculate_zeros. by rewrite length_fmap, length_seq. Qed.

(** A table of canonical words is written back as it was read. *)
Lemma zeros_written_back {E} zeros : get_merkle_zeros (E:=E) = Ok zeros → mjoin (fp_to_bytes <$> zeros) = MERKLE_ZEROS.
Proof.
  intros Hz. destruct (get_merkle_zeros_total (E:=E)) as (zeros' & Hz' & Hl & Hv & _). rewrite Hz in Hz'. injection Hz' as <-.
  assert (fp_to_bytes <$> zeros = chunks 32 MERKLE_ZEROS) as ->.
  - transitivity (le_bytes 32 <$> (fp_Z <$> zeros)).
    + rewrite <-list_fmap_compose. apply list_fmap_ext. intros i x _. apply fp_to_bytes_spec.
    + rewrite Hv. by vm_compute.
  - by vm_compute.
Qed.

(** C36: the table of zeros is regenerated: what [save_zeros] writes is read back as
    the chain of hashes, for every sponge; and the checked-in table is read as
    the chain exactly when it is, byte for byte, what [save_zeros] writes. *)
Theorem zeros_file_regenerated {E} :
  zeros_of_bytes (E:=E) zeros_bytes = Ok calculate_zeros ∧
  (get_merkle_zeros (E:=E) = Ok calculate_zeros ↔ zeros_bytes = MERKLE_ZEROS).
Proof.
  assert (zeros_of_bytes (E:=E) zeros_bytes = Ok calculate_zeros) as Hr by apply zeros_roundtrip, length_calculate_zeros.
  split; [done|]. split; [apply zeros_written_back|]. intros Hb. by rewrite get_merkle_zeros_reads, <-Hb.
Qed.
End Spec.
