(* ===== verification/LeafTests.v ===== *)
(** * nori-hash: the tests of the request leaf

    [request_leaf_tests] of merkle_poseidon_fixed.rs and the byte routing of
    tests/request_leaf_byte_routing.rs.  [field_and_offset], the documented
    layout of the four packed fields, is a reference for the packing: the test
    checks it on requests with one non-zero byte, here it holds for all. *)
From S2P Require Import Prelude Externals StorageLayout Types Merkle Instances MerkleSpec RequestLeaf MerkleTests.

(** A request as the tests write it (without the name it gets in the vector file). *)
Record Case := MkCase {
  case_target : Address;
  case_collection_keys_count : u8;
  case_collection_key_0 : B256;
  case_collection_key_1 : B256;
  case_value : U256
}.
#[global] Instance Case_eq_dec : EqDecision Case.
Proof. solve_decision. Defined.

Definition SINGLE_BYTE_MARKER : byte := xa5.

(** (field index, byte offset within that field's buffer) of an input byte; [None] is [unreachable!]. *)
Definition field_and_offset (byte_index : nat) : option (nat * nat) :=
  if decide (byte_index ≤ 19)%nat then Some (0, byte_index)%nat
  else if decide (byte_index = 20)%nat then Some (0, 20)%nat
  else if decide (byte_index = 21)%nat then Some (0, 21)%nat
  else if decide (byte_index ≤ 52)%nat then Some (1, byte_index - 22)%nat
  else if decide (byte_index = 53)%nat then Some (0, 22)%nat
  else if decide (byte_index ≤ 84)%nat then Some (2, byte_index - 54)%nat
  else if decide (byte_index = 85)%nat then Some (0, 23)%nat
  else if decide (byte_index ≤ 116)%nat then Some (3, byte_index - 86)%nat
  else None.

(** [bytes = [0; 32]; bytes[0] = byte] *)
Definition leading_byte (b : byte) : B256 := zeroed_with 32 [b].
(** A zeroed array with one byte set. *)
Definition marked (n offset : nat) : FixedBytes n := zeroed_with n (replicate offset x00 ++ [SINGLE_BYTE_MARKER]).

(** ** Hexadecimal text, of [merkle_fixed_tests::rarg_test_hash_request_leaf] *)

(** [&s[from..to]] *)
Definition str_slice {E} (s : string) (from to : nat) : res E string :=
  if decide (from ≤ to ∧ to ≤ String.length s)%nat then Ok (String.substring from (to - from) s) else Panic.
Definition hex_value (c : Ascii.ascii) : option Z :=
  let z := Z.of_N (Ascii.N_of_ascii c) in
  if decide (48 ≤ z ≤ 57) then Some (z - 48)
  else if decide (97 ≤ z ≤ 102) then Some (z - 87)
  else if decide (65 ≤ z ≤ 70) then Some (z - 55) else None.
(** [u8::from_str_radix(s, 16)] (no sign occurs); [None] is an error. *)
Definition u8_from_hex (s : string) : option byte :=
  match s with
  | EmptyString => None
  | _ =>
    v ← foldl (λ acc c, v ← acc; d ← hex_value c; Some (16 * v + d)) (Some 0) (String.list_ascii_of_string s);
    if decide (v < 256) then Some (byte_of_Z v) else None
  end.
(** [for i in 0..32 { bytes[place(i)] = u8::from_str_radix(&text[i * 2..i * 2 + 2], 16).unwrap(); }] *)
Definition hex_bytes {E} (place : nat → nat) (text : string) : res E (list byte) :=
  try_fold (λ bytes i,
    byte_str ← str_slice text (i * 2) (i * 2 + 2);
    b ← unwrap (u8_from_hex byte_str);
    vec_set bytes (place i) b) (replicate 32 x00) (seq 0 32).

(** The request of the test. *)
Definition rarg_request {E} : res E Case :=
  let slot_key_code_challenge_str := "2f000000000000000000000000000000000000000000000000038d7ec293e52f"%string in
  let value_str := "e8d4a51000"%string in
  hash_bytes ← hex_bytes (λ i, 31 - i)%nat slot_key_code_challenge_str;
  let code_challenge := to_uint 256 (le_val hash_bytes) in
  _ ← (if decide (String.length value_str ≤ 64)%nat then Ok () else Panic);
  let padded_value := (String.string_of_list_ascii (replicate (64 - String.length value_str) (Ascii.ascii_of_N 48)) +:+ value_str)%string in
  value_bytes ← hex_bytes (λ i, i) padded_value;
  let value := to_uint 256 (be_val value_bytes) in
  Ok (MkCase (fb_zero 20) (to_uint 8 1) (b256_from_u256 code_challenge) (fb_zero 32) value).

Section Tests.
  Context `{PoseidonSponge}.

Definition pack_case (c : Case) : res anyhow (list Fp) :=
  pack_request_leaf_fields (case_target c) (case_collection_keys_count c) (case_collection_key_0 c)
    (case_collection_key_1 c) (case_value c).
Definition leaf (target : Address) (count : u8) (key_0 key_1 : B256) (value : U256) : res anyhow Fp :=
  match hash_request_leaf target count key_0 key_1 value with Ok hash => Ok hash | _ => Panic end.

(** Expected packing of a single-byte case, from the documented field layout. *)
Definition expected_fields (byte_index : nat) : res anyhow (list Fp) :=
  '(field_index, offset) ← unwrap (field_and_offset byte_index);
  let bytes := <[offset := SINGLE_BYTE_MARKER]> (replicate 32 x00) in
  field ← match fp_from_bytes bytes with inl field => Ok field | inr _ => Panic end;
  vec_set (replicate 4 fp_zero) field_index field.

(** The request with the marker at one of its 117 bytes. *)
Definition single_byte_request (byte_index : nat) : option Case :=
  let z32 := fb_zero 32 in let z := to_uint 8 0 in let v := to_uint 256 0 in
  if decide (byte_index ≤ 19)%nat then Some (MkCase (marked 20 byte_index) z z32 z32 v)
  else if decide (byte_index = 20)%nat then Some (MkCase (fb_zero 20) (to_uint 8 (byte_Z SINGLE_BYTE_MARKER)) z32 z32 v)
  else if decide (byte_index ≤ 52)%nat then Some (MkCase (fb_zero 20) z (marked 32 (byte_index - 21)) z32 v)
  else if decide (byte_index ≤ 84)%nat then Some (MkCase (fb_zero 20) z z32 (marked 32 (byte_index - 53)) v)
  else if decide (byte_index ≤ 116)%nat then
    Some (MkCase (fb_zero 20) z z32 z32 (u256_from_be (marked 32 (byte_index - 85))))
  else None.
(** [single_byte_case]: the packing is asserted to be the expected one. *)
Definition single_byte_case (byte_index : nat) : res anyhow Case :=
  c ← unwrap (single_byte_request byte_index);
  actual ← match pack_case c with Ok fields => Ok fields | _ => Panic end;
  expected ← expected_fields byte_index;
  _ ← assert_eq actual expected;
  Ok c.
Definition single_byte_cases : res anyhow (list Case) := try_map single_byte_case (seq 0 117).

(** ** [request_leaf_tests] *)

Definition leaf_of (c : Case) : res anyhow Fp :=
  leaf (case_target c) (case_collection_keys_count c) (case_collection_key_0 c) (case_collection_key_1 c) (case_value c).
Definition zero_case : Case := MkCase (fb_zero 20) (to_uint 8 0) (fb_zero 32) (fb_zero 32) (to_uint 256 0).
Definition max_case : Case :=
  MkCase (repeat_byte 20 xff) (to_uint 8 255) (repeat_byte 32 xff) (repeat_byte 32 xff) (to_uint 256 (2 ^ 256 - 1)).
(** The request that the tests vary: target, key count and value. *)
Definition one_key_case (target : byte) (count value : Z) : Case :=
  MkCase (repeat_byte 20 target) (to_uint 8 count) (repeat_byte 32 x22) (fb_zero 32) (to_uint 256 value).

Definition hashes_an_all_zero_request : res anyhow () := _ ← leaf_of zero_case; Ok ().
Definition hashes_maximum_bytes_without_field_overflow : res anyhow () := _ ← leaf_of max_case; Ok ().
Definition key_count_distinguishes_an_unused_key_from_a_zero_key : res anyhow () :=
  one_key ← leaf_of (one_key_case x11 1 7); two_keys ← leaf_of (one_key_case x11 2 7); assert_ne one_key two_keys.
Definition distinct_targets_produce_distinct_leaves : res anyhow () :=
  a ← leaf_of (one_key_case x01 1 7); b ← leaf_of (one_key_case x02 1 7); assert_ne a b.
Definition distinct_values_produce_distinct_leaves : res anyhow () :=
  a ← leaf_of (one_key_case x11 1 7); b ← leaf_of (one_key_case x11 1 8); assert_ne a b.
Definition two_keys_case (key_0 key_1 : B256) (value : U256) : Case :=
  MkCase (fb_zero 20) (to_uint 8 2) key_0 key_1 value.
Definition leading_bytes_are_included_in_the_hash : res anyhow () :=
  let z := fb_zero 32 in
  base ← leaf_of (two_keys_case z z (to_uint 256 0));
  key_0_differs ← leaf_of (two_keys_case (leading_byte xaa) z (to_uint 256 0));
  key_1_differs ← leaf_of (two_keys_case z (leading_byte xaa) (to_uint 256 0));
  value_differs ← leaf_of (two_keys_case z z (u256_from_be (leading_byte xbb)));
  _ ← assert_ne base key_0_differs;
  _ ← assert_ne base key_1_differs;
  _ ← assert_ne base value_differs;
  assert_ne key_0_differs key_1_differs.
Definition is_deterministic : res anyhow () :=
  let args := MkCase (repeat_byte 20 x33) (to_uint 8 2) (repeat_byte 32 x44) (repeat_byte 32 x55) (to_uint 256 99) in
  a ← leaf_of args; b ← leaf_of args; assert_eq a b.
(** [merkle_fixed_tests::test_hash_request_leaf_basic] *)
Definition test_hash_request_leaf_basic : res anyhow () :=
  let '(target, count, key_0, key_1, value) := dummy_request 2 in
  leaf_hash ← hash_request_leaf target count key_0 key_1 value;
  assert_ne leaf_hash fp_zero.

(** The hash is only printed. *)
Definition rarg_test_hash_request_leaf : res anyhow () :=
  c ← rarg_request;
  _ ← leaf_of c;
  Ok ().

(** ** The packing follows the layout *)

(** The 117 bytes that are hashed. *)
Definition request_bytes (c : Case) : list byte :=
  fb_bytes (case_target c) ++ byte_of_Z (case_collection_keys_count c) :: fb_bytes (case_collection_key_0 c)
  ++ fb_bytes (case_collection_key_1 c) ++ fb_bytes (b256_from_u256 (case_value c)).
(** Put every byte where [field_and_offset] says, in four zeroed buffers. *)
Definition route_byte (fields : list (list byte)) (indexed : nat * byte) : list (list byte) :=
  match field_and_offset (fst indexed) with
  | Some (field_index, offset) => alter (λ buf, <[offset := snd indexed]> buf) field_index fields
  | None => fields
  end.
Definition routed (bytes : list byte) : list (list byte) :=
  foldl route_byte (replicate 4 (replicate 32 x00)) (enumerate bytes).

Lemma routed_layout (t k0 k1 v : list byte) c a b w : length t = 20%nat → length k0 = 31%nat → length k1 = 31%nat →
  length v = 31%nat → routed (t ++ c :: (a :: k0) ++ (b :: k1) ++ (w :: v))
  = [t ++ [c; a; b; w] ++ replicate 8 x00; k0 ++ [x00]; k1 ++ [x00]; v ++ [x00]].
Proof.
  intros Ht H0' H1' Hv.
  do 20 (destruct t as [|? t]; [discriminate Ht|]). destruct t; [|discriminate Ht].
  do 31 (destruct k0 as [|? k0]; [discriminate H0'|]). destruct k0; [|discriminate H0'].
  do 31 (destruct k1 as [|? k1]; [discriminate H1'|]). destruct k1; [|discriminate H1'].
  do 31 (destruct v as [|? v]; [discriminate Hv|]). destruct v; [|discriminate Hv].
  vm_compute. reflexivity.
Qed.

Context `{!PastaFieldLaws}.

Lemma packing_is_routing c : ∃ fields, pack_case c = Ok fields ∧ fp_Z <$> fields = le_val <$> routed (request_bytes c).
Proof.
  destruct c as [target count key_0 key_1 value]. unfold pack_case, request_bytes. cbn [case_target case_collection_keys_count
    case_collection_key_0 case_collection_key_1 case_value].
  destruct (pack_fields_Ok target count key_0 key_1 value) as (k0 & t0 & k1 & t1 & v & t & fs & -> & -> & -> & L0 & L1 & L2 & Hp & Hf).
  exists fs. split; [done|]. rewrite Hf, routed_layout by (apply length_fb || done).
  assert (∀ l n, le_val (l ++ replicate n x00) = le_val l) as Hpad.
  { intros l n. rewrite le_val_app, le_val_zeros. lia. }
  change [x00] with (replicate 1 x00). cbn [fmap list_fmap]. unfold first_payload. by rewrite app_assoc, !Hpad.
Qed.

(** C25: the packing is the documented layout: every request packs into four
    fields, and field by field they are the little-endian values of the buffers
    that result when each of the 117 bytes of the request is put where
    [field_and_offset] says (the layout the proof system's verifier rebuilds). *)
Theorem packing_routes_every_byte c :
  ∃ fields, pack_case c = Ok fields ∧ fp_Z <$> fields = le_val <$> routed (request_bytes c).
Proof. apply packing_is_routing. Qed.

(** The layout places every byte once: no two bytes share a place. *)
Lemma field_and_offset_inj i j : (i < 117)%nat → (j < 117)%nat → field_and_offset i = field_and_offset j → i = j.
Proof.
  intros Hi Hj Heq. assert (NoDup (field_and_offset <$> seq 0 117)) as Hnd by (apply (bool_decide_unpack _); vm_compute; done).
  eapply (NoDup_lookup _ _ _ (field_and_offset i) Hnd); rewrite list_lookup_fmap, lookup_seq_lt by done; [done|by rewrite Heq].
Qed.
Lemma field_and_offset_total i : (i < 117)%nat → ∃ f o, field_and_offset i = Some (f, o) ∧ (f < 4)%nat ∧ (o < 31)%nat.
Proof.
  intros Hi. unfold field_and_offset. repeat case_decide; try (do 2 eexists; split; [done|lia]); lia.
Qed.

(** Routing a single marked byte marks one place. *)
Lemma single_byte_routes : Forall (λ i, ∃ c f o, single_byte_request i = Some c ∧ field_and_offset i = Some (f, o) ∧
  (f < 4)%nat ∧ le_val (<[o := SINGLE_BYTE_MARKER]> (replicate 32 x00)) < 2 ^ 254 ∧
  routed (request_bytes c) = <[f := <[o := SINGLE_BYTE_MARKER]> (replicate 32 x00)]> (replicate 4 (replicate 32 x00)))
  (seq 0 117).
Proof.
  assert (Forall (λ i, match single_byte_request i, field_and_offset i with
    | Some c, Some (f, o) => bool_decide ((f < 4)%nat ∧ le_val (<[o := SINGLE_BYTE_MARKER]> (replicate 32 x00)) < 2 ^ 254 ∧
        routed (request_bytes c) = <[f := <[o := SINGLE_BYTE_MARKER]> (replicate 32 x00)]> (replicate 4 (replicate 32 x00)))
    | _, _ => false end = true) (seq 0 117)) as Hall by (apply (bool_decide_unpack _); vm_compute; done).
  eapply list.Forall_impl; [exact Hall|]. intros i. cbv beta.
  destruct (single_byte_request i) as [c|]; [|done]. destruct (field_and_offset i) as [[f o]|]; [|done].
  intros (? & ? & ?)%bool_decide_eq_true. by exists c, f, o.
Qed.

(** [every_byte_routes_to_the_correct_field]: all 117 cases pass. *)
Lemma single_byte_cases_pass : ∃ cases, single_byte_cases = Ok cases ∧ length cases = 117%nat.
Proof.
  assert (Forall (λ i, ∃ c, single_byte_case i = Ok c) (seq 0 117)) as Hall.
  { eapply list.Forall_impl; [exact single_byte_routes|]. intros i (c & f & o & Hc & Hfo & Hf & Hm & Hr). exists c.
    unfold single_byte_case. rewrite Hc. destruct (packing_is_routing c) as (fields & Hp & Hz).
    change (unwrap (Some c)) with (Ok (E:=anyhow) c). rewrite Ok_bind, Hp, Ok_bind. unfold expected_fields. rewrite Hfo.
    change (unwrap (Some ?x)) with (Ok (E:=anyhow) x). rewrite Ok_bind.
    destruct (fp_from_bytes_spec (<[o := SINGLE_BYTE_MARKER]> (replicate 32 x00))) as (x & Hx & Hxz).
    { by rewrite length_insert. } { pose proof fp_modulus_bound. lia. }
    rewrite Hx, Ok_bind, vec_set_in by (rewrite length_replicate; lia). rewrite Ok_bind.
    assert (fields = <[f := x]> (replicate 4 fp_zero)) as ->; [|unfold assert_eq; by rewrite decide_True].
    apply (inj (fmap fp_Z)). rewrite Hz, Hr, !list_fmap_insert, !fmap_replicate, Hxz, fp_zero_Z, (le_val_zeros 32). done. }
  destruct (try_map_steps single_byte_case (λ _ _, True) (seq 0 117)) as (cases & Hc & _).
  { intros i Hi. rewrite Forall_elem in Hall. destruct (Hall i Hi) as [c Hc]. by exists c. }
  exists cases. split; [done|]. by rewrite (try_map_length _ _ _ Hc), length_seq.
Qed.

(** ** [request_leaf_tests] pass, unless the leaves they compare collide *)

Definition cases_collide (a b : Case) : Prop := ∃ f g, pack_case a = Ok f ∧ pack_case b = Ok g ∧
  f ≠ g ∧ poseidon_hash f = poseidon_hash g.

Lemma leaf_of_Ok c : ∃ fields, pack_case c = Ok fields ∧ leaf_of c = Ok (poseidon_hash fields).
Proof.
  destruct c as [t n a b v]. unfold leaf_of, leaf, pack_case. simpl.
  destruct (hash_request_leaf_Ok t n a b v) as (fs & Hp & _ & ->). by exists fs.
Qed.
Lemma distinct_leaves {A} a b (k : () → res anyhow A) : a ≠ b → ¬ cases_collide a b →
  (x ← leaf_of a; y ← leaf_of b; u ← assert_ne x y; k u) = k ().
Proof.
  intros Hne Hc. destruct (leaf_of_Ok a) as (f & Hf & ->), (leaf_of_Ok b) as (g & Hg & ->). rewrite !Ok_bind.
  unfold assert_ne. rewrite decide_False; [done|]. intros Heq. apply Hc. exists f, g. split_and!; [done|done| |done].
  intros ->. apply Hne. destruct a, b. unfold pack_case in *. cbn in Hf, Hg.
  pose proof (pack_fields_inj _ _ _ _ _ _ _ _ _ _ _ Hf Hg). congruence.
Qed.
(** The text is read as it is written, big-endian, and the test passes. *)
Lemma rarg_request_Ok {E} : ∃ c, rarg_request (E:=E) = Ok c ∧
  be_val (fb_bytes (case_collection_key_0 c)) = 0x2f000000000000000000000000000000000000000000000000038d7ec293e52f ∧
  uint_Z (case_value c) = 1000000000000.
Proof. eexists. split; [vm_compute; reflexivity|]. split; vm_compute; reflexivity. Qed.
Lemma rarg_test_passes : rarg_test_hash_request_leaf = Ok ().
Proof.
  unfold rarg_test_hash_request_leaf. destruct (rarg_request_Ok (E:=anyhow)) as (c & -> & _). rewrite Ok_bind.
  destruct (leaf_of_Ok c) as (fields & _ & ->). done.
Qed.

Definition request_leaf_suite : list (res anyhow ()) :=
  [hashes_an_all_zero_request; hashes_maximum_bytes_without_field_overflow;
   key_count_distinguishes_an_unused_key_from_a_zero_key; distinct_targets_produce_distinct_leaves;
   distinct_values_produce_distinct_leaves; is_deterministic].
Lemma request_leaf_suite_passes :
  (¬ cases_collide (one_key_case x11 1 7) (one_key_case x11 2 7)) →
  (¬ cases_collide (one_key_case x01 1 7) (one_key_case x02 1 7)) →
  (¬ cases_collide (one_key_case x11 1 7) (one_key_case x11 1 8)) →
  Forall (λ test, test = Ok ()) request_leaf_suite.
Proof.
  intros C1 C2 C3.
  assert (∀ a b, a ≠ b → ¬ cases_collide a b → (x ← leaf_of a; y ← leaf_of b; assert_ne x y) = Ok ()) as Hd.
  { intros a b Hne Hc. pose proof (distinct_leaves a b (λ _, Ok ()) Hne Hc) as <-.
    destruct (leaf_of a), (leaf_of b); try done. simpl. unfold assert_ne. by case_decide. }
  repeat constructor; unfold hashes_an_all_zero_request, hashes_maximum_bytes_without_field_overflow, is_deterministic.
  - destruct (leaf_of_Ok zero_case) as (f & _ & ->). done.
  - destruct (leaf_of_Ok max_case) as (f & _ & ->). done.
  - apply Hd; [|done]. apply (bool_decide_unpack _). by vm_compute.
  - apply Hd; [|done]. apply (bool_decide_unpack _). by vm_compute.
  - apply Hd; [|done]. apply (bool_decide_unpack _). by vm_compute.
  - match goal with |- (_ ← leaf_of ?c; _) = _ => destruct (leaf_of_Ok c) as (f & _ & ->) end.
    rewrite !Ok_bind. unfold assert_eq. by rewrite decide_True.
Qed.
End Tests.
