(* ===== verification/Keccak.v ===== *)
(** * keccak256, executable

    The hash that [alloy_primitives::keccak256] computes, from its published
    specification (Keccak with rate 136, capacity 64 and the padding byte 1), as
    an instance of [Keccak] on which the checked-in test vectors evaluate.  No
    theorem about the program depends on it. *)
From S2P Require Import Prelude Externals.

(** A state is 25 lanes of 64 bits; lane (x, y) is number [x + 5 y]. *)
Definition mask64 : Z := 2 ^ 64 - 1.
Definition rotl64 (v : Z) (n : Z) : Z := Z.lor (Z.land (Z.shiftl v n) mask64) (Z.shiftr v (64 - n)).
Definition lane (st : list Z) (x y : nat) : Z := default 0 (st !! (x `mod` 5 + 5 * (y `mod` 5))%nat).
Definition lanes (f : nat → nat → Z) : list Z := (λ i, f (i `mod` 5)%nat (i / 5)%nat) <$> seq 0 25.

Definition rotation_offsets : list Z :=
  [0; 1; 62; 28; 27; 36; 44; 6; 55; 20; 3; 10; 43; 25; 39; 41; 45; 15; 21; 8; 18; 2; 61; 56; 14].
Definition round_constants : list Z :=
  [0x0000000000000001; 0x0000000000008082; 0x800000000000808a; 0x8000000080008000; 0x000000000000808b; 0x0000000080000001;
   0x8000000080008081; 0x8000000000008009; 0x000000000000008a; 0x0000000000000088; 0x0000000080008009; 0x000000008000000a;
   0x000000008000808b; 0x800000000000008b; 0x8000000000008089; 0x8000000000008003; 0x8000000000008002; 0x8000000000000080;
   0x000000000000800a; 0x800000008000000a; 0x8000000080008081; 0x8000000000008080; 0x0000000080000001; 0x8000000080008008].

Definition theta (st : list Z) : list Z :=
  let c := (λ x, foldr Z.lxor 0 ((λ y, lane st x y) <$> seq 0 5)) <$> seq 0 5 in
  let col x := default 0 (c !! (x `mod` 5)%nat) in
  let d := (λ x, Z.lxor (col (x + 4)%nat) (rotl64 (col (x + 1)%nat) 1)) <$> seq 0 5 in
  lanes (λ x y, Z.lxor (lane st x y) (default 0 (d !! x))).
(** rho and pi: lane (x, y) is rotated and goes to (y, 2x + 3y); the lane at (x, y) comes from (x + 3y, x). *)
Definition rho_pi (st : list Z) : list Z :=
  lanes (λ x y, let x' := ((x + 3 * y) `mod` 5)%nat in rotl64 (lane st x' x) (default 0 (rotation_offsets !! (x' + 5 * x)%nat))).
Definition chi (st : list Z) : list Z :=
  lanes (λ x y, Z.lxor (lane st x y) (Z.land (Z.lxor (lane st (x + 1) y) mask64) (lane st (x + 2) y))).
Definition iota (rc : Z) (st : list Z) : list Z := alter (Z.lxor rc) 0%nat st.
Definition keccak_f (st : list Z) : list Z := foldl (λ st rc, iota rc (chi (rho_pi (theta st)))) st round_constants.

Definition keccak_rate : nat := 136.
(** The padding: 1, zeros, and the top bit of the last byte. *)
Definition keccak_pad (input : list byte) : list byte :=
  let n := (keccak_rate - length input `mod` keccak_rate)%nat in
  input ++ (if decide (n = 1%nat) then [x81] else x01 :: replicate (n - 2) x00 ++ [x80]).
Definition absorb (st : list Z) (block : list byte) : list Z :=
  keccak_f (imap (λ i l, Z.lxor l (default 0 ((le_val <$> chunks 8 block) !! i))) st).
Definition keccak_256 (input : list byte) : B256 :=
  let st := foldl absorb (replicate 25 0) (chunks keccak_rate (keccak_pad input)) in
  fb_of_Z 32 (be_val (take 32 (mjoin (le_bytes 8 <$> st)))).
Definition real_keccak : Keccak := keccak_256.
