(* ===== verification/VectorTests.v ===== *)
(** * nori-primitives: the tests of the wire formats, and the checked-in vectors

    [proof_outputs_tests] of types.rs, [test_single_mapping_storage_slot] of
    storage_layout.rs, and the two suites under nori-primitives/tests that
    render test-vectors/proof-request-queue: the storage keys of the queue's
    entries, which the Solidity contract must use, and the encoding of the public
    outputs, which the Mina circuit decodes.  Evaluated with the real keccak256,
    the model's functions give the vectors of the repository. *)
From Stdlib Require Import Ascii.
From S2P Require Import Prelude Externals Keccak StorageLayout Types Merkle Instances MerkleTests.

(** [hex::encode] *)
Definition hex_digit (d : Z) : ascii := ascii_of_N (Z.to_N (if decide (d < 10) then 48 + d else 87 + d)).
Definition hex_encode (bytes : list byte) : string :=
  foldr (λ b s, String (hex_digit (byte_Z b `div` 16)) (String (hex_digit (byte_Z b `mod` 16)) s)) EmptyString bytes.
(** [format!("0x{}", hex::encode(bytes))] *)
Definition hex_0x (bytes : list byte) : string := "0x" +:+ hex_encode bytes.

(** ** [proof_outputs_tests] of types.rs *)

Definition sample : ProofOutputs :=
  MkProofOutputs (to_uint 64 1) (repeat_byte 32 x11) (to_uint 64 2) (repeat_byte 32 x22) (repeat_byte 32 x33)
    (repeat_byte 32 x44) (repeat_byte 32 x55) (repeat_byte 20 x66) (to_uint 64 3) (to_uint 64 9) (to_uint 64 12345).

Definition round_trips_through_bytes : res anyhow () :=
  let bytes := ProofOutputs_to_bytes sample in
  _ ← assert_eq (length bytes) ProofOutputs_SIZE;
  decoded ← ProofOutputs_from_bytes bytes;
  _ ← assert_eq (po_input_queue_cursor decoded) (to_uint 64 3);
  _ ← assert_eq (po_output_queue_cursor decoded) (to_uint 64 9);
  _ ← assert_eq (po_output_block_number decoded) (to_uint 64 12345);
  assert_eq (ProofOutputs_to_bytes decoded) bytes.
Definition cursors_and_block_number_occupy_the_final_twenty_four_bytes : res anyhow () :=
  let bytes := ProofOutputs_to_bytes sample in
  a ← slice bytes 196 204; _ ← assert_eq a (u64_to_be_bytes (to_uint 64 3));
  b ← slice bytes 204 212; _ ← assert_eq b (u64_to_be_bytes (to_uint 64 9));
  c ← slice bytes 212 220; assert_eq c (u64_to_be_bytes (to_uint 64 12345)).
Definition rejects_a_wrong_length_buffer : res anyhow () :=
  let bytes := ProofOutputs_to_bytes sample in
  short ← slice bytes 0 (ProofOutputs_SIZE - 1);
  match ProofOutputs_from_bytes short with Err _ => Ok () | _ => Panic end.

(** ** Storage locations *)
Section Locations.
  Context `{Keccak}.

(** [test_single_mapping_storage_slot] *)
Definition test_single_mapping_storage_slot : res anyhow () :=
  let code_challenge := to_uint 256 1111 in
  let mapping_index := to_uint 8 0 in
  let slot := mapping_entry_location code_challenge mapping_index in
  let encoded := write_at 0 (fb_bytes (b256_from_u256 code_challenge)) (replicate 64 x00) in
  encoded ← vec_set encoded 63 (byte_of_Z mapping_index);
  assert_eq slot (keccak256 encoded).

Definition WORD_NAMES : list string := ["target"; "slotKey"; "collectionKeysCount"; "collectionKeys0"; "collectionKeys1"]%string.

(** One word of an entry: its name and slot, after the assertion. *)
Definition render_word (base : B256) (word_index : nat) : res anyhow (string * string) :=
  let base_u256 := u256_from_be base in
  let slot := struct_word_slot base (to_uint 8 (Z.of_nat word_index)) in
  let slot_u256 := u256_from_be slot in
  _ ← assert_eq (usub slot_u256 base_u256) (to_uint 256 (Z.of_nat word_index));
  name ← index WORD_NAMES word_index;
  Ok (name, hex_0x (fb_bytes slot)).
Definition render_entry (index : U256) : res anyhow (Z * string * list (string * string)) :=
  let base := mapping_entry_location index QUEUE_REQUESTS_STORAGE_INDEX in
  words ← try_map (render_word base) (seq 0 QUEUE_ENTRY_WORDS);
  Ok (uint_Z index, hex_0x (fb_bytes base), words).

Definition vector_indices : list U256 :=
  to_uint 256 <$> [0; 1; 42; 2 ^ 32 - 1; 2 ^ 64 - 1; 2 ^ 256 - 1].
Definition entry_location_vectors_render : res anyhow (string * list (Z * string * list (string * string))) :=
  entries ← try_map render_entry vector_indices;
  Ok (hex_0x (fb_bytes (storage_slot_of_index QUEUE_HEAD_STORAGE_INDEX)), entries).

(** The assertions hold for every entry, whatever its index. *)
Lemma render_entry_Ok (index : U256) : ∃ words,
  render_entry index = Ok (uint_Z index, hex_0x (fb_bytes (mapping_entry_location index QUEUE_REQUESTS_STORAGE_INDEX)), words) ∧
  fst <$> words = WORD_NAMES.
Proof.
  unfold render_entry. set (base := mapping_entry_location index QUEUE_REQUESTS_STORAGE_INDEX).
  destruct (try_map_steps (render_word base) (λ i w, WORD_NAMES !! i = Some (fst w)) (seq 0 QUEUE_ENTRY_WORDS)) as (words & Hw & Hn).
  - intros i Hi%elem_of_seq. unfold QUEUE_ENTRY_WORDS in Hi. unfold render_word.
    assert (usub (u256_from_be (struct_word_slot base (to_uint 8 (Z.of_nat i)))) (u256_from_be base) = to_uint 256 (Z.of_nat i)) as ->.
    { unfold struct_word_slot. rewrite u256_from_be_of_u256. apply uint_eq. unfold usub, uadd. rewrite !uint_Z_to_uint.
      rewrite Zminus_mod_idemp_l. rewrite ucast_wider by lia. rewrite (to_uint_small 8) by (change (2 ^ Z.of_nat 8) with 256; lia).
      f_equal. lia. }
    unfold assert_eq. rewrite decide_True, Ok_bind by done.
    destruct (lookup_lt_is_Some_2 WORD_NAMES i) as [name Hname]; [simpl; lia|].
    rewrite (proj2 (index_Ok _ _ _) Hname), Ok_bind. eexists. by split.
  - rewrite Hw, Ok_bind. exists words. split; [done|].
    assert (Forall2 (λ i name, WORD_NAMES !! i = Some name) (seq 0 QUEUE_ENTRY_WORDS) (fst <$> words)) as Hn' by by apply Forall2_fmap_r.
    apply list_eq_same_length with QUEUE_ENTRY_WORDS; [done|by rewrite <-(list.Forall2_length _ _ _ Hn'), length_seq|].
    intros i x y Hi Hx Hy. destruct (Forall2_lookup_r _ _ _ _ _ Hn' Hx) as (j & Hj & Hjx).
    apply lookup_seq in Hj as [-> _]. simpl in Hjx. congruence.
Qed.
End Locations.

(** test-vectors/proof-request-queue/entry-location-vectors.json *)
Definition entry_location_vectors : string * list (Z * string * list (string * string)) :=
  ("0x0000000000000000000000000000000000000000000000000000000000000000",
   [(0, "0xa6eef7e35abe7026729641147f7915573c7e97b47efa546f5f6e3230263bcb49",
     [("target", "0xa6eef7e35abe7026729641147f7915573c7e97b47efa546f5f6e3230263bcb49");
      ("slotKey", "0xa6eef7e35abe7026729641147f7915573c7e97b47efa546f5f6e3230263bcb4a");
      ("collectionKeysCount", "0xa6eef7e35abe7026729641147f7915573c7e97b47efa546f5f6e3230263bcb4b");
      ("collectionKeys0", "0xa6eef7e35abe7026729641147f7915573c7e97b47efa546f5f6e3230263bcb4c");
      ("collectionKeys1", "0xa6eef7e35abe7026729641147f7915573c7e97b47efa546f5f6e3230263bcb4d")]);
    (1, "0xcc69885fda6bcc1a4ace058b4a62bf5e179ea78fd58a1ccd71c22cc9b688792f",
     [("target", "0xcc69885fda6bcc1a4ace058b4a62bf5e179ea78fd58a1ccd71c22cc9b688792f");
      ("slotKey", "0xcc69885fda6bcc1a4ace058b4a62bf5e179ea78fd58a1ccd71c22cc9b6887930");
      ("collectionKeysCount", "0xcc69885fda6bcc1a4ace058b4a62bf5e179ea78fd58a1ccd71c22cc9b6887931");
      ("collectionKeys0", "0xcc69885fda6bcc1a4ace058b4a62bf5e179ea78fd58a1ccd71c22cc9b6887932");
      ("collectionKeys1", "0xcc69885fda6bcc1a4ace058b4a62bf5e179ea78fd58a1ccd71c22cc9b6887933")]);
    (42, "0xd9ae7388d2083c2e208c0dfdf9b10bc72bbfb00d63d88b3c7fd7c315bfc1cf40",
     [("target", "0xd9ae7388d2083c2e208c0dfdf9b10bc72bbfb00d63d88b3c7fd7c315bfc1cf40");
      ("slotKey", "0xd9ae7388d2083c2e208c0dfdf9b10bc72bbfb00d63d88b3c7fd7c315bfc1cf41");
      ("collectionKeysCount", "0xd9ae7388d2083c2e208c0dfdf9b10bc72bbfb00d63d88b3c7fd7c315bfc1cf42");
      ("collectionKeys0", "0xd9ae7388d2083c2e208c0dfdf9b10bc72bbfb00d63d88b3c7fd7c315bfc1cf43");
      ("collectionKeys1", "0xd9ae7388d2083c2e208c0dfdf9b10bc72bbfb00d63d88b3c7fd7c315bfc1cf44")]);
    (4294967295, "0xfb4dd2a19dc0f57e5d771fd256abae0a23167828cfd83b8d5013bed276791219",
     [("target", "0xfb4dd2a19dc0f57e5d771fd256abae0a23167828cfd83b8d5013bed276791219");
      ("slotKey", "0xfb4dd2a19dc0f57e5d771fd256abae0a23167828cfd83b8d5013bed27679121a");
      ("collectionKeysCount", "0xfb4dd2a19dc0f57e5d771fd256abae0a23167828cfd83b8d5013bed27679121b");
      ("collectionKeys0", "0xfb4dd2a19dc0f57e5d771fd256abae0a23167828cfd83b8d5013bed27679121c");
      ("collectionKeys1", "0xfb4dd2a19dc0f57e5d771fd256abae0a23167828cfd83b8d5013bed27679121d")]);
    (18446744073709551615, "0xf96a472bdfe5b2a759c12ef9eaac602e223d6505b9b6a2b2dcce10ef8c8be639",
     [("target", "0xf96a472bdfe5b2a759c12ef9eaac602e223d6505b9b6a2b2dcce10ef8c8be639");
      ("slotKey", "0xf96a472bdfe5b2a759c12ef9eaac602e223d6505b9b6a2b2dcce10ef8c8be63a");
      ("collectionKeysCount", "0xf96a472bdfe5b2a759c12ef9eaac602e223d6505b9b6a2b2dcce10ef8c8be63b");
      ("collectionKeys0", "0xf96a472bdfe5b2a759c12ef9eaac602e223d6505b9b6a2b2dcce10ef8c8be63c");
      ("collectionKeys1", "0xf96a472bdfe5b2a759c12ef9eaac602e223d6505b9b6a2b2dcce10ef8c8be63d")]);
    (115792089237316195423570985008687907853269984665640564039457584007913129639935, "0xc39d774f18115b85b81494d65e588b565d73abc969333d1da7b0a0eb0729accd",
     [("target", "0xc39d774f18115b85b81494d65e588b565d73abc969333d1da7b0a0eb0729accd");
      ("slotKey", "0xc39d774f18115b85b81494d65e588b565d73abc969333d1da7b0a0eb0729acce");
      ("collectionKeysCount", "0xc39d774f18115b85b81494d65e588b565d73abc969333d1da7b0a0eb0729accf");
      ("collectionKeys0", "0xc39d774f18115b85b81494d65e588b565d73abc969333d1da7b0a0eb0729acd0");
      ("collectionKeys1", "0xc39d774f18115b85b81494d65e588b565d73abc969333d1da7b0a0eb0729acd1")])])%string.

(** ** proof_outputs_vectors.rs *)

Definition byte_filled (b : byte) : B256 := repeat_byte 32 b.
Definition proof_outputs_cases : list (string * ProofOutputs) :=
  [("all_zero"%string, MkProofOutputs (to_uint 64 0) (fb_zero 32) (to_uint 64 0) (fb_zero 32) (fb_zero 32) (fb_zero 32) (fb_zero 32)
     (fb_zero 20) (to_uint 64 0) (to_uint 64 0) (to_uint 64 0));
   ("distinct_fields"%string, MkProofOutputs (to_uint 64 1) (byte_filled x02) (to_uint 64 3) (byte_filled x04) (byte_filled x05)
     (byte_filled x06) (byte_filled x07) (repeat_byte 20 x08) (to_uint 64 9) (to_uint 64 10) (to_uint 64 11));
   ("wide_counters"%string, MkProofOutputs (to_uint 64 (2 ^ 64 - 1)) (byte_filled xff) (to_uint 64 (2 ^ 64 - 1)) (byte_filled xff)
     (byte_filled xff) (byte_filled xff) (byte_filled xff) (repeat_byte 20 xff) (to_uint 64 0x0000000100000000)
     (to_uint 64 0xffffffffffffffff) (to_uint 64 0x0000000100000000));
   ("batch_of_five"%string, MkProofOutputs (to_uint 64 10887424)
     (fb_of_Z 32 0x2f4c9c1d5f6a7b8c9d0e1f2a3b4c5d6e7f8091a2b3c4d5e6f708192a3b4c5d6e) (to_uint 64 10887488)
     (fb_of_Z 32 0x3a5d0e2e607b8c9dae1f2a3b4c5d6e7f8091a2b3c4d5e6f708192a3b4c5d6e7f)
     (fb_of_Z 32 0x4b6e1f3f718c9daebf2a3b4c5d6e7f8091a2b3c4d5e6f708192a3b4c5d6e7f80)
     (fb_of_Z 32 0x5c7f2040829daebfc03b4c5d6e7f8091a2b3c4d5e6f708192a3b4c5d6e7f8091)
     (fb_of_Z 32 0x6d8031519aaebfc0d14c5d6e7f8091a2b3c4d5e6f708192a3b4c5d6e7f8091a2)
     (fb_of_Z 20 0x00000000219ab540356cbb839cbe05303d7705fa) (to_uint 64 37) (to_uint 64 42) (to_uint 64 21551842))].
Definition proof_outputs_round_trip : res anyhow (list (string * string)) :=
  try_map (λ '(name, outputs),
    let bytes := ProofOutputs_to_bytes outputs in
    decoded ← ProofOutputs_from_bytes bytes;
    _ ← assert_eq (ProofOutputs_to_bytes decoded) bytes;
    Ok (name, hex_0x bytes)) proof_outputs_cases.

(** test-vectors/proof-request-queue/proof-outputs-vectors.json (names and bytes) *)
Definition proof_outputs_vectors : list (string * string) :=
  [("all_zero", "0x00000000000000000000000000000000000000000000000000000000000000000000000000000000000000000000000000000000000000000000000000000000000000000000000000000000000000000000000000000000000000000000000000000000000000000000000000000000000000000000000000000000000000000000000000000000000000000000000000000000000000000000000000000000000000000000000000000000000000000000000000000000000000000000000000000000000000000000000000000000000000000000000000000000");
   ("distinct_fields", "0x000000000000000102020202020202020202020202020202020202020202020202020202020202020000000000000003040404040404040404040404040404040404040404040404040404040404040405050505050505050505050505050505050505050505050505050505050505050606060606060606060606060606060606060606060606060606060606060606070707070707070707070707070707070707070707070707070707070707070708080808080808080808080808080808080808080000000000000009000000000000000a000000000000000b");
   ("wide_counters", "0xffffffffffffffffffffffffffffffffffffffffffffffffffffffffffffffffffffffffffffffffffffffffffffffffffffffffffffffffffffffffffffffffffffffffffffffffffffffffffffffffffffffffffffffffffffffffffffffffffffffffffffffffffffffffffffffffffffffffffffffffffffffffffffffffffffffffffffffffffffffffffffffffffffffffffffffffffffffffffffffffffffffffffffffffffffffffffffffffffffffffffffffffffffffffffffffffffffffff0000000100000000ffffffffffffffff0000000100000000");
   ("batch_of_five", "0x0000000000a621002f4c9c1d5f6a7b8c9d0e1f2a3b4c5d6e7f8091a2b3c4d5e6f708192a3b4c5d6e0000000000a621403a5d0e2e607b8c9dae1f2a3b4c5d6e7f8091a2b3c4d5e6f708192a3b4c5d6e7f4b6e1f3f718c9daebf2a3b4c5d6e7f8091a2b3c4d5e6f708192a3b4c5d6e7f805c7f2040829daebfc03b4c5d6e7f8091a2b3c4d5e6f708192a3b4c5d6e7f80916d8031519aaebfc0d14c5d6e7f8091a2b3c4d5e6f708192a3b4c5d6e7f8091a200000000219ab540356cbb839cbe05303d7705fa0000000000000025000000000000002a000000000148dae2")]%string.

(** ** The tests pass, and render what is checked in *)

Lemma wire_format_suite_passes : Forall (λ test, test = Ok ())
  [round_trips_through_bytes; cursors_and_block_number_occupy_the_final_twenty_four_bytes; rejects_a_wrong_length_buffer].
Proof. repeat constructor; vm_compute; reflexivity. Qed.
Lemma test_single_mapping_storage_slot_passes `{Keccak} : test_single_mapping_storage_slot = Ok ().
Proof.
  unfold test_single_mapping_storage_slot, mapping_entry_location.
  assert (vec_set (E:=anyhow) (write_at 0 (fb_bytes (b256_from_u256 (to_uint 256 1111))) (replicate 64 x00)) 63
    (byte_of_Z (to_uint 8 0)) = Ok (mapping_entry_preimage (to_uint 256 1111) (to_uint 8 0))) as -> by by vm_compute.
  rewrite Ok_bind. unfold assert_eq. by rewrite decide_True.
Qed.

(** The wire formats are those of the checked-in test vectors: with the real
    keccak256, the storage key of the queue's head and the five keys of each
    listed entry (indices up to the largest word), and the 220 bytes of each
    listed public output, are byte for byte what test-vectors/proof-request-queue
    says, which the Solidity contract and the Mina circuit are tested against. *)
Lemma checked_in_vectors_agree :
  entry_location_vectors_render (H:=real_keccak) = Ok entry_location_vectors ∧
  proof_outputs_round_trip = Ok proof_outputs_vectors.
Proof. split; vm_compute; reflexivity. Qed.
