(* ===== verification/KeyFiles.v ===== *)
(** * nori-build-zk/bin/make.rs and nori/bin/extract_zeroth_public_input.rs

    After the guest is built its verifying key is written as JSON text, in
    hexadecimal for the contract and in decimal for the proof's zeroth public
    input.  Building the program and setting up its key are the SP1 SDK's. *)
From stdpp Require Import pretty.
From Stdlib Require Import Ascii.
From S2P Require Import Prelude Externals StorageLayout Types Merkle Instances MerkleSpec RequestLeaf MerkleTests LeafTests Keccak VectorTests.

(** [format!] of a string in quotes *)
Definition json_string (s : string) : string := (String (ascii_of_N 34) s +:+ String (ascii_of_N 34) EmptyString)%string.

(** [str::strip_prefix("0x")] *)
Definition strip_0x (s : string) : option string :=
  match s with
  | String a (String b rest) => if decide (a = ascii_of_N 48 ∧ b = ascii_of_N 120) then Some rest else None
  | _ => None
  end.
(** [U256::from_str_radix(hex, 16)] (no underscore occurs); [None] is an error. *)
Definition u256_from_hex (hex : string) : option Z :=
  v ← foldl (λ acc c, v ← acc; d ← hex_value c; Some (16 * v + d)) (Some 0) (String.list_ascii_of_string hex);
  if decide (v < 2 ^ 256) then Some v else None.

Section Keys.
  (** [fs::read] of the program, and [bytes32()] of the key that [setup] makes of it. *)
  Context (read : option (list byte)) (vk_bytes32 : list byte → option string).

(** [main] of make.rs after the build: the contents of the .vk.json file. *)
Definition write_vk (elf_exists : bool) : res string (option string) :=
  if elf_exists then
    elf_bytes ← unwrap read;
    vk ← unwrap (vk_bytes32 elf_bytes);
    Ok (Some (json_string vk))
  else Ok None.

(** [main] of extract_zeroth_public_input.rs: the contents of the .pi0.json file. *)
Definition extract_pi0 : res string string :=
  elf_bytes ← unwrap read;
  vk_bytes32 ← unwrap (vk_bytes32 elf_bytes);
  hex ← unwrap (strip_0x vk_bytes32);
  decimal_pi0 ← unwrap (pretty <$> u256_from_hex hex);
  Ok (json_string decimal_pi0).

Lemma hex_value_digit d : 0 ≤ d < 16 → hex_value (hex_digit d) = Some d.
Proof.
  intros Hd. assert (Forall (λ d, hex_value (hex_digit d) = Some d) (seqZ 0 16)) as Hall
    by (apply (bool_decide_unpack _); by vm_compute).
  rewrite Forall_elem in Hall. apply Hall, elem_of_seqZ. lia.
Qed.
Lemma hex_digits_value bytes acc : foldl (λ acc c, v ← acc; d ← hex_value c; Some (16 * v + d)) (Some acc)
    (String.list_ascii_of_string (hex_encode bytes)) = Some (acc * 256 ^ Z.of_nat (length bytes) + be_val bytes).
Proof.
  revert acc. induction bytes as [|b bytes IH]; intros acc; simpl; [unfold be_val; simpl; f_equal; lia|].
  pose proof (byte_Z_range b) as Hb.
  assert (0 ≤ byte_Z b `div` 16 < 16) as Hhi by (split; [apply Z.div_pos; lia|apply Z.div_lt_upper_bound; lia]).
  rewrite (hex_value_digit _ Hhi). cbn [mbind option_bind].
  rewrite hex_value_digit by by apply Z.mod_pos_bound. cbn [mbind option_bind].
  assert (16 * (16 * acc + byte_Z b `div` 16) + byte_Z b `mod` 16 = 256 * acc + byte_Z b) as ->
    by (pose proof (Z.div_mod (byte_Z b) 16); lia).
  unfold hex_encode in IH. rewrite IH. f_equal. unfold be_val. rewrite reverse_cons, le_val_app, length_reverse.
  change (le_val [b]) with (byte_Z b + 256 * 0). rewrite Nat2Z.inj_succ, Z.pow_succ_r by lia. lia.
Qed.

(** The two files name one number, the hash of the key. *)
Lemma key_files_agree elf (h : B256) : read = Some elf → vk_bytes32 elf = Some (hex_0x (fb_bytes h)) →
  write_vk true = Ok (Some (json_string (hex_0x (fb_bytes h)))) ∧ extract_pi0 = Ok (json_string (pretty (be_val (fb_bytes h)))).
Proof.
  intros Hr Hv. unfold write_vk, extract_pi0. rewrite Hr. change (unwrap (Some elf)) with (Ok (E:=string) elf).
  rewrite !Ok_bind, Hv. split; [done|]. change (unwrap (Some ?x)) with (Ok (E:=string) x). rewrite Ok_bind.
  change (strip_0x (hex_0x (fb_bytes h))) with (Some (hex_encode (fb_bytes h))).
  change (unwrap (Some ?x)) with (Ok (E:=string) x). rewrite Ok_bind.
  unfold u256_from_hex. rewrite hex_digits_value. cbn [mbind option_bind].
  pose proof (be_val_bound (fb_bytes h)) as Hb. rewrite length_fb, pow256_32 in Hb. change (2 ^ Z.of_nat 256) with (2 ^ 256) in Hb.
  rewrite Z.mul_0_l, Z.add_0_l, decide_True by lia. done.
Qed.
End Keys.
