(* ===== verification/TestUtils.v ===== *)
(** * nori/tests/test_utils.rs: hexadecimal text

    A string is its UTF-8 bytes.  Reading inverts writing, for a 32-byte array
    and for a [u64]; text that is too long or too short is refused, with a panic
    for the array and an error for the integer. *)
From Stdlib Require Import Ascii.
From S2P Require Import Prelude Externals StorageLayout Types Merkle Instances MerkleTests Keccak VectorTests LeafTests KeyFiles.

(** [write!(&mut output, "{:02x}", byte)] *)
Definition bytes_to_hex (vec : list byte) : string :=
  foldl (λ output b, output +:+ String (hex_digit (byte_Z b `div` 16)) (String (hex_digit (byte_Z b `mod` 16)) EmptyString))%string
    EmptyString vec.

(** [c as char] in a message: two bytes of UTF-8 from 128 on. *)
Definition latin1 (c : u8) : string :=
  if decide (c < 128) then String (ascii_of_N (Z.to_N c)) EmptyString
  else String (ascii_of_N (Z.to_N (192 + c `div` 64))) (String (ascii_of_N (Z.to_N (128 + c `mod` 64))) EmptyString).

Definition hex_char_to_nibble (c : u8) : res string u8 :=
  if decide (48 ≤ c ≤ 57) then Ok (usub c (to_uint 8 48))
  else if decide (97 ≤ c ≤ 102) then Ok (uadd (usub c (to_uint 8 97)) (to_uint 8 10))
  else if decide (65 ≤ c ≤ 70) then Ok (uadd (usub c (to_uint 8 65)) (to_uint 8 10))
  else Err ("Invalid hex character: " +:+ latin1 c)%string.

(** [str::as_bytes] *)
Definition as_bytes (s : string) : list u8 := (λ c, to_uint 8 (Z.of_N (N_of_ascii c))) <$> String.list_ascii_of_string s.
(** [.unwrap()] *)
Definition or_panic {E E' A} (m : res E A) : res E' A := match m with Ok a => Ok a | _ => Panic end.

Definition hex_to_fixed_bytes {E} (hex_str : string) : res E (list byte) :=
  let hex_str := default hex_str (strip_0x hex_str) in
  if decide (String.length hex_str ≠ 64%nat) then Panic
  else
    let bytes := as_bytes hex_str in
    try_fold (λ array i,
      let offset := (i * 2)%nat in
      c ← index bytes offset;
      high ← or_panic (hex_char_to_nibble c);
      c ← index bytes (offset + 1);
      low ← or_panic (hex_char_to_nibble c);
      vec_set (E:=E) array i (byte_of_Z (Z.lor (Z.shiftl (uint_Z high) 4 `mod` 256) (uint_Z low)))) (replicate 32 x00) (seq 0 32).

(** [hex_str.chars()], each [as u8]: the low byte of its code point.  A character
    of more than one byte has six bits in each byte but the first. *)
Definition low_byte (c d : u8) : u8 := to_uint 8 (Z.lor (Z.shiftl (Z.land c 63) 6) (Z.land d 63)).
Fixpoint chars_as_u8 (bytes : list u8) : list u8 :=
  match bytes with
  | [] => []
  | b :: rest =>
    if decide (b < 128) then b :: chars_as_u8 rest
    else match rest with
      | [] => []
      | c :: rest =>
        if decide (b < 224) then low_byte b c :: chars_as_u8 rest
        else match rest with
          | [] => []
          | d :: rest =>
            if decide (b < 240) then low_byte c d :: chars_as_u8 rest
            else match rest with [] => [] | e :: rest => low_byte d e :: chars_as_u8 rest end
          end
      end
  end.

Definition hex_to_u64 (hex_str : string) : res string u64 :=
  let hex_str := default hex_str (strip_0x hex_str) in
  if decide (String.length hex_str ≠ 16%nat) then
    Err ("Invalid hex length for u64 conversion. Expected 16 characters but got " +:+ pretty.pretty (String.length hex_str))%string
  else
    try_fold (λ result '(i, c),
      nibble ← hex_char_to_nibble c;
      Ok (to_uint 64 (Z.lor (uint_Z result) (Z.shiftl (uint_Z nibble) ((15 - Z.of_nat i) * 4))))) (to_uint 64 0)
      (enumerate (chars_as_u8 (as_bytes hex_str))).

(** ** Writing, then reading *)

Lemma string_app_nil (s : string) : (s +:+ EmptyString)%string = s.
Proof. induction s as [|c s IH]; [done|]. exact (f_equal (String c) IH). Qed.
Lemma string_app_assoc (s t u : string) : (s +:+ (t +:+ u))%string = ((s +:+ t) +:+ u)%string.
Proof. induction s as [|c s IH]; [done|]. exact (f_equal (String c) IH). Qed.
Lemma bytes_to_hex_encode bytes : bytes_to_hex bytes = hex_encode bytes.
Proof.
  unfold bytes_to_hex. assert (∀ acc, foldl (λ output b, output +:+ String (hex_digit (byte_Z b `div` 16))
    (String (hex_digit (byte_Z b `mod` 16)) EmptyString))%string acc bytes = (acc +:+ hex_encode bytes)%string) as Ha; [|apply Ha].
  induction bytes as [|b bytes IH]; intros acc; simpl; [symmetry; apply string_app_nil|].
  rewrite IH. unfold hex_encode. simpl. by rewrite <-string_app_assoc.
Qed.

(** The digits of a byte are read as its two nibbles. *)
Definition digit (d : Z) : u8 := to_uint 8 (Z.of_N (N_of_ascii (hex_digit d))).
Lemma hex_digit_nibble d : 0 ≤ d < 16 → hex_char_to_nibble (digit d) = Ok (to_uint 8 d) ∧ digit d < 128.
Proof.
  intros Hd. assert (Forall (λ d, hex_char_to_nibble (digit d) = Ok (to_uint 8 d) ∧ digit d < 128) (seqZ 0 16)) as Hall
    by (apply (bool_decide_unpack _); by vm_compute).
  rewrite Forall_elem in Hall. apply Hall, elem_of_seqZ. lia.
Qed.
Lemma as_bytes_hex bytes : as_bytes (hex_encode bytes) = mjoin ((λ b, [digit (byte_Z b `div` 16); digit (byte_Z b `mod` 16)]) <$> bytes).
Proof. induction bytes as [|b bytes IH]; [done|]. exact (f_equal (λ l, _ :: _ :: l) IH). Qed.
Lemma length_hex_encode bytes : String.length (hex_encode bytes) = (2 * length bytes)%nat.
Proof. induction bytes as [|b bytes IH]; [done|]. unfold hex_encode in *. simpl in *. rewrite IH. lia. Qed.

(** Or-ing bits below those of a number adds them. *)
Lemma lor_high_low q n k : 0 ≤ n < 2 ^ k → 0 ≤ k → Z.lor (q * 2 ^ k) n = q * 2 ^ k + n.
Proof.
  intros Hn Hk. rewrite <-Z.add_lor_land. assert (Z.land (q * 2 ^ k) n = 0) as ->; [|lia].
  apply Z.bits_inj'. intros i Hi. rewrite Z.land_spec, Z.bits_0. destruct (decide (i < k)).
  - by rewrite Z.mul_pow2_bits_low.
  - rewrite andb_false_iff. right. rewrite <-(Z.mod_small n (2 ^ k)) by done. apply Z.mod_pow2_bits_high. lia.
Qed.
Lemma lor_nibble q d m : 0 ≤ d < 16 → 0 ≤ m → Z.lor (q * 2 ^ (4 + m)) (Z.shiftl d m) = (16 * q + d) * 2 ^ m.
Proof.
  intros Hd Hm. rewrite Z.pow_add_r, Z.mul_assoc by lia. rewrite <-!Z.shiftl_mul_pow2 with (n:=m) by done.
  rewrite <-Z.shiftl_lor. f_equal. rewrite lor_high_low by lia. change (2 ^ 4) with 16. lia.
Qed.

(** ** 32 bytes *)

Lemma digits_lookup (bytes : list byte) i b : bytes !! i = Some b →
  as_bytes (hex_encode bytes) !! (i * 2)%nat = Some (digit (byte_Z b `div` 16)) ∧
  as_bytes (hex_encode bytes) !! (i * 2 + 1)%nat = Some (digit (byte_Z b `mod` 16)).
Proof.
  rewrite as_bytes_hex. revert i. induction bytes as [|a bytes IH]; intros [|i]; simpl; [done..|by intros [= ->]|apply IH].
Qed.
Lemma nibbles_of_byte b : 0 ≤ byte_Z b `div` 16 < 16 ∧ 0 ≤ byte_Z b `mod` 16 < 16.
Proof.
  pose proof (byte_Z_range b). split; [|by apply Z.mod_pos_bound].
  split; [apply Z.div_pos; lia|apply Z.div_lt_upper_bound; lia].
Qed.
Lemma byte_of_nibbles b : byte_of_Z (Z.lor (Z.shiftl (uint_Z (to_uint 8 (byte_Z b `div` 16))) 4 `mod` 256)
  (uint_Z (to_uint 8 (byte_Z b `mod` 16)))) = b.
Proof.
  destruct (nibbles_of_byte b) as [Hh Hl]. rewrite !to_uint_small by (change (2 ^ Z.of_nat 8) with 256; lia).
  rewrite Z.shiftl_mul_pow2 by lia. rewrite (Z.mod_small _ 256) by (change (2 ^ 4) with 16; lia).
  rewrite lor_high_low by (change (2 ^ 4) with 16; lia). rewrite <-(byte_of_Z_Z b) at 3. f_equal.
  change (2 ^ 4) with 16. pose proof (Z.div_mod (byte_Z b) 16). lia.
Qed.
Lemma strip_0x_hex bytes : default (hex_0x bytes) (strip_0x (hex_0x bytes)) = hex_encode bytes.
Proof. done. Qed.

(** The array is read back, with or without the prefix. *)
Lemma hex_to_fixed_bytes_inv {E} (h : B256) (s : string) : default s (strip_0x s) = hex_encode (fb_bytes h) →
  hex_to_fixed_bytes (E:=E) s = Ok (fb_bytes h).
Proof.
  intros Hs. unfold hex_to_fixed_bytes. rewrite Hs, length_hex_encode, length_fb, decide_False by lia.
  set (bytes := fb_bytes h). assert (length bytes = 32%nat) as Hl by apply length_fb. clearbody bytes. clear Hs.
  edestruct (try_fold_seq (E:=E) (λ k array, array = take k bytes ++ replicate (32 - k) x00)) as (array & Hf & ->);
    [|intros k array Hk ->|etrans; [exact Hf|]].
  - done.
  - destruct (lookup_lt_is_Some_2 bytes k) as [b Hb]; [lia|]. destruct (digits_lookup _ _ _ Hb) as [Hh Hlow].
    destruct (nibbles_of_byte b) as [Rh Rl].
    rewrite (proj2 (index_Ok _ _ _) Hh), Ok_bind, (proj1 (hex_digit_nibble _ Rh)). change (or_panic (Ok ?x)) with (Ok (E:=E) x).
    rewrite Ok_bind, (proj2 (index_Ok _ _ _) Hlow), Ok_bind, (proj1 (hex_digit_nibble _ Rl)).
    change (or_panic (Ok ?x)) with (Ok (E:=E) x). rewrite Ok_bind, byte_of_nibbles.
    rewrite vec_set_in by (rewrite length_app, length_take, length_replicate; lia).
    eexists. split; [done|]. rewrite insert_app_r_alt by (rewrite length_take; lia).
    rewrite length_take. replace (k - k `min` length bytes)%nat with 0%nat by lia.
    replace (32 - k)%nat with (S (32 - (k + 1))) by lia. simpl. rewrite Nat.add_1_r, (take_S_r _ _ _ Hb), <-app_assoc. done.
  - f_equal. rewrite Nat.sub_diag, app_nil_r. apply take_ge. lia.
Qed.

(** ** A [u64] *)

Lemma chars_ascii (bytes : list u8) : Forall (λ b, uint_Z b < 128) bytes → chars_as_u8 bytes = bytes.
Proof. induction 1 as [|b bytes Hb _ IH]; [done|]. simpl. rewrite decide_True by done. by rewrite IH. Qed.

(** The nibbles of bytes, and their value. *)
Definition nibbles (bytes : list byte) : list Z := mjoin ((λ b, [byte_Z b `div` 16; byte_Z b `mod` 16]) <$> bytes).
Lemma nibbles_range bytes : Forall (λ d, 0 ≤ d < 16) (nibbles bytes).
Proof.
  induction bytes as [|b bytes IH]; [constructor|]. destruct (nibbles_of_byte b). change (nibbles (b :: bytes)) with
    (byte_Z b `div` 16 :: byte_Z b `mod` 16 :: nibbles bytes). constructor; [done|]. by constructor.
Qed.
Lemma as_bytes_nibbles bytes : as_bytes (hex_encode bytes) = digit <$> nibbles bytes.
Proof. rewrite as_bytes_hex. induction bytes as [|b bytes IH]; [done|]. exact (f_equal (λ l, _ :: _ :: l) IH). Qed.
Lemma nibbles_value bytes acc : foldl (λ v d, 16 * v + d) acc (nibbles bytes) = acc * 256 ^ Z.of_nat (length bytes) + be_val bytes.
Proof.
  revert acc. induction bytes as [|b bytes IH]; intros acc; [unfold be_val; simpl; lia|].
  change (foldl (λ v d, 16 * v + d) acc (nibbles (b :: bytes))) with
    (foldl (λ v d, 16 * v + d) (16 * (16 * acc + byte_Z b `div` 16) + byte_Z b `mod` 16) (nibbles bytes)).
  rewrite IH. unfold be_val. rewrite reverse_cons, le_val_app, length_reverse. change (le_val [b]) with (byte_Z b + 256 * 0).
  simpl length. rewrite Nat2Z.inj_succ, Z.pow_succ_r by lia. pose proof (Z.div_mod (byte_Z b) 16) as Hd.
  rewrite Hd at 3 by lia. lia.
Qed.

(** The loop puts each nibble below the ones before it. *)
Lemma nibble_loop (ds : list Z) k a : Forall (λ d, 0 ≤ d < 16) ds → (k + length ds ≤ 16)%nat → 0 ≤ a < 16 ^ Z.of_nat k →
  try_fold (λ result '(i, c), nibble ← hex_char_to_nibble c;
      Ok (to_uint 64 (Z.lor (uint_Z result) (Z.shiftl (uint_Z nibble) ((15 - Z.of_nat i) * 4)))))
    (to_uint 64 (a * 2 ^ (4 * (16 - Z.of_nat k)))) (imap (λ j c, (k + j, c)%nat) (digit <$> ds))
  = Ok (to_uint 64 (foldl (λ v d, 16 * v + d) a ds * 2 ^ (4 * (16 - Z.of_nat (k + length ds))))).
Proof.
  intros Hds. revert k a. induction Hds as [|d ds Hd _ IH]; intros k a Hk Ha; [by rewrite Nat.add_0_r|].
  simpl in Hk. rewrite fmap_cons, imap_cons. cbn [try_fold]. rewrite Nat.add_0_r.
  rewrite (proj1 (hex_digit_nibble d Hd)), !Ok_bind.
  assert (a * 2 ^ (4 * (16 - Z.of_nat k)) < 2 ^ 64) as Hlt.
  { apply Z.lt_le_trans with (16 ^ Z.of_nat k * 2 ^ (4 * (16 - Z.of_nat k))).
    - apply Z.mul_lt_mono_pos_r; [apply Z.pow_pos_nonneg; lia|lia].
    - change 16 with (2 ^ 4). rewrite <-Z.pow_mul_r, <-Z.pow_add_r by lia. apply Z.pow_le_mono_r; lia. }
  rewrite !to_uint_small; [|change (2 ^ Z.of_nat 8) with 256; lia|change (Z.of_nat 64) with 64; split; [|done]; apply Z.mul_nonneg_nonneg; [lia|apply Z.pow_nonneg; lia]].
  replace (4 * (16 - Z.of_nat k)) with (4 + (15 - Z.of_nat k) * 4) by lia. rewrite lor_nibble by lia.
  replace ((15 - Z.of_nat k) * 4) with (4 * (16 - Z.of_nat (S k))) by lia.
  cbn [length foldl]. rewrite <-Nat.add_succ_comm. etrans; [|apply (IH (S k) (16 * a + d))].
  - f_equal. apply imap_ext. intros. simpl. f_equal. lia.
  - lia.
  - rewrite Nat2Z.inj_succ, Z.pow_succ_r by lia. lia.
Qed.

Lemma hex_to_u64_inv (v : u64) (s : string) : default s (strip_0x s) = hex_encode (be_bytes 8 v) → hex_to_u64 s = Ok v.
Proof.
  intros Hs. unfold hex_to_u64. rewrite Hs, length_hex_encode, length_be_bytes, decide_False by lia.
  rewrite as_bytes_nibbles, chars_ascii.
  2: { apply Forall_fmap. eapply list.Forall_impl; [apply nibbles_range|]. intros d Hd. apply (hex_digit_nibble d Hd). }
  assert (length (nibbles (be_bytes 8 v)) = 16%nat) as Hl.
  { unfold be_bytes. generalize (le_bytes 8 v), (length_le_bytes 8 v). intros l Hl.
    rewrite <-length_reverse in Hl. generalize dependent (reverse l). clear l. intros l Hl. do 9 (destruct l as [|? l]; try done). }
  pose proof (nibbles_range (be_bytes 8 v)) as Hr. pose proof (nibbles_value (be_bytes 8 v) 0) as Hv'.
  generalize dependent (nibbles (be_bytes 8 v)). intros ds Hl Hr Hv'.
  pose proof (nibble_loop ds 0 0 Hr) as Hn. rewrite Hl in Hn. specialize (Hn ltac:(lia)).
  assert (0 ≤ 0 < 16 ^ Z.of_nat 0) as H0 by (simpl; lia). specialize (Hn H0).
  rewrite Z.mul_0_l in Hn. etrans; [exact Hn|]. rewrite Hv'. f_equal. apply uint_eq. change (4 * (16 - Z.of_nat 16)) with 0.
  rewrite Z.mul_1_r, Z.mul_0_l, Z.add_0_l, be_val_be_bytes. pose proof (uint_range v) as Hv.
  rewrite Z.mod_small by (change (256 ^ Z.of_nat 8) with (2 ^ Z.of_nat 64); lia). by apply to_uint_small.
Qed.

(** Text of the wrong length. *)
Lemma hex_lengths {E} (s : string) :
  (String.length (default s (strip_0x s)) ≠ 64%nat → hex_to_fixed_bytes (E:=E) s = Panic) ∧
  (String.length (default s (strip_0x s)) ≠ 16%nat → ∃ e, hex_to_u64 s = Err e).
Proof. unfold hex_to_fixed_bytes, hex_to_u64. split; intros Hl; rewrite decide_True by done; [done|by eexists]. Qed.

(** A character counts with its low byte alone: 14 digits and a dotted capital I
    (two bytes, U+0130) are read as if the last one were a zero, and as 15 digits. *)
Example dotted_i_is_a_digit : hex_to_u64 ("00000000000001" +:+ String (ascii_of_N 196) (String (ascii_of_N 176) EmptyString)) = Ok (to_uint 64 256).
Proof. vm_compute. reflexivity. Qed.
