(* ===== verification/LeafVectors.v ===== *)
(** * nori-hash/tests/request_leaf_byte_routing.rs: the vector file

    The test renders its cases, with their leaves, to
    test-vectors/proof-request-queue/request-leaf-vectors.json, which the Mina
    circuit must reproduce.  Every case is rendered, the text of a vector can be
    read back as its case, and the requests written by hand are those of the
    checked-in file. *)
From stdpp Require Import pretty.
From Stdlib Require Import Ascii.
From S2P Require Import Prelude Externals StorageLayout Types Merkle Instances MerkleSpec RequestLeaf MerkleTests LeafTests Keccak VectorTests KeyFiles TestUtils.

(** The name of the input that a byte belongs to; [None] is [unreachable!]. *)
Definition field_at (byte_index : nat) : option string :=
  if decide (byte_index ≤ 19)%nat then Some "target"%string
  else if decide (byte_index = 20)%nat then Some "count"%string
  else if decide (byte_index ≤ 52)%nat then Some "key_0"%string
  else if decide (byte_index ≤ 84)%nat then Some "key_1"%string
  else if decide (byte_index ≤ 116)%nat then Some "value"%string
  else None.

(** [format!("{:03}", n)] *)
Definition pad3 (n : nat) : string :=
  let digits := pretty n in
  (String.string_of_list_ascii (replicate (3 - String.length digits) (ascii_of_N 48)) +:+ digits)%string.
(** The name of a single-byte case: [format!("byte_{:03}_{}", ..)]. *)
Definition single_byte_name (byte_index : nat) : option string :=
  (λ field, "byte_" +:+ pad3 byte_index +:+ "_" +:+ field)%string <$> field_at byte_index.

(** The cases written by hand. *)
Definition written_cases : list (string * Case) :=
  let z32 := fb_zero 32 in
  [("all_zero"%string, zero_case);
   ("one_key"%string, one_key_case x11 1 7);
   ("one_key_foreign_target"%string, one_key_case xff 1 7);
   ("two_keys_second_zero"%string, one_key_case x11 2 7);
   ("two_keys"%string, MkCase (repeat_byte 20 x11) (to_uint 8 2) (repeat_byte 32 x22) (repeat_byte 32 x33) (to_uint 256 1000000));
   ("leading_bytes_only"%string, two_keys_case (leading_byte xaa) (leading_byte xbb) (u256_from_be (leading_byte xcc)));
   ("max_bytes"%string, max_case);
   ("bridge_deposit"%string, MkCase (fb_of_Z 20 0x00000000219ab540356cbb839cbe05303d7705fa) (to_uint 8 1)
     (fb_of_Z 32 0x1b848805a3db129b6b41adca52c9b6f380d58dc9c283f73ce17466a01b90d361) z32 (to_uint 256 1000000))].

(** A vector of the file. *)
Record LeafVector := MkLeafVector {
  lv_name : string;
  lv_target : string;
  lv_collection_keys_count : u8;
  lv_collection_keys : string * string;
  lv_value : string;
  lv_leaf : string
}.

Section Vectors.
  Context `{PoseidonSponge}.
  (** [FieldHelpers::to_biguint] *)
  Context (to_biguint : Fp → Z).

(** [single_byte_cases], with the names that [Case] leaves out, follow. *)
Definition all_cases : res anyhow (list (string * Case)) :=
  single ← try_map (λ byte_index,
    c ← single_byte_case byte_index;
    name ← unwrap (single_byte_name byte_index);
    Ok (name, c)) (seq 0 117);
  Ok (written_cases ++ single).

Definition render_vector (named : string * Case) : res anyhow LeafVector :=
  let '(name, case) := named in
  leaf ← or_panic (hash_request_leaf (case_target case) (case_collection_keys_count case)
    (case_collection_key_0 case) (case_collection_key_1 case) (case_value case));
  Ok (MkLeafVector name (hex_0x (fb_bytes (case_target case))) (case_collection_keys_count case)
    (hex_0x (fb_bytes (case_collection_key_0 case)), hex_0x (fb_bytes (case_collection_key_1 case)))
    (hex_0x (fb_bytes (b256_from_u256 (case_value case)))) (pretty (to_biguint leaf))).
Definition render_vectors (cases : list (string * Case)) : res anyhow (list LeafVector) := try_map render_vector cases.

(** The vectors that the test writes. *)
Definition every_byte_routes_to_the_correct_field : res anyhow (list LeafVector) :=
  cases ← all_cases; render_vectors cases.

(** ** What the file holds *)

Context `{!PastaFieldLaws}.

(** The vector of a case; the leaf is that of its packed fields. *)
Definition vector_of (named : string * Case) (v : LeafVector) : Prop :=
  ∃ fields, pack_case (snd named) = Ok fields ∧ render_vector named = Ok v ∧ lv_name v = fst named ∧
    lv_leaf v = pretty (to_biguint (poseidon_hash fields)) ∧
    lv_collection_keys_count v = case_collection_keys_count (snd named) ∧
    hex_to_fixed_bytes (E:=anyhow) (fst (lv_collection_keys v)) = Ok (fb_bytes (case_collection_key_0 (snd named))) ∧
    hex_to_fixed_bytes (E:=anyhow) (snd (lv_collection_keys v)) = Ok (fb_bytes (case_collection_key_1 (snd named))) ∧
    hex_to_fixed_bytes (E:=anyhow) (lv_value v) = Ok (fb_bytes (b256_from_u256 (case_value (snd named)))).
Lemma render_vector_Ok named : ∃ v, render_vector named = Ok v ∧ vector_of named v.
Proof.
  destruct named as [name c]. unfold vector_of. destruct (hash_request_leaf_Ok (case_target c) (case_collection_keys_count c)
    (case_collection_key_0 c) (case_collection_key_1 c) (case_value c)) as (fields & Hp & _ & Hl).
  unfold render_vector. rewrite Hl. change (or_panic (Ok ?x)) with (Ok (E:=anyhow) x). rewrite Ok_bind.
  eexists. split; [done|]. exists fields. split_and!; [done|done|done|done|done|..].
  all: by apply hex_to_fixed_bytes_inv.
Qed.

Lemma single_byte_named : Forall (λ i, ∃ c name, single_byte_case i = Ok c ∧ single_byte_name i = Some name) (seq 0 117).
Proof.
  destruct single_byte_cases_pass as (cases & Hc & _). unfold single_byte_cases in Hc. apply try_map_Ok in Hc.
  assert (Forall (λ i, is_Some (single_byte_name i)) (seq 0 117)) as Hn by (apply (bool_decide_unpack _); by vm_compute).
  rewrite Forall_elem in *. intros i Hi. destruct (Hn i Hi) as [name Hname].
  destruct (list_elem_of_lookup_1 _ _ Hi) as [k Hk]. destruct (Forall2_lookup_l _ _ _ _ _ Hc Hk) as (c & _ & Hcase).
  by exists c, name.
Qed.
Lemma names_distinct : NoDup (written_cases.*1 ++ omap single_byte_name (seq 0 117)).
Proof. apply (bool_decide_unpack _). by vm_compute. Qed.

(** The test writes a vector for each of its 125 cases, under distinct names,
    and a case can be read back from its vector. *)
Lemma leaf_vectors_rendered : ∃ cases vectors, all_cases = Ok cases ∧
  every_byte_routes_to_the_correct_field = Ok vectors ∧ length vectors = 125%nat ∧ NoDup (cases.*1) ∧
  Forall2 vector_of cases vectors.
Proof.
  destruct (try_map_steps (λ byte_index, c ← single_byte_case byte_index;
    name ← unwrap (single_byte_name byte_index); Ok (name, c)) (λ i x, single_byte_name i = Some (fst x)) (seq 0 117)) as (single & Hs & Hnames).
  { intros i Hi. pose proof single_byte_named as Hall. rewrite Forall_elem in Hall. destruct (Hall i Hi) as (c & name & Hc & Hn).
    rewrite Hc, Ok_bind, Hn. by exists (name, c). }
  unfold every_byte_routes_to_the_correct_field, all_cases. rewrite Hs, !Ok_bind. exists (written_cases ++ single).
  destruct (try_map_steps render_vector vector_of (written_cases ++ single)) as (vectors & Hv & Hall).
  { intros named _. apply render_vector_Ok. }
  exists vectors. split_and!; [done|done| | |done].
  - rewrite <-(list.Forall2_length _ _ _ Hall), length_app, <-(list.Forall2_length _ _ _ Hnames), length_seq. done.
  - rewrite fmap_app. eapply eq_ind; [exact names_distinct|]. f_equal. clear -Hnames.
    induction Hnames as [|i x is_ xs Hix _ IH]; [done|]. simpl. rewrite Hix. by f_equal.
Qed.

(** Two vectors with one leaf are of one request, unless the sponge collides (or
    its decimal text does). *)
Lemma leaves_distinguish a b va vb : Inj (=) (=) to_biguint → vector_of a va → vector_of b vb → lv_leaf va = lv_leaf vb →
  snd a = snd b ∨ cases_collide (snd a) (snd b).
Proof.
  intros Hinj (fa & Pa & _ & _ & La & _) (fb & Pb & _ & _ & Lb & _) Heq. rewrite La, Lb in Heq.
  apply (inj pretty), (inj to_biguint) in Heq.
  destruct (decide (fa = fb)) as [->|Hne]; [left|right; by exists fa, fb].
  destruct (snd a), (snd b). unfold pack_case in *. cbn in Pa, Pb.
  pose proof (pack_fields_inj _ _ _ _ _ _ _ _ _ _ _ Pa Pb). congruence.
Qed.
End Vectors.

(** The first vectors of test-vectors/proof-request-queue/request-leaf-vectors.json, without the leaves. *)
Definition leaf_vectors_file : list (string * string * Z * (string * string) * string) :=
  [("all_zero", "0x0000000000000000000000000000000000000000", 0,
    ("0x0000000000000000000000000000000000000000000000000000000000000000",
     "0x0000000000000000000000000000000000000000000000000000000000000000"),
    "0x0000000000000000000000000000000000000000000000000000000000000000");
   ("one_key", "0x1111111111111111111111111111111111111111", 1,
    ("0x2222222222222222222222222222222222222222222222222222222222222222",
     "0x0000000000000000000000000000000000000000000000000000000000000000"),
    "0x0000000000000000000000000000000000000000000000000000000000000007");
   ("one_key_foreign_target", "0xffffffffffffffffffffffffffffffffffffffff", 1,
    ("0x2222222222222222222222222222222222222222222222222222222222222222",
     "0x0000000000000000000000000000000000000000000000000000000000000000"),
    "0x0000000000000000000000000000000000000000000000000000000000000007");
   ("two_keys_second_zero", "0x1111111111111111111111111111111111111111", 2,
    ("0x2222222222222222222222222222222222222222222222222222222222222222",
     "0x0000000000000000000000000000000000000000000000000000000000000000"),
    "0x0000000000000000000000000000000000000000000000000000000000000007");
   ("two_keys", "0x1111111111111111111111111111111111111111", 2,
    ("0x2222222222222222222222222222222222222222222222222222222222222222",
     "0x3333333333333333333333333333333333333333333333333333333333333333"),
    "0x00000000000000000000000000000000000000000000000000000000000f4240");
   ("leading_bytes_only", "0x0000000000000000000000000000000000000000", 2,
    ("0xaa00000000000000000000000000000000000000000000000000000000000000",
     "0xbb00000000000000000000000000000000000000000000000000000000000000"),
    "0xcc00000000000000000000000000000000000000000000000000000000000000");
   ("max_bytes", "0xffffffffffffffffffffffffffffffffffffffff", 255,
    ("0xffffffffffffffffffffffffffffffffffffffffffffffffffffffffffffffff",
     "0xffffffffffffffffffffffffffffffffffffffffffffffffffffffffffffffff"),
    "0xffffffffffffffffffffffffffffffffffffffffffffffffffffffffffffffff");
   ("bridge_deposit", "0x00000000219ab540356cbb839cbe05303d7705fa", 1,
    ("0x1b848805a3db129b6b41adca52c9b6f380d58dc9c283f73ce17466a01b90d361",
     "0x0000000000000000000000000000000000000000000000000000000000000000"),
    "0x00000000000000000000000000000000000000000000000000000000000f4240")]%string.
Definition vector_inputs (named : string * Case) : string * string * Z * (string * string) * string :=
  let '(name, c) := named in
  (name, hex_0x (fb_bytes (case_target c)), uint_Z (case_collection_keys_count c),
   (hex_0x (fb_bytes (case_collection_key_0 c)), hex_0x (fb_bytes (case_collection_key_1 c))),
   hex_0x (fb_bytes (b256_from_u256 (case_value c)))).
Lemma written_cases_checked_in : vector_inputs <$> written_cases = leaf_vectors_file.
Proof. vm_compute. reflexivity. Qed.
