(* ===== verification/Mpt.v ===== *)
(** * nori-program/src/mpt.rs: verification of the proof request queue

    [verify_queue] checks, against one execution state root, the queue account,
    its head, every queued entry and each entry's target slot, and returns the
    new cursor with the Merkle root of the verified requests. *)
From stdpp Require Import pretty.
From S2P Require Import Prelude Externals StorageLayout Types Merkle RequestLeaf.

Inductive ProvenAccount := ProofRequestQueue | Target.

Inductive MptError :=
| InvalidProofRequestQueueAccountProof (address : Address) (reason : string)
| InvalidTargetAccountProof (address : Address) (reason : string)
| InvalidStorageSlotProof (slot_key : B256) (reason : string)
| LeafHashError (target : Address) (slot_key : B256) (value : U256) (reason : string)
| ExceedsMaxTreeDepth (slots requested_depth max_depth : nat)
| CursorAheadOfHead (cursor head : u64)
| BatchSizeMismatch (expected : u64) (supplied : nat)
| MissingTargetWitness (target : Address)
| MissingSlotWitness (target : Address) (slot_key : B256).

(** [impl Display for MptError] *)
Definition mpt_error_fmt `{DebugFmt} (e : MptError) : string :=
  match e with
  | InvalidProofRequestQueueAccountProof address reason =>
      "MPT proof request queue account proof failed for " +:+ debug_address address +:+ ": "
      +:+ debug_string reason
  | InvalidTargetAccountProof address reason =>
      "MPT target account proof failed for " +:+ debug_address address +:+ ": " +:+ debug_string reason
  | InvalidStorageSlotProof slot_key reason =>
      "MPT storage proof failed for slot " +:+ debug_b256 slot_key +:+ ": " +:+ debug_string reason
  | LeafHashError target slot_key value reason =>
      "MPT error hashing request leaf for target " +:+ debug_address target +:+ " slot "
      +:+ debug_b256 slot_key +:+ " value " +:+ debug_u256 value +:+ ": " +:+ debug_string reason
  | ExceedsMaxTreeDepth slots requested_depth max_depth =>
      "Merkle tree depth " +:+ pretty requested_depth +:+ " (derived from contract storage slots = "
      +:+ pretty slots +:+ ") exceeds the maximum allowed depth of " +:+ pretty max_depth
  | CursorAheadOfHead cursor head =>
      "Request cursor " +:+ pretty (uint_Z cursor) +:+ " is ahead of the proven queue head "
      +:+ pretty (uint_Z head)
  | BatchSizeMismatch expected supplied =>
      "Queue batch size mismatch: state derives " +:+ pretty (uint_Z expected)
      +:+ " entries, witness supplied " +:+ pretty supplied
  | MissingTargetWitness target => "No account proof supplied for target " +:+ debug_address target
  | MissingSlotWitness target slot_key =>
      "No slot proof supplied for target " +:+ debug_address target +:+ " slot " +:+ debug_b256 slot_key
  end.

Section Mpt.
  Context `{AlloyTrie} `{Keccak} `{PoseidonSponge}.

(** The value a storage proof is checked against: zero is proven by exclusion. *)
Definition expected_storage_value (value : U256) : option (list byte) :=
  if decide (uint_Z value = 0) then None else Some (u256_encode value).

Definition verify_storage_word (storage_root' : B256) (key : B256) (value : U256) (proof : list Bytes)
    : res MptError () :=
  let key_nibbles := nibbles_unpack (keccak256 (fb_bytes key)) in
  let expected_value := expected_storage_value value in
  map_err (λ e, InvalidStorageSlotProof key (pve_to_string e))
    (of_sum (verify_proof storage_root' key_nibbles expected_value proof)).

Definition verify_account (execution_state_root : B256) (proven_account : ProvenAccount)
    (address : Address) (account : option TrieAccount) (proof : list Bytes) : res MptError B256 :=
  let address_nibbles := nibbles_unpack (keccak256 (fb_bytes address)) in
  let expected_value := account_encode <$> account in
  _ ← map_err (λ e, match proven_account with
        | ProofRequestQueue => InvalidProofRequestQueueAccountProof address (pve_to_string e)
        | Target => InvalidTargetAccountProof address (pve_to_string e)
        end) (of_sum (verify_proof execution_state_root address_nibbles expected_value proof));
  Ok (match account with Some account => storage_root account | None => EMPTY_ROOT_HASH end).

(** The five storage words of the entry at [index], with the values the witness claims. *)
Definition entry_words (index : u64) (entry : QueueEntryProof) : list (B256 * U256) :=
  let base := mapping_entry_location (ucast 256 index) QUEUE_REQUESTS_STORAGE_INDEX in
  [(base, word_of_address (qe_target entry));
   (struct_word_slot base (to_uint 8 1), word_of_b256 (qe_slot_key entry));
   (struct_word_slot base (to_uint 8 2), ucast 256 (qe_collection_keys_count entry));
   (struct_word_slot base (to_uint 8 3), word_of_b256 (fst (qe_collection_keys entry)));
   (struct_word_slot base (to_uint 8 4), word_of_b256 (snd (qe_collection_keys entry)))].

Definition verify_entry (queue_storage_root : B256) (input_cursor : u64) (offset : nat)
    (entry : QueueEntryProof) : res MptError () :=
  let index := uadd input_cursor (to_uint 64 (Z.of_nat offset)) in
  try_iter (λ '(word_index, (slot, value)),
    proof ← Prelude.index (vec_to_list (qe_word_proofs entry)) word_index;
    verify_storage_word queue_storage_root slot value proof)
    (enumerate (entry_words index entry)).

(** The two [BTreeMap]s: storage roots by target, slot proofs by target and slot. *)
Definition target_maps : Type := gmap Address B256 * gmap (Address * B256) TargetSlotProof.

Definition verify_target (execution_state_root : B256) (maps : target_maps) (target : TargetStorageProof)
    : res MptError target_maps :=
  let '(target_storage_roots, target_slots) := maps in
  storage_root' ← verify_account execution_state_root Target (ts_target_address target)
    (ts_account target) (ts_account_mpt_proof target);
  let target_storage_roots := <[ts_target_address target := storage_root']> target_storage_roots in
  let target_slots := foldl (λ m slot, <[(ts_target_address target, tsp_key slot) := slot]> m)
    target_slots (ts_slots target) in
  Ok (target_storage_roots, target_slots).

Definition entry_leaf (maps : target_maps) (entry : QueueEntryProof) : res MptError Fp :=
  let '(target_storage_roots, target_slots) := maps in
  storage_root' ← ok_or (target_storage_roots !! qe_target entry) (MissingTargetWitness (qe_target entry));
  slot ← ok_or (target_slots !! (qe_target entry, qe_slot_key entry))
    (MissingSlotWitness (qe_target entry) (qe_slot_key entry));
  _ ← verify_storage_word storage_root' (qe_slot_key entry) (tsp_value slot) (tsp_mpt_proof slot);
  map_err (LeafHashError (qe_target entry) (qe_slot_key entry) (tsp_value slot))
    (hash_request_leaf (qe_target entry) (qe_collection_keys_count entry)
      (fst (qe_collection_keys entry)) (snd (qe_collection_keys entry)) (tsp_value slot)).

(** [core::cmp::min(head - input_cursor, MAX_BATCH as u64)] *)
Definition batch_size (input_cursor head : u64) : u64 :=
  umin (usub head input_cursor) (to_uint 64 MAX_BATCH).

Definition verify_queue (execution_state_root : B256) (queue_storage : QueueStorage)
    : res MptError (u64 * B256) :=
  queue_storage_root ← verify_account execution_state_root ProofRequestQueue
    (proof_request_queue_address queue_storage) (Some (proof_request_queue_account queue_storage))
    (proof_request_queue_account_mpt_proof queue_storage);
  _ ← verify_storage_word queue_storage_root (storage_slot_of_index QUEUE_HEAD_STORAGE_INDEX)
    (ucast 256 (head queue_storage)) (head_mpt_proof queue_storage);
  if decide (head queue_storage < input_cursor queue_storage) then
    Err (CursorAheadOfHead (input_cursor queue_storage) (head queue_storage))
  else
    let batch := batch_size (input_cursor queue_storage) (head queue_storage) in
    if decide (len_u64 (entries queue_storage) ≠ batch) then
      Err (BatchSizeMismatch batch (length (entries queue_storage)))
    else
      _ ← try_iter (λ '(offset, entry), verify_entry queue_storage_root (input_cursor queue_storage) offset entry)
        (enumerate (entries queue_storage));
      maps ← try_fold (verify_target execution_state_root) (∅, ∅) (targets queue_storage);
      merkle_nodes ← try_map (entry_leaf maps) (entries queue_storage);
      let '(depth, padded_size) := compute_merkle_tree_depth_and_size (length merkle_nodes) in
      if decide (MAX_TREE_DEPTH < depth)%nat then
        Err (ExceedsMaxTreeDepth (length merkle_nodes) depth MAX_TREE_DEPTH)
      else
        zeros ← get_merkle_zeros;
        '(root, _) ← fold_merkle_left merkle_nodes padded_size depth zeros;
        root_bytes ← from_slice 32 (fp_to_bytes root);
        Ok (uadd (input_cursor queue_storage) batch, root_bytes).
End Mpt.
