(* ===== verification/MptSpec.v ===== *)
(** * Correctness of the queue verification

    An abstract specification of the proof request queue over the contents of
    the state trie ([drained]), and theorems that an accepted run of
    [verify_queue] is a drain of the real queue, that acceptance is decided by
    the individual checks, and that no run panics. *)
From S2P Require Import Prelude Externals StorageLayout Types Merkle Instances MerkleSpec RequestLeaf Mpt.

(** ** Batch arithmetic *)

Lemma max_batch_u64 : uint_Z (to_uint 64 MAX_BATCH) = MAX_BATCH.
Proof. done. Qed.
Lemma batch_size_Z (cursor head : u64) : cursor ≤ head →
  uint_Z (batch_size cursor head) = Z.min (head - cursor) MAX_BATCH.
Proof. intros. unfold batch_size. by rewrite umin_Z, usub_small, max_batch_u64. Qed.
Lemma cursor_advance (cursor head : u64) : cursor ≤ head →
  uint_Z (uadd cursor (batch_size cursor head)) = cursor + Z.min (head - cursor) MAX_BATCH.
Proof.
  intros Hle. pose proof (uint_range head). pose proof (batch_size_Z _ _ Hle) as Hb.
  rewrite uadd_small; rewrite Hb; lia.
Qed.

Section Checks.
Context `{AlloyTrie} `{Keccak} `{PoseidonSponge}.

(** ** What each check establishes *)

Definition trie_path {n} (key : FixedBytes n) : Nibbles := nibbles_unpack (keccak256 (fb_bytes key)).

Lemma verify_storage_word_Ok root key value proof u : verify_storage_word root key value proof = Ok u ↔
  verify_proof root (trie_path key) (expected_storage_value value) proof = inl ().
Proof.
  destruct u. unfold verify_storage_word. rewrite map_err_Ok. rewrite of_sum_Ok. done.
Qed.
Lemma verify_storage_word_no_panic root key value proof : verify_storage_word root key value proof ≠ Panic.
Proof. unfold verify_storage_word. rewrite map_err_Panic. apply of_sum_no_panic. Qed.

Lemma verify_account_Ok st who addr acct proof r : verify_account st who addr acct proof = Ok r ↔
  verify_proof st (trie_path addr) (account_encode <$> acct) proof = inl () ∧
  r = match acct with Some a => storage_root a | None => EMPTY_ROOT_HASH end.
Proof.
  unfold verify_account. rewrite bind_Ok. setoid_rewrite map_err_Ok. setoid_rewrite of_sum_Ok. split.
  - intros ([] & Hv & [= <-]). done.
  - intros [Hv ->]. by exists ().
Qed.
Lemma verify_account_no_panic st who addr acct proof : verify_account st who addr acct proof ≠ Panic.
Proof.
  unfold verify_account. rewrite bind_Panic, map_err_Panic. intros [Hp|(? & _ & ?)]; [|done].
  by apply of_sum_no_panic in Hp.
Qed.

(** [word_proofs[word_index]] is the proof of the word with that index. *)
Lemma verify_entry_eq qroot cursor offset entry :
  verify_entry qroot cursor offset entry =
  try_iter (λ '((slot, value), proof), verify_storage_word qroot slot value proof)
    (zip (entry_words (uadd cursor (to_uint 64 (Z.of_nat offset))) entry) (qe_word_proofs entry)).
Proof.
  unfold verify_entry. destruct entry as [t k c ks ps]. simpl qe_word_proofs.
  unfold QUEUE_ENTRY_WORDS in ps. inv_vec ps. intros. done.
Qed.
Lemma verify_entry_Ok qroot cursor offset entry u : verify_entry qroot cursor offset entry = Ok u ↔
  Forall (λ '((slot, value), proof),
    verify_proof qroot (trie_path slot) (expected_storage_value value) proof = inl ())
    (zip (entry_words (uadd cursor (to_uint 64 (Z.of_nat offset))) entry) (qe_word_proofs entry)).
Proof.
  rewrite verify_entry_eq, try_iter_Ok. apply Forall_iff. intros [[slot value] proof].
  apply verify_storage_word_Ok.
Qed.
Lemma verify_entry_no_panic qroot cursor offset entry : verify_entry qroot cursor offset entry ≠ Panic.
Proof.
  rewrite verify_entry_eq. apply try_iter_no_panic, Forall_true. intros [[slot value] proof].
  apply verify_storage_word_no_panic.
Qed.

Lemma verify_target_no_panic st maps target : verify_target st maps target ≠ Panic.
Proof.
  unfold verify_target. destruct maps as [roots slots]. rewrite bind_Panic.
  intros [Hp|(? & _ & ?)]; [by apply verify_account_no_panic in Hp|done].
Qed.

(** A target's root in the map was verified for that target, and a slot
    proof is filed under its own key. *)
Definition maps_verified (st : B256) (maps : target_maps) : Prop :=
  (∀ t r, fst maps !! t = Some r → ∃ acct proof, verify_account st Target t acct proof = Ok r) ∧
  (∀ t k s, snd maps !! (t, k) = Some s → tsp_key s = k).

Lemma insert_slots_keys (t : Address) (slots : list TargetSlotProof) (m : gmap (Address * B256) TargetSlotProof) :
  (∀ (t : Address) k s, m !! (t, k) = Some s → tsp_key s = k) →
  ∀ (t' : Address) k s, foldl (λ m slot, <[(t, tsp_key slot) := slot]> m) m slots !! (t', k) = Some s → tsp_key s = k.
Proof.
  revert m. induction slots as [|slot slots IH]; intros m Hm; simpl; [done|].
  apply IH. intros t' k s. rewrite lookup_insert_Some. intros [[[= <- <-] <-]|[_ ?]]; [done|by eapply Hm].
Qed.
Lemma verify_targets_maps st targets maps :
  try_fold (verify_target st) (∅, ∅) targets = Ok maps → maps_verified st maps.
Proof.
  intros Hf. eapply (try_fold_Ok_ind (maps_verified st)); [done| |].
  - split; intros *; simpl; by rewrite lookup_empty.
  - intros [roots slots] target maps' _ [Hr Hs] Ht. unfold verify_target in Ht. res_inv. subst maps'.
    split; simpl in *.
    + intros t r. rewrite lookup_insert_Some. intros [[<- <-]|[_ ?]]; [by do 2 eexists|by eapply Hr].
    + by apply insert_slots_keys.
Qed.

Context `{!PastaFieldLaws}.

Lemma entry_leaf_Ok maps entry leaf : entry_leaf maps entry = Ok leaf ↔
  ∃ root slot, fst maps !! qe_target entry = Some root ∧
    snd maps !! (qe_target entry, qe_slot_key entry) = Some slot ∧
    verify_proof root (trie_path (qe_slot_key entry)) (expected_storage_value (tsp_value slot))
      (tsp_mpt_proof slot) = inl () ∧
    hash_request_leaf (qe_target entry) (qe_collection_keys_count entry)
      (fst (qe_collection_keys entry)) (snd (qe_collection_keys entry)) (tsp_value slot) = Ok leaf.
Proof.
  unfold entry_leaf. destruct maps as [roots slots]. simpl. split.
  - intros Hl. res_inv. rewrite verify_storage_word_Ok in *. by do 2 eexists.
  - intros (root & slot & -> & -> & Hv & Hh). simpl.
    apply (verify_storage_word_Ok _ _ _ _ ()) in Hv. by rewrite Hv, Ok_bind, Hh.
Qed.
End Checks.

(** The field element whose bytes are the requests root. *)
Definition requests_root `{PoseidonSponge} (leaves : list Fp) : Fp :=
  reference_subtree leaves 0 (fst (compute_merkle_tree_depth_and_size (length leaves))).

(** A vector of the source is shorter than the address space. *)
Definition vec_fits {A} (l : list A) : Prop := Z.of_nat (length l) < 2 ^ 63.
Lemma len_u64_fits {A} (l : list A) : vec_fits l → uint_Z (len_u64 l) = Z.of_nat (length l).
Proof. intros Hl. apply to_uint_small. unfold vec_fits in Hl. change (2 ^ Z.of_nat 64) with (2 * 2 ^ 63). lia. Qed.

Section Accept.
Context `{AlloyTrie} `{Keccak} `{PoseidonSponge} `{!PastaFieldLaws} `{!MerkleZerosChain}.

(** Everything [verify_queue] checks before it hashes, and the leaves it collects. *)
Record accepts (st : B256) (qs : QueueStorage) (maps : target_maps) (leaves : list Fp) : Prop := {
  acc_account : verify_proof st (trie_path (proof_request_queue_address qs))
    (Some (account_encode (proof_request_queue_account qs)))
    (proof_request_queue_account_mpt_proof qs) = inl ();
  acc_head : verify_proof (storage_root (proof_request_queue_account qs))
    (trie_path (storage_slot_of_index QUEUE_HEAD_STORAGE_INDEX))
    (expected_storage_value (ucast 256 (head qs))) (head_mpt_proof qs) = inl ();
  acc_cursor : input_cursor qs ≤ head qs;
  acc_length : Z.of_nat (length (entries qs)) = Z.min (head qs - input_cursor qs) MAX_BATCH;
  acc_entries : ∀ i entry, entries qs !! i = Some entry →
    verify_entry (storage_root (proof_request_queue_account qs)) (input_cursor qs) i entry = Ok ();
  acc_targets : try_fold (verify_target st) (∅, ∅) (targets qs) = Ok maps;
  acc_leaves : try_map (entry_leaf maps) (entries qs) = Ok leaves
}.

Lemma fp_to_bytes_slice {E} (x : Fp) : ∃ b : B256, from_slice (E:=E) 32 (fp_to_bytes x) = Ok b ∧
  fb_bytes b = fp_to_bytes x.
Proof.
  rewrite fp_to_bytes_spec. unfold from_slice. destruct (decide _) as [Hl|[]].
  - by eexists.
  - apply length_le_bytes.
Qed.

(** The Merkle part of [verify_queue] on at most [MAX_BATCH] leaves. *)
Lemma merkle_part {A} (leaves : list Fp) (k : B256 → A) : Z.of_nat (length leaves) ≤ MAX_BATCH →
  ∃ r : B256, fb_bytes r = fp_to_bytes (requests_root leaves) ∧
  (let '(depth, padded_size) := compute_merkle_tree_depth_and_size (length leaves) in
    if decide (MAX_TREE_DEPTH < depth)%nat then
      Err (ExceedsMaxTreeDepth (length leaves) depth MAX_TREE_DEPTH)
    else
      zeros ← get_merkle_zeros;
      '(root, _) ← fold_merkle_left leaves padded_size depth zeros;
      root_bytes ← from_slice 32 (fp_to_bytes root);
      Ok (k root_bytes)) = Ok (k r).
Proof.
  intros Hn. unfold requests_root.
  destruct (compute_merkle_tree_depth_and_size (length leaves)) as [depth size] eqn:Hc.
  destruct (max_batch_depth _ _ _ Hn Hc) as (-> & Hl & Hd & H0').
  destruct (fold_root (E:=MptError) leaves depth Hd Hl) as [s Hf]; [intros ->; by apply H0'|].
  destruct (fp_to_bytes_slice (E:=MptError) (node leaves depth 0)) as (r & Hr & Hb).
  exists r. split; [done|]. rewrite decide_False by lia. rewrite merkle_zeros_chain, Ok_bind, Hf, Ok_bind.
  by rewrite Hr.
Qed.

(** The errors a run can end in. *)
Definition possible_error (e : MptError) : Prop :=
  match e with ExceedsMaxTreeDepth _ _ _ | LeafHashError _ _ _ _ => False | _ => True end.

Lemma verify_account_errs st who addr acct proof :
  errs_in possible_error (verify_account st who addr acct proof).
Proof. unfold verify_account. destruct (verify_proof _ _ _ _); [done|]. by destruct who. Qed.
Lemma verify_storage_word_errs root key value proof :
  errs_in possible_error (verify_storage_word root key value proof).
Proof. unfold verify_storage_word. by destruct (verify_proof _ _ _ _). Qed.
Lemma verify_entry_errs qroot cursor i entry : errs_in possible_error (verify_entry qroot cursor i entry).
Proof.
  rewrite verify_entry_eq. apply errs_in_try_iter. intros [[slot value] proof].
  apply verify_storage_word_errs.
Qed.
Lemma verify_target_errs st maps target : errs_in possible_error (verify_target st maps target).
Proof. destruct maps. apply errs_in_bind; [apply verify_account_errs|done]. Qed.
(** Hashing a leaf cannot fail. *)
Lemma entry_leaf_errs maps entry : errs_in possible_error (entry_leaf maps entry).
Proof.
  unfold entry_leaf. destruct maps as [roots slots].
  destruct (roots !! _) as [root|]; [|done]. destruct (slots !! _) as [slot|]; [|done]. simpl.
  destruct (hash_request_leaf_Ok (qe_target entry) (qe_collection_keys_count entry)
    (fst (qe_collection_keys entry)) (snd (qe_collection_keys entry)) (tsp_value slot)) as (fs & _ & _ & ->).
  unfold verify_storage_word. by destruct (verify_proof _ _ _ _).
Qed.

Lemma verify_queue_errs st qs : vec_fits (entries qs) → errs_in possible_error (verify_queue st qs).
Proof.
  intros Hfits. unfold verify_queue. apply errs_in_bind; [apply verify_account_errs|intros qroot _].
  apply errs_in_bind; [apply verify_storage_word_errs|intros [] _].
  case_decide as Hcur; [done|]. case_decide as Hlen; [done|].
  apply errs_in_bind; [apply errs_in_try_iter; intros [i e]; apply verify_entry_errs|intros [] _].
  apply errs_in_bind; [apply errs_in_try_fold; intros; apply verify_target_errs|intros maps _].
  apply errs_in_bind; [apply errs_in_try_map; intros; apply entry_leaf_errs|intros leaves Hl].
  destruct (merkle_part leaves (λ r, (uadd (input_cursor qs) (batch_size (input_cursor qs) (head qs)), r)))
    as (r & _ & ->); [|done].
  rewrite (try_map_length _ _ _ Hl). apply (f_equal uint_Z) in Hlen.
  rewrite len_u64_fits, batch_size_Z in Hlen by (done || lia). lia.
Qed.

Lemma verify_queue_Ok_iff st qs cursor root : vec_fits (entries qs) →
  verify_queue st qs = Ok (cursor, root) ↔
  ∃ maps leaves, accepts st qs maps leaves ∧
    uint_Z cursor = input_cursor qs + Z.of_nat (length (entries qs)) ∧
    fb_bytes root = fp_to_bytes (requests_root leaves).
Proof.
  intros Hfits. unfold verify_queue. split.
  - intros Hv. apply bind_Ok in Hv as (qroot & [Ha ->]%verify_account_Ok & Hv).
    apply bind_Ok in Hv as (u & Hh%verify_storage_word_Ok & Hv).
    case_decide as Hcur; [done|]. case_decide as Hlen; [done|].
    apply bind_Ok in Hv as (u' & He & Hv). rewrite try_iter_Ok in He.
    apply bind_Ok in Hv as (maps & Hm & Hv). apply bind_Ok in Hv as (leaves & Hleaves & Hv).
    apply (f_equal uint_Z) in Hlen.
    rewrite len_u64_fits, batch_size_Z in Hlen by (done || lia).
    pose proof (try_map_length _ _ _ Hleaves) as Hll.
    destruct (merkle_part leaves (λ r, (uadd (input_cursor qs) (batch_size (input_cursor qs) (head qs)), r)))
      as (r & Hr & Hk); [lia|].
    rewrite Hk in Hv. injection Hv as <- <-. exists maps, leaves. split; [split; try done; try lia|split; [|done]].
    + intros i entry Hi. rewrite Forall_elem in He. apply (He (i, entry)), elem_of_enumerate, Hi.
    + rewrite cursor_advance by lia. lia.
  - intros (maps & leaves & [Ha Hh Hcur Hlen He Hm Hleaves] & Hc & Hr).
    rewrite (proj2 (verify_account_Ok st _ _ (Some _) _ _) (conj Ha eq_refl)), Ok_bind.
    apply (verify_storage_word_Ok _ _ _ _ ()) in Hh. rewrite Hh, Ok_bind.
    rewrite decide_False by lia.
    rewrite decide_False by (intros Hne; apply Hne, uint_eq; rewrite len_u64_fits, batch_size_Z by done; done).
    rewrite (proj2 (try_iter_Ok _ _ ())), Ok_bind, Hm, Ok_bind, Hleaves, Ok_bind.
    + pose proof (try_map_length _ _ _ Hleaves) as Hll.
      destruct (merkle_part leaves (λ r, (uadd (input_cursor qs) (batch_size (input_cursor qs) (head qs)), r)))
        as (r & Hr' & Hk); [lia|]. rewrite Hk. f_equal. f_equal; [|by apply fb_eq; rewrite Hr'].
      apply uint_eq. rewrite cursor_advance by lia. lia.
    + apply Forall_elem. intros [i entry] Hi%elem_of_enumerate. by apply He.
Qed.
End Accept.

(** ** The abstract queue: what the state trie holds *)

(** A queued request with the slot key it resolved to. *)
Record QueuedRequest := MkQueued { q_slot_key : B256; q_request : VerifiedRequest }.
#[global] Instance VerifiedRequest_eq_dec : EqDecision VerifiedRequest.
Proof. solve_decision. Defined.
#[global] Instance QueuedRequest_eq_dec : EqDecision QueuedRequest.
Proof. solve_decision. Defined.

Section Abstract.
Context `{TrieContents} `{Keccak} `{PoseidonSponge}.

(** A storage word: zero is the absence of the key. *)
Definition holds (root : B256) (key : B256) (value : U256) : Prop :=
  trie_get root (trie_path key) = expected_storage_value value.

(** The storage root of an account, the empty root for an account that does not exist. *)
Definition account_root (st : B256) (address : Address) (root : B256) : Prop :=
  ∃ acct : option TrieAccount, trie_get st (trie_path address) = account_encode <$> acct ∧
    root = match acct with Some a => storage_root a | None => EMPTY_ROOT_HASH end.

(** The five words of a queue entry. *)
Definition entry_holds (qroot : B256) (index : Z) (q : QueuedRequest) : Prop :=
  let base := mapping_entry_location (to_uint 256 index) QUEUE_REQUESTS_STORAGE_INDEX in
  let word k := struct_word_slot base (to_uint 8 k) in
  holds qroot base (word_of_address (vr_target (q_request q))) ∧
  holds qroot (word 1) (word_of_b256 (q_slot_key q)) ∧
  holds qroot (word 2) (ucast 256 (vr_collection_keys_count (q_request q))) ∧
  holds qroot (word 3) (word_of_b256 (fst (vr_collection_keys (q_request q)))) ∧
  holds qroot (word 4) (word_of_b256 (snd (vr_collection_keys (q_request q)))).

(** The value of a request: the word its target's storage holds at the slot key. *)
Definition value_holds (st : B256) (q : QueuedRequest) : Prop :=
  ∃ root, account_root st (vr_target (q_request q)) root ∧ holds root (q_slot_key q) (vr_value (q_request q)).

(** [reqs] is the batch that follows [cursor] in the queue at [address]. *)
Definition drained (st : B256) (address : Address) (cursor head : u64) (reqs : list QueuedRequest) : Prop :=
  ∃ acct, trie_get st (trie_path address) = Some (account_encode acct) ∧
    holds (storage_root acct) (storage_slot_of_index QUEUE_HEAD_STORAGE_INDEX) (ucast 256 head) ∧
    cursor ≤ head ∧
    Z.of_nat (length reqs) = Z.min (head - cursor) MAX_BATCH ∧
    (∀ i q, reqs !! i = Some q → entry_holds (storage_root acct) (cursor + Z.of_nat i) q) ∧
    Forall (value_holds st) reqs.

Definition request_leaf (q : QueuedRequest) : res anyhow Fp :=
  let r := q_request q in
  hash_request_leaf (vr_target r) (vr_collection_keys_count r) (fst (vr_collection_keys r))
    (snd (vr_collection_keys r)) (vr_value r).

(** ** The trie determines the queue *)
Section Functional.
Context `{!RlpInjective}.

Lemma expected_storage_value_inj : Inj (=) (=) expected_storage_value.
Proof.
  intros a b. unfold expected_storage_value. repeat case_decide; intros Heq; try done.
  - apply uint_eq. congruence.
  - injection Heq as Heq. by apply u256_encode_inj in Heq.
Qed.
Lemma holds_fun root key v1 v2 : holds root key v1 → holds root key v2 → v1 = v2.
Proof. unfold holds. intros H1' H2'. apply expected_storage_value_inj. congruence. Qed.
Lemma account_root_fun st addr r1 r2 : account_root st addr r1 → account_root st addr r2 → r1 = r2.
Proof.
  intros (a1 & Ha1 & ->) (a2 & Ha2 & ->). rewrite Ha1 in Ha2.
  by destruct a1, a2; simplify_eq/=.
Qed.
Lemma entry_holds_fun qroot i st q1 q2 : entry_holds qroot i q1 → entry_holds qroot i q2 →
  value_holds st q1 → value_holds st q2 → q1 = q2.
Proof.
  destruct q1 as [k1 [t1 c1 [a1 b1] v1]], q2 as [k2 [t2 c2 [a2 b2] v2]].
  unfold entry_holds, value_holds. simpl.
  intros (P1 & P2 & P3 & P4 & P5) (Q1 & Q2 & Q3 & Q4 & Q5) (r1 & R1 & V1) (r2 & R2 & V2).
  pose proof (word_of_address_inj _ _ (holds_fun _ _ _ _ P1 Q1)) as ->.
  pose proof (word_of_b256_inj _ _ (holds_fun _ _ _ _ P2 Q2)) as ->.
  pose proof (ucast_inj (w:=8) 256 ltac:(lia) _ _ (holds_fun _ _ _ _ P3 Q3)) as ->.
  pose proof (word_of_b256_inj _ _ (holds_fun _ _ _ _ P4 Q4)) as ->.
  pose proof (word_of_b256_inj _ _ (holds_fun _ _ _ _ P5 Q5)) as ->.
  rewrite (account_root_fun _ _ _ _ R1 R2) in V1. by rewrite (holds_fun _ _ _ _ V1 V2).
Qed.
Lemma drained_fun st address cursor h1 reqs1 h2 reqs2 :
  drained st address cursor h1 reqs1 → drained st address cursor h2 reqs2 → h1 = h2 ∧ reqs1 = reqs2.
Proof.
  intros (a1 & A1 & H1' & C1 & L1 & E1 & V1) (a2 & A2 & H2' & C2 & L2 & E2 & V2).
  rewrite A1 in A2. injection A2 as A2. apply account_encode_inj in A2 as <-.
  pose proof (ucast_inj (w:=64) 256 ltac:(lia) _ _ (holds_fun _ _ _ _ H1' H2')) as <-. split; [done|].
  apply list_eq_same_length with (length reqs2); [done|lia|]. intros i x y Hi Hx Hy.
  eapply entry_holds_fun; [by apply E1|by apply E2|..].
  - by apply (Forall_lookup_1 _ _ _ _ V1 Hx).
  - by apply (Forall_lookup_1 _ _ _ _ V2 Hy).
Qed.
End Functional.

(** ** What the checks show of the trie *)

(** The request an entry and its verified slot describe. *)
Definition queued_of (entry : QueueEntryProof) (value : U256) : QueuedRequest :=
  MkQueued (qe_slot_key entry) (MkVerifiedRequest (qe_target entry) (qe_collection_keys_count entry)
    (qe_collection_keys entry) value).
Definition entry_value (maps : target_maps) (entry : QueueEntryProof) : U256 :=
  match snd maps !! (qe_target entry, qe_slot_key entry) with Some s => tsp_value s | None => to_uint 256 0 end.
Definition batch_requests (maps : target_maps) (entries : list QueueEntryProof) : list QueuedRequest :=
  (λ entry, queued_of entry (entry_value maps entry)) <$> entries.

Lemma entry_index z : 0 ≤ z < 2 ^ 64 → ucast 256 (to_uint 64 z) = to_uint 256 z.
Proof.
  intros Hz. change (2 ^ 64) with (2 ^ Z.of_nat 64) in Hz. apply uint_eq.
  rewrite ucast_wider, !to_uint_small; [done| |done|lia].
  split; [lia|]. etrans; [apply Hz|]. by vm_compute.
Qed.

Lemma entry_index_add (cursor : u64) (i : nat) : cursor + Z.of_nat i < 2 ^ 64 →
  uadd cursor (to_uint 64 (Z.of_nat i)) = to_uint 64 (cursor + Z.of_nat i).
Proof.
  intros Hi. pose proof (uint_range cursor). change (2 ^ 64) with (2 ^ Z.of_nat 64) in Hi.
  apply uint_eq. rewrite uadd_small; rewrite !(to_uint_small 64) by lia; lia.
Qed.

(** The five checks of an entry, one by one, for any reading [P] of a verified word. *)
Lemma verify_entry_words (P : B256 → U256 → Prop) qroot (cursor : u64) (i : nat) entry :
  (∀ slot value proof,
    verify_proof qroot (trie_path slot) (expected_storage_value value) proof = inl () → P slot value) →
  cursor + Z.of_nat i < 2 ^ 64 →
  verify_entry qroot cursor i entry = Ok () →
  Forall (λ '(slot, value), P slot value)
    (entry_words (to_uint 64 (cursor + Z.of_nat i)) entry).
Proof.
  intros HP Hi Hv%verify_entry_Ok.
  rewrite entry_index_add in Hv by done. destruct entry as [t k c ks ps]. simpl qe_word_proofs in Hv.
  unfold QUEUE_ENTRY_WORDS in ps. inv_vec ps. intros p1 p2 p3 p4 p5 Hv.
  unfold entry_words in *. simpl in Hv. rewrite !Forall_cons_iff in Hv.
  destruct Hv as (W1 & W2 & W3 & W4 & W5 & _).
  repeat constructor; eapply HP; eassumption.
Qed.

Lemma accepts_index st qs maps leaves i entry : accepts st qs maps leaves →
  entries qs !! i = Some entry → input_cursor qs + Z.of_nat i < head qs ∧ head qs < 2 ^ 64.
Proof.
  intros Hacc Hi%lookup_lt_Some. pose proof (acc_length _ _ _ _ Hacc).
  pose proof (uint_range (head qs)) as [_ Hh]. change (2 ^ Z.of_nat 64) with (2 ^ 64) in Hh. lia.
Qed.

Context `{!PastaFieldLaws}.

(** The leaves are those of the described requests. *)
Lemma batch_leaves maps entries leaves : try_map (entry_leaf maps) entries = Ok leaves →
  try_map request_leaf (batch_requests maps entries) = Ok leaves.
Proof.
  intros Hl%try_map_Ok. apply try_map_Ok. unfold batch_requests. apply Forall2_fmap_l.
  eapply list.Forall2_impl; [done|]. intros entry leaf (root & slot & _ & Hs & _ & Hh)%entry_leaf_Ok.
  unfold request_leaf, entry_value, queued_of. simpl. by rewrite Hs.
Qed.

Lemma accepts_drained `{!InclusionSound, !ExclusionSound} st qs maps leaves : accepts st qs maps leaves →
  drained st (proof_request_queue_address qs) (input_cursor qs) (head qs) (batch_requests maps (entries qs)).
Proof.
  intros Hacc. pose proof Hacc as [Ha Hh Hcur Hlen He Hm Hleaves].
  assert (∀ root key value proof,
    verify_proof root (trie_path key) (expected_storage_value value) proof = inl () → holds root key value) as Hw.
  { intros root key value proof Hv. unfold holds. destruct (expected_storage_value value).
    - by apply verify_proof_incl in Hv.
    - by apply verify_proof_excl in Hv. }
  exists (proof_request_queue_account qs). split_and!.
  - by apply verify_proof_incl in Ha.
  - by eapply Hw.
  - done.
  - unfold batch_requests. by rewrite length_fmap.
  - intros i q Hq. unfold batch_requests in Hq. rewrite list_lookup_fmap in Hq.
    destruct (entries qs !! i) as [entry|] eqn:Hi; [|done]. injection Hq as <-.
    destruct (accepts_index _ _ _ _ _ _ Hacc Hi) as [Hlt Hmax].
    specialize (He i entry Hi).
    apply (verify_entry_words (holds (storage_root (proof_request_queue_account qs)))) in He; [|by apply Hw|lia].
    unfold entry_words in He. rewrite entry_index in He by (pose proof (uint_range (input_cursor qs)); lia).
    rewrite !Forall_cons_iff in He. destruct He as (W1 & W2 & W3 & W4 & W5 & _). by split_and!.
  - apply verify_targets_maps in Hm as [Hroots _]. apply try_map_Ok in Hleaves.
    unfold batch_requests. apply Forall_fmap. eapply Forall2_Forall_l; [exact Hleaves|].
    apply Forall_true. intros leaf entry (root & slot & Hr & Hs & Hv & _)%entry_leaf_Ok.
    exists root. simpl. unfold entry_value. rewrite Hs. split; [|by eapply Hw].
    apply Hroots in Hr as (acct & proof & [Hr ->]%verify_account_Ok). exists acct. split; [|done].
    destruct acct; [by apply verify_proof_incl in Hr|by apply verify_proof_excl in Hr].
Qed.
End Abstract.

(** ** A witness for every real queue *)
Section Complete.
Context `{ProofComplete} `{!RlpInjective} `{Keccak} `{PoseidonSponge} `{!PastaFieldLaws}.

Definition slot_proof (root : B256) (key : B256) : list Bytes := trie_prove root (trie_path key).
Definition entry_of (qroot : B256) (index : u64) (q : QueuedRequest) : QueueEntryProof :=
  let r := q_request q in
  let base := mapping_entry_location (ucast 256 index) QUEUE_REQUESTS_STORAGE_INDEX in
  let word k := slot_proof qroot (struct_word_slot base (to_uint 8 k)) in
  MkQueueEntryProof (vr_target r) (q_slot_key q) (vr_collection_keys_count r) (vr_collection_keys r)
    [# slot_proof qroot base; word 1; word 2; word 3; word 4].
Definition account_storage (acct : option TrieAccount) : B256 :=
  match acct with Some a => storage_root a | None => EMPTY_ROOT_HASH end.
Definition target_of (st : B256) (q : QueuedRequest) (acct : option TrieAccount) : TargetStorageProof :=
  let r := q_request q in
  MkTargetStorageProof (vr_target r) acct (trie_prove st (trie_path (vr_target r)))
    [MkTargetSlotProof (q_slot_key q) (vr_value r) (slot_proof (account_storage acct) (q_slot_key q))].

Lemma holds_proved root key value : holds root key value →
  verify_proof root (trie_path key) (expected_storage_value value) (slot_proof root key) = inl ().
Proof. unfold holds, slot_proof. intros <-. apply trie_prove_ok. Qed.

Lemma entry_of_verified qroot (cursor : u64) (i : nat) q : cursor + Z.of_nat i < 2 ^ 64 →
  entry_holds qroot (cursor + Z.of_nat i) q →
  verify_entry qroot cursor i (entry_of qroot (to_uint 64 (cursor + Z.of_nat i)) q) = Ok ().
Proof.
  intros Hi (W1 & W2 & W3 & W4 & W5). apply verify_entry_Ok. rewrite entry_index_add by done.
  unfold entry_words, entry_of. simpl qe_word_proofs.
  rewrite entry_index by (pose proof (uint_range cursor); lia). simpl.
  repeat constructor; by apply holds_proved.
Qed.

(** A target witness of [q] with a real account. *)
Definition target_for (st : B256) (q : QueuedRequest) (t : TargetStorageProof) : Prop :=
  ∃ acct, t = target_of st q acct ∧
    trie_get st (trie_path (vr_target (q_request q))) = account_encode <$> acct ∧
    holds (account_storage acct) (q_slot_key q) (vr_value (q_request q)).

Lemma targets_exist st reqs : Forall (value_holds st) reqs → ∃ ts, Forall2 (target_for st) reqs ts.
Proof.
  induction 1 as [|q reqs (r & (acct & Hacct & ->) & Hv) _ (ts & Hts)]; [by exists []|].
  exists (target_of st q acct :: ts). constructor; [by exists acct|done].
Qed.

Lemma targets_verified st reqs ts : Forall2 (target_for st) reqs ts →
  ∃ maps, try_fold (verify_target st) (∅, ∅) ts = Ok maps ∧
    (∀ t r, fst maps !! t = Some r → account_root st t r) ∧
    (∀ t k s, snd maps !! (t, k) = Some s → ∃ r, account_root st t r ∧ holds r k (tsp_value s) ∧
      tsp_mpt_proof s = slot_proof r k) ∧
    (∀ q, q ∈ reqs → is_Some (fst maps !! vr_target (q_request q)) ∧
      is_Some (snd maps !! (vr_target (q_request q), q_slot_key q))).
Proof.
  intros Hts.
  destruct (try_fold_inv (E:=MptError) (λ done maps,
    (∀ t r, fst maps !! t = Some r → account_root st t r) ∧
    (∀ t k s, snd maps !! (t, k) = Some s → ∃ r, account_root st t r ∧ holds r k (tsp_value s) ∧
      tsp_mpt_proof s = slot_proof r k) ∧
    (∀ q t, t ∈ done → target_for st q t → is_Some (fst maps !! vr_target (q_request q)) ∧
      is_Some (snd maps !! (vr_target (q_request q), q_slot_key q)))) (verify_target st) (∅, ∅) ts)
    as (maps & Hf & H1' & H2' & H3').
  - split_and!; [intros * Hl; simpl in Hl; by rewrite lookup_empty in Hl..|]. intros q t Hin. by apply elem_of_nil in Hin.
  - intros dn t rest [roots slots] Hl (Hr & Hs & Hd).
    assert (∃ q, target_for st q t) as (q & acct & -> & Hacct & Hv).
    { assert (t ∈ ts) as Hin by (rewrite Hl; set_solver).
      apply list_elem_of_lookup in Hin as [i Hi].
      destruct (Forall2_lookup_r _ _ _ _ _ Hts Hi) as (q & _ & ?). by exists q. }
    unfold verify_target, target_of. cbn [ts_target_address ts_account ts_account_mpt_proof ts_slots].
    rewrite (proj2 (verify_account_Ok _ _ _ _ _ (account_storage acct))), Ok_bind.
    2: { split; [|done]. rewrite <-Hacct. apply trie_prove_ok. }
    eexists; split; [done|]. simpl in *. split_and!.
    + intros t r. rewrite lookup_insert_Some. intros [[<- <-]|[_ ?]]; [by exists acct|by apply Hr].
    + intros t k s. rewrite lookup_insert_Some. intros [[[= <- <-] <-]|[_ ?]]; [|by apply Hs].
      exists (account_storage acct). split_and!; [by exists acct|done|done].
    + intros q' t [Hin|Hin%list_elem_of_singleton]%elem_of_app Hfor.
      * destruct (Hd q' t Hin Hfor) as [D1 D2]. split; by apply lookup_insert_is_Some'; right.
      * subst t. destruct Hfor as (acct' & Heq & _). injection Heq as <- _ _ <- _ _.
        split; apply lookup_insert_is_Some'; by left.
  - exists maps. split_and!; [done..|]. intros q Hq. apply list_elem_of_lookup in Hq as [i Hi].
    destruct (Forall2_lookup_l _ _ _ _ _ Hts Hi) as (t & Ht & Hfor). eapply H3'; [|done].
    by eapply list_elem_of_lookup_2.
Qed.

(** The whole witness, from a real batch. *)
Lemma drained_accepted st address (cursor hd : u64) reqs : drained st address cursor hd reqs →
  ∃ qs maps leaves, proof_request_queue_address qs = address ∧ input_cursor qs = cursor ∧ head qs = hd ∧
    accepts st qs maps leaves ∧ batch_requests maps (entries qs) = reqs.
Proof.
  intros (acct & Ha & Hh & Hcur & Hlen & He & Hv).
  destruct (targets_exist _ _ Hv) as (ts & Hts).
  destruct (targets_verified _ _ _ Hts) as (maps & Hf & Hroots & Hslots & Hdom).
  set (es := imap (λ i q, entry_of (storage_root acct) (to_uint 64 (cursor + Z.of_nat i)) q) reqs).
  assert (∀ i e, es !! i = Some e → ∃ q, reqs !! i = Some q ∧
    e = entry_of (storage_root acct) (to_uint 64 (cursor + Z.of_nat i)) q) as Hes.
  { intros i e Hi. unfold es in Hi. rewrite list_lookup_imap in Hi.
    destruct (reqs !! i) as [q|] eqn:Hq; [|done]. injection Hi as <-. by exists q. }
  (** The slot found for a request is a proof of the request's own value. *)
  assert (∀ q, q ∈ reqs → ∃ root slot, fst maps !! vr_target (q_request q) = Some root ∧
    snd maps !! (vr_target (q_request q), q_slot_key q) = Some slot ∧
    tsp_value slot = vr_value (q_request q) ∧
    verify_proof root (trie_path (q_slot_key q)) (expected_storage_value (tsp_value slot))
      (tsp_mpt_proof slot) = inl ()) as Hfound.
  { intros q Hq. destruct (Hdom q Hq) as [[root Hr] [slot Hs]]. exists root, slot.
    destruct (Hslots _ _ _ Hs) as (r & Hr1 & Hholds & ->).
    rewrite (account_root_fun _ _ _ _ Hr1 (Hroots _ _ Hr)) in *. split_and!; [done|done| |by apply holds_proved].
    rewrite Forall_elem in Hv. destruct (Hv q Hq) as (r' & Hr' & Hv').
    rewrite (account_root_fun _ _ _ _ Hr' (Hroots _ _ Hr)) in Hv'. by eapply holds_fun. }
  assert (∃ leaves, try_map (entry_leaf maps) es = Ok leaves) as (leaves & Hleaves).
  { assert (Forall (λ e, ∃ leaf, entry_leaf maps e = Ok leaf) es) as Hall.
    { apply Forall_lookup_2. intros i e Hi. destruct (Hes i e Hi) as (q & Hq & ->).
      destruct (Hfound q) as (root & slot & Hr & Hs & _ & Hp); [by eapply list_elem_of_lookup_2|].
      edestruct hash_request_leaf_Ok as (fs & _ & _ & Hhash).
      eexists. apply entry_leaf_Ok. exists root, slot. by split_and!. }
    clear -Hall. induction Hall as [|e es [leaf He] _ [leaves IH]]; [by exists []|].
    exists (leaf :: leaves). simpl. by rewrite He, Ok_bind, IH. }
  exists (MkQueueStorage address acct (trie_prove st (trie_path address)) hd
    (slot_proof (storage_root acct) (storage_slot_of_index QUEUE_HEAD_STORAGE_INDEX)) cursor es ts), maps, leaves.
  pose proof (uint_range hd) as [_ Hmax]. change (2 ^ Z.of_nat 64) with (2 ^ 64) in Hmax.
  split_and!; [done..|split; simpl; try done|].
  - rewrite <-Ha. apply trie_prove_ok.
  - by apply holds_proved.
  - unfold es. by rewrite length_imap.
  - intros i e Hi. destruct (Hes i e Hi) as (q & Hq & ->). apply lookup_lt_Some in Hq as Hlt.
    apply entry_of_verified; [lia|by apply He].
  - unfold batch_requests, es. simpl. rewrite fmap_imap. apply list_eq. intros i. rewrite list_lookup_imap.
    destruct (reqs !! i) as [q|] eqn:Hq; [|done]. simpl. f_equal.
    destruct (Hfound q) as (root & slot & _ & Hs & Hval & _); [by eapply list_elem_of_lookup_2|].
    unfold queued_of, entry_value. simpl. rewrite Hs, Hval. by destruct q as [? []].
Qed.
End Complete.

(** ** Properties *)
Section Properties.
Context `{AlloyTrie} `{Keccak} `{PoseidonSponge} `{!PastaFieldLaws} `{!MerkleZerosChain}.

(** Acceptance is decided by the individual checks: a batch is accepted
    exactly when the queue account, the head, every entry word, every target
    account and every entry's slot verify, the cursor is not ahead of the head
    and the entry count is the derived one; the result is then the advanced
    cursor and the bytes of the reference Merkle root of one leaf per entry. *)
Lemma verify_queue_accepts_iff st qs cursor root : vec_fits (entries qs) →
  verify_queue st qs = Ok (cursor, root) ↔
  ∃ maps leaves, accepts st qs maps leaves ∧
    uint_Z cursor = input_cursor qs + Z.of_nat (length (entries qs)) ∧
    fb_bytes root = fp_to_bytes (requests_root leaves).
Proof. apply verify_queue_Ok_iff. Qed.

(** C32: the batch bounds: the cursor advances by [min (head - cursor) MAX_BATCH],
    never past the head and without wrapping; it stays put exactly when the
    queue is drained, and the root is then 32 zero bytes. *)
Theorem verify_queue_cursor st qs cursor root : vec_fits (entries qs) →
  verify_queue st qs = Ok (cursor, root) →
  uint_Z cursor = input_cursor qs + Z.min (head qs - input_cursor qs) MAX_BATCH ∧
  input_cursor qs ≤ cursor ≤ head qs ∧
  (cursor = input_cursor qs ↔ input_cursor qs = head qs) ∧
  (cursor = input_cursor qs → root = fb_zero 32).
Proof.
  intros Hfits (maps & leaves & Hacc & Hc & Hr)%verify_queue_Ok_iff; [|done].
  pose proof (acc_length _ _ _ _ Hacc) as Hlen. pose proof (acc_cursor _ _ _ _ Hacc) as Hcur.
  assert (0 < MAX_BATCH) by done.
  split_and!; [lia|lia|lia| |].
  - split; intros Heq%(f_equal uint_Z); apply uint_eq; lia.
  - intros Heq%(f_equal uint_Z). assert (entries qs = []) as Hnil by (apply nil_length_inv; lia).
    pose proof (acc_leaves _ _ _ _ Hacc) as Hl. rewrite Hnil in Hl. injection Hl as <-.
    apply fb_eq. rewrite Hr. unfold requests_root. simpl. rewrite fp_to_bytes_spec, fp_zero_Z. by vm_compute.
Qed.

(** C33: verification never panics, whatever the witness: no index is out of
    range, the padded tree never underflows, and the two error branches for a
    failing leaf hash and for a too deep tree are unreachable. *)
Theorem verify_queue_no_panic st qs : vec_fits (entries qs) →
  verify_queue st qs ≠ Panic ∧
  (∀ slots d m, verify_queue st qs ≠ Err (ExceedsMaxTreeDepth slots d m)) ∧
  (∀ t k v reason, verify_queue st qs ≠ Err (LeafHashError t k v reason)).
Proof.
  intros Hfits. pose proof (verify_queue_errs st qs Hfits) as He. split_and!.
  - by eapply errs_in_no_panic.
  - intros slots d m Heq. exact (errs_in_Err _ _ _ He Heq).
  - intros t k v reason Heq. exact (errs_in_Err _ _ _ He Heq).
Qed.

(** The two ways a witness of the wrong length is rejected: once the queue
    account and the head verify, a cursor ahead of the head and an entry
    count other than the derived batch are reported as exactly that, before
    any entry or target is looked at. *)
Lemma verify_queue_batch_errors st qs : vec_fits (entries qs) →
  verify_account st ProofRequestQueue (proof_request_queue_address qs)
    (Some (proof_request_queue_account qs)) (proof_request_queue_account_mpt_proof qs)
    = Ok (storage_root (proof_request_queue_account qs)) →
  verify_storage_word (storage_root (proof_request_queue_account qs))
    (storage_slot_of_index QUEUE_HEAD_STORAGE_INDEX) (ucast 256 (head qs)) (head_mpt_proof qs) = Ok () →
  (head qs < input_cursor qs → verify_queue st qs = Err (CursorAheadOfHead (input_cursor qs) (head qs))) ∧
  (input_cursor qs ≤ head qs →
   Z.of_nat (length (entries qs)) ≠ Z.min (head qs - input_cursor qs) MAX_BATCH →
   verify_queue st qs = Err (BatchSizeMismatch (batch_size (input_cursor qs) (head qs)) (length (entries qs)))).
Proof.
  intros Hfits Ha Hh. unfold verify_queue. rewrite Ha, Ok_bind, Hh, Ok_bind. split.
  - intros Hlt. by rewrite decide_True.
  - intros Hle Hne. rewrite decide_False by lia. rewrite decide_True; [done|].
    intros Heq%(f_equal uint_Z). rewrite len_u64_fits, batch_size_Z in Heq by done. done.
Qed.
End Properties.

Section Refinement.
Context `{TrieContents} `{Keccak} `{PoseidonSponge} `{!PastaFieldLaws} `{!MerkleZerosChain}.

(** C1: refinement: against a sound trie verifier, an accepted run drained the
    real queue: its output is the cursor after, and the Merkle root of, the
    requests the state trie holds next in the queue at that address, each
    with the value its target's storage really has (zero for an absent slot
    or account). *)
Theorem verify_queue_refines `{!InclusionSound, !ExclusionSound} st qs cursor root : vec_fits (entries qs) →
  verify_queue st qs = Ok (cursor, root) →
  ∃ reqs leaves,
    drained st (proof_request_queue_address qs) (input_cursor qs) (head qs) reqs ∧
    uint_Z cursor = input_cursor qs + Z.of_nat (length reqs) ∧
    try_map request_leaf reqs = Ok leaves ∧
    fb_bytes root = fp_to_bytes (requests_root leaves).
Proof.
  intros Hfits (maps & leaves & Hacc & Hc & Hr)%verify_queue_Ok_iff; [|done].
  exists (batch_requests maps (entries qs)), leaves. split_and!; [by eapply accepts_drained| |..|done].
  - unfold batch_requests. by rewrite length_fmap.
  - eapply batch_leaves, acc_leaves, Hacc.
Qed.

(** What an entry says of its request. *)
Definition entry_claims (e : QueueEntryProof) : Address * B256 * u8 * (B256 * B256) :=
  (qe_target e, qe_slot_key e, qe_collection_keys_count e, qe_collection_keys e).

Definition request_claims (q : QueuedRequest) : Address * B256 * u8 * (B256 * B256) :=
  let r := q_request q in (vr_target r, q_slot_key q, vr_collection_keys_count r, vr_collection_keys r).

Lemma accepted_determined `{!InclusionSound, !ExclusionSound, !RlpInjective} st qs1 qs2 out1 out2 :
  vec_fits (entries qs1) → vec_fits (entries qs2) →
  proof_request_queue_address qs1 = proof_request_queue_address qs2 → input_cursor qs1 = input_cursor qs2 →
  verify_queue st qs1 = Ok out1 → verify_queue st qs2 = Ok out2 →
  out1 = out2 ∧ head qs1 = head qs2 ∧ entry_claims <$> entries qs1 = entry_claims <$> entries qs2.
Proof.
  intros F1 F2 Haddr Hcur. destruct out1 as [c1 r1], out2 as [c2 r2].
  intros (m1 & l1 & A1 & C1 & R1)%verify_queue_Ok_iff (m2 & l2 & A2 & C2 & R2)%verify_queue_Ok_iff; [|done..].
  pose proof (accepts_drained _ _ _ _ A1) as D1. pose proof (accepts_drained _ _ _ _ A2) as D2.
  rewrite <-Haddr, <-Hcur in D2. destruct (drained_fun _ _ _ _ _ _ _ D1 D2) as [Hh Hreqs].
  pose proof (batch_leaves _ _ _ (acc_leaves _ _ _ _ A1)) as L1.
  pose proof (batch_leaves _ _ _ (acc_leaves _ _ _ _ A2)) as L2.
  rewrite Hreqs, L2 in L1. injection L1 as ->.
  pose proof (acc_length _ _ _ _ A1). pose proof (acc_length _ _ _ _ A2). split_and!; [|done|].
  - f_equal; [apply uint_eq; congruence|apply fb_eq; congruence].
  - apply (f_equal (fmap request_claims)) in Hreqs.
    unfold batch_requests in Hreqs. by rewrite <-!list_fmap_compose in Hreqs.
Qed.

(** C20: the batch is determined: provided inclusion AND exclusion proofs are
    sound and RLP is injective, two accepted witnesses for one state root, queue
    address and input cursor, whatever proofs they carry, claim the same head and
    the same requests in the same order, and give the same cursor and requests
    root.  The provision matters: the alloy-trie version the source pins
    accepts truncated exclusion proofs, with which a prover can claim a zero
    word or an absent account; what still holds then is [tampering_rejected]
    and [verify_queue_inclusion]. *)
Theorem verify_queue_deterministic (Hincl : InclusionSound) (Hexcl : ExclusionSound) (Hrlp : RlpInjective)
    st qs1 qs2 out1 out2 : vec_fits (entries qs1) → vec_fits (entries qs2) →
  proof_request_queue_address qs1 = proof_request_queue_address qs2 →
  input_cursor qs1 = input_cursor qs2 →
  verify_queue st qs1 = Ok out1 → verify_queue st qs2 = Ok out2 →
  out1 = out2 ∧ head qs1 = head qs2 ∧ entry_claims <$> entries qs1 = entry_claims <$> entries qs2.
Proof. apply accepted_determined. Qed.

(** C21: liveness: no enqueued entry can stall the queue: for every batch the
    state holds, with empty slots and absent targets among the requests, some
    witness is accepted, and its output is the one the batch determines. *)
Theorem verify_queue_complete `{!TrieProver} `{!ProofComplete, !RlpInjective} st address (cursor hd : u64) reqs :
  drained st address cursor hd reqs →
  ∃ qs leaves out root,
    proof_request_queue_address qs = address ∧ input_cursor qs = cursor ∧
    try_map request_leaf reqs = Ok leaves ∧
    verify_queue st qs = Ok (out, root) ∧
    uint_Z out = cursor + Z.of_nat (length reqs) ∧ fb_bytes root = fp_to_bytes (requests_root leaves).
Proof.
  intros Hd. destruct (drained_accepted _ _ _ _ _ Hd) as (qs & maps & leaves & Ha & Hc & Hh & Hacc & <-).
  pose proof (acc_length _ _ _ _ Hacc) as Hlen. pose proof (acc_cursor _ _ _ _ Hacc) as Hcur.
  pose proof (uint_range hd) as [_ Hmax].
  destruct (fp_to_bytes_slice (E:=MptError) (requests_root leaves)) as (root & _ & Hroot).
  exists qs, leaves, (to_uint 64 (cursor + Z.of_nat (length (entries qs)))), root.
  assert (uint_Z (to_uint 64 (cursor + Z.of_nat (length (entries qs)))) = cursor + Z.of_nat (length (entries qs))) as Hz.
  { apply to_uint_small. rewrite Hc, Hh in *. pose proof (uint_range cursor). lia. }
  split_and!; [done|done|by eapply batch_leaves, acc_leaves| | |done].
  - apply verify_queue_Ok_iff.
    + unfold vec_fits. assert (MAX_BATCH < 2 ^ 63) by done. lia.
    + exists maps, leaves. by rewrite Hz, Hc.
  - unfold batch_requests. by rewrite length_fmap.
Qed.

(** A word as inclusion proofs alone show it: unless it is zero, the trie has it. *)
Definition holds_nonzero (root : B256) (key : B256) (value : U256) : Prop :=
  uint_Z value ≠ 0 → trie_get root (trie_path key) = Some (u256_encode value).
(** The five words of an entry, those that are not zero. *)
Definition entry_included (qroot : B256) (index : Z) (q : QueuedRequest) : Prop :=
  let base := mapping_entry_location (to_uint 256 index) QUEUE_REQUESTS_STORAGE_INDEX in
  let word k := struct_word_slot base (to_uint 8 k) in
  holds_nonzero qroot base (word_of_address (vr_target (q_request q))) ∧
  holds_nonzero qroot (word 1) (word_of_b256 (q_slot_key q)) ∧
  holds_nonzero qroot (word 2) (ucast 256 (vr_collection_keys_count (q_request q))) ∧
  holds_nonzero qroot (word 3) (word_of_b256 (fst (vr_collection_keys (q_request q)))) ∧
  holds_nonzero qroot (word 4) (word_of_b256 (snd (vr_collection_keys (q_request q)))).
(** A value that is not zero is the content of a slot of an account that exists. *)
Definition value_included (st : B256) (q : QueuedRequest) : Prop :=
  uint_Z (vr_value (q_request q)) ≠ 0 → ∃ acct,
    trie_get st (trie_path (vr_target (q_request q))) = Some (account_encode acct) ∧
    trie_get (storage_root acct) (trie_path (q_slot_key q)) = Some (u256_encode (vr_value (q_request q))).

Lemma verify_proof_nonzero `{!InclusionSound} root key value proof :
  verify_proof root (trie_path key) (expected_storage_value value) proof = inl () → holds_nonzero root key value.
Proof.
  unfold holds_nonzero, expected_storage_value. intros Hv Hne. rewrite decide_False in Hv by done.
  by apply verify_proof_incl in Hv.
Qed.
Lemma accepts_entries_included `{!InclusionSound} st qs maps leaves i q : accepts st qs maps leaves →
  batch_requests maps (entries qs) !! i = Some q →
  entry_included (storage_root (proof_request_queue_account qs)) (input_cursor qs + Z.of_nat i) q.
Proof.
  intros Hacc Hq. unfold batch_requests in Hq. rewrite list_lookup_fmap in Hq.
  destruct (entries qs !! i) as [entry|] eqn:Hi; [|done]. injection Hq as <-.
  destruct (accepts_index _ _ _ _ _ _ Hacc Hi) as [Hlt Hmax].
  pose proof (acc_entries _ _ _ _ Hacc i entry Hi) as He.
  apply (verify_entry_words (holds_nonzero (storage_root (proof_request_queue_account qs)))) in He;
    [|intros ???; apply verify_proof_nonzero|lia].
  unfold entry_words in He. rewrite entry_index in He by (pose proof (uint_range (input_cursor qs)); lia).
  rewrite !Forall_cons_iff in He. destruct He as (W1 & W2 & W3 & W4 & W5 & _). by split_and!.
Qed.
Lemma accepts_values_included `{!InclusionSound, !EmptyRoot} st qs maps leaves : accepts st qs maps leaves →
  Forall (value_included st) (batch_requests maps (entries qs)).
Proof.
  intros [_ _ _ _ _ Hm Hleaves]. apply verify_targets_maps in Hm as [Hroots _]. apply try_map_Ok in Hleaves.
  unfold batch_requests. apply Forall_fmap. eapply Forall2_Forall_l; [exact Hleaves|].
  apply Forall_true. intros leaf entry (r & slot & Hroot & Hs & Hv & _)%entry_leaf_Ok.
  unfold value_included. simpl. unfold entry_value. rewrite Hs. intros Hne.
  pose proof (verify_proof_nonzero _ _ _ _ Hv Hne) as Hget.
  apply Hroots in Hroot as (acct & proof & [Ht ->]%verify_account_Ok).
  destruct acct as [acct|]; [|by rewrite empty_root_get in Hget].
  exists acct. split; [by apply verify_proof_incl in Ht|done].
Qed.

(** C28: what holds of an accepted batch when only inclusion proofs are sound (the
    alloy-trie version the source pins has unsound exclusion proofs): nothing
    can be invented.  The queue account is in the state trie; in its storage
    the head, if not zero, is the committed queue's head, and every word of
    every drained entry, if not zero, is that entry's word; every value that is
    not zero is the content of the slot of a target account that is in the
    state trie; and the requests root is the Merkle root of exactly these
    requests. *)
Theorem verify_queue_inclusion (Hincl : InclusionSound) (Hempty : EmptyRoot) st qs out : vec_fits (entries qs) →
  verify_queue st qs = Ok out →
  let acct := proof_request_queue_account qs in
  trie_get st (trie_path (proof_request_queue_address qs)) = Some (account_encode acct) ∧
  holds_nonzero (storage_root acct) (storage_slot_of_index QUEUE_HEAD_STORAGE_INDEX) (ucast 256 (head qs)) ∧
  ∃ reqs leaves,
    entry_claims <$> entries qs = request_claims <$> reqs ∧
    (∀ i q, reqs !! i = Some q → entry_included (storage_root acct) (input_cursor qs + Z.of_nat i) q) ∧
    Forall (value_included st) reqs ∧
    uint_Z (fst out) = input_cursor qs + Z.of_nat (length reqs) ∧
    try_map request_leaf reqs = Ok leaves ∧
    fb_bytes (snd out) = fp_to_bytes (requests_root leaves).
Proof.
  destruct out as [cursor root]. intros Hfits (maps & leaves & Hacc & Hc & Hr)%verify_queue_Ok_iff; [|done].
  split_and!; [apply verify_proof_incl with (1 := acc_account _ _ _ _ Hacc)|by eapply verify_proof_nonzero, acc_head|].
  exists (batch_requests maps (entries qs)), leaves. split_and!; try done.
  - unfold batch_requests. by rewrite <-list_fmap_compose.
  - intros i q. by apply accepts_entries_included with (1 := Hacc).
  - by eapply accepts_values_included.
  - unfold batch_requests. by rewrite length_fmap.
  - eapply batch_leaves, acc_leaves, Hacc.
Qed.
End Refinement.
