(* ===== verification/MptClaims.v ===== *)
(** * The proofs of a queue witness fix its claims

    [verify_proof] compares what one walk finds with one expected value, so a
    proof shows one value for a key, whether or not it is sound.  A claim of an
    accepted witness can therefore not be changed without changing a proof, even
    while exclusion proofs can be forged; nor can an entry, a target or a slot be
    left out, or the cursor be moved past the head. *)
From S2P Require Import Prelude Externals StorageLayout Types Merkle MerkleSpec RequestLeaf Mpt MptSpec.

(** ** Changes to a witness *)

Definition with_account (qs : QueueStorage) (account : TrieAccount) : QueueStorage :=
  MkQueueStorage (proof_request_queue_address qs) account (proof_request_queue_account_mpt_proof qs)
    (head qs) (head_mpt_proof qs) (input_cursor qs) (entries qs) (targets qs).
Definition with_head (qs : QueueStorage) (h : u64) : QueueStorage :=
  MkQueueStorage (proof_request_queue_address qs) (proof_request_queue_account qs)
    (proof_request_queue_account_mpt_proof qs) h (head_mpt_proof qs) (input_cursor qs) (entries qs) (targets qs).
Definition with_cursor (qs : QueueStorage) (cursor : u64) : QueueStorage :=
  MkQueueStorage (proof_request_queue_address qs) (proof_request_queue_account qs)
    (proof_request_queue_account_mpt_proof qs) (head qs) (head_mpt_proof qs) cursor (entries qs) (targets qs).
Definition with_entries (qs : QueueStorage) (es : list QueueEntryProof) : QueueStorage :=
  MkQueueStorage (proof_request_queue_address qs) (proof_request_queue_account qs)
    (proof_request_queue_account_mpt_proof qs) (head qs) (head_mpt_proof qs) (input_cursor qs) es (targets qs).
Definition with_targets (qs : QueueStorage) (ts : list TargetStorageProof) : QueueStorage :=
  MkQueueStorage (proof_request_queue_address qs) (proof_request_queue_account qs)
    (proof_request_queue_account_mpt_proof qs) (head qs) (head_mpt_proof qs) (input_cursor qs) (entries qs) ts.

(** The slot proof that is used for a target and key: the last one supplied. *)
Definition filed_slots (targets : list TargetStorageProof) : gmap (Address * B256) TargetSlotProof :=
  foldl (λ m target, foldl (λ m slot, <[(ts_target_address target, tsp_key slot) := slot]> m) m (ts_slots target))
    ∅ targets.

(** Two target witnesses with the same proofs for the same keys. *)
Definition same_target_proofs (t1 t2 : TargetStorageProof) : Prop :=
  ts_target_address t1 = ts_target_address t2 ∧ ts_account_mpt_proof t1 = ts_account_mpt_proof t2 ∧
  Forall2 (λ s1 s2, tsp_key s1 = tsp_key s2 ∧ tsp_mpt_proof s1 = tsp_mpt_proof s2) (ts_slots t1) (ts_slots t2).

(** A witness changed without a new proof, or with a part left out. *)
Inductive tampered (qs : QueueStorage) : QueueStorage → Prop :=
| tamper_account account : account ≠ proof_request_queue_account qs → tampered qs (with_account qs account)
| tamper_head h : h ≠ head qs → tampered qs (with_head qs h)
| tamper_cursor cursor : head qs < uint_Z cursor → tampered qs (with_cursor qs cursor)
| tamper_count es : vec_fits es → length es ≠ length (entries qs) → tampered qs (with_entries qs es)
| tamper_entry i e e' : entries qs !! i = Some e → qe_word_proofs e' = qe_word_proofs e → e' ≠ e →
    tampered qs (with_entries qs (<[i := e']> (entries qs)))
| withhold_target e ts : e ∈ entries qs → qe_target e ∉ ts_target_address <$> ts → tampered qs (with_targets qs ts)
| withhold_slot e ts : e ∈ entries qs → filed_slots ts !! (qe_target e, qe_slot_key e) = None →
    tampered qs (with_targets qs ts)
| tamper_value e ts : e ∈ entries qs → Forall2 same_target_proofs (targets qs) ts →
    tsp_value <$> filed_slots ts !! (qe_target e, qe_slot_key e)
    ≠ tsp_value <$> filed_slots (targets qs) !! (qe_target e, qe_slot_key e) →
    tampered qs (with_targets qs ts).

Section Claims.
Context `{AlloyTrie} `{Keccak} `{PoseidonSponge}.

(** What [verify_target] files does not depend on the checks. *)
Lemma verify_targets_filed st targets maps : try_fold (verify_target st) (∅, ∅) targets = Ok maps →
  snd maps = filed_slots targets ∧ ∀ a, is_Some (fst maps !! a) → a ∈ ts_target_address <$> targets.
Proof.
  unfold filed_slots. generalize (∅ : gmap (Address * B256) TargetSlotProof) as m. intros m0 Hf.
  assert (∀ roots m, try_fold (verify_target st) (roots, m) targets = Ok maps →
    snd maps = foldl (λ m target, foldl (λ m slot, <[(ts_target_address target, tsp_key slot) := slot]> m) m (ts_slots target))
      m targets ∧ ∀ a, is_Some (fst maps !! a) → is_Some (roots !! a) ∨ a ∈ ts_target_address <$> targets) as Hall.
  { clear. induction targets as [|t ts IH]; intros roots m; simpl.
    - intros [= <-]. split; [done|]. auto.
    - intros ([roots' m'] & Ht & Hf)%bind_Ok. unfold verify_target in Ht.
      apply bind_Ok in Ht as (r & _ & [= <- <-]). destruct (IH _ _ Hf) as [Hs Ha]. split; [done|].
      intros a Hsome. destruct (Ha a Hsome) as [Hr|Hin]; [|right; by right].
      apply lookup_insert_is_Some in Hr as [->|[_ ?]]; [right; by left|by left]. }
  destruct (Hall ∅ m0 Hf) as [Hs Ha]. split; [done|]. intros a Hsome.
  destruct (Ha a Hsome) as [[? Hr]|?]; [|done]. by rewrite lookup_empty in Hr.
Qed.

Lemma expected_storage_value_eq `{!ProofFunctional, !RlpInjective} root key v1 v2 pf :
  verify_proof root key (expected_storage_value v1) pf = inl () →
  verify_proof root key (expected_storage_value v2) pf = inl () → v1 = v2.
Proof. intros V1 V2. by apply expected_storage_value_inj, (verify_proof_functional _ _ _ _ _ V1 V2). Qed.

Context `{!ProofFunctional, !RlpInjective}.

(** The five proofs of an entry fix its claims. *)
Lemma entry_claims_fixed qroot cursor i e1 e2 : qe_word_proofs e1 = qe_word_proofs e2 →
  verify_entry qroot cursor i e1 = Ok () → verify_entry qroot cursor i e2 = Ok () → e1 = e2.
Proof.
  rewrite !verify_entry_Ok. destruct e1 as [t1 k1 c1 [a1 b1] ps], e2 as [t2 k2 c2 [a2 b2] ps']. simpl qe_word_proofs.
  intros <-. unfold QUEUE_ENTRY_WORDS in ps. inv_vec ps. intros p1 p2 p3 p4 p5. unfold entry_words. simpl.
  rewrite !Forall_cons_iff. intros (P1 & P2 & P3 & P4 & P5 & _) (Q1 & Q2 & Q3 & Q4 & Q5 & _).
  pose proof (word_of_address_inj _ _ (expected_storage_value_eq _ _ _ _ _ P1 Q1)) as ->.
  pose proof (word_of_b256_inj _ _ (expected_storage_value_eq _ _ _ _ _ P2 Q2)) as ->.
  pose proof (ucast_inj (w:=8) 256 ltac:(lia) _ _ (expected_storage_value_eq _ _ _ _ _ P3 Q3)) as ->.
  pose proof (word_of_b256_inj _ _ (expected_storage_value_eq _ _ _ _ _ P4 Q4)) as ->.
  by pose proof (word_of_b256_inj _ _ (expected_storage_value_eq _ _ _ _ _ P5 Q5)) as ->.
Qed.

(** The account proofs of the targets fix their storage roots. *)
Lemma target_roots_fixed st ts1 ts2 m1 m2 : Forall2 same_target_proofs ts1 ts2 →
  try_fold (verify_target st) (∅, ∅) ts1 = Ok m1 → try_fold (verify_target st) (∅, ∅) ts2 = Ok m2 → fst m1 = fst m2.
Proof.
  assert (∀ roots s1 s2, Forall2 same_target_proofs ts1 ts2 →
    try_fold (verify_target st) (roots, s1) ts1 = Ok m1 → try_fold (verify_target st) (roots, s2) ts2 = Ok m2 →
    fst m1 = fst m2) as Hall; [|apply Hall].
  intros roots s1 s2 Hts. revert roots s1 s2. induction Hts as [|t1 t2 ts1 ts2 (Ha & Hp & _) _ IH]; intros roots s1 s2; simpl.
  - by intros [= <-] [= <-].
  - intros ([r1 s1'] & T1 & F1)%bind_Ok ([r2 s2'] & T2 & F2)%bind_Ok. unfold verify_target in T1, T2.
    apply bind_Ok in T1 as (x1 & [V1 ->]%verify_account_Ok & [= <- <-]).
    apply bind_Ok in T2 as (x2 & [V2 ->]%verify_account_Ok & [= <- <-]).
    rewrite <-Ha, <-Hp in V2. pose proof (verify_proof_functional _ _ _ _ _ V1 V2) as Henc.
    assert (ts_account t1 = ts_account t2) as Hacct.
    { destruct (ts_account t1), (ts_account t2); simplify_eq/=; done. }
    rewrite <-Hacct, <-Ha in F2. by eapply IH.
Qed.
(** The slots filed for one key have one proof. *)
Lemma filed_slots_proofs ts1 ts2 k : Forall2 same_target_proofs ts1 ts2 →
  option_Forall2 (λ s1 s2, tsp_key s1 = tsp_key s2 ∧ tsp_mpt_proof s1 = tsp_mpt_proof s2)
    (filed_slots ts1 !! k) (filed_slots ts2 !! k).
Proof.
  unfold filed_slots. intros Hts.
  cut (∀ m1 m2 : gmap (Address * B256) TargetSlotProof,
    option_Forall2 (λ s1 s2, tsp_key s1 = tsp_key s2 ∧ tsp_mpt_proof s1 = tsp_mpt_proof s2) (m1 !! k) (m2 !! k) →
    option_Forall2 (λ s1 s2, tsp_key s1 = tsp_key s2 ∧ tsp_mpt_proof s1 = tsp_mpt_proof s2)
      (foldl (λ m target, foldl (λ m slot, <[(ts_target_address target, tsp_key slot) := slot]> m) m (ts_slots target)) m1 ts1 !! k)
      (foldl (λ m target, foldl (λ m slot, <[(ts_target_address target, tsp_key slot) := slot]> m) m (ts_slots target)) m2 ts2 !! k)).
  { intros Hall. apply Hall. rewrite !lookup_empty. constructor. }
  induction Hts as [|t1 t2 ts1 ts2 (Ha & _ & Hs) _ IH]; intros m1 m2 Hm; simpl; [done|]. apply IH. rewrite <-Ha.
  clear IH. revert m1 m2 Hm. induction Hs as [|s1 s2 l1 l2 [Hk Hp] _ IH]; intros m1 m2 Hm; simpl; [done|].
  apply IH. rewrite <-Hk. destruct (decide ((ts_target_address t1, tsp_key s1) = k)) as [->|Hne].
  - rewrite !lookup_insert_eq. by constructor.
  - by rewrite !lookup_insert_ne.
Qed.

Context `{!PastaFieldLaws} `{!MerkleZerosChain}.

(** Every entry of an accepted witness has a target root and a slot, which verifies. *)
Lemma accepts_slot st qs maps leaves e : accepts st qs maps leaves → e ∈ entries qs →
  ∃ root slot, fst maps !! qe_target e = Some root ∧ filed_slots (targets qs) !! (qe_target e, qe_slot_key e) = Some slot ∧
    verify_proof root (trie_path (qe_slot_key e)) (expected_storage_value (tsp_value slot)) (tsp_mpt_proof slot) = inl ().
Proof.
  intros Hacc [i Hi]%list_elem_of_lookup. destruct (verify_targets_filed _ _ _ (acc_targets _ _ _ _ Hacc)) as [<- _].
  pose proof (acc_leaves _ _ _ _ Hacc) as Hl%try_map_Ok.
  destruct (Forall2_lookup_l _ _ _ _ _ Hl Hi) as (leaf & _ & (root & slot & Hr & Hs & Hv & _)%entry_leaf_Ok).
  by exists root, slot.
Qed.

(** A tampered witness and the original are not both accepted. *)
Lemma tampered_not_accepted st qs qs' maps leaves maps' leaves' : vec_fits (entries qs) →
  tampered qs qs' → accepts st qs maps leaves → accepts st qs' maps' leaves' → False.
Proof.
  intros Hfits Ht Hacc Hacc'.
  pose proof Hacc as [Pa Ph Pcur Plen Pe Pt Pl]. pose proof Hacc' as [Qa Qh Qcur Qlen Qe Qt Ql].
  destruct Ht as [account Hne|h Hne|cursor Hlt|es Hf Hne|i e e' Hi Hp Hne|e ts He Hni|e ts He Hnone|e ts He Hts Hne]; simpl in *.
  - apply Hne. apply (inj account_encode). pose proof (verify_proof_functional _ _ _ _ _ Qa Pa). congruence.
  - apply Hne. apply (ucast_inj (w:=64) 256); [lia|]. by apply (expected_storage_value_eq _ _ _ _ _ Qh Ph).
  - lia.
  - apply Hne. lia.
  - apply Hne. eapply entry_claims_fixed; [exact Hp|apply Qe|by apply Pe].
    apply list_lookup_insert_eq. by eapply lookup_lt_Some.
  - destruct (accepts_slot _ _ _ _ _ Hacc' He) as (root & _ & Hr & _).
    apply Hni. eapply verify_targets_filed; [exact Qt|by exists root].
  - destruct (accepts_slot _ _ _ _ _ Hacc' He) as (_ & slot & _ & Hs & _). simpl in Hs. congruence.
  - apply Hne. destruct (accepts_slot _ _ _ _ _ Hacc He) as (root & slot & Hr & Hs & Hv).
    destruct (accepts_slot _ _ _ _ _ Hacc' He) as (root' & slot' & Hr' & Hs' & Hv'). simpl in Hs'.
    rewrite <-(target_roots_fixed _ _ _ _ _ Hts Pt Qt), Hr in Hr'. injection Hr' as <-.
    pose proof (filed_slots_proofs _ _ (qe_target e, qe_slot_key e) Hts) as Hp. rewrite Hs, Hs' in Hp.
    inversion Hp as [? ? [_ Hpf]|]; subst. rewrite <-Hpf in Hv'. rewrite Hs, Hs'. simpl. f_equal.
    by apply (expected_storage_value_eq _ _ _ _ _ Hv' Hv).
Qed.

Lemma tampering_is_rejected st qs qs' out : vec_fits (entries qs) →
  verify_queue st qs = Ok out → tampered qs qs' → ∃ e, verify_queue st qs' = Err e ∧ possible_error e.
Proof.
  intros Hfits Hok Ht. assert (vec_fits (entries qs')) as Hfits'.
  { destruct Ht; try done. simpl. unfold vec_fits. by rewrite length_insert. }
  pose proof (verify_queue_errs st qs' Hfits') as He.
  destruct (verify_queue st qs') as [[c' r']|e|] eqn:Hv; [|by exists e|done]. destruct out as [c r].
  apply verify_queue_Ok_iff in Hok as (maps & leaves & Hacc & _); [|done].
  apply verify_queue_Ok_iff in Hv as (maps' & leaves' & Hacc' & _); [|done].
  by destruct (tampered_not_accepted _ _ _ _ _ _ _ Hfits Ht Hacc Hacc').
Qed.

(** C18: a proof fixes its claim: against an accepted witness, whatever the trie
    verifier accepts (forged exclusion proofs included), the same proofs carry
    no other queue account, head, entry or slot value, and no entry, target or
    slot can be left out and the cursor not be moved past the head: every such
    change is rejected with an error, never a panic. *)
Theorem tampering_rejected st qs qs' out : vec_fits (entries qs) →
  verify_queue st qs = Ok out → tampered qs qs' → ∃ e, verify_queue st qs' = Err e ∧ possible_error e.
Proof. apply tampering_is_rejected. Qed.
End Claims.
