(* ===== verification/TrieTests.v ===== *)
(** * nori-program/src/mpt.rs: the tries of the test suite

    The helpers of [storage_proof_tests] and [queue_tests] that build a trie and
    take proofs from it, over the trie builder of alloy-trie as a parameter, and
    the checks of [storage_proof_tests] that depend on a trie's contents alone.
    The suite runs them on two tries; here they hold for every trie. *)
From stdpp Require Import sorting.
From S2P Require Import Prelude Externals StorageLayout Types Instances Merkle RequestLeaf Mpt MptSpec.

(** ** [alloy_trie::HashBuilder] with a [ProofRetainer] *)
Class TrieBuilder `{AlloyTrie} := {
  HashBuilder : Type;
  (** [TrieAccount::default()] *)
  trie_account_default : TrieAccount;
  (** [HashBuilder::default().with_proof_retainer(ProofRetainer::new(targets))] *)
  builder_with_retainer : list Nibbles → HashBuilder;
  (** [add_leaf]: asserts that the key is above the last one *)
  add_leaf : HashBuilder → Nibbles → list byte → option HashBuilder;
  builder_root : HashBuilder → B256;
  (** [take_proof_nodes().matching_nodes_sorted(target)], without the paths *)
  matching_nodes_sorted : HashBuilder → Nibbles → list Bytes
}.

(** A leaf: the hashed key and the value. *)
Abbreviation leaf := (B256 * list byte)%type.

Definition add_leaves `{TrieBuilder} (builder : HashBuilder) (leaves : list leaf) : option HashBuilder :=
  foldl (λ builder '(hashed_key, value), b ← builder; add_leaf b (nibbles_unpack hashed_key) value)
    (Some builder) leaves.

(** [B256] is ordered by its bytes, so by its big-endian value. *)
Definition hashed_below (a b : leaf) : Prop := be_val (fb_bytes (fst a)) < be_val (fb_bytes (fst b)).
Definition hashed_le (a b : leaf) : Prop := be_val (fb_bytes (fst a)) ≤ be_val (fb_bytes (fst b)).
#[global] Instance hashed_le_dec : RelDecision hashed_le.
Proof. intros a b. unfold hashed_le. apply _. Defined.
#[global] Instance hashed_below_dec : RelDecision hashed_below.
Proof. intros a b. unfold hashed_below. apply _. Defined.
#[global] Instance hashed_le_trans : Transitive hashed_le.
Proof. intros a b c. unfold hashed_le. lia. Qed.
#[global] Instance hashed_le_total : Total hashed_le.
Proof. intros a b. unfold hashed_le. lia. Qed.

(** What the tests rely on: leaves in ascending order are accepted, a trie
    without leaves has the empty root, and the nodes retained for a target
    prove the value (or the absence of one) at that target. *)
Class TrieBuilderLaws `{TrieBuilder} := {
  add_leaves_ascending targets leaves : StronglySorted hashed_below leaves →
    is_Some (add_leaves (builder_with_retainer targets) leaves);
  builder_empty_root targets : builder_root (builder_with_retainer targets) = EMPTY_ROOT_HASH;
  retained_nodes_prove targets leaves builder (t : B256) :
    StronglySorted hashed_below leaves → Forall (λ l, snd l ≠ []) leaves →
    add_leaves (builder_with_retainer targets) leaves = Some builder → nibbles_unpack t ∈ targets →
    verify_proof (builder_root builder) (nibbles_unpack t) ((list_to_map leaves : gmap B256 (list byte)) !! t)
      (matching_nodes_sorted builder (nibbles_unpack t)) = inl ()
}.

(** The empty proof shows that the empty trie holds nothing. *)
Class EmptyTrieProof `{AlloyTrie} := empty_trie_proof : ∀ key, verify_proof EMPTY_ROOT_HASH key None [] = inl ().
(** An RLP encoding has at least one byte. *)
Class RlpNonempty `{AlloyTrie} := {
  u256_encode_nonempty v : u256_encode v ≠ [];
  account_encode_nonempty a : account_encode a ≠ []
}.

(** [unwrap()] and [unwrap_err()] on a result that the test drops. *)
Definition accepted {E E' A} (m : res E A) : res E' A := match m with Ok a => Ok a | _ => Panic end.
Definition rejected {E E' A} (m : res E A) : res E' () := match m with Err _ => Ok () | _ => Panic end.

Section Tries.
  Context `{TrieBuilder} `{Keccak}.

(** Sort the leaves and add them to a builder that retains proofs for [targets]. *)
Definition build_trie {E} (targets : list Nibbles) (leaves : list leaf) : res E HashBuilder :=
  unwrap (add_leaves (builder_with_retainer targets) (merge_sort hashed_le leaves)).

(** [storage_proof_tests::trie_with_proof] *)
Definition trie_with_proof {E} (entries : list (list byte * list byte)) (target_preimage : list byte)
    : res E (B256 * list Bytes) :=
  let target_nibbles := nibbles_unpack (keccak256 target_preimage) in
  let leaves := (λ '(preimage, value), (keccak256 preimage, value)) <$> entries in
  builder ← build_trie [target_nibbles] leaves;
  Ok (builder_root builder, matching_nodes_sorted builder target_nibbles).

(** [queue_tests::storage_trie] *)
Definition storage_trie {E} (entries : list (B256 * U256)) (targets : list B256)
    : res E (B256 * list (list Bytes)) :=
  let target_nibbles := (λ key : B256, nibbles_unpack (keccak256 (fb_bytes key))) <$> targets in
  let leaves := (λ '((key, value) : B256 * U256), (keccak256 (fb_bytes key), u256_encode value))
    <$> filter (λ entry : B256 * U256, uint_Z (snd entry) ≠ 0) entries in
  builder ← build_trie target_nibbles leaves;
  Ok (builder_root builder, matching_nodes_sorted builder <$> target_nibbles).

(** [queue_tests::state_trie] *)
Definition state_trie {E} (accounts : list (Address * TrieAccount)) (targets : list Address)
    : res E (B256 * list (list Bytes)) :=
  let target_nibbles := (λ address : Address, nibbles_unpack (keccak256 (fb_bytes address))) <$> targets in
  let leaves := (λ '((address, account) : Address * TrieAccount),
    (keccak256 (fb_bytes address), account_encode account)) <$> accounts in
  builder ← build_trie target_nibbles leaves;
  Ok (builder_root builder, matching_nodes_sorted builder <$> target_nibbles).

(** ** [storage_proof_tests] *)

Definition slot (b : byte) : B256 := repeat_byte 32 b.
Definition address_of (b : byte) : Address := repeat_byte 20 b.

(** A storage trie holding slot 0xaa = 42 and slot 0xbb = 7. *)
Definition populated_storage_trie {E} (target_key : B256) : res E (B256 * list Bytes) :=
  trie_with_proof [(fb_bytes (slot xaa), u256_encode (to_uint 256 42));
                   (fb_bytes (slot xbb), u256_encode (to_uint 256 7))] (fb_bytes target_key).

Definition account_with_storage_root (storage_root : B256) : TrieAccount :=
  MkTrieAccount (to_uint 64 1) (to_uint 256 1000) storage_root (keccak256 [xfe]).

(** A state trie holding accounts 0x11 and 0x22. *)
Definition populated_state_trie {E} (target : Address) : res E (B256 * list Bytes * TrieAccount) :=
  let account := account_with_storage_root (slot x99) in
  let other := trie_account_default in
  '(root, proof) ← trie_with_proof [(fb_bytes (address_of x11), account_encode account);
                                    (fb_bytes (address_of x22), account_encode other)] (fb_bytes target);
  Ok (root, proof, account).

Definition populated_slot_verifies_with_its_true_value : res anyhow () :=
  '(root, proof) ← populated_storage_trie (slot xaa);
  accepted (verify_storage_word root (slot xaa) (to_uint 256 42) proof).
Definition populated_slot_claimed_zero_is_rejected : res anyhow () :=
  '(root, proof) ← populated_storage_trie (slot xaa);
  rejected (verify_storage_word root (slot xaa) (to_uint 256 0) proof).
Definition populated_slot_claimed_wrong_value_is_rejected : res anyhow () :=
  '(root, proof) ← populated_storage_trie (slot xaa);
  rejected (verify_storage_word root (slot xaa) (to_uint 256 43) proof).
Definition empty_slot_claimed_nonzero_is_rejected : res anyhow () :=
  '(root, proof) ← populated_storage_trie (slot xcc);
  rejected (verify_storage_word root (slot xcc) (to_uint 256 1) proof).
Definition every_slot_of_an_empty_trie_is_zero : res anyhow () :=
  _ ← accepted (verify_storage_word EMPTY_ROOT_HASH (slot xaa) (to_uint 256 0) []);
  rejected (verify_storage_word EMPTY_ROOT_HASH (slot xaa) (to_uint 256 1) []).

Definition present_account_verifies_and_returns_its_storage_root : res anyhow () :=
  '(root, proof, account) ← populated_state_trie (address_of x11);
  storage_root ← accepted (verify_account root Target (address_of x11) (Some account) proof);
  if decide (storage_root = slot x99) then Ok () else Panic.
Definition present_account_claimed_absent_is_rejected : res anyhow () :=
  '(root, proof, _) ← populated_state_trie (address_of x11);
  rejected (verify_account root Target (address_of x11) None proof).
Definition present_account_with_doctored_storage_root_is_rejected : res anyhow () :=
  '(root, proof, account) ← populated_state_trie (address_of x11);
  let doctored := MkTrieAccount (nonce account) (balance account) (slot x77) (code_hash account) in
  rejected (verify_account root Target (address_of x11) (Some doctored) proof).
Definition absent_account_verifies_and_yields_the_empty_storage_root : res anyhow () :=
  '(root, proof, _) ← populated_state_trie (address_of x33);
  storage_root ← accepted (verify_account root Target (address_of x33) None proof);
  if decide (storage_root = EMPTY_ROOT_HASH) then Ok () else Panic.
Definition absent_account_claimed_present_is_rejected : res anyhow () :=
  '(root, proof, account) ← populated_state_trie (address_of x33);
  rejected (verify_account root Target (address_of x33) (Some account) proof).
(** An absent target contributes only zero-valued slots. *)
Definition absent_account_admits_no_nonzero_slot : res anyhow () :=
  '(root, proof, _) ← populated_state_trie (address_of x33);
  storage_root ← accepted (verify_account root Target (address_of x33) None proof);
  _ ← accepted (verify_storage_word storage_root (slot xaa) (to_uint 256 0) []);
  rejected (verify_storage_word storage_root (slot xaa) (to_uint 256 1) []).

(** ** Tries rooted at an extension node *)

Definition nibble_prefix {E} (hashed_key : B256) (nibble_count : nat) : res E (list Z) :=
  try_map (λ i : nat,
    b ← index (fb_bytes hashed_key) (i / 2);
    Ok (if decide (i `mod` 2 = 0)%nat then byte_Z b `div` 16 else byte_Z b `mod` 16)) (seq 0 nibble_count).

(** The candidates from [candidate] on; [fuel] is the number that is left. *)
Fixpoint search_shared_prefix {E : Type} (fuel : nat) (candidate : Z) (nibble_count : nat) (seen : gmap (list Z) B256)
    : res E (B256 * B256) :=
  match fuel with
  | O => Panic
  | S fuel =>
    let key := b256_from_u256 (to_uint 256 candidate) in
    prefix ← nibble_prefix (keccak256 (fb_bytes key)) nibble_count;
    match seen !! prefix with
    | Some previous => Ok (previous, key)
    | None => search_shared_prefix fuel (candidate + 1) nibble_count (<[prefix := key]> seen)
    end
  end.
Definition keys_sharing_nibble_prefix {E} (nibble_count : nat) : res E (B256 * B256) :=
  search_shared_prefix (Z.to_nat 1000000) 0 nibble_count ∅.

(** A two-leaf trie whose keys share a nibble prefix. *)
Definition extension_rooted_trie {E} (target_key : B256) : res E (B256 * list Bytes * B256 * B256) :=
  '(first, second) ← keys_sharing_nibble_prefix 4;
  '(root, proof) ← trie_with_proof [(fb_bytes first, u256_encode (to_uint 256 11));
                                    (fb_bytes second, u256_encode (to_uint 256 22))] (fb_bytes target_key);
  Ok (root, proof, first, second).

Definition key_diverging_inside_an_extension_cannot_claim_a_value : res anyhow () :=
  let diverging := slot xdd in
  '(root, proof, _, _) ← extension_rooted_trie diverging;
  rejected (verify_storage_word root diverging (to_uint 256 1) proof).
Definition slot_under_an_extension_verifies_with_its_true_value : res anyhow () :=
  '(first, _) ← keys_sharing_nibble_prefix 4;
  '(root, proof, _, _) ← extension_rooted_trie first;
  _ ← accepted (verify_storage_word root first (to_uint 256 11) proof);
  rejected (verify_storage_word root first (to_uint 256 12) proof).

(** ** What a built trie proves *)

Lemma merge_sort_ascending (leaves : list leaf) : NoDup (fst <$> leaves) →
  StronglySorted hashed_below (merge_sort hashed_le leaves).
Proof.
  intros Hnd. assert (NoDup (fst <$> merge_sort hashed_le leaves)) as Hnd' by (by rewrite merge_sort_Permutation).
  pose proof (StronglySorted_merge_sort hashed_le leaves) as Hs.
  clear Hnd. induction Hs as [|l ls Hs IH Hall]; [constructor|]. rewrite fmap_cons in Hnd'. apply list.NoDup_cons in Hnd' as [Hni Hnd'].
  constructor; [by apply IH|]. rewrite Forall_elem in *. intros x Hx. specialize (Hall x Hx).
  unfold hashed_le, hashed_below in *. assert (fst l ≠ fst x) as Hne.
  { intros Heq. apply Hni. rewrite Heq. by apply list_elem_of_fmap_2. }
  destruct (decide (be_val (fb_bytes (fst l)) = be_val (fb_bytes (fst x)))) as [Heq|]; [|lia].
  by apply fb_be_val_inj in Heq.
Qed.

(** ** The search for a shared prefix ends *)

Definition nibbles_ok (n : nat) (l : list Z) : Prop := length l = n ∧ Forall (λ d, 0 ≤ d < 16) l.
Definition nibbles_val (l : list Z) : Z := foldr (λ d acc, d + 16 * acc) 0 l.
Lemma nibbles_val_bound n l : nibbles_ok n l → 0 ≤ nibbles_val l < 16 ^ Z.of_nat n.
Proof.
  intros [<- Hl]. induction Hl as [|d l Hd _ IH]; [done|]. cbn [length nibbles_val foldr]. fold (nibbles_val l).
  rewrite Nat2Z.inj_succ, Z.pow_succ_r by lia. lia.
Qed.
Lemma nibbles_val_inj n l1 l2 : nibbles_ok n l1 → nibbles_ok n l2 → nibbles_val l1 = nibbles_val l2 → l1 = l2.
Proof.
  intros [<- H1'] [Hl H2']. revert l2 Hl H2'. induction H1' as [|d l Hd _ IH]; intros [|e l2] Hl H2'; try done.
  apply list.Forall_cons in H2' as [He H2']. cbn [nibbles_val foldr]. fold (nibbles_val l) (nibbles_val l2).
  intros Heq. assert (d = e ∧ nibbles_val l = nibbles_val l2) as [-> Hv] by lia.
  f_equal. apply IH; [by injection Hl|done|done].
Qed.
Lemma nibble_prefix_Ok {E} (h : B256) n : (n ≤ 64)%nat → ∃ p, nibble_prefix (E:=E) h n = Ok p ∧ nibbles_ok n p.
Proof.
  intros Hn. destruct (try_map_steps (E:=E) (λ i : nat, b ← index (fb_bytes h) (i / 2);
    Ok (if decide (i `mod` 2 = 0)%nat then byte_Z b `div` 16 else byte_Z b `mod` 16)) (λ _ d, 0 ≤ d < 16) (seq 0 n))
    as (p & Hp & Hd).
  - intros i Hi. apply elem_of_seq in Hi.
    assert (i / 2 < length (fb_bytes h))%nat as Hlt.
    { rewrite length_fb. apply Nat.Div0.div_lt_upper_bound. lia. }
    destruct (lookup_lt_is_Some_2 _ _ Hlt) as [b Hb].
    rewrite (proj2 (index_Ok _ _ _) Hb), Ok_bind. eexists. split; [done|].
    pose proof (byte_Z_range b). case_decide; [|by apply Z.mod_pos_bound].
    split; [apply Z.div_pos; lia|apply Z.div_lt_upper_bound; lia].
  - exists p. split; [done|]. split; [by rewrite <-(list.Forall2_length _ _ _ Hd), length_seq|].
    eapply Forall2_Forall_r; [exact Hd|]. apply Forall_true. auto.
Qed.
(** There are at most [16 ^ n] prefixes of [n] nibbles. *)
Lemma prefixes_bound {A : Type} (n : nat) (m : gmap (list Z) A) : (∀ p, is_Some (m !! p) → nibbles_ok n p) → Z.of_nat (size m) ≤ 16 ^ Z.of_nat n.
Proof.
  intros Hm. assert (∀ p, p ∈ (map_to_list m).*1 → nibbles_ok n p) as Hok.
  { intros p Hp. apply list_elem_of_fmap in Hp as ([p' a] & -> & Hin%elem_of_map_to_list). apply Hm. by exists a. }
  pose proof (NoDup_fst_map_to_list m) as Hnd. rewrite <-length_map_to_list, <-(length_fmap fst).
  generalize dependent ((map_to_list m).*1). intros l Hok Hnd.
  assert (length ((Z.to_nat ∘ nibbles_val) <$> l) ≤ length (seq 0 (Z.to_nat (16 ^ Z.of_nat n))))%nat as Hle.
  { apply submseteq_length, NoDup_submseteq.
    - clear Hm. induction Hnd as [|p l Hp _ IH]; [constructor|]. rewrite fmap_cons. apply list.NoDup_cons. split.
      + intros (q & Heq & Hq)%list_elem_of_fmap. apply Hp. simpl in Heq.
        assert (p = q) as ->; [|done]. assert (q ∈ p :: l) as Hq' by (by right).
        pose proof (Hok p (list_elem_of_here _ _)) as O1. pose proof (Hok q Hq') as O2.
        eapply nibbles_val_inj; [done..|].
        pose proof (nibbles_val_bound _ _ O1). pose proof (nibbles_val_bound _ _ O2). lia.
      + apply IH. intros q Hq. apply Hok. by right.
    - intros x (p & -> & Hp)%list_elem_of_fmap. apply elem_of_seq. simpl.
      pose proof (nibbles_val_bound _ _ (Hok p Hp)). lia. }
  rewrite length_fmap, length_seq in Hle. lia.
Qed.

Lemma search_shared_prefix_Ok {E : Type} (fuel : nat) (candidate : Z) (n : nat) (seen : gmap (list Z) B256) : (n ≤ 64)%nat →
  0 ≤ candidate → candidate + Z.of_nat fuel < 2 ^ 256 → 16 ^ Z.of_nat n < Z.of_nat (size seen) + Z.of_nat fuel →
  (∀ p key, seen !! p = Some key → nibble_prefix (E:=E) (keccak256 (fb_bytes key)) n = Ok p ∧ nibbles_ok n p ∧
    ∃ c, 0 ≤ c < candidate ∧ key = b256_from_u256 (to_uint 256 c)) →
  ∃ a b p, search_shared_prefix (E:=E) fuel candidate n seen = Ok (a, b) ∧ a ≠ b ∧
    nibble_prefix (E:=E) (keccak256 (fb_bytes a)) n = Ok p ∧ nibble_prefix (E:=E) (keccak256 (fb_bytes b)) n = Ok p.
Proof.
  intros Hn. revert candidate seen. induction fuel as [|fuel IH]; intros candidate seen Hc Hmax Hsize Hseen.
  - exfalso. assert (Z.of_nat (size seen) ≤ 16 ^ Z.of_nat n); [|lia]. apply prefixes_bound.
    intros p [key Hk]. by apply (Hseen p key).
  - cbn [search_shared_prefix]. set (key := b256_from_u256 (to_uint 256 candidate)).
    destruct (nibble_prefix_Ok (E:=E) (keccak256 (fb_bytes key)) n Hn) as (p & Hp & Hok). rewrite Hp, Ok_bind.
    destruct (seen !! p) as [previous|] eqn:Hs.
    + destruct (Hseen _ _ Hs) as (Hprev & _ & c & Hc' & ->). exists (b256_from_u256 (to_uint 256 c)), key, p. split_and!; [done| |done|done].
      intros Heq%b256_from_u256_inj%(f_equal uint_Z). rewrite !to_uint_small in Heq; change (2 ^ Z.of_nat 256) with (2 ^ 256); lia.
    + apply IH; [lia|lia| |].
      * rewrite map_size_insert_None by done. lia.
      * intros p' key'. rewrite lookup_insert_Some. intros [[<- <-]|[_ Hk]].
        -- split_and!; [done|done|]. exists candidate. split; [lia|done].
        -- destruct (Hseen _ _ Hk) as (? & ? & c & ? & ->). split_and!; [done|done|]. exists c. split; [lia|done].
Qed.
(** Among a million candidates two share four nibbles. *)
Lemma keys_sharing_nibble_prefix_Ok {E : Type} : ∃ a b p, keys_sharing_nibble_prefix (E:=E) 4 = Ok (a, b) ∧ a ≠ b ∧
  nibble_prefix (E:=E) (keccak256 (fb_bytes a)) 4 = Ok p ∧ nibble_prefix (E:=E) (keccak256 (fb_bytes b)) 4 = Ok p.
Proof.
  apply search_shared_prefix_Ok; [lia|done| | |].
  - rewrite Z2Nat.id by done. by vm_compute.
  - rewrite Z2Nat.id by done. by vm_compute.
  - intros p key. by rewrite lookup_empty.
Qed.

Context `{!TrieBuilderLaws} `{!ProofFunctional}.

Lemma build_trie_Ok {E} (targets : list B256) (leaves : list leaf) :
  NoDup (fst <$> leaves) → Forall (λ l, snd l ≠ []) leaves →
  ∃ builder, build_trie (E:=E) (nibbles_unpack <$> targets) leaves = Ok builder ∧
    (leaves = [] → builder_root builder = EMPTY_ROOT_HASH) ∧
    ∀ t v, t ∈ targets →
      verify_proof (builder_root builder) (nibbles_unpack t) v (matching_nodes_sorted builder (nibbles_unpack t)) = inl ()
      ↔ v = (list_to_map leaves : gmap B256 (list byte)) !! t.
Proof.
  intros Hnd Hne. pose proof (merge_sort_ascending _ Hnd) as Hs.
  destruct (add_leaves_ascending (nibbles_unpack <$> targets) _ Hs) as [builder Hb].
  exists builder. unfold build_trie. rewrite Hb. split_and!; [done| |].
  - intros ->. injection Hb as <-. apply builder_empty_root.
  - intros t v Ht. assert (Permutation leaves (merge_sort hashed_le leaves)) as Hp by (by rewrite merge_sort_Permutation).
    pose proof (retained_nodes_prove (nibbles_unpack <$> targets) _ builder t Hs) as Hv.
    rewrite <-(list_to_map_proper leaves _ Hnd Hp) in Hv.
    assert (verify_proof (builder_root builder) (nibbles_unpack t) ((list_to_map leaves : gmap B256 (list byte)) !! t)
      (matching_nodes_sorted builder (nibbles_unpack t)) = inl ()) as Hv'.
    { apply Hv; [by rewrite <-Hp|done|by apply list_elem_of_fmap_2]. }
    split; [intros Hv2; by eapply verify_proof_functional|by intros ->].
Qed.

(** The values of [entries] by hashed key. *)
Definition hashed_entries (entries : list (list byte * list byte)) : gmap B256 (list byte) :=
  list_to_map ((λ '(preimage, value), (keccak256 preimage, value)) <$> entries).

Lemma hashed_fst (entries : list (list byte * list byte)) :
  fst <$> ((λ '(preimage, value), (keccak256 preimage, value)) <$> entries) = keccak256 <$> entries.*1.
Proof. rewrite <-!list_fmap_compose. apply list_fmap_ext. by intros ? [? ?]. Qed.

(** [trie_with_proof]: one proof for one target, present or not. *)
Lemma trie_with_proof_Ok {E} entries (target : list byte) :
  NoDup (keccak256 <$> entries.*1) → Forall (λ e, snd e ≠ []) entries →
  ∃ root proof, trie_with_proof (E:=E) entries target = Ok (root, proof) ∧
    ∀ v, verify_proof root (nibbles_unpack (keccak256 target)) v proof = inl ()
         ↔ v = hashed_entries entries !! keccak256 target.
Proof.
  intros Hnd Hne. rewrite <-hashed_fst in Hnd.
  destruct (build_trie_Ok (E:=E) [keccak256 target] _ Hnd) as (builder & Hb & _ & Hv).
  - apply Forall_fmap. eapply list.Forall_impl; [exact Hne|]. by intros [? ?].
  - unfold trie_with_proof. cbn [fmap list_fmap] in Hb. rewrite Hb. do 2 eexists. split; [done|].
    intros v. apply Hv. by left.
Qed.

(** The leaves of a storage trie. *)
Definition storage_leaves (entries : list (B256 * U256)) : list leaf :=
  (λ '((key, value) : B256 * U256), (keccak256 (fb_bytes key), u256_encode value))
    <$> filter (λ entry : B256 * U256, uint_Z (snd entry) ≠ 0) entries.
Definition hashed_keys {n} (keys : list (FixedBytes n)) : list B256 := (λ key, keccak256 (fb_bytes key)) <$> keys.

Lemma target_nibbles {n} (targets : list (FixedBytes n)) :
  (λ key, nibbles_unpack (keccak256 (fb_bytes key))) <$> targets = nibbles_unpack <$> hashed_keys targets.
Proof. unfold hashed_keys. by rewrite <-list_fmap_compose. Qed.

Lemma storage_leaves_keys entries : fst <$> storage_leaves entries
  = hashed_keys (filter (λ entry : B256 * U256, uint_Z (snd entry) ≠ 0) entries).*1.
Proof. unfold storage_leaves, hashed_keys. rewrite <-!list_fmap_compose. apply list_fmap_ext. by intros ? [? ?]. Qed.
Lemma storage_leaves_NoDup entries : NoDup (hashed_keys entries.*1) → NoDup (storage_leaves entries).*1.
Proof.
  rewrite storage_leaves_keys. unfold hashed_keys. rewrite <-!list_fmap_compose.
  intros Hnd. eapply sublist_NoDup; [exact Hnd|]. apply fmap_sublist, sublist_filter.
Qed.

(** At a key of [entries] the trie of [storage_trie] holds the word (nothing for zero). *)
Lemma storage_leaves_lookup entries key value :
  NoDup (hashed_keys entries.*1) → (key, value) ∈ entries →
  (list_to_map (storage_leaves entries) : gmap B256 (list byte)) !! keccak256 (fb_bytes key)
  = expected_storage_value value.
Proof.
  intros Hnd Hin. unfold expected_storage_value. case_decide as Hz.
  - apply not_elem_of_list_to_map_1. rewrite storage_leaves_keys. unfold hashed_keys.
    intros (k & Hk & Hf)%list_elem_of_fmap. apply list_elem_of_fmap in Hf as ([k' v] & -> & [Hv Hin']%list_elem_of_filter).
    simpl in *. apply Hv. destruct (list_elem_of_lookup_1 _ _ Hin) as [i Hi].
    destruct (list_elem_of_lookup_1 _ _ Hin') as [j Hj].
    assert (i = j) as ->; [|congruence].
    eapply (NoDup_lookup _ _ _ (keccak256 (fb_bytes key)) Hnd); unfold hashed_keys;
      rewrite !list_lookup_fmap; [by rewrite Hi|by rewrite Hj; simpl; rewrite <-Hk].
  - apply elem_of_list_to_map_1; [by apply storage_leaves_NoDup|].
    unfold storage_leaves. apply list_elem_of_fmap. exists (key, value). split; [done|].
    apply list_elem_of_filter. done.
Qed.

(** [storage_trie] with every entry as a target: each proof shows its word. *)
Lemma storage_trie_Ok `{!RlpNonempty} {E} entries : NoDup (hashed_keys entries.*1) →
  ∃ root proofs, storage_trie (E:=E) entries entries.*1 = Ok (root, proofs) ∧
    (Forall (λ entry, uint_Z (snd entry) = 0) entries → root = EMPTY_ROOT_HASH) ∧
    Forall2 (λ '(key, value) proof, ∀ v,
      verify_proof root (nibbles_unpack (keccak256 (fb_bytes key))) v proof = inl () ↔ v = expected_storage_value value)
      entries proofs.
Proof.
  intros Hnd. destruct (build_trie_Ok (E:=E) (hashed_keys entries.*1) (storage_leaves entries)) as (b & Hb & He & Hv).
  - by apply storage_leaves_NoDup.
  - apply Forall_fmap, Forall_true. intros [k v]. apply u256_encode_nonempty.
  - exists (builder_root b), (matching_nodes_sorted b <$> (nibbles_unpack <$> hashed_keys entries.*1)). split_and!.
    + unfold storage_trie. fold (storage_leaves entries). by rewrite target_nibbles, Hb.
    + intros Hz. apply He. unfold storage_leaves. clear -Hz.
      induction Hz as [|e es He _ IH]; [done|]. rewrite filter_cons, decide_False by (intros Hne; by apply Hne). done.
    + unfold hashed_keys. rewrite <-!list_fmap_compose. apply Forall2_fmap_r, Forall_Forall2_diag, Forall_elem.
      intros [k value] Hin v. simpl. rewrite Hv.
      * by rewrite (storage_leaves_lookup _ _ _ Hnd Hin).
      * unfold hashed_keys. apply list_elem_of_fmap. exists k. split; [done|].
        apply list_elem_of_fmap. by exists (k, value).
Qed.

(** The accounts of a state trie by hashed address. *)
Definition hashed_accounts (accounts : list (Address * TrieAccount)) : gmap B256 (list byte) :=
  list_to_map ((λ '((address, account) : Address * TrieAccount),
    (keccak256 (fb_bytes address), account_encode account)) <$> accounts).

Lemma state_trie_Ok `{!RlpNonempty} {E} accounts targets : NoDup (hashed_keys accounts.*1) →
  ∃ root proofs, state_trie (E:=E) accounts targets = Ok (root, proofs) ∧
    Forall2 (λ (target : Address) proof, ∀ v,
      verify_proof root (nibbles_unpack (keccak256 (fb_bytes target))) v proof = inl ()
      ↔ v = hashed_accounts accounts !! keccak256 (fb_bytes target))
      targets proofs.
Proof.
  intros Hnd. set (leaves := (λ '((address, account) : Address * TrieAccount),
    (keccak256 (fb_bytes address), account_encode account)) <$> accounts).
  destruct (build_trie_Ok (E:=E) (hashed_keys targets) leaves) as (b & Hb & _ & Hv).
  - replace leaves.*1 with (hashed_keys accounts.*1); [done|]. unfold hashed_keys, leaves.
    rewrite <-!list_fmap_compose. apply list_fmap_ext. by intros ? [? ?].
  - apply Forall_fmap, Forall_true. intros [k v]. apply account_encode_nonempty.
  - exists (builder_root b), (matching_nodes_sorted b <$> (nibbles_unpack <$> hashed_keys targets)). split.
    + unfold state_trie. fold leaves. by rewrite target_nibbles, Hb.
    + unfold hashed_keys. rewrite <-!list_fmap_compose. apply Forall2_fmap_r, Forall_Forall2_diag, Forall_elem.
      intros t Hin v. simpl. rewrite Hv; [done|]. unfold hashed_keys. by apply (list_elem_of_fmap_2 (λ key : Address, keccak256 (fb_bytes key))).
Qed.
Lemma hashed_accounts_lookup accounts (address : Address) acct : NoDup (hashed_keys accounts.*1) →
  (address, acct) ∈ accounts → hashed_accounts accounts !! keccak256 (fb_bytes address) = Some (account_encode acct).
Proof.
  intros Hnd Hin. apply elem_of_list_to_map_1.
  - eapply eq_ind; [exact Hnd|]. unfold hashed_keys. rewrite <-!list_fmap_compose. apply list_fmap_ext. by intros ? [? ?].
  - apply list_elem_of_fmap. by exists (address, acct).
Qed.
Lemma hashed_accounts_absent accounts (address : Address) : keccak256 (fb_bytes address) ∉ hashed_keys accounts.*1 →
  hashed_accounts accounts !! keccak256 (fb_bytes address) = None.
Proof.
  intros Hni. apply not_elem_of_list_to_map_1. intros Hin. apply Hni. eapply eq_ind; [exact Hin|].
  unfold hashed_keys. rewrite <-!list_fmap_compose. apply list_fmap_ext. by intros ? [? ?].
Qed.

(** ** The checks of [storage_proof_tests] pass *)
Section Suite.
Context `{!RlpInjective, !RlpNonempty, !EmptyTrieProof}.

Lemma storage_word_accepted {E} root (key : B256) value proof :
  verify_proof root (nibbles_unpack (keccak256 (fb_bytes key))) (expected_storage_value value) proof = inl () →
  accepted (E':=E) (verify_storage_word root key value proof) = Ok ().
Proof. unfold verify_storage_word. by intros ->. Qed.
Lemma storage_word_rejected {E} root (key : B256) value shown proof :
  verify_proof root (nibbles_unpack (keccak256 (fb_bytes key))) shown proof = inl () →
  shown ≠ expected_storage_value value →
  rejected (E':=E) (verify_storage_word root key value proof) = Ok ().
Proof.
  intros Hs Hne. unfold verify_storage_word.
  destruct (verify_proof _ _ (expected_storage_value value) _) as [[]|] eqn:Hv; [|done].
  destruct Hne. by eapply verify_proof_functional.
Qed.
Lemma account_accepted {E} root (address : Address) acct proof :
  verify_proof root (nibbles_unpack (keccak256 (fb_bytes address))) (account_encode <$> acct) proof = inl () →
  accepted (E':=E) (verify_account root Target address acct proof)
  = Ok (match acct with Some a => storage_root a | None => EMPTY_ROOT_HASH end).
Proof. unfold verify_account. by intros ->. Qed.
Lemma account_rejected {E} root (address : Address) acct shown proof :
  verify_proof root (nibbles_unpack (keccak256 (fb_bytes address))) shown proof = inl () →
  shown ≠ account_encode <$> acct →
  rejected (E':=E) (verify_account root Target address acct proof) = Ok ().
Proof.
  intros Hs Hne. unfold verify_account.
  destruct (verify_proof _ _ (account_encode <$> acct) _) as [[]|] eqn:Hv; [|done].
  destruct Hne. by eapply verify_proof_functional.
Qed.

Lemma populated_storage_trie_Ok {E} (key : B256) : NoDup (hashed_keys [slot xaa; slot xbb]) →
  ∃ root proof, populated_storage_trie (E:=E) key = Ok (root, proof) ∧
    verify_proof root (nibbles_unpack (keccak256 (fb_bytes key)))
      (hashed_entries [(fb_bytes (slot xaa), u256_encode (to_uint 256 42));
                       (fb_bytes (slot xbb), u256_encode (to_uint 256 7))] !! keccak256 (fb_bytes key)) proof = inl ().
Proof.
  intros Hnd. destruct (trie_with_proof_Ok (E:=E) [(fb_bytes (slot xaa), u256_encode (to_uint 256 42));
    (fb_bytes (slot xbb), u256_encode (to_uint 256 7))] (fb_bytes key)) as (root & proof & Ht & Hv); [done| |].
  - repeat constructor; apply u256_encode_nonempty.
  - exists root, proof. split; [done|]. by apply Hv.
Qed.
Lemma populated_state_trie_Ok {E} (address : Address) : NoDup (hashed_keys [address_of x11; address_of x22]) →
  ∃ root proof, populated_state_trie (E:=E) address = Ok (root, proof, account_with_storage_root (slot x99)) ∧
    verify_proof root (nibbles_unpack (keccak256 (fb_bytes address)))
      (hashed_entries [(fb_bytes (address_of x11), account_encode (account_with_storage_root (slot x99)));
                       (fb_bytes (address_of x22), account_encode trie_account_default)]
        !! keccak256 (fb_bytes address)) proof = inl ().
Proof.
  intros Hnd. destruct (trie_with_proof_Ok (E:=E) [(fb_bytes (address_of x11), account_encode (account_with_storage_root (slot x99)));
    (fb_bytes (address_of x22), account_encode trie_account_default)] (fb_bytes address)) as (root & proof & Ht & Hv); [done| |].
  - repeat constructor; apply account_encode_nonempty.
  - exists root, proof. unfold populated_state_trie. rewrite Ht. split; [done|]. by apply Hv.
Qed.
Lemma hashed_entries_hit p v es : hashed_entries ((p, v) :: es) !! keccak256 p = Some v.
Proof. unfold hashed_entries. simpl. by rewrite lookup_insert_eq. Qed.
Lemma hashed_entries_miss es p : keccak256 p ∉ keccak256 <$> es.*1 → hashed_entries es !! keccak256 p = None.
Proof. intros Hni. apply not_elem_of_list_to_map_1. by rewrite hashed_fst. Qed.

(** The hashes of the keys that the tests use differ. *)
Definition test_keys_distinct : Prop :=
  NoDup (hashed_keys [slot xaa; slot xbb; slot xcc]) ∧ NoDup (hashed_keys [address_of x11; address_of x22; address_of x33]).

Definition storage_proof_suite : list (res anyhow ()) :=
  [populated_slot_verifies_with_its_true_value; populated_slot_claimed_zero_is_rejected;
   populated_slot_claimed_wrong_value_is_rejected; empty_slot_claimed_nonzero_is_rejected;
   every_slot_of_an_empty_trie_is_zero; present_account_verifies_and_returns_its_storage_root;
   present_account_claimed_absent_is_rejected; present_account_with_doctored_storage_root_is_rejected;
   absent_account_verifies_and_yields_the_empty_storage_root; absent_account_claimed_present_is_rejected;
   absent_account_admits_no_nonzero_slot].

Lemma third_distinct {n} (a b c : FixedBytes n) : NoDup (hashed_keys [a; b; c]) →
  NoDup (hashed_keys [a; b]) ∧ keccak256 (fb_bytes c) ∉ hashed_keys [a; b].
Proof.
  change (hashed_keys [a; b; c]) with (hashed_keys [a; b] ++ [keccak256 (fb_bytes c)]).
  intros (Hn & Hd & _)%list.NoDup_app. split; [done|]. intros Hin. eapply Hd; [exact Hin|by left].
Qed.

Lemma populated_slot {E} : test_keys_distinct → ∃ root proof,
  populated_storage_trie (E:=E) (slot xaa) = Ok (root, proof) ∧
  verify_proof root (nibbles_unpack (keccak256 (fb_bytes (slot xaa)))) (expected_storage_value (to_uint 256 42)) proof = inl ().
Proof.
  intros [[Hs Hn]%third_distinct _]. destruct (populated_storage_trie_Ok (E:=E) (slot xaa)) as (root & proof & Ht & Hv); [done|].
  exists root, proof. split; [done|]. by rewrite hashed_entries_hit in Hv.
Qed.
Lemma empty_slot {E} : test_keys_distinct → ∃ root proof,
  populated_storage_trie (E:=E) (slot xcc) = Ok (root, proof) ∧
  verify_proof root (nibbles_unpack (keccak256 (fb_bytes (slot xcc)))) None proof = inl ().
Proof.
  intros [[Hs Hn]%third_distinct _]. destruct (populated_storage_trie_Ok (E:=E) (slot xcc)) as (root & proof & Ht & Hv); [done|].
  exists root, proof. split; [done|]. by rewrite hashed_entries_miss in Hv.
Qed.
Lemma present_account {E} : test_keys_distinct → ∃ root proof,
  populated_state_trie (E:=E) (address_of x11) = Ok (root, proof, account_with_storage_root (slot x99)) ∧
  verify_proof root (nibbles_unpack (keccak256 (fb_bytes (address_of x11))))
    (account_encode <$> Some (account_with_storage_root (slot x99))) proof = inl ().
Proof.
  intros [_ [Hs Hn]%third_distinct]. destruct (populated_state_trie_Ok (E:=E) (address_of x11)) as (root & proof & Ht & Hv); [done|].
  exists root, proof. split; [done|]. by rewrite hashed_entries_hit in Hv.
Qed.
Lemma absent_account {E} : test_keys_distinct → ∃ root proof,
  populated_state_trie (E:=E) (address_of x33) = Ok (root, proof, account_with_storage_root (slot x99)) ∧
  verify_proof root (nibbles_unpack (keccak256 (fb_bytes (address_of x33)))) (account_encode <$> None) proof = inl ().
Proof.
  intros [_ [Hs Hn]%third_distinct]. destruct (populated_state_trie_Ok (E:=E) (address_of x33)) as (root & proof & Ht & Hv); [done|].
  exists root, proof. split; [done|]. by rewrite hashed_entries_miss in Hv.
Qed.
Lemma expected_ne (a b : U256) : uint_Z a ≠ b → expected_storage_value a ≠ expected_storage_value b.
Proof. intros Hne Heq. by apply expected_storage_value_inj in Heq as ->. Qed.
Lemma expected_zero : expected_storage_value (to_uint 256 0) = None.
Proof. done. Qed.

(** Every check of the list passes, unless two of the six test keys have one hash. *)
Lemma storage_proof_suite_passes : test_keys_distinct → Forall (λ test, test = Ok ()) storage_proof_suite.
Proof.
  intros Hd. destruct (populated_slot (E:=anyhow) Hd) as (r1 & p1 & T1 & V1), (empty_slot (E:=anyhow) Hd) as (r2 & p2 & T2 & V2),
    (present_account (E:=anyhow) Hd) as (r3 & p3 & T3 & V3), (absent_account (E:=anyhow) Hd) as (r4 & p4 & T4 & V4).
  assert (verify_proof EMPTY_ROOT_HASH (nibbles_unpack (keccak256 (fb_bytes (slot xaa))))
    (expected_storage_value (to_uint 256 0)) [] = inl ()) as V5 by apply empty_trie_proof.
  assert (∀ a b : U256, uint_Z a ≠ b → expected_storage_value a ≠ expected_storage_value b) as Hne by apply expected_ne.
  assert (∀ a : U256, uint_Z a ≠ 0 → None ≠ expected_storage_value a) as Hne0.
  { intros a Ha. rewrite <-expected_zero. apply expected_ne. cbn. auto. }
  repeat constructor.
  - unfold populated_slot_verifies_with_its_true_value. rewrite T1, Ok_bind. by apply storage_word_accepted.
  - unfold populated_slot_claimed_zero_is_rejected. rewrite T1, Ok_bind. eapply storage_word_rejected; [exact V1|by apply Hne].
  - unfold populated_slot_claimed_wrong_value_is_rejected. rewrite T1, Ok_bind. eapply storage_word_rejected; [exact V1|by apply Hne].
  - unfold empty_slot_claimed_nonzero_is_rejected. rewrite T2, Ok_bind. eapply storage_word_rejected; [exact V2|by apply Hne0].
  - unfold every_slot_of_an_empty_trie_is_zero. rewrite storage_word_accepted, Ok_bind by done.
    eapply storage_word_rejected; [exact V5|by apply Hne].
  - unfold present_account_verifies_and_returns_its_storage_root. rewrite T3, Ok_bind, (account_accepted _ _ (Some _)), Ok_bind by done.
    by rewrite decide_True.
  - unfold present_account_claimed_absent_is_rejected. rewrite T3, Ok_bind. by eapply account_rejected; [exact V3|].
  - unfold present_account_with_doctored_storage_root_is_rejected. rewrite T3, Ok_bind.
    eapply account_rejected; [exact V3|]. intros [= Heq%account_encode_inj]. by apply (f_equal storage_root) in Heq.
  - unfold absent_account_verifies_and_yields_the_empty_storage_root.
    rewrite T4, Ok_bind, (account_accepted _ _ None), Ok_bind by done. by rewrite decide_True.
  - unfold absent_account_claimed_present_is_rejected. rewrite T4, Ok_bind. by eapply account_rejected; [exact V4|].
  - unfold absent_account_admits_no_nonzero_slot. rewrite T4, Ok_bind, (account_accepted _ _ None), Ok_bind by done.
    rewrite storage_word_accepted, Ok_bind by done. eapply storage_word_rejected; [exact V5|by apply Hne].
Qed.

Lemma extension_rooted_trie_Ok {E} (key first second : B256) :
  keys_sharing_nibble_prefix (E:=E) 4 = Ok (first, second) → NoDup (hashed_keys [first; second]) →
  ∃ root proof, extension_rooted_trie (E:=E) key = Ok (root, proof, first, second) ∧
    verify_proof root (nibbles_unpack (keccak256 (fb_bytes key)))
      (hashed_entries [(fb_bytes first, u256_encode (to_uint 256 11)); (fb_bytes second, u256_encode (to_uint 256 22))]
        !! keccak256 (fb_bytes key)) proof = inl ().
Proof.
  intros Hk Hnd. destruct (trie_with_proof_Ok (E:=E) [(fb_bytes first, u256_encode (to_uint 256 11));
    (fb_bytes second, u256_encode (to_uint 256 22))] (fb_bytes key)) as (root & proof & Ht & Hv); [done| |].
  - repeat constructor; apply u256_encode_nonempty.
  - exists root, proof. unfold extension_rooted_trie. rewrite Hk, Ok_bind, Ht. split; [done|]. by apply Hv.
Qed.

(** The checks under an extension node pass too, unless two of the three keys have one hash. *)
Lemma extension_suite_passes first second :
  keys_sharing_nibble_prefix (E:=anyhow) 4 = Ok (first, second) → NoDup (hashed_keys [first; second; slot xdd]) →
  slot_under_an_extension_verifies_with_its_true_value = Ok () ∧
  key_diverging_inside_an_extension_cannot_claim_a_value = Ok ().
Proof.
  intros Hk [Hnd Hdd]%third_distinct.
  destruct (extension_rooted_trie_Ok first _ _ Hk Hnd) as (r1 & p1 & T1 & V1).
  destruct (extension_rooted_trie_Ok (slot xdd) _ _ Hk Hnd) as (r2 & p2 & T2 & V2).
  rewrite hashed_entries_hit in V1. rewrite hashed_entries_miss in V2 by done. split.
  - unfold slot_under_an_extension_verifies_with_its_true_value. rewrite Hk, Ok_bind, T1, Ok_bind.
    rewrite storage_word_accepted, Ok_bind by done. eapply storage_word_rejected; [exact V1|].
    assert (expected_storage_value (to_uint 256 11) ≠ expected_storage_value (to_uint 256 12)) by by apply expected_ne. done.
  - unfold key_diverging_inside_an_extension_cannot_claim_a_value. rewrite T2, Ok_bind.
    by eapply storage_word_rejected; [exact V2|].
Qed.
End Suite.
End Tries.

(** ** A builder that keeps its leaves, for concrete tries *)
Definition sorted_add (b : list leaf) (k : B256) (v : list byte) : option (list leaf) :=
  match b !! (length b - 1)%nat with
  | Some l => if decide (hashed_below l (k, v)) then Some (b ++ [(k, v)]) else None
  | None => Some [(k, v)]
  end.
Lemma sorted_add_leaves (b leaves : list leaf) : StronglySorted hashed_below (b ++ leaves) →
  foldl (λ builder '(k, v), b ← builder; sorted_add b k v) (Some b) leaves = Some (b ++ leaves).
Proof.
  revert b. induction leaves as [|[k v] leaves IH]; intros b Hs; [by rewrite app_nil_r|].
  assert (sorted_add b k v = Some (b ++ [(k, v)])) as Ha.
  { unfold sorted_add. destruct (b !! (length b - 1)%nat) as [l|] eqn:Hl.
    - rewrite decide_True; [done|]. eapply (StronglySorted_app_1_elem_of hashed_below b); [exact Hs| |by left].
      by eapply list_elem_of_lookup_2.
    - apply lookup_ge_None in Hl. destruct b; [done|simpl in Hl; lia]. }
  pose proof (IH (b ++ [(k, v)])) as IH'. rewrite <-app_assoc in IH'. specialize (IH' Hs).
  cbn [foldl]. etrans; [|exact IH']. f_equal. exact Ha.
Qed.

(** The encodings of the table tries are not empty. *)
Lemma table_nonempty : @RlpNonempty (table_trie []).
Proof.
  split.
  - intros v Hv. pose proof (length_be_bytes 32 v) as Hl. change (be_bytes 32 v = []) in Hv. by rewrite Hv in Hl.
  - intros a Ha. pose proof (length_be_bytes 8 (nonce a)) as Hl.
    assert (∃ l, be_bytes 8 (nonce a) ++ l = []) as [l Hn] by (eexists; exact Ha).
    apply app_nil in Hn as [Hn _]. by rewrite Hn in Hl.
Qed.
