(* ===== verification/QueueTests.v ===== *)
(** * nori-program/src/mpt.rs: the queue fixtures of the test suite

    The module [queue_tests]: [fixture] assembles a queue, its state and the
    witness an honest host supplies, and the tests change one thing of it.  The
    suite runs on at most three requests; here every fixture is accepted and
    every change rejected.  The tries are those of TrieTests. *)
From S2P Require Import Prelude Externals StorageLayout Types Instances Merkle MerkleSpec RequestLeaf Mpt MptSpec MptClaims TrieTests.

Definition QUEUE_ADDRESS : Address := repeat_byte 20 x0e.

Record Request := MkRequest {
  rq_target : Address;
  rq_slot_key : B256;
  rq_collection_keys_count : u8;
  rq_collection_keys : B256 * B256;
  (** Value held at [slot_key]. Zero means the slot is empty. *)
  rq_value : U256;
  (** When false the target account is absent from the state trie. *)
  rq_target_exists : bool
}.

Definition request (target_byte slot_byte : byte) (value : u64) : Request :=
  MkRequest (repeat_byte 20 target_byte) (repeat_byte 32 slot_byte) (to_uint 8 1)
    (repeat_byte 32 slot_byte, fb_zero 32) (ucast 256 value) true.

(** [slice.try_into().unwrap()] for an array of [n]. *)
Fixpoint vec_of_list {E A} (n : nat) (l : list A) : res E (vec A n) :=
  match n, l with
  | O, [] => Ok [#]
  | S n, x :: l => v ← vec_of_list n l; Ok (x ::: v)
  | _, _ => Panic
  end.

(** The five words of a request in the queue's storage. *)
Definition request_words `{Keccak} (index : nat) (r : Request) : list (B256 * U256) :=
  let base := mapping_entry_location (ucast 256 (to_uint 64 (Z.of_nat index))) QUEUE_REQUESTS_STORAGE_INDEX in
  [(base, word_of_address (rq_target r));
   (struct_word_slot base (to_uint 8 1), word_of_b256 (rq_slot_key r));
   (struct_word_slot base (to_uint 8 2), ucast 256 (rq_collection_keys_count r));
   (struct_word_slot base (to_uint 8 3), word_of_b256 (fst (rq_collection_keys r)));
   (struct_word_slot base (to_uint 8 4), word_of_b256 (snd (rq_collection_keys r)))].

(** Queue storage: head at slot 0, then five words per entry. *)
Definition queue_words `{Keccak} (requests : list Request) : list (B256 * U256) :=
  (storage_slot_of_index QUEUE_HEAD_STORAGE_INDEX, ucast 256 (len_u64 requests))
    :: mjoin (imap request_words requests).

(** The distinct targets, in the order of their first request. *)
Definition distinct_targets (batch : list Request) : list Address :=
  foldl (λ addresses r, if decide (rq_target r ∈ addresses) then addresses else addresses ++ [rq_target r]) [] batch.

(** The distinct slots that are requested of [address], with the value of the first request. *)
Definition target_slot_values (batch : list Request) (address : Address) : list (B256 * U256) :=
  foldl (λ slots r, if decide (rq_slot_key r ∈ slots.*1) then slots else slots ++ [(rq_slot_key r, rq_value r)]) []
    (filter (λ r, rq_target r = address) batch).

(** [batch.iter().find(p).map(f).unwrap_or(d)] *)
Definition find_map {A B} (p : A → Prop) `{∀ x, Decision (p x)} (f : A → B) (d : B) (l : list A) : B :=
  default d ((λ '(_, x), f x) <$> list_find p l).

Definition target_exists (batch : list Request) (address : Address) : bool :=
  find_map (λ r, rq_target r = address) rq_target_exists true batch.
Definition requested_value (batch : list Request) (address : Address) (key : B256) : U256 :=
  find_map (λ r, rq_target r = address ∧ rq_slot_key r = key) rq_value (to_uint 256 0) batch.

(** An element of [target_tries]: address, root, slot keys, proofs, exists. *)
Record TargetTrie := MkTargetTrie {
  tt_address : Address;
  tt_root : B256;
  tt_slot_keys : list B256;
  tt_proofs : list (list Bytes);
  tt_exists : bool
}.

Section Fixture.
  Context `{TrieBuilder} `{Keccak}.

(** [TrieAccount { storage_root, ..TrieAccount::default() }] *)
Definition default_account (storage_root : B256) : TrieAccount :=
  MkTrieAccount (nonce trie_account_default) (balance trie_account_default) storage_root
    (code_hash trie_account_default).

(** The loop over the distinct targets. *)
Definition target_trie {E} (batch : list Request)
    (tries : list (Address * TrieAccount) * list TargetTrie) (address : Address)
    : res E (list (Address * TrieAccount) * list TargetTrie) :=
  let '(accounts, target_tries) := tries in
  let slots := target_slot_values batch address in
  let slot_keys := slots.*1 in
  '(root, proofs) ← storage_trie slots slot_keys;
  let exists_ := target_exists batch address in
  let accounts := if exists_ then accounts ++ [(address, default_account root)] else accounts in
  Ok (accounts, target_tries ++ [MkTargetTrie address root slot_keys proofs exists_]).

(** The witness of entry [index]: proof 0 is head, the entry's proofs are the next five. *)
Definition fixture_entry {E} (queue_proofs : list (list Bytes)) (entry : nat * Request) : res E QueueEntryProof :=
  let '(index, r) := entry in
  let first := (1 + index * QUEUE_ENTRY_WORDS)%nat in
  word_proofs ← slice queue_proofs first (first + QUEUE_ENTRY_WORDS);
  word_proofs ← vec_of_list QUEUE_ENTRY_WORDS word_proofs;
  Ok (MkQueueEntryProof (rq_target r) (rq_slot_key r) (rq_collection_keys_count r) (rq_collection_keys r) word_proofs).

Definition fixture_target {E} (batch : list Request) (account_proofs : list (list Bytes))
    (target : nat * TargetTrie) : res E TargetStorageProof :=
  let '(position, t) := target in
  account_mpt_proof ← index account_proofs (position + 1);
  Ok (MkTargetStorageProof (tt_address t)
        (if tt_exists t then Some (default_account (tt_root t)) else None) account_mpt_proof
        ((λ '(key, proof), MkTargetSlotProof key (requested_value batch (tt_address t) key) proof)
          <$> zip (tt_slot_keys t) (tt_proofs t))).

(** The state and a queue whose entries are [requests], with [head] equal to the
    request count, and a witness covering [cursor, head). *)
Definition fixture {E} (requests : list Request) (cursor : u64) : res E (B256 * QueueStorage) :=
  let queue_entries := queue_words requests in
  '(queue_storage_root, queue_proofs) ← storage_trie queue_entries queue_entries.*1;
  let batch := drop (Z.to_nat cursor) requests in
  let target_addresses := distinct_targets batch in
  '(accounts, target_tries) ← try_fold (target_trie batch)
    ([(QUEUE_ADDRESS, default_account queue_storage_root)], []) target_addresses;
  '(execution_state_root, account_proofs) ← state_trie accounts (QUEUE_ADDRESS :: target_addresses);
  entries ← try_map (fixture_entry queue_proofs) (drop (Z.to_nat cursor) (enumerate requests));
  targets ← try_map (fixture_target batch account_proofs) (enumerate target_tries);
  queue_account_proof ← index account_proofs 0;
  head_proof ← index queue_proofs 0;
  Ok (execution_state_root,
      MkQueueStorage QUEUE_ADDRESS (default_account queue_storage_root) queue_account_proof
        (len_u64 requests) head_proof cursor entries targets).
End Fixture.

(** ** The loops that collect distinct targets and slots *)

Lemma find_map_app {A B} (p : A → Prop) `{∀ x, Decision (p x)} (f : A → B) d l1 l2 :
  find_map p f d (l1 ++ l2) = find_map p f (find_map p f d l2) l1.
Proof.
  unfold find_map. induction l1 as [|x l1 IH]; [done|]. simpl. case_decide; [done|].
  destruct (list_find p (l1 ++ l2)) as [[? ?]|], (list_find p l1) as [[? ?]|]; simpl in *; done.
Qed.
Lemma find_map_cons {A B} (p : A → Prop) `{∀ x, Decision (p x)} (f : A → B) d x l :
  find_map p f d (x :: l) = if decide (p x) then f x else find_map p f d l.
Proof. unfold find_map. simpl. case_decide; [done|]. by destruct (list_find p l) as [[? ?]|]. Qed.
Lemma find_map_none {A B} (p : A → Prop) `{∀ x, Decision (p x)} (f : A → B) d l :
  (∀ x, x ∈ l → ¬ p x) → find_map p f d l = d.
Proof.
  induction l as [|x l IH]; intros Hl; [done|]. rewrite find_map_cons, decide_False by (apply Hl; by left).
  apply IH. intros y Hy. apply Hl. by right.
Qed.
(** Searching for two conditions is searching for one among what satisfies the other. *)
Lemma find_map_filter {A B} (p q : A → Prop) `{∀ x, Decision (p x), ∀ x, Decision (q x)} (f : A → B) d l :
  find_map (λ x, p x ∧ q x) f d l = find_map q f d (filter p l).
Proof.
  induction l as [|x l IH]; [done|]. rewrite find_map_cons, filter_cons, IH.
  destruct (decide (p x)) as [Hp|Hp].
  - rewrite find_map_cons. destruct (decide (q x)) as [Hq|Hq].
    + by rewrite decide_True.
    + rewrite decide_False; [done|]. by intros [_ ?].
  - rewrite decide_False; [done|]. by intros [? _].
Qed.

Lemma distinct_targets_spec batch :
  NoDup (distinct_targets batch) ∧ ∀ a, a ∈ distinct_targets batch ↔ ∃ r, r ∈ batch ∧ rq_target r = a.
Proof.
  induction batch as [|r batch [Hnd Hin]] using rev_ind.
  - split; [constructor|]. intros a. split; [intros Ha; by apply elem_of_nil in Ha|intros (r & Hr & _); by apply elem_of_nil in Hr].
  - unfold distinct_targets in *. rewrite foldl_app. cbn [foldl]. case_decide as Hr; split; try done.
    + intros a. rewrite Hin. setoid_rewrite elem_of_app. split; [naive_solver|].
      intros (r' & [?| ->%list_elem_of_singleton] & <-); [naive_solver|by apply Hin].
    + apply list.NoDup_app. split_and!; [done| |apply NoDup_singleton]. intros a Ha Heq%list_elem_of_singleton. by subst.
    + intros a. rewrite elem_of_app, Hin, list_elem_of_singleton. setoid_rewrite elem_of_app.
      setoid_rewrite list_elem_of_singleton. naive_solver.
Qed.

(** The slots of a target are distinct, complete, and carry the value of the first request. *)
Lemma target_slot_values_spec batch address : let slots := target_slot_values batch address in
  NoDup slots.*1 ∧
  (∀ key value, (key, value) ∈ slots → value = requested_value batch address key) ∧
  (∀ r, r ∈ batch → rq_target r = address → rq_slot_key r ∈ slots.*1) ∧
  (∀ key, key ∈ slots.*1 → ∃ r, r ∈ batch ∧ rq_target r = address ∧ rq_slot_key r = key).
Proof.
  intros slots. unfold requested_value. unfold target_slot_values in slots.
  assert (NoDup slots.*1 ∧
    (∀ key value, (key, value) ∈ slots → ∀ d,
      find_map (λ r, rq_slot_key r = key) rq_value d (filter (λ r, rq_target r = address) batch) = value) ∧
    (∀ key, key ∈ slots.*1 ↔ ∃ r, r ∈ filter (λ r, rq_target r = address) batch ∧ rq_slot_key r = key))
    as (Hnd & Hv & Hk).
  { subst slots. generalize (filter (λ r, rq_target r = address) batch) as l. clear batch.
    induction l as [|r l (Hnd & Hv & Hk)] using rev_ind.
    - split_and!; [constructor|intros ? ? Hin; by apply elem_of_nil in Hin|].
      intros key. split; [intros Hin; by apply elem_of_nil in Hin|intros (r & Hr & _); by apply elem_of_nil in Hr].
    - rewrite foldl_app. cbn [foldl]. set (slots := foldl _ [] l) in *. case_decide as Hr; split_and!; try done.
      + intros key value Hin d. rewrite find_map_app. by apply Hv.
      + intros key. rewrite Hk. setoid_rewrite elem_of_app. split; [naive_solver|].
        intros (r' & [?| ->%list_elem_of_singleton] & <-); [naive_solver|by apply Hk].
      + rewrite fmap_app. apply list.NoDup_app. split_and!; [done| |apply NoDup_singleton].
        intros a Ha Heq%list_elem_of_singleton. by subst.
      + intros key value [Hin|[= -> ->]%list_elem_of_singleton]%elem_of_app d; rewrite find_map_app; [by apply Hv|].
        rewrite find_map_none, find_map_cons, decide_True; [done..|].
        intros r' Hr' Heq. apply Hr, Hk. by exists r'.
      + intros key. rewrite fmap_app, elem_of_app, Hk. cbn [fmap list_fmap fst]. rewrite list_elem_of_singleton.
        setoid_rewrite elem_of_app. setoid_rewrite list_elem_of_singleton. naive_solver. }
  split_and!; [done| | |].
  - intros key value Hin. rewrite find_map_filter. by rewrite (Hv _ _ Hin).
  - intros r Hr Ht. apply Hk. exists r. split; [by apply list_elem_of_filter|done].
  - intros key (r & [? ?]%list_elem_of_filter & <-)%Hk. by exists r.
Qed.

(** Segment [i] of a concatenation of lists of one length. *)
Lemma mjoin_segment {A} n (ls : list (list A)) i l : Forall (λ l, length l = n) ls → ls !! i = Some l →
  take n (drop (i * n) (mjoin ls)) = l.
Proof.
  intros Hall. revert i. induction Hall as [|l' ls Hl _ IH]; intros i Hi; [done|].
  change (mjoin (l' :: ls)) with (l' ++ mjoin ls). destruct i as [|i]; simpl in Hi.
  - injection Hi as ->. rewrite drop_0. by rewrite <-Hl, take_app_length.
  - replace (S i * n)%nat with (n + i * n)%nat by lia. rewrite <-drop_drop.
    replace (drop n (l' ++ mjoin ls)) with (mjoin ls) by (by rewrite <-Hl, drop_app_length). by apply IH.
Qed.

Lemma vec_of_list_Ok {E A} (l : list A) n : length l = n → ∃ v, vec_of_list (E:=E) n l = Ok v ∧ vec_to_list v = l.
Proof.
  revert n. induction l as [|x l IH]; intros n <-; simpl; [by exists [#]|].
  destruct (IH _ eq_refl) as (v & Hv & Hl). rewrite Hv. exists (x ::: v). simpl. by rewrite Hl.
Qed.

Section FixtureSpec.
Context `{TrieBuilder} `{Keccak} `{!TrieBuilderLaws} `{!ProofFunctional} `{!RlpNonempty}.

(** [proof] shows the word [value] at [key], and nothing else. *)
Definition shows_word (root : B256) (word : B256 * U256) (proof : list Bytes) : Prop :=
  ∀ v, verify_proof root (trie_path (fst word)) v proof = inl () ↔ v = expected_storage_value (snd word).

Lemma storage_trie_shows {E} entries : NoDup (hashed_keys entries.*1) →
  ∃ root proofs, storage_trie (E:=E) entries entries.*1 = Ok (root, proofs) ∧
    (Forall (λ entry, uint_Z (snd entry) = 0) entries → root = EMPTY_ROOT_HASH) ∧
    Forall2 (shows_word root) entries proofs.
Proof.
  intros Hnd. destruct (storage_trie_Ok (E:=E) entries Hnd) as (root & proofs & Ht & He & Hv).
  exists root, proofs. split_and!; [done..|]. eapply list.Forall2_impl; [exact Hv|]. by intros [key value] proof.
Qed.

Lemma queue_words_segment requests index r : requests !! index = Some r →
  take QUEUE_ENTRY_WORDS (drop (1 + index * QUEUE_ENTRY_WORDS) (queue_words requests)) = request_words index r.
Proof.
  intros Hr. unfold queue_words. cbn [drop Nat.add]. apply mjoin_segment.
  - apply Forall_lookup_2. intros i l. rewrite list_lookup_imap. by intros (r' & _ & ->)%fmap_Some.
  - by rewrite list_lookup_imap, Hr.
Qed.
Lemma length_queue_words requests : length (queue_words requests) = (1 + length requests * QUEUE_ENTRY_WORDS)%nat.
Proof.
  unfold queue_words. cbn [length]. f_equal.
  assert (∀ (f : nat → Request → list (B256 * U256)), (∀ i r, length (f i r) = QUEUE_ENTRY_WORDS) →
    length (mjoin (imap f requests)) = (length requests * QUEUE_ENTRY_WORDS)%nat) as Hl; [|by apply Hl].
  induction requests as [|r requests IH]; intros f Hf; [done|].
  rewrite imap_cons. change (mjoin (?x :: ?y)) with (x ++ mjoin y). rewrite length_app, Hf, IH; [done|].
  intros. apply Hf.
Qed.

(** The witness that [fixture] makes for the request at [index]. *)
Definition entry_shows (qroot : B256) (index_request : nat * Request) (entry : QueueEntryProof) : Prop :=
  let '(index, r) := index_request in
  qe_target entry = rq_target r ∧ qe_slot_key entry = rq_slot_key r ∧
  qe_collection_keys_count entry = rq_collection_keys_count r ∧ qe_collection_keys entry = rq_collection_keys r ∧
  Forall2 (shows_word qroot) (request_words index r) (qe_word_proofs entry).

Lemma fixture_entry_Ok {E} qroot proofs requests index r :
  Forall2 (shows_word qroot) (queue_words requests) proofs → requests !! index = Some r →
  ∃ entry, fixture_entry (E:=E) proofs (index, r) = Ok entry ∧ entry_shows qroot (index, r) entry.
Proof.
  intros Hp Hr. pose proof (list.Forall2_length _ _ _ Hp) as Hl. rewrite length_queue_words in Hl.
  pose proof (lookup_lt_Some _ _ _ Hr) as Hlt.
  assert (Forall2 (shows_word qroot) (take QUEUE_ENTRY_WORDS (drop (1 + index * QUEUE_ENTRY_WORDS) (queue_words requests)))
    (take QUEUE_ENTRY_WORDS (drop (1 + index * QUEUE_ENTRY_WORDS) proofs))) as Hseg by by apply Forall2_take, Forall2_drop.
  rewrite (queue_words_segment _ _ _ Hr) in Hseg. unfold fixture_entry.
  set (first := (1 + index * QUEUE_ENTRY_WORDS)%nat) in *.
  rewrite slice_in by (unfold first, QUEUE_ENTRY_WORDS in *; lia). rewrite Ok_bind, Nat.add_comm, Nat.add_sub.
  destruct (vec_of_list_Ok (E:=E) (take QUEUE_ENTRY_WORDS (drop first proofs)) QUEUE_ENTRY_WORDS) as (v & Hv & Hvl).
  { by rewrite <-(list.Forall2_length _ _ _ Hseg). }
  rewrite Hv, Ok_bind. eexists. split; [done|]. cbn. rewrite Hvl. by split_and!.
Qed.

Lemma fixture_entry_verified qroot (cursor : u64) offset r entry :
  cursor + Z.of_nat offset < 2 ^ 64 →
  entry_shows qroot (Z.to_nat cursor + offset, r)%nat entry → verify_entry qroot cursor offset entry = Ok ().
Proof.
  intros Hlt (Ht & Hk & Hc & Hks & Hp). pose proof (uint_range cursor) as [Hcur _].
  apply verify_entry_Ok. rewrite entry_index_add by done.
  replace (entry_words _ entry) with (request_words (Z.to_nat cursor + offset) r).
  - apply Forall_lookup_2. intros i [[key value] proof] Hz.
    apply lookup_zip_Some in Hz as [Hw Hpr]. destruct (Forall2_lookup_lr _ _ _ _ _ _ Hp Hw Hpr (expected_storage_value value)) as [_ Hv].
    by apply Hv.
  - unfold entry_words, request_words. rewrite Ht, Hk, Hc, Hks. rewrite Nat2Z.inj_add, Z2Nat.id by done. done.
Qed.

(** ** The tries of the targets *)

Definition live_accounts (tries : list TargetTrie) : list (Address * TrieAccount) :=
  (λ t, (tt_address t, default_account (tt_root t))) <$> filter (λ t, tt_exists t = true) tries.

(** A trie of the fixture shows the requested slots of its target. *)
Record trie_shows (batch : list Request) (t : TargetTrie) : Prop := {
  tr_keys : tt_slot_keys t = (target_slot_values batch (tt_address t)).*1;
  tr_exists : tt_exists t = target_exists batch (tt_address t);
  tr_empty : Forall (λ slot, uint_Z (snd slot) = 0) (target_slot_values batch (tt_address t)) → tt_root t = EMPTY_ROOT_HASH;
  tr_words : Forall2 (shows_word (tt_root t)) (target_slot_values batch (tt_address t)) (tt_proofs t)
}.

Lemma target_tries_Ok {E} batch accounts addresses :
  (∀ address, address ∈ addresses → NoDup (hashed_keys (target_slot_values batch address).*1)) →
  ∃ tries, try_fold (E:=E) (target_trie batch) (accounts, []) addresses = Ok (accounts ++ live_accounts tries, tries) ∧
    tt_address <$> tries = addresses ∧ Forall (trie_shows batch) tries.
Proof.
  intros Hnd.
  destruct (try_fold_inv (E:=E) (λ done st, fst st = accounts ++ live_accounts (snd st) ∧
    tt_address <$> snd st = done ∧ Forall (trie_shows batch) (snd st)) (target_trie batch) (accounts, []) addresses)
    as ([accounts' tries] & Hf & Ha & Ht & Hs).
  - simpl. split_and!; [by rewrite app_nil_r|done|constructor].
  - intros dn address rest [accs tries] Hl (Ha & Ht & Hs). simpl in Ha, Ht, Hs.
    destruct (storage_trie_shows (E:=E) (target_slot_values batch address)) as (root & proofs & Hst & He & Hw).
    { apply Hnd. rewrite Hl. apply elem_of_app. right. by left. }
    unfold target_trie. rewrite Hst, Ok_bind. eexists. split; [done|]. cbn [fst snd]. split_and!.
    + unfold live_accounts in *. rewrite list.filter_app, fmap_app, Ha.
      destruct (target_exists batch address) eqn:Hex; cbn [filter list_filter tt_exists].
      * rewrite decide_True by done. by rewrite <-app_assoc.
      * rewrite decide_False by done. by rewrite app_nil_r.
    + rewrite fmap_app, Ht. done.
    + apply list.Forall_app. split; [done|]. constructor; [by split|constructor].
  - simpl in *. subst accounts'. by exists tries.
Qed.

Lemma live_accounts_NoDup qroot tries :
  NoDup (hashed_keys (QUEUE_ADDRESS :: (tt_address <$> tries))) →
  NoDup (hashed_keys ((QUEUE_ADDRESS, default_account qroot) :: live_accounts tries).*1).
Proof.
  intros Hnd. eapply sublist_NoDup; [exact Hnd|]. unfold hashed_keys, live_accounts.
  apply fmap_sublist. rewrite fmap_cons. cbn [fst]. apply sublist_skip.
  rewrite <-list_fmap_compose. apply (fmap_sublist tt_address), sublist_filter.
Qed.
(** What the state trie holds at the address of a target. *)
Lemma target_account_shown qroot tries t :
  NoDup (hashed_keys (QUEUE_ADDRESS :: (tt_address <$> tries))) → t ∈ tries →
  hashed_accounts ((QUEUE_ADDRESS, default_account qroot) :: live_accounts tries) !! keccak256 (fb_bytes (tt_address t))
  = account_encode <$> (if tt_exists t then Some (default_account (tt_root t)) else None).
Proof.
  intros Hnd Ht. destruct (tt_exists t) eqn:Hex.
  - apply hashed_accounts_lookup; [by apply live_accounts_NoDup|]. right.
    apply list_elem_of_fmap. exists t. split; [done|]. by apply list_elem_of_filter.
  - apply hashed_accounts_absent. unfold hashed_keys in *. rewrite !fmap_cons in *.
    apply list.NoDup_cons in Hnd as [Hq Hnd].
    intros [Hin|Hin]%elem_of_cons.
    + cbn [fst] in Hin. apply Hq. rewrite <-Hin. apply (list_elem_of_fmap_2 (λ key : Address, keccak256 (fb_bytes key))).
      by apply list_elem_of_fmap_2.
    + unfold live_accounts in Hin. rewrite <-!list_fmap_compose in *.
      apply list_elem_of_fmap in Hin as (t' & Heq & [Hex' Ht']%list_elem_of_filter). simpl in Heq.
      apply list_elem_of_lookup in Ht as [i Hi]. apply list_elem_of_lookup in Ht' as [j Hj].
      assert (i = j) as ->; [|congruence].
      eapply (NoDup_lookup _ _ _ _ Hnd); rewrite list_lookup_fmap; [by rewrite Hi|rewrite Hj; simpl; by rewrite <-Heq].
Qed.

(** The witness that [fixture] makes for a target. *)
Record target_shows (batch : list Request) (st : B256) (t : TargetTrie) (target : TargetStorageProof) : Prop := {
  tg_address : ts_target_address target = tt_address t;
  tg_account : ts_account target = if tt_exists t then Some (default_account (tt_root t)) else None;
  tg_proof : verify_proof st (trie_path (tt_address t)) (account_encode <$> ts_account target) (ts_account_mpt_proof target) = inl ();
  tg_slots : ts_slots target = (λ '(key, proof), MkTargetSlotProof key (requested_value batch (tt_address t) key) proof)
    <$> zip (tt_slot_keys t) (tt_proofs t)
}.

Lemma fixture_targets_Ok {E} batch qroot st tries account_proofs :
  NoDup (hashed_keys (QUEUE_ADDRESS :: (tt_address <$> tries))) →
  Forall2 (λ (target : Address) proof, ∀ v, verify_proof st (trie_path target) v proof = inl ()
      ↔ v = hashed_accounts ((QUEUE_ADDRESS, default_account qroot) :: live_accounts tries) !! keccak256 (fb_bytes target))
    (QUEUE_ADDRESS :: (tt_address <$> tries)) account_proofs →
  ∃ targets, try_map (fixture_target (E:=E) batch account_proofs) (enumerate tries) = Ok targets ∧
    Forall2 (target_shows batch st) tries targets.
Proof.
  intros Hnd Hp.
  destruct (try_map_steps (E:=E) (fixture_target batch account_proofs) (λ it, target_shows batch st (snd it)) (enumerate tries))
    as (targets & Ht & Hs).
  - intros [position t] Hin%elem_of_enumerate.
    assert ((QUEUE_ADDRESS :: (tt_address <$> tries)) !! S position = Some (tt_address t)) as Ha
      by (simpl; by rewrite list_lookup_fmap, Hin).
    destruct (Forall2_lookup_l _ _ _ _ _ Hp Ha) as (proof & Hproof & Hv).
    unfold fixture_target. rewrite Nat.add_1_r, (proj2 (index_Ok _ _ _) Hproof), Ok_bind. eexists. split; [done|].
    split; try done. cbn [ts_account ts_account_mpt_proof snd].
    apply Hv. symmetry. apply target_account_shown; [done|]. by eapply list_elem_of_lookup_2.
  - exists targets. split; [done|].
    assert (tries = snd <$> enumerate tries) as Heq.
    { unfold enumerate. rewrite fmap_imap. apply list_eq. intros i. rewrite list_lookup_imap. by destruct (tries !! i). }
    rewrite Heq at 1. by apply Forall2_fmap_l.
Qed.

(** The slot proofs of a target, by key. *)
Lemma target_slots_shown batch st t target : trie_shows batch t → target_shows batch st t target →
  NoDup (tsp_key <$> ts_slots target) ∧
  ∀ key, key ∈ (target_slot_values batch (tt_address t)).*1 → ∃ proof,
    MkTargetSlotProof key (requested_value batch (tt_address t) key) proof ∈ ts_slots target ∧
    shows_word (tt_root t) (key, requested_value batch (tt_address t) key) proof.
Proof.
  intros Hts Htg. rewrite (tg_slots _ _ _ _ Htg), (tr_keys _ _ Hts).
  destruct (target_slot_values_spec batch (tt_address t)) as (Hnd & Hval & _).
  pose proof (tr_words _ _ Hts) as Hw. pose proof (list.Forall2_length _ _ _ Hw) as Hlen. split.
  - rewrite <-list_fmap_compose.
    replace (tsp_key ∘ _ <$> zip _ _) with ((target_slot_values batch (tt_address t)).*1); [done|].
    rewrite <-(fst_zip _ (tt_proofs t)) at 1 by (rewrite length_fmap; lia).
    apply list_fmap_ext. by intros ? [? ?].
  - intros key Hkey. apply list_elem_of_fmap in Hkey as ([k value] & -> & Hin). cbn [fst].
    pose proof (Hval _ _ Hin) as <-. apply list_elem_of_lookup in Hin as [i Hi].
    destruct (Forall2_lookup_l _ _ _ _ _ Hw Hi) as (proof & Hproof & Hshow).
    exists proof. split; [|done]. apply list_elem_of_fmap. exists (k, proof). split.
    + f_equal. apply Hval. by eapply list_elem_of_lookup_2.
    + apply (list_elem_of_lookup_2 _ i). apply lookup_zip_Some. by rewrite list_lookup_fmap, Hi.
Qed.

(** Targets with distinct addresses and verified accounts fill the two maps. *)
Lemma verify_targets_Ok st targets : NoDup (ts_target_address <$> targets) →
  Forall (λ target, verify_proof st (trie_path (ts_target_address target)) (account_encode <$> ts_account target)
    (ts_account_mpt_proof target) = inl () ∧ NoDup (tsp_key <$> ts_slots target)) targets →
  ∃ maps, try_fold (verify_target st) (∅, ∅) targets = Ok maps ∧
    ∀ target, target ∈ targets →
      fst maps !! ts_target_address target = Some (account_storage (ts_account target)) ∧
      ∀ slot, slot ∈ ts_slots target → snd maps !! (ts_target_address target, tsp_key slot) = Some slot.
Proof.
  intros Hnd Hall.
  apply (try_fold_inv (λ done maps, ∀ target, target ∈ done →
    fst maps !! ts_target_address target = Some (account_storage (ts_account target)) ∧
    ∀ slot, slot ∈ ts_slots target → snd maps !! (ts_target_address target, tsp_key slot) = Some slot)).
  - intros target Hin. by apply elem_of_nil in Hin.
  - intros dn target rest [roots slots] Hl Hdn. rewrite Hl in Hall, Hnd.
    apply list.Forall_app in Hall as [_ [[Hv Hk] _]%list.Forall_cons].
    unfold verify_target. rewrite (proj2 (verify_account_Ok _ _ _ _ _ _) (conj Hv eq_refl)), Ok_bind.
    eexists. split; [done|]. cbn [fst snd] in *.
    assert (∀ t, t ∈ dn → ts_target_address t ≠ ts_target_address target) as Hdiff.
    { intros t Ht Heq. rewrite fmap_app in Hnd. apply list.NoDup_app in Hnd as (_ & Hd & _).
      eapply (Hd (ts_target_address t)); [by apply list_elem_of_fmap_2|]. rewrite Heq. by left. }
    assert (∀ l (m : gmap (Address * B256) TargetSlotProof) (a : Address) key, a ≠ ts_target_address target →
      foldl (λ m slot, <[(ts_target_address target, tsp_key slot) := slot]> m) m l !! (a, key) = m !! (a, key)) as Hother.
    { induction l as [|s l IH]; intros m a key Ha; [done|]. simpl. rewrite IH by done.
      apply lookup_insert_ne. congruence. }
    assert (∀ l (m : gmap (Address * B256) TargetSlotProof) key, key ∉ tsp_key <$> l →
      foldl (λ m slot, <[(ts_target_address target, tsp_key slot) := slot]> m) m l !! (ts_target_address target, key)
      = m !! (ts_target_address target, key)) as Hkeep.
    { induction l as [|s l IH]; intros m key Hkey; [done|]. simpl. rewrite fmap_cons, not_elem_of_cons in Hkey.
      rewrite IH by naive_solver. apply lookup_insert_ne. naive_solver. }
    intros t [Ht| ->%list_elem_of_singleton]%elem_of_app.
    + destruct (Hdn t Ht) as [H1' H2']. pose proof (Hdiff t Ht) as Hne. split.
      * by rewrite lookup_insert_ne.
      * intros slot Hslot. rewrite Hother by done. by apply H2'.
    + split; [by rewrite lookup_insert_eq|]. clear Hdn. revert slots. induction (ts_slots target) as [|s l IH]; intros m slot Hslot.
      * by apply elem_of_nil in Hslot.
      * rewrite fmap_cons in Hk. apply list.NoDup_cons in Hk as [Hs Hk]. simpl.
        apply elem_of_cons in Hslot as [->|Hslot]; [|by apply IH].
        rewrite Hkeep by done. apply lookup_insert_eq.
Qed.

(** The hashed keys of each of the fixture's tries differ (in particular the
    queue itself is not requested). *)
Record keys_distinct (requests : list Request) (batch : list Request) : Prop := {
  kd_queue : NoDup (hashed_keys (queue_words requests).*1);
  kd_accounts : NoDup (hashed_keys (QUEUE_ADDRESS :: distinct_targets batch));
  kd_slots address : address ∈ distinct_targets batch → NoDup (hashed_keys (target_slot_values batch address).*1)
}.

(** What [fixture] returns: every proof of the witness shows its claim. *)
Record fixture_shows (requests : list Request) (cursor : u64) (st : B256) (qs : QueueStorage) : Prop := {
  fx_address : proof_request_queue_address qs = QUEUE_ADDRESS;
  fx_cursor : input_cursor qs = cursor;
  fx_head : head qs = len_u64 requests;
  fx_account : verify_proof st (trie_path QUEUE_ADDRESS) (Some (account_encode (proof_request_queue_account qs)))
    (proof_request_queue_account_mpt_proof qs) = inl ();
  fx_head_proof : shows_word (storage_root (proof_request_queue_account qs))
    (storage_slot_of_index QUEUE_HEAD_STORAGE_INDEX, ucast 256 (head qs)) (head_mpt_proof qs);
  fx_entries : Forall2 (entry_shows (storage_root (proof_request_queue_account qs)))
    (drop (Z.to_nat cursor) (enumerate requests)) (entries qs);
  fx_targets : ∃ tries, tt_address <$> tries = distinct_targets (drop (Z.to_nat cursor) requests) ∧
    Forall (trie_shows (drop (Z.to_nat cursor) requests)) tries ∧
    Forall2 (target_shows (drop (Z.to_nat cursor) requests) st) tries (targets qs)
}.

(** Building a fixture never panics. *)
Lemma fixture_Ok {E} requests (cursor : u64) : keys_distinct requests (drop (Z.to_nat cursor) requests) →
  ∃ st qs, fixture (E:=E) requests cursor = Ok (st, qs) ∧ fixture_shows requests cursor st qs.
Proof.
  intros [Hq Ha Hs]. destruct (storage_trie_shows (E:=E) _ Hq) as (qroot & qproofs & Hqt & _ & Hqw).
  unfold fixture. rewrite Hqt, Ok_bind.
  destruct (target_tries_Ok (E:=E) (drop (Z.to_nat cursor) requests) [(QUEUE_ADDRESS, default_account qroot)]
    (distinct_targets (drop (Z.to_nat cursor) requests)) Hs) as (tries & Hf & Haddr & Hts).
  rewrite Hf, Ok_bind. rewrite <-Haddr in *.
  destruct (state_trie_Ok (E:=E) ([(QUEUE_ADDRESS, default_account qroot)] ++ live_accounts tries)
    (QUEUE_ADDRESS :: (tt_address <$> tries))) as (st & aproofs & Hst & Hap); [by apply live_accounts_NoDup|].
  rewrite Hst, Ok_bind.
  destruct (try_map_steps (E:=E) (fixture_entry qproofs) (entry_shows qroot) (drop (Z.to_nat cursor) (enumerate requests)))
    as (es & Hes & Hshow).
  { intros [i r] [j Hj]%list_elem_of_lookup. rewrite lookup_drop in Hj. eapply fixture_entry_Ok; [done|].
    apply elem_of_enumerate. by eapply list_elem_of_lookup_2. }
  rewrite Hes, Ok_bind.
  destruct (fixture_targets_Ok (E:=E) (drop (Z.to_nat cursor) requests) qroot st tries aproofs Ha Hap) as (ts & Htm & Htg).
  rewrite Htm, Ok_bind.
  inversion Hap as [|a aproof addrs aps Hap0 _ Ea Ep]; subst. inversion Hqw as [|w hproof ws hps Hqw0 _ Ew Eh]; subst.
  eexists _, _. split; [done|]. split; try done.
  - apply Hap0. symmetry. apply hashed_accounts_lookup; [by apply live_accounts_NoDup|by left].
  - by exists tries.
Qed.

(** The storage of a target that is said to be absent holds nothing that is requested. *)
Definition absent_targets_empty (batch : list Request) : Prop := ∀ r, r ∈ batch →
  target_exists batch (rq_target r) = false → uint_Z (requested_value batch (rq_target r) (rq_slot_key r)) = 0.

(** The requests of a batch, each with the value that its slot holds. *)
Definition fixture_requests (batch : list Request) : list QueuedRequest :=
  (λ r, MkQueued (rq_slot_key r) (MkVerifiedRequest (rq_target r) (rq_collection_keys_count r)
    (rq_collection_keys r) (requested_value batch (rq_target r) (rq_slot_key r)))) <$> batch.

(** The root under which the slots of a target are verified. *)
Lemma absent_root batch t : trie_shows batch t → absent_targets_empty batch →
  account_storage (if tt_exists t then Some (default_account (tt_root t)) else None) = tt_root t.
Proof.
  intros Ht Habs. destruct (tt_exists t) eqn:Hex; [done|]. simpl. symmetry. apply (tr_empty _ _ Ht).
  destruct (target_slot_values_spec batch (tt_address t)) as (_ & Hval & _ & Hkey).
  apply Forall_elem. intros [key value] Hin. simpl. pose proof (Hval _ _ Hin) as ->.
  destruct (Hkey key) as (r & Hr & Heq & <-).
  { apply list_elem_of_fmap. by exists (key, requested_value batch (tt_address t) key). }
  rewrite <-Heq. apply Habs; [done|]. by rewrite Heq, <-(tr_exists _ _ Ht).
Qed.

(** The maps that the targets of a fixture fill serve every request of the batch. *)
Lemma fixture_maps batch st tries targets : tt_address <$> tries = distinct_targets batch →
  Forall (trie_shows batch) tries → Forall2 (target_shows batch st) tries targets → absent_targets_empty batch →
  ∃ maps, try_fold (verify_target st) (∅, ∅) targets = Ok maps ∧
    ∀ r, r ∈ batch → ∃ root slot, fst maps !! rq_target r = Some root ∧
      snd maps !! (rq_target r, rq_slot_key r) = Some slot ∧
      tsp_value slot = requested_value batch (rq_target r) (rq_slot_key r) ∧
      verify_proof root (trie_path (rq_slot_key r)) (expected_storage_value (tsp_value slot)) (tsp_mpt_proof slot) = inl ().
Proof.
  intros Haddr Hts Htg Habs. destruct (distinct_targets_spec batch) as [Hnd Hin].
  destruct (verify_targets_Ok st targets) as (maps & Hf & Hmaps).
  - replace (ts_target_address <$> targets) with (tt_address <$> tries); [by rewrite Haddr|].
    clear -Htg. induction Htg as [|t tg ts tgs Hs _ IH]; [done|]. rewrite !fmap_cons, IH. by rewrite (tg_address _ _ _ _ Hs).
  - apply Forall_lookup_2. intros i tg Hi. destruct (Forall2_lookup_r _ _ _ _ _ Htg Hi) as (t & Hti & Hshow).
    rewrite (tg_address _ _ _ _ Hshow). split; [apply Hshow|].
    eapply target_slots_shown; [|done]. by apply (Forall_lookup_1 _ _ _ _ Hts Hti).
  - exists maps. split; [done|]. intros r Hr.
    assert (rq_target r ∈ tt_address <$> tries) as Ht by (rewrite Haddr; apply Hin; by exists r).
    apply list_elem_of_fmap in Ht as (t & Hta & Ht). apply list_elem_of_lookup in Ht as [i Hi].
    destruct (Forall2_lookup_l _ _ _ _ _ Htg Hi) as (tg & Htgi & Hshow).
    pose proof (Forall_lookup_1 _ _ _ _ Hts Hi) as Htrie.
    destruct (Hmaps tg) as [Hroot Hslots]; [by eapply list_elem_of_lookup_2|].
    rewrite (tg_address _ _ _ _ Hshow), (tg_account _ _ _ _ Hshow), (absent_root _ _ Htrie Habs), <-Hta in *.
    destruct (target_slots_shown _ _ _ _ Htrie Hshow) as [_ Hkeys]. rewrite <-Hta in Hkeys.
    destruct (Hkeys (rq_slot_key r)) as (proof & Hslot & Hw); [by apply target_slot_values_spec|].
    exists (tt_root t). eexists. split_and!; [done|by apply (Hslots _ Hslot)|done|]. by apply Hw.
Qed.
End FixtureSpec.

Section Accepted.
Context `{TrieBuilder} `{Keccak} `{PoseidonSponge} `{!TrieBuilderLaws} `{!ProofFunctional} `{!RlpNonempty}.
Context `{!PastaFieldLaws} `{!MerkleZerosChain}.

Lemma length_fixture_entries requests (cursor : u64) st qs : fixture_shows requests cursor st qs →
  length (entries qs) = (length requests - Z.to_nat cursor)%nat.
Proof.
  intros Hfx. rewrite <-(list.Forall2_length _ _ _ (fx_entries _ _ _ _ Hfx)).
  by rewrite length_drop, length_enumerate.
Qed.

(** Every check passes on a fixture. *)
Lemma fixture_accepts requests (cursor : u64) st qs : fixture_shows requests cursor st qs →
  cursor ≤ Z.of_nat (length requests) < 2 ^ 63 → Z.of_nat (length requests) - cursor ≤ MAX_BATCH →
  absent_targets_empty (drop (Z.to_nat cursor) requests) →
  ∃ maps leaves, accepts st qs maps leaves ∧
    batch_requests maps (entries qs) = fixture_requests (drop (Z.to_nat cursor) requests).
Proof.
  intros Hfx Hcur Hbatch Habs. pose proof Hfx as [Ea Ec Eh Hacc Hhead Hes (tries & Haddr & Hts & Htg)].
  pose proof (uint_range cursor) as [Hpos _].
  destruct (fixture_maps _ _ _ _ Haddr Hts Htg Habs) as (maps & Hf & Hfound).
  assert (uint_Z (head qs) = Z.of_nat (length requests)) as Hh by (rewrite Eh; apply len_u64_fits, Hcur).
  (* entry [i] of the witness is request [cursor + i] *)
  assert (∀ i e, entries qs !! i = Some e → ∃ r, requests !! (Z.to_nat cursor + i)%nat = Some r ∧
    r ∈ drop (Z.to_nat cursor) requests ∧
    entry_shows (storage_root (proof_request_queue_account qs)) ((Z.to_nat cursor + i)%nat, r) e) as Hentry.
  { intros i e Hi. destruct (Forall2_lookup_r _ _ _ _ _ Hes Hi) as ([j r] & Hj & Hshow).
    rewrite lookup_drop in Hj. unfold enumerate in Hj. rewrite list_lookup_imap in Hj.
    apply fmap_Some in Hj as (r' & Hr & [= -> ->]). exists r'. split_and!; [done| |done].
    apply (list_elem_of_lookup_2 _ i). by rewrite lookup_drop. }
  destruct (try_map_steps (entry_leaf maps) (λ e leaf, entry_leaf maps e = Ok leaf) (entries qs)) as (leaves & Hleaves & _).
  { intros e [i Hi]%list_elem_of_lookup. destruct (Hentry i e Hi) as (r & _ & Hr & (Ht & Hk & Hc & Hks & _)).
    destruct (Hfound r Hr) as (root & slot & Hroot & Hslot & _ & Hv).
    destruct (hash_request_leaf_Ok (qe_target e) (qe_collection_keys_count e) (fst (qe_collection_keys e))
      (snd (qe_collection_keys e)) (tsp_value slot)) as (fs & _ & _ & Hh').
    exists (poseidon_hash fs). assert (entry_leaf maps e = Ok (poseidon_hash fs)); [|done].
    apply entry_leaf_Ok. exists root, slot. rewrite Ht, Hk in *. done. }
  exists maps, leaves. split; [split|].
  - by rewrite Ea.
  - by apply Hhead.
  - rewrite Ec, Hh. lia.
  - rewrite (length_fixture_entries _ _ _ _ Hfx), Ec, Hh. lia.
  - intros i e Hi. destruct (Hentry i e Hi) as (r & Hr & _ & Hshow). rewrite Ec.
    apply lookup_lt_Some in Hr. eapply fixture_entry_verified; [|done]. lia.
  - done.
  - done.
  - unfold batch_requests, fixture_requests. apply list_eq. intros i. rewrite !list_lookup_fmap.
    destruct (entries qs !! i) as [e|] eqn:Hi; simpl.
    + destruct (Hentry i e Hi) as (r & Hr & Hin & (Ht & Hk & Hc & Hks & _)). rewrite lookup_drop, Hr. simpl. f_equal.
      destruct (Hfound r Hin) as (root & slot & _ & Hslot & Hval & _).
      unfold queued_of, entry_value. by rewrite Ht, Hk, Hc, Hks, Hslot, Hval.
    + apply lookup_ge_None in Hi. rewrite (length_fixture_entries _ _ _ _ Hfx) in Hi.
      rewrite lookup_ge_None_2; [done|]. by rewrite length_drop.
Qed.

(** A fixture that the builders accept and the batch limit admits. *)
Record fixture_ok (requests : list Request) (cursor : u64) : Prop := {
  fo_keys : keys_distinct requests (drop (Z.to_nat cursor) requests);
  fo_cursor : cursor ≤ Z.of_nat (length requests) < 2 ^ 63;
  fo_batch : Z.of_nat (length requests) - cursor ≤ MAX_BATCH;
  fo_absent : absent_targets_empty (drop (Z.to_nat cursor) requests)
}.

Lemma fixture_run {E} requests (cursor : u64) : fixture_ok requests cursor →
  ∃ st qs leaves (root : B256), fixture (E:=E) requests cursor = Ok (st, qs) ∧ fixture_shows requests cursor st qs ∧
    vec_fits (entries qs) ∧
    try_map request_leaf (fixture_requests (drop (Z.to_nat cursor) requests)) = Ok leaves ∧
    verify_queue st qs = Ok (len_u64 requests, root) ∧ fb_bytes root = fp_to_bytes (requests_root leaves).
Proof.
  intros [Hk Hc Hb Ha]. destruct (fixture_Ok (E:=E) requests cursor Hk) as (st & qs & Hf & Hs).
  destruct (fixture_accepts _ _ _ _ Hs Hc Hb Ha) as (maps & leaves & Hacc & Hreqs).
  destruct (fp_to_bytes_slice (E:=anyhow) (requests_root leaves)) as (root & _ & Hroot).
  pose proof (length_fixture_entries _ _ _ _ Hs) as Hlen. pose proof (uint_range cursor) as [Hpos _].
  assert (vec_fits (entries qs)) as Hfits by (unfold vec_fits; lia).
  exists st, qs, leaves, root. split_and!; [done|done|done| | |done].
  - rewrite <-Hreqs. by eapply batch_leaves, acc_leaves.
  - apply verify_queue_Ok_iff; [done|]. exists maps, leaves. split_and!; [done| |done].
    rewrite len_u64_fits by apply Hc. rewrite (fx_cursor _ _ _ _ Hs), Hlen. lia.
Qed.

(** A cursor past the head, or a backlog over the batch limit: the fixture is
    built, and its witness rejected as exactly that. *)
Lemma fixture_rejected requests (cursor : u64) st qs : fixture_shows requests cursor st qs →
  Z.of_nat (length requests) < 2 ^ 63 →
  (Z.of_nat (length requests) < cursor → verify_queue st qs = Err (CursorAheadOfHead cursor (len_u64 requests))) ∧
  (cursor ≤ Z.of_nat (length requests) → MAX_BATCH < Z.of_nat (length requests) - cursor →
    verify_queue st qs = Err (BatchSizeMismatch (batch_size cursor (len_u64 requests))
      (length (drop (Z.to_nat cursor) requests)))).
Proof.
  intros Hfx Hmax. pose proof (length_fixture_entries _ _ _ _ Hfx) as Hlen. pose proof (uint_range cursor) as [Hpos _].
  assert (uint_Z (len_u64 requests) = Z.of_nat (length requests)) as Hz by by apply len_u64_fits.
  destruct (verify_queue_batch_errors st qs) as [Hc Hb].
  - unfold vec_fits. lia.
  - rewrite (fx_address _ _ _ _ Hfx). apply verify_account_Ok. split; [exact (fx_account _ _ _ _ Hfx)|done].
  - apply verify_storage_word_Ok. by apply (fx_head_proof _ _ _ _ Hfx).
  - rewrite (fx_cursor _ _ _ _ Hfx), (fx_head _ _ _ _ Hfx), Hz in Hc, Hb. rewrite length_drop, <-Hlen. split; [done|].
    intros Hle Hlt. apply Hb; lia.
Qed.

(** C24: the fixtures of the queue tests, for any list of fewer than 2^63 requests
    and any cursor (the suite builds at most three requests), provided that the
    hashed keys of each trie are distinct (so, unless Keccak collides, the queue's
    own address is not requested and no queue word is written twice) and that
    a pending slot of a target declared absent is given the value zero.
    Building one never panics; a cursor past the head and more pending requests than
    one batch takes are rejected with the errors for just that; and otherwise
    the honest witness is accepted with the head as the new cursor and the Merkle
    root of the pending requests, each with the value its slot holds, and
    every change of the witness that the tests make in one place is rejected. *)
Theorem fixtures_accepted {E} requests (cursor : u64) `{!RlpInjective} :
  let pending := drop (Z.to_nat cursor) requests in
  keys_distinct requests pending → absent_targets_empty pending → Z.of_nat (length requests) < 2 ^ 63 →
  ∃ st qs, fixture (E:=E) requests cursor = Ok (st, qs) ∧
    (Z.of_nat (length requests) < cursor → verify_queue st qs = Err (CursorAheadOfHead cursor (len_u64 requests))) ∧
    (cursor ≤ Z.of_nat (length requests) → MAX_BATCH < Z.of_nat (length requests) - cursor →
      verify_queue st qs = Err (BatchSizeMismatch (batch_size cursor (len_u64 requests)) (length pending))) ∧
    (cursor ≤ Z.of_nat (length requests) → Z.of_nat (length requests) - cursor ≤ MAX_BATCH →
      ∃ leaves (root : B256),
        try_map request_leaf (fixture_requests pending) = Ok leaves ∧
        verify_queue st qs = Ok (len_u64 requests, root) ∧ fb_bytes root = fp_to_bytes (requests_root leaves) ∧
        ∀ qs', tampered qs qs' → ∃ e, verify_queue st qs' = Err e).
Proof.
  intros pending Hk Ha Hmax. destruct (fixture_Ok (E:=E) requests cursor Hk) as (st & qs & Hf & Hs).
  exists st, qs. destruct (fixture_rejected _ _ _ _ Hs Hmax) as [Hc Hb]. split_and!; [done..|]. intros Hle Hbatch.
  destruct (fixture_run (E:=E) requests cursor) as (st' & qs' & leaves & root & Hf' & _ & Hfits & Hl & Hv & Hr); [done|].
  rewrite Hf in Hf'. injection Hf' as <- <-. exists leaves, root. split_and!; [done..|]. intros qs' Ht.
  destruct (tampering_is_rejected _ _ _ _ Hfits Hv Ht) as (e & He & _). by exists e.
Qed.
End Accepted.
