(* ===== verification/QueueSuite.v ===== *)
(** * nori-program/src/mpt.rs: the tests of [queue_tests]

    Each test builds a fixture, changes at most one thing, and expects success
    or an error; an assertion that fails is [Panic].  They are instances of the
    two theorems on all fixtures and all changes (QueueTests, MptClaims); only
    [reordering_entries_is_rejected], where a proof is offered at another key,
    needs the verifier to be sound.  An [assert_ne!] of the root with zero passes unless Poseidon gives zero. *)
From stdpp Require Import sorting.
From S2P Require Import Prelude Externals StorageLayout Types Instances Merkle MerkleSpec RequestLeaf Mpt MptSpec MptClaims MerkleTests TrieTests QueueTests.

Section Suite.
  Context `{TrieBuilder} `{Keccak} `{PoseidonSponge}.

Definition r11 (value : Z) : Request := request x11 xaa (to_uint 64 value).
Definition r22 : Request := request x22 xbb (to_uint 64 7).
Definition r33 : Request := request x33 xcc (to_uint 64 9).

Definition drains_the_whole_queue : res anyhow () :=
  '(state_root, queue) ← fixture [r11 42; r22] (to_uint 64 0);
  '(output_cursor, root) ← accepted (verify_queue state_root queue);
  _ ← assert_eq output_cursor (to_uint 64 2);
  assert_ne root (fb_zero 32).
Definition resumes_from_a_partial_cursor : res anyhow () :=
  '(state_root, queue) ← fixture [r11 42; r22; r33] (to_uint 64 1);
  '(output_cursor, _) ← accepted (verify_queue state_root queue);
  assert_eq output_cursor (to_uint 64 3).
Definition empty_queue_yields_the_zero_root : res anyhow () :=
  '(state_root, queue) ← fixture [] (to_uint 64 0);
  '(output_cursor, root) ← accepted (verify_queue state_root queue);
  _ ← assert_eq output_cursor (to_uint 64 0);
  assert_eq root (fb_zero 32).
Definition a_drained_queue_yields_the_zero_root : res anyhow () :=
  '(state_root, queue) ← fixture [r11 42] (to_uint 64 1);
  '(output_cursor, root) ← accepted (verify_queue state_root queue);
  _ ← assert_eq output_cursor (to_uint 64 1);
  assert_eq root (fb_zero 32).

(** [queue.input_cursor = 5] and so on: a fixture, one change, [unwrap_err()]. *)
Definition rejects (requests : list Request) (change : QueueStorage → res anyhow QueueStorage) : res anyhow () :=
  '(state_root, queue) ← fixture requests (to_uint 64 0);
  queue ← change queue;
  rejected (verify_queue state_root queue).
(** [queue.entries[0] = f(queue.entries[0])] *)
Definition change_entry (f : QueueEntryProof → QueueEntryProof) (queue : QueueStorage) : res anyhow QueueStorage :=
  e ← index (entries queue) 0; Ok (with_entries queue (<[0%nat := f e]> (entries queue))).
Definition change_target (f : TargetStorageProof → res anyhow TargetStorageProof) (queue : QueueStorage)
    : res anyhow QueueStorage :=
  t ← index (targets queue) 0; t ← f t; Ok (with_targets queue (<[0%nat := t]> (targets queue))).

Definition cursor_ahead_of_head_is_rejected : res anyhow () :=
  rejects [r11 42] (λ queue, Ok (with_cursor queue (to_uint 64 5))).
Definition withholding_an_entry_is_rejected : res anyhow () :=
  rejects [r11 42; r22] (λ queue, Ok (with_entries queue (take (length (entries queue) - 1) (entries queue)))).
Definition adding_an_entry_is_rejected : res anyhow () :=
  rejects [r11 42] (λ queue,
    duplicate ← index (entries queue) 0; Ok (with_entries queue (entries queue ++ [duplicate]))).
Definition lying_about_head_is_rejected : res anyhow () :=
  rejects [r11 42] (λ queue, Ok (with_head queue (to_uint 64 2))).
Definition tampering_with_an_entry_field_is_rejected : res anyhow () :=
  _ ← rejects [r11 42] (change_entry (λ e, MkQueueEntryProof (repeat_byte 20 x99) (qe_slot_key e)
    (qe_collection_keys_count e) (qe_collection_keys e) (qe_word_proofs e)));
  _ ← rejects [r11 42] (change_entry (λ e, MkQueueEntryProof (qe_target e) (repeat_byte 32 x99)
    (qe_collection_keys_count e) (qe_collection_keys e) (qe_word_proofs e)));
  _ ← rejects [r11 42] (change_entry (λ e, MkQueueEntryProof (qe_target e) (qe_slot_key e)
    (to_uint 8 2) (qe_collection_keys e) (qe_word_proofs e)));
  rejects [r11 42] (change_entry (λ e, MkQueueEntryProof (qe_target e) (qe_slot_key e)
    (qe_collection_keys_count e) (repeat_byte 32 x99, snd (qe_collection_keys e)) (qe_word_proofs e))).
Definition withholding_a_target_witness_is_rejected : res anyhow () :=
  rejects [r11 42] (λ queue, Ok (with_targets queue [])).
Definition withholding_a_slot_witness_is_rejected : res anyhow () :=
  rejects [r11 42] (change_target (λ t,
    Ok (MkTargetStorageProof (ts_target_address t) (ts_account t) (ts_account_mpt_proof t) []))).
Definition claiming_a_different_slot_value_is_rejected : res anyhow () :=
  rejects [r11 42] (change_target (λ t,
    s ← index (ts_slots t) 0;
    Ok (MkTargetStorageProof (ts_target_address t) (ts_account t) (ts_account_mpt_proof t)
      (<[0%nat := MkTargetSlotProof (tsp_key s) (to_uint 256 43) (tsp_mpt_proof s)]> (ts_slots t))))).

(** An empty slot is a no-op leaf, not a stall. *)
Definition an_empty_slot_yields_a_zero_value_leaf : res anyhow () :=
  '(state_root, queue) ← fixture [r11 0] (to_uint 64 0);
  '(output_cursor, root) ← accepted (verify_queue state_root queue);
  _ ← assert_eq output_cursor (to_uint 64 1);
  assert_ne root (fb_zero 32).
(** A target that never existed, or was destroyed, is also a no-op leaf. *)
Definition absent_request : Request :=
  let r := r11 0 in
  MkRequest (rq_target r) (rq_slot_key r) (rq_collection_keys_count r) (rq_collection_keys r) (rq_value r) false.
Definition an_absent_target_yields_a_zero_value_leaf : res anyhow () :=
  '(state_root, queue) ← fixture [absent_request] (to_uint 64 0);
  '(output_cursor, _) ← accepted (verify_queue state_root queue);
  assert_eq output_cursor (to_uint 64 1).
(** Repeat deposits name the same slot; one proof serves both leaves. *)
Definition duplicate_requests_share_a_single_slot_proof : res anyhow () :=
  '(state_root, queue) ← fixture [r11 42; r11 42] (to_uint 64 0);
  _ ← assert_eq (length (targets queue)) 1%nat;
  '(output_cursor, root) ← accepted (verify_queue state_root queue);
  _ ← assert_eq output_cursor (to_uint 64 2);
  assert_ne root (fb_zero 32).
(** Entry order is fixed by index, so a swapped witness fails. *)
Definition reordering_entries_is_rejected : res anyhow () :=
  rejects [r11 42; r22] (λ queue,
    a ← index (entries queue) 0; b ← index (entries queue) 1;
    Ok (with_entries queue (<[0%nat := b]> (<[1%nat := a]> (entries queue))))).

Definition queue_suite : list (res anyhow ()) :=
  [drains_the_whole_queue; resumes_from_a_partial_cursor; empty_queue_yields_the_zero_root;
   a_drained_queue_yields_the_zero_root; cursor_ahead_of_head_is_rejected; withholding_an_entry_is_rejected;
   adding_an_entry_is_rejected; lying_about_head_is_rejected; tampering_with_an_entry_field_is_rejected;
   withholding_a_target_witness_is_rejected; withholding_a_slot_witness_is_rejected;
   claiming_a_different_slot_value_is_rejected; an_empty_slot_yields_a_zero_value_leaf;
   an_absent_target_yields_a_zero_value_leaf; duplicate_requests_share_a_single_slot_proof].

(** ** The tests pass *)
Context `{!TrieBuilderLaws} `{!ProofFunctional} `{!RlpNonempty, !RlpInjective} `{!PastaFieldLaws} `{!MerkleZerosChain}.

(** The Merkle root of the batch is not the zero of the field. *)
Definition root_nonzero (batch : list Request) : Prop := ∀ leaves,
  try_map request_leaf (fixture_requests batch) = Ok leaves → requests_root leaves ≠ fp_zero.

Lemma root_bytes_zero (x : Fp) : fp_to_bytes x = fb_bytes (fb_zero 32) ↔ x = fp_zero.
Proof.
  rewrite fp_to_bytes_spec. split.
  - intros Hb. apply (inj fp_Z). rewrite fp_zero_Z.
    pose proof (fp_Z_range x) as Hx. pose proof fp_modulus_bound as Hm.
    assert (fp_Z x < 256 ^ Z.of_nat 32) as Hlt by (eapply Z.lt_trans; [apply Hx|]; eapply Z.lt_trans; [apply Hm|]; by vm_compute).
    apply (f_equal le_val) in Hb. rewrite le_val_le_bytes in Hb. rewrite Z.mod_small in Hb by lia. done.
  - intros ->. rewrite fp_zero_Z. done.
Qed.

Lemma fixture_drains requests (cursor : u64) : fixture_ok requests cursor →
  ∃ st qs root, fixture (E:=anyhow) requests cursor = Ok (st, qs) ∧ fixture_shows requests cursor st qs ∧
    verify_queue st qs = Ok (len_u64 requests, root) ∧
    (root_nonzero (drop (Z.to_nat cursor) requests) → root ≠ fb_zero 32) ∧
    (drop (Z.to_nat cursor) requests = [] → root = fb_zero 32).
Proof.
  intros Hok. destruct (fixture_run (E:=anyhow) _ _ Hok) as (st & qs & leaves & root & Hf & Hs & _ & Hl & Hv & Hr).
  exists st, qs, root. split_and!; [done..| |].
  - intros Hn Hz. apply (Hn _ Hl). apply root_bytes_zero. by rewrite <-Hr, Hz.
  - intros Hd. rewrite Hd in Hl. injection Hl as <-. apply fb_eq. rewrite Hr. by apply root_bytes_zero.
Qed.

Lemma rejects_Ok requests change : fixture_ok requests (to_uint 64 0) →
  (∀ st qs, fixture_shows requests (to_uint 64 0) st qs → ∃ qs', change qs = Ok qs' ∧ tampered qs qs') →
  rejects requests change = Ok ().
Proof.
  intros Hok Hc. destruct (fixture_run (E:=anyhow) _ _ Hok) as (st & qs & leaves & root & Hf & Hs & Hfits & _ & Hv & _).
  destruct (Hc _ _ Hs) as (qs' & Hq & Ht). unfold rejects. rewrite Hf, Ok_bind, Hq, Ok_bind.
  by destruct (tampering_is_rejected _ _ _ _ Hfits Hv Ht) as (e & -> & _).
Qed.

(** The witness of the fixture with one request for slot 0xaa of 0x11. *)
Lemma single_entry st qs : fixture_shows [r11 42] (to_uint 64 0) st qs → ∃ e, entries qs = [e] ∧
  qe_target e = repeat_byte 20 x11 ∧ qe_slot_key e = repeat_byte 32 xaa ∧
  qe_collection_keys_count e = to_uint 8 1 ∧ qe_collection_keys e = (repeat_byte 32 xaa, fb_zero 32).
Proof.
  intros Hs. pose proof (fx_entries _ _ _ _ Hs) as He.
  change (drop _ _) with [(0%nat, r11 42)] in He. inversion He as [|? e ? es He' Hnil]; subst.
  inversion Hnil; subst. destruct He' as (Ht & Hk & Hc & Hks & _). by exists e.
Qed.
Lemma single_target st qs : fixture_shows [r11 42] (to_uint 64 0) st qs → ∃ t proof, targets qs = [t] ∧
  ts_target_address t = repeat_byte 20 x11 ∧
  ts_slots t = [MkTargetSlotProof (repeat_byte 32 xaa) (to_uint 256 42) proof].
Proof.
  intros Hs. destruct (fx_targets _ _ _ _ Hs) as (tries & Ha & Hts & Htg).
  change (drop _ _) with [r11 42] in *.
  replace (distinct_targets [r11 42]) with [repeat_byte 20 x11] in Ha by by vm_compute.
  destruct tries as [|t [|]]; try done. injection Ha as Ha.
  inversion Htg as [|? tg ? tgs Hg Hnil]; subst. inversion Hnil; subst.
  inversion Hts as [|? ? Ht _]; subst. pose proof (tr_words _ _ Ht) as Hw.
  assert (target_slot_values [r11 42] (tt_address t) = [(repeat_byte 32 xaa, ucast 256 (to_uint 64 42))]) as Hslots
    by (rewrite Ha; by vm_compute).
  rewrite Hslots in Hw. apply Forall2_cons_inv_l in Hw as (proof & proofs & _ & Hn%Forall2_nil_inv_l & Hproofs).
  exists tg, proof. split_and!; [done|by rewrite (tg_address _ _ _ _ Hg)|].
  rewrite (tg_slots _ _ _ _ Hg), (tr_keys _ _ Ht), Hslots, Hproofs, Hn, Ha. simpl. do 2 f_equal.
Qed.

(** The fixtures of the suite, with their cursors. *)
Definition suite_fixtures : list (list Request * Z) :=
  [([r11 42; r22], 0); ([r11 42; r22; r33], 1); ([], 0); ([r11 42], 1); ([r11 42], 0); ([r11 0], 0);
   ([absent_request], 0); ([r11 42; r11 42], 0)].
(** No two keys of one trie have one hash, and three roots are not zero. *)
Record suite_hashes : Prop := {
  sh_keys : Forall (λ '(requests, cursor), keys_distinct requests (drop (Z.to_nat cursor) requests)) suite_fixtures;
  sh_roots : root_nonzero [r11 42; r22] ∧ root_nonzero [r11 0] ∧ root_nonzero [r11 42; r11 42]
}.

Lemma suite_fixtures_fit : Forall (λ '(requests, cursor),
  (uint_Z (to_uint 64 cursor) = cursor ∧ cursor ≤ Z.of_nat (length requests) < 2 ^ 63 ∧
   Z.of_nat (length requests) - cursor ≤ MAX_BATCH) ∧
  Forall (λ r, target_exists (drop (Z.to_nat cursor) requests) (rq_target r) = false →
    uint_Z (requested_value (drop (Z.to_nat cursor) requests) (rq_target r) (rq_slot_key r)) = 0)
    (drop (Z.to_nat cursor) requests)) suite_fixtures.
Proof. apply (bool_decide_unpack _). by vm_compute. Qed.

Lemma suite_fixtures_ok : suite_hashes →
  Forall (λ '(requests, cursor), fixture_ok requests (to_uint 64 cursor)) suite_fixtures.
Proof.
  intros [Hk _]. apply Forall_elem. intros [requests cursor] Hin. pose proof suite_fixtures_fit as Hfit. rewrite Forall_elem in Hk, Hfit.
  specialize (Hk _ Hin). destruct (Hfit _ Hin) as ((Hc & Hl & Hb) & Ha). cbv beta iota in Hk.
  split; rewrite ?Hc; [done|done|done|]. intros r Hr. rewrite Forall_elem in Ha. by apply Ha.
Qed.

Lemma change_entry_tampers st qs f : fixture_shows [r11 42] (to_uint 64 0) st qs →
  (∀ e, qe_word_proofs (f e) = qe_word_proofs e) →
  (∀ e, qe_target e = repeat_byte 20 x11 → qe_slot_key e = repeat_byte 32 xaa →
    qe_collection_keys_count e = to_uint 8 1 → qe_collection_keys e = (repeat_byte 32 xaa, fb_zero 32) → f e ≠ e) →
  ∃ qs', change_entry f qs = Ok qs' ∧ tampered qs qs'.
Proof.
  intros Hs Hp Hne. destruct (single_entry _ _ Hs) as (e & He & Ht & Hk & Hc & Hks).
  unfold change_entry, index. rewrite He. cbn [lookup list_lookup unwrap]. rewrite Ok_bind. eexists. split; [done|].
  rewrite <-He. apply (tamper_entry _ _ e); [by rewrite He|apply Hp|by apply Hne].
Qed.
Lemma entry_in_queue st qs : fixture_shows [r11 42] (to_uint 64 0) st qs →
  ∃ e, e ∈ entries qs ∧ qe_target e = repeat_byte 20 x11 ∧ qe_slot_key e = repeat_byte 32 xaa.
Proof. intros Hs. destruct (single_entry _ _ Hs) as (e & -> & Ht & Hk & _). exists e. split; [by left|done]. Qed.

Lemma queue_changes_rejected : suite_hashes → Forall (λ test, test = Ok ())
  [cursor_ahead_of_head_is_rejected; withholding_an_entry_is_rejected; adding_an_entry_is_rejected;
   lying_about_head_is_rejected; withholding_a_target_witness_is_rejected; withholding_a_slot_witness_is_rejected;
   claiming_a_different_slot_value_is_rejected].
Proof.
  intros Hs. pose proof (suite_fixtures_ok Hs) as Hoks. unfold suite_fixtures in Hoks. rewrite !Forall_cons_iff in Hoks.
  destruct Hoks as (Hok2 & _ & _ & _ & Hok & _).
  repeat constructor; (apply rejects_Ok; [done|]); intros st qs Hfx; (try (eexists; split; [done|])).
  - apply tamper_cursor. rewrite (fx_head _ _ _ _ Hfx). by vm_compute.
  - pose proof (length_fixture_entries _ _ _ _ Hfx) as Hl. change (length (entries qs) = 2%nat) in Hl.
    apply tamper_count; [unfold vec_fits|]; rewrite length_take, Hl; done.
  - destruct (single_entry _ _ Hfx) as (e & He & _). unfold index. rewrite He. cbn [lookup list_lookup unwrap].
    rewrite Ok_bind. eexists. split; [done|]. apply tamper_count; [done|by rewrite He].
  - apply tamper_head. rewrite (fx_head _ _ _ _ Hfx). intros Heq%(f_equal uint_Z). by vm_compute in Heq.
  - destruct (entry_in_queue _ _ Hfx) as (e & He & _). eapply withhold_target; [exact He|]. intros Hin. by apply elem_of_nil in Hin.
  - destruct (entry_in_queue _ _ Hfx) as (e & He & _), (single_target _ _ Hfx) as (t & proof & Ht & _).
    unfold change_target, index. rewrite Ht. cbn [lookup list_lookup unwrap]. rewrite Ok_bind.
    eexists. split; [done|]. eapply withhold_slot; [exact He|]. by apply lookup_empty.
  - destruct (entry_in_queue _ _ Hfx) as (e & He & Het & Hek), (single_target _ _ Hfx) as (t & proof & Ht & Hta & Hts).
    unfold change_target, index. rewrite Ht. cbn [lookup list_lookup unwrap]. rewrite !Ok_bind, Hts.
    cbn [lookup list_lookup unwrap]. rewrite !Ok_bind. eexists. split; [done|].
    eapply tamper_value; [exact He| |].
    + rewrite Ht. constructor; [|constructor]. split_and!; [done|done|]. rewrite Hts. by repeat constructor.
    + rewrite Ht, Het, Hek. unfold filed_slots. cbn [foldl ts_slots ts_target_address list_insert insert tsp_key].
      rewrite Hts, Hta. cbn [foldl tsp_key]. rewrite !lookup_insert_eq. done.
Qed.
Lemma entry_fields_rejected : suite_hashes → tampering_with_an_entry_field_is_rejected = Ok ().
Proof.
  intros Hs. pose proof (suite_fixtures_ok Hs) as Hoks. unfold suite_fixtures in Hoks. rewrite !Forall_cons_iff in Hoks.
  destruct Hoks as (_ & _ & _ & _ & Hok & _).
  unfold tampering_with_an_entry_field_is_rejected.
  assert (∀ f, (∀ e, qe_word_proofs (f e) = qe_word_proofs e) →
    (∀ e, qe_target e = repeat_byte 20 x11 → qe_slot_key e = repeat_byte 32 xaa →
      qe_collection_keys_count e = to_uint 8 1 → qe_collection_keys e = (repeat_byte 32 xaa, fb_zero 32) → f e ≠ e) →
    rejects [r11 42] (change_entry f) = Ok ()) as Hf.
  { intros f Hp Hne. apply rejects_Ok; [done|]. intros st qs Hfx. by eapply change_entry_tampers. }
  rewrite !Hf; try done; intros e Ht Hk Hc Hks Heq.
  all: first
    [ apply (f_equal (λ e, fb_bytes (qe_target e))) in Heq; cbn [qe_target] in Heq; rewrite Ht in Heq; done
    | apply (f_equal (λ e, fb_bytes (qe_slot_key e))) in Heq; cbn [qe_slot_key] in Heq; rewrite Hk in Heq; done
    | apply (f_equal (λ e, uint_Z (qe_collection_keys_count e))) in Heq; cbn [qe_collection_keys_count] in Heq;
      rewrite Hc in Heq; done
    | apply (f_equal (λ e, fb_bytes (fst (qe_collection_keys e)))) in Heq; cbn [qe_collection_keys] in Heq;
      rewrite Hks in Heq; done ].
Qed.

Lemma assert_eq_same {E A} `{EqDecision A} (a : A) : assert_eq (E:=E) a a = Ok ().
Proof. unfold assert_eq. by rewrite decide_True. Qed.
Lemma assert_eq_len {E A B} (l : list A) n (k : () → res E B) : Z.of_nat (length l) = n →
  (u ← assert_eq (len_u64 l) (to_uint 64 n); k u) = k ().
Proof. intros <-. fold (len_u64 l). by rewrite assert_eq_same. Qed.
Lemma duplicate_targets st qs : fixture_shows [r11 42; r11 42] (to_uint 64 0) st qs → length (targets qs) = 1%nat.
Proof.
  intros Hs. destruct (fx_targets _ _ _ _ Hs) as (tries & Ha & _ & Htg).
  rewrite <-(list.Forall2_length _ _ _ Htg), <-(length_fmap tt_address), Ha. by vm_compute.
Qed.

(** Run a test that builds a fixture which drains. *)
Ltac drains F test :=
  destruct F as (st & qs & root & Hf & _ & Hv & Hn & Hz); unfold test;
  rewrite Hf, Ok_bind, Hv; change (accepted (Ok ?x)) with (Ok (E:=anyhow) x); rewrite Ok_bind.

(** The suite passes. *)
Lemma queue_suite_passes : suite_hashes → Forall (λ test, test = Ok ()) queue_suite.
Proof.
  intros Hs. pose proof (queue_changes_rejected Hs) as Hrej. rewrite !Forall_cons_iff in Hrej.
  destruct Hrej as (R1 & R2 & R3 & R4 & R5 & R6 & R7 & _).
  pose proof (entry_fields_rejected Hs) as R8. pose proof Hs as [_ (N1 & N2 & N3)].
  assert (∀ (root : B256), root ≠ fb_zero 32 → assert_ne (E:=anyhow) root (fb_zero 32) = Ok ()) as Hne
    by (intros root Hr; unfold assert_ne; by rewrite decide_False).
  pose proof (suite_fixtures_ok Hs) as Hoks. unfold suite_fixtures in Hoks. rewrite !Forall_cons_iff in Hoks.
  destruct Hoks as (F1%fixture_drains & F2%fixture_drains & F3%fixture_drains & F4%fixture_drains & _ & F6%fixture_drains
    & F7%fixture_drains & F8%fixture_drains & _).
  unfold queue_suite. repeat (constructor; [|]).
  - drains F1 drains_the_whole_queue. rewrite assert_eq_len by done. apply Hne, Hn, N1.
  - drains F2 resumes_from_a_partial_cursor. apply assert_eq_same.
  - drains F3 empty_queue_yields_the_zero_root. rewrite assert_eq_len, Hz by done. apply assert_eq_same.
  - drains F4 a_drained_queue_yields_the_zero_root. rewrite assert_eq_len, Hz by done. apply assert_eq_same.
  - exact R1.
  - exact R2.
  - exact R3.
  - exact R4.
  - exact R8.
  - exact R5.
  - exact R6.
  - exact R7.
  - drains F6 an_empty_slot_yields_a_zero_value_leaf. rewrite assert_eq_len by done. apply Hne, Hn, N2.
  - drains F7 an_absent_target_yields_a_zero_value_leaf. apply assert_eq_same.
  - destruct F8 as (st & qs & root & Hf & Hfx & Hv & Hn & _).
    unfold duplicate_requests_share_a_single_slot_proof. rewrite Hf, Ok_bind, (duplicate_targets _ _ Hfx), assert_eq_same, Ok_bind, Hv.
    change (accepted (Ok ?x)) with (Ok (E:=anyhow) x). rewrite Ok_bind, assert_eq_len by done. apply Hne, Hn, N3.
  - constructor.
Qed.
End Suite.

(** ** A swapped witness *)
Section Reordering.
  Context `{TrieBuilder} `{Keccak} `{PoseidonSponge} `{!TrieContents}.

Lemma fixture_claims {E} requests (cursor : u64) st qs : fixture (E:=E) requests cursor = Ok (st, qs) →
  entry_claims <$> entries qs
  = (λ r, (rq_target r, rq_slot_key r, rq_collection_keys_count r, rq_collection_keys r)) <$> drop (Z.to_nat cursor) requests.
Proof.
  unfold fixture. intros ([root proofs] & _ & Hf)%bind_Ok. apply bind_Ok in Hf as ([accounts tries] & _ & Hf).
  apply bind_Ok in Hf as ([state aproofs] & _ & Hf). apply bind_Ok in Hf as (es & Hes%try_map_Ok & Hf).
  apply bind_Ok in Hf as (ts & _ & Hf). apply bind_Ok in Hf as (? & _ & Hf). apply bind_Ok in Hf as (? & _ & [= _ <-]).
  cbn [entries]. assert (requests = snd <$> enumerate requests) as Hsnd.
  { unfold enumerate. rewrite fmap_imap. apply list_eq. intros i. rewrite list_lookup_imap. by destruct (requests !! i). }
  rewrite Hsnd at 1. rewrite <-fmap_drop. generalize dependent (drop (Z.to_nat cursor) (enumerate requests)).
  induction 1 as [|[i r] e l es He _ IH]; [done|]. rewrite !fmap_cons, IH. f_equal.
  unfold fixture_entry in He. apply bind_Ok in He as (? & _ & He). by apply bind_Ok in He as (v & _ & [= <-]).
Qed.

Context `{!InclusionSound, !ExclusionSound, !RlpInjective} `{!PastaFieldLaws} `{!MerkleZerosChain}.

(** Whatever proofs they carry, entries that make other claims are rejected. *)
Lemma other_claims_rejected st qs es out : vec_fits (entries qs) → vec_fits es → verify_queue st qs = Ok out →
  entry_claims <$> es ≠ entry_claims <$> entries qs → ∃ e, verify_queue st (with_entries qs es) = Err e.
Proof.
  intros F1 F2 Hv Hne. pose proof (verify_queue_errs st (with_entries qs es) F2) as He.
  destruct (verify_queue st (with_entries qs es)) as [out'|e|] eqn:Hv'; [|by exists e|done].
  destruct (accepted_determined st qs (with_entries qs es) _ _ F1 F2 eq_refl eq_refl Hv Hv') as (_ & _ & Heq). by destruct Hne.
Qed.

(** The last test passes when the first one does. *)
Lemma reordering_test_passes : drains_the_whole_queue = Ok () → reordering_entries_is_rejected = Ok ().
Proof.
  unfold drains_the_whole_queue, reordering_entries_is_rejected, rejects.
  intros ([st qs] & Hf & Hv)%bind_Ok. apply bind_Ok in Hv as (out & Hv & _). rewrite Hf, Ok_bind.
  destruct (verify_queue st qs) as [out'| |] eqn:Hq; [|discriminate Hv..].
  apply fixture_claims in Hf. change (drop (Z.to_nat (to_uint 64 0)) [r11 42; r22]) with [r11 42; r22] in Hf.
  destruct (entries qs) as [|a [|b [|]]] eqn:Hes; try discriminate Hf.
  unfold index. cbn [lookup list_lookup unwrap]. rewrite !Ok_bind.
  destruct (other_claims_rejected st qs [b; a] out') as (e & He); [by rewrite Hes|done|done| |].
  - rewrite Hes, Hf. intros Heq. apply (f_equal (fmap (λ c, fst (fst (fst c))))) in Hf, Heq. cbn in Hf, Heq.
    injection Hf as _ Hb. injection Heq as Hb' _. rewrite Hb in Hb'.
    apply (f_equal fb_bytes) in Hb'. discriminate Hb'.
  - cbn [insert list_insert]. by rewrite He.
Qed.
End Reordering.

(** ** A trie whose proof of a key is the value itself *)

Definition echo_trie : AlloyTrie := {|
  Nibbles := B256;
  nibbles_unpack k := k;
  ProofVerificationError := string;
  pve_to_string e := e;
  verify_proof _ _ v pf := if decide (pf = match v with Some v => [v] | None => [] end) then inl () else inr "value mismatch"%string;
  EMPTY_ROOT_HASH := @EMPTY_ROOT_HASH (table_trie []);
  u256_encode := @u256_encode (table_trie []);
  account_encode := @account_encode (table_trie [])
|}.
#[local] Existing Instance echo_trie.

#[local] Instance echo_builder : TrieBuilder := {|
  HashBuilder := list leaf;
  trie_account_default := MkTrieAccount (to_uint 64 0) (to_uint 256 0) EMPTY_ROOT_HASH (fb_zero 32);
  builder_with_retainer _ := [];
  add_leaf := sorted_add;
  builder_root b := match b with [] => EMPTY_ROOT_HASH | _ => checksum 7 (mjoin ((λ l, fb_bytes (fst l) ++ snd l) <$> b)) end;
  matching_nodes_sorted b t := match (list_to_map b : gmap B256 (list byte)) !! t with Some v => [v] | None => [] end
|}.

Lemma echo_add_leaves (leaves : list leaf) : StronglySorted hashed_below leaves →
  add_leaves ([] : HashBuilder) leaves = Some (leaves : HashBuilder).
Proof. exact (sorted_add_leaves [] leaves). Qed.
#[local] Instance echo_laws : TrieBuilderLaws.
Proof.
  split.
  - intros targets leaves Hs. eexists. exact (echo_add_leaves leaves Hs).
  - done.
  - intros targets leaves b t Hs _ Hb _. assert (Some b = Some leaves) as [= ->] by (rewrite <-Hb; exact (echo_add_leaves leaves Hs)).
    simpl. by rewrite decide_True.
Qed.
#[local] Instance echo_functional : ProofFunctional.
Proof. intros root key v1 v2 pf. simpl. repeat case_decide; try done. subst. destruct v1, v2; naive_solver. Qed.
#[local] Instance echo_nonempty : RlpNonempty.
Proof. split; apply table_nonempty. Qed.
#[local] Instance echo_rlp : RlpInjective.
Proof. split; apply (table_rlp []). Qed.

(** ** Witnesses: the first fixture of the suite *)

Definition w_requests : list Request := [r11 42; r22].

Lemma keys_distinct_dec requests batch :
  NoDup (hashed_keys (queue_words requests).*1) → NoDup (hashed_keys (QUEUE_ADDRESS :: distinct_targets batch)) →
  Forall (λ address, NoDup (hashed_keys (target_slot_values batch address).*1)) (distinct_targets batch) →
  keys_distinct requests batch.
Proof. intros Hq Ha Hs. split; [done|done|]. by rewrite Forall_elem in Hs. Qed.

Lemma w_suite_hashes : suite_hashes.
Proof.
  split.
  - assert (Forall (λ '(requests, cursor), let batch := drop (Z.to_nat cursor) requests in
      NoDup (hashed_keys (queue_words requests).*1) ∧ NoDup (hashed_keys (QUEUE_ADDRESS :: distinct_targets batch)) ∧
      Forall (λ address, NoDup (hashed_keys (target_slot_values batch address).*1)) (distinct_targets batch)) suite_fixtures)
      as Hall by (apply (bool_decide_unpack _); by vm_compute).
    eapply list.Forall_impl; [exact Hall|]. intros [requests cursor] (Hq & Ha & Hk). by apply keys_distinct_dec.
  - split_and!; intros leaves Hl; vm_compute in Hl; injection Hl as <-; intros Hz; by vm_compute in Hz.
Qed.
Lemma w_fixture_ok : fixture_ok w_requests (to_uint 64 0).
Proof.
  pose proof (suite_fixtures_ok w_suite_hashes) as Hok. unfold suite_fixtures in Hok.
  apply Forall_cons_iff in Hok as [Hok _]. exact Hok.
Qed.

Lemma fixtures_accepted_witness : ∃ st qs leaves (root : B256),
  fixture (E:=anyhow) w_requests (to_uint 64 0) = Ok (st, qs) ∧
  try_map request_leaf (fixture_requests w_requests) = Ok leaves ∧
  verify_queue st qs = Ok (len_u64 w_requests, root) ∧ fb_bytes root = fp_to_bytes (requests_root leaves) ∧
  ∀ qs', tampered qs qs' → ∃ e, verify_queue st qs' = Err e.
Proof.
  destruct (fixtures_accepted (E:=anyhow) w_requests (to_uint 64 0) (fo_keys _ _ w_fixture_ok) (fo_absent _ _ w_fixture_ok))
    as (st & qs & Hf & _ & _ & Hacc); [vm_compute; reflexivity|].
  destruct Hacc as (leaves & root & Hrest); [vm_compute; discriminate..|].
  exists st, qs, leaves, root. split; [exact Hf|exact Hrest].
Defined.

Definition w_state_queue : B256 * QueueStorage :=
  ok_default (fb_zero 32, MkQueueStorage (fb_zero 20) trie_account_default [] (to_uint 64 0) [] (to_uint 64 0) [] [])
    (fixture (E:=anyhow) w_requests (to_uint 64 0)).
Definition w_drained : u64 * B256 := ok_default (to_uint 64 0, fb_zero 32) (verify_queue (fst w_state_queue) (snd w_state_queue)).
Lemma w_drains : verify_queue (fst w_state_queue) (snd w_state_queue) = Ok w_drained.
Proof. vm_compute. reflexivity. Qed.

(** Claiming a third request in the head of a queue of two. *)
Lemma tampering_rejected_witness : ∃ e,
  verify_queue (fst w_state_queue) (with_head (snd w_state_queue) (to_uint 64 3)) = Err e ∧ possible_error e.
Proof.
  apply (tampering_rejected (fst w_state_queue) (snd w_state_queue) _ w_drained); [vm_compute; reflexivity|exact w_drains|].
  apply tamper_head. intros Heq%(f_equal uint_Z). vm_compute in Heq. discriminate Heq.
Defined.
