(* ===== verification/ProofTests.v ===== *)
(** * nori-program/src/mpt.rs: malformed proofs and the shapes of nodes

    The rest of [storage_proof_tests]: proofs that are cut, reordered, extended
    or offered at another root or key, and the checks on the kinds of the nodes
    that alloy-trie retains.  What the suite tries on one trie is shown of every
    proof that the verifier accepts. *)
From S2P Require Import Prelude Externals StorageLayout Types Instances Merkle MerkleTests RequestLeaf Mpt MptSpec TrieTests.

(** [alloy_trie::nodes::TrieNode], without what the nodes hold. *)
Inductive TrieNode := TrieNode_EmptyRoot | TrieNode_Branch | TrieNode_Extension | TrieNode_Leaf.
#[global] Instance TrieNode_eq_dec : EqDecision TrieNode.
Proof. solve_decision. Defined.
(** [TrieNode::decode]; [None] is an error. *)
Class TrieDecode := trie_node_decode : Bytes → option TrieNode.

(** Every node is authenticated against the hash its parent commits to: the
    first one hashes to the root, and only the empty trie needs no node. *)
Class ProofAuthenticated `{AlloyTrie} `{Keccak} := verify_proof_root : ∀ root key v proof,
  verify_proof root key v proof = inl () →
  match proof with [] => root = EMPTY_ROOT_HASH | node :: _ => keccak256 node = root end.
(** A proof ends at the node that holds the value: none of a longer one is left over. *)
Class ProofConsumed `{AlloyTrie} := verify_proof_consumed : ∀ root key v proof rest,
  verify_proof root key (Some v) proof = inl () → verify_proof root key (Some v) (proof ++ rest) = inl () → rest = [].

Section Proofs.
  Context `{TrieBuilder} `{Keccak} `{TrieDecode}.

(** ** The kinds of the nodes *)

Definition kind_name (node : TrieNode) : string :=
  match node with
  | TrieNode_EmptyRoot => "EmptyRoot"
  | TrieNode_Branch => "Branch"
  | TrieNode_Extension => "Extension"
  | TrieNode_Leaf => "Leaf"
  end.
Definition proof_node_kinds {E} (proof : list Bytes) : res E (list string) :=
  try_map (λ node, decoded ← unwrap (trie_node_decode node); Ok (kind_name decoded)) proof.

Definition empty_slot_claimed_zero_verifies_by_exclusion : res anyhow () :=
  '(root, proof) ← populated_storage_trie (slot xcc);
  kinds ← proof_node_kinds proof;
  _ ← assert_eq kinds ["Branch"%string];
  accepted (verify_storage_word root (slot xcc) (to_uint 256 0) proof).
Definition zero_entry_word_reads_as_zero : res anyhow () :=
  '(root, proof) ← populated_storage_trie (fb_zero 32);
  kinds ← proof_node_kinds proof;
  _ ← assert_eq kinds ["Branch"; "Leaf"]%string;
  accepted (verify_storage_word root (fb_zero 32) (to_uint 256 0) proof).
Definition shared_prefix_keys_produce_an_extension_node : res anyhow () :=
  '(first, _) ← keys_sharing_nibble_prefix 4;
  '(_, proof, _, _) ← extension_rooted_trie first;
  kinds ← proof_node_kinds proof;
  if decide ("Extension"%string ∈ kinds) then Ok () else Panic.
Definition key_diverging_inside_an_extension_verifies_as_absent : res anyhow () :=
  let diverging := slot xdd in
  '(root, proof, first, _) ← extension_rooted_trie diverging;
  diverging_prefix ← nibble_prefix (keccak256 (fb_bytes diverging)) 4;
  first_prefix ← nibble_prefix (keccak256 (fb_bytes first)) 4;
  _ ← assert_ne diverging_prefix first_prefix;
  kinds ← proof_node_kinds proof;
  _ ← assert_eq kinds ["Extension"%string];
  accepted (verify_storage_word root diverging (to_uint 256 0) proof).

(** ** Malformed proofs *)

(** [&proof[..proof.len() - 1]] *)
Definition all_but_last {E A} (proof : list A) : res E (list A) :=
  match proof with [] => Panic | _ => slice proof 0 (length proof - 1) end.

Definition truncated_proof_is_rejected : res anyhow () :=
  '(root, proof) ← populated_storage_trie (slot xaa);
  truncated ← all_but_last proof;
  rejected (verify_storage_word root (slot xaa) (to_uint 256 42) truncated).
Definition empty_proof_against_a_populated_root_is_rejected : res anyhow () :=
  '(root, _) ← populated_storage_trie (slot xaa);
  _ ← rejected (verify_storage_word root (slot xaa) (to_uint 256 42) []);
  rejected (verify_storage_word root (slot xaa) (to_uint 256 0) []).
Definition reordered_proof_is_rejected : res anyhow () :=
  '(root, proof) ← populated_storage_trie (slot xaa);
  rejected (verify_storage_word root (slot xaa) (to_uint 256 42) (reverse proof)).
(** The trie with slot 0x01 = 5 that lends its nodes. *)
Definition other_trie {E} : res E (B256 * list Bytes) :=
  trie_with_proof [(fb_bytes (slot x01), u256_encode (to_uint 256 5))] (fb_bytes (slot x01)).
Definition foreign_node_prepended_to_a_proof_is_rejected : res anyhow () :=
  '(root, proof) ← populated_storage_trie (slot xaa);
  '(_, other_proof) ← other_trie;
  rejected (verify_storage_word root (slot xaa) (to_uint 256 42) (other_proof ++ proof)).
Definition proof_verified_against_the_wrong_root_is_rejected : res anyhow () :=
  '(_, proof) ← populated_storage_trie (slot xaa);
  rejected (verify_storage_word (repeat_byte 32 xde) (slot xaa) (to_uint 256 42) proof).
Definition proof_for_another_key_is_rejected : res anyhow () :=
  '(root, proof) ← populated_storage_trie (slot xaa);
  rejected (verify_storage_word root (slot xbb) (to_uint 256 7) proof).
Definition tampered_account_proof_is_rejected : res anyhow () :=
  '(root, proof, account) ← populated_state_trie (address_of x11);
  truncated ← all_but_last proof;
  _ ← rejected (verify_account root Target (address_of x11) (Some account) truncated);
  rejected (verify_account (repeat_byte 32 xde) Target (address_of x11) (Some account) proof).

(** ** What a malformed proof shows *)
Section Malformed.
Context `{!ProofAuthenticated, !ProofConsumed, !ProofFunctional, !EmptyTrieProof}.

Definition refused (root : B256) (key : Nibbles) (value : option (list byte)) (proof : list Bytes) : Prop :=
  verify_proof root key value proof ≠ inl ().

Lemma refused_word {E} root (key : B256) value proof :
  refused root (nibbles_unpack (keccak256 (fb_bytes key))) (expected_storage_value value) proof →
  rejected (E':=E) (verify_storage_word root key value proof) = Ok ().
Proof. unfold refused, verify_storage_word. by destruct (verify_proof _ _ _ _) as [[]|]. Qed.
Lemma refused_account {E} root (address : Address) acct proof :
  refused root (nibbles_unpack (keccak256 (fb_bytes address))) (account_encode <$> acct) proof →
  rejected (E':=E) (verify_account root Target address acct proof) = Ok ().
Proof. unfold refused, verify_account. by destruct (verify_proof _ _ _ _) as [[]|]. Qed.

(** A value is never shown without a node, not even in the empty trie. *)
Lemma value_needs_node root key v : refused root key (Some v) [].
Proof.
  intros Hv. pose proof (verify_proof_root _ _ _ _ Hv) as Hroot. simpl in Hroot. subst root.
  pose proof (verify_proof_functional _ _ _ _ _ Hv (empty_trie_proof key)) as Hn. done.
Qed.
Lemma first_node_refused root key value node rest : keccak256 node ≠ root → refused root key value (node :: rest).
Proof. by intros Hne Hv%verify_proof_root. Qed.
(** A proof of a value, cut anywhere, shows it no longer. *)
Lemma cut_refused root key v proof n : verify_proof root key (Some v) proof = inl () → (n < length proof)%nat →
  refused root key (Some v) (take n proof).
Proof.
  intros Hv Hn Hcut. pose proof (verify_proof_consumed root key v (take n proof) (drop n proof)) as Hrest.
  rewrite take_drop in Hrest. specialize (Hrest Hcut Hv). apply (f_equal length) in Hrest. rewrite length_drop in Hrest.
  simpl in Hrest. lia.
Qed.
Lemma value_proof_cons root key v proof : verify_proof root key (Some v) proof = inl () →
  ∃ node rest, proof = node :: rest ∧ keccak256 node = root.
Proof.
  destruct proof as [|node rest]; intros Hv; [by apply value_needs_node in Hv|]. exists node, rest.
  split; [done|]. exact (verify_proof_root _ _ _ _ Hv).
Qed.
Lemma all_but_last_cons {E A} (node : A) rest :
  all_but_last (E:=E) (node :: rest) = Ok (take (length rest) (node :: rest)).
Proof. unfold all_but_last, slice. simpl. rewrite Nat.sub_0_r, decide_True by lia. by rewrite Nat.sub_0_r. Qed.

Lemma head_root root key v proof node : verify_proof root key v proof = inl () → hd_error proof = Some node → keccak256 node = root.
Proof. destruct proof; [done|]. intros Hv%verify_proof_root [= <-]. done. Qed.

(** ** The tests of malformed proofs pass

    Each one but for a coincidence of hashes that its statement names. *)
Context `{!TrieBuilderLaws, !RlpInjective, !RlpNonempty}.

Lemma malformed_storage_suite_passes : test_keys_distinct →
  ∃ root proof other other_proof, populated_storage_trie (E:=anyhow) (slot xaa) = Ok (root, proof) ∧
    other_trie (E:=anyhow) = Ok (other, other_proof) ∧
    truncated_proof_is_rejected = Ok () ∧
    (root ≠ EMPTY_ROOT_HASH → empty_proof_against_a_populated_root_is_rejected = Ok ()) ∧
    (keccak256 <$> list.last proof ≠ Some root → reordered_proof_is_rejected = Ok ()) ∧
    (other ≠ root → foreign_node_prepended_to_a_proof_is_rejected = Ok ()) ∧
    (root ≠ repeat_byte 32 xde → proof_verified_against_the_wrong_root_is_rejected = Ok ()).
Proof.
  intros Hd. destruct (populated_slot (E:=anyhow) Hd) as (root & proof & Ht & Hv).
  change (expected_storage_value (to_uint 256 42)) with (Some (u256_encode (to_uint 256 42))) in Hv.
  destruct (trie_with_proof_Ok (E:=anyhow) [(fb_bytes (slot x01), u256_encode (to_uint 256 5))] (fb_bytes (slot x01)))
    as (other & other_proof & Ho & Hov).
  { apply NoDup_singleton. } { repeat constructor. apply u256_encode_nonempty. }
  pose proof (proj2 (Hov _) eq_refl) as Hshown. rewrite hashed_entries_hit in Hshown. clear Hov.
  destruct (value_proof_cons _ _ _ _ Hv) as (node & rest & -> & Hroot).
  destruct (value_proof_cons _ _ _ _ Hshown) as (onode & orest & -> & Horoot).
  exists root, (node :: rest), other, (onode :: orest). split_and!; [done|done|..].
  - unfold truncated_proof_is_rejected. rewrite Ht, Ok_bind, all_but_last_cons, Ok_bind.
    apply refused_word. apply (cut_refused _ _ _ (node :: rest)); [exact Hv|simpl; lia].
  - intros Hne. unfold empty_proof_against_a_populated_root_is_rejected. rewrite Ht, Ok_bind.
    rewrite (refused_word root (slot xaa) (to_uint 256 42) []); [|exact (value_needs_node _ _ _)]. rewrite Ok_bind. apply refused_word.
    by intros Hz%verify_proof_root.
  - intros Hne. unfold reordered_proof_is_rejected. rewrite Ht, Ok_bind. apply refused_word.
    intros Hz. apply Hne. rewrite <-head_reverse. destruct (hd_error _) as [n|] eqn:Hh; simpl.
    + f_equal. by eapply head_root.
    + apply head_None in Hh. apply (f_equal length) in Hh. by rewrite length_reverse in Hh.
  - intros Hne. unfold foreign_node_prepended_to_a_proof_is_rejected. rewrite Ht, Ok_bind.
    unfold other_trie. rewrite Ho, Ok_bind. apply refused_word. cbn [app]. apply first_node_refused. by rewrite Horoot.
  - intros Hne. unfold proof_verified_against_the_wrong_root_is_rejected. rewrite Ht, Ok_bind.
    apply refused_word, first_node_refused. by rewrite Hroot.
Qed.
Lemma malformed_account_suite_passes : test_keys_distinct →
  ∃ root proof, populated_state_trie (E:=anyhow) (address_of x11) = Ok (root, proof, account_with_storage_root (slot x99)) ∧
    (root ≠ repeat_byte 32 xde → tampered_account_proof_is_rejected = Ok ()).
Proof.
  intros Hd. destruct (present_account (E:=anyhow) Hd) as (root & proof & Ht & Hv). exists root, proof. split; [done|]. intros Hne.
  destruct (value_proof_cons _ _ _ _ Hv) as (node & rest & -> & Hroot).
  unfold tampered_account_proof_is_rejected. rewrite Ht, Ok_bind, all_but_last_cons, Ok_bind.
  rewrite (refused_account root (address_of x11) (Some (account_with_storage_root (slot x99)))), Ok_bind;
    [|apply (cut_refused _ _ _ (node :: rest)); [exact Hv|simpl; lia]].
  apply refused_account, first_node_refused. by rewrite Hroot.
Qed.
End Malformed.

(** ** The tests of node kinds say no more than the kinds

    The verification at their end always succeeds. *)
Section Kinds.
Context `{!TrieBuilderLaws, !ProofFunctional, !RlpNonempty}.

(** What is left of such a test: the nodes decode to the given kinds. *)
Definition kinds_are (proof : list Bytes) (names : list string) : res anyhow () :=
  kinds ← proof_node_kinds proof; assert_eq kinds names.
Lemma kinds_only (m : res anyhow ()) proof names : m = Ok () →
  (kinds ← proof_node_kinds proof; _ ← assert_eq kinds names; m) = kinds_are proof names.
Proof.
  intros ->. unfold kinds_are. destruct (proof_node_kinds proof) as [kinds| |]; [|done..]. simpl.
  unfold assert_eq. by case_decide.
Qed.
Lemma absent_slot_accepted (key : B256) : NoDup (hashed_keys [slot xaa; slot xbb; key]) →
  ∃ root proof, populated_storage_trie (E:=anyhow) key = Ok (root, proof) ∧
    accepted (E':=anyhow) (verify_storage_word root key (to_uint 256 0) proof) = Ok ().
Proof.
  intros [Hnd Hni]%third_distinct. destruct (populated_storage_trie_Ok (E:=anyhow) key) as (root & proof & Ht & Hv); [done|].
  rewrite hashed_entries_miss in Hv by done. exists root, proof. split; [done|]. by apply storage_word_accepted.
Qed.

Lemma exclusion_tests_are_kinds : test_keys_distinct → NoDup (hashed_keys [slot xaa; slot xbb; fb_zero 32]) →
  ∃ r1 branch r2 leaf, populated_storage_trie (E:=anyhow) (slot xcc) = Ok (r1, branch) ∧
    populated_storage_trie (E:=anyhow) (fb_zero 32) = Ok (r2, leaf) ∧
    empty_slot_claimed_zero_verifies_by_exclusion = kinds_are branch ["Branch"%string] ∧
    zero_entry_word_reads_as_zero = kinds_are leaf ["Branch"; "Leaf"]%string.
Proof.
  intros [Hs _] Hz. destruct (absent_slot_accepted _ Hs) as (r1 & branch & T1 & A1), (absent_slot_accepted _ Hz) as (r2 & leaf & T2 & A2).
  exists r1, branch, r2, leaf. unfold empty_slot_claimed_zero_verifies_by_exclusion, zero_entry_word_reads_as_zero.
  rewrite T1, T2, !Ok_bind, A1, A2. split_and!; [done|done|by apply kinds_only..].
Qed.
End Kinds.
End Proofs.

(** ** A trie whose proof is one node with all leaves

    The root is the hash of the node, so that every law above holds. *)
Definition node_of (leaves : list leaf) : Bytes :=
  let p := encode leaves in le_bytes (Z.to_nat (Z.pos p)) (Z.pos p).
Definition leaves_of (node : Bytes) : option (list leaf) := decode (Z.to_pos (le_val node)).
Lemma leaves_of_node leaves : leaves_of (node_of leaves) = Some leaves.
Proof.
  unfold leaves_of, node_of. generalize (encode leaves), (decode_encode leaves). intros p Hp.
  rewrite le_val_le_bytes, Z.mod_small; [exact Hp|]. rewrite Z2Nat.id by lia. split; [lia|]. by apply Z.pow_gt_lin_r.
Qed.
Definition leaf_value (leaves : list leaf) (key : B256) : option (list byte) := (list_to_map leaves : gmap B256 (list byte)) !! key.

Definition node_trie : AlloyTrie := {|
  Nibbles := B256;
  nibbles_unpack k := k;
  ProofVerificationError := string;
  pve_to_string e := e;
  verify_proof root key v proof :=
    match proof with
    | [] => if decide (root = keccak256 (node_of []) ∧ v = None) then inl () else inr "root mismatch"%string
    | [node] => if decide (keccak256 node = root ∧ (leaves ← leaves_of node; leaf_value leaves key) = v)
                then inl () else inr "value mismatch"%string
    | _ => inr "value mismatch"%string
    end;
  EMPTY_ROOT_HASH := keccak256 (node_of []);
  u256_encode := @u256_encode (table_trie []);
  account_encode := @account_encode (table_trie [])
|}.
#[local] Existing Instance node_trie.
#[local] Instance node_builder : TrieBuilder := {|
  HashBuilder := list leaf;
  trie_account_default := MkTrieAccount (to_uint 64 0) (to_uint 256 0) EMPTY_ROOT_HASH (fb_zero 32);
  builder_with_retainer _ := [];
  add_leaf := sorted_add;
  builder_root b := keccak256 (node_of b);
  matching_nodes_sorted b t := [node_of b]
|}.
#[local] Instance node_laws : TrieBuilderLaws.
Proof.
  split.
  - intros targets leaves Hs. eexists. exact (sorted_add_leaves [] leaves Hs).
  - done.
  - intros targets leaves b t Hs _ Hb _.
    assert (Some b = Some leaves) as [= ->] by (rewrite <-Hb; exact (sorted_add_leaves [] leaves Hs)).
    cbn -[node_of]. by rewrite leaves_of_node, decide_True.
Qed.
#[local] Instance node_functional : ProofFunctional.
Proof. intros root key v1 v2 pf. cbn -[node_of]. destruct pf as [|n [|]]; repeat case_decide; try done; naive_solver congruence. Qed.
#[local] Instance node_authenticated : ProofAuthenticated.
Proof. intros root key v pf. cbn -[node_of]. destruct pf as [|n [|]]; repeat case_decide; try done; naive_solver. Qed.
#[local] Instance node_consumed : ProofConsumed.
Proof. intros root key v pf rest. cbn -[node_of]. destruct pf as [|n [|]]; [|by destruct rest|done]. case_decide; naive_solver. Qed.
#[local] Instance node_empty : EmptyTrieProof.
Proof. intros key. cbn -[node_of]. by rewrite decide_True. Qed.
#[local] Instance node_rlp : RlpInjective.
Proof. split; apply (table_rlp []). Qed.
#[local] Instance node_nonempty : RlpNonempty.
Proof. split; apply table_nonempty. Qed.

Example node_trie_runs_suite : truncated_proof_is_rejected = Ok ().
Proof.
  destruct malformed_storage_suite_passes as (root & proof & other & other_proof & _ & _ & Ht & _); [|exact Ht].
  split; apply (bool_decide_unpack _); by vm_compute.
Qed.
