(* ===== verification/MptWitness.v ===== *)
(** * A concrete queue for the theorems of MptSpec

    Two queued requests: one for a slot holding 7, one for an account that does
    not exist.  The tries are tables, the hashes checksums (see Instances). *)
From S2P Require Import Prelude Externals StorageLayout Types Merkle Instances MerkleSpec RequestLeaf Mpt MptSpec.

Definition w_state : B256 := repeat_byte 32 x01.
Definition w_queue_root : B256 := repeat_byte 32 x02.
Definition w_target_root : B256 := repeat_byte 32 x03.
Definition w_queue : Address := repeat_byte 20 x0a.
Definition w_target : Address := repeat_byte 20 x0b.
Definition w_absent : Address := repeat_byte 20 x0c.
Definition w_slot : B256 := repeat_byte 32 x10.
Definition w_account (root : B256) : TrieAccount := MkTrieAccount (to_uint 64 1) (to_uint 256 0) root (fb_zero 32).

Definition w_entries : list QueueEntryProof := [
  MkQueueEntryProof w_target w_slot (to_uint 8 1) (repeat_byte 32 x21, fb_zero 32) [# []; []; []; []; []];
  MkQueueEntryProof w_absent w_slot (to_uint 8 0) (fb_zero 32, fb_zero 32) [# []; []; []; []; []]].

(** A storage trie holds the non-zero words. *)
Definition w_words (root : B256) (words : list (B256 * U256)) : trie_table :=
  omap (λ '(slot, value), if decide (uint_Z value = 0) then None
                          else Some (root, keccak256 (fb_bytes slot), be_bytes 32 value)) words.
Definition w_account_row (address : Address) (acct : TrieAccount) : B256 * B256 * list byte :=
  (w_state, keccak256 (fb_bytes address), @account_encode (table_trie []) acct).

Definition w_table : trie_table :=
  [w_account_row w_queue (w_account w_queue_root); w_account_row w_target (w_account w_target_root)]
  ++ w_words w_queue_root ((storage_slot_of_index QUEUE_HEAD_STORAGE_INDEX, to_uint 256 2)
       :: mjoin (imap (λ i e, entry_words (to_uint 64 (Z.of_nat i)) e) w_entries))
  ++ w_words w_target_root [(w_slot, to_uint 256 7)].

#[global] Instance w_trie : AlloyTrie := table_trie w_table.
#[global] Instance w_contents : TrieContents := table_contents w_table.
#[global] Instance w_incl : InclusionSound := table_incl w_table.
#[global] Instance w_excl : ExclusionSound := table_excl w_table.
#[global] Instance w_rlp : RlpInjective := table_rlp w_table.
#[global] Instance w_empty : EmptyRoot.
Proof. apply table_empty. apply (bool_decide_unpack _). by vm_compute. Qed.
#[global] Instance w_prover : TrieProver := λ _ _, [].
#[global] Instance w_complete : ProofComplete.
Proof. intros root key. cbv beta. unfold verify_proof, w_trie, table_trie. by rewrite decide_True. Qed.

Definition w_storage : QueueStorage :=
  MkQueueStorage w_queue (w_account w_queue_root) [] (to_uint 64 2) [] (to_uint 64 0) w_entries
    [MkTargetStorageProof w_target (Some (w_account w_target_root)) [] [MkTargetSlotProof w_slot (to_uint 256 7) []];
     MkTargetStorageProof w_absent None [] [MkTargetSlotProof w_slot (to_uint 256 0) []]].
Definition w_out : u64 * B256 := ok_default (to_uint 64 0, fb_zero 32) (verify_queue w_state w_storage).

Lemma w_fits : vec_fits w_entries.
Proof. done. Qed.
Lemma w_accepted : verify_queue w_state w_storage = Ok w_out.
Proof. vm_compute. reflexivity. Qed.

Opaque w_out.

Lemma verify_queue_accepts_iff_witness :
  verify_queue w_state w_storage = Ok (fst w_out, snd w_out) ↔
  ∃ maps leaves, accepts w_state w_storage maps leaves ∧
    uint_Z (fst w_out) = input_cursor w_storage + Z.of_nat (length (entries w_storage)) ∧
    fb_bytes (snd w_out) = fp_to_bytes (requests_root leaves).
Proof. exact (verify_queue_accepts_iff w_state w_storage _ _ w_fits). Defined.

Lemma verify_queue_cursor_witness :
  uint_Z (fst w_out) = input_cursor w_storage + Z.min (head w_storage - input_cursor w_storage) MAX_BATCH ∧
  input_cursor w_storage ≤ fst w_out ≤ head w_storage ∧
  (fst w_out = input_cursor w_storage ↔ input_cursor w_storage = head w_storage) ∧
  (fst w_out = input_cursor w_storage → snd w_out = fb_zero 32).
Proof.
  apply (verify_queue_cursor w_state w_storage); [exact w_fits|].
  rewrite <-surjective_pairing. exact w_accepted.
Defined.

Lemma verify_queue_no_panic_witness :
  verify_queue w_state w_storage ≠ Panic ∧
  (∀ slots d m, verify_queue w_state w_storage ≠ Err (ExceedsMaxTreeDepth slots d m)) ∧
  (∀ t k v reason, verify_queue w_state w_storage ≠ Err (LeafHashError t k v reason)).
Proof. exact (verify_queue_no_panic w_state w_storage w_fits). Defined.

(** The same queue with one entry too few. *)
Definition w_short : QueueStorage :=
  MkQueueStorage w_queue (w_account w_queue_root) [] (to_uint 64 2) [] (to_uint 64 0) (take 1 w_entries) [].

Lemma verify_queue_batch_errors_witness :
  (head w_short < input_cursor w_short →
   verify_queue w_state w_short = Err (CursorAheadOfHead (input_cursor w_short) (head w_short))) ∧
  (input_cursor w_short ≤ head w_short →
   Z.of_nat (length (entries w_short)) ≠ Z.min (head w_short - input_cursor w_short) MAX_BATCH →
   verify_queue w_state w_short =
   Err (BatchSizeMismatch (batch_size (input_cursor w_short) (head w_short)) (length (entries w_short)))).
Proof. apply verify_queue_batch_errors; [done|vm_compute; reflexivity..]. Defined.

Lemma verify_queue_refines_witness : ∃ reqs leaves,
  drained w_state w_queue (input_cursor w_storage) (head w_storage) reqs ∧
  uint_Z (fst w_out) = input_cursor w_storage + Z.of_nat (length reqs) ∧
  try_map request_leaf reqs = Ok leaves ∧ fb_bytes (snd w_out) = fp_to_bytes (requests_root leaves).
Proof.
  apply (verify_queue_refines w_state w_storage); [exact w_fits|].
  rewrite <-surjective_pairing. exact w_accepted.
Defined.

(** Another accepted witness: the targets in the other order. *)
Definition w_storage' : QueueStorage :=
  MkQueueStorage w_queue (w_account w_queue_root) [] (to_uint 64 2) [] (to_uint 64 0) w_entries
    (reverse (targets w_storage)).
Definition w_out' : u64 * B256 := ok_default (to_uint 64 0, fb_zero 32) (verify_queue w_state w_storage').
Lemma verify_queue_deterministic_witness :
  w_out = w_out' ∧ head w_storage = head w_storage' ∧ entry_claims <$> entries w_storage = entry_claims <$> entries w_storage'.
Proof.
  apply (verify_queue_deterministic _ _ _ w_state w_storage w_storage'); [exact w_fits|exact w_fits|done|done|exact w_accepted|].
  vm_compute. reflexivity.
Defined.

Lemma w_drained : ∃ reqs, drained w_state w_queue (to_uint 64 0) (to_uint 64 2) reqs.
Proof.
  pose proof w_accepted as Hacc. rewrite (surjective_pairing w_out) in Hacc.
  apply verify_queue_Ok_iff in Hacc as (maps & leaves & Hacc & _); [|exact w_fits].
  eexists. exact (accepts_drained _ _ _ _ Hacc).
Qed.
Lemma verify_queue_complete_witness : ∃ reqs qs leaves out root,
  drained w_state w_queue (to_uint 64 0) (to_uint 64 2) reqs ∧
  proof_request_queue_address qs = w_queue ∧ input_cursor qs = to_uint 64 0 ∧
  try_map request_leaf reqs = Ok leaves ∧ verify_queue w_state qs = Ok (out, root) ∧
  uint_Z out = to_uint 64 0 + Z.of_nat (length reqs) ∧ fb_bytes root = fp_to_bytes (requests_root leaves).
Proof.
  destruct w_drained as [reqs Hd]. exists reqs.
  destruct (verify_queue_complete w_state w_queue (to_uint 64 0) (to_uint 64 2) reqs Hd)
    as (qs & leaves & out & root & Hrest).
  exists qs, leaves, out, root. split; [exact Hd|exact Hrest].
Defined.

Lemma verify_queue_inclusion_witness : let acct := proof_request_queue_account w_storage in
  trie_get w_state (trie_path (proof_request_queue_address w_storage)) = Some (account_encode acct) ∧
  holds_nonzero (storage_root acct) (storage_slot_of_index QUEUE_HEAD_STORAGE_INDEX) (ucast 256 (head w_storage)) ∧
  ∃ reqs leaves,
    entry_claims <$> entries w_storage = request_claims <$> reqs ∧
    (∀ i q, reqs !! i = Some q → entry_included (storage_root acct) (input_cursor w_storage + Z.of_nat i) q) ∧
    Forall (value_included w_state) reqs ∧
    uint_Z (fst w_out) = input_cursor w_storage + Z.of_nat (length reqs) ∧
    try_map request_leaf reqs = Ok leaves ∧
    fb_bytes (snd w_out) = fp_to_bytes (requests_root leaves).
Proof. exact (verify_queue_inclusion _ _ w_state w_storage w_out w_fits w_accepted). Defined.
