(* ===== verification/StoreHash.v ===== *)
(** * nori-hash/src/helios.rs and sha256_hash.rs: the hash of a light client store

    The store hash covers the finalized header, the current sync committee and
    the next one when present, each serialized with rmp_serde. *)
From S2P Require Import Prelude Externals Types.

(** [rmp_serde::to_vec] on the two types the source serializes. *)
Class RmpSerde `{HeliosTypes} := {
  RmpError : Type;
  rmp_error_to_string : RmpError → string;
  rmp_header : LightClientHeader → list byte + RmpError;
  rmp_committee : SyncCommittee → list byte + RmpError
}.
(** MessagePack values are self-delimiting and never empty, and the derived
    serializers are injective. *)
Class RmpLaws `{RmpSerde} := {
  rmp_header_prefix a b x y s t : rmp_header a = inl x → rmp_header b = inl y →
    x ++ s = y ++ t → a = b ∧ s = t;
  rmp_committee_prefix a b x y s t : rmp_committee a = inl x → rmp_committee b = inl y →
    x ++ s = y ++ t → a = b ∧ s = t;
  rmp_committee_nonempty a : rmp_committee a ≠ inl []
}.

Section StoreHash.
  Context `{RmpSerde} `{Sha256}.

Definition serialize_helios_store_serde (helios_store : LightClientStore) : res anyhow (list byte) :=
  let result := [] in
  b ← map_err rmp_error_to_string (of_sum (rmp_header (finalized_header helios_store)));
  let result := result ++ b in
  b ← map_err rmp_error_to_string (of_sum (rmp_committee (current_sync_committee helios_store)));
  let result := result ++ b in
  match next_sync_committee helios_store with
  | Some next =>
    b ← map_err rmp_error_to_string (of_sum (rmp_committee next));
    Ok (result ++ b)
  | None => Ok result
  end.

Definition sha256_hash_helios_store (helios_store : LightClientStore) : res anyhow B256 :=
  encoded_store ← serialize_helios_store_serde helios_store;
  Ok (sha256_digest encoded_store).

(** ** What the hash commits to *)

Definition committed (s : LightClientStore) : LightClientHeader * SyncCommittee * option SyncCommittee :=
  (finalized_header s, current_sync_committee s, next_sync_committee s).

(** The two stores are serialised differently and have one SHA-256 hash. *)
Definition sha256_collision (s1 s2 : LightClientStore) : Prop := ∃ x y : list byte,
  serialize_helios_store_serde s1 = Ok x ∧ serialize_helios_store_serde s2 = Ok y ∧
  x ≠ y ∧ sha256_digest x = sha256_digest y.

Lemma serialize_committed s1 s2 : committed s1 = committed s2 →
  serialize_helios_store_serde s1 = serialize_helios_store_serde s2.
Proof. intros [= Hf Hc Hn]. unfold serialize_helios_store_serde. by rewrite Hf, Hc, Hn. Qed.

Lemma serialize_no_panic s : serialize_helios_store_serde s ≠ Panic.
Proof.
  unfold serialize_helios_store_serde. destruct (rmp_header _); [|done]. destruct (rmp_committee _); [|done].
  simpl. destruct (next_sync_committee s) as [c|]; [|done]. by destruct (rmp_committee c).
Qed.
Lemma sha256_hash_no_panic s : sha256_hash_helios_store s ≠ Panic.
Proof.
  unfold sha256_hash_helios_store. rewrite bind_Panic. intros [Hp|(? & _ & ?)]; [|done].
  by apply serialize_no_panic in Hp.
Qed.

Context `{!RmpLaws}.

Lemma serialize_inj s1 s2 bs : serialize_helios_store_serde s1 = Ok bs →
  serialize_helios_store_serde s2 = Ok bs → committed s1 = committed s2.
Proof.
  unfold serialize_helios_store_serde, committed.
  destruct s1 as [h1 c1 n1 ? ? ?], s2 as [h2 c2 n2 ? ? ?]. simpl.
  intros S1 S2. apply bind_Ok in S1 as (x1 & X1%map_err_Ok%of_sum_Ok & S1).
  apply bind_Ok in S1 as (y1 & Y1%map_err_Ok%of_sum_Ok & S1).
  apply bind_Ok in S2 as (x2 & X2%map_err_Ok%of_sum_Ok & S2).
  apply bind_Ok in S2 as (y2 & Y2%map_err_Ok%of_sum_Ok & S2).
  assert (∃ z1 z2, x1 ++ y1 ++ z1 = x2 ++ y2 ++ z2 ∧ (z1 = z2 → n1 = n2)) as (z1 & z2 & Hz & Hn).
  { destruct n1 as [n1|], n2 as [n2|];
      repeat match goal with S : _ ≫= _ = Ok bs |- _ =>
        apply bind_Ok in S as (? & ?%map_err_Ok%of_sum_Ok & S) end;
      injection S1 as <-; injection S2 as S2; rewrite <-?app_assoc in S2.
    - do 2 eexists. split; [symmetry; exact S2|]. intros ->. f_equal.
      eapply (λ A B, proj1 (rmp_committee_prefix n1 n2 _ _ [] [] A B eq_refl)); eassumption.
    - eexists _, []. split; [rewrite (app_nil_r y2); symmetry; exact S2|]. intros ->. by destruct (rmp_committee_nonempty n1).
    - exists []. eexists. split; [rewrite (app_nil_r y1); symmetry; exact S2|]. intros <-. by destruct (rmp_committee_nonempty n2).
    - exists [], []. rewrite !app_nil_r. by rewrite S2. }
  edestruct (rmp_header_prefix h1 h2) as [-> Hr]; [done..|].
  edestruct (rmp_committee_prefix c1 c2) as [-> Hr']; [done..|]. by rewrite Hn.
Qed.

Lemma store_hash_inj s1 s2 h : sha256_hash_helios_store s1 = Ok h → sha256_hash_helios_store s2 = Ok h →
  committed s1 = committed s2 ∨ sha256_collision s1 s2.
Proof.
  unfold sha256_hash_helios_store. intros (b1 & B1 & [= <-])%bind_Ok (b2 & B2 & [= Heq])%bind_Ok.
  destruct (decide (b1 = b2)) as [->|Hne]; [left; by eapply serialize_inj|right; by exists b1, b2].
Qed.

(** C23: the store hash commits to exactly the finalized header and the two sync
    committees, provided the encoding of each of them is injective and prefix free
    (as MessagePack's is): two stores hash alike if and only if they agree on those
    (whatever their participant counters), or their two encodings differ and have
    one SHA-256 hash. *)
Theorem sha256_hash_helios_store_binding s1 s2 h1 h2 :
  sha256_hash_helios_store s1 = Ok h1 → sha256_hash_helios_store s2 = Ok h2 →
  (h1 = h2 ↔ finalized_header s1 = finalized_header s2 ∧
     current_sync_committee s1 = current_sync_committee s2 ∧
     next_sync_committee s1 = next_sync_committee s2) ∨ sha256_collision s1 s2.
Proof.
  intros H1' H2'. destruct (decide (h1 = h2)) as [->|Hne].
  - destruct (store_hash_inj _ _ _ H1' H2') as [[= -> -> ->]|]; [by left|by right].
  - left. split; [done|]. intros (Hf & Hc & Hn). exfalso. apply Hne.
    unfold sha256_hash_helios_store in *. rewrite (serialize_committed s1 s2) in H1'; [congruence|].
    unfold committed. congruence.
Qed.
End StoreHash.
