(* ===== verification/Consensus.v ===== *)
(** * nori-program/src/consensus.rs and main.rs: the guest program

    The light client transition (hash check, sync committee updates, finality
    update), the variant that also verifies the proof request queue, and the
    guest's entry point. *)
From stdpp Require Import pretty.
From S2P Require Import Prelude Externals StorageLayout Types Merkle RequestLeaf Mpt StoreHash.

(** ** helios_consensus_core, as the guest uses it *)
Class HeliosCore `{HeliosTypes} := {
  (** [header.beacon().slot] *)
  beacon_slot : LightClientHeader → u64;
  ExecutionPayloadHeader : Type;
  ExecutionError : Type;
  (** [header.execution()] and the two fields read from it *)
  execution : LightClientHeader → ExecutionPayloadHeader + ExecutionError;
  payload_state_root : ExecutionPayloadHeader → B256;
  payload_block_number : ExecutionPayloadHeader → u64;
  VerifyError : Type;
  (** the [{:?}] form *)
  verify_error_debug : VerifyError → string;
  verify_update : Update → u64 → LightClientStore → B256 → Forks → () + VerifyError;
  apply_update : LightClientStore → Update → LightClientStore;
  verify_finality_update : FinalityUpdate → u64 → LightClientStore → B256 → Forks → () + VerifyError;
  apply_finality_update : LightClientStore → FinalityUpdate → LightClientStore;
  (** [TreeHash::tree_hash_root] *)
  tree_hash_root : SyncCommittee → B256
}.

Inductive ProgramError :=
| HashChainMismatch (expected actual : B256)
| InvalidUpdate (index : nat) (reason : string)
| InvalidFinalityUpdate (reason : string)
| MissingExecutionRoot
| StoreHashingError (reason : string)
| ProgramMptError (e : MptError)
| NonCheckpointOutputSlot (slot : u64).

(** [impl Display for ProgramError] *)
Definition program_error_fmt `{DebugFmt} (e : ProgramError) : string :=
  match e with
  | HashChainMismatch expected actual =>
      "Hash chain mismatch: expected " +:+ debug_b256 expected +:+ ", got " +:+ debug_b256 actual
  | InvalidUpdate index reason => "Invalid update at index " +:+ pretty index +:+ ": " +:+ reason
  | InvalidFinalityUpdate reason => "Invalid finality update: " +:+ reason
  | MissingExecutionRoot => "Missing execution root in proof inputs"
  | StoreHashingError reason => "Failed to hash store: " +:+ reason
  | ProgramMptError e => "MPT error: " +:+ mpt_error_fmt e
  | NonCheckpointOutputSlot slot =>
      "Output slot " +:+ pretty (uint_Z slot) +:+ " is not a checkpoint slot (% 32 == "
      +:+ pretty (uint_Z slot `mod` 32) +:+ ")"
  end.

Section Consensus.
  Context `{HeliosCore} `{!RmpSerde} `{Sha256}.

(** One round of the update loop: verify against the current store, then apply. *)
Definition process_update (expected_current_slot : u64) (genesis_root : B256) (forks : Forks)
    (store : LightClientStore) (indexed : nat * Update) : res ProgramError LightClientStore :=
  let '(index, update) := indexed in
  match verify_update update expected_current_slot store genesis_root forks with
  | inr err => Err (InvalidUpdate index (verify_error_debug err))
  | inl _ => Ok (apply_update store update)
  end.

Definition next_sync_committee_hash_of (store : LightClientStore) : B256 :=
  match next_sync_committee store with
  | Some next => tree_hash_root next
  | None => fb_zero 32
  end.

Definition consensus_program (proof_inputs : ConsensusProofInputs) : res ProgramError ConsensusProofOutputs :=
  let '(MkConsensusProofInputs updates finality_update expected_current_slot store genesis_root forks
          input_store_hash) := proof_inputs in
  calculated_prev_store_hash ← map_err (λ e, StoreHashingError ("Failed to hash store: " +:+ e))
    (sha256_hash_helios_store store);
  if decide (calculated_prev_store_hash ≠ input_store_hash) then
    Err (HashChainMismatch input_store_hash calculated_prev_store_hash)
  else
    let input_slot := beacon_slot (finalized_header store) in
    store ← try_fold (process_update expected_current_slot genesis_root forks) store (enumerate updates);
    match verify_finality_update finality_update expected_current_slot store genesis_root forks with
    | inr err => Err (InvalidFinalityUpdate (verify_error_debug err))
    | inl _ =>
      let store := apply_finality_update store finality_update in
      let output_slot := beacon_slot (finalized_header store) in
      let next_sync_committee_hash := next_sync_committee_hash_of store in
      match execution (finalized_header store) with
      | inr _ => Err MissingExecutionRoot
      | inl execution =>
        let execution_state_root := payload_state_root execution in
        let output_block_number := payload_block_number execution in
        output_store_hash ← map_err (λ e, StoreHashingError ("Failed to hash updated store: " +:+ e))
          (sha256_hash_helios_store store);
        Ok (MkConsensusProofOutputs input_slot input_store_hash output_slot output_store_hash
              execution_state_root next_sync_committee_hash output_block_number)
      end
    end.

Context `{AlloyTrie} `{Keccak} `{PoseidonSponge}.

(** [output_slot % 32] *)
Definition checkpoint_remainder (slot : u64) : Z := slot `mod` 32.

Definition consensus_mpt_program (proof_inputs : ProofInputs) : res ProgramError ProofOutputs :=
  let '(MkProofInputs updates finality_update expected_current_slot store genesis_root forks
          input_store_hash queue_storage) := proof_inputs in
  let proof_request_queue_address := proof_request_queue_address queue_storage in
  let input_queue_cursor := input_cursor queue_storage in
  calculated_prev_store_hash ← map_err (λ e, StoreHashingError ("Failed to hash store: " +:+ e))
    (sha256_hash_helios_store store);
  if decide (calculated_prev_store_hash ≠ input_store_hash) then
    Err (HashChainMismatch input_store_hash calculated_prev_store_hash)
  else
    let input_slot := beacon_slot (finalized_header store) in
    store ← try_fold (process_update expected_current_slot genesis_root forks) store (enumerate updates);
    match verify_finality_update finality_update expected_current_slot store genesis_root forks with
    | inr err => Err (InvalidFinalityUpdate (verify_error_debug err))
    | inl _ =>
      let store := apply_finality_update store finality_update in
      match execution (finalized_header store) with
      | inr _ => Err MissingExecutionRoot
      | inl execution =>
        let execution_state_root := payload_state_root execution in
        let output_block_number := payload_block_number execution in
        '(output_queue_cursor, verified_requests_root) ←
          map_err ProgramMptError (verify_queue execution_state_root queue_storage);
        let output_slot := beacon_slot (finalized_header store) in
        let next_sync_committee_hash := next_sync_committee_hash_of store in
        if decide (checkpoint_remainder output_slot ≠ 0) then Err (NonCheckpointOutputSlot output_slot)
        else
          output_store_hash ← map_err (λ e, StoreHashingError ("Failed to hash updated store: " +:+ e))
            (sha256_hash_helios_store store);
          Ok (MkProofOutputs input_slot input_store_hash output_slot output_store_hash
                execution_state_root verified_requests_root next_sync_committee_hash
                proof_request_queue_address input_queue_cursor output_queue_cursor output_block_number)
      end
    end.

(** [main] of the guest: decode, run, commit; every failure is a panic, after
    which nothing is committed.  [from_cbor] is [serde_cbor::from_slice]. *)
Definition guest_main {CborError} (from_cbor : list byte → ProofInputs + CborError)
    (encoded_inputs : list byte) : res Empty_set (list byte) :=
  proof_inputs ← match from_cbor encoded_inputs with inl i => Ok i | inr _ => Panic end;
  proof_outputs ← match consensus_mpt_program proof_inputs with Ok o => Ok o | _ => Panic end;
  Ok (ProofOutputs_to_bytes proof_outputs).
End Consensus.
