(* ===== verification/ConsensusSpec.v ===== *)
(** * Correctness of the guest program

    The light client transition as a relation ([lc_step]); both programs
    implement it, the queue variant adds the queue and the checkpoint check;
    chains of proofs drain the queue contiguously. *)
From S2P Require Import Prelude Externals StorageLayout Types Merkle Instances MerkleSpec RequestLeaf Mpt MptSpec StoreHash Consensus.

Section Spec.
Context `{HeliosCore} `{!RmpSerde} `{Sha256}.

(** A run of verified updates, in order. *)
Inductive lc_updates (slot : u64) (genesis_root : B256) (forks : Forks) :
    LightClientStore → list Update → LightClientStore → Prop :=
| lc_done store : lc_updates slot genesis_root forks store [] store
| lc_update store u us store' :
    verify_update u slot store genesis_root forks = inl () →
    lc_updates slot genesis_root forks (apply_update store u) us store' →
    lc_updates slot genesis_root forks store (u :: us) store'.

(** The transition of a light client: [store'] is the store after the updates and
    the finality update, from a store with the given hash. *)
Definition lc_step (i : ConsensusProofInputs) (store' : LightClientStore) : Prop :=
  sha256_hash_helios_store (cpi_store i) = Ok (cpi_store_hash i) ∧
  ∃ store1, lc_updates (cpi_expected_current_slot i) (cpi_genesis_root i) (cpi_forks i)
      (cpi_store i) (cpi_updates i) store1 ∧
    verify_finality_update (cpi_finality_update i) (cpi_expected_current_slot i) store1
      (cpi_genesis_root i) (cpi_forks i) = inl () ∧
    store' = apply_finality_update store1 (cpi_finality_update i).

(** The outputs of a transition. *)
Definition lc_outputs (i : ConsensusProofInputs) (store' : LightClientStore)
    (payload : ExecutionPayloadHeader) (hash : B256) : ConsensusProofOutputs :=
  MkConsensusProofOutputs (beacon_slot (finalized_header (cpi_store i))) (cpi_store_hash i)
    (beacon_slot (finalized_header store')) hash (payload_state_root payload)
    (next_sync_committee_hash_of store') (payload_block_number payload).

Lemma fold_updates_Ok slot genesis_root forks store us store' k :
  try_fold (process_update slot genesis_root forks) store (imap (λ j u, ((k + j)%nat, u)) us) = Ok store' ↔
  lc_updates slot genesis_root forks store us store'.
Proof.
  revert store k. induction us as [|u us IH]; intros store k; simpl.
  - split; [intros [= <-]; constructor|by inversion 1].
  - destruct (verify_update u slot store genesis_root forks) as [[]|e] eqn:Hv; simpl.
    + erewrite imap_ext; [|intros; simpl; by rewrite <-Nat.add_succ_comm]. rewrite IH. split.
      * by constructor.
      * by inversion 1.
    + split; [done|]. inversion 1. congruence.
Qed.
Lemma enumerate_updates_Ok slot genesis_root forks store us store' :
  try_fold (process_update slot genesis_root forks) store (enumerate us) = Ok store' ↔
  lc_updates slot genesis_root forks store us store'.
Proof. apply (fold_updates_Ok slot genesis_root forks store us store' 0). Qed.

Lemma process_update_eq slot genesis_root forks store i u :
  process_update slot genesis_root forks store (i, u) =
  match verify_update u slot store genesis_root forks with
  | inr err => Err (InvalidUpdate i (verify_error_debug err))
  | inl _ => Ok (apply_update store u)
  end.
Proof. done. Qed.

(** A failing round: the updates before it were applied, and it is the first to fail. *)
Lemma fold_updates_Err slot genesis_root forks store us k e :
  try_fold (process_update slot genesis_root forks) store (imap (λ j u, ((k + j)%nat, u)) us) = Err e ↔
  ∃ i u store' err, us !! i = Some u ∧ lc_updates slot genesis_root forks store (take i us) store' ∧
    verify_update u slot store' genesis_root forks = inr err ∧
    e = InvalidUpdate (k + i) (verify_error_debug err).
Proof.
  revert store k. induction us as [|u us IH]; intros store k; cbn [imap try_fold].
  - split; [done|]. by intros (i & u & ? & ? & Hl & _).
  - rewrite process_update_eq, Nat.add_0_r.
    erewrite imap_ext; [|intros; simpl; by rewrite <-Nat.add_succ_comm].
    destruct (verify_update u slot store genesis_root forks) as [[]|err] eqn:Hv.
    + rewrite Ok_bind, IH. split.
      * intros (i & u' & s' & err & Hi & Hs & He & ->). exists (S i), u', s', err.
        split_and!; [done|by constructor|done|f_equal; lia].
      * intros ([|i] & u' & s' & err & Hi & Hs & He & ->); simpl in *.
        -- inversion Hs; subst. congruence.
        -- inversion Hs; subst. exists i, u', s', err. split_and!; [done|done|done|f_equal; lia].
    + split.
      * intros [= <-]. exists 0%nat, u, store, err. rewrite Nat.add_0_r. split_and!; [done|constructor|done|done].
      * intros ([|i] & u' & s' & err' & Hi & Hs & He & ->); simpl in *; inversion Hs; subst; [|congruence].
        rewrite Nat.add_0_r. congruence.
Qed.
Lemma enumerate_updates_Err slot genesis_root forks store us e :
  try_fold (process_update slot genesis_root forks) store (enumerate us) = Err e ↔
  ∃ i u store' err, us !! i = Some u ∧ lc_updates slot genesis_root forks store (take i us) store' ∧
    verify_update u slot store' genesis_root forks = inr err ∧ e = InvalidUpdate i (verify_error_debug err).
Proof. apply (fold_updates_Err slot genesis_root forks store us 0). Qed.

(** The errors after the update loop are not about updates or the input hash. *)
Lemma finish_err {A} fu slot store1 gr forks (k : ExecutionPayloadHeader → B256 → A) e :
  match verify_finality_update fu slot store1 gr forks with
  | inr err => Err (InvalidFinalityUpdate (verify_error_debug err))
  | inl _ =>
    match execution (finalized_header (apply_finality_update store1 fu)) with
    | inr _ => Err MissingExecutionRoot
    | inl payload =>
      h ← map_err (λ e, StoreHashingError ("Failed to hash updated store: " +:+ e))
        (sha256_hash_helios_store (apply_finality_update store1 fu));
      Ok (k payload h)
    end
  end = Err e →
  match e with HashChainMismatch _ _ | InvalidUpdate _ _ => False | _ => True end.
Proof.
  destruct (verify_finality_update _ _ _ _ _); [|by intros [= <-]].
  destruct (execution _); [|by intros [= <-]].
  by intros [(? & _ & ->)%map_err_Err|(? & _ & ?)]%bind_Err.
Qed.
Lemma fold_updates_no_panic slot genesis_root forks store us :
  try_fold (process_update slot genesis_root forks) store us ≠ Panic.
Proof. apply try_fold_no_panic. intros s [i u] _. simpl. by destruct (verify_update _ _ _ _ _). Qed.

Lemma consensus_program_Ok i o : consensus_program i = Ok o ↔
  ∃ store' payload hash, lc_step i store' ∧ execution (finalized_header store') = inl payload ∧
    sha256_hash_helios_store store' = Ok hash ∧ o = lc_outputs i store' payload hash.
Proof.
  destruct i as [us fu slot store gr forks h]. unfold consensus_program, lc_step, lc_outputs. simpl. split.
  - intros (h' & Hh%map_err_Ok & Hr)%bind_Ok. case_decide as Hd; [done|].
    rewrite Hd in *; clear Hd. apply bind_Ok in Hr as (store1 & Hu%enumerate_updates_Ok & Hr).
    destruct (verify_finality_update fu slot store1 gr forks) as [[]|] eqn:Hf; [|done].
    destruct (execution _) as [payload|] eqn:Hx; [|done].
    apply bind_Ok in Hr as (hash & Hs%map_err_Ok & [= <-]).
    exists (apply_finality_update store1 fu), payload, hash. split_and!; try done. by exists store1.
  - intros (store' & payload & hash & (Hh & store1 & Hu & Hf & ->) & Hx & Hs & ->).
    rewrite Hh. simpl. rewrite decide_False by tauto.
    apply enumerate_updates_Ok in Hu. rewrite Hu. simpl. by rewrite Hf, Hx, Hs.
Qed.
Lemma consensus_program_no_panic i : consensus_program i ≠ Panic.
Proof.
  destruct i as [us fu slot store gr forks h]. unfold consensus_program.
  rewrite bind_Panic, map_err_Panic. intros [Hp|(h' & _ & Hp)]; [by apply sha256_hash_no_panic in Hp|].
  case_decide; [done|]. apply bind_Panic in Hp as [Hp|(s & _ & Hp)]; [by apply fold_updates_no_panic in Hp|].
  destruct (verify_finality_update _ _ _ _ _); [|done]. destruct (execution _); [|done].
  apply bind_Panic in Hp as [Hp|(? & _ & ?)]; [|done]. rewrite map_err_Panic in Hp.
  by apply sha256_hash_no_panic in Hp.
Qed.

(** C29: the light client program is the transition relation: it succeeds exactly
    when the store has the given hash, every update verifies against the
    store the updates before it produced, the finality update verifies and the
    final header has an execution payload; its outputs are read off the final
    store.  It never panics. *)
Theorem consensus_program_refines i :
  (∀ o, consensus_program i = Ok o ↔
    ∃ store' payload hash, lc_step i store' ∧ execution (finalized_header store') = inl payload ∧
      sha256_hash_helios_store store' = Ok hash ∧ o = lc_outputs i store' payload hash) ∧
  consensus_program i ≠ Panic.
Proof. split; [intros o; apply consensus_program_Ok|apply consensus_program_no_panic]. Qed.

(** Errors are reported in order: a wrong store hash before anything else, and
    an invalid update under its own index, exactly when it is the first to fail
    after the updates before it were applied. *)
Lemma consensus_program_errors i :
  (∀ expected actual, consensus_program i = Err (HashChainMismatch expected actual) ↔
    sha256_hash_helios_store (cpi_store i) = Ok actual ∧ expected = cpi_store_hash i ∧ actual ≠ expected) ∧
  (∀ index reason, consensus_program i = Err (InvalidUpdate index reason) ↔
    sha256_hash_helios_store (cpi_store i) = Ok (cpi_store_hash i) ∧
    ∃ u store' err, cpi_updates i !! index = Some u ∧
      lc_updates (cpi_expected_current_slot i) (cpi_genesis_root i) (cpi_forks i)
        (cpi_store i) (take index (cpi_updates i)) store' ∧
      verify_update u (cpi_expected_current_slot i) store' (cpi_genesis_root i) (cpi_forks i) = inr err ∧
      reason = verify_error_debug err).
Proof.
  destruct i as [us fu slot store gr forks h]. unfold consensus_program. simpl. split.
  - intros expected actual. split.
    + intros [Hp|(h' & Hh%map_err_Ok & Hr)]%bind_Err; [by apply map_err_Err in Hp as (? & _ & ?)|].
      case_decide as Hd; [by injection Hr as <- <-|].
      apply bind_Err in Hr as [(k & u & s' & err & _ & _ & _ & ?)%enumerate_updates_Err|(s & _ & Hr)]; [done|].
      apply finish_err in Hr. done.
    + intros (Hh & -> & Hne). rewrite Hh. simpl. by rewrite decide_True.
  - intros index reason. split.
    + intros [Hp|(h' & Hh%map_err_Ok & Hr)]%bind_Err; [by apply map_err_Err in Hp as (? & _ & ?)|].
      case_decide as Hd; [done|]. rewrite Hd in *; clear Hd. split; [done|].
      apply bind_Err in Hr as [(k & u & s' & err & Hk & Hs & He & Heq)%enumerate_updates_Err|(s & _ & Hr)].
      * injection Heq as -> ->. by exists u, s', err.
      * by apply finish_err in Hr.
    + intros (Hh & u & s' & err & Hu & Hs & He & ->). rewrite Hh. simpl. rewrite decide_False by tauto.
      assert (try_fold (process_update slot gr forks) store (enumerate us)
        = Err (InvalidUpdate index (verify_error_debug err))) as ->; [|done].
      apply enumerate_updates_Err. by exists index, u, s', err.
Qed.
End Spec.

(** ** The queue program *)
Section MptProgram.
Context `{HeliosCore} `{!RmpSerde} `{Sha256} `{AlloyTrie} `{Keccak} `{PoseidonSponge}.

Definition consensus_inputs (i : ProofInputs) : ConsensusProofInputs :=
  MkConsensusProofInputs (pi_updates i) (pi_finality_update i) (pi_expected_current_slot i) (pi_store i)
    (pi_genesis_root i) (pi_forks i) (pi_store_hash i).
Definition consensus_outputs (o : ProofOutputs) : ConsensusProofOutputs :=
  MkConsensusProofOutputs (po_input_slot o) (po_input_store_hash o) (po_output_slot o)
    (po_output_store_hash o) (po_execution_state_root o) (po_next_sync_committee_hash o)
    (po_output_block_number o).

Lemma consensus_mpt_program_Ok i o : consensus_mpt_program i = Ok o ↔
  consensus_program (consensus_inputs i) = Ok (consensus_outputs o) ∧
  verify_queue (po_execution_state_root o) (pi_queue_storage i)
    = Ok (po_output_queue_cursor o, po_verified_requests_root o) ∧
  po_output_slot o `mod` 32 = 0 ∧
  po_proof_request_queue_address o = proof_request_queue_address (pi_queue_storage i) ∧
  po_input_queue_cursor o = input_cursor (pi_queue_storage i).
Proof.
  rewrite consensus_program_Ok. destruct i as [us fu slot store gr forks h qs].
  unfold consensus_mpt_program, consensus_inputs, lc_step, lc_outputs. simpl. split.
  - intros (h' & Hh%map_err_Ok & Hr)%bind_Ok. case_decide as Hd; [done|].
    apply bind_Ok in Hr as (store1 & Hu%enumerate_updates_Ok & Hr).
    destruct (verify_finality_update fu slot store1 gr forks) as [[]|] eqn:Hf; [|done].
    destruct (execution _) as [payload|] eqn:Hx; [|done].
    apply bind_Ok in Hr as ([cursor root] & Hq%map_err_Ok & Hr). case_decide as Hc; [done|].
    apply bind_Ok in Hr as (hash & Hs%map_err_Ok & [= <-]). unfold consensus_outputs. simpl.
    split_and!; [|done|done|done|done].
    exists (apply_finality_update store1 fu), payload, hash. rewrite <-Hd. split_and!; [done|by exists store1|done..].
  - intros ((store' & payload & hash & (Hh & store1 & Hu & Hf & ->) & Hx & Hs & Ho) & Hq & Hc & Ha & Hcur).
    rewrite Hh. simpl. rewrite decide_False by tauto.
    apply enumerate_updates_Ok in Hu. rewrite Hu. simpl. rewrite Hf, Hx.
    destruct o. unfold consensus_outputs in Ho. simpl in *. injection Ho as -> -> -> -> -> -> ->. subst.
    rewrite Hq. simpl. rewrite decide_False by (unfold checkpoint_remainder; tauto). by rewrite Hs.
Qed.

(** C2: the queue program is the light client program plus the queue: it succeeds
    exactly when the light client program does with the same outputs, the
    queue verifies against the new execution state root, and the output slot
    is a checkpoint (a multiple of 32); the queue address and both cursors it
    commits are those of the verified queue. *)
Theorem consensus_mpt_program_refines i o : consensus_mpt_program i = Ok o ↔
  consensus_program (consensus_inputs i) = Ok (consensus_outputs o) ∧
  verify_queue (po_execution_state_root o) (pi_queue_storage i)
    = Ok (po_output_queue_cursor o, po_verified_requests_root o) ∧
  po_output_slot o `mod` 32 = 0 ∧
  po_proof_request_queue_address o = proof_request_queue_address (pi_queue_storage i) ∧
  po_input_queue_cursor o = input_cursor (pi_queue_storage i).
Proof. apply consensus_mpt_program_Ok. Qed.

(** What the guest commits: its public output is the 220-byte encoding of
    the outputs of a successful run on the decoded inputs, so the bytes of any
    proof decode to them; a decoding failure or a program error commits nothing. *)
Lemma guest_main_commits {CborError} (from_cbor : list byte → ProofInputs + CborError) encoded bytes :
  guest_main from_cbor encoded = Ok bytes ↔
  ∃ i o, from_cbor encoded = inl i ∧ consensus_mpt_program i = Ok o ∧ ProofOutputs_from_bytes bytes = Ok o.
Proof.
  unfold guest_main. setoid_rewrite ProofOutputs_codec_iff. split.
  - intros (i & Hi & (o & Ho & [= <-])%bind_Ok)%bind_Ok.
    destruct (from_cbor encoded) as [i'|]; [|done]. injection Hi as ->.
    destruct (consensus_mpt_program i) as [o'| |] eqn:Hp; [|done..]. injection Ho as ->. by exists i, o.
  - intros (i & o & -> & Ho & <-). simpl. by rewrite Ho.
Qed.

Lemma mpt_program_step i o : consensus_mpt_program i = Ok o →
  ∃ store', lc_step (consensus_inputs i) store' ∧
    sha256_hash_helios_store (pi_store i) = Ok (po_input_store_hash o) ∧
    sha256_hash_helios_store store' = Ok (po_output_store_hash o) ∧
    po_input_slot o = beacon_slot (finalized_header (pi_store i)) ∧
    po_output_slot o = beacon_slot (finalized_header store').
Proof.
  intros ((store' & payload & hash & Hs & Hx & Hh & Ho)%consensus_program_Ok & _)%consensus_mpt_program_Ok.
  exists store'. pose proof Hs as [Hin _]. destruct o. injection Ho as -> -> -> -> _ _ _. simpl. done.
Qed.

(** C22: hash chaining: when a proof starts from the store hash another one ended
    with, it starts from the same finalized header and sync committees (so
    from the same slot), or the two stores have different encodings with one
    SHA-256 hash. *)
Theorem hash_chain_continuity `{!RmpLaws} i1 o1 i2 o2 :
  consensus_mpt_program i1 = Ok o1 → consensus_mpt_program i2 = Ok o2 →
  po_input_store_hash o2 = po_output_store_hash o1 →
  ∃ store', lc_step (consensus_inputs i1) store' ∧
   ((po_input_slot o2 = po_output_slot o1 ∧
     finalized_header (pi_store i2) = finalized_header store' ∧
     current_sync_committee (pi_store i2) = current_sync_committee store' ∧
     next_sync_committee (pi_store i2) = next_sync_committee store')
    ∨ sha256_collision (pi_store i2) store').
Proof.
  intros (s1 & L1 & _ & O1 & _ & S1)%mpt_program_step (s2 & _ & I2 & _ & S2 & _)%mpt_program_step Heq.
  rewrite <-Heq in O1. exists s1. split; [done|].
  destruct (store_hash_inj _ _ _ I2 O1) as [[= Hf Hc Hn]|]; [left|by right].
  split; [congruence|done].
Qed.
End MptProgram.

(** ** Chains of proofs *)
Section Chain.
Context `{HeliosCore} `{!RmpSerde} `{Sha256} `{TrieContents} `{Keccak} `{PoseidonSponge}.
Context `{!PastaFieldLaws} `{!MerkleZerosChain}.

(** The outputs of successive proofs, in the order in which the destination
    accepts them.  That each proof starts at the cursor the one before it ended
    at, on the same queue, is the acceptance rule of the destination contract,
    which commits both and compares them; the guest of a proof does not see the
    proof before it.  (The contract compares store hashes too: what that gives
    is [hash_chain_continuity].) *)
Inductive proof_chain : list ProofOutputs → Prop :=
| chain_one i o : vec_fits (entries (pi_queue_storage i)) → consensus_mpt_program i = Ok o → proof_chain [o]
| chain_next i o o' os : vec_fits (entries (pi_queue_storage i)) → consensus_mpt_program i = Ok o →
    po_input_queue_cursor o' = po_output_queue_cursor o →
    po_proof_request_queue_address o' = po_proof_request_queue_address o →
    proof_chain (o' :: os) → proof_chain (o :: o' :: os).

(** [reqs] is what the proof with outputs [o] drained: the requests that follow
    its input cursor in the queue its own execution state root commits to, with
    the values they have in that state, and its requests root is their Merkle root. *)
Definition batch_of (o : ProofOutputs) (reqs : list QueuedRequest) : Prop :=
  ∃ hd leaves,
    drained (po_execution_state_root o) (po_proof_request_queue_address o) (po_input_queue_cursor o) hd reqs ∧
    uint_Z (po_output_queue_cursor o) = po_input_queue_cursor o + Z.of_nat (length reqs) ∧
    try_map request_leaf reqs = Ok leaves ∧
    fb_bytes (po_verified_requests_root o) = fp_to_bytes (requests_root leaves).

(** The proof with outputs [o] drains number [index] of the queue. *)
Definition drains (o : ProofOutputs) (index : Z) : Prop :=
  po_input_queue_cursor o ≤ index < po_output_queue_cursor o.

Lemma program_batch `{!InclusionSound, !ExclusionSound} i o :
  vec_fits (entries (pi_queue_storage i)) → consensus_mpt_program i = Ok o → ∃ reqs, batch_of o reqs.
Proof.
  intros Hfits (_ & Hq & _ & Haddr & Hcur)%consensus_mpt_program_Ok.
  apply verify_queue_Ok_iff in Hq as (maps & leaves & Hacc & Hc & Hr); [|done].
  exists (batch_requests maps (entries (pi_queue_storage i))), (head (pi_queue_storage i)), leaves.
  rewrite Haddr, Hcur. split_and!; [by eapply accepts_drained| |eapply batch_leaves, acc_leaves, Hacc|done].
  unfold batch_requests. by rewrite length_fmap.
Qed.
Lemma chain_batches `{!InclusionSound, !ExclusionSound} os : proof_chain os → ∃ batches, Forall2 batch_of os batches.
Proof.
  induction 1 as [i o Hf Ho|i o o' os Hf Ho _ _ _ (bs & Hbs)]; destruct (program_batch i o Hf Ho) as [reqs Hr].
  - exists [reqs]. by repeat constructor.
  - exists (reqs :: bs). by constructor.
Qed.

Lemma program_cursor i o : vec_fits (entries (pi_queue_storage i)) → consensus_mpt_program i = Ok o →
  po_input_queue_cursor o ≤ po_output_queue_cursor o.
Proof.
  intros Hfits (_ & Hq & _ & _ & ->)%consensus_mpt_program_Ok.
  apply verify_queue_Ok_iff in Hq as (maps & leaves & _ & Hc & _); [lia|done].
Qed.
Lemma chain_within os o1 on : proof_chain os → hd_error os = Some o1 → list.last os = Some on →
  po_input_queue_cursor o1 ≤ po_output_queue_cursor on ∧
  ∀ j o i, os !! j = Some o → drains o i → po_input_queue_cursor o1 ≤ i < po_output_queue_cursor on.
Proof.
  intros Hc. revert o1. induction Hc as [i o Hf Ho|i o o' os Hf Ho Hcur _ _ IH]; intros o1 [= <-] Hl.
  - injection Hl as <-. split; [by eapply program_cursor|]. by intros [|[]] ? k [= <-].
  - destruct (IH o' eq_refl Hl) as [Hle Hin]. pose proof (program_cursor i o Hf Ho). rewrite Hcur in *.
    split; [lia|]. intros [|j] p k Hp Hd.
    + injection Hp as <-. unfold drains in Hd. lia.
    + specialize (Hin j p k Hp Hd). lia.
Qed.
Lemma chain_once os o1 on : proof_chain os → hd_error os = Some o1 → list.last os = Some on →
  ∀ i, po_input_queue_cursor o1 ≤ i < po_output_queue_cursor on → exists! j, ∃ o, os !! j = Some o ∧ drains o i.
Proof.
  intros Hc. revert o1. induction Hc as [i o Hf Ho|i o o' os Hf Ho Hcur _ Hc IH]; intros o1 [= <-] Hl k Hk.
  - injection Hl as <-. exists 0%nat. split; [exists o; split; [done|exact Hk]|]. by intros [|[]] (? & Hj & _).
  - destruct (chain_within _ o' on Hc eq_refl Hl) as [Hle Hin]. rewrite Hcur in *.
    destruct (decide (k < po_output_queue_cursor o)) as [Hlt|Hge].
    + exists 0%nat. split; [exists o; split; [done|unfold drains; lia]|]. intros [|j] (p & Hp & Hd); [done|].
      specialize (Hin j p k Hp Hd). lia.
    + destruct (IH o' eq_refl Hl k) as (j & Hj & Huniq); [rewrite Hcur; lia|].
      exists (S j). split; [done|]. intros [|j'] (p & Hp & Hd).
      * injection Hp as <-. unfold drains in Hd. lia.
      * f_equal. apply Huniq. by exists p.
Qed.
Lemma chain_address os o1 : proof_chain os → hd_error os = Some o1 →
  Forall (λ o, po_proof_request_queue_address o = po_proof_request_queue_address o1) os.
Proof.
  intros Hc. revert o1. induction Hc as [i o|i o o' os _ _ _ Ha _ IH]; intros o1 [= <-].
  - by repeat constructor.
  - constructor; [done|]. specialize (IH o' eq_refl). by rewrite Ha in IH.
Qed.

(** C8: exactly once and in order: take the outputs of successive proofs, each
    starting at the cursor the one before it ended at and on the same queue (the
    rule by which the destination accepts a proof; the guest does not check it).
    Then every index from the first input cursor to the last output cursor is
    drained by exactly one proof of the chain and no proof drains any other, and
    each proof's committed requests root is the Merkle root of the requests at
    its own indices in the queue under its own committed execution state root,
    with their values in that state.  Which proof drains an index holds of any
    trie verifier; what it drained assumes sound inclusion AND exclusion proofs,
    and the alloy-trie version the source pins does not have sound exclusion
    proofs. *)
Theorem proof_chain_drains_contiguously os o1 on :
  proof_chain os → hd_error os = Some o1 → list.last os = Some on →
  Forall (λ o, po_proof_request_queue_address o = po_proof_request_queue_address o1) os ∧
  (∀ i, po_input_queue_cursor o1 ≤ i < po_output_queue_cursor on → exists! j, ∃ o, os !! j = Some o ∧ drains o i) ∧
  (∀ j o i, os !! j = Some o → drains o i → po_input_queue_cursor o1 ≤ i < po_output_queue_cursor on) ∧
  (InclusionSound → ExclusionSound → ∃ batches, Forall2 batch_of os batches).
Proof.
  intros Hc Ho1 Hon. split_and!; [by apply chain_address|by eapply chain_once|by eapply chain_within|].
  intros Hi He. by apply chain_batches.
Qed.
End Chain.
