(* ===== verification/ConsensusWitness.v ===== *)
(** * A concrete light client for the theorems of StoreHash and ConsensusSpec

    A header is a slot with an optional execution payload, an update is valid
    when it is newer than the store, committees are single words. *)
From S2P Require Import Prelude Externals StorageLayout Types Merkle Instances MerkleSpec RequestLeaf Mpt MptSpec MptWitness StoreHash Consensus ConsensusSpec.

#[global] Instance toy_helios : HeliosTypes := {|
  LightClientHeader := u64 * option (B256 * u64);
  SyncCommittee := B256;
  Update := (u64 * option (B256 * u64)) * B256;
  FinalityUpdate := u64 * option (B256 * u64);
  Forks := ();
  StoreRest := ()
|}.

Definition toy_set_header (s : LightClientStore) (h : u64 * option (B256 * u64)) (next : option B256) : LightClientStore :=
  MkStore h (current_sync_committee s) next (previous_max_active_participants s)
    (current_max_active_participants s) (store_rest s).
Definition toy_newer (h : u64 * option (B256 * u64)) (s : LightClientStore) : () + string :=
  if decide (uint_Z (fst (finalized_header s)) < fst h) then inl () else inr "not newer than the store".

#[global] Instance toy_core : HeliosCore := {|
  beacon_slot h := fst h;
  ExecutionPayloadHeader := B256 * u64;
  ExecutionError := ();
  execution h := match snd h with Some p => inl p | None => inr () end;
  payload_state_root := fst;
  payload_block_number := snd;
  VerifyError := string;
  verify_error_debug e := e;
  verify_update u _ s _ _ := toy_newer (fst u) s;
  apply_update s u := toy_set_header s (fst u) (Some (snd u));
  verify_finality_update f _ s _ _ := toy_newer f s;
  apply_finality_update s f := toy_set_header s f (next_sync_committee s);
  tree_hash_root c := c
|}.

Definition toy_rmp_header (h : u64 * option (B256 * u64)) : list byte :=
  match h with
  | (slot, None) => x00 :: u64_to_be_bytes slot
  | (slot, Some (root, number)) => x01 :: u64_to_be_bytes slot ++ fb_bytes root ++ u64_to_be_bytes number
  end.
#[global] Instance toy_rmp : RmpSerde := {|
  RmpError := Empty_set;
  rmp_error_to_string e := match e with end;
  rmp_header h := inl (toy_rmp_header h);
  rmp_committee c := inl (fb_bytes c)
|}.

Lemma app_fb_inj {n} (a b : FixedBytes n) s t : fb_bytes a ++ s = fb_bytes b ++ t → a = b ∧ s = t.
Proof. intros [Ha ->]%app_inj_1; [|by rewrite !length_fb]. by apply fb_eq in Ha. Qed.
Lemma app_u64_inj (a b : u64) s t : u64_to_be_bytes a ++ s = u64_to_be_bytes b ++ t → a = b ∧ s = t.
Proof.
  unfold u64_to_be_bytes. intros [Ha ->]%app_inj_1; [|by rewrite !length_be_bytes].
  by apply uint_be_bytes_inj in Ha.
Qed.

#[global] Instance toy_rmp_laws : RmpLaws.
Proof.
  split.
  - intros [a [[ra na]|]] [b [[rb nb]|]] x y s t X Y Heq;
      apply (inj inl) in X as <-; apply (inj inl) in Y as <-; cbn [toy_rmp_header app] in Heq; try discriminate Heq;
      apply (f_equal (drop 1)) in Heq; rewrite !skipn_cons, !drop_0, <-?app_assoc in Heq;
      apply app_u64_inj in Heq as [-> Heq].
    + apply app_fb_inj in Heq as [-> Heq]. by apply app_u64_inj in Heq as [-> ->].
    + by subst.
  - intros a b x y s t [= <-] [= <-] Heq. by apply app_fb_inj in Heq.
  - intros a [= Ha]. pose proof (length_fb a) as Hl. by rewrite Ha in Hl.
Qed.

Definition w_header (slot : Z) : LightClientHeader := (to_uint 64 slot, Some (w_state, to_uint 64 (slot + 1000))).
Definition w_store (slot : Z) (participants : Z) : LightClientStore :=
  MkStore (w_header slot) (repeat_byte 32 x31) None (to_uint 64 0) (to_uint 64 participants) ().
Definition w_hash (s : LightClientStore) : B256 := ok_default (fb_zero 32) (sha256_hash_helios_store s).

Lemma sha256_hash_helios_store_binding_witness :
  (w_hash (w_store 32 511) = w_hash (w_store 32 512) ↔
     finalized_header (w_store 32 511) = finalized_header (w_store 32 512) ∧
     current_sync_committee (w_store 32 511) = current_sync_committee (w_store 32 512) ∧
     next_sync_committee (w_store 32 511) = next_sync_committee (w_store 32 512)) ∨
  sha256_collision (w_store 32 511) (w_store 32 512).
Proof. apply sha256_hash_helios_store_binding; vm_compute; reflexivity. Defined.

(** The first proof drains the two requests, the second starts where it ended. *)
Definition w_drained_storage : QueueStorage :=
  MkQueueStorage w_queue (w_account w_queue_root) [] (to_uint 64 2) [] (to_uint 64 2) [] [].
Definition w_inputs (from to : Z) (qs : QueueStorage) : ProofInputs :=
  MkProofInputs [] (w_header to : FinalityUpdate) (to_uint 64 100) (w_store from 512) (fb_zero 32) (() : Forks)
    (w_hash (w_store from 512)) qs.
Definition w_inputs1 : ProofInputs := w_inputs 7 32 w_storage.
Definition w_inputs2 : ProofInputs := w_inputs 32 64 w_drained_storage.
Definition no_outputs : ProofOutputs :=
  let z := to_uint 64 0 in let h := fb_zero 32 in MkProofOutputs z h z h h h h (fb_zero 20) z z z.
Definition w_outputs1 : ProofOutputs := ok_default no_outputs (consensus_mpt_program w_inputs1).
Definition w_outputs2 : ProofOutputs := ok_default no_outputs (consensus_mpt_program w_inputs2).
Lemma w_run1 : consensus_mpt_program w_inputs1 = Ok w_outputs1.
Proof. vm_compute. reflexivity. Qed.
Lemma w_run2 : consensus_mpt_program w_inputs2 = Ok w_outputs2.
Proof. vm_compute. reflexivity. Qed.
Lemma w_links : po_input_store_hash w_outputs2 = po_output_store_hash w_outputs1 ∧
  po_input_queue_cursor w_outputs2 = po_output_queue_cursor w_outputs1 ∧
  po_proof_request_queue_address w_outputs2 = po_proof_request_queue_address w_outputs1.
Proof. split_and!; vm_compute; reflexivity. Qed.
Opaque w_outputs1 w_outputs2.

Lemma hash_chain_continuity_witness :
  ∃ store', lc_step (consensus_inputs w_inputs1) store' ∧
   ((po_input_slot w_outputs2 = po_output_slot w_outputs1 ∧
     finalized_header (pi_store w_inputs2) = finalized_header store' ∧
     current_sync_committee (pi_store w_inputs2) = current_sync_committee store' ∧
     next_sync_committee (pi_store w_inputs2) = next_sync_committee store')
    ∨ sha256_collision (pi_store w_inputs2) store').
Proof. exact (hash_chain_continuity _ _ _ _ w_run1 w_run2 (proj1 w_links)). Defined.

Definition w_chain : list ProofOutputs := [w_outputs1; w_outputs2].
Lemma proof_chain_drains_contiguously_witness :
  Forall (λ o, po_proof_request_queue_address o = po_proof_request_queue_address w_outputs1) w_chain ∧
  (∀ i, po_input_queue_cursor w_outputs1 ≤ i < po_output_queue_cursor w_outputs2 →
    exists! j, ∃ o, w_chain !! j = Some o ∧ drains o i) ∧
  (∀ j o i, w_chain !! j = Some o → drains o i →
    po_input_queue_cursor w_outputs1 ≤ i < po_output_queue_cursor w_outputs2) ∧
  ∃ batches, Forall2 batch_of w_chain batches.
Proof.
  destruct (proof_chain_drains_contiguously w_chain w_outputs1 w_outputs2) as (Ha & Ho & Hin & Hb); [|done..|].
  - eapply (chain_next w_inputs1); [exact w_fits|exact w_run1|exact (proj1 (proj2 w_links))|exact (proj2 (proj2 w_links))|].
    apply (chain_one w_inputs2); [done|exact w_run2].
  - split_and!; [exact Ha|exact Ho|exact Hin|]. apply Hb; exact _.
Defined.
