(* ===== verification/Detector.v ===== *)
(** * nori/src/bridge_head/finality_change_detector.rs

    The finality change detector: an actor that keeps the start of the current
    window, asks a validation actor for proof inputs, and emits the windows
    that show progress.  Each arm of its [select!] is a handler. *)
From S2P Require Import Prelude Externals StorageLayout Types.

Record FinalityChangeDetectorUpdate := MkUpdate {
  fu_slot : u64;
  fu_store_hash : B256;
  fu_queue_cursor : u64
}.
#[global] Instance update_eq_dec : EqDecision FinalityChangeDetectorUpdate.
Proof. solve_decision. Defined.

Record FinalityChangeDetectorJobInput := MkJobInput {
  ji_slot : u64;
  ji_store_hash : B256;
  ji_queue_cursor : u64;
  ji_next_expected_output : option FinalityChangeDetectorUpdate
}.

Section Detector.
  Context `{HeliosTypes}.

(** What the two actors send. *)
Inductive DetectorMessage :=
| ValidationJob (job : FinalityChangeDetectorJobInput)
| FinalityOutput (dual : DualProofInputsWithWindow).

(** One round of the validation actor: [prepare] stands for the two calls of
    [prepare_consensus_mpt_proof_inputs], which it makes with [validate = true]. *)
Definition validate_job (prepare : u64 → B256 → u64 → bool → res anyhow ProofInputsWithWindow)
    (job : FinalityChangeDetectorJobInput) : res anyhow DualProofInputsWithWindow :=
  match ji_next_expected_output job with
  | Some next_expected_output =>
    let current := prepare (ji_slot job) (ji_store_hash job) (ji_queue_cursor job) true in
    let next := prepare (fu_slot next_expected_output) (fu_store_hash next_expected_output)
      (fu_queue_cursor next_expected_output) true in
    match current, next with
    | Panic, _ | _, Panic => Panic
    | _, _ =>
      current_res ← current;
      next_res ← next;
      Ok (MkDual current_res (Some next_res))
    end
  | None =>
    current_res ← prepare (ji_slot job) (ji_store_hash job) (ji_queue_cursor job) true;
    Ok (MkDual current_res None)
  end.

(** The locals of the detector's task. *)
Record Detector := MkDetector {
  slot : u64;
  store_hash : B256;
  queue_cursor : u64;
  latest_slot : u64;
  in_flight : bool;
  stale : bool;
  next_expected_output : option FinalityChangeDetectorUpdate
}.

Definition detector_init (slot : u64) (store_hash : B256) (queue_cursor : u64)
    (pipeline_inflight_next_expected_output : option FinalityChangeDetectorUpdate) : Detector :=
  MkDetector slot store_hash queue_cursor slot false false pipeline_inflight_next_expected_output.

Definition set_in_flight (b : bool) (d : Detector) : Detector :=
  MkDetector (slot d) (store_hash d) (queue_cursor d) (latest_slot d) b (stale d) (next_expected_output d).
Definition set_stale (b : bool) (d : Detector) : Detector :=
  MkDetector (slot d) (store_hash d) (queue_cursor d) (latest_slot d) (in_flight d) b (next_expected_output d).
Definition set_latest_slot (s : u64) (d : Detector) : Detector :=
  MkDetector (slot d) (store_hash d) (queue_cursor d) s (in_flight d) (stale d) (next_expected_output d).
Definition set_next (n : option FinalityChangeDetectorUpdate) (d : Detector) : Detector :=
  MkDetector (slot d) (store_hash d) (queue_cursor d) (latest_slot d) (in_flight d) (stale d) n.

(** A handler of the loop: [Err ()] is [break]. *)
Abbreviation detector_handler := (eff Detector DetectorMessage () ()).

Section Handlers.
  (** Which channels still have a receiver. *)
  Context (open : DetectorMessage → bool).

Definition filtered_next (d : Detector) : option FinalityChangeDetectorUpdate :=
  match next_expected_output d with
  | Some n => if decide (fu_slot n ≠ slot d) then Some n else None
  | None => None
  end.

Definition current_job (d : Detector) : FinalityChangeDetectorJobInput :=
  MkJobInput (slot d) (store_hash d) (queue_cursor d) (filtered_next d).

Definition try_start_validation_job : detector_handler :=
  job ← gets current_job;
  _ ← send open () (ValidationJob job);
  modify (set_in_flight true).

(** The arm of [finality_stage_input_rx]; [None] when the sender was dropped. *)
Definition on_stage (msg : option FinalityChangeDetectorUpdate) : detector_handler :=
  match msg with
  | Some update =>
    _ ← modify (set_next (Some update));
    in_flight ← gets in_flight;
    if in_flight : bool then modify (set_stale true) else mret ()
  | None => lift (Err ())
  end.

(** The arm of [finality_advance_input_rx]. *)
Definition on_advance (msg : option FinalityChangeDetectorUpdate) : detector_handler :=
  match msg with
  | Some update =>
    _ ← modify (λ d, MkDetector (fu_slot update) (fu_store_hash update) (fu_queue_cursor update)
                       (fu_slot update) (in_flight d) (stale d) (next_expected_output d));
    in_flight ← gets in_flight;
    _ ← (if in_flight : bool then modify (set_stale true) else mret ());
    next ← gets next_expected_output;
    match next with
    | Some next_expected_output_some =>
      if decide (fu_slot next_expected_output_some = fu_slot update) then modify (set_next None) else mret ()
    | None => mret ()
    end
  | None => lift (Err ())
  end.

(** The arm of [validation_result_rx]. *)
Definition on_result (msg : option (anyhow + DualProofInputsWithWindow)) : detector_handler :=
  match msg with
  | Some result =>
    _ ← modify (set_in_flight false);
    match result with
    | inl _ => mret ()
    | inr dual_validated_proof_inputs =>
      stale ← gets stale;
      if stale : bool then
        _ ← modify (set_stale false);
        try_start_validation_job
      else
        let current := current_window dual_validated_proof_inputs in
        let output_slot := Types.expected_output_slot current in
        slot ← gets slot;
        latest_slot ← gets latest_slot;
        if decide (input_slot current ≠ slot) then mret ()
        else if decide (uint_Z output_slot ≤ uint_Z latest_slot) then mret ()
        else
          _ ← match next_window dual_validated_proof_inputs with
              | Some next_window =>
                if decide (uint_Z latest_slot < Types.expected_output_slot next_window)
                then send open () (FinalityOutput dual_validated_proof_inputs)
                else mret ()
              | None => send open () (FinalityOutput dual_validated_proof_inputs)
              end;
          modify (set_latest_slot output_slot)
    end
  | None => lift (Err ())
  end.

(** The tick arm. *)
Definition on_tick : detector_handler :=
  in_flight ← gets in_flight;
  if in_flight : bool then mret () else try_start_validation_job.

(** One iteration of the loop. *)
Inductive DetectorInput :=
| StageInput (msg : option FinalityChangeDetectorUpdate)
| AdvanceInput (msg : option FinalityChangeDetectorUpdate)
| ResultInput (msg : option (anyhow + DualProofInputsWithWindow))
| TickInput.

Definition detector_step (input : DetectorInput) : detector_handler :=
  match input with
  | StageInput msg => on_stage msg
  | AdvanceInput msg => on_advance msg
  | ResultInput msg => on_result msg
  | TickInput => on_tick
  end.
End Handlers.
End Detector.
#[global] Arguments on_stage : simpl never.
#[global] Arguments on_advance : simpl never.
#[global] Arguments on_result : simpl never.
#[global] Arguments on_tick : simpl never.
