(* ===== verification/DetectorSpec.v ===== *)
(** * Correctness of the finality change detector

    The detector with its validation actor as a transition system: at most one
    validation is outstanding, what is emitted was validated for the current
    state and shows progress, and two ways in which progress is dropped. *)
From stdpp Require Import sorting.
From S2P Require Import Prelude Externals StorageLayout Types Detector.

Section Spec.
Context `{HeliosTypes}.

(** ** The two actors and their channels *)

Record DetectorSystem := MkDS {
  ds_det : Detector;
  ds_jobs : list FinalityChangeDetectorJobInput;
  (** a result with the job it answers *)
  ds_results : list (FinalityChangeDetectorJobInput * (anyhow + DualProofInputsWithWindow))
}.

Definition ds_init (d : Detector) : DetectorSystem := MkDS d [] [].

Definition jobs_of (ms : list DetectorMessage) : list FinalityChangeDetectorJobInput :=
  omap (λ m, match m with ValidationJob j => Some j | FinalityOutput _ => None end) ms.
Definition outputs_of (ms : list DetectorMessage) : list DualProofInputsWithWindow :=
  omap (λ m, match m with ValidationJob _ => None | FinalityOutput d => Some d end) ms.

(** What the preparation of inputs guarantees: a window starts where it was asked to. *)
Definition prepare_law (prepare : u64 → B256 → u64 → bool → res anyhow ProofInputsWithWindow) : Prop :=
  ∀ s h c v w, prepare s h c v = Ok w → input_slot w = s.

(** A step of the detector's loop, or of the validation actor, or of the queues
    between them, other than an advance. *)
Inductive ds_own_step : DetectorSystem → list DualProofInputsWithWindow → DetectorSystem → Prop :=
| ds_stage d jobs results u d' ms :
    on_stage (Some u) d = (d', ms, Ok ()) →
    ds_own_step (MkDS d jobs results) (outputs_of ms) (MkDS d' (jobs ++ jobs_of ms) results)
| ds_tick d jobs results d' ms :
    on_tick (λ _, true) d = (d', ms, Ok ()) →
    ds_own_step (MkDS d jobs results) (outputs_of ms) (MkDS d' (jobs ++ jobs_of ms) results)
| ds_result d jobs job r results d' ms :
    on_result (λ _, true) (Some r) d = (d', ms, Ok ()) →
    ds_own_step (MkDS d jobs ((job, r) :: results)) (outputs_of ms) (MkDS d' (jobs ++ jobs_of ms) results)
| ds_actor d job jobs results prepare r :
    prepare_law prepare →
    validate_job prepare job = match r with inl e => Err e | inr dual => Ok dual end →
    ds_own_step (MkDS d (job :: jobs) results) [] (MkDS d jobs (results ++ [(job, r)])).

Inductive ds_step : DetectorSystem → list DualProofInputsWithWindow → DetectorSystem → Prop :=
| ds_own s out s' : ds_own_step s out s' → ds_step s out s'
| ds_advance d jobs results u d' ms :
    on_advance (Some u) d = (d', ms, Ok ()) →
    ds_step (MkDS d jobs results) (outputs_of ms) (MkDS d' (jobs ++ jobs_of ms) results).

(** A run between two advances, with everything it emits. *)
Inductive ds_window_run : DetectorSystem → list DualProofInputsWithWindow → DetectorSystem → Prop :=
| ds_run_nil s : ds_window_run s [] s
| ds_run_step s outs s1 out s2 :
    ds_window_run s outs s1 → ds_own_step s1 out s2 → ds_window_run s (outs ++ out) s2.

Inductive ds_reachable (start : DetectorSystem) : DetectorSystem → Prop :=
| ds_here : ds_reachable start start
| ds_there s out s' : ds_reachable start s → ds_step s out s' → ds_reachable start s'.

(** ** What each handler does *)

Lemma on_stage_eq u d : on_stage (Some u) d =
  (if in_flight d then set_stale true (set_next (Some u) d) else set_next (Some u) d, [], Ok ()).
Proof. destruct d as [? ? ? ? [] ? ?]; done. Qed.

Definition advanced (u : FinalityChangeDetectorUpdate) (d : Detector) : Detector :=
  MkDetector (fu_slot u) (fu_store_hash u) (fu_queue_cursor u) (fu_slot u) (in_flight d)
    (stale d || in_flight d)
    (match next_expected_output d with
     | Some n => if decide (fu_slot n = fu_slot u) then None else Some n
     | None => None
     end).
Lemma on_advance_eq u d : on_advance (Some u) d = (advanced u d, [], Ok ()).
Proof.
  destruct d as [s h c l f st [n|]]; unfold on_advance, advanced; eff_unfold; destruct f, st; cbn;
    try case_decide; done.
Qed.

Lemma on_tick_eq d : on_tick (λ _, true) d =
  if in_flight d then (d, [], Ok ()) else (set_in_flight true d, [ValidationJob (current_job d)], Ok ()).
Proof. destruct d as [? ? ? ? [] ? ?]; done. Qed.

(** A dual result is emitted when both windows end beyond [latest_slot]. *)
Definition shows_progress (d : Detector) (dual : DualProofInputsWithWindow) : bool :=
  bool_decide (latest_slot d < expected_output_slot (current_window dual)) &&
  match next_window dual with
  | Some w => bool_decide (latest_slot d < expected_output_slot w)
  | None => true
  end.

Lemma on_result_eq r d : on_result (λ _, true) (Some r) d =
  match r with
  | inl _ => (set_in_flight false d, [], Ok ())
  | inr dual =>
    if stale d then
      let d' := set_stale false d in (set_in_flight true d', [ValidationJob (current_job d')], Ok ())
    else if decide (input_slot (current_window dual) ≠ slot d) then (set_in_flight false d, [], Ok ())
    else if decide (expected_output_slot (current_window dual) ≤ latest_slot d)
    then (set_in_flight false d, [], Ok ())
    else (set_latest_slot (expected_output_slot (current_window dual)) (set_in_flight false d),
          if shows_progress d dual then [FinalityOutput dual] else [], Ok ())
  end.
Proof.
  destruct r as [e|dual]; [by destruct d|].
  destruct d as [s h c l f [] n]; [done|]. unfold on_result, shows_progress. eff_unfold.
  destruct (decide (input_slot _ ≠ s)); [done|]. cbn. destruct (decide (_ ≤ _)); [done|].
  rewrite bool_decide_true by lia. destruct (next_window dual) as [w|]; cbn; [|done].
  by case_decide; [rewrite bool_decide_true by done|rewrite bool_decide_false by done].
Qed.

(** ** The invariant *)

(** A result answers the windows of its job. *)
Definition answers (job : FinalityChangeDetectorJobInput) (dual : DualProofInputsWithWindow) : Prop :=
  input_slot (current_window dual) = ji_slot job ∧
  match ji_next_expected_output job, next_window dual with
  | Some n, Some w => input_slot w = fu_slot n
  | None, None => True
  | _, _ => False
  end.

Lemma validate_job_answers prepare job dual : prepare_law prepare →
  validate_job prepare job = Ok dual → answers job dual.
Proof.
  intros Hlaw. unfold validate_job, answers.
  destruct (ji_next_expected_output job) as [n|].
  - destruct (prepare (ji_slot job) _ _ _) as [w| |] eqn:Hw;
      destruct (prepare (fu_slot n) (fu_store_hash n) (fu_queue_cursor n) true) as [w'| |] eqn:Hw';
      try done. intros [= <-]. simpl. by apply Hlaw in Hw, Hw'.
  - intros (w & Hw & [= <-])%bind_Ok. simpl. by apply Hlaw in Hw.
Qed.

Record ds_inv (s : DetectorSystem) : Prop := {
  inv_flight : (length (ds_jobs s) + length (ds_results s))%nat = (if in_flight (ds_det s) then 1 else 0)%nat;
  inv_latest : slot (ds_det s) ≤ latest_slot (ds_det s);
  inv_fresh : stale (ds_det s) = false →
    ∀ job, job ∈ ds_jobs s ++ (fst <$> ds_results s) → job = current_job (ds_det s);
  inv_validated : ∀ job dual, (job, inr dual) ∈ ds_results s →
    ∃ prepare, prepare_law prepare ∧ validate_job prepare job = Ok dual
}.

Lemma ds_inv_init s h c next : ds_inv (ds_init (detector_init s h c next)).
Proof. split; simpl; [done|lia|set_solver|set_solver]. Qed.

(** With nothing outstanding the two queues are empty. *)
Lemma inv_idle s : ds_inv s → in_flight (ds_det s) = false → ds_jobs s = [] ∧ ds_results s = [].
Proof. intros [Hf _ _ _] Hi. rewrite Hi in Hf. by destruct (ds_jobs s), (ds_results s). Qed.

Lemma ds_inv_own_step s out s' : ds_inv s → ds_own_step s out s' → ds_inv s'.
Proof.
  intros Hinv Hstep. pose proof Hinv as [Hf Hl Hfr Ha].
  destruct Hstep as [d jobs results u d' ms He|d jobs results d' ms He|d jobs job r results d' ms He
    |d job jobs results prepare r Hlaw He]; simpl in *.
  - rewrite on_stage_eq in He. injection He as <- <-. simpl. rewrite app_nil_r.
    destruct d as [s h c l f st n], f; simpl in *; split; simpl; try done. intros Hst job Hj.
    destruct (inv_idle _ Hinv eq_refl) as [Hj0 Hr0]. simpl in *. subst. set_solver.
  - rewrite on_tick_eq in He. destruct (in_flight d) eqn:Hin.
    + injection He as <- <-. simpl. rewrite app_nil_r. split; simpl; by rewrite ?Hin.
    + injection He as <- <-. destruct (inv_idle _ Hinv Hin) as [Hj0 Hr0]. simpl in *. subst.
      split; simpl; [done|done| |set_solver]. intros _ job Hj.
      apply list_elem_of_singleton in Hj as ->. by destruct d.
  - rewrite on_result_eq in He. destruct (in_flight d); [|lia].
    assert (jobs = [] ∧ results = []) as [-> ->] by (destruct jobs, results; simpl in *; split; (done || lia)).
    destruct r as [e|dual].
    { injection He as <- <-. split; simpl; [done|done|set_solver|set_solver]. }
    destruct (stale d).
    { injection He as <- <-. split; simpl; [done|done| |set_solver]. intros _ job' Hj.
      apply list_elem_of_singleton in Hj as ->. by destruct d. }
    repeat case_decide; injection He as <- <-; try (split; simpl; [done|done|set_solver|set_solver]).
    split; simpl; try set_solver; [by destruct (shows_progress d dual)|lia|].
    intros _ job'. destruct (shows_progress d dual); set_solver.
  - split; simpl; [rewrite length_app; simpl; lia|done| |].
    + intros Hst job' Hj. apply Hfr; [done|]. rewrite fmap_app in Hj. simpl in Hj. set_solver.
    + intros job' dual [Hin|[= -> <-]%list_elem_of_singleton]%elem_of_app; [by apply Ha|].
      by exists prepare.
Qed.
Lemma ds_inv_step s out s' : ds_inv s → ds_step s out s' → ds_inv s'.
Proof.
  intros Hinv Hstep. destruct Hstep as [s out s' Hown|d jobs results u d' ms He];
    [exact (ds_inv_own_step _ _ _ Hinv Hown)|].
  pose proof Hinv as [Hf Hl Hfr Ha]. simpl in *.
  rewrite on_advance_eq in He. injection He as <- <-. simpl. rewrite app_nil_r.
  destruct d as [s h c l f st n]; simpl in *. split; simpl; [done|lia| |done]. intros Hst job Hj.
  apply orb_false_iff in Hst as [_ ->].
  destruct (inv_idle _ Hinv eq_refl) as [Hj0 Hr0]. simpl in *. subst. set_solver.
Qed.

Lemma ds_inv_reachable s h c next sys :
  ds_reachable (ds_init (detector_init s h c next)) sys → ds_inv sys.
Proof. induction 1 as [|? ? ? _ IH Hstep]; [apply ds_inv_init|by eapply ds_inv_step]. Qed.

(** An own step emits at most one result, and raises [latest_slot] to its output. *)
Lemma own_step_emits s out s' : ds_own_step s out s' →
  slot (ds_det s') = slot (ds_det s) ∧ latest_slot (ds_det s) ≤ latest_slot (ds_det s') ∧
  (out = [] ∨ ∃ job dual results, out = [dual] ∧ ds_results s = (job, inr dual) :: results ∧
    stale (ds_det s) = false ∧
    input_slot (current_window dual) = slot (ds_det s) ∧ shows_progress (ds_det s) dual = true ∧
    latest_slot (ds_det s') = expected_output_slot (current_window dual)).
Proof.
  destruct 1 as [d jobs results u d' ms He|d jobs results d' ms He|d jobs job r results d' ms He
    |d job jobs results prepare r Hlaw He]; simpl.
  - rewrite on_stage_eq in He. injection He as <- <-. destruct (in_flight d); simpl; split_and!; auto; lia.
  - rewrite on_tick_eq in He. destruct (in_flight d); injection He as <- <-; simpl; split_and!; auto; lia.
  - rewrite on_result_eq in He. destruct r as [e|dual].
    { injection He as <- <-. simpl. split_and!; auto; lia. }
    destruct (stale d) eqn:Hst; [injection He as <- <-; simpl; split_and!; auto; lia|].
    destruct (decide (input_slot _ ≠ _)) as [|Hin]; [injection He as <- <-; simpl; split_and!; auto; lia|].
    destruct (decide (_ ≤ _)); [injection He as <- <-; simpl; split_and!; auto; lia|].
    injection He as <- <-. simpl. split_and!; [done|lia|].
    destruct (shows_progress d dual) eqn:Hp; [right|by left].
    exists job, dual, results. by apply dec_stable in Hin.
  - split_and!; auto; lia.
Qed.
Lemma shows_progress_current d dual : shows_progress d dual = true →
  latest_slot d < expected_output_slot (current_window dual) ∧
  ∀ w, next_window dual = Some w → latest_slot d < expected_output_slot w.
Proof.
  unfold shows_progress. intros [Hc%bool_decide_eq_true Hn]%andb_true_iff. split; [done|].
  intros w Hw. rewrite Hw in Hn. by apply bool_decide_eq_true in Hn.
Qed.

(** ** Properties *)

(** At most one validation is outstanding: in every reachable state the jobs and
    results between the detector and its actor number one when [in_flight] is
    set and none otherwise, so the channels of capacity one never block a send. *)
Lemma detector_single_flight s h c next sys :
  ds_reachable (ds_init (detector_init s h c next)) sys →
  (length (ds_jobs sys) + length (ds_results sys))%nat = (if in_flight (ds_det sys) then 1 else 0)%nat.
Proof. intros Hr%ds_inv_reachable. apply Hr. Qed.

(** Freshness: whatever interleaving of stage, advance, tick and actor steps led
    here, an emitted result was validated for exactly the present slot, store
    hash, cursor and staged output, starts at the current slot, and ends, in
    both windows, beyond [latest_slot] and so beyond the slot it starts from. *)
Lemma detector_emission_fresh s h c next sys out sys' dual :
  ds_reachable (ds_init (detector_init s h c next)) sys → ds_step sys out sys' → dual ∈ out →
  (∃ prepare, prepare_law prepare ∧ validate_job prepare (current_job (ds_det sys)) = Ok dual) ∧
  input_slot (current_window dual) = slot (ds_det sys) ∧
  slot (ds_det sys) ≤ latest_slot (ds_det sys) < expected_output_slot (current_window dual) ∧
  (∀ w, next_window dual = Some w → latest_slot (ds_det sys) < expected_output_slot w ∧
    ∃ n, next_expected_output (ds_det sys) = Some n ∧ input_slot w = fu_slot n).
Proof.
  intros [Hf Hl Hfr Hv]%ds_inv_reachable Hstep Hin. destruct Hstep as [sys out sys' Hown|d jobs results u d' ms He].
  - apply own_step_emits in Hown as (_ & _ & [->|(job & dual' & results & -> & Hres & Hst & Hslot & Hp & _)]); [set_solver|].
    apply list_elem_of_singleton in Hin as ->. apply shows_progress_current in Hp as [Hc Hn].
    assert (job = current_job (ds_det sys)) as -> by (apply Hfr; [done|]; rewrite Hres; set_solver).
    destruct (Hv (current_job (ds_det sys)) dual') as (prepare & Hlaw & Hval); [rewrite Hres; set_solver|].
    split_and!; [by exists prepare|done|done|done|]. intros w Hw. split; [by apply Hn|].
    pose proof (validate_job_answers _ _ _ Hlaw Hval) as [_ Ha]. rewrite Hw in Ha.
    unfold current_job, filtered_next in Ha. simpl in Ha.
    destruct (next_expected_output (ds_det sys)) as [n|]; [|done]. case_decide; [|done]. by exists n.
  - rewrite on_advance_eq in He. injection He as <- <-. set_solver.
Qed.

(** Between two advances the emitted output slots strictly increase, whatever
    older slots the RPCs report in between. *)
Lemma detector_emissions_increase s outs s' : ds_window_run s outs s' →
  latest_slot (ds_det s) ≤ latest_slot (ds_det s') ∧
  StronglySorted (λ a b, expected_output_slot (current_window a) < expected_output_slot (current_window b)) outs ∧
  Forall (λ a, latest_slot (ds_det s) < expected_output_slot (current_window a) ≤ latest_slot (ds_det s')) outs.
Proof.
  induction 1 as [s|s outs s1 out s2 _ (Hle & Hs & Ha) Hstep]; [split_and!; [lia|constructor|constructor]|].
  apply own_step_emits in Hstep as (_ & Hle' & [->|(job & dual & results & -> & _ & _ & _ & Hp & Hlast)]).
  - rewrite app_nil_r. split_and!; [lia|done|]. eapply list.Forall_impl; [done|]. simpl. lia.
  - apply shows_progress_current in Hp as [Hc _]. split_and!; [lia| |].
    + apply StronglySorted_app. split_and!; [|done|by repeat constructor].
      intros a b Ha' Hb. apply list_elem_of_singleton in Hb as ->. rewrite Forall_elem in Ha.
      specialize (Ha a Ha'). lia.
    + apply Forall_app. split; [|apply Forall_singleton; rewrite Hlast; lia].
      eapply list.Forall_impl; [done|]. simpl. lia.
Qed.

(** A dual result whose current window shows progress but whose next window does
    not is not emitted, and [latest_slot] is raised all the same: from then on
    every result for the same current window that ends no later is dropped. *)
Lemma detector_swallows_progress d dual w :
  stale d = false → input_slot (current_window dual) = slot d →
  latest_slot d < expected_output_slot (current_window dual) →
  next_window dual = Some w → expected_output_slot w ≤ latest_slot d →
  ∃ d', on_result (λ _, true) (Some (inr dual)) d = (d', [], Ok ()) ∧ slot d' = slot d ∧
    ∀ dual', expected_output_slot (current_window dual') ≤ expected_output_slot (current_window dual) →
      outputs_of (snd (fst (on_result (λ _, true) (Some (inr dual')) d'))) = [].
Proof.
  intros Hst Hin Hlt Hw Hle. rewrite on_result_eq, Hst, decide_False by tauto. rewrite decide_False by lia.
  unfold shows_progress. rewrite Hw, (bool_decide_false (_ < expected_output_slot w)), andb_false_r by lia.
  eexists; split_and!; [done|done|]. intros dual' Hle'. rewrite on_result_eq. simpl. rewrite Hst.
  case_decide; [done|]. by rewrite decide_True.
Qed.

(** The stale mark survives an error: when a stage or advance arrives during a
    validation that then fails, the next validation, started by a tick for the
    present state, is dropped even though it is fresh and successful. *)
Lemma detector_stale_survives_error d e dual : stale d = true →
  ∃ d1 d2 d3, on_result (λ _, true) (Some (inl e)) d = (d1, [], Ok ()) ∧
    on_tick (λ _, true) d1 = (d2, [ValidationJob (current_job d)], Ok ()) ∧
    on_result (λ _, true) (Some (inr dual)) d2 = (d3, [ValidationJob (current_job d)], Ok ()).
Proof.
  intros Hst. exists (set_in_flight false d), (set_in_flight true (set_in_flight false d)).
  eexists. rewrite !on_result_eq, on_tick_eq. simpl. rewrite Hst. split_and!; [done..|by destruct d].
Qed.
End Spec.
