(* ===== verification/Notice.v ===== *)
(** * nori/src/bridge_head/notice_messages.rs

    The notices of the bridge head: an extension per kind, wrapped in a message
    with a time stamp and a type tag. *)
From S2P Require Import Prelude Externals StorageLayout Types.

(** The clock, floating point seconds and the SP1 proof type of the host. *)
Class HostRuntime := {
  (** [tokio::time::Instant] *)
  Instant : Type;
  F64 : Type;
  (** [later.duration_since(earlier).as_secs_f64()] *)
  secs_since : Instant → Instant → F64;
  (** [sp1_sdk::SP1ProofWithPublicValues] *)
  SP1ProofWithPublicValues : Type;
  (** [proof.public_values.as_slice()] *)
  public_values : SP1ProofWithPublicValues → list byte
}.

Inductive TransitionNoticeMessageType :=
| BridgeHeadStarted | BridgeHeadWarning | BridgeHeadJobCreated | BridgeHeadJobSucceeded
| BridgeHeadJobFailed | BridgeHeadFinalityTransitionDetected | BridgeHeadAdvanced.
#[global] Instance message_type_eq_dec : EqDecision TransitionNoticeMessageType.
Proof. solve_decision. Defined.

Record TransitionNoticeExtensionBridgeHeadStarted := MkStarted {
  st_latest_beacon_slot : u64; st_current_slot : u64; st_store_hash : B256; st_queue_cursor : u64 }.

Record TransitionNoticeExtensionBridgeHeadWarning := MkWarning { wn_message : string }.

Record TransitionNoticeExtensionBridgeHeadJobCreated := MkJobCreated {
  jc_job_id : u64;
  jc_input_slot : u64;
  jc_input_block_number : u64;
  jc_input_store_hash : B256;
  jc_input_queue_cursor : u64;
  jc_expected_output_slot : u64;
  jc_expected_output_block_number : u64;
  jc_expected_output_queue_cursor : u64
}.

Record TransitionNoticeExtensionBridgeHeadAdvanced := MkAdvanced {
  ad_slot : u64; ad_store_hash : B256; ad_queue_cursor : u64 }.

Section Notice.
  Context `{HeliosTypes} `{HostRuntime}.

Record TransitionNoticeExtensionBridgeHeadJobSucceeded := MkJobSucceeded {
  js_job_id : u64;
  js_input_slot : u64;
  js_input_block_number : u64;
  js_input_store_hash : B256;
  js_input_queue_cursor : u64;
  js_output_slot : u64;
  js_output_block_number : u64;
  js_output_store_hash : B256;
  js_output_queue_cursor : u64;
  js_execution_state_root : B256;
  js_verified_requests_root : B256;
  js_next_sync_committee_hash : B256;
  js_proof_request_queue_address : Address;
  js_verified_requests : list VerifiedRequest;
  js_elapsed_sec : F64
}.

Record TransitionNoticeExtensionBridgeHeadJobFailed := MkJobFailed {
  jf_job_id : u64;
  jf_input_slot : u64;
  jf_input_block_number : u64;
  jf_input_store_hash : B256;
  jf_input_queue_cursor : u64;
  jf_expected_output_slot : u64;
  jf_expected_output_block_number : u64;
  jf_expected_output_queue_cursor : u64;
  jf_error : string;
  jf_elapsed_sec : F64;
  jf_n_job_in_buffer : u64
}.

Record TransitionNoticeExtensionBridgeHeadFinalityTransitionDetected := MkFinalityTransitionDetected {
  ft_block_number : u64;
  ft_slot : u64;
  ft_input_slot : u64;
  ft_current_window : ProofInputsWithWindow;
  ft_next_window : option ProofInputsWithWindow
}.

Inductive TransitionNoticeBridgeHeadMessageExtension :=
| ExtStarted (ext : TransitionNoticeExtensionBridgeHeadStarted)
| ExtWarning (ext : TransitionNoticeExtensionBridgeHeadWarning)
| ExtJobCreated (ext : TransitionNoticeExtensionBridgeHeadJobCreated)
| ExtJobSucceeded (ext : TransitionNoticeExtensionBridgeHeadJobSucceeded)
| ExtJobFailed (ext : TransitionNoticeExtensionBridgeHeadJobFailed)
| ExtFinalityTransitionDetected (ext : TransitionNoticeExtensionBridgeHeadFinalityTransitionDetected)
| ExtHeadAdvanced (ext : TransitionNoticeExtensionBridgeHeadAdvanced).

(** The struct the [define_message!] macro generates for an extension type. *)
Record NoticeMessage (Ext : Type) := MkNotice {
  datetime_iso : string;
  extension : Ext;
  message_type : TransitionNoticeMessageType
}.

Inductive TransitionNoticeBridgeHeadMessage :=
| Started (msg : NoticeMessage TransitionNoticeExtensionBridgeHeadStarted)
| Warning (msg : NoticeMessage TransitionNoticeExtensionBridgeHeadWarning)
| JobCreated (msg : NoticeMessage TransitionNoticeExtensionBridgeHeadJobCreated)
| JobSucceeded (msg : NoticeMessage TransitionNoticeExtensionBridgeHeadJobSucceeded)
| JobFailed (msg : NoticeMessage TransitionNoticeExtensionBridgeHeadJobFailed)
| FinalityTransitionDetected (msg : NoticeMessage TransitionNoticeExtensionBridgeHeadFinalityTransitionDetected)
| HeadAdvanced (msg : NoticeMessage TransitionNoticeExtensionBridgeHeadAdvanced).

Definition into_message (self : TransitionNoticeBridgeHeadMessageExtension) (datetime_iso : string)
    : TransitionNoticeBridgeHeadMessage :=
  match self with
  | ExtStarted ext => Started (MkNotice _ datetime_iso ext BridgeHeadStarted)
  | ExtWarning ext => Warning (MkNotice _ datetime_iso ext BridgeHeadWarning)
  | ExtJobCreated ext => JobCreated (MkNotice _ datetime_iso ext BridgeHeadJobCreated)
  | ExtJobSucceeded ext => JobSucceeded (MkNotice _ datetime_iso ext BridgeHeadJobSucceeded)
  | ExtJobFailed ext => JobFailed (MkNotice _ datetime_iso ext BridgeHeadJobFailed)
  | ExtFinalityTransitionDetected ext =>
      FinalityTransitionDetected (MkNotice _ datetime_iso ext BridgeHeadFinalityTransitionDetected)
  | ExtHeadAdvanced ext => HeadAdvanced (MkNotice _ datetime_iso ext BridgeHeadAdvanced)
  end.
End Notice.
#[global] Arguments extension {Ext} _.
#[global] Arguments datetime_iso {Ext} _.
#[global] Arguments message_type {Ext} _.
