(* ===== verification/BridgeHead.v ===== *)
(** * nori/src/bridge_head/api.rs: the bridge head

    The actor that runs prover jobs and publishes notices and proofs.  Its
    methods are handlers on its state; what they send to the observer, to the
    finality change detector and to the prover's worker tasks are messages. *)
From stdpp Require Import pretty.
From S2P Require Import Prelude Externals StorageLayout Types Detector Notice.

(** [bridge_head/handles.rs] *)
Record AdvanceMessage := MkAdvance { am_slot : u64; am_store_hash : B256; am_queue_cursor : u64 }.

Section BridgeHead.
  Context `{HeliosTypes} `{HostRuntime}.

Inductive Command :=
| StageTransitionProof (inputs : ProofInputsWithWindow)
| Advance (message : AdvanceMessage).

Record ProofMessage := MkProofMessage {
  pm_input_slot : u64;
  pm_input_block_number : u64;
  pm_input_store_hash : B256;
  pm_input_queue_cursor : u64;
  pm_output_slot : u64;
  pm_output_block_number : u64;
  pm_output_store_hash : B256;
  pm_output_queue_cursor : u64;
  pm_proof : SP1ProofWithPublicValues;
  pm_execution_state_root : B256;
  pm_verified_requests_root : B256;
  pm_next_sync_committee_hash : B256;
  pm_proof_request_queue_address : Address;
  pm_verified_requests : list VerifiedRequest;
  pm_elapsed_sec : F64
}.

Record ProverJob := MkProverJob { inputs_with_window : ProofInputsWithWindow; start_instant : Instant }.
Record ProverJobError := MkProverJobError { pe_job_id : u64; pe_error : anyhow }.
(** [impl Display for ProverJobError] *)
Definition prover_job_error_fmt (e : ProverJobError) : string :=
  "Prover job " +:+ pretty (uint_Z (pe_job_id e)) +:+ " failed: " +:+ pe_error e.
(** [impl Debug for ProverJobError]; [error_debug] is the [{:?}] of the error. *)
Definition prover_job_error_debug (error_debug : anyhow → string) (e : ProverJobError) : string :=
  "ProverJobError { job_id: " +:+ pretty (uint_Z (pe_job_id e)) +:+ ", source: " +:+ error_debug (pe_error e) +:+ " }".

(** [sp1_prover::ProverJobOutput] *)
Record ProverJobOutput := MkProverJobOutput {
  pj_job_id : u64; pj_input_head : u64; pj_proof : SP1ProofWithPublicValues }.

Inductive BridgeHeadEvent :=
| ProofEvent (msg : ProofMessage)
| NoticeEvent (msg : TransitionNoticeBridgeHeadMessage).

(** The state; the channel ends are the [open] of the handlers, except the one that is set late. *)
Record BridgeHead := MkBridgeHead {
  bh_current_slot : u64;
  bh_next_slot : u64;
  bh_job_id : u64;
  bh_prover_jobs : gmap u64 ProverJob;
  (** [finality_stage_input_tx.is_some()] *)
  bh_finality_stage_input_tx : bool;
  bh_store_hash : B256;
  bh_queue_cursor : u64
}.

(** [BridgeHead::new] *)
Definition bridge_head_new : BridgeHead :=
  MkBridgeHead (to_uint 64 0) (to_uint 64 0) (to_uint 64 0) ∅ false (fb_zero 32) (to_uint 64 0).

(** What the bridge head sends: events to the observer, the arguments of a
    spawned [finality_update_job], and updates to the two inputs of the detector. *)
Inductive BridgeMessage :=
| Event (event : BridgeHeadEvent)
| SpawnJob (job_id current_slot : u64) (inputs : ProofInputs)
| StageUpdate (update : FinalityChangeDetectorUpdate)
| AdvanceUpdate (update : FinalityChangeDetectorUpdate).

Abbreviation bridge_handler := (eff BridgeHead BridgeMessage anyhow ()).

Definition set_prover_jobs (f : gmap u64 ProverJob → gmap u64 ProverJob) (b : BridgeHead) : BridgeHead :=
  MkBridgeHead (bh_current_slot b) (bh_next_slot b) (bh_job_id b) (f (bh_prover_jobs b))
    (bh_finality_stage_input_tx b) (bh_store_hash b) (bh_queue_cursor b).
Definition set_job_id (id : u64) (b : BridgeHead) : BridgeHead :=
  MkBridgeHead (bh_current_slot b) (bh_next_slot b) id (bh_prover_jobs b)
    (bh_finality_stage_input_tx b) (bh_store_hash b) (bh_queue_cursor b).
Definition set_next_slot (s : u64) (b : BridgeHead) : BridgeHead :=
  MkBridgeHead (bh_current_slot b) s (bh_job_id b) (bh_prover_jobs b)
    (bh_finality_stage_input_tx b) (bh_store_hash b) (bh_queue_cursor b).
Definition set_head (slot : u64) (store_hash : B256) (queue_cursor : u64) (b : BridgeHead) : BridgeHead :=
  MkBridgeHead slot (bh_next_slot b) (bh_job_id b) (bh_prover_jobs b)
    (bh_finality_stage_input_tx b) store_hash queue_cursor.

(** The requests a finished job covered, each with the value its target's first
    witness lists for the slot ([unwrap_or_default] is zero). *)
Definition verified_request (queue_storage : QueueStorage) (entry : QueueEntryProof) : VerifiedRequest :=
  MkVerifiedRequest (qe_target entry) (qe_collection_keys_count entry) (qe_collection_keys entry)
    (default (to_uint 256 0)
      ('(_, target) ← list_find (λ target, ts_target_address target = qe_target entry) (targets queue_storage);
       '(_, slot) ← list_find (λ slot, tsp_key slot = qe_slot_key entry) (ts_slots target);
       Some (tsp_value slot))).
Definition verified_requests_of (queue_storage : QueueStorage) : list VerifiedRequest :=
  verified_request queue_storage <$> entries queue_storage.

Section Handlers.
  (** Which receivers are alive; [Utc::now()] as text; [Instant::now()]; and
      [serde_json::to_string] of the outputs, which a log line may call. *)
  Context (open : BridgeMessage → bool) (iso : string) (now : Instant)
    (log_json : ProofOutputs → () + anyhow).

Definition trigger_listener_with_proof (payload : ProofMessage) : bridge_handler :=
  send open "channel closed" (Event (ProofEvent payload)).

Definition trigger_listener_with_notice (extension : TransitionNoticeBridgeHeadMessageExtension) : bridge_handler :=
  send open "channel closed" (Event (NoticeEvent (into_message extension iso))).

(** [input_cursor + entries.len() as u64] *)
Definition staged_queue_cursor (inputs : ProofInputs) : u64 :=
  uadd (input_cursor (pi_queue_storage inputs)) (len_u64 (entries (pi_queue_storage inputs))).

Definition stage_transition_proof (proof_inputs_with_window : ProofInputsWithWindow) : bridge_handler :=
  _ ← modify (λ b, set_job_id (uadd (bh_job_id b) (to_uint 64 1)) b);
  job_id ← gets bh_job_id;
  _ ← modify (set_prover_jobs (<[job_id := MkProverJob proof_inputs_with_window now]>));
  current_slot ← gets bh_current_slot;
  store_hash ← gets bh_store_hash;
  let expected_output_slot := Types.expected_output_slot proof_inputs_with_window in
  let expected_output_store_hash := Types.expected_output_store_hash proof_inputs_with_window in
  let expected_output_queue_cursor := staged_queue_cursor (proof_inputs proof_inputs_with_window) in
  _ ← send (λ _, true) ""%string (SpawnJob job_id current_slot (proof_inputs proof_inputs_with_window));
  tx ← gets bh_finality_stage_input_tx;
  _ ← (if tx : bool then mret () else lift Panic);
  _ ← send open "channel closed"%string (StageUpdate
        (MkUpdate expected_output_slot expected_output_store_hash expected_output_queue_cursor));
  input_slot ← gets bh_current_slot;
  input_queue_cursor ← gets bh_queue_cursor;
  next_slot ← gets bh_next_slot;
  trigger_listener_with_notice (ExtJobCreated
    (MkJobCreated job_id input_slot (input_block_number proof_inputs_with_window) store_hash
      input_queue_cursor next_slot (expected_output_block_number proof_inputs_with_window)
      expected_output_queue_cursor)).

Definition handle_prover_success (job_id : u64) (proof : SP1ProofWithPublicValues) : bridge_handler :=
  jobs ← gets bh_prover_jobs;
  job ← lift (unwrap (jobs !! job_id));
  let inputs_with_window := inputs_with_window job in
  let elapsed_sec := secs_since now (start_instant job) in
  _ ← modify (set_prover_jobs (delete job_id));
  proof_outputs ← lift (ProofOutputs_from_bytes (public_values proof));
  _ ← lift (of_sum (log_json proof_outputs));
  let queue_storage := pi_queue_storage (proof_inputs inputs_with_window) in
  let verified_requests := verified_requests_of queue_storage in
  _ ← trigger_listener_with_notice (ExtJobSucceeded
        (MkJobSucceeded job_id (po_input_slot proof_outputs) (input_block_number inputs_with_window)
          (po_input_store_hash proof_outputs) (po_input_queue_cursor proof_outputs)
          (po_output_slot proof_outputs) (po_output_block_number proof_outputs)
          (po_output_store_hash proof_outputs) (po_output_queue_cursor proof_outputs)
          (po_execution_state_root proof_outputs) (po_verified_requests_root proof_outputs)
          (po_next_sync_committee_hash proof_outputs) (po_proof_request_queue_address proof_outputs)
          verified_requests elapsed_sec));
  trigger_listener_with_proof
    (MkProofMessage (po_input_slot proof_outputs) (input_block_number inputs_with_window)
      (po_input_store_hash proof_outputs) (po_input_queue_cursor proof_outputs)
      (po_output_slot proof_outputs) (po_output_block_number proof_outputs)
      (po_output_store_hash proof_outputs) (po_output_queue_cursor proof_outputs) proof
      (po_execution_state_root proof_outputs) (po_verified_requests_root proof_outputs)
      (po_next_sync_committee_hash proof_outputs) (po_proof_request_queue_address proof_outputs)
      verified_requests elapsed_sec).

Definition handle_prover_failure (err : ProverJobError) : bridge_handler :=
  jobs ← gets bh_prover_jobs;
  job ← lift (unwrap (jobs !! pe_job_id err));
  let inputs_with_window := inputs_with_window job in
  let elapsed_sec := secs_since now (start_instant job) in
  _ ← modify (set_prover_jobs (delete (pe_job_id err)));
  n_jobs ← gets (λ b, size (bh_prover_jobs b));
  let message := ("Job '" +:+ pretty (uint_Z (pe_job_id err)) +:+ "' failed with error: "
                  +:+ prover_job_error_fmt err)%string in
  trigger_listener_with_notice (ExtJobFailed
    (MkJobFailed (pe_job_id err) (input_slot inputs_with_window) (input_block_number inputs_with_window)
      (pi_store_hash (proof_inputs inputs_with_window))
      (input_cursor (pi_queue_storage (proof_inputs inputs_with_window)))
      (Types.expected_output_slot inputs_with_window) (expected_output_block_number inputs_with_window)
      (Types.expected_output_queue_cursor inputs_with_window) message elapsed_sec
      (to_uint 64 (Z.of_nat n_jobs)))).

Definition advance (slot : u64) (store_hash : B256) (queue_cursor : u64) : bridge_handler :=
  _ ← modify (set_head slot store_hash queue_cursor);
  trigger_listener_with_notice (ExtHeadAdvanced (MkAdvanced slot store_hash queue_cursor)).

Definition on_beacon_finality_change (event : DualProofInputsWithWindow) : bridge_handler :=
  let current := current_window event in
  _ ← trigger_listener_with_notice (ExtFinalityTransitionDetected
        (MkFinalityTransitionDetected (expected_output_block_number current)
          (Types.expected_output_slot current) (input_slot current) current (next_window event)));
  modify (set_next_slot (Types.expected_output_slot current)).

(** [run], before its loop: [latest] is the slot the detector started from. *)
Definition run_init (current_slot : u64) (store_hash : B256) (queue_cursor latest : u64) : bridge_handler :=
  _ ← modify (λ b, MkBridgeHead current_slot latest (bh_job_id b) (bh_prover_jobs b) true store_hash queue_cursor);
  expect_eff (trigger_listener_with_notice (ExtStarted
    (MkStarted latest current_slot store_hash queue_cursor))).

(** One iteration of the loop; [None] when the channel's senders are gone. *)
Inductive BridgeInput :=
| FinalityInput (msg : option DualProofInputsWithWindow)
| CommandInput (msg : option Command)
| JobInput (msg : option (ProverJobOutput + ProverJobError)).

Definition bridge_step (input : BridgeInput) : bridge_handler :=
  match input with
  | FinalityInput (Some event) => on_beacon_finality_change event
  | CommandInput (Some (StageTransitionProof message)) => stage_transition_proof message
  | CommandInput (Some (Advance message)) =>
    _ ← send open "channel closed"%string (AdvanceUpdate
          (MkUpdate (am_slot message) (am_store_hash message) (am_queue_cursor message)));
    advance (am_slot message) (am_store_hash message) (am_queue_cursor message)
  | JobInput (Some (inl result_data)) =>
    handle_prover_success (pj_job_id result_data) (pj_proof result_data)
  | JobInput (Some (inr err)) => handle_prover_failure err
  | FinalityInput None | CommandInput None | JobInput None => lift (Err "channel closed"%string)
  end.
End Handlers.
End BridgeHead.
