(* ===== verification/BridgeHeadSpec.v ===== *)
(** * What the bridge head publishes

    A finished job is published with the requests it covered; here they are
    related to the root and the cursors that the proof committed. *)
From S2P Require Import Prelude Externals StorageLayout Types Merkle Instances MerkleSpec RequestLeaf Mpt MptSpec StoreHash Consensus ConsensusSpec Detector Notice BridgeHead.

(** The first match of a key that occurs once is the element that has it. *)
Lemma list_find_unique {A B} `{EqDecision B} (f : A → B) l x :
  NoDup (f <$> l) → x ∈ l → ∃ i, list_find (λ y, f y = f x) l = Some (i, x).
Proof.
  intros Hnd [i Hi]%list_elem_of_lookup. exists i. apply list_find_Some. split_and!; [done..|].
  intros j y Hj Hlt Heq. apply (NoDup_lookup _ i j (f x)) in Hnd; [lia|by rewrite list_lookup_fmap, Hi|].
  by rewrite list_lookup_fmap, Hj, <-Heq.
Qed.

Section Published.
Context `{AlloyTrie} `{Keccak} `{PoseidonSponge} `{!PastaFieldLaws} `{!MerkleZerosChain}.

(** Each target occurs once in the witness, and each slot once in its target. *)
Definition targets_distinct (qs : QueueStorage) : Prop :=
  NoDup (ts_target_address <$> targets qs) ∧
  Forall (λ t, NoDup (tsp_key <$> ts_slots t)) (targets qs).

Lemma insert_slots_source (t : Address) (slots : list TargetSlotProof) (m : gmap (Address * B256) TargetSlotProof) t' k s :
  foldl (λ m slot, <[(t, tsp_key slot) := slot]> m) m slots !! (t', k) = Some s →
  (t' = t ∧ k = tsp_key s ∧ s ∈ slots) ∨ m !! (t', k) = Some s.
Proof.
  revert m. induction slots as [|slot slots IH]; intros m; simpl; [by right|].
  intros [(-> & -> & Hin)|Hm]%IH; [left; split_and!; [done..|by right]|].
  apply lookup_insert_Some in Hm as [[[= <- <-] <-]|[_ Hm]]; [|by right].
  left. split_and!; [done..|by left].
Qed.
Lemma target_slots_source st ts maps t k s : try_fold (verify_target st) (∅, ∅) ts = Ok maps →
  snd maps !! (t, k) = Some s → ∃ target, target ∈ ts ∧ ts_target_address target = t ∧ k = tsp_key s ∧ s ∈ ts_slots target.
Proof.
  intros Hf. revert t k s. eapply (try_fold_Ok_ind (λ maps, ∀ t k s, snd maps !! (t, k) = Some s → _)); [done| |].
  - intros t k s. simpl. by rewrite lookup_empty.
  - intros [roots slots] target maps' Hin IH Ht t k s. unfold verify_target in Ht. res_inv. subst maps'. simpl in *.
    intros [(-> & -> & Hs)|?]%insert_slots_source; [by exists target|by apply IH].
Qed.

(** The leaf of a published request. *)
Definition published_leaf (r : VerifiedRequest) : res anyhow Fp :=
  hash_request_leaf (vr_target r) (vr_collection_keys_count r) (fst (vr_collection_keys r))
    (snd (vr_collection_keys r)) (vr_value r).

Lemma verified_request_value st qs maps leaves entry slot : accepts st qs maps leaves → targets_distinct qs →
  snd maps !! (qe_target entry, qe_slot_key entry) = Some slot →
  vr_value (verified_request qs entry) = tsp_value slot.
Proof.
  intros Hacc [Hnd Hslots] Hs.
  destruct (target_slots_source _ _ _ _ _ _ (acc_targets _ _ _ _ Hacc) Hs) as (target & Hin & Ht & Hk & Hslot).
  destruct (list_find_unique ts_target_address _ _ Hnd Hin) as [i Hi].
  rewrite Forall_elem in Hslots.
  destruct (list_find_unique tsp_key _ _ (Hslots _ Hin) Hslot) as [j Hj].
  unfold verified_request. simpl. rewrite Hk, <-Ht, Hi. simpl. by rewrite Hj.
Qed.

Lemma published_leaves st qs maps leaves : accepts st qs maps leaves → targets_distinct qs →
  try_map (published_leaf) (verified_requests_of qs) = Ok leaves.
Proof.
  intros Hacc Hd. pose proof (acc_leaves _ _ _ _ Hacc) as Hl. apply try_map_Ok in Hl. apply try_map_Ok.
  unfold verified_requests_of. rewrite Forall2_fmap_l. eapply list.Forall2_impl; [done|]. simpl.
  intros entry leaf (root & slot & _ & Hs & _ & Hh)%entry_leaf_Ok. unfold published_leaf.
  by rewrite (verified_request_value _ _ _ _ _ _ Hacc Hd Hs).
Qed.
End Published.

Section Success.
Context `{HeliosCore} `{!RmpSerde} `{Sha256} `{AlloyTrie} `{Keccak} `{PoseidonSponge} `{!PastaFieldLaws} `{!MerkleZerosChain}.
Context `{HostRuntime}.

(** The handler on a job whose proof commits the outputs [o]. *)
Lemma handle_prover_success_eq iso now json id proof b job o :
  bh_prover_jobs b !! id = Some job → public_values proof = ProofOutputs_to_bytes o → json o = inl () →
  ∃ notice m, handle_prover_success (λ _, true) iso now json id proof b =
    (set_prover_jobs (delete id) b, [Event (NoticeEvent (JobSucceeded notice)); Event (ProofEvent m)], Ok ()) ∧
  pm_verified_requests m = verified_requests_of (pi_queue_storage (proof_inputs (inputs_with_window job))) ∧
  pm_verified_requests_root m = po_verified_requests_root o ∧
  (pm_input_slot m, pm_input_store_hash m, pm_input_queue_cursor m) =
    (po_input_slot o, po_input_store_hash o, po_input_queue_cursor o) ∧
  (pm_output_slot m, pm_output_store_hash m, pm_output_queue_cursor m) =
    (po_output_slot o, po_output_store_hash o, po_output_queue_cursor o) ∧
  js_verified_requests (extension notice) = pm_verified_requests m ∧
  js_output_queue_cursor (extension notice) = pm_output_queue_cursor m.
Proof.
  intros Hj Hp Hlog. unfold handle_prover_success. eff_unfold. rewrite Hj. simpl. rewrite Hp.
  rewrite (proj2 (ProofOutputs_codec_iff _ o)) by done. simpl. rewrite Hlog. simpl.
  do 2 eexists. split_and!; done.
Qed.

(** The requests published for inputs that the guest accepts. *)
Lemma published_requests inputs o : consensus_mpt_program inputs = Ok o →
  vec_fits (entries (pi_queue_storage inputs)) → targets_distinct (pi_queue_storage inputs) →
  ∃ leaves, try_map published_leaf (verified_requests_of (pi_queue_storage inputs)) = Ok leaves ∧
    fb_bytes (po_verified_requests_root o) = fp_to_bytes (requests_root leaves) ∧
    uint_Z (po_output_queue_cursor o) =
      po_input_queue_cursor o + Z.of_nat (length (verified_requests_of (pi_queue_storage inputs))) ∧
    po_output_queue_cursor o = staged_queue_cursor inputs.
Proof.
  intros (_ & Hq & _ & _ & Hcur)%consensus_mpt_program_Ok Hfits Hd.
  apply verify_queue_Ok_iff in Hq as (maps & leaves & Hacc & Hc & Hr); [|done].
  exists leaves. split_and!; [by apply (published_leaves (po_execution_state_root o) _ maps)|done|..].
  - unfold verified_requests_of. by rewrite length_fmap, Hcur.
  - apply uint_eq. unfold staged_queue_cursor. rewrite Hc, uadd_small; rewrite len_u64_fits by done; [done|].
    rewrite <-Hc. apply uint_range.
Qed.

(** C16: what is published is what was proved: take a job whose inputs ask for no
    target twice and for no slot of a target twice ([targets_distinct]), with a
    list of entries of a length a Rust vector can have; all inputs this host
    prepares are such ([prepared_inputs_provable]), and for others the published
    value of a target given twice may not be the committed one, since the
    bridge head looks up the first witness and the guest keeps the last.  When
    the job's proof commits the outputs of the guest program on these inputs,
    the bridge head removes the job and publishes a success notice and then the
    proof message; the leaves rebuilt from the published requests have the
    committed root, the output cursor is the input cursor plus the number of
    published requests, and it is the cursor the detector was given when the
    job was staged. *)
Theorem published_proof_consistent iso now json id proof b job o :
  let inputs := proof_inputs (inputs_with_window job) in
  bh_prover_jobs b !! id = Some job → public_values proof = ProofOutputs_to_bytes o → json o = inl () →
  consensus_mpt_program inputs = Ok o →
  vec_fits (entries (pi_queue_storage inputs)) → targets_distinct (pi_queue_storage inputs) →
  ∃ notice m leaves,
    handle_prover_success (λ _, true) iso now json id proof b =
      (set_prover_jobs (delete id) b, [Event (NoticeEvent (JobSucceeded notice)); Event (ProofEvent m)], Ok ()) ∧
    try_map published_leaf (pm_verified_requests m) = Ok leaves ∧
    fb_bytes (pm_verified_requests_root m) = fp_to_bytes (requests_root leaves) ∧
    uint_Z (pm_output_queue_cursor m) =
      pm_input_queue_cursor m + Z.of_nat (length (pm_verified_requests m)) ∧
    pm_output_queue_cursor m = staged_queue_cursor inputs.
Proof.
  intros inputs Hj Hp Hlog Hrun Hfits Hd.
  destruct (published_requests inputs o Hrun Hfits Hd) as (leaves & Hl & Hroot' & Hc & Hst).
  destruct (handle_prover_success_eq iso now json id proof b job o Hj Hp Hlog)
    as (notice & m & Hh & Hreqs & Hroot & Hin & Hout & _).
  injection Hin as _ _ Hin. injection Hout as _ _ Hout.
  exists notice, m, leaves. rewrite Hreqs, Hroot, Hin, Hout. done.
Qed.
End Success.
