(* ===== verification/Observer.v ===== *)
(** * nori/src/bridge_head/observer.rs, checkpoint.rs and bin/nori_bridge_head.rs

    The reference observer that drives the bridge head: it advances the head on
    every proof and decides when the next proof is staged. *)
From S2P Require Import Prelude Externals StorageLayout Types Detector Notice BridgeHead.

(** [bridge_head/checkpoint.rs] *)
Record NoriBridgeCheckpoint := MkCheckpoint { cp_slot : u64; cp_store_hash : B256; cp_queue_cursor : u64 }.

Section Observer.
  Context `{HeliosTypes} `{HostRuntime}.

Record ExampleBridgeHeadEventObserver := MkObserver {
  ob_started : bool;
  ob_current_slot : u64;
  ob_store_hash : B256;
  ob_queue_cursor : u64;
  ob_stage_transition_proof : bool;
  ob_latest_current_window : option ProofInputsWithWindow;
  ob_latest_next_window : option ProofInputsWithWindow
}.

Definition observer_new : ExampleBridgeHeadEventObserver :=
  MkObserver false (to_uint 64 0) (fb_zero 32) (to_uint 64 0) false None None.

(** What the observer does to the outside: files and commands. *)
Inductive ObserverMessage :=
| CreateDir (path : string)
| SaveProof (proof : SP1ProofWithPublicValues) (input_slot : u64)
| SaveProofMessage (msg : ProofMessage)
| SaveCheckpoint (checkpoint : NoriBridgeCheckpoint)
| SendCommand (command : Command).

(** [Err reason] is [panic_more(reason)], which exits the process. *)
Abbreviation observer_handler := (eff ExampleBridgeHeadEventObserver ObserverMessage string ()).

Definition set_started (o : ExampleBridgeHeadEventObserver) : ExampleBridgeHeadEventObserver :=
  MkObserver true (ob_current_slot o) (ob_store_hash o) (ob_queue_cursor o)
    (ob_stage_transition_proof o) (ob_latest_current_window o) (ob_latest_next_window o).
Definition set_ob_head (slot : u64) (store_hash : B256) (queue_cursor : u64)
    (o : ExampleBridgeHeadEventObserver) : ExampleBridgeHeadEventObserver :=
  MkObserver (ob_started o) slot store_hash queue_cursor (ob_stage_transition_proof o)
    (ob_latest_current_window o) (ob_latest_next_window o).
Definition set_stage (b : bool) (o : ExampleBridgeHeadEventObserver) : ExampleBridgeHeadEventObserver :=
  MkObserver (ob_started o) (ob_current_slot o) (ob_store_hash o) (ob_queue_cursor o) b
    (ob_latest_current_window o) (ob_latest_next_window o).
Definition set_windows (current next : option ProofInputsWithWindow)
    (o : ExampleBridgeHeadEventObserver) : ExampleBridgeHeadEventObserver :=
  MkObserver (ob_started o) (ob_current_slot o) (ob_store_hash o) (ob_queue_cursor o)
    (ob_stage_transition_proof o) current next.

Section Handlers.
  (** Which directories can be created, and which writes and sends succeed. *)
  Context (open : ObserverMessage → bool).

Definition save_nb_checkpoint (slot : u64) (store_hash : B256) (queue_cursor : u64) : observer_handler :=
  expect_eff (send open "Failed to write to checkpoint file" (SaveCheckpoint (MkCheckpoint slot store_hash queue_cursor))).

(** [CommandHandle::stage_transition_proof] and [CommandHandle::advance] *)
Definition command (cmd : Command) : observer_handler :=
  send open "Bridge head command channel closed" (SendCommand cmd).

Definition observer_advance (slot : u64) (store_hash : B256) (queue_cursor : u64) : observer_handler :=
  _ ← modify (set_ob_head slot store_hash queue_cursor);
  _ ← save_nb_checkpoint slot store_hash queue_cursor;
  command (Advance (MkAdvance slot store_hash queue_cursor)).

(** utils.rs: a directory that cannot be created is an error; the file is
    serialized and written with [unwrap], so that a failure there is a panic. *)
Definition handle_nori_proof (proof : SP1ProofWithPublicValues) (latest_block : u64) : observer_handler :=
  _ ← send open "cannot create directory"%string (CreateDir "./sp1-helios-proofs");
  expect_eff (send open ""%string (SaveProof proof latest_block)).
Definition handle_nori_proof_message (proof_message : ProofMessage) : observer_handler :=
  _ ← send open "cannot create directory"%string (CreateDir "./sp1-helios-proof-messages");
  expect_eff (send open ""%string (SaveProofMessage proof_message)).
(** [if m.await.is_err() { panic_more(message) }] *)
Definition or_panic_more (message : string) (m : observer_handler) : observer_handler := λ o,
  match m o with (o', ws, Err _) => (o', ws, Err message) | other => other end.

Definition on_transition_proof_succeeded (proof_data : ProofMessage) : observer_handler :=
  _ ← or_panic_more "Could not save new Sp1 proof to disk!"
        (handle_nori_proof (pm_proof proof_data) (pm_input_slot proof_data));
  _ ← or_panic_more "Could not save new Sp1 proof message to disk!" (handle_nori_proof_message proof_data);
  _ ← observer_advance (pm_output_slot proof_data) (pm_output_store_hash proof_data)
        (pm_output_queue_cursor proof_data);
  next ← gets ob_latest_next_window;
  let queue_a_job := modify (set_stage true) in
  match next with
  | Some next_window =>
    if decide (input_slot next_window = pm_output_slot proof_data)
    then command (StageTransitionProof next_window)
    else queue_a_job
  | None => queue_a_job
  end.

Definition on_bridge_head_transition_notice (notice_data : TransitionNoticeBridgeHeadMessage) : observer_handler :=
  match notice_data with
  | Started data =>
    _ ← modify set_started;
    _ ← modify (λ o, set_ob_head (st_current_slot (extension data)) (st_store_hash (extension data))
                       (ob_queue_cursor o) o);
    modify (set_stage true)
  | Warning _ | JobCreated _ | JobSucceeded _ | HeadAdvanced _ => mret ()
  | JobFailed data =>
    if decide (uint_Z (jf_n_job_in_buffer (extension data)) = 0) then
      current ← gets ob_latest_current_window;
      match current with
      | Some proof_input_with_window => command (StageTransitionProof proof_input_with_window)
      | None => lift (Err "Tried to redo a job but latest_validated_proof_input_with_window was not defined"%string)
      end
    else mret ()
  | FinalityTransitionDetected data =>
    _ ← modify (set_windows (Some (ft_current_window (extension data))) (ft_next_window (extension data)));
    stage ← gets ob_stage_transition_proof;
    if stage : bool then
      _ ← command (StageTransitionProof (ft_current_window (extension data)));
      modify (set_stage false)
    else mret ()
  end.

(** One iteration of [run]; a dropped sender exits the process. *)
Definition observer_step (msg : option BridgeHeadEvent) : observer_handler :=
  match msg with
  | Some (ProofEvent proof_msg) => on_transition_proof_succeeded proof_msg
  | Some (NoticeEvent notice_msg) => on_bridge_head_transition_notice notice_msg
  | None => lift (Err "Event receiver for BridgeHead dropped"%string)
  end.
End Handlers.
End Observer.

(** ** Start-up of the binary *)

(** The head to start from: the checkpoint when there is one, otherwise what
    [get_latest_finality_slot_and_store_hash] returns, with cursor zero. *)
Definition boot_head (checkpoint : option NoriBridgeCheckpoint)
    (get_latest_finality_slot_and_store_hash : res anyhow (u64 * B256)) : res anyhow (u64 * B256 * u64) :=
  match checkpoint with
  | Some nb_checkpoint =>
    Ok (cp_slot nb_checkpoint, cp_store_hash nb_checkpoint, cp_queue_cursor nb_checkpoint)
  | None =>
    match get_latest_finality_slot_and_store_hash with
    | Ok (current_slot, store_hash) => Ok (current_slot, store_hash, to_uint 64 0)
    | _ => Panic
    end
  end.
