(* ===== verification/System.v ===== *)
(** * The running bridge head: all actors and the channels between them

    The finality change detector and its validation actor, the bridge head with
    its prover jobs, and the observer, connected by first-in first-out queues.
    An [action] is one iteration of one actor's loop; any interleaving is a run.
    The queues have no bound, so that a send never waits: every run of the program
    is a run here, but not the other way round.  Channels.v has the same steps
    with the capacities of the source; what is stated of all runs of this model
    holds of those, and what is stated of progress is stated there. *)
From S2P Require Import Prelude Externals StorageLayout Types Detector Notice BridgeHead Observer.

Section System.
  Context `{HeliosTypes} `{HostRuntime}.

Record System := MkSystem {
  sy_detector : Detector;
  sy_validation_jobs : list FinalityChangeDetectorJobInput;
  sy_validation_results : list (anyhow + DualProofInputsWithWindow);
  (** [finality_output], [finality_stage_input] and [finality_advance_input] *)
  sy_finality : list DualProofInputsWithWindow;
  sy_stages : list FinalityChangeDetectorUpdate;
  sy_advances : list FinalityChangeDetectorUpdate;
  sy_bridge : BridgeHead;
  (** spawned prover tasks, and the results they sent *)
  sy_running : list (u64 * u64 * ProofInputs);
  sy_job_results : list (ProverJobOutput + ProverJobError);
  (** [event_tx] and [command_tx] *)
  sy_events : list BridgeHeadEvent;
  sy_commands : list Command;
  sy_observer : ExampleBridgeHeadEventObserver
}.

Definition with_detector (d : Detector) (ms : list DetectorMessage) (s : System) : System :=
  MkSystem d
    (sy_validation_jobs s ++ omap (λ m, match m with ValidationJob j => Some j | _ => None end) ms)
    (sy_validation_results s)
    (sy_finality s ++ omap (λ m, match m with FinalityOutput o => Some o | _ => None end) ms)
    (sy_stages s) (sy_advances s) (sy_bridge s) (sy_running s) (sy_job_results s) (sy_events s)
    (sy_commands s) (sy_observer s).
Definition with_bridge (b : BridgeHead) (ms : list BridgeMessage) (s : System) : System :=
  MkSystem (sy_detector s) (sy_validation_jobs s) (sy_validation_results s) (sy_finality s)
    (sy_stages s ++ omap (λ m, match m with StageUpdate u => Some u | _ => None end) ms)
    (sy_advances s ++ omap (λ m, match m with AdvanceUpdate u => Some u | _ => None end) ms)
    b
    (sy_running s ++ omap (λ m, match m with SpawnJob id slot inputs => Some (id, slot, inputs) | _ => None end) ms)
    (sy_job_results s)
    (sy_events s ++ omap (λ m, match m with Event e => Some e | _ => None end) ms)
    (sy_commands s) (sy_observer s).
Definition with_observer (o : ExampleBridgeHeadEventObserver) (ms : list ObserverMessage) (s : System) : System :=
  MkSystem (sy_detector s) (sy_validation_jobs s) (sy_validation_results s) (sy_finality s) (sy_stages s)
    (sy_advances s) (sy_bridge s) (sy_running s) (sy_job_results s) (sy_events s)
    (sy_commands s ++ omap (λ m, match m with SendCommand c => Some c | _ => None end) ms) o.

Definition run_detector (m : eff Detector DetectorMessage () ()) (s : System) : option System :=
  match m (sy_detector s) with (d, ms, Ok _) => Some (with_detector d ms s) | _ => None end.
Definition run_bridge (m : eff BridgeHead BridgeMessage anyhow ()) (s : System) : option System :=
  match m (sy_bridge s) with (b, ms, Ok _) => Some (with_bridge b ms s) | _ => None end.
Definition run_observer (m : eff ExampleBridgeHeadEventObserver ObserverMessage string ()) (s : System) : option System :=
  match m (sy_observer s) with (o, ms, Ok _) => Some (with_observer o ms s) | _ => None end.

(** Removal of the oldest message of a queue. *)
Definition pop_results (rs : list (anyhow + DualProofInputsWithWindow)) (s : System) : System :=
  MkSystem (sy_detector s) (sy_validation_jobs s) rs (sy_finality s) (sy_stages s) (sy_advances s)
    (sy_bridge s) (sy_running s) (sy_job_results s) (sy_events s) (sy_commands s) (sy_observer s).
Definition pop_stages (us : list FinalityChangeDetectorUpdate) (s : System) : System :=
  MkSystem (sy_detector s) (sy_validation_jobs s) (sy_validation_results s) (sy_finality s) us (sy_advances s)
    (sy_bridge s) (sy_running s) (sy_job_results s) (sy_events s) (sy_commands s) (sy_observer s).
Definition pop_advances (us : list FinalityChangeDetectorUpdate) (s : System) : System :=
  MkSystem (sy_detector s) (sy_validation_jobs s) (sy_validation_results s) (sy_finality s) (sy_stages s) us
    (sy_bridge s) (sy_running s) (sy_job_results s) (sy_events s) (sy_commands s) (sy_observer s).
Definition pop_finality (fs : list DualProofInputsWithWindow) (s : System) : System :=
  MkSystem (sy_detector s) (sy_validation_jobs s) (sy_validation_results s) fs (sy_stages s) (sy_advances s)
    (sy_bridge s) (sy_running s) (sy_job_results s) (sy_events s) (sy_commands s) (sy_observer s).
Definition pop_commands (cs : list Command) (s : System) : System :=
  MkSystem (sy_detector s) (sy_validation_jobs s) (sy_validation_results s) (sy_finality s) (sy_stages s)
    (sy_advances s) (sy_bridge s) (sy_running s) (sy_job_results s) (sy_events s) cs (sy_observer s).
Definition pop_job_results (rs : list (ProverJobOutput + ProverJobError)) (s : System) : System :=
  MkSystem (sy_detector s) (sy_validation_jobs s) (sy_validation_results s) (sy_finality s) (sy_stages s)
    (sy_advances s) (sy_bridge s) (sy_running s) rs (sy_events s) (sy_commands s) (sy_observer s).
Definition pop_events (es : list BridgeHeadEvent) (s : System) : System :=
  MkSystem (sy_detector s) (sy_validation_jobs s) (sy_validation_results s) (sy_finality s) (sy_stages s)
    (sy_advances s) (sy_bridge s) (sy_running s) (sy_job_results s) es (sy_commands s) (sy_observer s).

Inductive action :=
| DetectorTick
| DetectorStage
| DetectorAdvance
| DetectorResult
(** the validation actor, with what the RPCs answer this time *)
| Validate (prepare : u64 → B256 → u64 → bool → res anyhow ProofInputsWithWindow)
| BridgeFinality
| BridgeCommand (now : Instant)
| BridgeJobResult (now : Instant)
(** the prover task at this position of the running ones ends *)
| ProverDone (i : nat) (proof : SP1ProofWithPublicValues)
| ProverFailed (i : nat) (error : anyhow)
| ObserverEvent.

(** One step; [None] when the action is not enabled or the actor's loop ends. *)
Definition sys_exec (s : System) (a : action) : option System :=
  let all {A : Type} := λ _ : A, true in
  let bridge now input := bridge_step all "" now (λ _, inl ()) input in
  match a with
  | DetectorTick => run_detector (on_tick all) s
  | DetectorStage =>
    match sy_stages s with
    | u :: us => run_detector (on_stage (Some u)) (pop_stages us s)
    | [] => None
    end
  | DetectorAdvance =>
    match sy_advances s with
    | u :: us => run_detector (on_advance (Some u)) (pop_advances us s)
    | [] => None
    end
  | DetectorResult =>
    match sy_validation_results s with
    | r :: rs => run_detector (on_result all (Some r)) (pop_results rs s)
    | [] => None
    end
  | Validate prepare =>
    match sy_validation_jobs s with
    | job :: jobs =>
      r ← match validate_job prepare job with
          | Ok dual => Some (inr dual) | Err e => Some (inl e) | Panic => None
          end;
      Some (MkSystem (sy_detector s) jobs (sy_validation_results s ++ [r]) (sy_finality s) (sy_stages s)
              (sy_advances s) (sy_bridge s) (sy_running s) (sy_job_results s) (sy_events s)
              (sy_commands s) (sy_observer s))
    | [] => None
    end
  | BridgeFinality =>
    match sy_finality s with
    | f :: fs => run_bridge (on_beacon_finality_change all "" f) (pop_finality fs s)
    | [] => None
    end
  | BridgeCommand now =>
    match sy_commands s with
    | c :: cs => run_bridge (bridge now (CommandInput (Some c))) (pop_commands cs s)
    | [] => None
    end
  | BridgeJobResult now =>
    match sy_job_results s with
    | r :: rs => run_bridge (bridge now (JobInput (Some r))) (pop_job_results rs s)
    | [] => None
    end
  | ProverDone i proof =>
    '(id, input_head, _) ← sy_running s !! i;
    Some (MkSystem (sy_detector s) (sy_validation_jobs s) (sy_validation_results s) (sy_finality s) (sy_stages s)
            (sy_advances s) (sy_bridge s) (delete i (sy_running s))
            (sy_job_results s ++ [inl (MkProverJobOutput id input_head proof)])
            (sy_events s) (sy_commands s) (sy_observer s))
  | ProverFailed i error =>
    '(id, input_head, _) ← sy_running s !! i;
    Some (MkSystem (sy_detector s) (sy_validation_jobs s) (sy_validation_results s) (sy_finality s) (sy_stages s)
            (sy_advances s) (sy_bridge s) (delete i (sy_running s))
            (sy_job_results s ++ [inr (MkProverJobError id error)])
            (sy_events s) (sy_commands s) (sy_observer s))
  | ObserverEvent =>
    match sy_events s with
    | e :: es => run_observer (observer_step all (Some e)) (pop_events es s)
    | [] => None
    end
  end.

(** The state in which the loops start: the bridge head has sent [Started]. *)
Definition sys_start (slot : u64) (store_hash : B256) (queue_cursor latest : u64)
    (inflight : option FinalityChangeDetectorUpdate) : System :=
  let '(b, ms, _) := run_init (λ _, true) "" slot store_hash queue_cursor latest bridge_head_new in
  with_bridge b ms (MkSystem (detector_init slot store_hash queue_cursor inflight) [] [] [] [] []
    bridge_head_new [] [] [] [] observer_new).

(** A run of [n] steps. *)
Inductive sys_run (start : System) : nat → System → Prop :=
| run_here : sys_run start 0 start
| run_step n s a s' : sys_run start n s → sys_exec s a = Some s' → sys_run start (S n) s'.

(** A schedule: the run that takes these actions in order. *)
Definition sys_schedule (acts : list action) (s : System) : option System :=
  foldl (λ o a, o ≫= λ s, sys_exec s a) (Some s) acts.
Lemma sys_schedule_run acts start s : sys_schedule acts start = Some s → sys_run start (length acts) s.
Proof.
  revert s. induction acts as [|a acts IH] using rev_ind; intros s; [intros [= <-]; constructor|].
  unfold sys_schedule. rewrite foldl_app. simpl. destruct (foldl _ _ acts) as [s1|] eqn:H1; [|done].
  rewrite length_app, Nat.add_comm. simpl. intros Hexec. by apply (run_step _ _ s1 a); [apply IH|].
Qed.
(** Where a schedule that can be followed to its end leads. *)
Definition sys_after (acts : list action) (s : System) : System := default s (sys_schedule acts s).
Definition follows (acts : list action) (s : System) : bool :=
  match sys_schedule acts s with Some _ => true | None => false end.
Lemma sys_after_run acts s : follows acts s = true → sys_run s (length acts) (sys_after acts s).
Proof.
  unfold follows, sys_after. intros Hf. apply sys_schedule_run. by destruct (sys_schedule acts s).
Qed.
End System.
