(* ===== verification/SystemSpec.v ===== *)
(** * Invariants of the running bridge head

    Over every interleaving of the actors: one proof in the making at a time, a
    job table that matches the running provers, handlers that never panic, and
    command traffic that fits its channel. *)
From S2P Require Import Prelude Externals StorageLayout Types Detector Notice BridgeHead Observer System.

Fixpoint count {A} (f : A → bool) (l : list A) : nat :=
  match l with [] => 0 | x :: l => (if f x then 1 else 0) + count f l end.
Lemma count_app {A} (f : A → bool) l1 l2 : count f (l1 ++ l2) = (count f l1 + count f l2)%nat.
Proof. induction l1; simpl; lia. Qed.

Lemma count_zero_lookup {A} (f : A → bool) l i x : count f l = 0%nat → l !! i = Some x → f x = true → False.
Proof.
  revert i; induction l as [|y l IH]; intros i; [done|]. simpl. intros Hz. destruct i; simpl.
  - intros [= ->] Hf. rewrite Hf in Hz. lia.
  - apply IH. lia.
Qed.

Section Handlers.
Context `{HeliosTypes} `{HostRuntime}.

(** ** What the handlers of the bridge head send *)

Abbreviation all := (λ _, true).
Abbreviation no_json := (λ _, inl ()).

Lemma on_finality_eq event b :
  on_beacon_finality_change all "" event b =
  (set_next_slot (expected_output_slot (current_window event)) b,
   [Event (NoticeEvent (FinalityTransitionDetected (MkNotice _ "" (MkFinalityTransitionDetected
      (expected_output_block_number (current_window event)) (expected_output_slot (current_window event))
      (input_slot (current_window event)) (current_window event) (next_window event))
      BridgeHeadFinalityTransitionDetected)))], Ok ()).
Proof. done. Qed.

Definition staged (w : ProofInputsWithWindow) (now : Instant) (b : BridgeHead) : BridgeHead :=
  let id := uadd (bh_job_id b) (to_uint 64 1) in
  set_prover_jobs (<[id := MkProverJob w now]>) (set_job_id id b).
Lemma stage_eq w now b : bh_finality_stage_input_tx b = true →
  stage_transition_proof all "" now w b =
  (staged w now b,
   [SpawnJob (bh_job_id (staged w now b)) (bh_current_slot b) (proof_inputs w);
    StageUpdate (MkUpdate (expected_output_slot w) (expected_output_store_hash w)
      (staged_queue_cursor (proof_inputs w)));
    Event (NoticeEvent (JobCreated (MkNotice _ "" (MkJobCreated (bh_job_id (staged w now b))
      (bh_current_slot b) (input_block_number w) (bh_store_hash b) (bh_queue_cursor b) (bh_next_slot b)
      (expected_output_block_number w) (staged_queue_cursor (proof_inputs w))) BridgeHeadJobCreated)))],
   Ok ()).
Proof. intros Htx. destruct b. simpl in Htx. subst. done. Qed.

Lemma advance_eq m now b :
  bridge_step all "" now no_json (CommandInput (Some (Advance m))) b =
  (set_head (am_slot m) (am_store_hash m) (am_queue_cursor m) b,
   [AdvanceUpdate (MkUpdate (am_slot m) (am_store_hash m) (am_queue_cursor m));
    Event (NoticeEvent (HeadAdvanced (MkNotice _ "" (MkAdvanced (am_slot m) (am_store_hash m)
      (am_queue_cursor m)) BridgeHeadAdvanced)))], Ok ()).
Proof. done. Qed.

Definition finished (id : u64) (b : BridgeHead) : BridgeHead := set_prover_jobs (delete id) b.
Definition proof_message (job : ProverJob) (now : Instant) (proof : SP1ProofWithPublicValues)
    (o : ProofOutputs) : ProofMessage :=
  MkProofMessage (po_input_slot o) (input_block_number (inputs_with_window job))
    (po_input_store_hash o) (po_input_queue_cursor o) (po_output_slot o) (po_output_block_number o)
    (po_output_store_hash o) (po_output_queue_cursor o) proof (po_execution_state_root o)
    (po_verified_requests_root o) (po_next_sync_committee_hash o) (po_proof_request_queue_address o)
    (verified_requests_of (pi_queue_storage (proof_inputs (inputs_with_window job))))
    (secs_since now (start_instant job)).
Definition succeeded_notice (id : u64) (m : ProofMessage) : TransitionNoticeBridgeHeadMessage :=
  JobSucceeded (MkNotice _ "" (MkJobSucceeded id (pm_input_slot m) (pm_input_block_number m)
    (pm_input_store_hash m) (pm_input_queue_cursor m) (pm_output_slot m) (pm_output_block_number m)
    (pm_output_store_hash m) (pm_output_queue_cursor m) (pm_execution_state_root m)
    (pm_verified_requests_root m) (pm_next_sync_committee_hash m) (pm_proof_request_queue_address m)
    (pm_verified_requests m) (pm_elapsed_sec m)) BridgeHeadJobSucceeded).
Lemma success_eq id proof now b job : bh_prover_jobs b !! id = Some job →
  handle_prover_success all "" now no_json id proof b =
  match ProofOutputs_from_bytes (public_values proof) with
  | Ok o => let m := proof_message job now proof o in
    (finished id b, [Event (NoticeEvent (succeeded_notice id m)); Event (ProofEvent m)], Ok ())
  | Err e => (finished id b, [], Err e)
  | Panic => (finished id b, [], Panic)
  end.
Proof.
  intros Hj. unfold handle_prover_success. eff_unfold. rewrite Hj. cbn.
  by destruct (ProofOutputs_from_bytes (public_values proof)).
Qed.

Definition failed_notice (job : ProverJob) (now : Instant) (err : ProverJobError) (n : nat)
    : TransitionNoticeExtensionBridgeHeadJobFailed :=
  let w := inputs_with_window job in
  MkJobFailed (pe_job_id err) (input_slot w) (input_block_number w) (pi_store_hash (proof_inputs w))
    (input_cursor (pi_queue_storage (proof_inputs w))) (expected_output_slot w)
    (expected_output_block_number w) (expected_output_queue_cursor w)
    ("Job '" +:+ pretty.pretty (uint_Z (pe_job_id err)) +:+ "' failed with error: "
     +:+ prover_job_error_fmt err) (secs_since now (start_instant job)) (to_uint 64 (Z.of_nat n)).
Lemma failure_eq err now b job : bh_prover_jobs b !! pe_job_id err = Some job →
  handle_prover_failure all "" now err b =
  (finished (pe_job_id err) b,
   [Event (NoticeEvent (JobFailed (MkNotice _ ""
      (failed_notice job now err (size (bh_prover_jobs (finished (pe_job_id err) b)))) BridgeHeadJobFailed)))], Ok ()).
Proof. intros Hj. unfold handle_prover_failure. eff_unfold. rewrite Hj. done. Qed.
End Handlers.

#[local] Arguments uadd : simpl never.
#[local] Arguments to_uint : simpl never.
#[local] Arguments uint_Z : simpl never.

Section Invariant.
Context `{HeliosTypes} `{HostRuntime}.

(** ** The invariant *)

Definition is_stage (c : Command) : bool := match c with StageTransitionProof _ => true | Advance _ => false end.
Definition is_advance (c : Command) : bool := negb (is_stage c).
Lemma count_commands (cs : list Command) : length cs = (count is_stage cs + count is_advance cs)%nat.
Proof. induction cs as [|[] cs IH]; simpl; [done|lia..]. Qed.
(** Events that end a proof's life: the proof, or its failure. *)
Definition is_job_end (e : BridgeHeadEvent) : bool :=
  match e with ProofEvent _ | NoticeEvent (JobFailed _) => true | _ => false end.
Definition is_started (e : BridgeHeadEvent) : bool :=
  match e with NoticeEvent (Started _) => true | _ => false end.

Definition result_id (r : ProverJobOutput + ProverJobError) : u64 :=
  match r with inl o => pj_job_id o | inr e => pe_job_id e end.
(** The ids of the jobs that run or whose result is on its way. *)
Definition outstanding (s : System) : list u64 :=
  ((λ j, fst (fst j)) <$> sy_running s) ++ (result_id <$> sy_job_results s).
(** Jobs and job results not yet seen by the observer. *)
Definition downstream (s : System) : nat := length (outstanding s) + count is_job_end (sy_events s).
(** Everything that will make, or is making, a proof. *)
Definition tokens (s : System) : nat :=
  (if ob_stage_transition_proof (sy_observer s) then 1 else 0) + count is_started (sy_events s)
  + count is_stage (sy_commands s) + downstream s.

Definition advance_first (s : System) : Prop :=
  count is_advance (sy_commands s) = 0%nat ∨
  ∃ a cs, sy_commands s = Advance a :: cs ∧ count is_advance cs = 0%nat ∧ downstream s = 0%nat.

Record sys_inv (n : nat) (s : System) : Prop := {
  i_tx : bh_finality_stage_input_tx (sy_bridge s) = true;
  i_jobs : ∀ id : u64, is_Some (bh_prover_jobs (sy_bridge s) !! id) ↔ id ∈ outstanding s;
  i_nodup : NoDup (outstanding s);
  i_ids : ∀ id : u64, id ∈ outstanding s → uint_Z id ≤ bh_job_id (sy_bridge s);
  i_count : bh_job_id (sy_bridge s) ≤ Z.of_nat n;
  i_tokens : tokens s = 1%nat;
  i_window : ob_latest_current_window (sy_observer s) = None →
    (count is_stage (sy_commands s) + downstream s)%nat = 0%nat;
  i_alone : ∀ m, NoticeEvent (JobFailed m) ∈ sy_events s → uint_Z (jf_n_job_in_buffer (extension m)) = 0;
  i_advance : advance_first s
}.

Lemma sys_inv_start slot h c latest inflight : sys_inv 0 (sys_start slot h c latest inflight).
Proof.
  split; simpl; try done.
  - intros id. rewrite lookup_empty. split; [by intros []|]. by intros ?%elem_of_nil.
  - constructor.
  - intros id Hin. by apply elem_of_nil in Hin.
  - intros m Hin. by apply list_elem_of_singleton in Hin.
  - by left.
Qed.

(** The detector's own steps do not concern the invariant. *)
Lemma sys_inv_frame n s s' : sys_inv n s →
  sy_bridge s' = sy_bridge s → sy_running s' = sy_running s → sy_job_results s' = sy_job_results s →
  sy_events s' = sy_events s → sy_commands s' = sy_commands s → sy_observer s' = sy_observer s →
  sys_inv (S n) s'.
Proof.
  intros [] Hb Hr Hj He Hc Ho. unfold tokens, advance_first, downstream, outstanding in *.
  split; unfold tokens, advance_first, downstream, outstanding in *;
    rewrite ?Hb, ?Hr, ?Hj, ?He, ?Hc, ?Ho; auto. lia.
Qed.
Lemma detector_frame m s s' : run_detector m s = Some s' →
  sy_bridge s' = sy_bridge s ∧ sy_running s' = sy_running s ∧ sy_job_results s' = sy_job_results s ∧
  sy_events s' = sy_events s ∧ sy_commands s' = sy_commands s ∧ sy_observer s' = sy_observer s.
Proof. unfold run_detector. destruct (m (sy_detector s)) as [[d ms] [[]| |]]; [|done..]. by intros [= <-]. Qed.
Lemma sys_inv_detector n m s0 s s' : sys_inv n s0 →
  sy_bridge s = sy_bridge s0 → sy_running s = sy_running s0 → sy_job_results s = sy_job_results s0 →
  sy_events s = sy_events s0 → sy_commands s = sy_commands s0 → sy_observer s = sy_observer s0 →
  run_detector m s = Some s' → sys_inv (S n) s'.
Proof.
  intros Hinv ? ? ? ? ? ? (? & ? & ? & ? & ? & ?)%detector_frame.
  apply (sys_inv_frame n s0); [done|congruence..].
Qed.

(** A command to stage is the one request for a proof. *)
Lemma stage_request s w cs : tokens s = 1%nat → sy_commands s = StageTransitionProof w :: cs →
  downstream s = 0%nat ∧ count is_stage cs = 0%nat ∧ ob_stage_transition_proof (sy_observer s) = false ∧
  count is_started (sy_events s) = 0%nat ∧ sy_running s = [] ∧ sy_job_results s = [].
Proof.
  unfold tokens. intros Ht Hc. rewrite Hc in Ht. simpl in Ht.
  assert (downstream s = 0%nat) as Hd by lia. pose proof Hd as Hd'. unfold downstream, outstanding in Hd'.
  rewrite length_app, !length_fmap in Hd'.
  destruct (ob_stage_transition_proof (sy_observer s)); [lia|].
  split_and!; [done|lia|done|lia|apply nil_length_inv; lia..].
Qed.

(** A command to stage: a fresh job enters the table. *)
Lemma sys_inv_stage n s w cs now s' : sys_inv n s → Z.of_nat n + 1 < 2 ^ 64 →
  sy_commands s = StageTransitionProof w :: cs →
  run_bridge (stage_transition_proof (λ _, true) "" now w) (pop_commands cs s) = Some s' → sys_inv (S n) s'.
Proof.
  intros [Htx Hj Hnd Hids Hn Ht Hw Ha Hadv] Hlt Hc. unfold run_bridge. simpl.
  rewrite stage_eq by done. intros [= <-].
  destruct (stage_request s w cs Ht Hc) as (Hd' & Hcs & Hst & Hs0 & Hrun & Hres).
  unfold downstream in Hd'.
  assert (outstanding s = []) as Hout by (unfold outstanding; by rewrite Hrun, Hres).
  rewrite Hc in *.
  assert (uint_Z (uadd (bh_job_id (sy_bridge s)) (to_uint 64 1)) = bh_job_id (sy_bridge s) + 1) as Hid.
  { apply uadd_small. change (uint_Z (to_uint 64 1)) with 1. change (2 ^ Z.of_nat 64) with (2 ^ 64). lia. }
  assert (∀ id, bh_prover_jobs (sy_bridge s) !! id = None) as Hempty.
  { intros id. apply eq_None_not_Some. rewrite Hj, Hout. apply not_elem_of_nil. }
  split; simpl; unfold tokens, downstream, outstanding, advance_first; simpl;
    rewrite ?Hrun, ?Hres; simpl.
  - done.
  - intros id. rewrite lookup_insert_is_Some', list_elem_of_singleton. rewrite Hempty.
    split; [intros [->|[? ?]]; done|by left].
  - apply NoDup_singleton.
  - intros id ->%list_elem_of_singleton. done.
  - rewrite Hid. change (uint_Z (to_uint 64 1)) with 1 in *. lia.
  - rewrite !count_app. simpl. rewrite Hst, Hs0, Hcs. lia.
  - intros Hnone. specialize (Hw Hnone). simpl in Hw. lia.
  - intros m [Hin|Hin%list_elem_of_singleton]%elem_of_app; [by apply Ha|done].
  - left. unfold advance_first in Hadv. rewrite Hc in Hadv.
    by destruct Hadv as [Hz|(a & cs' & [= ] & _)].
Qed.

(** The other steps of the bridge head that only move the head or report. *)
Definition quiet (e : BridgeHeadEvent) : bool := negb (is_job_end e) && negb (is_started e).
Lemma sys_inv_quiet n s s' es : sys_inv n s →
  bh_finality_stage_input_tx (sy_bridge s') = true →
  bh_prover_jobs (sy_bridge s') = bh_prover_jobs (sy_bridge s) →
  bh_job_id (sy_bridge s') = bh_job_id (sy_bridge s) →
  sy_running s' = sy_running s → sy_job_results s' = sy_job_results s →
  sy_events s' = sy_events s ++ es → forallb quiet es = true → sy_observer s' = sy_observer s →
  count is_stage (sy_commands s') = count is_stage (sy_commands s) →
  (downstream s' = downstream s → advance_first s') → sys_inv (S n) s'.
Proof.
  intros [Htx Hj Hnd Hids Hn Ht Hw Ha Hadv] Htx' Hb Hid Hr Hjr He Hes Ho Hc Hadv'.
  assert (count is_job_end es = 0%nat ∧ count is_started es = 0%nat ∧
    ∀ m, NoticeEvent (JobFailed m) ∉ es) as (Hje & Hse & Hfe).
  { clear -Hes. induction es as [|e es IH]; [split_and!; [done..|intros; apply not_elem_of_nil]|].
    simpl in Hes. apply andb_true_iff in Hes as [He Hes]. specialize (IH Hes) as (Hj & Hs & Hf).
    unfold quiet in He. apply andb_true_iff in He as [Hej Hst]. apply negb_true_iff in Hej, Hst.
    simpl. rewrite Hej, Hst. split_and!; [done..|]. intros m [<-|Hin]%elem_of_cons; [done|by eapply Hf]. }
  assert (outstanding s' = outstanding s) as Hout by (unfold outstanding; by rewrite Hr, Hjr).
  assert (downstream s' = downstream s) as Hd.
  { unfold downstream. rewrite Hout, He, count_app, Hje. lia. }
  split; rewrite ?Hout, ?Hb, ?Hid; auto.
  - lia.
  - unfold tokens. rewrite Ho, Hc, Hd, He, count_app, Hse. unfold tokens in Ht. lia.
  - rewrite Ho, Hc, Hd. done.
  - intros m. rewrite He. intros [Hin|Hin]%elem_of_app; [by apply Ha|by destruct (Hfe m)].
Qed.

Lemma sys_inv_finality n s f fs s' : sys_inv n s → sy_finality s = f :: fs →
  run_bridge (on_beacon_finality_change (λ _, true) "" f) (pop_finality fs s) = Some s' → sys_inv (S n) s'.
Proof.
  intros Hinv _. unfold run_bridge. rewrite on_finality_eq. intros [= <-].
  refine (sys_inv_quiet n s _ [_] Hinv _ _ _ _ _ _ _ _ _ _); try done; [apply Hinv|apply app_nil_r|]. intros Hd.
  destruct Hinv as [_ _ _ _ _ _ _ _ Hadv]. unfold advance_first in *. by rewrite Hd.
Qed.

Lemma sys_inv_advance n s m cs now s' : sys_inv n s → sy_commands s = Advance m :: cs →
  run_bridge (bridge_step (λ _, true) "" now (λ _, inl ()) (CommandInput (Some (Advance m))))
    (pop_commands cs s) = Some s' → sys_inv (S n) s'.
Proof.
  intros Hinv Hc. unfold run_bridge. rewrite advance_eq. intros [= <-].
  refine (sys_inv_quiet n s _ [_] Hinv _ _ _ _ _ _ _ _ _ _); try done;
    [apply Hinv|apply app_nil_r|by rewrite Hc|]. intros _.
  destruct Hinv as [_ _ _ _ _ _ _ _ Hadv]. unfold advance_first in *. rewrite Hc in Hadv. left. simpl.
  destruct Hadv as [[=]|(a & cs' & [= -> ->] & Hz & _)]; done.
Qed.

(** With a job outstanding nothing else is under way, and no command is queued. *)
Lemma job_alone n s : sys_inv n s → outstanding s ≠ [] →
  ob_stage_transition_proof (sy_observer s) = false ∧ count is_started (sy_events s) = 0%nat ∧
  count is_stage (sy_commands s) = 0%nat ∧ count is_job_end (sy_events s) = 0%nat ∧
  length (outstanding s) = 1%nat ∧ count is_advance (sy_commands s) = 0%nat.
Proof.
  intros [Htx Hj Hnd Hids Hn Ht Hw Ha Hadv] Hne. unfold tokens, downstream in Ht.
  destruct (outstanding s) as [|id out] eqn:Hout; [done|]. simpl in Ht.
  destruct (ob_stage_transition_proof (sy_observer s)); [lia|].
  split_and!; simpl; [done|lia..|]. destruct Hadv as [|(a & cs & _ & _ & Hd)]; [done|].
  unfold downstream in Hd. rewrite Hout in Hd. simpl in Hd. lia.
Qed.

(** A prover task ends: its id moves to the results. *)
Lemma sys_inv_prover n s i j r s' : sys_inv n s → sy_running s !! i = Some j →
  result_id r = fst (fst j) → sy_bridge s' = sy_bridge s → sy_running s' = delete i (sy_running s) →
  sy_job_results s' = sy_job_results s ++ [r] → sy_events s' = sy_events s →
  sy_commands s' = sy_commands s → sy_observer s' = sy_observer s → sys_inv (S n) s'.
Proof.
  intros Hinv Hi Hid Hb Hr Hjr He Hc Ho.
  assert (outstanding s' ≡ₚ outstanding s) as Hout.
  { unfold outstanding. rewrite Hr, Hjr, fmap_app. simpl. rewrite Hid.
    apply delete_Permutation in Hi. rewrite Hi at 2. simpl.
    rewrite (Permutation_app_comm (result_id <$> _)). simpl. by rewrite <- Permutation_middle. }
  assert (downstream s' = downstream s) as Hd by (unfold downstream; by rewrite Hout, He).
  destruct Hinv as [Htx Hj Hnd Hids Hn Ht Hw Ha Hadv].
  split; rewrite ?Hb, ?He, ?Ho, ?Hc, ?Hd; auto; unfold tokens, advance_first; rewrite ?Hb, ?He, ?Ho, ?Hc, ?Hd; auto.
  - intros id. by rewrite Hout.
  - by rewrite Hout.
  - intros id. rewrite Hout. auto.
  - lia.
Qed.

(** The one result there is, and the state around it. *)
Lemma result_alone n s r rs : sys_inv n s → sy_job_results s = r :: rs →
  sy_running s = [] ∧ rs = [] ∧ outstanding s = [result_id r] ∧
  (∃ job, bh_prover_jobs (sy_bridge s) !! result_id r = Some job) ∧
  delete (result_id r) (bh_prover_jobs (sy_bridge s)) = ∅.
Proof.
  intros Hinv Hr. assert (outstanding s ≠ []) as Hne.
  { unfold outstanding. rewrite Hr. intros [_ ?]%app_eq_nil. done. }
  pose proof (job_alone _ _ Hinv Hne) as (_ & _ & _ & _ & Hlen & _).
  destruct Hinv as [_ Hj _ _ _ _ _ _ _].
  unfold outstanding in Hlen. rewrite Hr, length_app, !length_fmap in Hlen. simpl in Hlen.
  assert (sy_running s = [] ∧ rs = []) as [Hrun ->] by (destruct (sy_running s), rs; simpl in *; split; (done || lia)).
  assert (outstanding s = [result_id r]) as Hout by (unfold outstanding; by rewrite Hrun, Hr).
  split_and!; [done..| |].
  - apply Hj. rewrite Hout. by apply list_elem_of_singleton.
  - apply map_eq. intros id. rewrite lookup_empty. destruct (decide (id = result_id r)) as [->|Hne'].
    + apply lookup_delete_eq.
    + rewrite lookup_delete_ne by done. apply eq_None_not_Some. rewrite Hj, Hout. by intros ?%list_elem_of_singleton.
Qed.

(** A result is handled: the job leaves the table and ends in one event. *)
Lemma sys_inv_result n s r rs s' es : sys_inv n s → sy_job_results s = r :: rs →
  sy_bridge s' = finished (result_id r) (sy_bridge s) → sy_running s' = sy_running s →
  sy_job_results s' = rs → sy_events s' = sy_events s ++ es → sy_commands s' = sy_commands s →
  sy_observer s' = sy_observer s → count is_job_end es = 1%nat → count is_started es = 0%nat →
  (∀ m, NoticeEvent (JobFailed m) ∈ es → uint_Z (jf_n_job_in_buffer (extension m)) = 0) →
  sys_inv (S n) s'.
Proof.
  intros Hinv Hr Hb Hrun Hjr He Hc Ho Hje Hse Hfe.
  destruct (result_alone _ _ _ _ Hinv Hr) as (Hrun0 & -> & Hout & _ & Hdel).
  assert (outstanding s ≠ []) as Hne by by rewrite Hout.
  pose proof (job_alone _ _ Hinv Hne) as (_ & _ & _ & Hje0 & _ & Hca).
  assert (outstanding s' = []) as Hout' by (unfold outstanding; by rewrite Hrun, Hrun0, Hjr).
  assert (downstream s' = downstream s) as Hd.
  { unfold downstream. rewrite Hout, Hout', He, count_app, Hje, Hje0. done. }
  destruct Hinv as [Htx Hj Hnd Hids Hn Ht Hw Ha Hadv].
  split; unfold tokens, advance_first in *; rewrite ?Hout', ?Hb, ?Hc, ?Ho, ?Hd; simpl; auto.
  - intros id. rewrite Hdel, lookup_empty. split; [by intros []|by intros ?%elem_of_nil].
  - constructor.
  - intros id Hin. by apply elem_of_nil in Hin.
  - lia.
  - rewrite He, count_app, Hse. lia.
  - intros m. rewrite He. intros [?|?]%elem_of_app; auto.
Qed.

Lemma sys_inv_job_result n s r rs now s' : sys_inv n s → sy_job_results s = r :: rs →
  run_bridge (bridge_step (λ _, true) "" now (λ _, inl ()) (JobInput (Some r))) (pop_job_results rs s) = Some s' →
  sys_inv (S n) s'.
Proof.
  intros Hinv Hr. destruct (result_alone _ _ _ _ Hinv Hr) as (_ & _ & _ & (job & Hjob) & Hdel).
  unfold run_bridge. destruct r as [o|err]; simpl in *.
  - rewrite (success_eq _ _ _ _ job) by done. destruct (ProofOutputs_from_bytes _); [|done..].
    intros [= <-]. eapply (sys_inv_result n s _ rs); simpl; try done; [apply app_nil_r|].
    intros m [?|Hin]%elem_of_cons; [done|by apply list_elem_of_singleton in Hin].
  - rewrite (failure_eq _ _ _ job) by done.
    intros [= <-]. eapply (sys_inv_result n s _ rs); simpl; try done; [apply app_nil_r|].
    intros m Hin%list_elem_of_singleton. injection Hin as ->. simpl. by rewrite Hdel.
Qed.

(** ** The observer's events *)

Definition commands_of (ms : list ObserverMessage) : list Command :=
  omap (λ m, match m with SendCommand c => Some c | _ => None end) ms.

(** The observer consumes [e], sends [cs] and ends in [o']. *)
Lemma sys_inv_observer n s e es s' cs : sys_inv n s → sy_events s = e :: es →
  let o := sy_observer s in let o' := sy_observer s' in
  sy_bridge s' = sy_bridge s → sy_running s' = sy_running s → sy_job_results s' = sy_job_results s →
  sy_events s' = es → sy_commands s' = sy_commands s ++ cs →
  ((if ob_stage_transition_proof o' then 1 else 0) + count is_stage cs)%nat =
    ((if ob_stage_transition_proof o then 1 else 0) + (if is_started e then 1 else 0)
     + (if is_job_end e then 1 else 0))%nat →
  (ob_latest_current_window o' = None →
    ob_latest_current_window o = None ∧ (is_job_end e = false → count is_stage cs = 0%nat)) →
  (count is_advance cs = 0%nat ∨
    is_job_end e = true ∧ ∃ a cs', cs = Advance a :: cs' ∧ count is_advance cs' = 0%nat) →
  sys_inv (S n) s'.
Proof.
  intros [Htx Hj Hnd Hids Hn Ht Hw Ha Hadv] He o o' Hb Hr Hjr He' Hc Htok Hwin Hcs.
  assert (outstanding s' = outstanding s) as Hout by (unfold outstanding; by rewrite Hr, Hjr).
  assert (downstream s = ((if is_job_end e then 1 else 0) + downstream s')%nat) as Hd.
  { unfold downstream. rewrite Hout, He, He'. simpl. lia. }
  assert (tokens s = tokens s') as Ht'.
  { unfold tokens. fold o o'. rewrite Hd, He, He', Hc, count_app. simpl. lia. }
  split; rewrite ?Hout, ?Hb; auto.
  - lia.
  - congruence.
  - intros Hnone. destruct (Hwin Hnone) as [Ho Hz]. specialize (Hw Ho).
    rewrite Hd in Hw. rewrite Hc, count_app. destruct (is_job_end e); [lia|]. rewrite Hz by done. lia.
  - intros m. rewrite He'. intros Hin. apply Ha. rewrite He. by right.
  - unfold advance_first in *. rewrite Hc.
    assert (is_job_end e = true → downstream s' = 0%nat ∧ sy_commands s = []) as Hend.
    { intros Hje. rewrite Hje in Hd. split; [unfold tokens in Ht; lia|].
      destruct Hadv as [Hz|(? & ? & _ & _ & ?)]; [|lia].
      assert (count is_stage (sy_commands s) = 0%nat) as Hs by (unfold tokens in Ht; lia).
      destruct (sy_commands s) as [|[]]; [done|simpl in *; lia..]. }
    destruct Hcs as [Hz|(Hje & a & cs' & -> & Hz)].
    + rewrite count_app, Hz. destruct Hadv as [->|(a & cs' & -> & Hz' & Hd')]; [by left|].
      right. exists a, (cs' ++ cs). rewrite count_app, Hz, Hz'. split_and!; [done..|lia].
    + destruct (Hend Hje) as [Hd0 ->]. right. by exists a, cs'.
Qed.

(** The files that are written for a published proof, and the advance of the head. *)
Definition saves (m : ProofMessage) : list ObserverMessage :=
  [CreateDir "./sp1-helios-proofs"; SaveProof (pm_proof m) (pm_input_slot m);
   CreateDir "./sp1-helios-proof-messages"; SaveProofMessage m;
   SaveCheckpoint (MkCheckpoint (pm_output_slot m) (pm_output_store_hash m) (pm_output_queue_cursor m));
   SendCommand (Advance (MkAdvance (pm_output_slot m) (pm_output_store_hash m) (pm_output_queue_cursor m)))].
Lemma observer_proof_eq m o : observer_step (λ _, true) (Some (ProofEvent m)) o =
  let o' := set_ob_head (pm_output_slot m) (pm_output_store_hash m) (pm_output_queue_cursor m) o in
  let ms := saves m in
  match ob_latest_next_window o with
  | Some w => if decide (input_slot w = pm_output_slot m)
    then (o', ms ++ [SendCommand (StageTransitionProof w)], Ok ())
    else (set_stage true o', ms, Ok ())
  | None => (set_stage true o', ms, Ok ())
  end.
Proof.
  unfold observer_step, on_transition_proof_succeeded, or_panic_more. eff_unfold.
  destruct o as [? ? ? ? ? ? [w|]]; simpl; [|done]. by case_decide.
Qed.
Lemma observer_failed_eq m o : uint_Z (jf_n_job_in_buffer (extension m)) = 0 →
  observer_step (λ _, true) (Some (NoticeEvent (JobFailed m))) o =
  match ob_latest_current_window o with
  | Some w => (o, [SendCommand (StageTransitionProof w)], Ok ())
  | None => (o, [], Err "Tried to redo a job but latest_validated_proof_input_with_window was not defined"%string)
  end.
Proof.
  intros Hz. unfold observer_step, on_bridge_head_transition_notice. rewrite decide_True by done.
  destruct o as [? ? ? ? ? [w|] ?]; done.
Qed.
Lemma observer_transition_eq m o :
  observer_step (λ _, true) (Some (NoticeEvent (FinalityTransitionDetected m))) o =
  let o' := set_windows (Some (ft_current_window (extension m))) (ft_next_window (extension m)) o in
  if ob_stage_transition_proof o
  then (set_stage false o', [SendCommand (StageTransitionProof (ft_current_window (extension m)))], Ok ())
  else (o', [], Ok ()).
Proof. by destruct o as [? ? ? ? [] ? ?]. Qed.

(** Starting and ending events find the stage flag down. *)
Lemma flag_down n s e es : sys_inv n s → sy_events s = e :: es →
  is_started e || is_job_end e = true → ob_stage_transition_proof (sy_observer s) = false.
Proof.
  intros Hinv He Hor. pose proof (i_tokens _ _ Hinv) as Ht. unfold tokens, downstream in Ht. rewrite He in Ht.
  simpl in Ht. destruct (ob_stage_transition_proof (sy_observer s)), (is_started e), (is_job_end e); (done || lia).
Qed.

Lemma sys_inv_event n s e es s' : sys_inv n s → sy_events s = e :: es →
  run_observer (observer_step (λ _, true) (Some e)) (pop_events es s) = Some s' → sys_inv (S n) s'.
Proof.
  intros Hinv He Hrun. pose proof (flag_down _ _ _ _ Hinv He) as Hflag.
  pose proof (i_alone _ _ Hinv) as Ha. unfold run_observer in Hrun.
  change (sy_observer (pop_events es s)) with (sy_observer s) in Hrun.
  destruct (observer_step _ (Some e) (sy_observer s)) as [[o' ms] r] eqn:Hstep.
  destruct r as [[]| |]; [|done..]. injection Hrun as <-.
  apply (sys_inv_observer n s e es _ (commands_of ms) Hinv He); try done; simpl; clear Hinv.
  all: destruct e as [m|[m|m|m|m|m|m|m]]; simpl in Hflag |- *.
  all: rewrite ?observer_proof_eq, ?observer_transition_eq in Hstep.
  all: rewrite ?observer_failed_eq in Hstep by (apply Ha; rewrite He; left).
  all: try (specialize (Hflag eq_refl); rewrite Hflag).
  all: destruct (sy_observer s) as [? ? ? ? f wc wn]; simpl in Hflag, Hstep |- *; subst.
  all: try (destruct f). all: try (destruct wc). all: try (destruct wn); try case_decide.
  all: injection Hstep as <- <-; simpl; try done; try by left.
  all: try (right; split; [done|by do 2 eexists]).
Qed.

(** ** All steps *)

Lemma sys_inv_exec n s a s' : sys_inv n s → Z.of_nat n + 1 < 2 ^ 64 → sys_exec s a = Some s' → sys_inv (S n) s'.
Proof.
  intros Hinv Hn. unfold sys_exec.
  destruct a as [| | | |prepare| |now|now|i proof|i error|].
  - by apply (sys_inv_detector n _ s).
  - destruct (sy_stages s); [done|]. by apply (sys_inv_detector n _ s).
  - destruct (sy_advances s); [done|]. by apply (sys_inv_detector n _ s).
  - destruct (sy_validation_results s); [done|]. by apply (sys_inv_detector n _ s).
  - destruct (sy_validation_jobs s) as [|job jobs]; [done|].
    destruct (validate_job prepare job); intros [= <-]; by apply (sys_inv_frame n s).
  - destruct (sy_finality s) as [|f fs] eqn:Hf; [done|]. by apply sys_inv_finality.
  - destruct (sy_commands s) as [|[w|m] cs] eqn:Hc; [done|by eapply sys_inv_stage|by eapply sys_inv_advance].
  - destruct (sy_job_results s) as [|r rs] eqn:Hr; [done|]. by eapply sys_inv_job_result.
  - destruct (sy_running s !! i) as [[[id h] inputs]|] eqn:Hi; [|done]. intros [= <-].
    by eapply (sys_inv_prover n s i _ (inl (MkProverJobOutput id h proof))).
  - destruct (sy_running s !! i) as [[[id h] inputs]|] eqn:Hi; [|done]. intros [= <-].
    by eapply (sys_inv_prover n s i _ (inr (MkProverJobError id error))).
  - destruct (sy_events s) as [|e es] eqn:He; [done|]. by eapply sys_inv_event.
Qed.

Lemma sys_inv_run slot h c latest inflight n s : Z.of_nat n < 2 ^ 64 →
  sys_run (sys_start slot h c latest inflight) n s → sys_inv n s.
Proof.
  intros Hn Hrun. induction Hrun as [|n s a s' _ IH Hexec]; [apply sys_inv_start|].
  eapply sys_inv_exec; [apply IH; lia|lia|done].
Qed.

(** The observer handles whatever event is next. *)
Lemma observer_handles n s e es : sys_inv n s → sy_events s = e :: es →
  ∃ o' ms, observer_step (λ _, true) (Some e) (sy_observer s) = (o', ms, Ok ()).
Proof.
  intros Hinv He. destruct e as [m|[m|m|m|m|m|m|m]]; try by do 2 eexists.
  - rewrite observer_proof_eq. simpl. repeat case_match; by do 2 eexists.
  - rewrite observer_failed_eq by (apply (i_alone _ _ Hinv); rewrite He; left).
    destruct (ob_latest_current_window (sy_observer s)) eqn:Hw; [by do 2 eexists|].
    pose proof (i_window _ _ Hinv Hw) as Hz. unfold downstream in Hz. rewrite He in Hz. simpl in Hz. lia.
  - rewrite observer_transition_eq. simpl. case_match; by do 2 eexists.
Qed.

(** ** Properties *)

(** A panic of the program: of a handler, or the observer's exit. *)
Definition aborts {S W E} (m : eff S W E ()) (s : S) : Prop := snd (m s) = Panic.

Lemma one_outstanding n s : sys_inv n s → (length (sy_running s) + length (sy_job_results s) ≤ 1)%nat.
Proof.
  intros Hinv. pose proof (i_tokens _ _ Hinv) as Ht. unfold tokens, downstream, outstanding in Ht.
  rewrite length_app, !length_fmap in Ht. lia.
Qed.
Lemma commands_fit n s : sys_inv n s → (length (sy_commands s) ≤ 2)%nat.
Proof.
  intros Hinv. pose proof (i_tokens _ _ Hinv) as Ht. unfold tokens in Ht.
  pose proof (count_commands (sy_commands s)) as Hl.
  destruct (i_advance _ _ Hinv) as [Hz|(a & cs & Hc & Hz & Hd)]; [lia|].
  rewrite Hc in Hl, Ht |- *. simpl in *. lia.
Qed.

(** C6: one proof at a time: whatever the interleaving of the actors, the flag to
    stage, the commands to stage, the running provers, their results and the
    events that end a job together make exactly one, so the request for the
    next proof is neither lost nor duplicated, and at most one prover runs. *)
Theorem one_proof_at_a_time slot h c latest inflight n s :
  Z.of_nat n < 2 ^ 64 → sys_run (sys_start slot h c latest inflight) n s →
  tokens s = 1%nat ∧ (length (sy_running s) + length (sy_job_results s) ≤ 1)%nat.
Proof.
  intros Hn Hinv%sys_inv_run; [|done]. split; [apply Hinv|by eapply one_outstanding].
Qed.

(** The command channel of capacity two is never exceeded, and an advance is
    always processed before the command to stage that follows it: at most one
    advance is queued, and only at the head, with no job under way. *)
Lemma command_queue_fits slot h c latest inflight n s :
  Z.of_nat n < 2 ^ 64 → sys_run (sys_start slot h c latest inflight) n s →
  (length (sy_commands s) ≤ 2)%nat ∧
  (∀ i a, sy_commands s !! i = Some (Advance a) → i = 0%nat ∧ sy_running s = []).
Proof.
  intros Hn Hinv%sys_inv_run; [|done]. split; [by eapply commands_fit|]. intros i b Hi.
  destruct (i_advance _ _ Hinv) as [Hz|(a & cs & Hc & Hz & Hd)].
  - by destruct (count_zero_lookup is_advance (sy_commands s) i (Advance b)).
  - split.
    + destruct i as [|i]; [done|]. rewrite Hc in Hi. by destruct (count_zero_lookup is_advance cs i (Advance b)).
    + unfold downstream, outstanding in Hd. rewrite length_app, length_fmap in Hd. apply nil_length_inv. lia.
Qed.

(** C17: no handler aborts: in every reachable state the bridge head finds the job of
    the result it receives and its staging channel is set, and the observer,
    whose errors exit the process, handles the event it receives; in
    particular a failed job always finds a window to retry. *)
Theorem handlers_never_abort slot h c latest inflight n s iso now json :
  Z.of_nat n < 2 ^ 64 → sys_run (sys_start slot h c latest inflight) n s →
  (∀ r rs, sy_job_results s = r :: rs →
    ¬ aborts (bridge_step (λ _, true) iso now json (JobInput (Some r))) (sy_bridge s)) ∧
  (∀ cmd cs, sy_commands s = cmd :: cs →
    snd (bridge_step (λ _, true) iso now json (CommandInput (Some cmd)) (sy_bridge s)) = Ok ()) ∧
  (∀ e es, sy_events s = e :: es →
    snd (observer_step (λ _, true) (Some e) (sy_observer s)) = Ok ()).
Proof.
  intros Hn Hinv%sys_inv_run; [|done]. split_and!.
  - intros r rs Hr. destruct (result_alone _ _ _ _ Hinv Hr) as (_ & _ & _ & (job & Hjob) & _).
    unfold aborts. destruct r as [o|err]; simpl in *.
    + unfold handle_prover_success. eff_unfold. rewrite Hjob. simpl.
      pose proof (ProofOutputs_from_bytes_no_panic (public_values (pj_proof o))) as Hnp.
      destruct (ProofOutputs_from_bytes _) as [po| |]; [|done..]. simpl. by destruct (json po).
    + unfold handle_prover_failure. eff_unfold. by rewrite Hjob.
  - intros cmd cs _. pose proof (i_tx _ _ Hinv) as Htx. destruct (sy_bridge s). simpl in Htx. subst.
    by destruct cmd.
  - intros e es He. by destruct (observer_handles _ _ _ _ Hinv He) as (o' & ms & ->).
Qed.

(** One command, handled by the bridge head. *)
Lemma command_advance_exec s m cs now : sy_commands s = Advance m :: cs →
  ∃ s', sys_exec s (BridgeCommand now) = Some s' ∧ sy_commands s' = cs ∧ sy_running s' = sy_running s ∧
    bh_finality_stage_input_tx (sy_bridge s') = bh_finality_stage_input_tx (sy_bridge s).
Proof.
  intros Hc. unfold sys_exec. rewrite Hc. unfold run_bridge. rewrite advance_eq. eexists. split; [done|].
  simpl. by rewrite !app_nil_r.
Qed.
Lemma command_stage_exec s w now : bh_finality_stage_input_tx (sy_bridge s) = true → sy_commands s = [StageTransitionProof w] →
  ∃ s' id, sys_exec s (BridgeCommand now) = Some s' ∧
    sy_running s' = sy_running s ++ [(id, bh_current_slot (sy_bridge s'), proof_inputs w)].
Proof.
  intros Htx Hc. unfold sys_exec. rewrite Hc. unfold run_bridge. simpl.
  rewrite stage_eq by done. by do 2 eexists.
Qed.

(** C31: what is retried: in every state reached in fewer than 2^64 steps in which the failure of a proof is
    the observer's next event, whichever window that proof was made for, the
    observer asks for a proof of the current window of the last transition it
    has seen, and once the bridge head has handled the commands before it and
    this one, exactly that window is being proved, from the head of that moment.
    It need not be the window that failed, nor start at the head. *)
Theorem failed_job_retries_current_window slot h c latest inflight n s m es now :
  Z.of_nat n < 2 ^ 64 → sys_run (sys_start slot h c latest inflight) n s →
  sy_events s = NoticeEvent (JobFailed m) :: es →
  ∃ w s1 s2 id, ob_latest_current_window (sy_observer s) = Some w ∧
    sys_exec s ObserverEvent = Some s1 ∧ sy_commands s1 = sy_commands s ++ [StageTransitionProof w] ∧
    sys_schedule (replicate (length (sy_commands s1)) (BridgeCommand now)) s1 = Some s2 ∧
    sy_running s2 = [(id, bh_current_slot (sy_bridge s2), proof_inputs w)].
Proof.
  intros Hn Hinv%sys_inv_run He; [|done].
  assert (uint_Z (jf_n_job_in_buffer (extension m)) = 0) as Hz by (apply (i_alone _ _ Hinv); rewrite He; left).
  pose proof (i_tokens _ _ Hinv) as Ht. unfold tokens, downstream, outstanding in Ht.
  rewrite He, length_app, !length_fmap in Ht. simpl in Ht.
  destruct (ob_latest_current_window (sy_observer s)) as [w|] eqn:Hw.
  2: { pose proof (i_window _ _ Hinv Hw) as Hd. unfold downstream in Hd. rewrite He in Hd. simpl in Hd. lia. }
  assert (sy_running s = []) as Hr by (apply nil_length_inv; lia).
  set (s1 := with_observer (sy_observer s) [SendCommand (StageTransitionProof w)] (pop_events es s)).
  assert (sys_exec s ObserverEvent = Some s1) as Hs1.
  { unfold sys_exec. rewrite He. unfold run_observer. change (sy_observer (pop_events es s)) with (sy_observer s).
    by rewrite observer_failed_eq, Hw. }
  assert (sy_commands s = [] ∨ ∃ a, sy_commands s = [Advance a]) as Hc.
  { pose proof (count_commands (sy_commands s)) as Hl. destruct (i_advance _ _ Hinv) as [Ha|(a & cs & Hc & Ha & _)].
    - left. apply nil_length_inv. lia.
    - right. exists a. rewrite Hc in Hl, Ht |- *. f_equal. apply nil_length_inv. simpl in *. lia. }
  pose proof (i_tx _ _ Hinv) as Htx. exists w, s1.
  destruct Hc as [Hc|[a Hc]].
  - destruct (command_stage_exec s1 w now) as (s2 & id & Hs2 & Hr2); [done|simpl; by rewrite Hc|].
    exists s2, id. split_and!; [done|done|done| |simpl in Hr2; by rewrite Hr in Hr2].
    simpl. rewrite Hc. unfold sys_schedule. simpl. exact Hs2.
  - destruct (command_advance_exec s1 a [StageTransitionProof w] now) as (s1' & Hs1' & Hc' & Hr' & Htx'); [simpl; by rewrite Hc|].
    destruct (command_stage_exec s1' w now) as (s2 & id & Hs2 & Hr2); [by rewrite Htx'|done|].
    exists s2, id. split_and!; [done|done|done| |rewrite Hr' in Hr2; simpl in Hr2; by rewrite Hr in Hr2].
    cbn [sy_commands]. change (sy_commands s1) with (sy_commands s ++ [StageTransitionProof w]). rewrite Hc. unfold sys_schedule.
    cbn [replicate length app foldl mbind option_bind]. rewrite Hs1'. exact Hs2.
Qed.
End Invariant.
