(* ===== verification/SystemWitness.v ===== *)
(** * Concrete runs of the running bridge head

    Schedules of the actors over a concrete light client and prover: the
    witnesses of SystemSpec, and two schedules in which the observer stages a
    window that starts at a slot the bridge has already proved past. *)
From S2P Require Import Prelude Externals StorageLayout Types Merkle Instances MerkleSpec RequestLeaf Mpt MptSpec MptWitness StoreHash Consensus ConsensusSpec ConsensusWitness Detector DetectorSpec Notice BridgeHead BridgeHeadSpec Observer System SystemSpec.

(** A proof is its public values; time stands still. *)
#[global] Instance toy_host : HostRuntime := {|
  Instant := ();
  F64 := ();
  secs_since _ _ := ();
  SP1ProofWithPublicValues := list byte;
  public_values p := p
|}.

Definition w_window (from to : Z) : ProofInputsWithWindow :=
  MkProofInputsWithWindow (to_uint 64 from) (to_uint 64 to) (to_uint 64 (from + 1000)) (to_uint 64 (to + 1000))
    (w_inputs from to w_drained_storage) (fb_of_Z 32 to) (to_uint 64 2).
(** The RPCs report finality at [head]. *)
Definition w_prepare (head : Z) (from : u64) (_ : B256) (_ : u64) (_ : bool) : res anyhow ProofInputsWithWindow :=
  Ok (w_window from head).
Lemma w_prepare_law head : prepare_law (w_prepare head).
Proof. intros s h c v w [= <-]. apply uint_eq. simpl. apply to_uint_small, uint_range. Qed.
Definition w_proof (from to : Z) : SP1ProofWithPublicValues :=
  let h := fb_zero 32 in let z := to_uint 64 2 in
  ProofOutputs_to_bytes (MkProofOutputs (to_uint 64 from) h (to_uint 64 to) (fb_of_Z 32 to) h h h (fb_zero 20) z z
    (to_uint 64 (to + 1000))).

Definition w_start : System := sys_start (to_uint 64 0) (fb_zero 32) (to_uint 64 2) (to_uint 64 0) None.

(** Finality reaches 32 and the first proof, from 0, is staged; then finality
    reaches 64 and the detector emits the windows from 0 and from 32. *)
Definition w_prologue : list action :=
  [DetectorTick; Validate (w_prepare 32); DetectorResult; BridgeFinality;
   ObserverEvent; ObserverEvent; BridgeCommand (); DetectorStage; ObserverEvent;
   DetectorTick; Validate (w_prepare 64); DetectorResult].
Definition w_mid : System := sys_after w_prologue w_start.
Lemma w_mid_run : sys_run w_start 12 w_mid.
Proof. apply (sys_after_run w_prologue). vm_compute. reflexivity. Qed.

Lemma one_proof_at_a_time_witness :
  tokens w_mid = 1%nat ∧ (length (sy_running w_mid) + length (sy_job_results w_mid) ≤ 1)%nat.
Proof. exact (one_proof_at_a_time _ _ _ _ _ 12 w_mid eq_refl w_mid_run). Defined.

(** The first proof ends and the observer, which knows the window from 32, sends
    an advance and stages that window. *)
Definition w_retry : list action := w_prologue ++
  [BridgeFinality; ObserverEvent; ProverDone 0 (w_proof 0 32); BridgeJobResult ();
   ObserverEvent; ObserverEvent].
Definition w_contiguous : System := sys_after w_retry w_start.
Lemma w_contiguous_run : sys_run w_start 18 w_contiguous.
Proof. apply (sys_after_run w_retry). vm_compute. reflexivity. Qed.

Lemma command_queue_fits_witness :
  (length (sy_commands w_contiguous) ≤ 2)%nat ∧
  (∀ i a, sy_commands w_contiguous !! i = Some (Advance a) → i = 0%nat ∧ sy_running w_contiguous = []).
Proof. exact (command_queue_fits _ _ _ _ _ 18 w_contiguous eq_refl w_contiguous_run). Defined.

(** The proof staged from 32 fails. *)
Definition w_failing : list action := w_retry ++
  [BridgeCommand (); BridgeCommand (); ProverFailed 0 "network"; ObserverEvent; ObserverEvent; BridgeJobResult ()].
Definition w_failed : System := sys_after w_failing w_start.
Lemma w_failed_run : sys_run w_start 24 w_failed.
Proof. apply (sys_after_run w_failing). vm_compute. reflexivity. Qed.

Lemma handlers_never_abort_witness :
  (∀ r rs, sy_job_results w_failed = r :: rs →
    ¬ aborts (bridge_step (λ _, true) "" () (λ _, inl ()) (JobInput (Some r))) (sy_bridge w_failed)) ∧
  (∀ cmd cs, sy_commands w_failed = cmd :: cs →
    snd (bridge_step (λ _, true) "" () (λ _, inl ()) (CommandInput (Some cmd)) (sy_bridge w_failed)) = Ok ()) ∧
  (∀ e es, sy_events w_failed = e :: es →
    snd (observer_step (λ _, true) (Some e) (sy_observer w_failed)) = Ok ()).
Proof. exact (handlers_never_abort _ _ _ _ _ 24 w_failed "" () (λ _, inl ()) eq_refl w_failed_run). Defined.

(** ** Two ways to prove from a slot the bridge has left *)

(** The start of the window whose staging is the next command. *)
Definition next_staged (s : System) : option Z :=
  match sy_commands s with StageTransitionProof w :: _ => Some (uint_Z (input_slot w)) | _ => None end.
Definition next_spawned (s : System) : option (Z * Z) :=
  match sy_running s with
  | [(_, head, inputs)] =>
    Some (uint_Z head, uint_Z (beacon_slot (finalized_header (pi_store inputs))))
  | _ => None
  end.

(** When the proof of a next window fails, the current window is retried instead:
    the head is at 32, the failed proof started there, and the proof that is
    made next starts from slot 0, which was proved already. *)
Lemma failed_next_window_retries_old_window :
  ∃ acts, let s := sys_after acts w_start in
    follows acts w_start = true ∧ uint_Z (bh_current_slot (sy_bridge s)) = 32 ∧
    next_staged s = Some 0 ∧ next_spawned (sys_after (acts ++ [BridgeCommand ()]) w_start) = Some (32, 0).
Proof. exists (w_failing ++ [ObserverEvent]). cbv zeta. split_and!; vm_compute; reflexivity. Qed.

(** The same schedule, through the general rule: the failure is the observer's
    next event, the head is at 32, and the window that is proved again starts at 0. *)
Definition first_failed (es : list BridgeHeadEvent) : bool :=
  match es with NoticeEvent (JobFailed _) :: _ => true | _ => false end.
Lemma first_failed_inv es : first_failed es = true → ∃ m es', es = NoticeEvent (JobFailed m) :: es'.
Proof. destruct es as [|[|[]] es]; try done. eauto. Qed.

Lemma failed_job_retries_current_window_witness :
  uint_Z (bh_current_slot (sy_bridge w_failed)) = 32 ∧
  (λ w, uint_Z (input_slot w)) <$> ob_latest_current_window (sy_observer w_failed) = Some 0 ∧
  ∃ w s1 s2 id, ob_latest_current_window (sy_observer w_failed) = Some w ∧
    sys_exec w_failed ObserverEvent = Some s1 ∧ sy_commands s1 = sy_commands w_failed ++ [StageTransitionProof w] ∧
    sys_schedule (replicate (length (sy_commands s1)) (BridgeCommand ())) s1 = Some s2 ∧
    sy_running s2 = [(id, bh_current_slot (sy_bridge s2), proof_inputs w)].
Proof.
  split; [vm_compute; reflexivity|]. split; [vm_compute; reflexivity|].
  destruct (first_failed_inv (sy_events w_failed)) as (m & es & He); [vm_compute; reflexivity|].
  exact (failed_job_retries_current_window _ _ _ _ _ 24 w_failed m es () eq_refl w_failed_run He).
Defined.

Definition w_late : list action := w_prologue ++
  [ProverDone 0 (w_proof 0 32); BridgeJobResult (); BridgeFinality;
   ObserverEvent; ObserverEvent; ObserverEvent; BridgeCommand ()].

(** A transition that was detected before the head advanced, and reaches the
    observer after the proof, is staged although it starts at the old head and
    the window from the new head lies beside it. *)
Lemma late_transition_stages_old_window :
  ∃ acts, let s := sys_after acts w_start in
    follows acts w_start = true ∧ uint_Z (bh_current_slot (sy_bridge s)) = 32 ∧
    next_staged s = Some 0 ∧
    (λ w, uint_Z (input_slot w)) <$> ob_latest_next_window (sy_observer s) = Some 32 ∧
    next_spawned (sys_after (acts ++ [BridgeCommand ()]) w_start) = Some (32, 0).
Proof.
  exists w_late. cbv zeta. split_and!; vm_compute; reflexivity.
Qed.

(** ** A published proof *)

Definition w_job : ProverJob :=
  MkProverJob (MkProofInputsWithWindow (to_uint 64 7) (to_uint 64 32) (to_uint 64 1007) (to_uint 64 1032)
    w_inputs1 (po_output_store_hash w_outputs1) (to_uint 64 2)) (() : Instant).
Definition w_bridge : BridgeHead := set_prover_jobs (<[to_uint 64 1 := w_job]>) bridge_head_new.
Lemma w_distinct : targets_distinct w_storage.
Proof. split; [|repeat constructor]; apply (bool_decide_unpack _); vm_compute; exact I. Qed.
Lemma w_bridge_job : bh_prover_jobs w_bridge !! to_uint 64 1 = Some w_job.
Proof. apply lookup_insert_eq. Qed.

Lemma published_proof_consistent_witness :
  ∃ notice m leaves,
    handle_prover_success (λ _, true) "" (() : Instant) (λ _, inl ()) (to_uint 64 1)
      (ProofOutputs_to_bytes w_outputs1) w_bridge =
      (set_prover_jobs (delete (to_uint 64 1)) w_bridge,
       [Event (NoticeEvent (JobSucceeded notice)); Event (ProofEvent m)], Ok ()) ∧
    try_map published_leaf (pm_verified_requests m) = Ok leaves ∧
    fb_bytes (pm_verified_requests_root m) = fp_to_bytes (requests_root leaves) ∧
    uint_Z (pm_output_queue_cursor m) =
      pm_input_queue_cursor m + Z.of_nat (length (pm_verified_requests m)) ∧
    pm_output_queue_cursor m = staged_queue_cursor w_inputs1.
Proof.
  exact (published_proof_consistent "" (() : Instant) (λ _, inl ()) (to_uint 64 1)
    (ProofOutputs_to_bytes w_outputs1) w_bridge w_job w_outputs1 w_bridge_job eq_refl eq_refl w_run1 w_fits w_distinct).
Defined.
