(* ===== verification/SystemWindows.v ===== *)
(** * Windows in the running bridge head

    Where the windows of a run can be: in the validation results, the detector's
    output, the events, the observer, the commands and the job table.  A
    property that validation establishes holds of all of them, and a property
    that the guest's outputs on such a window establish holds of every
    published proof. *)
From S2P Require Import Prelude Externals StorageLayout Types Merkle Instances MerkleSpec RequestLeaf Mpt StoreHash Consensus Detector Notice BridgeHead Observer System SystemSpec.

(** A run whose environment behaves as [env] says at each step. *)
Section RunUnder.
Context `{HeliosTypes} `{HostRuntime}.

Inductive run_under (env : System → action → Prop) (start : System) : nat → System → Prop :=
| under_here : run_under env start 0 start
| under_step n s a s' : run_under env start n s → env s a → sys_exec s a = Some s' → run_under env start (S n) s'.

Lemma run_under_run env start n s : run_under env start n s → sys_run start n s.
Proof. induction 1; [constructor|by eapply run_step]. Qed.
Lemma run_under_mono (env env' : System → action → Prop) start n s :
  (∀ s a, env s a → env' s a) → run_under env start n s → run_under env' start n s.
Proof. intros He. induction 1; [constructor|eapply under_step; eauto]. Qed.

(** A schedule whose actions the environment allows where they are taken. *)
Lemma sys_schedule_snoc acts a (start : System) : sys_schedule (acts ++ [a]) start = sys_schedule acts start ≫= λ s, sys_exec s a.
Proof. unfold sys_schedule. by rewrite foldl_app. Qed.
Lemma under_schedule env acts start : follows acts start = true →
  (∀ k a, acts !! k = Some a → env (sys_after (take k acts) start) a) →
  run_under env start (length acts) (sys_after acts start).
Proof.
  unfold follows, sys_after. induction acts as [|a acts IH] using rev_ind; intros Hf He; [constructor|].
  rewrite sys_schedule_snoc in *. destruct (sys_schedule acts start) as [s|] eqn:Hs; [|done]. simpl in *.
  destruct (sys_exec s a) as [s'|] eqn:Hexec; [|done]. simpl. rewrite length_app, Nat.add_comm. simpl.
  eapply under_step; [apply IH|..|done]; [done|..].
  - intros k a' Hk. pose proof (lookup_lt_Some _ _ _ Hk) as Hlt. specialize (He k a'). rewrite take_app_le in He by lia.
    apply He. by rewrite lookup_app_l.
  - specialize (He (length acts) a). rewrite take_app_length, Hs in He. apply He. by rewrite list_lookup_middle.
Qed.
End RunUnder.

Section Windows.
Context `{HeliosTypes} `{HostRuntime}.
(** A property of windows, and one of proof messages. *)
Context (P : ProofInputsWithWindow → Prop) (Q : ProofMessage → Prop).
(** The outputs of the program that is proved. *)
Context (outputs : ProofInputs → ProofOutputs → Prop).

Definition dual_ok (d : DualProofInputsWithWindow) : Prop :=
  P (current_window d) ∧ ∀ w, next_window d = Some w → P w.
Definition event_ok (e : BridgeHeadEvent) : Prop :=
  match e with
  | NoticeEvent (FinalityTransitionDetected m) =>
    P (ft_current_window (extension m)) ∧ ∀ w, ft_next_window (extension m) = Some w → P w
  | NoticeEvent _ => True
  | ProofEvent m => Q m
  end.
Definition command_ok (c : Command) : Prop :=
  match c with StageTransitionProof w => P w | Advance _ => True end.
Definition result_ok (jobs : gmap u64 ProverJob) (r : ProverJobOutput + ProverJobError) : Prop :=
  match r with
  | inl out => ∃ job o, jobs !! pj_job_id out = Some job ∧
      outputs (proof_inputs (inputs_with_window job)) o ∧ public_values (pj_proof out) = ProofOutputs_to_bytes o
  | inr _ => True
  end.

Record windows_inv (s : System) : Prop := {
  w_results : ∀ d, inr d ∈ sy_validation_results s → dual_ok d;
  w_finality : ∀ d, d ∈ sy_finality s → dual_ok d;
  w_events : ∀ e, e ∈ sy_events s → event_ok e;
  w_commands : ∀ c, c ∈ sy_commands s → command_ok c;
  w_current : ∀ w, ob_latest_current_window (sy_observer s) = Some w → P w;
  w_next : ∀ w, ob_latest_next_window (sy_observer s) = Some w → P w;
  w_jobs : ∀ id job, bh_prover_jobs (sy_bridge s) !! id = Some job → P (inputs_with_window job);
  w_running : ∀ id slot inputs, (id, slot, inputs) ∈ sy_running s →
    ∃ job, bh_prover_jobs (sy_bridge s) !! id = Some job ∧ proof_inputs (inputs_with_window job) = inputs;
  w_proofs : ∀ r, r ∈ sy_job_results s → result_ok (bh_prover_jobs (sy_bridge s)) r
}.

(** The environment of a run: validation establishes [P], and a proof carries
    the outputs of the program on its inputs. *)
Definition honest (s : System) (a : action) : Prop :=
  match a with
  | Validate prepare => ∀ slot h c w, prepare slot h c true = Ok w → P w
  | ProverDone i proof => ∀ id slot inputs, sy_running s !! i = Some (id, slot, inputs) →
      ∃ o, outputs inputs o ∧ public_values proof = ProofOutputs_to_bytes o
  | _ => True
  end.

(** A published proof of a good window is good. *)
Context (publish : ∀ job now proof o, P (inputs_with_window job) → outputs (proof_inputs (inputs_with_window job)) o →
  Q (proof_message job now proof o)).

Lemma windows_inv_start slot h c latest inflight : windows_inv (sys_start slot h c latest inflight).
Proof.
  split; simpl; try (intros; done); try (intros ? Hin; by apply elem_of_nil in Hin).
  - intros e ->%list_elem_of_singleton. done.
  - intros id slot' inputs Hin. by apply elem_of_nil in Hin.
Qed.

Lemma validate_job_ok prepare job d : (∀ slot h c w, prepare slot h c true = Ok w → P w) →
  validate_job prepare job = Ok d → dual_ok d.
Proof.
  intros HP. unfold validate_job. destruct (ji_next_expected_output job) as [n|]; simpl.
  - destruct (prepare (ji_slot job) _ _ _) eqn:Hc; [|by destruct (prepare (fu_slot n) _ _ _)|done].
    destruct (prepare (fu_slot n) _ _ _) eqn:Hn; simpl; [|done..].
    intros [= <-]. split; simpl; [by eapply HP|]. intros w [= <-]. by eapply HP.
  - destruct (prepare _ _ _ _) eqn:Hc; simpl; [|done..]. intros [= <-]. split; simpl; [by eapply HP|done].
Qed.

(** ** The detector passes on a result it received *)

Lemma on_result_outputs r d : 
  omap (λ m, match m with FinalityOutput o => Some o | _ => None end) (snd (fst (on_result (λ _, true) (Some r) d)))
  ⊆ match r with inr dual => [dual] | inl _ => [] end.
Proof.
  unfold on_result, try_start_validation_job. eff_unfold. destruct r as [e|dual]; simpl; [done|].
  destruct (stale d); simpl; [set_solver|]. case_decide; simpl; [set_solver|]. case_decide; simpl; [set_solver|].
  destruct (next_window dual); simpl; [case_decide|]; simpl; set_solver.
Qed.

(** A step of the detector that outputs only good pairs. *)
Lemma windows_inv_detector m s0 s s' : windows_inv s0 → run_detector m s = Some s' →
  (∀ d, inr d ∈ sy_validation_results s → inr d ∈ sy_validation_results s0) → sy_finality s = sy_finality s0 →
  sy_events s = sy_events s0 → sy_commands s = sy_commands s0 → sy_observer s = sy_observer s0 →
  sy_bridge s = sy_bridge s0 → sy_running s = sy_running s0 → sy_job_results s = sy_job_results s0 →
  (∀ d, d ∈ omap (λ m, match m with FinalityOutput o => Some o | _ => None end) (snd (fst (m (sy_detector s)))) →
     dual_ok d) →
  windows_inv s'.
Proof.
  intros [] Hrun Hres Hf He Hc Ho Hb Hr Hj Hout. unfold run_detector in Hrun.
  destruct (m (sy_detector s)) as [[d ms] [[]| |]]; [|done..]. injection Hrun as <-. simpl in Hout.
  split; simpl; rewrite ?He, ?Hc, ?Ho, ?Hb, ?Hr, ?Hj, ?Hf; auto.
  intros d0 [Hin|Hin]%elem_of_app; auto.
Qed.

(** ** The bridge head *)

Lemma windows_inv_stage n s w cs now s' : sys_inv n s → windows_inv s → sy_commands s = StageTransitionProof w :: cs →
  run_bridge (stage_transition_proof (λ _, true) "" now w) (pop_commands cs s) = Some s' → windows_inv s'.
Proof.
  intros Hinv [] Hc. unfold run_bridge. simpl. rewrite stage_eq by apply Hinv. intros [= <-].
  destruct (stage_request _ _ _ (i_tokens _ _ Hinv) Hc) as (_ & _ & _ & _ & Hrun & Hres). rewrite Hc in w_commands0.
  split; simpl; rewrite ?Hrun, ?Hres; auto.
  - intros e [?| ->%list_elem_of_singleton]%elem_of_app; [auto|done].
  - intros c Hin. apply w_commands0. by right.
  - intros id job. rewrite lookup_insert_Some. intros [[_ <-]|[_ Hj]]; [|by eapply w_jobs0].
    apply (w_commands0 (StageTransitionProof w)). left.
  - intros id slot inputs ?%list_elem_of_singleton. simplify_eq.
    exists (MkProverJob w now). by rewrite lookup_insert_eq.
  - intros r Hin. by apply elem_of_nil in Hin.
Qed.

Lemma windows_inv_result n s r rs now s' : sys_inv n s → windows_inv s → sy_job_results s = r :: rs →
  run_bridge (bridge_step (λ _, true) "" now (λ _, inl ()) (JobInput (Some r))) (pop_job_results rs s) = Some s' →
  windows_inv s'.
Proof.
  intros Hinv [] Hr. destruct (result_alone _ _ _ _ Hinv Hr) as (Hrun & -> & _ & (job & Hjob) & Hdel).
  rewrite Hr in w_proofs0. specialize (w_proofs0 r (list_elem_of_here _ _)).
  unfold run_bridge. destruct r as [out|err]; simpl in *.
  - rewrite (success_eq _ _ _ _ job) by done. destruct w_proofs0 as (job' & o & Hj' & Ho & Hp).
    rewrite Hjob in Hj'. injection Hj' as <-. rewrite Hp, (proj2 (ProofOutputs_codec_iff _ o)) by done.
    intros [= <-]. split; simpl; rewrite ?Hrun, ?Hdel, ?app_nil_r; auto; try (intros ? Hin; by apply elem_of_nil in Hin).
    + intros e [?|[-> | ->%list_elem_of_singleton]%elem_of_cons]%elem_of_app; [auto|done|].
      apply publish; [by eapply w_jobs0|done].
    + intros id job'. by rewrite lookup_empty.
    + intros id slot inputs Hin. by apply elem_of_nil in Hin.
  - rewrite (failure_eq _ _ _ job) by done.
    intros [= <-]. split; simpl; rewrite ?Hrun, ?Hdel, ?app_nil_r; auto; try (intros ? Hin; by apply elem_of_nil in Hin).
    + intros e [?| ->%list_elem_of_singleton]%elem_of_app; [auto|done].
    + intros id job'. by rewrite lookup_empty.
    + intros id slot inputs Hin. by apply elem_of_nil in Hin.
Qed.

Lemma windows_inv_command n s c cs now s' : sys_inv n s → windows_inv s → sy_commands s = c :: cs →
  run_bridge (bridge_step (λ _, true) "" now (λ _, inl ()) (CommandInput (Some c))) (pop_commands cs s) = Some s' →
  windows_inv s'.
Proof.
  intros Hinv Hw Hc. destruct c as [w|m]; [by apply (windows_inv_stage n s w cs now)|].
  unfold run_bridge. rewrite advance_eq. intros [= <-]. destruct Hw. rewrite Hc in w_commands0.
  split; simpl; rewrite ?app_nil_r; auto.
  - intros e [?| ->%list_elem_of_singleton]%elem_of_app; [auto|done].
  - intros c Hin. apply w_commands0. by right.
Qed.

Lemma windows_inv_finality s f fs s' : windows_inv s → sy_finality s = f :: fs →
  run_bridge (on_beacon_finality_change (λ _, true) "" f) (pop_finality fs s) = Some s' → windows_inv s'.
Proof.
  intros [] Hf. unfold run_bridge. rewrite on_finality_eq. intros [= <-]. rewrite Hf in w_finality0.
  split; simpl; rewrite ?app_nil_r; auto.
  - intros d Hin. apply w_finality0. by right.
  - intros e [?| ->%list_elem_of_singleton]%elem_of_app; [auto|]. apply (w_finality0 f). left.
Qed.

(** ** The observer stages windows it was given *)

Lemma windows_inv_event s e es s' : windows_inv s → sy_events s = e :: es →
  run_observer (observer_step (λ _, true) (Some e)) (pop_events es s) = Some s' → windows_inv s'.
Proof.
  intros [] He Hrun. rewrite He in w_events0. pose proof (w_events0 e (list_elem_of_here _ _)) as Hok.
  unfold run_observer in Hrun. change (sy_observer (pop_events es s)) with (sy_observer s) in Hrun.
  destruct (observer_step _ (Some e) (sy_observer s)) as [[o' ms] r] eqn:Hstep.
  destruct r as [[]| |]; [|done..]. injection Hrun as <-.
  assert (Forall command_ok (commands_of ms) ∧
    (∀ w, ob_latest_current_window o' = Some w → P w) ∧ (∀ w, ob_latest_next_window o' = Some w → P w))
    as (Hms & Hcur & Hnext).
  { clear w_events0. destruct e as [m|[m|m|m|m|m|m|m]]; simpl in Hok;
      rewrite ?observer_proof_eq, ?observer_transition_eq in Hstep.
    all: unfold observer_step, on_bridge_head_transition_notice, command in Hstep.
    all: revert Hstep; eff_unfold; destruct (sy_observer s) as [? ? ? ? f [wc|] [wn|]]; simpl in *.
    all: repeat (case_decide || case_match); intros [= <- <-]; simpl.
    all: split_and!; [simpl|intros w Hw|intros w Hw]; simpl in *; simplify_eq.
    all: try done; try (destruct Hok; auto; done); auto.
    all: repeat constructor; simpl; try (apply Hok); auto. }
  split; simpl; rewrite ?app_nil_r; auto.
  - intros e' Hin. apply w_events0. by right.
  - intros c [?|Hin]%elem_of_app; [auto|]. rewrite Forall_elem in Hms. auto.
Qed.

(** ** Every step, every run *)

Lemma windows_inv_exec n s a s' : sys_inv n s → honest s a → windows_inv s → sys_exec s a = Some s' → windows_inv s'.
Proof.
  intros Hinv Ha Hw. unfold sys_exec.
  destruct a as [| | | |prepare| |now|now|i proof|i error|]; simpl in Ha.
  - intros Hrun. apply (windows_inv_detector _ s s s' Hw Hrun); try done. unfold on_tick, try_start_validation_job.
    eff_unfold. destruct (in_flight _); set_solver.
  - destruct (sy_stages s) as [|u us]; [done|]. intros Hrun. apply (windows_inv_detector _ s _ s' Hw Hrun); try done.
    unfold on_stage. eff_unfold. destruct (in_flight _); set_solver.
  - destruct (sy_advances s) as [|u us]; [done|]. intros Hrun. apply (windows_inv_detector _ s _ s' Hw Hrun); try done.
    unfold on_advance. eff_unfold. destruct (in_flight _), (next_expected_output _); simpl; try case_decide; set_solver.
  - destruct (sy_validation_results s) as [|r rs] eqn:Hr; [done|]. intros Hrun.
    apply (windows_inv_detector _ s _ s' Hw Hrun); try done.
    + intros d Hin. rewrite Hr. by right.
    + intros d Hin%on_result_outputs. destruct r as [e|dual]; [by apply elem_of_nil in Hin|].
      apply list_elem_of_singleton in Hin as ->. apply (w_results _ Hw). rewrite Hr. left.
  - destruct (sy_validation_jobs s) as [|job jobs]; [done|]. destruct (validate_job prepare job) eqn:Hv; intros [= <-];
      destruct Hw; split; simpl; auto; intros d [?|?%list_elem_of_singleton]%elem_of_app; simplify_eq; auto.
    by eapply validate_job_ok.
  - destruct (sy_finality s) as [|f fs] eqn:Hf; [done|]. by apply windows_inv_finality.
  - destruct (sy_commands s) as [|c cs] eqn:Hc; [done|]. by eapply windows_inv_command.
  - destruct (sy_job_results s) as [|r rs] eqn:Hr; [done|]. by eapply windows_inv_result.
  - destruct (sy_running s !! i) as [[[id h] inputs]|] eqn:Hi; [|done]. intros [= <-]. destruct Hw. split; simpl; auto.
    + intros id' slot inputs' Hin%list_elem_of_delete_inv. by eapply w_running0.
    + intros r [?| ->%list_elem_of_singleton]%elem_of_app; [auto|]. simpl.
      destruct (Ha _ _ _ eq_refl) as (o & Ho & Hp).
      destruct (w_running0 id h inputs (list_elem_of_lookup_2 _ _ _ Hi)) as (job & Hjob & <-). by exists job, o.
  - destruct (sy_running s !! i) as [[[id h] inputs]|] eqn:Hi; [|done]. intros [= <-]. destruct Hw. split; simpl; auto.
    + intros id' slot inputs' Hin%list_elem_of_delete_inv. by eapply w_running0.
    + intros r [?| ->%list_elem_of_singleton]%elem_of_app; [auto|done].
  - destruct (sy_events s) as [|e es] eqn:He; [done|]. by apply windows_inv_event.
Qed.

Lemma windows_inv_run slot h c latest inflight n s : Z.of_nat n < 2 ^ 64 →
  run_under honest (sys_start slot h c latest inflight) n s → windows_inv s.
Proof.
  intros Hn Hrun. induction Hrun as [|n s a s' Hrun IH Ha Hexec]; [apply windows_inv_start|].
  eapply windows_inv_exec; [|done|apply IH; lia|done]. eapply sys_inv_run; [|by eapply run_under_run]. lia.
Qed.
End Windows.
