(* ===== verification/SystemProgress.v ===== *)
(** * Progress of the running bridge head

    The detector of the running system is that of DetectorSpec; a delivery makes
    what is queued lighter, and is possible while anything is queued; and from a
    drained state without a prover the next window that the nodes offer is
    staged.  ChannelsProgress puts these together for the bounded channels. *)
From S2P Require Import Prelude Externals StorageLayout Types Merkle Instances MerkleSpec RequestLeaf Mpt StoreHash Consensus Detector DetectorSpec Notice BridgeHead Observer System SystemSpec SystemWindows.

#[local] Arguments uadd : simpl never.
#[local] Arguments to_uint : simpl never.
#[local] Arguments uint_Z : simpl never.

Section Progress.
Context `{HeliosTypes} `{HostRuntime}.

(** The environment: windows start where they were asked to, and a proof's
    public values are outputs. *)
Definition lawful (_ : System) (a : action) : Prop :=
  match a with
  | Validate prepare => prepare_law prepare
  | ProverDone _ proof => ∃ o, public_values proof = ProofOutputs_to_bytes o
  | _ => True
  end.

(** ** The detector of the system refines that of DetectorSpec *)

Definition det_sim (s : System) (ds : DetectorSystem) : Prop :=
  sy_detector s = ds_det ds ∧ sy_validation_jobs s = ds_jobs ds ∧ sy_validation_results s = snd <$> ds_results ds.

Lemma run_detector_Some m s s' : run_detector m s = Some s' →
  ∃ d ms, m (sy_detector s) = (d, ms, Ok ()) ∧ s' = with_detector d ms s.
Proof.
  unfold run_detector. destruct (m (sy_detector s)) as [[d ms] [[]| |]]; [|done..]. intros [= <-]. by exists d, ms.
Qed.
Lemma run_bridge_Some m s s' : run_bridge m s = Some s' →
  ∃ b ms, m (sy_bridge s) = (b, ms, Ok ()) ∧ s' = with_bridge b ms s.
Proof.
  unfold run_bridge. destruct (m (sy_bridge s)) as [[d ms] [[]| |]]; [|done..]. intros [= <-]. by exists d, ms.
Qed.
Lemma run_observer_Some m s s' : run_observer m s = Some s' →
  ∃ o ms, m (sy_observer s) = (o, ms, Ok ()) ∧ s' = with_observer o ms s.
Proof.
  unfold run_observer. destruct (m (sy_observer s)) as [[d ms] [[]| |]]; [|done..]. intros [= <-]. by exists d, ms.
Qed.

(** The step leaves the detector system as it is, and emits nothing. *)
Ltac det_idle ds := exists ds; split; [done|left; split; [done|simpl; lia]].

(** A step of the system is a step of the detector system, whose output joins the
    queue to the bridge head, or none. *)
Lemma det_sim_exec s a s' ds : det_sim s ds → lawful s a → sys_exec s a = Some s' →
  ∃ ds', det_sim s' ds' ∧ (ds' = ds ∧ (length (sy_finality s') ≤ length (sy_finality s))%nat ∨
    ∃ out, ds_step ds out ds' ∧ sy_finality s' = sy_finality s ++ out).
Proof.
  intros (Hd & Hj & Hr) Ha. destruct ds as [d jobs results]. simpl in Hd, Hj, Hr. unfold sys_exec.
  destruct a as [| | | |prepare| |now|now|i proof|i error|]; simpl in Ha.
  - intros (d' & ms & He & ->)%run_detector_Some. rewrite Hd in He. eexists. split; [|right; eexists; split; [apply ds_own, ds_tick, He|done]].
    split_and!; simpl; [done|by rewrite Hj|done].
  - destruct (sy_stages s) as [|u us]; [done|]. intros (d' & ms & He & ->)%run_detector_Some. simpl in He. rewrite Hd in He.
    eexists. split; [|right; eexists; split; [eapply ds_own, ds_stage, He|done]]. split_and!; simpl; [done|by rewrite Hj|done].
  - destruct (sy_advances s) as [|u us]; [done|]. intros (d' & ms & He & ->)%run_detector_Some. simpl in He. rewrite Hd in He.
    eexists. split; [|right; eexists; split; [eapply ds_advance, He|done]]. split_and!; simpl; [done|by rewrite Hj|done].
  - destruct (sy_validation_results s) as [|r rs] eqn:Hrs; [done|]. destruct results as [|[job r'] results]; [done|].
    injection Hr as -> ->. intros (d' & ms & He & ->)%run_detector_Some. simpl in He. rewrite Hd in He.
    eexists. split; [|right; eexists; split; [eapply ds_own, ds_result, He|done]]. split_and!; simpl; [done|by rewrite Hj|done].
  - destruct (sy_validation_jobs s) as [|job js] eqn:Hjs; [done|]. subst jobs.
    destruct (validate_job prepare job) as [dual|e|] eqn:Hv; simpl; [| |done]; intros [= <-].
    + exists (MkDS d js (results ++ [(job, inr dual)])). split; [split_and!; simpl; [done..|by rewrite Hr, fmap_app]|].
      right. exists []. split; [by apply ds_own, (ds_actor _ _ _ _ prepare (inr dual))|simpl; by rewrite app_nil_r].
    + exists (MkDS d js (results ++ [(job, inl e)])). split; [split_and!; simpl; [done..|by rewrite Hr, fmap_app]|].
      right. exists []. split; [by apply ds_own, (ds_actor _ _ _ _ prepare (inl e))|simpl; by rewrite app_nil_r].
  - destruct (sy_finality s) as [|f fs]; [done|]. intros (b & ms & He & ->)%run_bridge_Some. det_idle (MkDS d jobs results).
  - destruct (sy_commands s) as [|f fs]; [done|]. intros (b & ms & He & ->)%run_bridge_Some. det_idle (MkDS d jobs results).
  - destruct (sy_job_results s) as [|f fs]; [done|]. intros (b & ms & He & ->)%run_bridge_Some. det_idle (MkDS d jobs results).
  - destruct (sy_running s !! i) as [[[id h] inputs]|]; [|done]. intros [= <-]. det_idle (MkDS d jobs results).
  - destruct (sy_running s !! i) as [[[id h] inputs]|]; [|done]. intros [= <-]. det_idle (MkDS d jobs results).
  - destruct (sy_events s) as [|f fs]; [done|]. intros (b & ms & He & ->)%run_observer_Some. det_idle (MkDS d jobs results).
Qed.

Lemma detector_sim_run slot h c latest inflight n s :
  run_under lawful (sys_start slot h c latest inflight) n s →
  ∃ ds, ds_reachable (ds_init (detector_init slot h c inflight)) ds ∧ det_sim s ds.
Proof.
  induction 1 as [|n s a s' _ (ds & Hds & Hsim) Ha Hexec]; [eexists; split; [constructor|done]|].
  destruct (det_sim_exec _ _ _ _ Hsim Ha Hexec) as (ds' & Hsim' & [[-> _]|(out & Hstep & _)]); exists ds' || exists ds; (split; [|done]).
  - done.
  - by eapply ds_there.
Qed.

(** ** Delivery of messages *)

(** The actions that deliver a queued message. *)
Definition delivers (a : action) : bool :=
  match a with
  | DetectorStage | DetectorAdvance | DetectorResult | BridgeFinality | BridgeCommand _ | BridgeJobResult _
  | ObserverEvent => true
  | DetectorTick | Validate _ | ProverDone _ _ | ProverFailed _ _ => false
  end.

(** How many deliveries a message can still cause, itself included. *)
Definition event_weight (e : BridgeHeadEvent) : nat :=
  match e with
  | ProofEvent _ => 7
  | NoticeEvent (FinalityTransitionDetected _) | NoticeEvent (JobFailed _) => 4
  | NoticeEvent _ => 1
  end.
Definition result_weight (r : anyhow + DualProofInputsWithWindow) : nat := match r with inl _ => 1 | inr _ => 6 end.
Definition weight (s : System) : nat :=
  sum_list_with result_weight (sy_validation_results s) + 5 * length (sy_finality s)
  + length (sy_stages s) + length (sy_advances s) + sum_list_with event_weight (sy_events s)
  + 3 * length (sy_commands s) + 9 * length (sy_job_results s).

(** The state [s] is live: every delivery it can make succeeds. *)
Record live (n : nat) (s : System) : Prop := {
  live_inv : sys_inv n s;
  live_windows : windows_inv (λ _, True) (λ _, True) (λ _ _, True) s;
  live_detector : ∃ ds, det_sim s ds ∧ ds_inv ds
}.

Lemma lawful_honest s a : lawful s a → honest (λ _, True) (λ _ _, True) s a.
Proof.
  destruct a as [| | | |prepare| |now|now|i proof|i error|]; simpl; try done.
  intros (o & Ho) _ _ _ _. by exists o.
Qed.
Lemma live_exec n s a s' : live n s → Z.of_nat n + 1 < 2 ^ 64 → lawful s a → sys_exec s a = Some s' → live (S n) s'.
Proof.
  intros [Hi Hw (ds & Hsim & Hds)] Hn Ha Hexec. split.
  - by eapply sys_inv_exec.
  - apply (windows_inv_exec _ _ _ (λ _ _ _ _ _ _, I) n s a s'); try done. by apply lawful_honest.
  - destruct (det_sim_exec _ _ _ _ Hsim Ha Hexec) as (ds' & Hsim' & [[-> _]|(out & Hstep & _)]).
    + by exists ds.
    + exists ds'. split; [done|by eapply ds_inv_step].
Qed.
Lemma live_start slot h c latest inflight : live 0 (sys_start slot h c latest inflight).
Proof.
  split; [apply sys_inv_start|apply windows_inv_start|].
  exists (ds_init (detector_init slot h c inflight)). split; [done|apply ds_inv_init].
Qed.
Lemma live_run slot h c latest inflight n s : Z.of_nat n < 2 ^ 64 →
  run_under lawful (sys_start slot h c latest inflight) n s → live n s.
Proof.
  intros Hn Hrun. induction Hrun as [|n s a s' _ IH Ha Hexec]; [apply live_start|].
  eapply live_exec; [apply IH; lia|lia|done|done].
Qed.
Lemma delivers_lawful s a : delivers a = true → lawful s a.
Proof. by destruct a. Qed.

(** *** A delivery makes the state lighter *)

Lemma observer_commands n s e es o' ms : sys_inv n s → sy_events s = e :: es →
  observer_step (λ _, true) (Some e) (sy_observer s) = (o', ms, Ok ()) →
  (3 * length (commands_of ms) < event_weight e)%nat.
Proof.
  intros Hinv He Hstep. destruct e as [m|[m|m|m|m|m|m|m]];
    rewrite ?observer_proof_eq, ?observer_transition_eq in Hstep.
  all: rewrite ?observer_failed_eq in Hstep by (apply (i_alone _ _ Hinv); rewrite He; left).
  all: destruct (sy_observer s) as [? ? ? ? f [wc|] [wn|]]; simpl in Hstep.
  all: try (destruct f); repeat case_decide; injection Hstep as <- <-; simpl; lia.
Qed.

Lemma delivery_lightens n s a s' : sys_inv n s → delivers a = true → sys_exec s a = Some s' → (weight s' < weight s)%nat.
Proof.
  intros Hinv Ha. unfold sys_exec, weight. destruct a as [| | | |prepare| |now|now|i proof|i error|]; try done.
  - destruct (sy_stages s) as [|u us]; [done|]. intros (d' & ms & He & ->)%run_detector_Some. simpl in He.
    rewrite on_stage_eq in He. injection He as <- <-. simpl. rewrite !app_nil_r. lia.
  - destruct (sy_advances s) as [|u us]; [done|]. intros (d' & ms & He & ->)%run_detector_Some. simpl in He.
    rewrite on_advance_eq in He. injection He as <- <-. simpl. rewrite !app_nil_r. lia.
  - destruct (sy_validation_results s) as [|r rs]; [done|]. intros (d' & ms & He & ->)%run_detector_Some. simpl in He.
    rewrite on_result_eq in He. destruct r as [e|dual]; [injection He as <- <-; simpl; rewrite !app_nil_r; lia|].
    destruct (stale _); [|case_decide; [|case_decide; [|destruct (shows_progress _ _)]]]; injection He as <- <-; simpl;
      rewrite ?app_nil_r, ?length_app; simpl; lia.
  - destruct (sy_finality s) as [|f fs]; [done|]. intros (b & ms & He & ->)%run_bridge_Some. simpl in He.
    rewrite on_finality_eq in He. injection He as <- <-. simpl. rewrite !app_nil_r, sum_list_with_app. simpl. lia.
  - destruct (sy_commands s) as [|[w|m] cs]; [done|..]; intros (b & ms & He & ->)%run_bridge_Some; simpl in He.
    + rewrite stage_eq in He by apply Hinv. injection He as <- <-. simpl.
      rewrite !app_nil_r, length_app, sum_list_with_app. simpl. lia.
    + injection He as <- <-. simpl. rewrite !app_nil_r, length_app, sum_list_with_app. simpl. lia.
  - destruct (sy_job_results s) as [|r rs] eqn:Hr; [done|]. intros (b & ms & He & ->)%run_bridge_Some.
    destruct (result_alone _ _ _ _ Hinv Hr) as (_ & _ & _ & (job & Hjob) & _). destruct r as [out|err]; simpl in *.
    + rewrite (success_eq _ _ _ _ job) in He by done. destruct (ProofOutputs_from_bytes _); [|done..].
      injection He as <- <-. simpl. rewrite !app_nil_r, sum_list_with_app. simpl. lia.
    + rewrite (failure_eq _ _ _ job) in He by done. injection He as <- <-. simpl.
      rewrite !app_nil_r, sum_list_with_app. simpl. lia.
  - destruct (sy_events s) as [|e es] eqn:He; [done|]. intros (o' & ms & Hstep & ->)%run_observer_Some.
    pose proof (observer_commands _ _ _ _ _ _ Hinv He Hstep) as Hlt. simpl. fold (commands_of ms).
    rewrite length_app. lia.
Qed.

(** *** A queued message can be delivered *)

Lemma delivery_enabled (now : Instant) n s : live n s → weight s ≠ 0%nat →
  ∃ a s', delivers a = true ∧ sys_exec s a = Some s'.
Proof.
  intros [Hi Hw _] Hz. destruct (sy_validation_results s) as [|r rs] eqn:Hr.
  2: { exists DetectorResult. unfold sys_exec. rewrite Hr. unfold run_detector. rewrite on_result_eq.
    destruct r; [by eexists|]. simpl. destruct (stale _); [by eexists|]. repeat case_decide; by eexists. }
  destruct (sy_finality s) as [|f fs] eqn:Hf.
  2: { exists BridgeFinality. unfold sys_exec. rewrite Hf. by eexists. }
  destruct (sy_stages s) as [|u us] eqn:Hs.
  2: { exists DetectorStage. unfold sys_exec. rewrite Hs. unfold run_detector. rewrite on_stage_eq. by eexists. }
  destruct (sy_advances s) as [|u us] eqn:Ha.
  2: { exists DetectorAdvance. unfold sys_exec. rewrite Ha. unfold run_detector. rewrite on_advance_eq. by eexists. }
  destruct (sy_events s) as [|e es] eqn:He.
  2: { exists ObserverEvent. unfold sys_exec. rewrite He. unfold run_observer.
    destruct (observer_handles _ _ _ _ Hi He) as (o' & ms & Hstep).
    change (sy_observer (pop_events es s)) with (sy_observer s). rewrite Hstep. by eexists. }
  destruct (sy_commands s) as [|c cs] eqn:Hc.
  2: { exists (BridgeCommand now). unfold sys_exec. rewrite Hc. unfold run_bridge. destruct c as [w|m]; [|by eexists].
    simpl. rewrite stage_eq by apply Hi. by eexists. }
  destruct (sy_job_results s) as [|r rs] eqn:Hj.
  { unfold weight in Hz. by rewrite Hr, Hf, Hs, Ha, He, Hc, Hj in Hz. }
  exists (BridgeJobResult now). unfold sys_exec. rewrite Hj. unfold run_bridge.
  destruct (result_alone _ _ _ _ Hi Hj) as (_ & _ & _ & (job & Hjob) & _).
  pose proof (w_proofs _ _ _ _ Hw r) as Hp. rewrite Hj in Hp. specialize (Hp (list_elem_of_here _ _)).
  destruct r as [out|err]; simpl in *.
  - rewrite (success_eq _ _ _ _ job) by done. destruct Hp as (_ & o & _ & _ & ->).
    rewrite (proj2 (ProofOutputs_codec_iff _ o)) by done. by eexists.
  - rewrite (failure_eq _ _ _ job) by done. by eexists.
Qed.

(** ** From a drained state to the next proof *)

(** A drained state: every queue of messages is empty. *)
Lemma weight_zero s : weight s = 0%nat →
  sy_validation_results s = [] ∧ sy_finality s = [] ∧ sy_stages s = [] ∧ sy_advances s = [] ∧
  sy_events s = [] ∧ sy_commands s = [] ∧ sy_job_results s = [].
Proof.
  unfold weight. intros Hz. split_and!; apply nil_length_inv.
  - destruct (sy_validation_results s) as [|[]]; simpl in *; lia.
  - lia.
  - lia.
  - lia.
  - destruct (sy_events s) as [|[|[]]]; simpl in *; lia.
  - lia.
  - lia.
Qed.

(** Every queue holds at most one message. *)
Definition narrow (s : System) : Prop :=
  (length (sy_validation_jobs s) ≤ 1 ∧ length (sy_validation_results s) ≤ 1 ∧ length (sy_finality s) ≤ 1 ∧
   length (sy_stages s) ≤ 1 ∧ length (sy_advances s) ≤ 1 ∧ length (sy_events s) ≤ 1 ∧ length (sy_commands s) ≤ 1 ∧
   length (sy_job_results s) ≤ 1)%nat.
(** The actions lead from [s] to [s'], through states that satisfy [P]. *)
Fixpoint sys_path (P : System → Prop) (acts : list action) (s s' : System) : Prop :=
  match acts with
  | [] => s = s'
  | a :: acts => ∃ s1, sys_exec s a = Some s1 ∧ P s1 ∧ sys_path P acts s1 s'
  end.
Lemma sys_path_app P acts1 acts2 s s1 s2 : sys_path P acts1 s s1 → sys_path P acts2 s1 s2 → sys_path P (acts1 ++ acts2) s s2.
Proof.
  revert s. induction acts1 as [|a acts1 IH]; intros s; [by intros ->|].
  intros (s' & Ha & HP & Hp) Hp2. exists s'. split_and!; [done|done|by apply IH].
Qed.

(** The nodes offer windows that end beyond [latest]. *)
Definition offers (prepare : u64 → B256 → u64 → bool → res anyhow ProofInputsWithWindow) (latest : u64) : Prop :=
  ∀ s h c, ∃ w, prepare s h c true = Ok w ∧ input_slot w = s ∧ latest < expected_output_slot w.
Lemma offers_dual prepare latest job : offers prepare latest →
  ∃ dual, validate_job prepare job = Ok dual ∧
    prepare (ji_slot job) (ji_store_hash job) (ji_queue_cursor job) true = Ok (current_window dual) ∧
    input_slot (current_window dual) = ji_slot job ∧ latest < expected_output_slot (current_window dual) ∧
    ∀ w, next_window dual = Some w → latest < expected_output_slot w.
Proof.
  intros Ho. destruct (Ho (ji_slot job) (ji_store_hash job) (ji_queue_cursor job)) as (w & Hw & Hin & Hlt).
  unfold validate_job. rewrite Hw. destruct (ji_next_expected_output job) as [n|].
  - destruct (Ho (fu_slot n) (fu_store_hash n) (fu_queue_cursor n)) as (w' & -> & _ & Hlt').
    exists (MkDual w (Some w')). split_and!; simpl; [done..|]. by intros ? [= <-].
  - exists (MkDual w None). split_and!; simpl; [done..|done].
Qed.

(** The drained state [s] with this detector and these queues around it. *)
Definition around (s : System) (d : Detector) (jobs : list FinalityChangeDetectorJobInput)
    (out : list DualProofInputsWithWindow) : System :=
  MkSystem d jobs [] out [] [] (sy_bridge s) (sy_running s) [] [] [] (sy_observer s).

Lemma tick_around s d : in_flight d = false →
  sys_path narrow [DetectorTick] (around s d [] []) (around s (set_in_flight true d) [current_job d] []).
Proof.
  intros Hd. eexists. split_and!; [simpl; unfold run_detector; simpl; by rewrite on_tick_eq, Hd| |done].
  unfold narrow. simpl. lia.
Qed.
Lemma round_around prepare s d job dual : validate_job prepare job = Ok dual →
  let '(d', ms, _) := on_result (λ _, true) (Some (inr dual)) d in
  sys_path narrow [Validate prepare; DetectorResult] (around s d [job] []) (around s d' (jobs_of ms) (outputs_of ms)).
Proof.
  intros Hv. destruct (on_result _ _ d) as [[d' ms] r] eqn:He. pose proof He as He'. rewrite on_result_eq in He.
  exists (MkSystem d [] [inr dual] [] [] [] (sy_bridge s) (sy_running s) [] [] [] (sy_observer s)).
  split_and!; [simpl; by rewrite Hv|unfold narrow; simpl; lia|].
  exists (around s d' (jobs_of ms) (outputs_of ms)). simpl. unfold run_detector. simpl. rewrite He'.
  destruct (stale d); [injection He as <- <- <-; split_and!; [done|unfold narrow; simpl; lia|done]|].
  repeat case_decide; [..|destruct (shows_progress d dual)]; injection He as <- <- <-;
    (split_and!; [done|unfold narrow; simpl; lia|done]).
Qed.

(** A fresh validation is emitted. *)
Lemma fresh_emits prepare s d : stale d = false → offers prepare (latest_slot d) →
  ∃ d' dual, sys_path narrow [Validate prepare; DetectorResult] (around s d [current_job d] []) (around s d' [] [dual]) ∧
    prepare (slot d) (store_hash d) (queue_cursor d) true = Ok (current_window dual).
Proof.
  intros Hst Ho. destruct (offers_dual prepare _ (current_job d) Ho) as (dual & Hv & Hp & Hin & Hlt & Hn).
  pose proof (round_around prepare s d _ _ Hv) as Hr. rewrite on_result_eq, Hst in Hr. simpl in Hin.
  rewrite decide_False in Hr by tauto. rewrite decide_False in Hr by lia.
  assert (shows_progress d dual = true) as Hs.
  { unfold shows_progress. rewrite bool_decide_true by done. destruct (next_window dual) as [w|]; [|done].
    by rewrite bool_decide_true by auto. }
  rewrite Hs in Hr. by exists (set_latest_slot (expected_output_slot (current_window dual)) (set_in_flight false d)), dual.
Qed.
(** A validation in flight, stale or not, ends in an emission. *)
Lemma flight_emits prepare s d job : (stale d = false → job = current_job d) → offers prepare (latest_slot d) →
  ∃ acts d' dual, sys_path narrow acts (around s d [job] []) (around s d' [] [dual]) ∧
    prepare (slot d) (store_hash d) (queue_cursor d) true = Ok (current_window dual).
Proof.
  intros Hj Ho. destruct (stale d) eqn:Hst.
  - destruct (offers_dual prepare _ job Ho) as (dual & Hv & _). pose proof (round_around prepare s d _ _ Hv) as Hr.
    rewrite on_result_eq, Hst in Hr.
    destruct (fresh_emits prepare s (set_in_flight true (set_stale false d)) eq_refl Ho) as (d' & dual' & He & Hp).
    exists ([Validate prepare; DetectorResult] ++ [Validate prepare; DetectorResult]), d', dual'.
    split; [|done]. eapply sys_path_app; [exact Hr|exact He].
  - rewrite Hj by done. destruct (fresh_emits prepare s d Hst Ho) as (d' & dual & He & Hp). by do 3 eexists.
Qed.

Lemma drained_emits prepare n s : live n s → weight s = 0%nat → offers prepare (latest_slot (sy_detector s)) →
  let d := sy_detector s in
  ∃ acts d' dual, sys_path narrow acts s (around s d' [] [dual]) ∧
    prepare (slot d) (store_hash d) (queue_cursor d) true = Ok (current_window dual).
Proof.
  intros [_ _ (ds & (Hd & Hj & Hr) & Hds)] (Hres & Hfin & Hst & Ha & He & Hc & Hjr)%weight_zero Ho d.
  assert (s = around s d (sy_validation_jobs s) []) as Hs
    by (destruct s; unfold around, d; simpl in *; congruence).
  rewrite Hres in Hr. symmetry in Hr. apply fmap_nil_inv in Hr. pose proof (inv_flight _ Hds) as Hf.
  rewrite Hr, <-Hd, <-Hj in Hf. fold d in Hf. simpl in Hf. destruct (in_flight d) eqn:Hif.
  - destruct (sy_validation_jobs s) as [|job [|]] eqn:Hjobs; [simpl in Hf; lia| |simpl in Hf; lia].
    destruct (flight_emits prepare s d job) as (acts & d' & dual & Hem & Hp); [|done|].
    { intros Hstale. unfold d. rewrite Hd. apply (inv_fresh _ Hds); [by rewrite <-Hd|]. rewrite <-Hj. set_solver. }
    exists acts, d', dual. split; [|done]. by rewrite Hs at 1.
  - destruct (sy_validation_jobs s) as [|job js]; [|simpl in Hf; lia].
    destruct (flight_emits prepare s (set_in_flight true d) (current_job d)) as (acts & d' & dual & Hem & Hp); [by destruct d|done|].
    exists ([DetectorTick] ++ acts), d', dual. split; [|done]. rewrite Hs at 1.
    eapply sys_path_app; [by apply tick_around|done].
Qed.

(** An emission, with the request for a proof at the observer, is staged. *)
Lemma emission_staged now s d dual : bh_finality_stage_input_tx (sy_bridge s) = true →
  sy_running s = [] → ob_stage_transition_proof (sy_observer s) = true →
  ∃ s', sys_path narrow [BridgeFinality; ObserverEvent; BridgeCommand now] (around s d [] [dual]) s' ∧
    snd <$> sy_running s' = [proof_inputs (current_window dual)].
Proof.
  intros Htx Hr Hf. destruct s as [det vj vr fin st ad b run jr ev cmds o]. simpl in *. subst.
  destruct o as [? ? ? ? f ? ?]. simpl in Hf. subst. destruct b. simpl in Htx. subst.
  eexists. split; [do 3 (eexists; split; [reflexivity|split; [unfold narrow; cbn; lia|]]); reflexivity|done].
Qed.
End Progress.
