(* ===== verification/Channels.v ===== *)
(** * The bounded channels between the actors

    System has unbounded queues.  Here every channel has the capacity that the
    source creates it with, and a send waits until there is room: what an actor
    has sent and what has not fitted yet is its outbox, and an actor whose
    outbox is not empty does nothing else.  Runs with bounded channels are runs
    of System (an outbox is the end of its queue), so that its theorems hold for
    them; and the ways in which senders can wait for each other are bounded. *)
From S2P Require Import Prelude Externals StorageLayout Types Detector Notice BridgeHead Observer System.

Section Channels.
  Context `{HeliosTypes} `{HostRuntime}.

(** The messages in the channels, and those that wait for room; the results of
    prover tasks wait in the order in which the tasks ended. *)
Record Bounded := MkBounded {
  channels : System;
  detector_outbox : list DetectorMessage;
  validator_outbox : list (anyhow + DualProofInputsWithWindow);
  bridge_outbox : list BridgeMessage;
  observer_outbox : list ObserverMessage;
  prover_outbox : list (ProverJobOutput + ProverJobError)
}.

(** ** Capacities *)

(** [validate_and_prepare_proof_inputs_actor]: jobs and results;
    [start_validated_consensus_finality_change_detector]: output, advance and stage;
    [BridgeHead::new]: commands, job results and events. *)
Definition JOBS_CAPACITY : nat := 1.
Definition RESULTS_CAPACITY : nat := 1.
Definition FINALITY_CAPACITY : nat := 1.
Definition ADVANCES_CAPACITY : nat := 1.
Definition STAGES_CAPACITY : nat := 1.
Definition COMMANDS_CAPACITY : nat := 2.
Definition JOB_RESULTS_CAPACITY : nat := 2.
Definition EVENTS_CAPACITY : nat := 16.

Definition has_room {A} (capacity : nat) (queue : list A) : bool := bool_decide (length queue < capacity)%nat.
Definition detector_room (s : System) (m : DetectorMessage) : bool :=
  match m with
  | ValidationJob _ => has_room JOBS_CAPACITY (sy_validation_jobs s)
  | FinalityOutput _ => has_room FINALITY_CAPACITY (sy_finality s)
  end.
(** Spawning a prover task does not wait. *)
Definition bridge_room (s : System) (m : BridgeMessage) : bool :=
  match m with
  | Event _ => has_room EVENTS_CAPACITY (sy_events s)
  | StageUpdate _ => has_room STAGES_CAPACITY (sy_stages s)
  | AdvanceUpdate _ => has_room ADVANCES_CAPACITY (sy_advances s)
  | SpawnJob _ _ _ => true
  end.
(** Neither does writing a file. *)
Definition observer_room (s : System) (m : ObserverMessage) : bool :=
  match m with SendCommand _ => has_room COMMANDS_CAPACITY (sy_commands s) | _ => true end.

(** Messages that arrive in the channels of the validation actor and the prover tasks. *)
Definition with_results (rs : list (anyhow + DualProofInputsWithWindow)) (s : System) : System :=
  pop_results (sy_validation_results s ++ rs) s.
Definition with_job_results (rs : list (ProverJobOutput + ProverJobError)) (s : System) : System :=
  pop_job_results (sy_job_results s ++ rs) s.

(** ** Steps *)

(** An actor that has nothing to send takes a message and runs its handler. *)
Definition act_detector (m : eff Detector DetectorMessage () ()) (s : System) (b : Bounded) : option Bounded :=
  match detector_outbox b, m (sy_detector s) with
  | [], (d, ms, Ok _) =>
    Some (MkBounded (with_detector d [] s) ms (validator_outbox b) (bridge_outbox b) (observer_outbox b) (prover_outbox b))
  | _, _ => None
  end.
Definition act_bridge (m : eff BridgeHead BridgeMessage anyhow ()) (s : System) (b : Bounded) : option Bounded :=
  match bridge_outbox b, m (sy_bridge s) with
  | [], (h, ms, Ok _) =>
    Some (MkBounded (with_bridge h [] s) (detector_outbox b) (validator_outbox b) ms (observer_outbox b) (prover_outbox b))
  | _, _ => None
  end.
Definition act_observer (m : eff ExampleBridgeHeadEventObserver ObserverMessage string ()) (s : System) (b : Bounded) : option Bounded :=
  match observer_outbox b, m (sy_observer s) with
  | [], (o, ms, Ok _) =>
    Some (MkBounded (with_observer o [] s) (detector_outbox b) (validator_outbox b) (bridge_outbox b) ms (prover_outbox b))
  | _, _ => None
  end.
Definition end_job (i : nat) (r : u64 → u64 → ProverJobOutput + ProverJobError) (b : Bounded) : option Bounded :=
  let s := channels b in
  '(id, input_head, _) ← sy_running s !! i;
  Some (MkBounded (MkSystem (sy_detector s) (sy_validation_jobs s) (sy_validation_results s) (sy_finality s) (sy_stages s)
    (sy_advances s) (sy_bridge s) (delete i (sy_running s)) (sy_job_results s) (sy_events s) (sy_commands s) (sy_observer s))
    (detector_outbox b) (validator_outbox b) (bridge_outbox b) (observer_outbox b) (prover_outbox b ++ [r id input_head])).

Definition act (b : Bounded) (a : action) : option Bounded :=
  let all {A : Type} := λ _ : A, true in
  let bridge now input := bridge_step all "" now (λ _, inl ()) input in
  let s := channels b in
  match a with
  | DetectorTick => act_detector (on_tick all) s b
  | DetectorStage =>
    match sy_stages s with u :: us => act_detector (on_stage (Some u)) (pop_stages us s) b | [] => None end
  | DetectorAdvance =>
    match sy_advances s with u :: us => act_detector (on_advance (Some u)) (pop_advances us s) b | [] => None end
  | DetectorResult =>
    match sy_validation_results s with r :: rs => act_detector (on_result all (Some r)) (pop_results rs s) b | [] => None end
  | Validate prepare =>
    match validator_outbox b, sy_validation_jobs s with
    | [], job :: jobs =>
      r ← match validate_job prepare job with
          | Ok dual => Some (inr dual) | Err e => Some (inl e) | Panic => None
          end;
      Some (MkBounded (MkSystem (sy_detector s) jobs (sy_validation_results s) (sy_finality s) (sy_stages s)
              (sy_advances s) (sy_bridge s) (sy_running s) (sy_job_results s) (sy_events s) (sy_commands s) (sy_observer s))
              (detector_outbox b) [r] (bridge_outbox b) (observer_outbox b) (prover_outbox b))
    | _, _ => None
    end
  | BridgeFinality =>
    match sy_finality s with
    | f :: fs => act_bridge (on_beacon_finality_change all "" f) (pop_finality fs s) b
    | [] => None
    end
  | BridgeCommand now =>
    match sy_commands s with
    | c :: cs => act_bridge (bridge now (CommandInput (Some c))) (pop_commands cs s) b
    | [] => None
    end
  | BridgeJobResult now =>
    match sy_job_results s with
    | r :: rs => act_bridge (bridge now (JobInput (Some r))) (pop_job_results rs s) b
    | [] => None
    end
  | ProverDone i proof => end_job i (λ id input_head, inl (MkProverJobOutput id input_head proof)) b
  | ProverFailed i error => end_job i (λ id _, inr (MkProverJobError id error)) b
  | ObserverEvent =>
    match sy_events s with
    | e :: es => act_observer (observer_step all (Some e)) (pop_events es s) b
    | [] => None
    end
  end.

(** A send that finds room. *)
Inductive sender := FromDetector | FromValidator | FromBridge | FromObserver | FromProver.
Definition flush (b : Bounded) (w : sender) : option Bounded :=
  let s := channels b in
  match w with
  | FromDetector =>
    match detector_outbox b with
    | m :: ms => if detector_room s m
      then Some (MkBounded (with_detector (sy_detector s) [m] s) ms (validator_outbox b) (bridge_outbox b) (observer_outbox b) (prover_outbox b))
      else None
    | [] => None
    end
  | FromValidator =>
    match validator_outbox b with
    | r :: rs => if has_room RESULTS_CAPACITY (sy_validation_results s)
      then Some (MkBounded (with_results [r] s) (detector_outbox b) rs (bridge_outbox b) (observer_outbox b) (prover_outbox b))
      else None
    | [] => None
    end
  | FromBridge =>
    match bridge_outbox b with
    | m :: ms => if bridge_room s m
      then Some (MkBounded (with_bridge (sy_bridge s) [m] s) (detector_outbox b) (validator_outbox b) ms (observer_outbox b) (prover_outbox b))
      else None
    | [] => None
    end
  | FromObserver =>
    match observer_outbox b with
    | m :: ms => if observer_room s m
      then Some (MkBounded (with_observer (sy_observer s) [m] s) (detector_outbox b) (validator_outbox b) (bridge_outbox b) ms (prover_outbox b))
      else None
    | [] => None
    end
  | FromProver =>
    match prover_outbox b with
    | r :: rs => if has_room JOB_RESULTS_CAPACITY (sy_job_results s)
      then Some (MkBounded (with_job_results [r] s) (detector_outbox b) (validator_outbox b) (bridge_outbox b) (observer_outbox b) rs)
      else None
    | [] => None
    end
  end.

Inductive bounded_action := Act (a : action) | Flush (w : sender).
Definition bounded_exec (b : Bounded) (a : bounded_action) : option Bounded :=
  match a with Act a => act b a | Flush w => flush b w end.

(** The bridge head has sent its first notice when the loops start. *)
Definition bounded_start (slot : u64) (store_hash : B256) (queue_cursor latest : u64)
    (inflight : option FinalityChangeDetectorUpdate) : Bounded :=
  MkBounded (sys_start slot store_hash queue_cursor latest inflight) [] [] [] [] [].

Definition bounded_schedule (acts : list bounded_action) (b : Bounded) : option Bounded :=
  foldl (λ o a, o ≫= λ b, bounded_exec b a) (Some b) acts.
(** ** The state of System that a bounded state stands for *)
Definition abs (b : Bounded) : System :=
  let s := channels b in
  MkSystem (sy_detector s)
    (sy_validation_jobs s ++ omap (λ m, match m with ValidationJob j => Some j | _ => None end) (detector_outbox b))
    (sy_validation_results s ++ validator_outbox b)
    (sy_finality s ++ omap (λ m, match m with FinalityOutput o => Some o | _ => None end) (detector_outbox b))
    (sy_stages s ++ omap (λ m, match m with StageUpdate u => Some u | _ => None end) (bridge_outbox b))
    (sy_advances s ++ omap (λ m, match m with AdvanceUpdate u => Some u | _ => None end) (bridge_outbox b))
    (sy_bridge s)
    (sy_running s ++ omap (λ m, match m with SpawnJob id slot inputs => Some (id, slot, inputs) | _ => None end) (bridge_outbox b))
    (sy_job_results s ++ prover_outbox b)
    (sy_events s ++ omap (λ m, match m with Event e => Some e | _ => None end) (bridge_outbox b))
    (sy_commands s ++ omap (λ m, match m with SendCommand c => Some c | _ => None end) (observer_outbox b))
    (sy_observer s).

Lemma flush_abs b w b' : flush b w = Some b' → abs b' = abs b.
Proof.
  destruct b as [s dout vout bout oout pout], w; simpl; intros Hf.
  - destruct dout as [|m ms]; [done|]. destruct (detector_room s m); [|done]. injection Hf as <-.
    destruct m; unfold abs, with_detector; simpl; by rewrite <-?app_assoc, ?app_nil_r.
  - destruct vout as [|m ms]; [done|]. destruct (has_room _ _); [|done]. injection Hf as <-.
    unfold abs; simpl; by rewrite <-?app_assoc.
  - destruct bout as [|m ms]; [done|]. destruct (bridge_room s m); [|done]. injection Hf as <-.
    destruct m; unfold abs, with_bridge; simpl; by rewrite <-?app_assoc, ?app_nil_r.
  - destruct oout as [|m ms]; [done|]. destruct (observer_room s m); [|done]. injection Hf as <-.
    destruct m; unfold abs, with_observer; simpl; by rewrite <-?app_assoc, ?app_nil_r.
  - destruct pout as [|m ms]; [done|]. destruct (has_room _ _); [|done]. injection Hf as <-.
    unfold abs; simpl; by rewrite <-?app_assoc.
Qed.

(** The bounded state with other channels, and an actor's run in it. *)
Definition in_channels (s : System) (b : Bounded) : Bounded :=
  MkBounded s (detector_outbox b) (validator_outbox b) (bridge_outbox b) (observer_outbox b) (prover_outbox b).
Lemma act_detector_abs m s b b' : act_detector m s b = Some b' → run_detector m (abs (in_channels s b)) = Some (abs b').
Proof.
  unfold act_detector, run_detector. destruct (detector_outbox b) eqn:Hb; [|done].
  change (sy_detector (abs (in_channels s b))) with (sy_detector s).
  destruct (m (sy_detector s)) as [[d ms] [[]| |]]; intros [= <-].
  unfold abs, with_detector, in_channels. simpl. rewrite Hb. simpl. by rewrite !app_nil_r.
Qed.
Lemma act_bridge_abs m s b b' : act_bridge m s b = Some b' → run_bridge m (abs (in_channels s b)) = Some (abs b').
Proof.
  unfold act_bridge, run_bridge. destruct (bridge_outbox b) eqn:Hb; [|done].
  change (sy_bridge (abs (in_channels s b))) with (sy_bridge s).
  destruct (m (sy_bridge s)) as [[d ms] [[]| |]]; intros [= <-].
  unfold abs, with_bridge, in_channels. simpl. rewrite Hb. simpl. by rewrite !app_nil_r.
Qed.
Lemma act_observer_abs m s b b' : act_observer m s b = Some b' → run_observer m (abs (in_channels s b)) = Some (abs b').
Proof.
  unfold act_observer, run_observer. destruct (observer_outbox b) eqn:Hb; [|done].
  change (sy_observer (abs (in_channels s b))) with (sy_observer s).
  destruct (m (sy_observer s)) as [[d ms] [[]| |]]; intros [= <-].
  unfold abs, with_observer, in_channels. simpl. rewrite Hb. simpl. by rewrite !app_nil_r.
Qed.
Lemma end_job_abs i r b b' : end_job i r b = Some b' →
  ∃ id head inputs, sy_running (abs b) !! i = Some (id, head, inputs) ∧
    MkSystem (sy_detector (abs b)) (sy_validation_jobs (abs b)) (sy_validation_results (abs b)) (sy_finality (abs b))
      (sy_stages (abs b)) (sy_advances (abs b)) (sy_bridge (abs b)) (delete i (sy_running (abs b)))
      (sy_job_results (abs b) ++ [r id head]) (sy_events (abs b)) (sy_commands (abs b)) (sy_observer (abs b)) = abs b'.
Proof.
  unfold end_job. destruct (sy_running (channels b) !! i) as [[[id head] inputs]|] eqn:Hi; [|done].
  intros [= <-]. exists id, head, inputs. simpl. split; [by apply lookup_app_l_Some|].
  unfold abs. simpl. rewrite <-app_assoc, !delete_take_drop, take_app_le, drop_app_le, app_assoc; [done|..];
    apply lookup_lt_Some in Hi; lia.
Qed.

Lemma act_abs b a b' : act b a = Some b' → sys_exec (abs b) a = Some (abs b').
Proof.
  destruct a as [| | | |prepare| |now|now|i proof|i error|]; unfold act; intros Ha.
  - exact (act_detector_abs _ _ b _ Ha).
  - destruct (sy_stages (channels b)) as [|u us] eqn:Hq; [done|]. apply act_detector_abs in Ha.
    unfold sys_exec. unfold abs at 1. cbn [sy_stages]. rewrite Hq. exact Ha.
  - destruct (sy_advances (channels b)) as [|u us] eqn:Hq; [done|]. apply act_detector_abs in Ha.
    unfold sys_exec. unfold abs at 1. cbn [sy_advances]. rewrite Hq. exact Ha.
  - destruct (sy_validation_results (channels b)) as [|u us] eqn:Hq; [done|]. apply act_detector_abs in Ha.
    unfold sys_exec. unfold abs at 1. cbn [sy_validation_results]. rewrite Hq. exact Ha.
  - destruct (validator_outbox b) eqn:Hv; [|done].
    destruct (sy_validation_jobs (channels b)) as [|job jobs] eqn:Hq; [done|].
    unfold sys_exec. unfold abs at 1. cbn [sy_validation_jobs]. rewrite Hq. simpl.
    destruct (validate_job prepare job); simpl in *; [injection Ha as <-..|done];
      unfold abs; simpl; by rewrite Hv, app_nil_r.
  - destruct (sy_finality (channels b)) as [|u us] eqn:Hq; [done|]. apply act_bridge_abs in Ha.
    unfold sys_exec. unfold abs at 1. cbn [sy_finality]. rewrite Hq. exact Ha.
  - destruct (sy_commands (channels b)) as [|u us] eqn:Hq; [done|]. apply act_bridge_abs in Ha.
    unfold sys_exec. unfold abs at 1. cbn [sy_commands]. rewrite Hq. exact Ha.
  - destruct (sy_job_results (channels b)) as [|u us] eqn:Hq; [done|]. apply act_bridge_abs in Ha.
    unfold sys_exec. unfold abs at 1. cbn [sy_job_results]. rewrite Hq. exact Ha.
  - apply end_job_abs in Ha as (id & head & inputs & Hi & <-). unfold sys_exec. by rewrite Hi.
  - apply end_job_abs in Ha as (id & head & inputs & Hi & <-). unfold sys_exec. by rewrite Hi.
  - destruct (sy_events (channels b)) as [|u us] eqn:Hq; [done|]. apply act_observer_abs in Ha.
    unfold sys_exec. unfold abs at 1. cbn [sy_events]. rewrite Hq. exact Ha.
Qed.

(** A run of [n] steps in an environment. *)
Inductive bounded_run (env : System → action → Prop) (start : Bounded) : nat → Bounded → Prop :=
| bounded_here : bounded_run env start 0 start
| bounded_act n b a b' : bounded_run env start n b → env (abs b) a → act b a = Some b' → bounded_run env start (S n) b'
| bounded_flush n b w b' : bounded_run env start n b → flush b w = Some b' → bounded_run env start (S n) b'.
End Channels.
