(* ===== verification/ChannelsSpec.v ===== *)
(** * Bounded channels refine the unbounded ones, and when senders wait

    Every theorem on the runs of System holds for the bounded channels of the
    source; of the five senders only two can wait for ever, and only for each other. *)
From S2P Require Import Prelude Externals StorageLayout Types Detector DetectorSpec Notice BridgeHead BridgeHeadSpec Observer System SystemSpec SystemWindows SystemProgress Channels.

Section Refinement.
Context `{HeliosTypes} `{HostRuntime}.

Lemma abs_start slot h c latest inflight : abs (bounded_start slot h c latest inflight) = sys_start slot h c latest inflight.
Proof. done. Qed.

Lemma bounded_run_refines env slot h c latest inflight n b :
  bounded_run env (bounded_start slot h c latest inflight) n b →
  ∃ m, (m ≤ n)%nat ∧ run_under env (sys_start slot h c latest inflight) m (abs b).
Proof.
  induction 1 as [|n b a b' _ (m & Hm & IH) Henv Hact|n b w b' _ (m & Hm & IH) Hf].
  - exists 0%nat. split; [done|]. rewrite abs_start. constructor.
  - exists (S m). split; [lia|]. apply act_abs in Hact. by econstructor.
  - exists m. split; [lia|]. by rewrite (flush_abs _ _ _ Hf).
Qed.

(** ** A channel is never fuller than its capacity *)
Record within (s : System) : Prop := {
  in_jobs : (length (sy_validation_jobs s) ≤ JOBS_CAPACITY)%nat;
  in_results : (length (sy_validation_results s) ≤ RESULTS_CAPACITY)%nat;
  in_finality : (length (sy_finality s) ≤ FINALITY_CAPACITY)%nat;
  in_stages : (length (sy_stages s) ≤ STAGES_CAPACITY)%nat;
  in_advances : (length (sy_advances s) ≤ ADVANCES_CAPACITY)%nat;
  in_commands : (length (sy_commands s) ≤ COMMANDS_CAPACITY)%nat;
  in_job_results : (length (sy_job_results s) ≤ JOB_RESULTS_CAPACITY)%nat;
  in_events : (length (sy_events s) ≤ EVENTS_CAPACITY)%nat
}.

Lemma has_room_lt {A} capacity (queue : list A) : has_room capacity queue = true ↔ (length queue < capacity)%nat.
Proof. apply bool_decide_eq_true. Qed.
Lemma within_handler s b b' : within s →
  ((∃ m, act_detector m s b = Some b') ∨ (∃ m, act_bridge m s b = Some b') ∨ (∃ m, act_observer m s b = Some b')) →
  within (channels b').
Proof.
  intros [] [[m Ha]|[[m Ha]|[m Ha]]]; unfold act_detector, act_bridge, act_observer in Ha.
  - destruct (detector_outbox b); [|done]. destruct (m (sy_detector s)) as [[? ?] [[]| |]]; [|done..].
    injection Ha as <-. split; simpl; by rewrite ?app_nil_r.
  - destruct (bridge_outbox b); [|done]. destruct (m (sy_bridge s)) as [[? ?] [[]| |]]; [|done..].
    injection Ha as <-. split; simpl; by rewrite ?app_nil_r.
  - destruct (observer_outbox b); [|done]. destruct (m (sy_observer s)) as [[? ?] [[]| |]]; [|done..].
    injection Ha as <-. split; simpl; by rewrite ?app_nil_r.
Qed.
(** Taking a message, or ending a job, leaves no channel fuller. *)
Lemma within_fewer s s' : within s →
  (length (sy_validation_jobs s') ≤ length (sy_validation_jobs s))%nat →
  (length (sy_validation_results s') ≤ length (sy_validation_results s))%nat →
  (length (sy_finality s') ≤ length (sy_finality s))%nat → (length (sy_stages s') ≤ length (sy_stages s))%nat →
  (length (sy_advances s') ≤ length (sy_advances s))%nat → (length (sy_commands s') ≤ length (sy_commands s))%nat →
  (length (sy_job_results s') ≤ length (sy_job_results s))%nat → (length (sy_events s') ≤ length (sy_events s))%nat →
  within s'.
Proof. intros []. split; lia. Qed.

Lemma within_act b a b' : within (channels b) → act b a = Some b' → within (channels b').
Proof.
  intros Hw Ha. unfold act in Ha.
  destruct a as [| | | |prepare| |now|now|i proof|i error|];
    try match type of Ha with (match ?q with [] => None | _ => _ end) = _ => destruct q as [|u us] eqn:Hq; [done|] end.
  - eapply within_handler; [exact Hw|eauto].
  - eapply within_handler; [|eauto]. apply (within_fewer _ _ Hw); simpl; rewrite ?Hq; simpl; lia.
  - eapply within_handler; [|eauto]. apply (within_fewer _ _ Hw); simpl; rewrite ?Hq; simpl; lia.
  - eapply within_handler; [|eauto]. apply (within_fewer _ _ Hw); simpl; rewrite ?Hq; simpl; lia.
  - destruct (validator_outbox b); [|done]. destruct (sy_validation_jobs (channels b)) as [|job jobs] eqn:Hq; [done|].
    destruct (validate_job prepare job); simpl in Ha; [injection Ha as <-..|done];
      apply (within_fewer _ _ Hw); simpl; rewrite ?Hq; simpl; lia.
  - eapply within_handler; [|eauto]. apply (within_fewer _ _ Hw); simpl; rewrite ?Hq; simpl; lia.
  - eapply within_handler; [|eauto]. apply (within_fewer _ _ Hw); simpl; rewrite ?Hq; simpl; lia.
  - eapply within_handler; [|eauto]. apply (within_fewer _ _ Hw); simpl; rewrite ?Hq; simpl; lia.
  - unfold end_job in Ha. destruct (sy_running _ !! i) as [[[]]|]; [|done]. injection Ha as <-. by apply (within_fewer _ _ Hw).
  - unfold end_job in Ha. destruct (sy_running _ !! i) as [[[]]|]; [|done]. injection Ha as <-. by apply (within_fewer _ _ Hw).
  - eapply within_handler; [|eauto]. apply (within_fewer _ _ Hw); simpl; rewrite ?Hq; simpl; lia.
Qed.
Lemma within_flush b w b' : within (channels b) → flush b w = Some b' → within (channels b').
Proof.
  intros [] Hf. destruct w; simpl in Hf;
    match type of Hf with (match ?q with [] => _ | _ => _ end) = _ => destruct q as [|m ms]; [done|] end;
    try destruct m; simpl in Hf;
    repeat match type of Hf with context [if has_room ?c ?q then _ else _] =>
      let Hr := fresh in destruct (has_room c q) eqn:Hr; [apply has_room_lt in Hr|done] end;
    injection Hf as <-; split; simpl; rewrite ?app_nil_r, ?length_app; simpl; lia || done.
Qed.

Lemma within_start slot h c latest inflight : within (sys_start slot h c latest inflight).
Proof.
  split; simpl; unfold JOBS_CAPACITY, RESULTS_CAPACITY, FINALITY_CAPACITY, STAGES_CAPACITY, ADVANCES_CAPACITY,
    COMMANDS_CAPACITY, JOB_RESULTS_CAPACITY, EVENTS_CAPACITY; lia.
Qed.

(** No channel ever holds more than its capacity. *)
Lemma within_run env slot h c latest inflight n b :
  bounded_run env (bounded_start slot h c latest inflight) n b → within (channels b).
Proof. induction 1; [apply within_start|by eapply within_act|by eapply within_flush]. Qed.
End Refinement.

Section Waiting.
Context `{HeliosTypes} `{HostRuntime}.

(** A sender waits: it has something to send, and its channel is full. *)
Definition outbox_empty (b : Bounded) (w : sender) : Prop :=
  match w with
  | FromDetector => detector_outbox b = [] | FromValidator => validator_outbox b = []
  | FromBridge => bridge_outbox b = [] | FromObserver => observer_outbox b = [] | FromProver => prover_outbox b = []
  end.
Definition waits (b : Bounded) (w : sender) : Prop := ¬ outbox_empty b w ∧ flush b w = None.

(** Something can go on: a send that finds room, or the delivery of a message. *)
Definition moves (b : Bounded) : Prop :=
  (∃ w b', flush b w = Some b') ∨ (∃ a b', delivers a = true ∧ act b a = Some b').

(** The detector waits to emit while the bridge head waits to tell it of a stage or an advance. *)
Definition embrace (b : Bounded) : Prop :=
  (∃ o ms, detector_outbox b = FinalityOutput o :: ms) ∧ sy_finality (channels b) ≠ [] ∧
  ((∃ u ms, bridge_outbox b = StageUpdate u :: ms ∧ sy_stages (channels b) ≠ []) ∨
   (∃ u ms, bridge_outbox b = AdvanceUpdate u :: ms ∧ sy_advances (channels b) ≠ [])).

Lemma waits_full b w : waits b w →
  match w with
  | FromDetector => (∃ j ms, detector_outbox b = ValidationJob j :: ms ∧ sy_validation_jobs (channels b) ≠ []) ∨
      (∃ o ms, detector_outbox b = FinalityOutput o :: ms ∧ sy_finality (channels b) ≠ [])
  | FromValidator => ∃ r rs, validator_outbox b = r :: rs ∧ sy_validation_results (channels b) ≠ []
  | FromBridge => (∃ e ms, bridge_outbox b = Event e :: ms ∧ sy_events (channels b) ≠ []) ∨
      (∃ u ms, bridge_outbox b = StageUpdate u :: ms ∧ sy_stages (channels b) ≠ []) ∨
      (∃ u ms, bridge_outbox b = AdvanceUpdate u :: ms ∧ sy_advances (channels b) ≠ [])
  | FromObserver => ∃ c ms, observer_outbox b = SendCommand c :: ms ∧ (2 ≤ length (sy_commands (channels b)))%nat
  | FromProver => ∃ r rs, prover_outbox b = r :: rs ∧ (2 ≤ length (sy_job_results (channels b)))%nat
  end.
Proof.
  intros [Hne Hf].
  assert (∀ {A} (q : list A) n, has_room (S n) q = false → q ≠ []) as Hfull.
  { intros A q n Hr ->. done. }
  assert (∀ {A} (q : list A), has_room 2 q = false → (2 ≤ length q)%nat) as Hfull2.
  { intros A q Hr%bool_decide_eq_false. lia. }
  destruct w; simpl in Hne, Hf.
  - destruct (detector_outbox b) as [|[j|o] ms]; [done| |]; simpl in Hf;
      destruct (has_room _ _) eqn:Hr; try done; apply Hfull in Hr; eauto.
  - destruct (validator_outbox b) as [|r rs]; [done|]. destruct (has_room _ _) eqn:Hr; [done|]. apply Hfull in Hr. eauto.
  - destruct (bridge_outbox b) as [|[e|? ? ?|u|u] ms]; try done; simpl in Hf;
      destruct (has_room _ _) eqn:Hr; try done; apply Hfull in Hr; eauto 6.
  - destruct (observer_outbox b) as [|[?|?|?|?|c] ms]; try done; simpl in Hf.
    destruct (has_room _ _) eqn:Hr; try done. apply Hfull2 in Hr. eauto.
  - destruct (prover_outbox b) as [|r rs]; [done|]. destruct (has_room _ _) eqn:Hr; [done|]. apply Hfull2 in Hr. eauto.
Qed.

(** In a live state the results of validations and proofs, and the commands, always find room. *)
Lemma live_room b n : live n (abs b) →
  ¬ waits b FromValidator ∧ ¬ waits b FromObserver ∧ ¬ waits b FromProver ∧
  (waits b FromDetector → ∃ o ms, detector_outbox b = FinalityOutput o :: ms ∧ sy_finality (channels b) ≠ []).
Proof.
  intros [Hi _ (ds & (Hd & Hj & Hr) & Hds)].
  pose proof (inv_flight _ Hds) as Hone. rewrite <-Hd, <-Hj in Hone.
  assert (length (ds_results ds) = length (sy_validation_results (abs b))) as Hlr by by rewrite Hr, length_fmap.
  assert (length (sy_validation_jobs (abs b)) + length (sy_validation_results (abs b)) ≤ 1)%nat as Hle
    by (rewrite <-Hlr, Hone; destruct (in_flight _); lia).
  clear Hone Hlr. unfold abs in Hle. cbn [sy_validation_jobs sy_validation_results] in Hle. rewrite !length_app in Hle.
  split_and!.
  - intros Hw%waits_full. destruct Hw as (r & rs & Ho & Hq). rewrite Ho in Hle. simpl in Hle.
    destruct (sy_validation_results (channels b)); [done|simpl in Hle; lia].
  - intros Hw%waits_full. destruct Hw as (c & ms & Ho & Hq). pose proof (commands_fit _ _ Hi) as Hc.
    unfold abs in Hc. cbn [sy_commands] in Hc. rewrite Ho, length_app in Hc. simpl in Hc. lia.
  - intros Hw%waits_full. destruct Hw as (r & rs & Ho & Hq). pose proof (one_outstanding _ _ Hi) as Hc.
    unfold abs in Hc. cbn [sy_running sy_job_results] in Hc. rewrite Ho, !length_app in Hc. simpl in Hc. lia.
  - intros Hw%waits_full. destruct Hw as [(j & ms & Ho & Hq)|]; [|done]. rewrite Ho in Hle. simpl in Hle.
    destruct (sy_validation_jobs (channels b)); [done|simpl in Hle; lia].
Qed.

(** With nothing to send, the channels hold everything. *)
Lemma abs_quiet b : (∀ w, outbox_empty b w) → abs b = channels b.
Proof.
  intros Hq. destruct b as [[] dout vout bout oout pout].
  pose proof (Hq FromDetector) as H1. pose proof (Hq FromValidator) as H2. pose proof (Hq FromBridge) as H3.
  pose proof (Hq FromObserver) as H4. pose proof (Hq FromProver) as H5. simpl in *. subst.
  unfold abs. simpl. by rewrite !app_nil_r.
Qed.

Lemma detector_acts m s b s' : detector_outbox b = [] → run_detector m s = Some s' → ∃ b', act_detector m s b = Some b'.
Proof.
  intros Ho. unfold run_detector, act_detector. rewrite Ho.
  destruct (m (sy_detector s)) as [[? ?] [[]| |]]; [|done..]. by eexists.
Qed.
Lemma bridge_acts m s b s' : bridge_outbox b = [] → run_bridge m s = Some s' → ∃ b', act_bridge m s b = Some b'.
Proof.
  intros Ho. unfold run_bridge, act_bridge. rewrite Ho.
  destruct (m (sy_bridge s)) as [[? ?] [[]| |]]; [|done..]. by eexists.
Qed.
Lemma observer_acts m s b s' : observer_outbox b = [] → run_observer m s = Some s' → ∃ b', act_observer m s b = Some b'.
Proof.
  intros Ho. unfold run_observer, act_observer. rewrite Ho.
  destruct (m (sy_observer s)) as [[? ?] [[]| |]]; [|done..]. by eexists.
Qed.
Lemma delivery_acts b a s' : (∀ w, outbox_empty b w) → delivers a = true → sys_exec (channels b) a = Some s' →
  ∃ b', act b a = Some b'.
Proof.
  intros Hq Ha. pose proof (Hq FromDetector) as H1. pose proof (Hq FromBridge) as H2. pose proof (Hq FromObserver) as H3.
  simpl in H1, H2, H3. destruct a as [| | | |prepare| |now|now|i proof|i error|]; try done; unfold sys_exec, act;
    match goal with |- context [match ?q with [] => None | _ => _ end] => destruct q; [done|] end;
    by apply detector_acts || by apply bridge_acts || by apply observer_acts.
Qed.

(** A delivery to an actor with nothing to send, when the outboxes of others may not be empty. *)
Lemma finality_delivered b : bridge_outbox b = [] → sy_finality (channels b) ≠ [] → moves b.
Proof.
  intros Ho Hf. right. exists BridgeFinality. simpl. destruct (sy_finality (channels b)) as [|f fs]; [done|].
  destruct (bridge_acts (on_beacon_finality_change (λ _, true) "" f) (pop_finality fs (channels b)) b
    (with_bridge (set_next_slot (expected_output_slot (current_window f)) (sy_bridge (channels b)))
       (snd (fst (on_beacon_finality_change (λ _, true) "" f (sy_bridge (channels b))))) (pop_finality fs (channels b)))) as [b' Hb'];
    [done| |by exists b'].
  unfold run_bridge. rewrite on_finality_eq. done.
Qed.
Lemma stage_delivered b : detector_outbox b = [] → sy_stages (channels b) ≠ [] → moves b.
Proof.
  intros Ho Hf. right. exists DetectorStage. simpl. destruct (sy_stages (channels b)) as [|u us]; [done|].
  unfold act_detector. rewrite Ho, on_stage_eq. by eexists.
Qed.
Lemma advance_delivered b : detector_outbox b = [] → sy_advances (channels b) ≠ [] → moves b.
Proof.
  intros Ho Hf. right. exists DetectorAdvance. simpl. destruct (sy_advances (channels b)) as [|u us]; [done|].
  unfold act_detector. rewrite Ho, on_advance_eq. by eexists.
Qed.
Lemma event_delivered n b : live n (abs b) → observer_outbox b = [] → sy_events (channels b) ≠ [] → moves b.
Proof.
  intros [Hi _ _] Ho Hf. right. exists ObserverEvent. cbv beta iota zeta delta [act].
  destruct (sy_events (channels b)) as [|e es] eqn:He; [done|]. unfold act_observer. rewrite Ho.
  destruct (observer_handles n (abs b) e (es ++ omap (λ m, match m with Event e => Some e | _ => None end) (bridge_outbox b)) Hi)
    as (o' & ms & Hstep); [unfold abs; cbn [sy_events]; by rewrite He|].
  change (sy_observer (abs b)) with (sy_observer (channels b)) in Hstep.
  change (sy_observer (pop_events es (channels b))) with (sy_observer (channels b)). rewrite Hstep. by eexists.
Qed.

Lemma outbox_empty_dec b w : outbox_empty b w ∨ ¬ outbox_empty b w.
Proof.
  destruct w; simpl; match goal with |- ?q = [] ∨ _ => destruct q; [by left|by right] end.
Qed.
Lemma sends_or_waits b w : outbox_empty b w ∨ moves b ∨ waits b w.
Proof.
  destruct (flush b w) as [b'|] eqn:Hf; [right; left; left; by exists w, b'|].
  destruct (outbox_empty_dec b w); [by left|by right; right].
Qed.

Lemma moves_or_embrace (now : Instant) n b : live n (abs b) → (∃ w, ¬ outbox_empty b w) ∨ weight (abs b) ≠ 0%nat →
  moves b ∨ embrace b.
Proof.
  intros Hl Hpending. destruct (live_room _ _ Hl) as (Hv & Hob & Hp & Hdet).
  destruct (sends_or_waits b FromValidator) as [Ev|[?|]]; [|by left|done].
  destruct (sends_or_waits b FromObserver) as [Eo|[?|]]; [|by left|done].
  destruct (sends_or_waits b FromProver) as [Ep|[?|]]; [|by left|done]. simpl in Ev, Eo, Ep.
  destruct (sends_or_waits b FromBridge) as [Eb|[?|Wb]]; [|by left|].
  - simpl in Eb. destruct (sends_or_waits b FromDetector) as [Ed|[?|Wd]]; [|by left|].
    + simpl in Ed. assert (∀ w, outbox_empty b w) as Hq by by intros [].
      assert (weight (abs b) ≠ 0%nat) as Hz by (destruct Hpending as [[w Hw]|]; [by destruct Hw|done]).
      destruct (delivery_enabled now n (abs b) Hl Hz) as (a & s' & Ha & Hexec). rewrite abs_quiet in Hexec by done.
      destruct (delivery_acts b a s' Hq Ha Hexec) as [b' Hb']. left. right. by exists a, b'.
    + destruct (Hdet Wd) as (o & ms & Ho & Hf). left. by apply finality_delivered.
  - apply waits_full in Wb as [(e & ms & Ho & Hq)|Hsa]; [left; by eapply event_delivered|].
    destruct (sends_or_waits b FromDetector) as [Ed|[?|Wd]]; [|by left|].
    + left. destruct Hsa as [(u & ms & Ho & Hq)|(u & ms & Ho & Hq)]; [by apply stage_delivered|by apply advance_delivered].
    + right. destruct (Hdet Wd) as (o & ms & Ho & Hf). split_and!; eauto.
Qed.

(** The two wait for each other for ever: no step changes what either has to send,
    or takes what its channel is full of. *)
Lemma embrace_stays b a b' : embrace b → bounded_exec b a = Some b' → embrace b'.
Proof.
  intros ((o & ms & Ho) & Hf & Hb) Hexec. unfold embrace.
  assert (∃ m ms', bridge_outbox b = m :: ms') as (m & ms' & Hbo) by (destruct Hb as [(u & ms' & -> & _)|(u & ms' & -> & _)]; by do 2 eexists).
  assert (detector_outbox b' = detector_outbox b ∧ bridge_outbox b' = bridge_outbox b ∧
    sy_finality (channels b') = sy_finality (channels b) ∧ sy_stages (channels b') = sy_stages (channels b) ∧
    sy_advances (channels b') = sy_advances (channels b)) as (-> & -> & -> & -> & ->); [|split_and!; eauto].
  destruct a as [a|w]; simpl in Hexec.
  - destruct a as [| | | |prepare| |now|now|i proof|i error|]; cbv beta iota zeta delta [act] in Hexec;
      unfold act_detector, act_bridge, act_observer, end_job in Hexec; rewrite ?Ho, ?Hbo in Hexec;
      try (destruct (sy_running (channels b) !! i) as [[[id h] inputs]|]; [|done]);
      repeat (case_match; simplify_eq/=; try done); simplify_eq/=; rewrite ?app_nil_r; done.
  - destruct w; simpl in Hexec; rewrite ?Ho, ?Hbo in Hexec; simpl in Hexec.
    + unfold has_room, FINALITY_CAPACITY in Hexec. case_bool_decide as Hr; [|done]. by destruct (sy_finality (channels b)); simpl in Hr; [|lia].
    + destruct (validator_outbox b); [done|]. case_match; [|done]. by simplify_eq/=.
    + destruct Hb as [(u & ms2 & Hu & Hs)|(u & ms2 & Hu & Hs)]; rewrite Hbo in Hu; injection Hu as -> ->; simpl in Hexec;
        unfold has_room, STAGES_CAPACITY, ADVANCES_CAPACITY in Hexec; case_bool_decide as Hr; try done;
        match type of Hr with (length ?q < 1)%nat => destruct q; [done|simpl in Hr; lia] end.
    + destruct (observer_outbox b) as [|x xs]; [done|]. destruct (observer_room (channels b) x); [|done]. simplify_eq/=. by rewrite ?app_nil_r.
    + destruct (prover_outbox b); [done|]. case_match; [|done]. by simplify_eq/=.
Qed.

(** C12: the only possible deadlock: with the channel capacities of the source, in an
    environment whose windows start where they were asked to and whose proofs
    carry public outputs ([lawful]), a sender that finds its channel full is the
    detector with a transition to emit, or the bridge head with a notice, a
    stage or an advance: validation jobs, results of validations and proofs, and
    commands never wait for room.  While anything is still to be sent or
    delivered, some send finds room or some message can be handled, unless the
    detector waits to emit a transition and the bridge head waits, with an
    earlier one unread before it, to tell the detector of a stage or an advance;
    and that state is left by no step. *)
Theorem senders_wait_only_in_a_cycle (now : Instant) slot h c latest inflight n b : Z.of_nat n < 2 ^ 64 →
  bounded_run lawful (bounded_start slot h c latest inflight) n b →
  (∀ w, waits b w → match w with
    | FromDetector => ∃ o ms, detector_outbox b = FinalityOutput o :: ms ∧ sy_finality (channels b) ≠ []
    | FromBridge => (∃ e ms, bridge_outbox b = Event e :: ms ∧ sy_events (channels b) ≠ []) ∨
        (∃ u ms, bridge_outbox b = StageUpdate u :: ms ∧ sy_stages (channels b) ≠ []) ∨
        (∃ u ms, bridge_outbox b = AdvanceUpdate u :: ms ∧ sy_advances (channels b) ≠ [])
    | FromValidator | FromObserver | FromProver => False
    end) ∧
  ((∃ w, ¬ outbox_empty b w) ∨ weight (abs b) ≠ 0%nat → moves b ∨ embrace b) ∧
  (embrace b → ∀ a b', bounded_exec b a = Some b' → embrace b').
Proof.
  intros Hn (m & Hm & Hrun)%bounded_run_refines. assert (live m (abs b)) as Hl by (eapply live_run; [lia|done]).
  split; [|split; [by apply (moves_or_embrace now m)|intros He a b'; by apply embrace_stays]].
  intros w Hw. destruct (live_room _ _ Hl) as (Hv & Hob & Hp & Hd). pose proof (waits_full _ _ Hw) as Hfull. destruct w; auto; done.
Qed.

(** Deciding the two. *)
Definition embraces (b : Bounded) : bool :=
  match detector_outbox b, sy_finality (channels b), bridge_outbox b with
  | FinalityOutput _ :: _, _ :: _, StageUpdate _ :: _ => negb (bool_decide (length (sy_stages (channels b)) = 0%nat))
  | FinalityOutput _ :: _, _ :: _, AdvanceUpdate _ :: _ => negb (bool_decide (length (sy_advances (channels b)) = 0%nat))
  | _, _, _ => false
  end.
Lemma embraces_embrace b : embraces b = true → embrace b.
Proof.
  unfold embraces, embrace. destruct (detector_outbox b) as [|[|o] ms]; try done.
  destruct (sy_finality _); [done|]. destruct (bridge_outbox b) as [|[| |u|u] ms']; try done;
    intros Hn%negb_true_iff%bool_decide_eq_false; split_and!; eauto; [left|right];
    exists u, ms'; (split; [done|]); intros Hq; by rewrite Hq in Hn.
Qed.
Definition inert (b : Bounded) : bool :=
  match detector_outbox b, bridge_outbox b with _ :: _, _ :: _ => true | _, _ => false end &&
  bool_decide (length (sy_validation_jobs (channels b)) + length (sy_running (channels b)) + length (sy_events (channels b)) = 0)%nat &&
  match flush b FromDetector, flush b FromValidator, flush b FromBridge, flush b FromObserver, flush b FromProver with
  | None, None, None, None, None => true | _, _, _, _, _ => false end.
Lemma inert_stuck b : inert b = true → (∀ a, act b a = None) ∧ (∀ w, flush b w = None).
Proof.
  unfold inert. rewrite !andb_true_iff, bool_decide_eq_true. intros [[Ho Hz] Hf].
  destruct (detector_outbox b) as [|m ms] eqn:Hd; [done|]. destruct (bridge_outbox b) as [|m' ms'] eqn:Hb; [done|].
  split.
  - assert (sy_validation_jobs (channels b) = [] ∧ sy_running (channels b) = [] ∧ sy_events (channels b) = []) as (Hj & Hr & He)
      by (split_and!; apply nil_length_inv; lia).
    intros [| | | |prepare| |now|now|i proof|i error|]; cbv beta iota zeta delta [act];
      unfold act_detector, act_bridge, act_observer, end_job; rewrite ?Hd, ?Hb, ?Hj, ?Hr, ?He; try done;
      repeat case_match; done.
  - repeat match type of Hf with (match ?f with Some _ => _ | None => _ end) = _ => destruct f eqn:?; [done|] end. by intros [].
Qed.

(** A schedule of actions that the environment allows in every state is a run. *)
Lemma bounded_schedule_run (env : System → action → Prop) acts start b :
  Forall (λ a, match a with Act a => ∀ s, env s a | Flush _ => True end) acts →
  bounded_schedule acts start = Some b → bounded_run env start (length acts) b.
Proof.
  revert b. induction acts as [|a acts IH] using rev_ind; intros b Hf; [intros [= <-]; constructor|].
  apply list.Forall_app in Hf as [Hf Ha]. apply list.Forall_cons in Ha as [Ha _].
  unfold bounded_schedule. rewrite foldl_app. simpl. destruct (foldl _ _ acts) as [b1|] eqn:H1; [|done].
  rewrite length_app, Nat.add_comm. simpl. intros Hexec. specialize (IH b1 Hf H1).
  destruct a as [a|w]; [by apply (bounded_act _ _ _ b1 a)|by apply (bounded_flush _ _ _ b1 w)].
Qed.
End Waiting.
