(* ===== verification/ChannelsProgress.v ===== *)
(** * Progress with bounded channels

    From every reachable state of the bounded channels, sends and deliveries
    either end in the embrace of ChannelsSpec or leave nothing to send and
    nothing to deliver; in the latter case a proof is being made, or the next
    window that the nodes offer is staged, by steps that find room. *)
From S2P Require Import Prelude Externals StorageLayout Types Detector DetectorSpec Notice BridgeHead BridgeHeadSpec Observer System SystemSpec SystemWindows SystemProgress Channels ChannelsSpec.

Section Progress.
Context `{HeliosTypes} `{HostRuntime}.

(** ** Draining *)

(** A send, or the delivery of a message. *)
Definition drains (a : bounded_action) : bool := match a with Act a => delivers a | Flush _ => true end.

(** What waits to be sent, and a bound on the steps until nothing can be sent or delivered. *)
Definition pending (b : Bounded) : nat :=
  length (detector_outbox b) + length (validator_outbox b) + length (bridge_outbox b)
  + length (observer_outbox b) + length (prover_outbox b).
Definition load (b : Bounded) : nat := 8 * weight (abs b) + pending b.

Lemma flush_pending b w b' : flush b w = Some b' → (pending b' < pending b)%nat.
Proof.
  destruct b as [s dout vout bout oout pout]; destruct w; simpl;
    match goal with |- (match ?q with [] => None | _ => _ end) = _ → _ => destruct q as [|m ms]; [done|] end;
    match goal with |- (if ?c then _ else _) = _ → _ => destruct c; [|done] end;
    intros [= <-]; unfold pending; simpl; lia.
Qed.

(** A delivery makes an actor send at most seven messages. *)
Lemma delivery_pending n b a b' : live n (abs b) → delivers a = true → act b a = Some b' → (pending b' ≤ pending b + 7)%nat.
Proof.
  intros [Hinv _ _] Ha Hact. unfold act in Hact.
  destruct a as [| | | |prepare| |now|now|i proof|i error|]; try done;
    match type of Hact with (match ?q with [] => None | _ => _ end) = _ => destruct q as [|u us] eqn:Hq; [done|] end;
    unfold act_detector, act_bridge, act_observer in Hact.
  - destruct (detector_outbox b); [|done]. rewrite on_stage_eq in Hact. injection Hact as <-. unfold pending. simpl. lia.
  - destruct (detector_outbox b); [|done]. rewrite on_advance_eq in Hact. injection Hact as <-. unfold pending. simpl. lia.
  - destruct (detector_outbox b); [|done]. rewrite on_result_eq in Hact.
    destruct u; [|destruct (stale _); [|repeat case_decide; [..|destruct (shows_progress _ _)]]];
      injection Hact as <-; unfold pending; simpl; lia.
  - destruct (bridge_outbox b); [|done]. rewrite on_finality_eq in Hact. injection Hact as <-. unfold pending. simpl. lia.
  - destruct (bridge_outbox b) eqn:Ho; [|done]. destruct u as [w|m]; simpl in Hact.
    + rewrite stage_eq in Hact by apply Hinv. injection Hact as <-. unfold pending. rewrite Ho. simpl. lia.
    + injection Hact as <-. unfold pending. rewrite Ho. simpl. lia.
  - destruct (bridge_outbox b) eqn:Ho; [|done].
    destruct (result_alone _ _ u (us ++ prover_outbox b) Hinv) as (_ & _ & _ & (job & Hjob) & _);
      [unfold abs; cbn [sy_job_results]; by rewrite Hq|].
    change (sy_bridge (abs b)) with (sy_bridge (channels b)) in Hjob.
    destruct u as [out|err]; simpl in Hact, Hjob.
    + rewrite (success_eq _ _ _ _ job) in Hact by done. destruct (ProofOutputs_from_bytes _); [|done..].
      injection Hact as <-. unfold pending. rewrite Ho. simpl. lia.
    + rewrite (failure_eq _ _ _ job) in Hact by done. injection Hact as <-. unfold pending. rewrite Ho. simpl. lia.
  - destruct (observer_outbox b) eqn:Ho; [|done]. cbn [sy_observer pop_events] in Hact.
    destruct (observer_step _ _ _) as [[o' ms] [[]| |]] eqn:Hstep; [|done..]. injection Hact as <-.
    unfold pending. rewrite Ho. simpl. enough (length ms ≤ 7)%nat by lia.
    assert (∀ m, u = NoticeEvent (JobFailed m) → uint_Z (jf_n_job_in_buffer (extension m)) = 0) as Hz.
    { intros m ->. apply (i_alone _ _ Hinv). unfold abs. cbn [sy_events]. rewrite Hq. left. }
    destruct u as [m|[m|m|m|m|m|m|m]]; rewrite ?observer_proof_eq, ?observer_transition_eq in Hstep.
    all: rewrite ?observer_failed_eq in Hstep by by apply Hz.
    all: destruct (sy_observer (channels b)) as [? ? ? ? f [wc|] [wn|]]; simpl in Hstep.
    all: try (destruct f); repeat case_decide; injection Hstep as <- <-; simpl; lia.
Qed.

Lemma bounded_schedule_cons a acts (b : Bounded) : bounded_schedule (a :: acts) b = bounded_exec b a ≫= bounded_schedule acts.
Proof.
  unfold bounded_schedule. simpl. destruct (bounded_exec b a) as [b'|]; [done|].
  induction acts as [|c acts IH]; [done|]. simpl. exact IH.
Qed.
Lemma bounded_schedule_app acts1 acts2 (b : Bounded) :
  bounded_schedule (acts1 ++ acts2) b = bounded_schedule acts1 b ≫= bounded_schedule acts2.
Proof.
  revert b. induction acts1 as [|a acts1 IH]; intros b; [done|]. simpl. rewrite !bounded_schedule_cons.
  destruct (bounded_exec b a); [apply IH|done].
Qed.

(** Nothing to send and nothing to deliver. *)
Definition quiet (b : Bounded) : Prop := ∀ w, outbox_empty b w.
Definition at_rest (b : Bounded) : Prop := quiet b ∧ weight (channels b) = 0%nat.

Lemma pending_quiet b : pending b = 0%nat → quiet b.
Proof. unfold pending. intros Hp []; apply nil_length_inv; lia. Qed.
Lemma pending_sends b : pending b ≠ 0%nat → ∃ w, ¬ outbox_empty b w.
Proof.
  intros Hp. destruct (detector_outbox b) eqn:H1; [|exists FromDetector; simpl; by rewrite H1].
  destruct (validator_outbox b) eqn:H2; [|exists FromValidator; simpl; by rewrite H2].
  destruct (bridge_outbox b) eqn:H3; [|exists FromBridge; simpl; by rewrite H3].
  destruct (observer_outbox b) eqn:H4; [|exists FromObserver; simpl; by rewrite H4].
  destruct (prover_outbox b) eqn:H5; [|exists FromProver; simpl; by rewrite H5].
  unfold pending in Hp. rewrite H1, H2, H3, H4, H5 in Hp. done.
Qed.

(** A step that sends or delivers lightens the load. *)
Lemma drain_step n b a b' : live n (abs b) → Z.of_nat (n + weight (abs b)) < 2 ^ 64 → drains a = true → bounded_exec b a = Some b' →
  (load b' < load b)%nat ∧ ∃ n', live n' (abs b') ∧ (n' + weight (abs b') ≤ n + weight (abs b))%nat.
Proof.
  intros Hl Hn Ha Hexec. unfold load. destruct a as [a|w]; simpl in Ha, Hexec.
  - pose proof (delivery_pending _ _ _ _ Hl Ha Hexec) as Hp. apply act_abs in Hexec.
    pose proof (delivery_lightens _ _ _ _ (live_inv _ _ Hl) Ha Hexec) as Hlt. split; [lia|]. exists (S n).
    split; [|lia]. eapply live_exec; [done|lia|by apply delivers_lawful|done].
  - pose proof (flush_pending _ _ _ Hexec) as Hp. rewrite (flush_abs _ _ _ Hexec). split; [lia|by exists n].
Qed.

Lemma drained_or_embraced (now : Instant) n b : live n (abs b) → Z.of_nat (n + weight (abs b)) < 2 ^ 64 →
  ∃ acts b1, Forall (λ a, drains a = true) acts ∧ (length acts ≤ load b)%nat ∧ bounded_schedule acts b = Some b1 ∧
    (embrace b1 ∨ at_rest b1 ∧ ∃ n', live n' (channels b1)).
Proof.
  remember (load b) as l eqn:Hload. revert n b Hload. induction (lt_wf l) as [l _ IH]. intros n b -> Hl Hn.
  destruct (decide (pending b = 0 ∧ weight (abs b) = 0)%nat) as [[Hp%pending_quiet Hz]|Hne].
  { exists [], b. split_and!; [constructor|simpl; lia|done|]. right.
    pose proof (abs_quiet b Hp) as Habs. rewrite Habs in Hz, Hl. split; [by split|by exists n]. }
  destruct (moves_or_embrace now n b Hl) as [Hm|He].
  { destruct (decide (pending b = 0%nat)) as [Hp|Hp]; [right; lia|left; by apply pending_sends]. }
  2: { exists [], b. split_and!; [constructor|simpl; lia|done|by left]. }
  assert (∃ a b', drains a = true ∧ bounded_exec b a = Some b') as (a & b' & Ha & Hexec).
  { destruct Hm as [(w & b' & Hf)|(a & b' & Ha & Hf)]; [by exists (Flush w), b'|by exists (Act a), b']. }
  destruct (drain_step _ _ _ _ Hl Hn Ha Hexec) as (Hlt & n' & Hl' & Hn').
  destruct (IH (load b') Hlt n' b' eq_refl Hl') as (acts & b1 & Hf & Hlen & Hs & Hend); [lia|].
  exists (a :: acts), b1. rewrite bounded_schedule_cons, Hexec. split_and!; [by constructor|simpl; lia|done|done].
Qed.

(** ** Following the unbounded system

    From a state with nothing to send, an action and then the sends it causes
    lead where the action leads in System, when that fits in the channels. *)

Lemma act_enabled b a s' : quiet b → sys_exec (channels b) a = Some s' → ∃ b', act b a = Some b'.
Proof.
  intros Hq. pose proof (Hq FromDetector) as H1. pose proof (Hq FromValidator) as H2. pose proof (Hq FromBridge) as H3.
  pose proof (Hq FromObserver) as H4. simpl in H1, H2, H3, H4.
  destruct a as [| | | |prepare| |now|now|i proof|i error|]; unfold sys_exec, act;
    try match goal with |- context [match ?q with [] => None | _ => _ end] => destruct q; [done|] end;
    try (by apply detector_acts || by apply bridge_acts || by apply observer_acts).
  - rewrite H2. destruct (validate_job prepare _); [by eexists|by eexists|done].
  - unfold end_job. destruct (sy_running (channels b) !! i) as [[[id h] inputs]|]; [|done]. by eexists.
  - unfold end_job. destruct (sy_running (channels b) !! i) as [[[id h] inputs]|]; [|done]. by eexists.
Qed.

(** Messages that fit together find room one by one. *)
Lemma flush_enabled b : within (abs b) → pending b ≠ 0%nat → ∃ w b', flush b w = Some b'.
Proof.
  intros [Wj Wr Wf Ws Wa Wc Wp We] Hp. unfold abs in *. cbn in *. rewrite !length_app in *.
  destruct (pending_sends b Hp) as [w Hw]. exists w. destruct w; simpl in Hw |- *.
  - destruct (detector_outbox b) as [|[j|o] ms]; [done|..]; simpl in *; rewrite (proj2 (has_room_lt _ _)) by lia; by eexists.
  - destruct (validator_outbox b) as [|r rs]; [done|]. simpl in *. rewrite (proj2 (has_room_lt _ _)) by lia. by eexists.
  - destruct (bridge_outbox b) as [|[e|? ? ?|u|u] ms]; [done|..]; simpl in *; try rewrite (proj2 (has_room_lt _ _)) by lia; by eexists.
  - destruct (observer_outbox b) as [|[?|?|?|?|c] ms]; [done|..]; simpl in *; try rewrite (proj2 (has_room_lt _ _)) by lia; by eexists.
  - destruct (prover_outbox b) as [|r rs]; [done|]. simpl in *. rewrite (proj2 (has_room_lt _ _)) by lia. by eexists.
Qed.
Lemma flush_all b : within (abs b) → ∃ acts b', bounded_schedule acts b = Some b' ∧ quiet b' ∧ channels b' = abs b.
Proof.
  remember (pending b) as p eqn:Hp. revert b Hp. induction (lt_wf p) as [p _ IH]. intros b -> Hw.
  destruct (decide (pending b = 0%nat)) as [Hz%pending_quiet|Hz].
  { exists [], b. split_and!; [done|done|by rewrite abs_quiet]. }
  destruct (flush_enabled b Hw Hz) as (w & b1 & Hf). pose proof (flush_abs _ _ _ Hf) as Habs.
  destruct (IH (pending b1) (flush_pending _ _ _ Hf) b1 eq_refl) as (acts & b' & Hs & Hq & Hc); [by rewrite Habs|].
  exists (Flush w :: acts), b'. rewrite bounded_schedule_cons. simpl. rewrite Hf. split_and!; [done|done|by rewrite Hc].
Qed.

Lemma narrow_within s : narrow s → within s.
Proof.
  intros (? & ? & ? & ? & ? & ? & ? & ?). split; unfold JOBS_CAPACITY, RESULTS_CAPACITY, FINALITY_CAPACITY, STAGES_CAPACITY,
    ADVANCES_CAPACITY, COMMANDS_CAPACITY, JOB_RESULTS_CAPACITY, EVENTS_CAPACITY; lia.
Qed.
Lemma follow acts b s' : quiet b → sys_path narrow acts (channels b) s' →
  ∃ bacts b', bounded_schedule bacts b = Some b' ∧ quiet b' ∧ channels b' = s'.
Proof.
  revert b. induction acts as [|a acts IH]; intros b Hq.
  - simpl. intros <-. by exists [], b.
  - intros (s1 & Ha & Hn & Hp). destruct (act_enabled b a s1 Hq Ha) as [b1 Hb1].
    pose proof (act_abs _ _ _ Hb1) as Habs. rewrite (abs_quiet b Hq), Ha in Habs. injection Habs as ->.
    destruct (flush_all b1 (narrow_within _ Hn)) as (facts & b2 & Hf & Hq2 & Hc2).
    rewrite <-Hc2 in Hp. destruct (IH b2 Hq2 Hp) as (bacts & b' & Hs & Hq' & Hc').
    exists (Act a :: facts ++ bacts), b'. rewrite bounded_schedule_cons. simpl. rewrite Hb1. simpl.
    by rewrite bounded_schedule_app, Hf.
Qed.

(** C5: liveness with the channel capacities of the source: from every state that the
    bounded channels reach, in an environment whose windows start where they
    were asked to and whose proofs carry public outputs ([lawful]), a schedule of
    sends and deliveries, of a length bounded by what is queued, leads to a state
    with nothing left to send or deliver, or else to the one deadlock that the
    channels have ([embrace]: the detector waits to emit and the bridge head to
    tell it of a stage or an advance).  With nothing left, either exactly one
    prover runs, or none does, the observer waits for a window, and whenever the
    nodes offer one that ends beyond the last reported slot, a schedule makes a
    prover run on the window offered for the detector's slot, store hash and
    cursor: but for that deadlock the bridge can always go on. *)
Theorem bridge_keeps_proving (now : Instant) slot h c latest inflight n b :
  Z.of_nat (n + weight (abs b)) < 2 ^ 64 → bounded_run lawful (bounded_start slot h c latest inflight) n b →
  ∃ acts b1, Forall (λ a, drains a = true) acts ∧ (length acts ≤ load b)%nat ∧ bounded_schedule acts b = Some b1 ∧
    (embrace b1 ∨ at_rest b1 ∧
     (length (sy_running (channels b1)) = 1%nat ∧ ob_stage_transition_proof (sy_observer (channels b1)) = false ∨
      sy_running (channels b1) = [] ∧ ob_stage_transition_proof (sy_observer (channels b1)) = true ∧
      ∀ prepare, let d := sy_detector (channels b1) in offers prepare (latest_slot d) →
        ∃ acts' b2 w, bounded_schedule acts' b1 = Some b2 ∧ quiet b2 ∧
          prepare (Detector.slot d) (store_hash d) (queue_cursor d) true = Ok w ∧
          snd <$> sy_running (channels b2) = [proof_inputs w])).
Proof.
  intros Hn (m & Hm & Hrun)%bounded_run_refines. assert (live m (abs b)) as Hl by (eapply live_run; [lia|done]).
  destruct (drained_or_embraced now m b Hl) as (acts & b1 & Hd & Hlen & Hs & Hend); [lia|].
  exists acts, b1. split_and!; [done..|]. destruct Hend as [He|[[Hq Hz] (n' & Hl1)]]; [by left|right].
  split; [done|]. set (s1 := channels b1) in *. pose proof (weight_zero _ Hz) as (_ & _ & _ & _ & He & Hc & Hj).
  pose proof (i_tokens _ _ (live_inv _ _ Hl1)) as Ht. unfold tokens, downstream, outstanding in Ht.
  rewrite He, Hc, Hj, app_nil_r, length_fmap in Ht. simpl in Ht.
  destruct (ob_stage_transition_proof (sy_observer s1)) eqn:Hf; [right|left; split; [lia|done]].
  assert (sy_running s1 = []) as Hr by (apply nil_length_inv; lia). split_and!; [done..|].
  intros prepare d Ho. destruct (drained_emits prepare _ _ Hl1 Hz Ho) as (acts1 & d' & dual & Hs1 & Hp).
  destruct (emission_staged now s1 d' dual (i_tx _ _ (live_inv _ _ Hl1)) Hr Hf) as (s2 & Hs2 & Hrun2).
  destruct (follow _ b1 s2 Hq (sys_path_app _ _ _ _ _ _ Hs1 Hs2)) as (acts' & b2 & Hb2 & Hq2 & Hc2).
  exists acts', b2, (current_window dual). rewrite Hc2. done.
Qed.
End Progress.
