(* ===== verification/ChannelsWitness.v ===== *)
(** * Concrete runs with bounded channels

    The schedule of SystemWitness with the sends of every actor, and its
    continuation to the deadlock that ChannelsSpec leaves open. *)
From S2P Require Import Prelude Externals StorageLayout Types Merkle Instances MerkleSpec RequestLeaf Mpt MptSpec MptWitness StoreHash Consensus ConsensusSpec ConsensusWitness Detector DetectorSpec Notice BridgeHead Observer System SystemSpec SystemWitness SystemWindows SystemProgress Channels ChannelsSpec ChannelsProgress.

Definition c_start : Bounded := bounded_start (to_uint 64 0) (fb_zero 32) (to_uint 64 2) (to_uint 64 0) None.
(** An action of one actor, and all it sends. *)
Definition det (a : action) (n : nat) : list bounded_action := Act a :: replicate n (Flush FromDetector).
Definition bri (a : action) (n : nat) : list bounded_action := Act a :: replicate n (Flush FromBridge).
Definition obs (n : nat) : list bounded_action := Act ObserverEvent :: replicate n (Flush FromObserver).
(** A polling round that ends in an emission, which finds room or not. *)
Definition round (head : Z) (room : nat) : list bounded_action :=
  det DetectorTick 1 ++ [Act (Validate (w_prepare head)); Flush FromValidator] ++ det DetectorResult room.
Definition proved (from to : Z) : list bounded_action := [Act (ProverDone 0 (w_proof from to)); Flush FromProver].

(** The transition to 32 is staged while that to 64 is detected, and read by the observer. *)
Definition c_prologue : list bounded_action :=
  round 32 1 ++ bri BridgeFinality 1 ++ obs 0 ++ obs 1 ++ bri (BridgeCommand ()) 3 ++ det DetectorStage 0 ++ obs 0 ++
  round 64 1 ++ bri BridgeFinality 1 ++ obs 0.
(** The bridge head does not read the transition to 96 before two proofs have ended. *)
Definition c_unread : list bounded_action := c_prologue ++
  round 96 1 ++ round 128 0 ++ proved 0 32 ++ bri (BridgeJobResult ()) 2 ++ obs 0 ++ obs 7 ++
  bri (BridgeCommand ()) 2 ++ bri (BridgeCommand ()) 3 ++ proved 32 64 ++ bri (BridgeJobResult ()) 2 ++
  obs 0 ++ obs 0 ++ obs 0 ++ obs 6 ++ bri (BridgeCommand ()) 0.
Definition reached (acts : list bounded_action) : bool := match bounded_schedule acts c_start with Some _ => true | None => false end.

Ltac lawful_schedule := repeat (apply list.Forall_cons; split; [first [exact I|intros ?; first [exact I|apply w_prepare_law|by eexists]]|]);
  apply list.Forall_nil; exact I.
Lemma c_lawful : Forall (λ a, match a with Act a => ∀ s, lawful s a | Flush _ => True end) c_unread.
Proof. lawful_schedule. Qed.
Lemma c_reached acts : reached acts = true → bounded_schedule acts c_start = Some (default c_start (bounded_schedule acts c_start)).
Proof. unfold reached. by destruct (bounded_schedule acts c_start). Qed.
Lemma c_run k : reached (take k c_unread) = true →
  bounded_run lawful c_start (length (take k c_unread)) (default c_start (bounded_schedule (take k c_unread) c_start)).
Proof. intros Hr%c_reached. apply bounded_schedule_run; [apply Forall_take, c_lawful|done]. Qed.

(** C30: and that deadlock can be reached: two proofs end while the bridge head leaves a
    transition unread; the detector, with the next one, waits for it, and the bridge
    head waits to tell the detector of the second advance: no actor can go on,
    whatever the nodes and the prover do. *)
Theorem bounded_deadlock_reachable : ∃ n b, bounded_run lawful c_start n b ∧ embrace b ∧
  (∀ a, act b a = None) ∧ (∀ w, flush b w = None).
Proof.
  exists (length (take 200 c_unread)), (default c_start (bounded_schedule (take 200 c_unread) c_start)).
  split; [apply c_run; vm_compute; reflexivity|]. split; [apply embraces_embrace; vm_compute; reflexivity|].
  apply inert_stuck. vm_compute. reflexivity.
Qed.

Definition c_mid : Bounded := default c_start (bounded_schedule (take 30 c_unread) c_start).
Lemma c_mid_run : bounded_run lawful c_start 30 c_mid.
Proof. apply (c_run 30). vm_compute. reflexivity. Qed.
Lemma senders_wait_only_in_a_cycle_witness :
  (∀ w, waits c_mid w → match w with
    | FromDetector => ∃ o ms, detector_outbox c_mid = FinalityOutput o :: ms ∧ sy_finality (channels c_mid) ≠ []
    | FromBridge => (∃ e ms, bridge_outbox c_mid = Event e :: ms ∧ sy_events (channels c_mid) ≠ []) ∨
        (∃ u ms, bridge_outbox c_mid = StageUpdate u :: ms ∧ sy_stages (channels c_mid) ≠ []) ∨
        (∃ u ms, bridge_outbox c_mid = AdvanceUpdate u :: ms ∧ sy_advances (channels c_mid) ≠ [])
    | FromValidator | FromObserver | FromProver => False
    end) ∧
  ((∃ w, ¬ outbox_empty c_mid w) ∨ weight (abs c_mid) ≠ 0%nat → moves c_mid ∨ embrace c_mid) ∧
  (embrace c_mid → ∀ a b', bounded_exec c_mid a = Some b' → embrace b').
Proof. exact (senders_wait_only_in_a_cycle (() : Instant) _ _ _ _ _ 30 c_mid eq_refl c_mid_run). Defined.

Lemma c_weight : bool_decide (Z.of_nat (30 + weight (abs c_mid)) < 2 ^ 64) = true.
Proof. vm_compute. reflexivity. Qed.
Lemma bridge_keeps_proving_witness :
  ∃ acts b1, Forall (λ a, drains a = true) acts ∧ (length acts ≤ load c_mid)%nat ∧ bounded_schedule acts c_mid = Some b1 ∧
    (embrace b1 ∨ at_rest b1 ∧
     (length (sy_running (channels b1)) = 1%nat ∧ ob_stage_transition_proof (sy_observer (channels b1)) = false ∨
      sy_running (channels b1) = [] ∧ ob_stage_transition_proof (sy_observer (channels b1)) = true ∧
      ∀ prepare, let d := sy_detector (channels b1) in offers prepare (latest_slot d) →
        ∃ acts' b2 w, bounded_schedule acts' b1 = Some b2 ∧ quiet b2 ∧
          prepare (Detector.slot d) (store_hash d) (queue_cursor d) true = Ok w ∧
          snd <$> sy_running (channels b2) = [proof_inputs w])).
Proof.
  exact (bridge_keeps_proving (() : Instant) _ _ _ _ _ 30 c_mid (bool_decide_eq_true_1 _ c_weight) c_mid_run).
Defined.
