(* ===== verification/Supervision.v ===== *)
(** * What becomes of the process when an actor dies

    The four tasks that live as long as the process (validation actor, finality
    change detector, bridge head, observer) hold the ends of each other's
    channels.  When one ends, its ends are dropped: a receiver finds its channel
    closed once the messages in it are consumed, a sender finds it closed at
    once.  This file runs the handlers of the actors on closed channels. *)
From S2P Require Import Prelude Externals StorageLayout Types Detector Notice BridgeHead Observer System SystemSpec.

Section Supervision.
  Context `{HeliosTypes} `{HostRuntime}.

(** The tasks that are still running; [exited] after [panic_more]. *)
Record Process := MkProcess {
  validator_alive : bool;
  detector_alive : bool;
  bridge_alive : bool;
  observer_alive : bool;
  exited : bool
}.
Definition all_alive : Process := MkProcess true true true true false.

Definition without_validator (p : Process) : Process :=
  MkProcess false (detector_alive p) (bridge_alive p) (observer_alive p) (exited p).
Definition without_detector (p : Process) : Process :=
  MkProcess (validator_alive p) false (bridge_alive p) (observer_alive p) (exited p).
Definition without_bridge (p : Process) : Process :=
  MkProcess (validator_alive p) (detector_alive p) false (observer_alive p) (exited p).
Definition without_observer (p : Process) : Process :=
  MkProcess (validator_alive p) (detector_alive p) (bridge_alive p) false (exited p).
(** [panic_more]: the error is logged and the whole process terminated. *)
Definition panic_more (p : Process) : Process := MkProcess false false false false true.

(** Which messages of a task still have a receiver. *)
Definition detector_open (p : Process) (m : DetectorMessage) : bool :=
  match m with ValidationJob _ => validator_alive p | FinalityOutput _ => bridge_alive p end.
Definition bridge_open (p : Process) (m : BridgeMessage) : bool :=
  match m with
  | Event _ => observer_alive p
  | StageUpdate _ | AdvanceUpdate _ => detector_alive p
  | SpawnJob _ _ _ => true
  end.
Definition observer_open (p : Process) (m : ObserverMessage) : bool :=
  match m with SendCommand _ => bridge_alive p | _ => true end.

(** A loop ends with the error of its handler, which it logs, or with a panic;
    an error of the observer is a call of [panic_more]. *)
Definition after_detector (m : eff Detector DetectorMessage () ()) (s : System) (p : Process) : Process :=
  match snd (m (sy_detector s)) with Ok _ => p | _ => without_detector p end.
Definition after_bridge (m : eff BridgeHead BridgeMessage anyhow ()) (s : System) (p : Process) : Process :=
  match snd (m (sy_bridge s)) with Ok _ => p | _ => without_bridge p end.
Definition after_observer (m : eff ExampleBridgeHeadEventObserver ObserverMessage string ()) (s : System) (p : Process) : Process :=
  match snd (m (sy_observer s)) with Ok _ => p | Err _ => panic_more p | Panic => without_observer p end.

(** One reception on a channel whose sender is gone and which holds no message
    any more, or a tick that finds the validation actor gone. *)
Inductive closing :=
| ValidatorJobsClosed | DetectorResultsClosed | DetectorStagesClosed | DetectorAdvancesClosed | DetectorTickClosed
| BridgeFinalityClosed | BridgeCommandsClosed | ObserverEventsClosed.

Definition closing_step (now : Instant) (s : System) (p : Process) (c : closing) : option Process :=
  let alone {A : Type} (receiver sender : bool) (queue : list A) : bool :=
    negb (exited p) && receiver && negb sender && bool_decide (length queue = 0%nat) in
  match c with
  | ValidatorJobsClosed =>
    if alone (validator_alive p) (detector_alive p) (sy_validation_jobs s) then Some (without_validator p) else None
  | DetectorResultsClosed =>
    if alone (detector_alive p) (validator_alive p) (sy_validation_results s)
    then Some (after_detector (on_result (detector_open p) None) s p) else None
  | DetectorStagesClosed =>
    if alone (detector_alive p) (bridge_alive p) (sy_stages s)
    then Some (after_detector (on_stage None) s p) else None
  | DetectorAdvancesClosed =>
    if alone (detector_alive p) (bridge_alive p) (sy_advances s)
    then Some (after_detector (on_advance None) s p) else None
  | DetectorTickClosed =>
    if alone (detector_alive p && negb (in_flight (sy_detector s))) (validator_alive p) (@nil ())
    then Some (after_detector (on_tick (detector_open p)) s p) else None
  | BridgeFinalityClosed =>
    if alone (bridge_alive p) (detector_alive p) (sy_finality s)
    then Some (after_bridge (bridge_step (bridge_open p) "" now (λ _, inl ()) (FinalityInput None)) s p) else None
  | BridgeCommandsClosed =>
    if alone (bridge_alive p) (observer_alive p) (sy_commands s)
    then Some (after_bridge (bridge_step (bridge_open p) "" now (λ _, inl ()) (CommandInput None)) s p) else None
  | ObserverEventsClosed =>
    if alone (observer_alive p) (bridge_alive p) (sy_events s)
    then Some (after_observer (observer_step (observer_open p) None) s p) else None
  end.

Definition closing_run (now : Instant) (s : System) (p : Process) (cs : list closing) : option Process :=
  foldl (λ o c, o ≫= λ p, closing_step now s p c) (Some p) cs.

(** ** The whole process ends, or everything in it does *)

(** The messages in flight have been consumed. *)
Definition drained (s : System) : Prop :=
  sy_validation_jobs s = [] ∧ sy_validation_results s = [] ∧ sy_stages s = [] ∧ sy_advances s = [] ∧
  sy_finality s = [] ∧ sy_commands s = [] ∧ sy_events s = [].

Definition alive_count (p : Process) : nat :=
  Nat.b2n (validator_alive p) + Nat.b2n (detector_alive p) + Nat.b2n (bridge_alive p) + Nat.b2n (observer_alive p).

(** Every reception on a closed channel ends the task that makes it, and the
    observer's ends the process. *)
Lemma closing_kills now s p c p' : closing_step now s p c = Some p' →
  (alive_count p' < alive_count p)%nat ∧ exited p = false ∧
  ((exited p' = true ∧ alive_count p' = 0%nat ∧ observer_alive p = true) ∨ (exited p' = false ∧ observer_alive p' = observer_alive p)).
Proof.
  destruct p as [v d b o x].
  destruct c; simpl; destruct v, d, b, o, x; simpl; try done;
    repeat case_bool_decide; try done;
    try (unfold on_tick, try_start_validation_job; eff_unfold; destruct (in_flight (sy_detector s)) eqn:Hf; simpl; try done);
    try (unfold after_detector, on_tick, try_start_validation_job; eff_unfold; rewrite Hf);
    intros [= <-]; unfold alive_count; simpl; split_and!; auto with lia.
Qed.

(** Nothing is closed while all tasks run, and something is when only some do. *)
Lemma closing_all_alive now s c : closing_step now s all_alive c = None.
Proof. destruct c; simpl; try done. by destruct (in_flight (sy_detector s)). Qed.
Lemma closing_enabled now s p : drained s → exited p = false → p ≠ all_alive → alive_count p ≠ 0%nat →
  ∃ c p', closing_step now s p c = Some p'.
Proof.
  intros (Hj & Hr & Hst & Ha & Hf & Hc & He) Hx Hp Hn. destruct p as [v d b o x]. simpl in Hx. subst x.
  destruct (decide (d = true ∧ v = false)) as [[-> ->]|]; [exists DetectorResultsClosed; simpl; rewrite Hr; by eexists|].
  destruct (decide (d = false ∧ v = true)) as [[-> ->]|]; [exists ValidatorJobsClosed; simpl; rewrite Hj; by eexists|].
  destruct (decide (d = true ∧ b = false)) as [[-> ->]|]; [exists DetectorStagesClosed; simpl; rewrite Hst; by eexists|].
  destruct (decide (d = false ∧ b = true)) as [[-> ->]|]; [exists BridgeFinalityClosed; simpl; rewrite Hf; by eexists|].
  destruct (decide (b = true ∧ o = false)) as [[-> ->]|]; [exists BridgeCommandsClosed; simpl; rewrite Hc; by eexists|].
  destruct (decide (b = false ∧ o = true)) as [[-> ->]|]; [exists ObserverEventsClosed; simpl; rewrite He; by eexists|].
  exfalso. destruct v, d, b, o; naive_solver.
Qed.

Lemma closing_run_snoc now s p cs c :
  closing_run now s p (cs ++ [c]) = closing_run now s p cs ≫= λ p', closing_step now s p' c.
Proof. unfold closing_run. by rewrite foldl_app. Qed.

(** What holds after any closing receptions from [p]. *)
Lemma closing_run_inv now s p cs p' : exited p = false → p ≠ all_alive → closing_run now s p cs = Some p' →
  (length cs + alive_count p' ≤ alive_count p)%nat ∧
  ((exited p' = true ∧ alive_count p' = 0%nat ∧ observer_alive p = true) ∨
   (exited p' = false ∧ p' ≠ all_alive ∧ observer_alive p' = observer_alive p)).
Proof.
  intros Hx Hp. revert p'. induction cs as [|c cs IH] using rev_ind; intros p' Hrun.
  - injection Hrun as <-. simpl. split; [lia|right; done].
  - rewrite closing_run_snoc in Hrun. destruct (closing_run now s p cs) as [p1|]; [|done]. simpl in Hrun.
    destruct (IH p1 eq_refl) as [Hlen Hinv]. apply closing_kills in Hrun as (Hk & Hx1 & Hcase).
    rewrite length_app. simpl. split; [lia|]. rewrite Hx1 in Hinv. destruct Hinv as [[? _]|(_ & Hne & Hobs)]; [done|].
    rewrite Hobs in Hcase. destruct Hcase as [|[? ?]]; [by left|right]. split_and!; [done| |done].
    intros ->. destruct p1 as [[] [] [] [] []]; unfold alive_count in Hk; simpl in Hk; lia.
Qed.

Lemma closing_settles now s n : ∀ p, drained s → exited p = false → p ≠ all_alive → (alive_count p ≤ n)%nat →
  ∃ cs p', closing_run now s p cs = Some p' ∧ ∀ c, closing_step now s p' c = None.
Proof.
  intros p Hs Hx Hp.
  cut (∀ m cs p1, closing_run now s p cs = Some p1 → (alive_count p1 ≤ m)%nat →
    ∃ cs p', closing_run now s p cs = Some p' ∧ ∀ c, closing_step now s p' c = None).
  { intros Hcut Hn. by apply (Hcut n [] p). }
  intros m. induction m as [|m IH]; intros cs p1 Hrun Hm.
  - exists cs, p1. split; [done|]. intros c. destruct (closing_step now s p1 c) as [p2|] eqn:Hc; [|done].
    apply closing_kills in Hc as [? _]. lia.
  - pose proof (closing_run_inv _ _ _ _ _ Hx Hp Hrun) as [_ [(Hx1 & Hz & _)|(Hx1 & Hp1 & _)]].
    + apply (IH cs p1); [done|lia].
    + destruct (decide (alive_count p1 = 0%nat)); [apply (IH cs p1); [done|lia]|].
      destruct (closing_enabled now s p1) as (c & p2 & Hc); [done..|].
      apply (IH (cs ++ [c]) p2); [by rewrite closing_run_snoc, Hrun|]. apply closing_kills in Hc as [? _]. lia.
Qed.

Lemma dead_actor_settles now s p : drained s → exited p = false → p ≠ all_alive →
  (∃ cs p', closing_run now s p cs = Some p' ∧ ∀ c, closing_step now s p' c = None) ∧
  ∀ cs p', closing_run now s p cs = Some p' →
    (length cs ≤ 4)%nat ∧
    ((∀ c, closing_step now s p' c = None) → alive_count p' = 0%nat ∧ exited p' = observer_alive p).
Proof.
  intros Hs Hx Hp. split; [by apply (closing_settles now s (alive_count p))|].
  intros cs p' Hrun. apply closing_run_inv in Hrun as [Hlen Hinv]; [|done..]. split.
  - destruct p as [[] [] [] [] []]; unfold alive_count in Hlen; simpl in Hlen; lia.
  - intros Hstuck. destruct Hinv as [(-> & -> & ->)|(Hx' & Hp' & Ho)]; [done|].
    destruct (decide (alive_count p' = 0%nat)) as [Hz|Hz].
    + split; [done|]. rewrite Hx', <-Ho. destruct p' as [[] [] [] [] []]; unfold alive_count in Hz; simpl in Hz; done.
    + destruct (closing_enabled now s p') as (c & p2 & Hc); [done..|]. by rewrite Hstuck in Hc.
Qed.

(** C13: no half-dead process: when a long-lived task has ended (a panic in the
    validation, a failed send) and the messages in flight are consumed, at most
    four closed-channel receptions later nothing of the bridge runs any more; the
    process itself has exited, through the observer's panic_more, exactly when the
    observer was still running, so that a supervisor restarts it. *)
Theorem dead_actor_ends_process now s p : drained s → exited p = false → p ≠ all_alive →
  (∃ cs p', closing_run now s p cs = Some p' ∧ ∀ c, closing_step now s p' c = None) ∧
  ∀ cs p', closing_run now s p cs = Some p' →
    (length cs ≤ 4)%nat ∧
    ((∀ c, closing_step now s p' c = None) → alive_count p' = 0%nat ∧ exited p' = observer_alive p).
Proof. apply dead_actor_settles. Qed.

(** ** What the observer leaves when something of a proof cannot be saved *)


End Supervision.
