(* ===== verification/Json.v ===== *)
(** * JSON values and the coders of derived structs

    The data model of serde as the program uses it: a value of [serde_json], a
    struct written as an object with its fields in order, and the visitor of a
    derived [Deserialize], which takes an object in any order, or a sequence.
    Objects keep their insertion order, as serde_json does with the feature
    [preserve_order], which the workspace's lock file enables.

    The coders of types of other crates (byte arrays and words of alloy, floating
    point) are parameters with the law that they invert each other. *)
From S2P Require Import Prelude Externals StorageLayout Types Notice.

(** [f64] beyond what HostRuntime says of it. *)
Class F64Json `{HostRuntime} := {
  (** [f64::is_finite] *)
  f64_finite : F64 → bool;
  (** [n as f64] *)
  f64_of_Z : Z → F64
}.

Section Json.
Context `{HostRuntime}.

#[local] Unset Elimination Schemes.
(** [serde_json::Value]; a number is a [u64], a negative [i64] or a finite [f64]. *)
Inductive Value :=
| VNull
| VBool (b : bool)
| VUint (n : u64)
| VNegInt (z : Z)
| VFloat (f : F64)
| VString (s : string)
| VArray (l : list Value)
| VObject (m : list (string * Value)).
#[local] Set Elimination Schemes.

(** What the errors of a deserializer say; [Custom] is [D::Error::custom]. *)
Inductive serde_error :=
| MissingField (name : string)
| InvalidType (expected : string)
| InvalidLength
| UnknownVariant (name : string)
| Custom (e : serde_error).

(** ** [serde_json::Map] *)

Fixpoint map_get (k : string) (m : list (string * Value)) : option Value :=
  match m with
  | [] => None
  | (k', v) :: m => if String.eqb k k' then Some v else map_get k m
  end.
Fixpoint map_insert (k : string) (v : Value) (m : list (string * Value)) : list (string * Value) :=
  match m with
  | [] => [(k, v)]
  | (k', v') :: m => if String.eqb k k' then (k', v) :: m else (k', v') :: map_insert k v m
  end.
(** The entries that a flattened map collects beside the field [k]. *)
Fixpoint map_without (k : string) (m : list (string * Value)) : list (string * Value) :=
  match m with
  | [] => []
  | (k', v) :: m => if String.eqb k k' then map_without k m else (k', v) :: map_without k m
  end.

Lemma map_get_insert k v m : map_get k (map_insert k v m) = Some v.
Proof.
  induction m as [|[k' v'] m IH]; simpl; [by rewrite String.eqb_refl|].
  destruct (String.eqb k k') eqn:He; simpl; by rewrite He.
Qed.
Lemma map_get_insert_ne k k' v m : k ≠ k' → map_get k' (map_insert k v m) = map_get k' m.
Proof.
  intros Hne. induction m as [|[k'' v'] m IH]; simpl.
  - by destruct (String.eqb_spec k' k).
  - destruct (String.eqb_spec k k'') as [<-|]; simpl; [by destruct (String.eqb_spec k' k)|]. by rewrite IH.
Qed.

(** ** Basic decoders *)

Definition de_u64 (v : Value) : res serde_error u64 :=
  match v with VUint n => Ok n | _ => Err (InvalidType "u64") end.
Definition de_u8 (v : Value) : res serde_error u8 :=
  match v with
  | VUint n => if decide (n < 256) then Ok (ucast 8 n) else Err (InvalidType "u8")
  | _ => Err (InvalidType "u8")
  end.
Definition de_string (v : Value) : res serde_error string :=
  match v with VString s => Ok s | _ => Err (InvalidType "a string") end.
(** [Option<T>] *)
Definition de_option {A} (de : Value → res serde_error A) (v : Value) : res serde_error (option A) :=
  match v with VNull => Ok None | _ => Some <$> de v end.
(** [Vec<T>] *)
Definition de_vec {A} (de : Value → res serde_error A) (v : Value) : res serde_error (list A) :=
  match v with VArray l => try_map de l | _ => Err (InvalidType "a sequence") end.
(** [[T; 2]] *)
Definition de_array2 {A} (de : Value → res serde_error A) (v : Value) : res serde_error (A * A) :=
  match v with
  | VArray (a :: b :: rest) =>
    x ← de a;
    y ← de b;
    match rest with [] => Ok (x, y) | _ => Err InvalidLength end
  | VArray [a] => _ ← de a; Err InvalidLength
  | VArray [] => Err InvalidLength
  | _ => Err (InvalidType "an array of length 2")
  end.

(** ** Decoders of derived structs

    The fields of a struct, with the decoder of each. *)
Record Fields (A : Type) := MkFields {
  (** the decoder that the visitor runs on an entry of this name, without its result *)
  field_check : string → option (Value → res serde_error ());
  (** the struct, once every entry has been visited *)
  from_map : (string → option Value) → res serde_error A;
  (** the struct from the elements of a sequence, and what is left *)
  from_seq : list Value → res serde_error (A * list Value)
}.
#[global] Arguments MkFields {A} _ _ _.
#[global] Arguments field_check {A} _ _.
#[global] Arguments from_map {A} _ _.
#[global] Arguments from_seq {A} _ _.

Definition unit_of {A} (de : Value → res serde_error A) (v : Value) : res serde_error () := _ ← de v; Ok ().
Definition check_of {A} (name : string) (de : Value → res serde_error A) (k : string) :
    option (Value → res serde_error ()) :=
  if String.eqb name k then Some (unit_of de) else None.
Definition next_element {A} (de : Value → res serde_error A) (missing : res serde_error A) (l : list Value) :
    res serde_error (A * list Value) :=
  match l with
  | v :: l => a ← de v; Ok (a, l)
  | [] => a ← missing; Ok (a, [])
  end.

(** A required field. *)
Definition field {A} (name : string) (de : Value → res serde_error A) : Fields A :=
  MkFields (check_of name de)
    (λ get, match get name with Some v => de v | None => Err (MissingField name) end)
    (next_element de (Err InvalidLength)).
(** A field of type [Option<T>]: absent means [None]. *)
Definition field_option {A} (name : string) (de : Value → res serde_error A) : Fields (option A) :=
  MkFields (check_of name (de_option de))
    (λ get, match get name with Some v => de_option de v | None => Ok None end)
    (next_element (de_option de) (Err InvalidLength)).
(** A field with [#[serde(default)]]. *)
Definition field_default {A} (name : string) (de : Value → res serde_error A) (d : A) : Fields A :=
  MkFields (check_of name de)
    (λ get, match get name with Some v => de v | None => Ok d end)
    (next_element de (Ok d)).

Definition fields_map {A B} (f : A → B) (F : Fields A) : Fields B :=
  MkFields (field_check F) (λ get, f <$> from_map F get) (λ l, '(a, l) ← from_seq F l; Ok (f a, l)).
Definition fields_ap {A B} (F : Fields (A → B)) (G : Fields A) : Fields B :=
  MkFields
    (λ k, match field_check F k with Some c => Some c | None => field_check G k end)
    (λ get, f ← from_map F get; a ← from_map G get; Ok (f a))
    (λ l, '(f, l) ← from_seq F l; '(a, l) ← from_seq G l; Ok (f a, l)).

(** The derived [Deserialize] of a struct, from a [Value]. *)
Definition check_entry {A} (F : Fields A) (entry : string * Value) : res serde_error () :=
  match field_check F (fst entry) with Some check => check (snd entry) | None => Ok () end.
Definition decode_struct {A} (F : Fields A) (v : Value) : res serde_error A :=
  match v with
  | VObject m =>
    _ ← try_iter (check_entry F) m;
    from_map F (λ k, map_get k m)
  | VArray l =>
    '(a, rest) ← from_seq F l;
    match rest with [] => Ok a | _ => Err InvalidLength end
  | _ => Err (InvalidType "struct")
  end.

Lemma decode_object {A} (F : Fields A) m a :
  decode_struct F (VObject m) = Ok a ↔
  Forall (λ e, check_entry F e = Ok ()) m ∧ from_map F (λ k, map_get k m) = Ok a.
Proof.
  simpl. rewrite bind_Ok. setoid_rewrite try_iter_Ok. split; [by intros ([] & ? & ?)|]. intros [? ?]. by exists ().
Qed.
End Json.
Infix "<$$>" := fields_map (at level 61, left associativity) : nori_scope.
Infix "<**>" := fields_ap (at level 61, left associativity) : nori_scope.
