(* ===== verification/NoticeCodec.v ===== *)
(** * Notices as JSON

    nori/src/bridge_head/notice_messages.rs: the derived coders of the extensions
    and of the message structs, the hand-written [Serialize] and [Deserialize]
    of a notice, and what comes back from a notice that was written. *)
From S2P Require Import Prelude Externals StorageLayout Types Notice Json.
Open Scope nori_scope.

(** The coders of other crates: [FixedBytes] and [U256] of alloy, and the input
    data of helios inside a window. *)
Class SerdeParams `{HeliosTypes} `{HostRuntime} := {
  ser_fixed {n} : FixedBytes n → Value;
  de_fixed {n} : Value → res serde_error (FixedBytes n);
  ser_u256 : U256 → Value;
  de_u256 : Value → res serde_error U256;
  de_window : Value → res serde_error ProofInputsWithWindow
}.
Class SerdeLaws `{SerdeParams} := {
  de_ser_fixed {n} (b : FixedBytes n) : de_fixed (ser_fixed b) = Ok b;
  de_ser_u256 (x : U256) : de_u256 (ser_u256 x) = Ok x
}.

Section Codec.
Context `{SerdeParams} `{!F64Json}.

(** ** [TransitionNoticeMessageType] *)

Definition message_type_name (t : TransitionNoticeMessageType) : string :=
  match t with
  | BridgeHeadStarted => "BridgeHeadStarted"
  | BridgeHeadWarning => "BridgeHeadWarning"
  | BridgeHeadJobCreated => "BridgeHeadJobCreated"
  | BridgeHeadJobSucceeded => "BridgeHeadJobSucceeded"
  | BridgeHeadJobFailed => "BridgeHeadJobFailed"
  | BridgeHeadFinalityTransitionDetected => "BridgeHeadFinalityTransitionDetected"
  | BridgeHeadAdvanced => "BridgeHeadAdvanced"
  end.
Definition message_types : list TransitionNoticeMessageType :=
  [BridgeHeadStarted; BridgeHeadWarning; BridgeHeadJobCreated; BridgeHeadJobSucceeded; BridgeHeadJobFailed;
   BridgeHeadFinalityTransitionDetected; BridgeHeadAdvanced].
Definition ser_message_type (t : TransitionNoticeMessageType) : Value := VString (message_type_name t).
Definition variant_of (name : string) : res serde_error TransitionNoticeMessageType :=
  ok_or (List.find (λ t, String.eqb name (message_type_name t)) message_types) (UnknownVariant name).
(** A unit variant is a string, or an object with the name and [null]. *)
Definition de_message_type (v : Value) : res serde_error TransitionNoticeMessageType :=
  match v with
  | VString name => variant_of name
  | VObject [(name, content)] =>
    t ← variant_of name;
    match content with VNull => Ok t | _ => Err (InvalidType "unit") end
  | _ => Err (InvalidType "string or map")
  end.
Lemma de_ser_message_type t : de_message_type (ser_message_type t) = Ok t.
Proof. by destruct t. Qed.

(** ** Values of the extensions *)

(** A number that is not finite becomes [null]. *)
Definition ser_f64 (f : F64) : Value := if f64_finite f then VFloat f else VNull.
Definition de_f64 (v : Value) : res serde_error F64 :=
  match v with
  | VFloat f => Ok f
  | VUint n => Ok (f64_of_Z n)
  | VNegInt z => Ok (f64_of_Z z)
  | _ => Err (InvalidType "f64")
  end.

Definition ser_verified_request (r : VerifiedRequest) : Value :=
  VObject [("target"%string, ser_fixed (vr_target r));
           ("collection_keys_count"%string, VUint (ucast 64 (vr_collection_keys_count r)));
           ("collection_keys"%string,
             VArray [ser_fixed (fst (vr_collection_keys r)); ser_fixed (snd (vr_collection_keys r))]);
           ("value"%string, ser_u256 (vr_value r))].
Definition verified_request_fields : Fields VerifiedRequest :=
  MkVerifiedRequest <$$> field "target" de_fixed <**> field "collection_keys_count" de_u8
    <**> field "collection_keys" (de_array2 de_fixed) <**> field "value" de_u256.

Definition ser_started (e : TransitionNoticeExtensionBridgeHeadStarted) : Value :=
  VObject [("latest_beacon_slot"%string, VUint (st_latest_beacon_slot e));
           ("current_slot"%string, VUint (st_current_slot e));
           ("store_hash"%string, ser_fixed (st_store_hash e));
           ("queue_cursor"%string, VUint (st_queue_cursor e))].
Definition started_fields : Fields TransitionNoticeExtensionBridgeHeadStarted :=
  MkStarted <$$> field "latest_beacon_slot" de_u64 <**> field "current_slot" de_u64
    <**> field "store_hash" de_fixed <**> field "queue_cursor" de_u64.

Definition ser_warning (e : TransitionNoticeExtensionBridgeHeadWarning) : Value :=
  VObject [("message"%string, VString (wn_message e))].
Definition warning_fields : Fields TransitionNoticeExtensionBridgeHeadWarning :=
  MkWarning <$$> field "message" de_string.

Definition ser_job_created (e : TransitionNoticeExtensionBridgeHeadJobCreated) : Value :=
  VObject [("job_id"%string, VUint (jc_job_id e));
           ("input_slot"%string, VUint (jc_input_slot e));
           ("input_block_number"%string, VUint (jc_input_block_number e));
           ("input_store_hash"%string, ser_fixed (jc_input_store_hash e));
           ("input_queue_cursor"%string, VUint (jc_input_queue_cursor e));
           ("expected_output_slot"%string, VUint (jc_expected_output_slot e));
           ("expected_output_block_number"%string, VUint (jc_expected_output_block_number e));
           ("expected_output_queue_cursor"%string, VUint (jc_expected_output_queue_cursor e))].
Definition job_created_fields : Fields TransitionNoticeExtensionBridgeHeadJobCreated :=
  MkJobCreated <$$> field "job_id" de_u64 <**> field "input_slot" de_u64 <**> field "input_block_number" de_u64
    <**> field "input_store_hash" de_fixed <**> field "input_queue_cursor" de_u64
    <**> field "expected_output_slot" de_u64 <**> field "expected_output_block_number" de_u64
    <**> field "expected_output_queue_cursor" de_u64.

Definition ser_job_succeeded (e : TransitionNoticeExtensionBridgeHeadJobSucceeded) : Value :=
  VObject [("job_id"%string, VUint (js_job_id e));
           ("input_slot"%string, VUint (js_input_slot e));
           ("input_block_number"%string, VUint (js_input_block_number e));
           ("input_store_hash"%string, ser_fixed (js_input_store_hash e));
           ("input_queue_cursor"%string, VUint (js_input_queue_cursor e));
           ("output_slot"%string, VUint (js_output_slot e));
           ("output_block_number"%string, VUint (js_output_block_number e));
           ("output_store_hash"%string, ser_fixed (js_output_store_hash e));
           ("output_queue_cursor"%string, VUint (js_output_queue_cursor e));
           ("execution_state_root"%string, ser_fixed (js_execution_state_root e));
           ("verified_requests_root"%string, ser_fixed (js_verified_requests_root e));
           ("next_sync_committee_hash"%string, ser_fixed (js_next_sync_committee_hash e));
           ("proof_request_queue_address"%string, ser_fixed (js_proof_request_queue_address e));
           ("verified_requests"%string, VArray (ser_verified_request <$> js_verified_requests e));
           ("elapsed_sec"%string, ser_f64 (js_elapsed_sec e))].
Definition job_succeeded_fields : Fields TransitionNoticeExtensionBridgeHeadJobSucceeded :=
  MkJobSucceeded <$$> field "job_id" de_u64 <**> field "input_slot" de_u64 <**> field "input_block_number" de_u64
    <**> field "input_store_hash" de_fixed <**> field "input_queue_cursor" de_u64 <**> field "output_slot" de_u64
    <**> field "output_block_number" de_u64 <**> field "output_store_hash" de_fixed
    <**> field "output_queue_cursor" de_u64 <**> field "execution_state_root" de_fixed
    <**> field "verified_requests_root" de_fixed <**> field "next_sync_committee_hash" de_fixed
    <**> field "proof_request_queue_address" de_fixed
    <**> field "verified_requests" (de_vec (decode_struct verified_request_fields))
    <**> field "elapsed_sec" de_f64.

Definition ser_job_failed (e : TransitionNoticeExtensionBridgeHeadJobFailed) : Value :=
  VObject [("job_id"%string, VUint (jf_job_id e));
           ("input_slot"%string, VUint (jf_input_slot e));
           ("input_block_number"%string, VUint (jf_input_block_number e));
           ("input_store_hash"%string, ser_fixed (jf_input_store_hash e));
           ("input_queue_cursor"%string, VUint (jf_input_queue_cursor e));
           ("expected_output_slot"%string, VUint (jf_expected_output_slot e));
           ("expected_output_block_number"%string, VUint (jf_expected_output_block_number e));
           ("expected_output_queue_cursor"%string, VUint (jf_expected_output_queue_cursor e));
           ("error"%string, VString (jf_error e));
           ("elapsed_sec"%string, ser_f64 (jf_elapsed_sec e));
           ("n_job_in_buffer"%string, VUint (jf_n_job_in_buffer e))].
Definition job_failed_fields : Fields TransitionNoticeExtensionBridgeHeadJobFailed :=
  MkJobFailed <$$> field "job_id" de_u64 <**> field "input_slot" de_u64 <**> field "input_block_number" de_u64
    <**> field "input_store_hash" de_fixed <**> field "input_queue_cursor" de_u64
    <**> field "expected_output_slot" de_u64 <**> field "expected_output_block_number" de_u64
    <**> field "expected_output_queue_cursor" de_u64 <**> field "error" de_string <**> field "elapsed_sec" de_f64
    <**> field "n_job_in_buffer" de_u64.

(** Three of the five fields are not written, and all but an [Option] are read. *)
Definition ser_finality_transition_detected (e : TransitionNoticeExtensionBridgeHeadFinalityTransitionDetected) : Value :=
  VObject [("block_number"%string, VUint (ft_block_number e)); ("slot"%string, VUint (ft_slot e))].
Definition finality_transition_detected_fields : Fields TransitionNoticeExtensionBridgeHeadFinalityTransitionDetected :=
  MkFinalityTransitionDetected <$$> field "block_number" de_u64 <**> field "slot" de_u64 <**> field "input_slot" de_u64
    <**> field "current_window_proof_inputs_with_window" de_window
    <**> field_option "next_window_proof_inputs_with_window" de_window.

Definition ser_advanced (e : TransitionNoticeExtensionBridgeHeadAdvanced) : Value :=
  VObject [("slot"%string, VUint (ad_slot e)); ("store_hash"%string, ser_fixed (ad_store_hash e));
           ("queue_cursor"%string, VUint (ad_queue_cursor e))].
Definition advanced_fields : Fields TransitionNoticeExtensionBridgeHeadAdvanced :=
  MkAdvanced <$$> field "slot" de_u64 <**> field "store_hash" de_fixed <**> field "queue_cursor" de_u64.

(** ** The structs of [define_message!] *)

Definition ser_message {Ext} (ser : Ext → Value) (m : NoticeMessage Ext) : Value :=
  VObject [("datetime_iso"%string, VString (datetime_iso m)); ("extension"%string, ser (extension m));
           ("message_type"%string, ser_message_type (message_type m))].
Definition message_fields {Ext} (F : Fields Ext) : Fields (NoticeMessage Ext) :=
  MkNotice Ext <$$> field "datetime_iso" de_string <**> field "extension" (decode_struct F)
    <**> field "message_type" de_message_type.
Definition de_message {Ext} (F : Fields Ext) (v : Value) : res serde_error (NoticeMessage Ext) :=
  decode_struct (message_fields F) v.

(** ** The hand-written coders of a notice *)

(** [Serialize for TransitionNoticeBridgeHeadMessage] *)
Definition ser_notice (self : TransitionNoticeBridgeHeadMessage) : Value :=
  match self with
  | Started msg => ser_message ser_started msg
  | Warning msg => ser_message ser_warning msg
  | JobCreated msg => ser_message ser_job_created msg
  | JobSucceeded msg => ser_message ser_job_succeeded msg
  | JobFailed msg => ser_message ser_job_failed msg
  | FinalityTransitionDetected msg => ser_message ser_finality_transition_detected msg
  | HeadAdvanced msg => ser_message ser_advanced msg
  end.

(** [Helper]: the tag, and the other entries flattened into a map. *)
Definition de_helper (v : Value) : res serde_error (TransitionNoticeMessageType * list (string * Value)) :=
  match v with
  | VObject m =>
    match map_get "message_type" m with
    | Some x => message_type ← de_message_type x; Ok (message_type, map_without "message_type" m)
    | None => Err (MissingField "message_type")
    end
  | _ => Err (InvalidType "struct Helper")
  end.

(** [Deserialize for TransitionNoticeBridgeHeadMessage] *)
Definition de_notice (v : Value) : res serde_error TransitionNoticeBridgeHeadMessage :=
  '(message_type, other) ← de_helper v;
  let json_value := VObject (map_insert "message_type" (ser_message_type message_type) other) in
  match message_type with
  | BridgeHeadStarted => Started <$> map_err Custom (de_message started_fields json_value)
  | BridgeHeadWarning => Warning <$> map_err Custom (de_message warning_fields json_value)
  | BridgeHeadJobCreated => JobCreated <$> map_err Custom (de_message job_created_fields json_value)
  | BridgeHeadJobSucceeded => JobSucceeded <$> map_err Custom (de_message job_succeeded_fields json_value)
  | BridgeHeadJobFailed => JobFailed <$> map_err Custom (de_message job_failed_fields json_value)
  | BridgeHeadFinalityTransitionDetected =>
      FinalityTransitionDetected <$> map_err Custom (de_message finality_transition_detected_fields json_value)
  | BridgeHeadAdvanced => HeadAdvanced <$> map_err Custom (de_message advanced_fields json_value)
  end.
End Codec.
