(* ===== verification/NoticeCodecSpec.v ===== *)
(** * Round trips of notices

    What [de_notice] makes of a notice that [ser_notice] wrote, and what any
    notice that it accepts looks like. *)
From S2P Require Import Prelude Externals StorageLayout Types Notice Json NoticeCodec.

Section Spec.
Context `{SerdeLaws} `{!F64Json}.

(** The tag of a notice is that of its kind. *)
Definition well_tagged (msg : TransitionNoticeBridgeHeadMessage) : Prop :=
  match msg with
  | Started m => message_type m = BridgeHeadStarted
  | Warning m => message_type m = BridgeHeadWarning
  | JobCreated m => message_type m = BridgeHeadJobCreated
  | JobSucceeded m => message_type m = BridgeHeadJobSucceeded
  | JobFailed m => message_type m = BridgeHeadJobFailed
  | FinalityTransitionDetected m => message_type m = BridgeHeadFinalityTransitionDetected
  | HeadAdvanced m => message_type m = BridgeHeadAdvanced
  end.
(** The elapsed time of a notice, where it has one, is finite. *)
Definition finite_times (msg : TransitionNoticeBridgeHeadMessage) : bool :=
  match msg with
  | JobSucceeded m => f64_finite (js_elapsed_sec (extension m))
  | JobFailed m => f64_finite (jf_elapsed_sec (extension m))
  | _ => true
  end.
(** What a value whose elapsed time is [f] is read back as: a time that is not
    finite is written as null, which is not a number. *)
Definition if_finite {A} (f : F64) (a : A) : res serde_error A :=
  if f64_finite f then Ok a else Err (InvalidType "f64").

Lemma de_ser_u8 (c : u8) : de_u8 (VUint (ucast 64 c)) = Ok c.
Proof.
  pose proof (uint_range c) as Hc. change (2 ^ Z.of_nat 8) with 256 in Hc. unfold de_u8, ucast.
  rewrite to_uint_small by (change (2 ^ Z.of_nat 64) with (2 ^ 64); lia). rewrite decide_True by lia.
  f_equal. apply uint_eq, to_uint_small. change (2 ^ Z.of_nat 8) with 256. lia.
Qed.
Lemma de_ser_f64 f : de_f64 (ser_f64 f) = if_finite f f.
Proof. unfold ser_f64, if_finite. by destruct (f64_finite f). Qed.
Lemma de_ser_vec {A} (ser : A → Value) de l : (∀ a, de (ser a) = Ok a) → de_vec de (VArray (ser <$> l)) = Ok l.
Proof. intros Hd. simpl. apply try_map_Ok. induction l; constructor; auto. Qed.
#[local] Arguments de_u8 : simpl never.
#[local] Arguments de_f64 : simpl never.
#[local] Arguments ser_f64 : simpl never.
#[local] Arguments ucast : simpl never.
#[local] Arguments de_vec : simpl never.
#[local] Arguments de_array2 : simpl never.
#[local] Arguments de_message_type : simpl never.
#[local] Arguments ser_message_type : simpl never.

Lemma de_ser_array2 {n} (k0 k1 : FixedBytes n) : de_array2 de_fixed (VArray [ser_fixed k0; ser_fixed k1]) = Ok (k0, k1).
Proof. unfold de_array2. by rewrite !de_ser_fixed. Qed.

(** Run a decoder on an object whose entries were written by the coders of the
    struct's fields. *)
Ltac decode := unfold decode_struct; simpl; unfold check_entry; simpl; unfold unit_of; simpl;
  repeat (rewrite ?de_ser_fixed, ?de_ser_u256, ?de_ser_u8, ?de_ser_array2, ?de_ser_message_type; simpl).

Lemma verified_request_roundtrip r : decode_struct verified_request_fields (ser_verified_request r) = Ok r.
Proof. destruct r as [t c [k0 k1] v]. by decode. Qed.
Lemma started_roundtrip e : decode_struct started_fields (ser_started e) = Ok e.
Proof. destruct e. by decode. Qed.
Lemma warning_roundtrip e : decode_struct warning_fields (ser_warning e) = Ok e.
Proof. destruct e. by decode. Qed.
Lemma job_created_roundtrip e : decode_struct job_created_fields (ser_job_created e) = Ok e.
Proof. destruct e. by decode. Qed.
Lemma job_succeeded_roundtrip e :
  decode_struct job_succeeded_fields (ser_job_succeeded e) = if_finite (js_elapsed_sec e) e.
Proof.
  destruct e as [????????????? reqs f]. decode. rewrite de_ser_f64.
  rewrite (de_ser_vec ser_verified_request) by apply verified_request_roundtrip. decode.
  unfold if_finite. by destruct (f64_finite f).
Qed.
Lemma job_failed_roundtrip e : decode_struct job_failed_fields (ser_job_failed e) = if_finite (jf_elapsed_sec e) e.
Proof. destruct e as [????????? f ?]. decode. rewrite de_ser_f64. unfold if_finite. by destruct (f64_finite f). Qed.
Lemma advanced_roundtrip e : decode_struct advanced_fields (ser_advanced e) = Ok e.
Proof. destruct e. by decode. Qed.
(** What was skipped is missed. *)
Lemma finality_transition_detected_lost e :
  decode_struct finality_transition_detected_fields (ser_finality_transition_detected e) = Err (MissingField "input_slot").
Proof. destruct e. by decode. Qed.

#[local] Arguments decode_struct : simpl never.
Lemma decode_object_eq {A} (F : Fields A) m :
  decode_struct F (VObject m) = _ ← try_iter (check_entry F) m; from_map F (λ k, map_get k m).
Proof. done. Qed.

(** The message struct, with its tag first taken out and then put back last. *)
Lemma helper_of_message {Ext} ser (m : NoticeMessage Ext) :
  de_helper (ser_message ser m) =
  Ok (message_type m, [("datetime_iso"%string, VString (datetime_iso m)); ("extension"%string, ser (extension m))]).
Proof. simpl. by rewrite de_ser_message_type. Qed.
Lemma message_roundtrip {Ext} (F : Fields Ext) (m : NoticeMessage Ext) x :
  de_message F (VObject (map_insert "message_type" (ser_message_type (message_type m))
    [("datetime_iso"%string, VString (datetime_iso m)); ("extension"%string, x)])) =
  match decode_struct F x with Ok e => Ok (MkNotice Ext (datetime_iso m) e (message_type m)) | Err e => Err e | Panic => Panic end.
Proof.
  unfold de_message. rewrite decode_object_eq. simpl. unfold check_entry. simpl. unfold unit_of. simpl.
  destruct (decode_struct F x); simpl; [|done..]. by rewrite de_ser_message_type.
Qed.

(** C15: round trip of notices: every notice that carries the tag of its kind, as all
    notices built by [into_message] do, is read back as it was written, with two
    exceptions: a detected transition cannot be read at all (its input slot is
    not written, and it is required), and neither can a notice whose elapsed time
    is not finite (it is written as null, where a number is required). *)
Theorem notice_roundtrip msg : well_tagged msg →
  de_notice (ser_notice msg) =
  match msg with
  | FinalityTransitionDetected _ => Err (Custom (MissingField "input_slot"))
  | _ => if finite_times msg then Ok msg else Err (Custom (InvalidType "f64"))
  end.
Proof.
  destruct msg as [m|m|m|m|m|m|m]; simpl; intros Ht; unfold de_notice; rewrite helper_of_message, Ok_bind, Ht; cbv beta iota zeta;
    rewrite <-Ht, message_roundtrip.
  - rewrite started_roundtrip. by destruct m.
  - rewrite warning_roundtrip. by destruct m.
  - rewrite job_created_roundtrip. by destruct m.
  - rewrite job_succeeded_roundtrip. unfold if_finite. destruct (f64_finite _); [|done]. by destruct m.
  - rewrite job_failed_roundtrip. unfold if_finite. destruct (f64_finite _); [|done]. by destruct m.
  - by rewrite finality_transition_detected_lost.
  - rewrite advanced_roundtrip. by destruct m.
Qed.

(** ** Tags *)

Lemma de_message_tag {Ext} (F : Fields Ext) t other m :
  de_message F (VObject (map_insert "message_type" (ser_message_type t) other)) = Ok m → message_type m = t.
Proof.
  unfold de_message. intros [_ Hm]%decode_object. simpl in Hm.
  rewrite map_get_insert, de_ser_message_type in Hm.
  apply bind_Ok in Hm as (f & Hm & [= <-]). apply bind_Ok in Hm as (g & Hg & Hm).
  apply bind_Ok in Hm as (e & _ & [= <-]). apply fmap_Ok in Hg as (iso & _ & ->). done.
Qed.

(** C40: the tag determines the kind: a notice built from an extension carries the tag
    of its constructor, and so does every notice that the hand-written
    [Deserialize] accepts, whatever JSON value it is given. *)
Theorem notices_well_tagged :
  (∀ ext iso, well_tagged (into_message ext iso)) ∧
  (∀ v msg, de_notice v = Ok msg → well_tagged msg).
Proof.
  split; [by intros []|]. intros v msg. unfold de_notice. intros ([t other] & _ & Hm)%bind_Ok.
  destruct t; apply fmap_Ok in Hm as (m & Hm%map_err_Ok & ->); by apply de_message_tag in Hm.
Qed.
End Spec.
