(* ===== verification/Checkpoint.v ===== *)
(** * nori/src/bridge_head/checkpoint.rs, and restarting from a checkpoint

    The checkpoint file as bytes, its coders, and what a process finds that is
    started again after the running bridge head was stopped at any point. *)
From S2P Require Import Prelude Externals StorageLayout Types Merkle Instances MerkleSpec RequestLeaf Mpt StoreHash Consensus Detector Notice BridgeHead Observer System SystemSpec Json NoticeCodec.
Open Scope nori_scope.

(** [serde_json::to_string] and [serde_json::from_slice] between text and values. *)
Class JsonText `{HostRuntime} := {
  json_print : Value → list byte;
  json_parse : list byte → res serde_error Value
}.

Section Checkpoint.
Context `{SerdeParams} `{!JsonText}.

(** The file [NB_CHECKPOINT_FILE]: its contents when it exists. *)
Definition CheckpointFile : Type := option (list byte).

Definition ser_checkpoint (c : NoriBridgeCheckpoint) : Value :=
  VObject [("slot"%string, VUint (cp_slot c)); ("store_hash"%string, ser_fixed (cp_store_hash c));
           ("queue_cursor"%string, VUint (cp_queue_cursor c))].
(** The queue cursor has [#[serde(default)]]. *)
Definition checkpoint_fields : Fields NoriBridgeCheckpoint :=
  MkCheckpoint <$$> field "slot" de_u64 <**> field "store_hash" de_fixed
    <**> field_default "queue_cursor" de_u64 (to_uint 64 0).

Definition nb_checkpoint_exists (file : CheckpointFile) : bool :=
  match file with Some _ => true | None => false end.

Definition load_nb_checkpoint (file : CheckpointFile) : res anyhow NoriBridgeCheckpoint :=
  serialized_checkpoint ← unwrap file;
  match json_parse serialized_checkpoint ≫= decode_struct checkpoint_fields with
  | Ok nb_checkpoint => Ok nb_checkpoint
  | _ => Panic
  end.

(** The contents that [save_nb_checkpoint] writes. *)
Definition serialized_nb_checkpoint (c : NoriBridgeCheckpoint) : CheckpointFile := Some (json_print (ser_checkpoint c)).

(** [main]: the head to start from. *)
Definition main_head (file : CheckpointFile) (get_latest_finality_slot_and_store_hash : res anyhow (u64 * B256)) :
    res anyhow (u64 * B256 * u64) :=
  if nb_checkpoint_exists file then
    nb_checkpoint ← load_nb_checkpoint file;
    boot_head (Some nb_checkpoint) get_latest_finality_slot_and_store_hash
  else boot_head None get_latest_finality_slot_and_store_hash.

(** ** The file during a run *)

(** What the observer sends to the outside in the action [a]. *)
Definition observer_output (s : System) (a : action) : list ObserverMessage :=
  match a, sy_events s with
  | ObserverEvent, e :: _ => snd (fst (observer_step (λ _, true) (Some e) (sy_observer s)))
  | _, _ => []
  end.
Definition write_message (file : CheckpointFile) (m : ObserverMessage) : CheckpointFile :=
  match m with SaveCheckpoint c => serialized_nb_checkpoint c | _ => file end.
Definition write_messages (file : CheckpointFile) (ms : list ObserverMessage) : CheckpointFile :=
  foldl write_message file ms.

(** A run of the system with the checkpoint file beside it. *)
Inductive file_run (start : System) (file0 : CheckpointFile) : nat → System → CheckpointFile → Prop :=
| file_here : file_run start file0 0 start file0
| file_step n s file a s' : file_run start file0 n s file → sys_exec s a = Some s' →
    file_run start file0 (S n) s' (write_messages file (observer_output s a)).

Lemma file_run_run start file0 n s file : file_run start file0 n s file → sys_run start n s.
Proof. induction 1; [constructor|by eapply run_step]. Qed.

(** Where a schedule leads, with the file. *)
Definition file_schedule (acts : list action) (start : System) (file0 : CheckpointFile) : option (System * CheckpointFile) :=
  foldl (λ o a, '(s, file) ← o; s' ← sys_exec s a; Some (s', write_messages file (observer_output s a)))
    (Some (start, file0)) acts.
Lemma file_schedule_run acts start file0 s file :
  file_schedule acts start file0 = Some (s, file) → file_run start file0 (length acts) s file.
Proof.
  revert s file. induction acts as [|a acts IH] using rev_ind; intros s file; [intros [= <- <-]; constructor|].
  unfold file_schedule. rewrite foldl_app. simpl. destruct (foldl _ _ acts) as [[s1 file1]|] eqn:Hs1; [|done]. simpl.
  destruct (sys_exec s1 a) as [s2|] eqn:Hexec; [|done]. intros [= <- <-]. rewrite length_app, Nat.add_comm. simpl.
  eapply file_step; [by apply IH|done].
Qed.

Definition file_follows (acts : list action) (start : System) (file0 : CheckpointFile) : bool :=
  match file_schedule acts start file0 with Some _ => true | None => false end.
Definition file_after (acts : list action) (start : System) (file0 : CheckpointFile) : System * CheckpointFile :=
  default (start, file0) (file_schedule acts start file0).
Lemma file_after_run acts start file0 : file_follows acts start file0 = true →
  file_run start file0 (length acts) (fst (file_after acts start file0)) (snd (file_after acts start file0)).
Proof.
  unfold file_follows, file_after. intros Hf. apply file_schedule_run. by destruct (file_schedule _ _ _) as [[]|].
Qed.

(** The head the bridge will have once the advances queued for it are handled. *)
Definition head_of (b : BridgeHead) : u64 * B256 * u64 := (bh_current_slot b, bh_store_hash b, bh_queue_cursor b).
Definition apply_command (head : u64 * B256 * u64) (c : Command) : u64 * B256 * u64 :=
  match c with Advance m => (am_slot m, am_store_hash m, am_queue_cursor m) | StageTransitionProof _ => head end.
Definition pending_head (s : System) : u64 * B256 * u64 := foldl apply_command (head_of (sy_bridge s)) (sy_commands s).
End Checkpoint.

Section Restart.
Context `{SerdeLaws} `{!JsonText}.
(** The text of a value without floating point numbers is read back. *)
Context (checkpoint_text : ∀ c, json_parse (json_print (ser_checkpoint c)) = Ok (ser_checkpoint c)).

Lemma checkpoint_roundtrip c : load_nb_checkpoint (serialized_nb_checkpoint c) = Ok c.
Proof.
  unfold load_nb_checkpoint. simpl. rewrite checkpoint_text. destruct c. unfold decode_struct. simpl.
  unfold check_entry. simpl. unfold unit_of. simpl. by rewrite de_ser_fixed.
Qed.

(** The checkpoint on file is the pending head; until one is written it is the
    head of the start that is pending. *)
Definition file_inv (head0 : u64 * B256 * u64) (s : System) (file : CheckpointFile) : Prop :=
  match file with
  | Some _ => ∃ c, load_nb_checkpoint file = Ok c ∧ pending_head s = (cp_slot c, cp_store_hash c, cp_queue_cursor c)
  | None => pending_head s = head0
  end.

Lemma file_inv_frame head0 s s' file : file_inv head0 s file → pending_head s' = pending_head s → file_inv head0 s' file.
Proof. unfold file_inv. by intros ? ->. Qed.

Lemma pending_frame s s' : sy_bridge s' = sy_bridge s → sy_commands s' = sy_commands s → pending_head s' = pending_head s.
Proof. unfold pending_head. by intros -> ->. Qed.

Lemma file_inv_event head0 n s e es file s' : sys_inv n s → file_inv head0 s file → sy_events s = e :: es →
  run_observer (observer_step (λ _, true) (Some e)) (pop_events es s) = Some s' →
  file_inv head0 s' (write_messages file (observer_output s ObserverEvent)).
Proof.
  intros Hinv Hfile He. unfold run_observer, observer_output. rewrite He.
  change (sy_observer (pop_events es s)) with (sy_observer s).
  destruct (observer_step _ (Some e) (sy_observer s)) as [[o' ms] r] eqn:Hstep. destruct r as [[]| |]; [|done..].
  intros [= <-]. simpl.
  assert (pending_head (with_observer o' ms (pop_events es s)) = foldl apply_command (pending_head s) (commands_of ms)) as Hp
    by (unfold pending_head; simpl; by rewrite foldl_app).
  destruct e as [m|[m|m|m|m|m|m|m]]; rewrite ?observer_proof_eq, ?observer_transition_eq in Hstep.
  all: rewrite ?observer_failed_eq in Hstep by (apply (i_alone _ _ Hinv); rewrite He; left).
  2-8: eapply file_inv_frame; [|rewrite Hp]; destruct (sy_observer s) as [? ? ? ? f [wc|] [wn|]]; simpl in Hstep;
    try (destruct f); injection Hstep as <- <-; try done.
  assert (∃ ms', ms = saves m ++ ms' ∧
    (ms' = [] ∨ ∃ w, ms' = [SendCommand (StageTransitionProof w)])) as (ms' & -> & Hms').
  { clear Hp. cbv zeta in Hstep.
    destruct (ob_latest_next_window _) as [w|]; [case_decide|]; injection Hstep as _ <-;
      [by eexists; split; [|right; eexists]|exists []; rewrite app_nil_r; by auto..]. }
  set (c := MkCheckpoint (pm_output_slot m) (pm_output_store_hash m) (pm_output_queue_cursor m)).
  assert (write_messages file (saves m ++ ms') = serialized_nb_checkpoint c) as -> by (destruct Hms' as [->|[w ->]]; done).
  exists c. split; [apply checkpoint_roundtrip|]. rewrite Hp. destruct Hms' as [->|[w ->]]; done.
Qed.

Lemma file_inv_exec head0 n s a s' file : sys_inv n s → file_inv head0 s file → sys_exec s a = Some s' →
  file_inv head0 s' (write_messages file (observer_output s a)).
Proof.
  intros Hinv Hf. destruct a as [| | | |prepare| |now|now|i proof|i error|].
  11: { unfold sys_exec. destruct (sy_events s) as [|e es] eqn:He; [done|]. by eapply file_inv_event. }
  all: intros Hexec; apply (file_inv_frame head0 s); [done|]; revert Hexec; unfold sys_exec.
  - intros (Hb & _ & _ & _ & Hc & _)%detector_frame. by apply pending_frame.
  - destruct (sy_stages s); [done|]. intros (Hb & _ & _ & _ & Hc & _)%detector_frame. by apply pending_frame.
  - destruct (sy_advances s); [done|]. intros (Hb & _ & _ & _ & Hc & _)%detector_frame. by apply pending_frame.
  - destruct (sy_validation_results s); [done|]. intros (Hb & _ & _ & _ & Hc & _)%detector_frame. by apply pending_frame.
  - destruct (sy_validation_jobs s) as [|job jobs]; [done|]. destruct (validate_job prepare job); by intros [= <-].
  - destruct (sy_finality s); [done|]. unfold run_bridge. rewrite on_finality_eq. by intros [= <-].
  - destruct (sy_commands s) as [|[w|m] cs] eqn:Hc; [done|..]; unfold run_bridge, pending_head; rewrite Hc.
    + simpl. rewrite stage_eq by apply Hinv. by intros [= <-].
    + rewrite advance_eq. by intros [= <-].
  - destruct (sy_job_results s) as [|r rs] eqn:Hr; [done|].
    destruct (result_alone _ _ _ _ Hinv Hr) as (_ & _ & _ & (job & Hjob) & _). unfold run_bridge.
    destruct r as [o|err]; simpl in *.
    + rewrite (success_eq _ _ _ _ job) by done. destruct (ProofOutputs_from_bytes _); [|done..]. by intros [= <-].
    + rewrite (failure_eq _ _ _ job) by done. by intros [= <-].
  - destruct (sy_running s !! i) as [[[id h] inputs]|]; [|done]. by intros [= <-].
  - destruct (sy_running s !! i) as [[[id h] inputs]|]; [|done]. by intros [= <-].
Qed.

(** C7: restart: a process that was started from what [main] found and stopped at
    any point, between any two steps of its actors, is started again from
    exactly the head that the advances issued so far lead to; only when no
    proof has ended, and there was no checkpoint, is the start a cold one
    again, and then the head has not moved. *)
Theorem restart_resumes file0 latest0 slot h c latest inflight n s file latest1 :
  main_head file0 latest0 = Ok (slot, h, c) → Z.of_nat n < 2 ^ 64 →
  file_run (sys_start slot h c latest inflight) file0 n s file →
  if nb_checkpoint_exists file then main_head file latest1 = Ok (pending_head s)
  else file0 = None ∧ pending_head s = (slot, h, c).
Proof.
  intros Hboot Hn Hrun.
  assert (file_inv (slot, h, c) s file ∧ (file = None → file0 = None)) as [Hinv Hnone].
  { induction Hrun as [|n s file a s' Hrun IH Hexec].
    - split; [|done]. destruct file0 as [bytes|]; simpl; [|done]. unfold main_head in Hboot. simpl in Hboot.
      apply bind_Ok in Hboot as (cp & Hload & [= <- <- <-]). by exists cp.
    - destruct IH as [IH Hno]; [lia|]. split.
      + eapply file_inv_exec; [|done|done]. eapply sys_inv_run; [|by eapply file_run_run]. lia.
      + intros Hf. apply Hno. revert Hf. generalize (observer_output s a) as ms. clear. intros ms. revert file.
        induction ms as [|m ms IH] using rev_ind; [done|]. intros file. unfold write_messages. rewrite foldl_app. simpl.
        destruct m; simpl; try apply IH. done. }
  destruct file as [bytes|]; simpl; [|by split; [apply Hnone|]].
  destruct Hinv as (cp & Hload & ->). unfold main_head. simpl. by rewrite Hload.
Qed.
End Restart.
