(* ===== verification/SystemFresh.v ===== *)
(** * Freshness in the running bridge head

    The detector learns of the head through a queue of advances, the observer is
    ahead of the bridge head by a queue of commands.  What the detector knows,
    plus the advances on their way, is always the bridge head's own head; so a
    result that is emitted with no advance on its way was validated for the very
    head that the bridge proves from. *)
From S2P Require Import Prelude Externals StorageLayout Types Merkle Instances MerkleSpec RequestLeaf Mpt StoreHash Consensus Detector DetectorSpec Json Notice NoticeCodec BridgeHead Observer System SystemSpec SystemWindows SystemProgress Checkpoint.

#[local] Arguments uadd : simpl never.
#[local] Arguments to_uint : simpl never.
#[local] Arguments uint_Z : simpl never.

Section Fresh.
Context `{HeliosTypes} `{HostRuntime}.

(** The head that the detector validates from. *)
Definition known_head (d : Detector) : u64 * B256 * u64 := (slot d, store_hash d, queue_cursor d).
Definition apply_advance (_ : u64 * B256 * u64) (u : FinalityChangeDetectorUpdate) : u64 * B256 * u64 :=
  (fu_slot u, fu_store_hash u, fu_queue_cursor u).
(** The head it will have once the advances on their way have arrived. *)
Definition arriving_head (s : System) : u64 * B256 * u64 := foldl apply_advance (known_head (sy_detector s)) (sy_advances s).

(** A step of the detector other than an advance keeps the head it knows. *)
Lemma known_head_kept m s s' : run_detector m s = Some s' →
  (∀ d d' ms, m d = (d', ms, Ok ()) → known_head d' = known_head d) →
  arriving_head s' = arriving_head s ∧ sy_bridge s' = sy_bridge s.
Proof.
  intros (d & ms & He & ->)%run_detector_Some Hk. unfold arriving_head. simpl. split; [|done]. f_equal. by eapply Hk.
Qed.
Lemma on_stage_head u d d' ms : on_stage (Some u) d = (d', ms, Ok ()) → known_head d' = known_head d.
Proof. rewrite on_stage_eq. intros [= <- _]. by destruct (in_flight d). Qed.
Lemma on_tick_head d d' ms : on_tick (λ _, true) d = (d', ms, Ok ()) → known_head d' = known_head d.
Proof. rewrite on_tick_eq. by destruct (in_flight d); intros [= <- _]. Qed.
Lemma on_result_head r d d' ms : on_result (λ _, true) (Some r) d = (d', ms, Ok ()) → known_head d' = known_head d.
Proof.
  rewrite on_result_eq. destruct r; [by intros [= <- _]|]. destruct (stale d); [by intros [= <- _]|].
  by repeat case_decide; intros [= <- _].
Qed.

(** A step of the bridge head, with the advances it sends. *)
Lemma arriving_bridge m s0 s s' : run_bridge m s = Some s' → arriving_head s0 = head_of (sy_bridge s0) →
  sy_detector s = sy_detector s0 → sy_advances s = sy_advances s0 → sy_bridge s = sy_bridge s0 →
  (∀ b ms, m (sy_bridge s) = (b, ms, Ok ()) →
    head_of b = foldl apply_advance (head_of (sy_bridge s)) (omap (λ m, match m with AdvanceUpdate u => Some u | _ => None end) ms)) →
  arriving_head s' = head_of (sy_bridge s').
Proof.
  intros (b & ms & He & ->)%run_bridge_Some Hs Hd Ha Hb Hm. pose proof (Hm _ _ He) as Hb'. unfold arriving_head in *. simpl.
  rewrite Hb', Hd, Ha, foldl_app, Hs, Hb. done.
Qed.

Lemma arriving_exec n s a s' : sys_inv n s → arriving_head s = head_of (sy_bridge s) → sys_exec s a = Some s' →
  arriving_head s' = head_of (sy_bridge s').
Proof.
  intros Hinv Hs. unfold sys_exec. destruct a as [| | | |prepare| |now|now|i proof|i error|].
  - intros Hr. destruct (known_head_kept _ _ _ Hr) as [-> ->]; [apply on_tick_head|done].
  - destruct (sy_stages s) as [|u us]; [done|]. intros Hr.
    destruct (known_head_kept _ _ _ Hr) as [-> ->]; [apply on_stage_head|done].
  - destruct (sy_advances s) as [|u us] eqn:Hadv; [done|]. intros (d & ms & He & ->)%run_detector_Some.
    rewrite on_advance_eq in He. injection He as <- <-.
    unfold arriving_head in *. rewrite Hadv in Hs. exact Hs.
  - destruct (sy_validation_results s) as [|r rs]; [done|]. intros Hr.
    destruct (known_head_kept _ _ _ Hr) as [-> ->]; [apply on_result_head|done].
  - destruct (sy_validation_jobs s) as [|job jobs]; [done|]. destruct (validate_job prepare job); by intros [= <-].
  - destruct (sy_finality s) as [|f fs]; [done|]. intros Hr. apply (arriving_bridge _ s _ _ Hr); try done.
    intros b ms. rewrite on_finality_eq. by intros [= <- <-].
  - destruct (sy_commands s) as [|[w|m] cs]; [done|..]; intros Hr; apply (arriving_bridge _ s _ _ Hr); try done; intros b ms.
    + simpl. rewrite stage_eq by apply Hinv. by intros [= <- <-].
    + rewrite advance_eq. by intros [= <- <-].
  - destruct (sy_job_results s) as [|r rs] eqn:Hr; [done|]. intros Hrun. apply (arriving_bridge _ s _ _ Hrun); try done.
    intros b ms. destruct (result_alone _ _ _ _ Hinv Hr) as (_ & _ & _ & (job & Hjob) & _). destruct r as [out|err]; simpl in *.
    + rewrite (success_eq _ _ _ _ job) by done. destruct (ProofOutputs_from_bytes _); [|done..]. by intros [= <- <-].
    + rewrite (failure_eq _ _ _ job) by done. by intros [= <- <-].
  - destruct (sy_running s !! i) as [[[id h] inputs]|]; [|done]. by intros [= <-].
  - destruct (sy_running s !! i) as [[[id h] inputs]|]; [|done]. by intros [= <-].
  - destruct (sy_events s) as [|e es]; [done|]. by intros (o & ms & He & ->)%run_observer_Some.
Qed.
Lemma arriving_run slot h c latest inflight n s : Z.of_nat n < 2 ^ 64 → sys_run (sys_start slot h c latest inflight) n s →
  arriving_head s = head_of (sy_bridge s).
Proof.
  intros Hn Hrun. induction Hrun as [|n s a s' Hrun IH Hexec]; [done|].
  eapply arriving_exec; [|apply IH; lia|done]. eapply sys_inv_run; [|done]. lia.
Qed.

(** C19: freshness in the running system: whatever the actors did before, in
    whatever order, a result that the detector emits was validated for exactly
    the slot, store hash, cursor and staged output that the detector has at
    that moment; it starts at that slot, and both its windows end beyond
    everything reported since the head moved there.  What the detector knows
    is the bridge head's own head but for the advances on their way, so with
    none on its way the result is one for the head that the bridge proves from. *)
Theorem emission_fresh_in_system slot0 h c latest inflight n s a s' dual : Z.of_nat n < 2 ^ 64 →
  run_under lawful (sys_start slot0 h c latest inflight) n s → lawful s a → sys_exec s a = Some s' →
  sy_finality s' = sy_finality s ++ [dual] →
  let d := sy_detector s in let b := sy_bridge s in
  (∃ prepare, prepare_law prepare ∧ validate_job prepare (current_job d) = Ok dual) ∧
  input_slot (current_window dual) = slot d ∧
  slot d ≤ latest_slot d < expected_output_slot (current_window dual) ∧
  (∀ w, next_window dual = Some w → latest_slot d < expected_output_slot w ∧
    ∃ n, next_expected_output d = Some n ∧ input_slot w = fu_slot n) ∧
  foldl apply_advance (slot d, store_hash d, queue_cursor d) (sy_advances s)
    = (bh_current_slot b, bh_store_hash b, bh_queue_cursor b) ∧
  (sy_advances s = [] → current_job d = MkJobInput (bh_current_slot b) (bh_store_hash b) (bh_queue_cursor b) (filtered_next d)).
Proof.
  intros Hn Hrun Ha Hexec Hout d b.
  assert (∃ ds, ds_reachable (ds_init (detector_init slot0 h c inflight)) ds ∧ det_sim s ds) as (ds & Hds & Hsim)
    by by eapply detector_sim_run.
  destruct (det_sim_exec _ _ _ _ Hsim Ha Hexec) as (ds' & _ & [[_ Hlen]|(out & Hstep & Hf)]).
  { rewrite Hout, length_app in Hlen. simpl in Hlen. lia. }
  rewrite Hout in Hf. apply app_inv_head in Hf as <-.
  pose proof (detector_emission_fresh _ _ _ _ _ _ _ dual Hds Hstep (list_elem_of_here _ _)) as (Hp & Hs & Hl & Hnx).
  destruct Hsim as (Hd & _). fold d in Hd. rewrite <-Hd in *.
  pose proof (arriving_run _ _ _ _ _ _ _ Hn (run_under_run _ _ _ _ Hrun)) as Harr.
  split; [exact Hp|]. split; [exact Hs|]. split; [exact Hl|]. split; [exact Hnx|]. split; [exact Harr|]. intros Hnone. unfold arriving_head in Harr. rewrite Hnone in Harr. simpl in Harr.
  injection Harr as H1' H2' H3'. unfold current_job. fold d in H1', H2', H3'. fold b in H1', H2', H3'. by rewrite H1', H2', H3'.
Qed.
End Fresh.
