(* ===== verification/SystemFreshWitness.v ===== *)
(** * A concrete emission in the running system

    The schedule of SystemWitness up to the second emission of the detector, of
    the windows from 0 and from 32 with finality at 64. *)
From S2P Require Import Prelude Externals StorageLayout Types Merkle Instances MerkleSpec RequestLeaf Mpt MptSpec MptWitness StoreHash Consensus ConsensusSpec ConsensusWitness Detector DetectorSpec Notice BridgeHead Observer System SystemSpec SystemWitness SystemWindows SystemProgress SystemFresh.

Definition f_run : list action := take 11 w_prologue.
Definition f_state : System := sys_after f_run w_start.
Definition f_next : System := sys_after w_prologue w_start.
Definition f_dual : DualProofInputsWithWindow :=
  default (MkDual (w_window 0 64) None) (sy_finality f_next !! 0%nat).

Lemma f_lawful k a : f_run !! k = Some a → lawful (sys_after (take k f_run) w_start) a.
Proof.
  do 11 (destruct k as [|k]; [intros [= <-]; first [exact I|apply w_prepare_law]|]). done.
Qed.
Lemma f_state_run : run_under lawful w_start 11 f_state.
Proof. apply (under_schedule _ f_run); [vm_compute; reflexivity|exact f_lawful]. Qed.
Lemma f_exec : sys_exec f_state DetectorResult = Some f_next.
Proof.
  assert (follows (f_run ++ [DetectorResult]) w_start = true) as Hf by (vm_compute; reflexivity).
  assert (follows f_run w_start = true) as Hf' by (vm_compute; reflexivity).
  unfold f_state, f_next. change w_prologue with (f_run ++ [DetectorResult]). unfold follows, sys_after in *.
  rewrite sys_schedule_snoc in *. destruct (sys_schedule f_run w_start) as [s|]; [|discriminate Hf'].
  cbn [mbind option_bind default from_option id] in *. by destruct (sys_exec s DetectorResult).
Qed.
Lemma f_emits : sy_finality f_next = sy_finality f_state ++ [f_dual].
Proof.
  assert (length (sy_finality f_next) = 1%nat) as Hl by (vm_compute; reflexivity).
  assert (sy_finality f_state = []) as -> by (vm_compute; reflexivity).
  unfold f_dual. by destruct (sy_finality f_next) as [|x [|]].
Qed.

Lemma emission_fresh_in_system_witness :
  let d := sy_detector f_state in let b := sy_bridge f_state in
  (∃ prepare, prepare_law prepare ∧ validate_job prepare (current_job d) = Ok f_dual) ∧
  input_slot (current_window f_dual) = slot d ∧
  slot d ≤ latest_slot d < expected_output_slot (current_window f_dual) ∧
  (∀ w, next_window f_dual = Some w → latest_slot d < expected_output_slot w ∧
    ∃ n, next_expected_output d = Some n ∧ input_slot w = fu_slot n) ∧
  foldl apply_advance (slot d, store_hash d, queue_cursor d) (sy_advances f_state)
    = (bh_current_slot b, bh_store_hash b, bh_queue_cursor b) ∧
  (sy_advances f_state = [] →
    current_job d = MkJobInput (bh_current_slot b) (bh_store_hash b) (bh_queue_cursor b) (filtered_next d)).
Proof.
  exact (emission_fresh_in_system _ _ _ _ _ 11 f_state DetectorResult f_next f_dual eq_refl f_state_run I f_exec f_emits).
Defined.
