(* ===== verification/CodecWitness.v ===== *)
(** * Concrete coders, and runs with a checkpoint file

    Bytes as strings and checkpoints as fixed-width text, for the notices and the
    checkpoint file of the schedules of SystemWitness. *)
From Stdlib Require Import Strings.Byte.
From S2P Require Import Prelude Externals StorageLayout Types Merkle Instances MerkleSpec RequestLeaf Mpt MptSpec MptWitness StoreHash Consensus ConsensusSpec ConsensusWitness Detector Notice BridgeHead Observer System SystemSpec SystemWitness Json NoticeCodec NoticeCodecSpec Checkpoint.

Definition toy_de_fixed {n} (v : Value) : res serde_error (FixedBytes n) :=
  match v with
  | VString s =>
    match decide (length (String.list_byte_of_string s) = n) with
    | left Hl => Ok (MkFixed _ (bool_decide_pack _ Hl))
    | right _ => Err InvalidLength
    end
  | _ => Err (InvalidType "bytes")
  end.
Definition toy_ser_fixed {n} (b : FixedBytes n) : Value := VString (String.string_of_list_byte (fb_bytes b)).
Lemma toy_de_ser_fixed {n} (b : FixedBytes n) : toy_de_fixed (toy_ser_fixed b) = Ok b.
Proof.
  unfold toy_de_fixed, toy_ser_fixed. destruct (decide _) as [Hl|Hl].
  - f_equal. apply fb_eq. simpl. apply String.list_byte_of_string_of_list_byte.
  - destruct Hl. rewrite String.list_byte_of_string_of_list_byte. apply length_fb.
Qed.

#[global] Instance toy_f64 : F64Json := {| f64_finite _ := true; f64_of_Z _ := () |}.
#[global] Instance toy_serde : SerdeParams := {|
  ser_fixed n := toy_ser_fixed;
  de_fixed n := toy_de_fixed;
  ser_u256 x := toy_ser_fixed (fb_of_Z 32 x);
  de_u256 v := (λ b : B256, to_uint 256 (be_val (fb_bytes b))) <$> toy_de_fixed v;
  de_window _ := Err (InvalidType "window")
|}.
#[global] Instance toy_serde_laws : SerdeLaws.
Proof.
  split; [intros n b; apply toy_de_ser_fixed|]. intros x. unfold de_u256, ser_u256. cbn [toy_serde].
  rewrite toy_de_ser_fixed. simpl. f_equal.
  pose proof (uint_range x) as Hx. change (2 ^ Z.of_nat 256) with (256 ^ Z.of_nat 32) in Hx.
  rewrite be_val_be_bytes, Z.mod_small by done. apply to_uint_id.
Qed.

(** A notice of a finished job. *)
Definition w_notice : TransitionNoticeBridgeHeadMessage :=
  JobSucceeded (MkNotice _ "2025-01-01T00:00:00Z"
    (let z := to_uint 64 7 in let h := repeat_byte 32 x42 in
     MkJobSucceeded z z z h z z z h z h h h (repeat_byte 20 x11)
       [MkVerifiedRequest (repeat_byte 20 x01) (to_uint 8 2) (h, h) (to_uint 256 99)] (() : F64))
    BridgeHeadJobSucceeded).
Lemma notice_roundtrip_witness :
  de_notice (ser_notice w_notice) =
  match w_notice with
  | FinalityTransitionDetected _ => Err (Custom (MissingField "input_slot"))
  | _ => if finite_times w_notice then Ok w_notice else Err (Custom (InvalidType "f64"))
  end.
Proof. exact (notice_roundtrip w_notice eq_refl). Defined.

Definition w_warning : TransitionNoticeBridgeHeadMessage :=
  Warning (MkNotice _ "2025-01-01T00:00:00Z" (MkWarning "late") BridgeHeadWarning).
Lemma notices_well_tagged_witness : de_notice (ser_notice w_warning) = Ok w_warning ∧ well_tagged w_warning.
Proof.
  assert (de_notice (ser_notice w_warning) = Ok w_warning) as Hok by (vm_compute; reflexivity).
  exact (conj Hok (proj2 notices_well_tagged (ser_notice w_warning) w_warning Hok)).
Defined.

(** The text of a checkpoint: its numbers in eight bytes each, and the hash. *)
#[global] Instance toy_text : JsonText := {|
  json_print v :=
    match v with
    | VObject [(_, VUint s); (_, VString h); (_, VUint c)] => be_bytes 8 s ++ be_bytes 8 c ++ String.list_byte_of_string h
    | _ => []
    end;
  json_parse bs :=
    Ok (VObject [("slot"%string, VUint (to_uint 64 (be_val (take 8 bs))));
                 ("store_hash"%string, VString (String.string_of_list_byte (drop 16 bs)));
                 ("queue_cursor"%string, VUint (to_uint 64 (be_val (take 8 (drop 8 bs)))))])
|}.
Lemma be_u64 (n : u64) : to_uint 64 (be_val (be_bytes 8 n)) = n.
Proof.
  pose proof (uint_range n) as Hn. change (2 ^ Z.of_nat 64) with (256 ^ Z.of_nat 8) in Hn.
  rewrite be_val_be_bytes, Z.mod_small by done. apply to_uint_id.
Qed.
Lemma toy_checkpoint_text c : json_parse (json_print (ser_checkpoint c)) = Ok (ser_checkpoint c).
Proof.
  destruct c as [s h q]. unfold ser_checkpoint. cbn [json_print json_parse toy_text ser_fixed toy_serde toy_ser_fixed
    cp_slot cp_store_hash cp_queue_cursor]. unfold toy_ser_fixed.
  rewrite String.list_byte_of_string_of_list_byte.
  generalize (fb_bytes h) as bs. intros bs.
  assert (take 8 (be_bytes 8 s ++ be_bytes 8 q ++ bs) = be_bytes 8 s) as ->
    by (apply take_app_length'; by rewrite length_be_bytes).
  assert (drop 8 (be_bytes 8 s ++ be_bytes 8 q ++ bs) = be_bytes 8 q ++ bs) as ->
    by (apply drop_app_length'; by rewrite length_be_bytes).
  assert (take 8 (be_bytes 8 q ++ bs) = be_bytes 8 q) as -> by (apply take_app_length'; by rewrite length_be_bytes).
  assert (drop 16 (be_bytes 8 s ++ be_bytes 8 q ++ bs) = bs) as ->
    by (rewrite app_assoc; apply drop_app_length'; by rewrite length_app, !length_be_bytes).
  by rewrite !be_u64.
Qed.

Definition w_file0 : CheckpointFile := serialized_nb_checkpoint (MkCheckpoint (to_uint 64 0) (fb_zero 32) (to_uint 64 2)).
Lemma w_file_follows : file_follows w_retry w_start w_file0 = true.
Proof. vm_compute. reflexivity. Qed.
Definition w_file_end : System * CheckpointFile := file_after w_retry w_start w_file0.
Lemma w_file_run : file_run w_start w_file0 18 (fst w_file_end) (snd w_file_end).
Proof. exact (file_after_run w_retry w_start w_file0 w_file_follows). Qed.
Lemma restart_resumes_witness :
  if nb_checkpoint_exists (snd w_file_end) then main_head (snd w_file_end) (Err "offline"%string) = Ok (pending_head (fst w_file_end))
  else w_file0 = None ∧ pending_head (fst w_file_end) = (to_uint 64 0, fb_zero 32, to_uint 64 2).
Proof.
  assert (main_head w_file0 (Err "offline"%string) = Ok (to_uint 64 0, fb_zero 32, to_uint 64 2)) as Hb.
  { unfold w_file0, main_head. cbn [nb_checkpoint_exists serialized_nb_checkpoint].
    by rewrite (checkpoint_roundtrip toy_checkpoint_text). }
  exact (restart_resumes toy_checkpoint_text w_file0 (Err "offline"%string) _ _ _ (to_uint 64 0) None 18 _ _
    (Err "offline"%string) Hb eq_refl w_file_run).
Defined.
