(* ===== verification/DetectorWitness.v ===== *)
(** * Concrete steps of the finality change detector *)
From S2P Require Import Prelude Externals StorageLayout Types StoreHash Consensus Detector DetectorSpec ConsensusWitness SystemWitness.

Definition w_det : Detector := detector_init (to_uint 64 0) (fb_zero 32) (to_uint 64 2) None.
Definition w_dual : DualProofInputsWithWindow := MkDual (w_window 0 32) None.
Definition w_ticked : DetectorSystem := MkDS (set_in_flight true w_det) [current_job w_det] [].
Definition w_validated : DetectorSystem := MkDS (set_in_flight true w_det) [] [(current_job w_det, inr w_dual)].
Definition w_emitted : DetectorSystem := MkDS (set_latest_slot (to_uint 64 32) w_det) [] [].

(** The RPCs at 32; a window starts at the slot it was asked for. *)
Definition w_rpcs (s : u64) (_ : B256) (_ : u64) (_ : bool) : res anyhow ProofInputsWithWindow :=
  if decide (s = to_uint 64 0) then Ok (w_window 0 32) else Err "behind finality".
Lemma w_rpcs_law : prepare_law w_rpcs.
Proof. intros s h c v w. unfold w_rpcs. case_decide as Hs; [|done]. intros [= <-]. by rewrite Hs. Qed.

Lemma w_tick_step : ds_own_step (ds_init w_det) [] w_ticked.
Proof. exact (ds_tick w_det [] [] _ _ (on_tick_eq w_det)). Qed.
Lemma w_validate_step : ds_own_step w_ticked [] w_validated.
Proof. apply (ds_actor _ _ [] [] w_rpcs (inr w_dual)); [exact w_rpcs_law|reflexivity]. Qed.
Lemma w_emit_step : ds_own_step w_validated [w_dual] w_emitted.
Proof. apply (ds_result _ [] _ (inr w_dual) [] (ds_det w_emitted) [FinalityOutput w_dual]). reflexivity. Qed.
Lemma w_validated_reachable : ds_reachable (ds_init w_det) w_validated.
Proof.
  eapply ds_there; [eapply ds_there; [apply ds_here|]|].
  - apply ds_own, w_tick_step.
  - apply ds_own, w_validate_step.
Qed.

Lemma detector_single_flight_witness :
  (length (ds_jobs w_validated) + length (ds_results w_validated))%nat
  = (if in_flight (ds_det w_validated) then 1 else 0)%nat.
Proof. exact (detector_single_flight _ _ _ _ _ w_validated_reachable). Defined.

Lemma detector_emission_fresh_witness :
  (∃ prepare, prepare_law prepare ∧ validate_job prepare (current_job (ds_det w_validated)) = Ok w_dual) ∧
  input_slot (current_window w_dual) = slot (ds_det w_validated) ∧
  slot (ds_det w_validated) ≤ latest_slot (ds_det w_validated) < expected_output_slot (current_window w_dual) ∧
  (∀ w, next_window w_dual = Some w → latest_slot (ds_det w_validated) < expected_output_slot w ∧
    ∃ n, next_expected_output (ds_det w_validated) = Some n ∧ input_slot w = fu_slot n).
Proof.
  exact (detector_emission_fresh _ _ _ _ _ _ _ w_dual w_validated_reachable
    (ds_own _ _ _ w_emit_step) (proj2 (list_elem_of_singleton w_dual w_dual) eq_refl)).
Defined.

Lemma w_window_run : ds_window_run w_validated [w_dual] w_emitted.
Proof. exact (ds_run_step _ [] _ _ _ (ds_run_nil _) w_emit_step). Qed.
Lemma detector_emissions_increase_witness :
  latest_slot (ds_det w_validated) ≤ latest_slot (ds_det w_emitted) ∧
  Sorted.StronglySorted (λ a b, expected_output_slot (current_window a) < expected_output_slot (current_window b)) [w_dual] ∧
  Forall (λ a, latest_slot (ds_det w_validated) < expected_output_slot (current_window a)
               ≤ latest_slot (ds_det w_emitted)) [w_dual].
Proof. exact (detector_emissions_increase _ _ _ w_window_run). Defined.

(** Finality moved to 64 for the current window while the next one still ends at 32. *)
Definition w_stuck : DualProofInputsWithWindow := MkDual (w_window 0 64) (Some (w_window 32 32)).
Lemma detector_swallows_progress_witness :
  ∃ d', on_result (λ _, true) (Some (inr w_stuck)) (ds_det w_emitted) = (d', [], Ok ()) ∧
    slot d' = slot (ds_det w_emitted) ∧
    ∀ dual', expected_output_slot (current_window dual') ≤ expected_output_slot (current_window w_stuck) →
      outputs_of (snd (fst (on_result (λ _, true) (Some (inr dual')) d'))) = [].
Proof. apply (detector_swallows_progress _ _ (w_window 32 32)); (reflexivity || (vm_compute; congruence)). Defined.

Lemma detector_stale_survives_error_witness :
  ∃ d1 d2 d3, on_result (λ _, true) (Some (inl "RPC error"%string)) (set_stale true w_det) = (d1, [], Ok ()) ∧
    on_tick (λ _, true) d1 = (d2, [ValidationJob (current_job (set_stale true w_det))], Ok ()) ∧
    on_result (λ _, true) (Some (inr w_dual)) d2 = (d3, [ValidationJob (current_job (set_stale true w_det))], Ok ()).
Proof. exact (detector_stale_survives_error (set_stale true w_det) _ w_dual eq_refl). Defined.
