(* ===== verification/Rpc.v ===== *)
(** * nori/src/rpcs/mod.rs: several providers for one query

    Every query to a provider is a future with a deadline.  Its outcome is
    [None] when the deadline passes first, and otherwise what it returned.  The
    futures run concurrently, so the order in which they complete is a
    parameter. *)
From S2P Require Import Prelude.

(** [anyhow::Error], by its message. *)
Abbreviation outcome R := (option (res string R)).

(** [futures::future::select_ok]: the first success in the order of completion,
    otherwise the last error; it asserts that there is a future. *)
Fixpoint select_ok {R} (completed : list (res string R)) : res string R :=
  match completed with
  | [] => Panic
  | Ok r :: _ => Ok r
  | Panic :: _ => Panic
  | [Err e] => Err e
  | Err _ :: completed => select_ok completed
  end.

Section Rpc.
  (** The [Debug] text of the time limit. *)
  Context (timeout_duration : string).

(** [timeout(d, fut).await.map_err(..)?] *)
Definition within_timeout {R} (o : outcome R) : res string R :=
  match o with
  | Some r => r
  | None => Err ("Provider timed out after " +:+ timeout_duration)
  end.

(** [f] gives each provider's outcome; [finish] lists the providers in the order
    in which their futures complete. *)
Definition query_with_fallback {P R} (f : P → outcome R) (principal_provider : P) (backup_providers finish : list P)
    : res string R :=
  match f principal_provider with
  | Some (Ok result) => Ok result
  | Some Panic => Panic
  | Some (Err _) | None =>
    match backup_providers with
    | [] => Err "Principal provider failed and no backups available."%string
    | _ :: _ =>
      match select_ok ((λ p, within_timeout (f p)) <$> finish) with
      | Ok result => Ok result
      | Err e => Err ("All backups failed: " +:+ e)%string
      | Panic => Panic
      end
    end
  end.

Definition multiplex {P R} (f : P → outcome R) (providers finish : list P) : res string R :=
  match providers with
  | [] => Err "No providers available."%string
  | _ :: _ =>
    match select_ok ((λ p, within_timeout (f p)) <$> finish) with
    | Ok result => Ok result
    | Err e => Err ("All multiplexed requests failed: " +:+ e)%string
    | Panic => Panic
    end
  end.
End Rpc.

(** ** What a query with several providers returns *)

(** No provider's future panics. *)
Definition no_panics {P R} (f : P → outcome R) (ps : list P) : Prop := ∀ p, p ∈ ps → f p ≠ Some Panic.

Lemma select_ok_Ok {R} (l : list (res string R)) r : select_ok l = Ok r → Ok r ∈ l.
Proof.
  induction l as [|[a|e|] l IH]; simpl; [done| |destruct l; [done|]|done].
  - intros [= ->]. by left.
  - intros Hs. right. by apply IH.
Qed.
Lemma select_ok_total {R} (l : list (res string R)) : l ≠ [] → Panic ∉ l →
  (∃ r, select_ok l = Ok r) ∨ (∃ e, select_ok l = Err e ∧ ∀ r, Ok r ∉ l).
Proof.
  induction l as [|[a|e|] l IH]; simpl; intros Hne Hp; [done|left; by eexists| |by destruct Hp; left].
  destruct l as [|x l]; [right; exists e; split; [done|]; set_solver|].
  destruct IH as [[r Hr]|(e' & He & Hno)]; [done|set_solver|left; by exists r|right; exists e'].
  split; [done|]. intros r [?|?]%elem_of_cons; [done|by eapply Hno].
Qed.

(** What a future that gives no answer ends in: an error, or its deadline. *)
Definition failed {R} (o : outcome R) : Prop := match o with None | Some (Err _) => True | _ => False end.
Definition is_err {R} (r : res string R) : Prop := match r with Err _ => True | _ => False end.

(** The first future to complete without an error decides. *)
Lemma select_ok_first {R} (l : list (res string R)) : l ≠ [] →
  match select_ok l with
  | Err _ => Forall is_err l
  | r => ∃ l1 l2, l = l1 ++ r :: l2 ∧ Forall is_err l1
  end.
Proof.
  induction l as [|[a|e|] l IH]; intros Hne; [done|by exists [], l| |by exists [], l].
  cbn [select_ok]. destruct l as [|x l]; [by repeat constructor|]. specialize (IH ltac:(done)).
  destruct (select_ok (x :: l)) as [r|e'|]; [|by constructor|]; destruct IH as (l1 & l2 & -> & Hl1);
    exists (Err e :: l1), l2; (split; [done|by constructor]).
Qed.

Section Laws.
  Context {P R : Type} (t : string) (f : P → outcome R).

Lemma within_timeout_Ok p r : within_timeout t (f p) = Ok r ↔ f p = Some (Ok r).
Proof. unfold within_timeout. destruct (f p); naive_solver. Qed.
Lemma selected (ps finish : list P) : finish ≡ₚ ps → ps ≠ [] → no_panics f ps →
  match select_ok ((λ p, within_timeout t (f p)) <$> finish) with
  | Ok r => ∃ p, p ∈ ps ∧ f p = Some (Ok r)
  | Err _ => ∀ p r, p ∈ ps → f p ≠ Some (Ok r)
  | Panic => False
  end.
Proof.
  intros Hperm Hne Hnp.
  destruct (select_ok_total ((λ p, within_timeout t (f p)) <$> finish)) as [[r Hr]|(e & He & Hno)].
  - intros Hnil%fmap_nil_inv. subst. by apply Permutation_nil_l in Hperm.
  - intros (p & Hp & Hin)%list_elem_of_fmap. apply (Hnp p); [by rewrite <-Hperm|].
    unfold within_timeout in Hp. destruct (f p); congruence.
  - rewrite Hr. apply select_ok_Ok, list_elem_of_fmap in Hr as (p & Hp & Hin). exists p.
    rewrite <-Hperm. split; [done|]. by apply within_timeout_Ok.
  - rewrite He. intros p r Hp Hf. apply (Hno r), list_elem_of_fmap. exists p. rewrite Hperm.
    split; [|done]. symmetry. by apply within_timeout_Ok.
Qed.

Lemma query_with_fallback_sound principal backups finish r : finish ≡ₚ backups →
  query_with_fallback t f principal backups finish = Ok r →
  ∃ p, p ∈ principal :: backups ∧ f p = Some (Ok r).
Proof.
  intros Hperm. unfold query_with_fallback. destruct (f principal) as [[a|e|]|] eqn:Hf; try done.
  1: intros [= ->]; exists principal; split; [by left|done].
  all: destruct backups as [|b bs]; [done|]; destruct (select_ok _) eqn:Hs; intros [= ->].
  all: apply select_ok_Ok, list_elem_of_fmap in Hs as (p & Hp & Hin); exists p; rewrite Hperm in Hin.
  all: split; [by right|by apply within_timeout_Ok].
Qed.

(** The same of the outcomes of the providers, in the order in which they complete. *)
Lemma selected_first (finish : list P) : finish ≠ [] →
  match select_ok ((λ p, within_timeout t (f p)) <$> finish) with
  | Err _ => ∀ p, p ∈ finish → failed (f p)
  | r => ∃ before p after, finish = before ++ p :: after ∧ f p = Some r ∧ ∀ q, q ∈ before → failed (f q)
  end.
Proof.
  intros Hne. assert (∀ p, is_err (within_timeout t (f p)) → failed (f p)) as Herr.
  { intros p. unfold within_timeout. by destruct (f p) as [[]|]. }
  assert (∀ l, Forall is_err ((λ p, within_timeout t (f p)) <$> l) → ∀ q, q ∈ l → failed (f q)) as Hall.
  { intros l Hl q Hq. apply Herr. rewrite Forall_fmap, Forall_elem in Hl. by apply Hl. }
  assert (∀ r l1 l2, (∀ e, r ≠ Err e) → (λ p, within_timeout t (f p)) <$> finish = l1 ++ r :: l2 → Forall is_err l1 →
    ∃ before p after, finish = before ++ p :: after ∧ f p = Some r ∧ ∀ q, q ∈ before → failed (f q)) as Hsplit.
  { intros r l1 l2 Hr (before & rest & -> & Hrest & ->)%fmap_app_inv Hl1.
    symmetry in Hrest. apply fmap_cons_inv in Hrest as (p & after & Hp & -> & ->).
    exists before, p, after. split_and!; [done| |by apply Hall].
    unfold within_timeout in Hp. destruct (f p) as [o|]; [by subst|]. by edestruct Hr. }
  pose proof (select_ok_first ((λ p, within_timeout t (f p)) <$> finish)) as Hs.
  destruct (select_ok _) as [r|e|].
  - destruct Hs as (l1 & l2 & Heq & Hl1); [by intros Hnil%fmap_nil_inv|]. by eapply Hsplit; [|exact Heq|exact Hl1].
  - apply Hall, Hs. by intros Hnil%fmap_nil_inv.
  - destruct Hs as (l1 & l2 & Heq & Hl1); [by intros Hnil%fmap_nil_inv|]. by eapply Hsplit; [|exact Heq|exact Hl1].
Qed.

(** C38: what a query with fallback returns, whatever the providers do and in whatever
    order the backups complete.  It answers with the principal's answer; or, when the
    principal fails or is late, with that of the first backup to complete with one,
    all before it having failed or being late.  It is an error exactly when all
    providers fail or are late.  And it panics, without an answer from a backup
    that might still give one, when the principal panics, or when the principal fails
    and a backup panics before any has answered. *)
Theorem query_with_fallback_answers principal backups finish : finish ≡ₚ backups →
  match query_with_fallback t f principal backups finish with
  | Err _ => ∀ p, p ∈ principal :: backups → failed (f p)
  | r => f principal = Some r ∨
         failed (f principal) ∧ ∃ before p after, finish = before ++ p :: after ∧ f p = Some r ∧
           ∀ q, q ∈ before → failed (f q)
  end.
Proof.
  intros Hperm. unfold query_with_fallback.
  assert (backups ≠ [] → finish ≠ []) as Hne by (intros Hb ->; by apply Permutation_nil_l in Hperm).
  assert (failed (f principal) → match
      match backups with
      | [] => Err "Principal provider failed and no backups available."%string
      | _ :: _ =>
        match select_ok ((λ p, within_timeout t (f p)) <$> finish) with
        | Ok result => Ok result
        | Err e => Err ("All backups failed: " +:+ e)%string
        | Panic => Panic
        end
      end with
    | Err _ => ∀ p, p ∈ principal :: backups → failed (f p)
    | r => f principal = Some r ∨
           failed (f principal) ∧ ∃ before p after, finish = before ++ p :: after ∧ f p = Some r ∧
             ∀ q, q ∈ before → failed (f q)
    end) as Hfail.
  { intros Hf. destruct backups as [|b bs]; [by intros p ->%list_elem_of_singleton|].
    pose proof (selected_first finish (Hne ltac:(done))) as Hs. destruct (select_ok _); [by right| |by right].
    intros p [->|Hin]%elem_of_cons; [done|]. apply Hs. by rewrite Hperm. }
  destruct (f principal) as [[a|e|]|] eqn:Hf; [by left|by apply Hfail|by left|by apply Hfail].
Qed.

(** A multiplexed query answers exactly when some provider does in time. *)
Lemma multiplex_answers providers finish : finish ≡ₚ providers → no_panics f providers →
  match multiplex t f providers finish with
  | Ok r => ∃ p, p ∈ providers ∧ f p = Some (Ok r)
  | Err _ => ∀ p r, p ∈ providers → f p ≠ Some (Ok r)
  | Panic => False
  end.
Proof.
  intros Hperm Hnp. unfold multiplex. destruct providers as [|b bs]; [intros p r Hin; by apply elem_of_nil in Hin|].
  pose proof (selected (b :: bs) finish Hperm ltac:(done) Hnp) as Hs. by destruct (select_ok _).
Qed.
End Laws.

(** Four providers: the principal is late, one backup fails, one panics. *)
Definition q_outcome (p : nat) : outcome nat :=
  match p with 0%nat => None | 1%nat => Some (Err "refused"%string) | 2%nat => Some (Ok 7%nat) | _ => Some Panic end.
(** The panic decides or not by the order in which the backups complete. *)
Lemma query_with_fallback_answers_witness :
  (query_with_fallback "20s" q_outcome 0%nat [1; 2; 3]%nat [1; 2; 3]%nat = Ok 7%nat ∧
   ∃ before p after, [1; 2; 3]%nat = before ++ p :: after ∧ q_outcome p = Some (Ok 7%nat) ∧
     ∀ q, q ∈ before → failed (q_outcome q)) ∧
  (query_with_fallback "20s" q_outcome 0%nat [1; 2; 3]%nat [1; 3; 2]%nat = Panic ∧
   ∃ before p after, [1; 3; 2]%nat = before ++ p :: after ∧ q_outcome p = Some Panic ∧
     ∀ q, q ∈ before → failed (q_outcome q)).
Proof.
  split; (split; [reflexivity|]).
  - destruct (query_with_fallback_answers "20s" q_outcome 0%nat [1; 2; 3]%nat [1; 2; 3]%nat) as [Hf|[_ Hb]];
      [reflexivity|discriminate Hf|exact Hb].
  - destruct (query_with_fallback_answers "20s" q_outcome 0%nat [1; 2; 3]%nat [1; 3; 2]%nat) as [Hf|[_ Hb]];
      [apply perm_skip, perm_swap|discriminate Hf|exact Hb].
Defined.
Lemma multiplex_answers_witness :
  match multiplex "20s" q_outcome [0; 1; 2]%nat [1; 0; 2]%nat with
  | Ok r => ∃ p, p ∈ [0; 1; 2]%nat ∧ q_outcome p = Some (Ok r)
  | Err _ => ∀ p r, p ∈ [0; 1; 2]%nat → q_outcome p ≠ Some (Ok r)
  | Panic => False
  end.
Proof.
  apply (multiplex_answers "20s" q_outcome [0; 1; 2]%nat [1; 0; 2]%nat).
  - apply perm_swap.
  - intros p Hp. by repeat (apply elem_of_cons in Hp as [->|Hp]; [done|]); apply elem_of_nil in Hp.
Defined.
