(* ===== verification/ExecutionRpc.v ===== *)
(** * nori/src/rpcs/execution/http.rs: the queue witness from an execution node

    The host reads the queue head, the entries and the targets from an Ethereum
    node and assembles the witness that the guest verifies.  A provider is a
    pair of calls that may fail and may answer differently each time; what the
    host waits between attempts is recorded. *)
From S2P Require Import Prelude Externals StorageLayout Types Merkle RequestLeaf Mpt StoreHash Consensus Rpc.

(** [alloy::rpc::types::EIP1186StorageProof], the key as [slot.key.as_b256()] *)
Record EIP1186StorageProof := MkStorageProof { sp_key : B256; sp_value : U256; sp_proof : list Bytes }.
(** [EIP1186AccountProofResponse] *)
Record EIP1186AccountProofResponse := MkAccountProof {
  ap_address : Address;
  ap_balance : U256;
  ap_code_hash : B256;
  ap_nonce : u64;
  ap_storage_hash : B256;
  ap_account_proof : list Bytes;
  ap_storage_proof : list EIP1186StorageProof
}.

(** [RootProvider<Ethereum>]: the two calls at a block; an error by its message.
    [World] is what the answers depend on. *)
Record RootProvider (World : Type) := MkProvider {
  rpc_get_proof : Address → list B256 → u64 → World → World * (EIP1186AccountProofResponse + string);
  rpc_get_storage_at : Address → B256 → u64 → World → World * (U256 + string)
}.
Arguments rpc_get_proof {World}.
Arguments rpc_get_storage_at {World}.

(** An asynchronous computation; the messages are the seconds it sleeps. *)
Abbreviation rpc World := (eff World Z string).

(** A call to the provider. *)
Definition rpc_call {World A} (m : World → World * (A + string)) : rpc World (A + string) :=
  λ w, let '(w', r) := m w in (w', [], Ok r).

Definition MAX_RETRIES : nat := 3.
(** In seconds. *)
Definition RETRY_BASE_DELAY : Z := 1.

Section ExecutionHttp.
  Context {World : Type}.

(** One chunk's loop, with [left] retries to go: [retries = MAX_RETRIES - left]. *)
Fixpoint get_proof_retrying (provider : RootProvider World) (address : Address) (chunk : list B256) (block_id : u64)
    (left : nat) : rpc World EIP1186AccountProofResponse :=
  answer ← rpc_call (rpc_get_proof provider address chunk block_id);
  match answer, left with
  | inl proof, _ => mret proof
  | inr e, S left' =>
    let retries := (MAX_RETRIES - left)%nat in
    _ ← send (λ _, true) ""%string (RETRY_BASE_DELAY * 2 ^ Z.of_nat retries);
    get_proof_retrying provider address chunk block_id left'
  | inr e, O => lift (Err ("ExecutionHttp RPC error: " +:+ e))
  end.

(** [acc.storage_proof.extend(proof.storage_proof)] *)
Definition extend_proof (acc proof : EIP1186AccountProofResponse) : EIP1186AccountProofResponse :=
  MkAccountProof (ap_address acc) (ap_balance acc) (ap_code_hash acc) (ap_nonce acc) (ap_storage_hash acc)
    (ap_account_proof acc) (ap_storage_proof acc ++ ap_storage_proof proof).

Fixpoint get_chunks (provider : RootProvider World) (address : Address) (chunks : list (list B256)) (block_id : u64)
    (merged : option EIP1186AccountProofResponse) : rpc World (option EIP1186AccountProofResponse) :=
  match chunks with
  | [] => mret merged
  | chunk :: chunks =>
    proof ← get_proof_retrying provider address chunk block_id MAX_RETRIES;
    get_chunks provider address chunks block_id
      (Some match merged with None => proof | Some acc => extend_proof acc proof end)
  end.

(** The requests that a key list is split into. *)
Definition key_chunks (storage_keys : list B256) (chunk_limit : nat) : list (list B256) :=
  let chunk_limit := Nat.max chunk_limit 1 in
  match storage_keys with [] => [[]] | _ => chunks chunk_limit storage_keys end.

Definition _get_proof (provider : RootProvider World) (address : Address) (storage_keys : list B256) (block_id : u64)
    (chunk_limit : nat) : rpc World EIP1186AccountProofResponse :=
  merged ← get_chunks provider address (key_chunks storage_keys chunk_limit) block_id None;
  lift (unwrap merged).

Definition _get_storage_word (provider : RootProvider World) (address : Address) (key : B256) (block : u64)
    : rpc World U256 :=
  answer ← rpc_call (rpc_get_storage_at provider address key block);
  match answer with
  | inl word => mret word
  | inr e => lift (Err ("ExecutionHttp RPC error reading storage: " +:+ e))
  end.

Context `{Keccak}.

Definition _get_queue_head (provider : RootProvider World) (proof_queue_address : Address) (block : u64)
    : rpc World u64 :=
  let head_key := storage_slot_of_index QUEUE_HEAD_STORAGE_INDEX in
  word ← _get_storage_word provider proof_queue_address head_key block;
  if decide (uint_Z word < 2 ^ 64) then mret (ucast 64 word) else lift (Err "Queue head exceeds u64"%string).

Context `{AlloyTrie} `{PoseidonSponge} `{DebugFmt}.

(** The account fields of a response. *)
Definition claimed_account (proof : EIP1186AccountProofResponse) : TrieAccount :=
  MkTrieAccount (ap_nonce proof) (ap_balance proof) (ap_storage_hash proof) (ap_code_hash proof).

Definition _account_witness (proof : EIP1186AccountProofResponse) (execution_state_root : B256)
    : res string (option TrieAccount) :=
  let account := claimed_account proof in
  let address_nibbles := nibbles_unpack (keccak256 (fb_bytes (ap_address proof))) in
  match verify_proof execution_state_root address_nibbles (Some (account_encode account)) (ap_account_proof proof) with
  | inl _ => Ok (Some account)
  | inr _ =>
    match verify_proof execution_state_root address_nibbles None (ap_account_proof proof) with
    | inl _ => Ok None
    | inr e => Err ("Account proof for " +:+ debug_address (ap_address proof)
                    +:+ " verifies neither as present nor absent: " +:+ pve_to_string e)
    end
  end.

(** ** Assembly of the witness *)

(** [response.storage_proof.iter().map(..).collect::<HashMap<..>>()] *)
Definition words_of (proof : EIP1186AccountProofResponse) : gmap B256 (U256 * list Bytes) :=
  foldl (λ m slot, <[sp_key slot := (sp_value slot, sp_proof slot)]> m) ∅ (ap_storage_proof proof).
Definition word_at (message : string) (words : gmap B256 (U256 * list Bytes)) (key : B256)
    : res string (U256 * list Bytes) :=
  ok_or (words !! key) (message +:+ debug_b256 key).

(** The [QUEUE_ENTRY_WORDS] keys of the entry at an offset of the batch. *)
Definition entry_keys (input_queue_cursor : u64) (offset : nat) : list B256 :=
  let base := mapping_entry_location (ucast 256 (uadd input_queue_cursor (to_uint 64 (Z.of_nat offset))))
                QUEUE_REQUESTS_STORAGE_INDEX in
  base :: ((λ word_index, struct_word_slot base (to_uint 8 (Z.of_nat word_index))) <$> seq 1 (QUEUE_ENTRY_WORDS - 1)).

(** [words[0].0.to_be_bytes::<32>()[12..32]] and the whole 32 bytes. *)
Definition address_of_word (word : U256) : Address := fb_of_Z 20 (uint_Z word `mod` 2 ^ 160).
Definition b256_of_word (word : U256) : B256 := fb_of_Z 32 (uint_Z word).

(** One entry from its five words; [.to::<u8>()] panics when the word is larger. *)
Definition entry_of_words (words : list (U256 * list Bytes)) : res string QueueEntryProof :=
  match words with
  | [(w0, p0); (w1, p1); (w2, p2); (w3, p3); (w4, p4)] =>
    if decide (uint_Z w2 < 2 ^ 8) then
      Ok (MkQueueEntryProof (address_of_word w0) (b256_of_word w1) (ucast 8 w2)
            (b256_of_word w3, b256_of_word w4) [# p0; p1; p2; p3; p4])
    else Panic
  | _ => Err "Expected 5 word proofs"%string
  end.

(** [slots_by_target.entry(target).or_default()], then push unless contained. *)
Definition note_slot (slots_by_target : gmap Address (list B256)) (entry : QueueEntryProof) : gmap Address (list B256) :=
  let target_slots := default [] (slots_by_target !! qe_target entry) in
  <[qe_target entry :=
      if decide (qe_slot_key entry ∈ target_slots) then target_slots else target_slots ++ [qe_slot_key entry]]>
    slots_by_target.

Definition read_entry (queue_words : gmap B256 (U256 * list Bytes)) (input_queue_cursor : u64) (offset : nat)
    : res string QueueEntryProof :=
  words ← try_map (word_at "Queue proof missing storage key " queue_words) (entry_keys input_queue_cursor offset);
  entry_of_words words.

(** One target: its proof, its account, and the slots in the order of their keys. *)
Definition target_proof (provider : RootProvider World) (block : u64) (output_execution_state_root : B256) (chunk_limit : nat)
    (target : Address * list B256) : rpc World TargetStorageProof :=
  let '(address, slot_keys) := target in
  target_proof ← _get_proof provider address slot_keys block chunk_limit;
  account ← lift (_account_witness target_proof output_execution_state_root);
  let proved := words_of target_proof in
  slots ← lift (try_map (λ key,
    '(value, mpt_proof) ← word_at "Target proof missing storage key " proved key;
    Ok (MkTargetSlotProof key value mpt_proof)) slot_keys);
  mret (MkTargetStorageProof address account (ap_account_proof target_proof) slots).

Fixpoint target_proofs (provider : RootProvider World) (block : u64) (output_execution_state_root : B256) (chunk_limit : nat)
    (targets : list (Address * list B256)) : rpc World (list TargetStorageProof) :=
  match targets with
  | [] => mret []
  | target :: targets =>
    t ← target_proof provider block output_execution_state_root chunk_limit target;
    ts ← target_proofs provider block output_execution_state_root chunk_limit targets;
    mret (t :: ts)
  end.

(** The order in which a [HashMap] is iterated. *)
Context (iteration : gmap Address (list B256) → list (Address * list B256)).

(** Steps 1 to 5: everything up to the assembled [QueueStorage]. *)
Definition prepare_queue_storage (provider : RootProvider World) (proof_queue_address : Address)
    (input_queue_cursor output_block_number : u64) (output_execution_state_root : B256) (chunk_limit : nat)
    : rpc World QueueStorage :=
  let block := output_block_number in
  let queue_head_key := storage_slot_of_index QUEUE_HEAD_STORAGE_INDEX in
  queue_head ← _get_queue_head provider proof_queue_address block;
  if decide (uint_Z queue_head < uint_Z input_queue_cursor) then
    lift (Err ("Request cursor " +:+ pretty.pretty (uint_Z input_queue_cursor) +:+ " is ahead of queue head "
               +:+ pretty.pretty (uint_Z queue_head)))
  else
    let batch := Z.to_nat (uint_Z (batch_size input_queue_cursor queue_head)) in
    let entry_word_keys := mjoin (entry_keys input_queue_cursor <$> seq 0 batch) in
    queue_proof ← _get_proof provider proof_queue_address (queue_head_key :: entry_word_keys) block chunk_limit;
    let queue_words := words_of queue_proof in
    entries ← lift (try_map (read_entry queue_words input_queue_cursor) (seq 0 batch));
    let slots_by_target := foldl note_slot ∅ entries in
    targets ← target_proofs provider block output_execution_state_root chunk_limit (iteration slots_by_target);
    '(_, head_mpt_proof) ← lift (word_at "Queue proof missing storage key " queue_words queue_head_key);
    mret (MkQueueStorage (ap_address queue_proof) (claimed_account queue_proof) (ap_account_proof queue_proof)
            queue_head head_mpt_proof input_queue_cursor entries targets).

Context `{HeliosCore} `{!RmpSerde} `{Sha256}.

(** The dry run in a blocking task: a panic of the program is a join error. *)
Definition dry_run (join_error : string) (inputs : ProofInputs) : res string () :=
  match consensus_mpt_program inputs with
  | Ok _ => Ok ()
  | Err e => Err (program_error_fmt e)
  | Panic => Err join_error
  end.

Definition _prepare_consensus_mpt_proof_inputs (join_error : string) (provider : RootProvider World)
    (proof_queue_address : Address) (input_queue_cursor output_block_number : u64)
    (validated_consensus_proof_inputs : ConsensusProofInputs) (output_execution_state_root : B256) (chunk_limit : nat)
    : rpc World ProofInputs :=
  queue_storage ← prepare_queue_storage provider proof_queue_address input_queue_cursor output_block_number
    output_execution_state_root chunk_limit;
  let v := validated_consensus_proof_inputs in
  let inputs := MkProofInputs (cpi_updates v) (cpi_finality_update v) (cpi_expected_current_slot v) (cpi_store v)
                  (cpi_genesis_root v) (cpi_forks v) (cpi_store_hash v) queue_storage in
  _ ← lift (dry_run join_error inputs);
  mret inputs.

(** [ExecutionHttpProxy]; the time limit by its [Debug] text. *)
Record ExecutionHttpProxy := MkExecutionHttpProxy {
  principal_provider : RootProvider World;
  backup_providers : list (RootProvider World);
  proof_queue_address' : Address;
  validation_timeout : string;
  chunk_limit' : nat
}.

(** [EXECUTION_PROVIDER_TIMEOUT], by its [Debug] text. *)
Definition EXECUTION_PROVIDER_TIMEOUT : string := "20s".

(** [world p] is what [p] sees during its attempt, [late p] whether the deadline
    passes first, and [finish] the order in which the backups complete. *)
Definition get_queue_head (proxy : ExecutionHttpProxy) (world : RootProvider World → World) (late : RootProvider World → bool)
    (finish : list (RootProvider World)) (block : u64) : res string u64 :=
  query_with_fallback EXECUTION_PROVIDER_TIMEOUT
    (λ provider, if late provider then None else
      Some (snd (_get_queue_head provider (proof_queue_address' proxy) block (world provider))))
    (principal_provider proxy) (backup_providers proxy) finish.

(** The validated witness from whichever provider gives one, with its window. *)
Definition prepare_consensus_mpt_proof_inputs (join_error : string) (proxy : ExecutionHttpProxy)
    (world : RootProvider World → World) (late : RootProvider World → bool) (finish : list (RootProvider World))
    (input_slot output_slot input_block_number output_block_number input_queue_cursor : u64)
    (validated_consensus_proof_inputs : ConsensusProofInputs)
    (expected_output_store_hash expected_execution_state_root : B256) : res string ProofInputsWithWindow :=
  output ← query_with_fallback (validation_timeout proxy)
    (λ provider, if late provider then None else
      Some (snd (_prepare_consensus_mpt_proof_inputs join_error provider (proof_queue_address' proxy) input_queue_cursor
        output_block_number validated_consensus_proof_inputs expected_execution_state_root (chunk_limit' proxy)
        (world provider))))
    (principal_provider proxy) (backup_providers proxy) finish;
  let expected_output_queue_cursor := uadd input_queue_cursor (len_u64 (entries (pi_queue_storage output))) in
  Ok (MkProofInputsWithWindow input_slot output_slot input_block_number output_block_number output
        expected_output_store_hash expected_output_queue_cursor).
End ExecutionHttp.
