(* ===== verification/ExecutionRpcSpec.v ===== *)
(** * Correctness of the witness assembly

    Whatever a node answers, inputs that are returned are provable and their
    targets are distinct; and against a node that answers truthfully the
    assembled witness is one that the guest accepts. *)
From S2P Require Import Prelude Externals StorageLayout Types Merkle Instances MerkleSpec RequestLeaf Mpt MptSpec StoreHash Consensus ConsensusSpec Detector Notice BridgeHead BridgeHeadSpec Rpc ExecutionRpc.

(** ** Splitting a key list into requests *)

Lemma chunks_fuel_join {A} fuel k (l : list A) : (0 < k)%nat → (length l ≤ fuel)%nat →
  mjoin (chunks_fuel fuel k l) = l ∧ Forall (λ c, (0 < length c ≤ k)%nat) (chunks_fuel fuel k l).
Proof.
  intros Hk. revert l. induction fuel as [|fuel IH]; intros [|x l] Hl; simpl in *; try done; [lia|].
  destruct (IH (drop k (x :: l))) as [Hj Hf]; [rewrite length_drop; simpl; lia|].
  split; [rewrite Hj; apply (take_drop k (x :: l))|]. constructor; [|done].
  rewrite length_take. simpl. lia.
Qed.
Lemma key_chunks_join keys limit :
  mjoin (key_chunks keys limit) = keys ∧ key_chunks keys limit ≠ [] ∧
  Forall (λ c, (length c ≤ Nat.max limit 1)%nat) (key_chunks keys limit).
Proof.
  unfold key_chunks. destruct keys as [|key keys]; [split_and!; [done..|repeat constructor; simpl; lia]|].
  destruct (chunks_fuel_join (length (key :: keys)) (Nat.max limit 1) (key :: keys)) as [Hj Hf]; [lia|done|].
  split_and!; [done| |].
  - unfold chunks. intros Hnil. rewrite Hnil in Hj. done.
  - eapply list.Forall_impl; [exact Hf|]. simpl. lia.
Qed.

(** ** The first match of the words of a response *)

Lemma words_of_source proof key v p : words_of proof !! key = Some (v, p) →
  ∃ s, s ∈ ap_storage_proof proof ∧ sp_key s = key ∧ sp_value s = v ∧ sp_proof s = p.
Proof.
  unfold words_of. generalize (ap_storage_proof proof) as l. intros l. induction l as [|s l IH] using rev_ind; [done|].
  rewrite foldl_app. simpl. rewrite lookup_insert_Some. intros [[<- [= <- <-]]|[? Hin]].
  - exists s. split_and!; [set_solver|done..].
  - destruct (IH Hin) as (s' & ? & ?). exists s'. set_solver.
Qed.
Lemma words_of_found proof key : key ∈ sp_key <$> ap_storage_proof proof → is_Some (words_of proof !! key).
Proof.
  unfold words_of. generalize (ap_storage_proof proof) as l. intros l. induction l as [|s l IH] using rev_ind.
  - intros Hin. by apply elem_of_nil in Hin.
  - rewrite fmap_app, foldl_app. simpl. rewrite lookup_insert_is_Some'.
    intros [Hin|Hin%list_elem_of_singleton]%elem_of_app; [right; by apply IH|by left].
Qed.

(** ** The slots that the entries name, by target *)

Record slots_noted (es : list QueueEntryProof) (m : gmap Address (list B256)) : Prop := {
  noted_targets : ∀ t, is_Some (m !! t) ↔ t ∈ qe_target <$> es;
  noted_nodup : ∀ t ks, m !! t = Some ks → NoDup ks;
  noted_slots : ∀ e, e ∈ es → ∃ ks, m !! qe_target e = Some ks ∧ qe_slot_key e ∈ ks
}.
Lemma note_slots es : slots_noted es (foldl note_slot ∅ es).
Proof.
  induction es as [|e es [Ht Hn Hs]] using rev_ind.
  { split; simpl; [|intros t ks; by rewrite lookup_empty|intros e He; by apply elem_of_nil in He].
    intros t. rewrite lookup_empty. split; [by intros []|intros He; by apply elem_of_nil in He]. }
  rewrite foldl_app. simpl. set (m := foldl note_slot ∅ es) in *.
  set (ks0 := default [] (m !! qe_target e)).
  set (ks1 := if decide (qe_slot_key e ∈ ks0) then ks0 else ks0 ++ [qe_slot_key e]).
  assert (NoDup ks0) as Hk0.
  { unfold ks0. destruct (m !! qe_target e) eqn:Hm; simpl; [by eapply Hn|constructor]. }
  assert (NoDup ks1 ∧ qe_slot_key e ∈ ks1 ∧ ∀ k, k ∈ ks0 → k ∈ ks1) as (Hk1 & Hin & Hsub).
  { unfold ks1. case_decide; [done|]. split_and!; [|set_solver..].
    apply list.NoDup_app. split_and!; [done|set_solver|apply NoDup_singleton]. }
  unfold note_slot at 1. fold m. fold ks0. fold ks1. split.
  - intros t. rewrite lookup_insert_is_Some', Ht, fmap_app. set_solver.
  - intros t ks. rewrite lookup_insert_Some. intros [[? <-]|[? ?]]; [done|by eapply Hn].
  - intros e' [He'| ->%list_elem_of_singleton]%elem_of_app; [|exists ks1; by rewrite lookup_insert_eq].
    destruct (Hs e' He') as (ks & Hks & Hk). destruct (decide (qe_target e = qe_target e')) as [Heq|Hne].
    + exists ks1. rewrite <-Heq, lookup_insert_eq. split; [done|]. apply Hsub. unfold ks0. by rewrite Heq, Hks.
    + exists ks. by rewrite lookup_insert_ne.
Qed.

(** ** Whatever the node answers *)
Section AnyNode.
Context {World : Type} `{Keccak} `{AlloyTrie} `{PoseidonSponge} `{DebugFmt}.
Context (iteration : gmap Address (list B256) → list (Address * list B256)).
(** A [HashMap] is iterated over its entries, in some order. *)
Context (iteration_perm : ∀ m, iteration m ≡ₚ map_to_list m).

(** The slots of a target in the order of the requested keys. *)
Definition answers_target (target : Address * list B256) (t : TargetStorageProof) : Prop :=
  ts_target_address t = fst target ∧ (tsp_key <$> ts_slots t) = snd target.

Lemma target_proof_shape (provider : RootProvider World) block st limit target w w' ws t :
  target_proof provider block st limit target w = (w', ws, Ok t) → answers_target target t.
Proof.
  destruct target as [address keys]. unfold target_proof. intros Hp.
  apply eff_bind_Ok in Hp as (w1 & ws1 & proof & ws2 & _ & Hp & _).
  apply eff_bind_Ok in Hp as (w2 & ws3 & account & ws4 & _ & Hp & _).
  apply eff_bind_Ok in Hp as (w3 & ws5 & slots & ws6 & Hs & Hp & _).
  apply lift_Ok in Hs as (_ & _ & Hs). apply ret_Ok in Hp as (_ & _ & ->).
  split; [done|]. simpl. apply try_map_Ok in Hs. clear -Hs.
  induction Hs as [|key slot keys slots Hk _ IH]; [done|]. rewrite fmap_cons. f_equal; [|exact IH].
  destruct (word_at _ _ key) as [[value proof']| |]; [|done..]. by injection Hk as <-.
Qed.
Lemma target_proofs_shape (provider : RootProvider World) block st limit targets w w' ws ts :
  target_proofs provider block st limit targets w = (w', ws, Ok ts) → Forall2 answers_target targets ts.
Proof.
  revert w w' ws ts. induction targets as [|target targets IH]; intros w w' ws ts; simpl.
  - intros (_ & _ & ->)%ret_Ok. constructor.
  - intros (w1 & ws1 & t & ws2 & Ht & Hp & _)%eff_bind_Ok.
    apply eff_bind_Ok in Hp as (w2 & ws3 & ts' & ws4 & Hts & Hp & _). apply ret_Ok in Hp as (_ & _ & ->).
    constructor; [by eapply target_proof_shape|by eapply IH].
Qed.

Lemma answers_distinct es m targets ts : slots_noted es m → targets ≡ₚ map_to_list m →
  Forall2 answers_target targets ts →
  NoDup (ts_target_address <$> ts) ∧ Forall (λ t, NoDup (tsp_key <$> ts_slots t)) ts.
Proof.
  intros [_ Hn _] Hperm Hts. split.
  - assert (ts_target_address <$> ts = targets.*1) as ->.
    { clear -Hts. induction Hts as [|x t xs ts [Ha _] _ IH]; [done|]. rewrite !fmap_cons. by f_equal. }
    rewrite Hperm. apply NoDup_fst_map_to_list.
  - apply Forall_lookup_2. intros i t Ht. destruct (Forall2_lookup_r _ _ _ _ _ Hts Ht) as ([a ks] & Hi & _ & ->).
    apply (Hn a). apply elem_of_map_to_list. rewrite <-Hperm. by eapply list_elem_of_lookup_2.
Qed.

Lemma prepare_queue_storage_shape (provider : RootProvider World) address cursor block st limit w w' ws qs :
  prepare_queue_storage iteration provider address cursor block st limit w = (w', ws, Ok qs) →
  targets_distinct qs ∧ input_cursor qs = cursor ∧ cursor ≤ head qs ∧
  Z.of_nat (length (entries qs)) = Z.min (head qs - cursor) MAX_BATCH.
Proof.
  unfold prepare_queue_storage. intros Hp.
  apply eff_bind_Ok in Hp as (w1 & ws1 & hd & ws2 & _ & Hp & _).
  destruct (decide (hd < cursor)) as [|Hcur]; [by apply lift_Ok in Hp as (_ & _ & ?)|].
  apply eff_bind_Ok in Hp as (w2 & ws3 & proof & ws4 & _ & Hp & _).
  apply eff_bind_Ok in Hp as (w3 & ws5 & es & ws6 & He & Hp & _).
  apply lift_Ok in He as (_ & _ & He). apply try_map_length in He. rewrite length_seq in He.
  apply eff_bind_Ok in Hp as (w4 & ws7 & ts & ws8 & Hts & Hp & _).
  apply eff_bind_Ok in Hp as (w5 & ws9 & [v hp] & ws10 & _ & Hp & _).
  apply ret_Ok in Hp as (_ & _ & ->). simpl. split_and!; [|done|lia|].
  - by eapply answers_distinct; [apply note_slots|apply iteration_perm|eapply target_proofs_shape].
  - rewrite He, Z2Nat.id by apply uint_range. apply batch_size_Z. lia.
Qed.

Context `{HeliosCore} `{!RmpSerde} `{Sha256} `{!PastaFieldLaws} `{!MerkleZerosChain}.

Lemma dry_run_Ok join_error inputs u : dry_run join_error inputs = Ok u ↔ ∃ o, consensus_mpt_program inputs = Ok o.
Proof. unfold dry_run. destruct u, (consensus_mpt_program inputs); naive_solver. Qed.

Lemma prepared_inputs_ok join_error (provider : RootProvider World) address cursor block validated st limit w w' ws inputs :
  _prepare_consensus_mpt_proof_inputs iteration join_error provider address cursor block validated st limit w
    = (w', ws, Ok inputs) →
  let qs := pi_queue_storage inputs in
  consensus_inputs inputs = validated ∧ input_cursor qs = cursor ∧ targets_distinct qs ∧ vec_fits (entries qs) ∧
  Z.of_nat (length (entries qs)) = Z.min (head qs - cursor) MAX_BATCH ∧
  ∃ o, consensus_mpt_program inputs = Ok o ∧
    uint_Z (po_output_queue_cursor o) = cursor + Z.of_nat (length (entries qs)).
Proof.
  unfold _prepare_consensus_mpt_proof_inputs. intros Hp.
  apply eff_bind_Ok in Hp as (w1 & ws1 & qs & ws2 & Hq & Hp & _).
  apply eff_bind_Ok in Hp as (w2 & ws3 & u & ws4 & Hd & Hp & _).
  apply lift_Ok in Hd as (_ & _ & (o & Ho)%dry_run_Ok). apply ret_Ok in Hp as (_ & _ & ->).
  destruct (prepare_queue_storage_shape _ _ _ _ _ _ _ _ _ _ Hq) as (Hdist & Hcur & Hle & Hlen).
  assert (vec_fits (entries qs)) as Hfits.
  { unfold vec_fits. assert (MAX_BATCH < 2 ^ 63) by done. lia. }
  cbv zeta. cbn [pi_queue_storage]. split_and!; try done; [by destruct validated|]. exists o. split; [done|].
  apply consensus_mpt_program_Ok in Ho as (_ & Hv & _). apply verify_queue_Ok_iff in Hv as (? & ? & _ & Hc & _); [|done].
  simpl in Hc. by rewrite Hc, Hcur.
Qed.

(** C26: inputs that the host prepares can be proved, whatever the node answered: the
    guest program accepts them, they carry the consensus inputs that were
    validated and the cursor that was asked for, they cover the batch that the
    head and the cursor derive, and their targets and slots are distinct, so
    that the requests published for them are those that are committed. *)
Theorem prepared_inputs_provable join_error (provider : RootProvider World) address cursor block validated st limit w w' ws inputs :
  _prepare_consensus_mpt_proof_inputs iteration join_error provider address cursor block validated st limit w
    = (w', ws, Ok inputs) →
  let qs := pi_queue_storage inputs in
  consensus_inputs inputs = validated ∧ input_cursor qs = cursor ∧ targets_distinct qs ∧ vec_fits (entries qs) ∧
  Z.of_nat (length (entries qs)) = Z.min (head qs - cursor) MAX_BATCH ∧
  ∃ o, consensus_mpt_program inputs = Ok o ∧
    uint_Z (po_output_queue_cursor o) = cursor + Z.of_nat (length (entries qs)).
Proof. apply prepared_inputs_ok. Qed.
End AnyNode.

(** ** What [_get_proof] asks of a node *)

(** All requests but the last are full, and none is empty when there are keys. *)
Lemma chunks_fuel_full {A} fuel k (l : list A) : (0 < k)%nat → (length l ≤ fuel)%nat →
  (∀ i c, chunks_fuel fuel k l !! i = Some c → (S i < length (chunks_fuel fuel k l))%nat → length c = k).
Proof.
  intros Hk. revert l. induction fuel as [|fuel IH]; intros l Hl i c; [done|].
  destruct l as [|x l]; [done|]. cbn [chunks_fuel]. destruct i as [|i].
  - intros [= <-] Hlt. rewrite length_take. apply Nat.min_l.
    destruct (decide (k ≤ length (x :: l))%nat) as [|Hshort]; [done|].
    rewrite drop_ge in Hlt by lia. destruct fuel; simpl in Hlt; lia.
  - intros Hc Hlt. apply (IH (drop k (x :: l)) ltac:(rewrite length_drop; lia) i c Hc). cbn [length] in Hlt. lia.
Qed.
Lemma key_chunks_full keys limit i c : key_chunks keys limit !! i = Some c →
  (S i < length (key_chunks keys limit))%nat → length c = Nat.max limit 1.
Proof.
  unfold key_chunks. destruct keys as [|key keys].
  - destruct i; simpl; [lia|done].
  - apply chunks_fuel_full; [lia|done].
Qed.

Section Requests.
Context {World : Type} (provider : RootProvider World) (address : Address) (block : u64).

(** The calls [eth_getProof(address, chunk)] at the block, one after the other
    and nothing else, with what the node answers to each. *)
Inductive asks (chunk : list B256) : World → list (EIP1186AccountProofResponse + string) → World → Prop :=
| asks_nil w : asks chunk w [] w
| asks_cons w w1 w2 answer answers : rpc_get_proof provider address chunk block w = (w1, answer) →
    asks chunk w1 answers w2 → asks chunk w (answer :: answers) w2.

(** The seconds between one attempt and the next. *)
Definition backoff : list Z := [1; 2; 4].

(** One request: tried until the node answers it or four attempts have failed. *)
Inductive chunk_run (chunk : list B256) : World → list Z → res string EIP1186AccountProofResponse → World → Prop :=
| chunk_answered w errors proof w' : (length errors ≤ 3)%nat → asks chunk w ((inr <$> errors) ++ [inl proof]) w' →
    chunk_run chunk w (take (length errors) backoff) (Ok proof) w'
| chunk_refused w errors e w' : length errors = 3%nat → asks chunk w ((inr <$> errors) ++ [inr e]) w' →
    chunk_run chunk w backoff (Err ("ExecutionHttp RPC error: " +:+ e)) w'.

(** The requests in their order, up to the first that is given up. *)
Inductive chunks_run : list (list B256) → World → list Z → res string (list EIP1186AccountProofResponse) → World → Prop :=
| run_nil w : chunks_run [] w [] (Ok []) w
| run_answered chunk chunks w w1 w2 ws1 ws2 proof r : chunk_run chunk w ws1 (Ok proof) w1 →
    chunks_run chunks w1 ws2 r w2 → chunks_run (chunk :: chunks) w (ws1 ++ ws2) (cons proof <$> r) w2
| run_refused chunk chunks w w1 ws e : chunk_run chunk w ws (Err e) w1 → chunks_run (chunk :: chunks) w ws (Err e) w1.

(** What several responses are merged into: the account of the first with the
    storage proofs of all. *)
Definition merged (first : EIP1186AccountProofResponse) (others : list EIP1186AccountProofResponse)
    : EIP1186AccountProofResponse :=
  MkAccountProof (ap_address first) (ap_balance first) (ap_code_hash first) (ap_nonce first) (ap_storage_hash first)
    (ap_account_proof first) (mjoin (ap_storage_proof <$> first :: others)).

Lemma get_proof_retrying_run chunk left w : (left ≤ 3)%nat →
  let '(w', ws, r) := get_proof_retrying provider address chunk block left w in
  (∃ errors proof, (length errors ≤ left)%nat ∧ r = Ok proof ∧ ws = take (length errors) (drop (3 - left) backoff) ∧
    asks chunk w ((inr <$> errors) ++ [inl proof]) w') ∨
  (∃ errors e, length errors = left ∧ r = Err ("ExecutionHttp RPC error: " +:+ e) ∧ ws = drop (3 - left) backoff ∧
    asks chunk w ((inr <$> errors) ++ [inr e]) w').
Proof.
  revert w. induction left as [|left IH]; intros w Hl; cbn [get_proof_retrying]; unfold mbind, eff_bind, rpc_call;
    destruct (rpc_get_proof provider address chunk block w) as [w1 [proof|e]] eqn:Hask; simpl.
  - left. exists [], proof. split_and!; [done..|]. eapply asks_cons; [exact Hask|constructor].
  - right. exists [], e. split_and!; [done..|]. eapply asks_cons; [exact Hask|constructor].
  - left. exists [], proof. split_and!; [simpl; lia|done..|]. eapply asks_cons; [exact Hask|constructor].
  - specialize (IH w1 ltac:(lia)). destruct (get_proof_retrying provider address chunk block left w1) as [[w2 ws] r].
    assert (drop (2 - left) backoff = RETRY_BASE_DELAY * 2 ^ Z.of_nat (2 - left) :: drop (3 - left) backoff)
      as Hdelay by (destruct left as [|[|[|]]]; [done..|lia]).
    destruct IH as [(errors & proof & Hn & -> & -> & Ha)|(errors & e' & Hn & -> & -> & Ha)]; [left|right];
      exists (e :: errors); eexists; split_and!; try done; simpl; try lia.
    + by rewrite Hdelay.
    + eapply asks_cons; [exact Hask|exact Ha].
    + eapply asks_cons; [exact Hask|exact Ha].
Qed.
Lemma chunk_runs chunk w : let '(w', ws, r) := get_proof_retrying provider address chunk block MAX_RETRIES w in
  chunk_run chunk w ws r w' ∧ r ≠ Panic.
Proof.
  pose proof (get_proof_retrying_run chunk MAX_RETRIES w ltac:(done)) as Hr.
  destruct (get_proof_retrying _ _ _ _ _ _) as [[w' ws] r].
  destruct Hr as [(errors & proof & Hn & -> & -> & Ha)|(errors & e & Hn & -> & -> & Ha)]; (split; [|done]).
  - by apply chunk_answered.
  - by apply (chunk_refused _ _ errors).
Qed.

Lemma merged_extend first others proof others' :
  merged (extend_proof (merged first others) proof) others' = merged first (others ++ proof :: others').
Proof.
  unfold merged, extend_proof. simpl. f_equal. rewrite fmap_app, join_app. simpl. by rewrite <-!app_assoc.
Qed.
Lemma merged_alone proof : merged proof [] = proof.
Proof. destruct proof. unfold merged. simpl. by rewrite app_nil_r. Qed.

Lemma get_chunks_run chunks acc w :
  let '(w', ws, r) := get_chunks provider address chunks block ((λ '(first, others), merged first others) <$> acc) w in
  ∃ proofs, chunks_run chunks w ws proofs w' ∧
    match proofs with
    | Ok ps => r = Ok match acc, ps with
                      | Some (first, others), ps => Some (merged first (others ++ ps))
                      | None, p :: ps => Some (merged p ps)
                      | None, [] => None
                      end
    | Err e => r = Err e
    | Panic => False
    end.
Proof.
  revert acc w. induction chunks as [|chunk chunks IH]; intros acc w.
  { exists (Ok []). split; [constructor|]. destruct acc as [[first others]|]; simpl; by rewrite ?app_nil_r. }
  cbn [get_chunks]. unfold mbind at 1, eff_bind at 1. pose proof (chunk_runs chunk w) as Hc.
  destruct (get_proof_retrying _ _ _ _ _ _) as [[w1 ws1] [proof|e|]]; destruct Hc as [Hc Hp]; [| |done].
  2: { exists (Err e). by split; [constructor|]. }
  set (acc' := match acc with None => (proof, []) | Some (first, others) => (first, others ++ [proof]) end).
  replace (Some match (λ '(first, others), merged first others) <$> acc with None => proof | Some a => extend_proof a proof end)
    with ((λ '(first, others), merged first others) <$> Some acc').
  2: { unfold acc'. destruct acc as [[first others]|]; simpl; f_equal; [|apply merged_alone].
       rewrite <-(merged_alone (extend_proof _ _)). by rewrite merged_extend. }
  specialize (IH (Some acc') w1). destruct (get_chunks _ _ _ _ _ _) as [[w2 ws2] r].
  destruct IH as (proofs & Hrun & Hr). exists (cons proof <$> proofs). split; [by econstructor|].
  destruct proofs as [ps|e|]; [|done..]. subst r. simpl. unfold acc'. destruct acc as [[first others]|]; [|done].
  by rewrite <-app_assoc.
Qed.
End Requests.

(** Seconds slept. *)
Definition total_sleep (ws : list Z) : Z := foldr Z.add 0 ws.
Lemma total_sleep_app ws1 ws2 : total_sleep (ws1 ++ ws2) = total_sleep ws1 + total_sleep ws2.
Proof. unfold total_sleep. induction ws1; simpl; lia. Qed.
Lemma chunk_run_sleep {World} (provider : RootProvider World) address block chunk w ws r w' :
  chunk_run provider address block chunk w ws r w' → 0 ≤ total_sleep ws ≤ 7.
Proof. intros [? errors ? ? Hn _|]; [|done]. by destruct errors as [|? [|? [|? [|]]]]; simpl in Hn; try lia. Qed.
Lemma chunks_run_sleep {World} (provider : RootProvider World) address block chunks w ws r w' :
  chunks_run provider address block chunks w ws r w' → 0 ≤ total_sleep ws ≤ 7 * Z.of_nat (length chunks).
Proof.
  induction 1 as [|chunk chunks w w1 w2 ws1 ws2 proof r Hc%chunk_run_sleep _ IH|chunk chunks w w1 ws e Hc%chunk_run_sleep];
    rewrite ?total_sleep_app; cbn [length]; [done|lia|lia].
Qed.

Lemma get_proof_run {World} (provider : RootProvider World) address keys block limit w :
  let '(w', ws, r) := _get_proof provider address keys block limit w in
  ∃ chunks proofs,
    mjoin chunks = keys ∧ chunks ≠ [] ∧ Forall (λ c, (length c ≤ Nat.max limit 1)%nat) chunks ∧
    (∀ i c, chunks !! i = Some c → (S i < length chunks)%nat → length c = Nat.max limit 1) ∧
    chunks_run provider address block chunks w ws proofs w' ∧
    total_sleep ws ≤ 7 * Z.of_nat (length chunks) ∧
    match proofs with
    | Ok (first :: others) => r = Ok (merged first others)
    | Err e => r = Err e
    | Ok [] | Panic => False
    end.
Proof.
  pose proof (key_chunks_join keys limit) as (Hj & Hne & Hf).
  pose proof (get_chunks_run provider address block (key_chunks keys limit) None w) as Hr. cbn [fmap option_fmap] in Hr.
  unfold _get_proof, mbind, eff_bind. change (option_map _ None) with (@None EIP1186AccountProofResponse) in Hr.
  destruct (get_chunks _ _ _ _ _ _) as [[w1 ws1] r]. destruct Hr as (proofs & Hrun & Hr).
  pose proof (chunks_run_sleep _ _ _ _ _ _ _ _ Hrun) as Hs.
  destruct proofs as [[|p ps]|e|]; [|subst r; simpl; rewrite ?app_nil_r..|done].
  { exfalso. inversion Hrun as [| |]; subst; [done|]. destruct r0; simpl in *; congruence. }
  all: exists (key_chunks keys limit); eexists; split_and!; [done..|by apply key_chunks_full|exact Hrun|lia|done].
Qed.

(** C34: what a proof request asks and makes of the answers: the keys are split, in
    their order, into requests of the limit (of one key when it is zero; only the last may be
    shorter; one request without keys when there are none).  The requests are
    sent one after the other, each until the node answers it or its fourth
    attempt has failed, with 1, 2 and 4 seconds between its attempts, and nothing
    else is asked.  When all are answered, the result has the account of the
    first answer and the storage proofs of all answers in the order of the
    requests; otherwise it is the error of the first request given up, after which
    none is sent.  It never panics.  (A call to the node itself has no deadline
    here; [query_with_fallback] sets one around all of it.) *)
Theorem get_proof_requests {World} (provider : RootProvider World) address keys block limit w :
  let '(w', ws, r) := _get_proof provider address keys block limit w in
  ∃ chunks proofs,
    mjoin chunks = keys ∧ chunks ≠ [] ∧ Forall (λ c, (length c ≤ Nat.max limit 1)%nat) chunks ∧
    (∀ i c, chunks !! i = Some c → (S i < length chunks)%nat → length c = Nat.max limit 1) ∧
    chunks_run provider address block chunks w ws proofs w' ∧
    total_sleep ws ≤ 7 * Z.of_nat (length chunks) ∧
    match proofs with
    | Ok (first :: others) => r = Ok (merged first others)
    | Err e => r = Err e
    | Ok [] | Panic => False
    end.
Proof. apply get_proof_run. Qed.
