(* ===== verification/ExecutionRpcComplete.v ===== *)
(** * A truthful node yields an accepted witness

    Completeness of the host against the guest: when a node answers with the
    words of the state and proofs that verify, [prepare_queue_storage] assembles
    a witness that [verify_queue] accepts, for every chunk limit, every order of
    the targets, and every queue whose entries are laid out as the contract
    writes them. *)
From S2P Require Import Prelude Externals StorageLayout Types Merkle Instances MerkleSpec RequestLeaf Mpt MptSpec StoreHash Consensus ConsensusSpec Detector Notice BridgeHead BridgeHeadSpec Rpc ExecutionRpc ExecutionRpcSpec.

(** A loop whose every round succeeds. *)
Lemma try_map_all {E A B} (f : A → res E B) (R : A → B → Prop) l :
  (∀ x, x ∈ l → ∃ y, f x = Ok y ∧ R x y) → ∃ ys, try_map f l = Ok ys ∧ Forall2 R l ys.
Proof.
  induction l as [|x l IH]; intros Hf; [by exists []|].
  destruct (Hf x) as (y & Hy & Hr); [by left|]. destruct IH as (ys & Hys & Hrs); [intros; apply Hf; by right|].
  exists (y :: ys). simpl. rewrite Hy. simpl. rewrite Hys. by split; [|constructor].
Qed.

Section Truthful.
Context {World : Type} `{Keccak} `{AlloyTrie} `{DebugFmt}.
(** The state at the block: its root, its accounts and its storage words. *)
Context (st : B256) (acct : Address → option TrieAccount) (value : Address → B256 → U256).

Definition slot_verifies (addr : Address) (key : B256) (v : U256) (proof : list Bytes) : Prop :=
  v = value addr key ∧
  verify_proof (account_storage (acct addr)) (trie_path key) (expected_storage_value v) proof = inl ().

(** An answer to [eth_getProof] that is complete and verifies. *)
Record truthful_response (addr : Address) (keys : list B256) (resp : EIP1186AccountProofResponse) : Prop := {
  tr_address : ap_address resp = addr;
  tr_keys : (sp_key <$> ap_storage_proof resp) = keys;
  tr_slots : Forall (λ s, slot_verifies addr (sp_key s) (sp_value s) (sp_proof s)) (ap_storage_proof resp);
  tr_account : match acct addr with
    | Some a => claimed_account resp = a ∧
        verify_proof st (trie_path addr) (Some (account_encode a)) (ap_account_proof resp) = inl ()
    | None => verify_proof st (trie_path addr) (Some (account_encode (claimed_account resp))) (ap_account_proof resp) ≠ inl () ∧
        verify_proof st (trie_path addr) None (ap_account_proof resp) = inl ()
    end
}.
Record truthful (provider : RootProvider World) (block : u64) : Prop := {
  tr_storage : ∀ addr key w, ∃ w', rpc_get_storage_at provider addr key block w = (w', inl (value addr key));
  tr_proof : ∀ addr keys w, ∃ w' resp,
    rpc_get_proof provider addr keys block w = (w', inl resp) ∧ truthful_response addr keys resp
}.

Context (provider : RootProvider World) (block : u64) (Htrue : truthful provider block).

Lemma get_proof_retrying_truthful addr keys left w : ∃ w' resp,
  get_proof_retrying provider addr keys block left w = (w', [], Ok resp) ∧ truthful_response addr keys resp.
Proof.
  destruct (tr_proof _ _ Htrue addr keys w) as (w' & resp & Hr & Ht). exists w', resp. split; [|done].
  destruct left; simpl; unfold mbind, eff_bind, rpc_call; by rewrite Hr.
Qed.
Lemma extend_truthful addr keys keys' acc resp : truthful_response addr keys acc → truthful_response addr keys' resp →
  truthful_response addr (keys ++ keys') (extend_proof acc resp).
Proof.
  intros [Ha Hk Hs Hacc] [_ Hk' Hs' _]. split; simpl; [done| |by apply Forall_app|exact Hacc].
  by rewrite fmap_app, Hk, Hk'.
Qed.
Lemma get_chunks_truthful addr cs done_keys acc w : truthful_response addr done_keys acc →
  ∃ w' resp, get_chunks provider addr cs block (Some acc) w = (w', [], Ok (Some resp)) ∧
    truthful_response addr (done_keys ++ mjoin cs) resp.
Proof.
  revert done_keys acc w. induction cs as [|c cs IH]; intros done_keys acc w Hacc.
  { exists w, acc. simpl. by rewrite app_nil_r. }
  destruct (get_proof_retrying_truthful addr c MAX_RETRIES w) as (w1 & r1 & H1' & Ht1).
  destruct (IH (done_keys ++ c) (extend_proof acc r1) w1) as (w2 & r2 & H2' & Ht2); [by apply extend_truthful|].
  exists w2, r2. split; [|simpl; by rewrite app_assoc].
  cbn [get_chunks]. rewrite (eff_bind_run _ _ _ _ _ _ H1'). by rewrite H2'.
Qed.
Lemma get_proof_truthful addr keys limit w : ∃ w' resp,
  _get_proof provider addr keys block limit w = (w', [], Ok resp) ∧ truthful_response addr keys resp.
Proof.
  destruct (key_chunks_join keys limit) as (Hj & Hne & _). unfold _get_proof.
  destruct (key_chunks keys limit) as [|c cs]; [done|].
  destruct (get_proof_retrying_truthful addr c MAX_RETRIES w) as (w1 & r1 & H1' & Ht1).
  destruct (get_chunks_truthful addr cs c r1 w1 Ht1) as (w2 & r2 & H2' & Ht2).
  exists w2, r2. rewrite <-Hj. split; [|done].
  erewrite eff_bind_run; [|cbn [get_chunks]; rewrite (eff_bind_run _ _ _ _ _ _ H1'), H2'; done]. done.
Qed.

Lemma account_witness_truthful addr keys resp : truthful_response addr keys resp →
  _account_witness resp st = Ok (acct addr).
Proof.
  intros [Ha _ _ Hacc]. unfold _account_witness. rewrite Ha. fold (trie_path addr).
  destruct (acct addr) as [a|]; destruct Hacc as [H1' H2'].
  - by rewrite H1', H2'.
  - destruct (verify_proof st _ (Some _) _) as [[]|e] eqn:Hv; [by destruct H1'|]. by rewrite H2'.
Qed.
Lemma word_truthful addr keys resp key message : truthful_response addr keys resp → key ∈ keys →
  ∃ proof, word_at message (words_of resp) key = Ok (value addr key, proof) ∧
    slot_verifies addr key (value addr key) proof.
Proof.
  intros [_ Hk Hs _] Hin. rewrite <-Hk in Hin. destruct (words_of_found _ _ Hin) as [[v p] Hw].
  destruct (words_of_source _ _ _ _ Hw) as (s & Hsin & <- & <- & <-).
  rewrite Forall_elem in Hs. destruct (Hs s Hsin) as [Hv Hp]. exists (sp_proof s).
  unfold word_at. rewrite Hw. simpl. rewrite <-Hv. by split.
Qed.

(** ** Targets *)

Definition target_verified (target : Address * list B256) (t : TargetStorageProof) : Prop :=
  ts_target_address t = fst target ∧
  verify_account st Target (fst target) (ts_account t) (ts_account_mpt_proof t) = Ok (account_storage (acct (fst target))) ∧
  Forall2 (λ key s, tsp_key s = key ∧ slot_verifies (fst target) key (tsp_value s) (tsp_mpt_proof s))
    (snd target) (ts_slots t).

Lemma account_verified addr keys resp who : truthful_response addr keys resp →
  verify_account st who addr (acct addr) (ap_account_proof resp) = Ok (account_storage (acct addr)).
Proof.
  intros [_ _ _ Hacc]. apply verify_account_Ok. split; [|done].
  destruct (acct addr); simpl; apply Hacc.
Qed.
Lemma target_proof_truthful limit target w : ∃ w' t,
  target_proof provider block st limit target w = (w', [], Ok t) ∧ target_verified target t.
Proof.
  destruct target as [addr keys]. destruct (get_proof_truthful addr keys limit w) as (w1 & resp & Hr & Ht).
  destruct (try_map_all (λ key,
      '(value, mpt_proof) ← word_at "Target proof missing storage key " (words_of resp) key;
      Ok (MkTargetSlotProof key value mpt_proof))
    (λ key s, tsp_key s = key ∧ slot_verifies addr key (tsp_value s) (tsp_mpt_proof s)) keys) as (slots & Hs & Hf).
  { intros key Hin. destruct (word_truthful addr keys resp key "Target proof missing storage key " Ht Hin) as (p & -> & Hv).
    simpl. eexists. split; [done|]. by split. }
  exists w1. eexists. split.
  - unfold target_proof. rewrite (eff_bind_run _ _ _ _ _ _ Hr), (account_witness_truthful _ _ _ Ht). eff_unfold.
    unfold mbind in Hs. rewrite Hs. done.
  - split_and!; [done| |exact Hf]. simpl. by apply (account_verified _ keys).
Qed.
Lemma target_proofs_truthful limit ts w : ∃ w' ps,
  target_proofs provider block st limit ts w = (w', [], Ok ps) ∧ Forall2 target_verified ts ps.
Proof.
  revert w. induction ts as [|t ts IH]; intros w; [by exists w, []|].
  destruct (target_proof_truthful limit t w) as (w1 & p & Hp & Hv). destruct (IH w1) as (w2 & ps & Hps & Hvs).
  exists w2, (p :: ps). split; [|by constructor]. cbn [target_proofs].
  rewrite (eff_bind_run _ _ _ _ _ _ Hp), (eff_bind_run _ _ _ _ _ _ Hps). done.
Qed.

(** The maps that [verify_queue] builds from verified targets. *)
Lemma insert_slots_found (t : Address) (slots : list TargetSlotProof) (m : gmap (Address * B256) TargetSlotProof) t' k :
  is_Some (m !! (t', k)) ∨ (t' = t ∧ k ∈ tsp_key <$> slots) →
  is_Some (foldl (λ m slot, <[(t, tsp_key slot) := slot]> m) m slots !! (t', k)).
Proof.
  revert m. induction slots as [|s slots IH]; intros m; simpl.
  - intros [?|[_ Hin]]; [done|by apply elem_of_nil in Hin].
  - intros Hor. apply IH. rewrite lookup_insert_is_Some'.
    destruct Hor as [?|[-> [->|Hin]%elem_of_cons]]; [left; by right|left; by left|by right].
Qed.
Lemma verify_targets_truthful ts ps : Forall2 target_verified ts ps →
  ∃ maps, try_fold (verify_target st) (∅, ∅) ps = Ok maps ∧
    (∀ addr k s, snd maps !! (addr, k) = Some s → slot_verifies addr k (tsp_value s) (tsp_mpt_proof s)) ∧
    (∀ addr keys k, (addr, keys) ∈ ts → k ∈ keys →
      fst maps !! addr = Some (account_storage (acct addr)) ∧ is_Some (snd maps !! (addr, k))).
Proof.
  intros Hts.
  destruct (try_fold_inv (E:=MptError) (λ done maps,
    (∀ addr r, fst maps !! addr = Some r → r = account_storage (acct addr)) ∧
    (∀ addr k s, snd maps !! (addr, k) = Some s → slot_verifies addr k (tsp_value s) (tsp_mpt_proof s)) ∧
    (∀ p, p ∈ done → is_Some (fst maps !! ts_target_address p) ∧
      ∀ k, k ∈ tsp_key <$> ts_slots p → is_Some (snd maps !! (ts_target_address p, k))))
    (verify_target st) (∅, ∅) ps) as (maps & Hf & H1' & H2' & H3').
  - split_and!; [intros * Hl; simpl in Hl; by rewrite lookup_empty in Hl..|]. intros p Hin. by apply elem_of_nil in Hin.
  - intros dn p rest [roots slots] Hl (Hr & Hs & Hd).
    assert (∃ t, target_verified t p) as ([addr keys] & Ha & Hv & Hk).
    { assert (p ∈ ps) as Hin by (rewrite Hl; set_solver). apply list_elem_of_lookup in Hin as [i Hi].
      destruct (Forall2_lookup_r _ _ _ _ _ Hts Hi) as (t & _ & ?). by exists t. }
    unfold verify_target. simpl in Ha, Hv, Hk. rewrite Ha, Hv. simpl. eexists. split; [done|]. simpl in *. split_and!.
    + intros a r. rewrite lookup_insert_Some. intros [[<- <-]|[? ?]]; [done|by apply Hr].
    + intros a k s Hin. destruct (insert_slots_source _ _ _ _ _ _ Hin) as [(-> & -> & Hin')|Hin']; [|by apply Hs].
      apply list_elem_of_lookup in Hin' as [i Hi]. by destruct (Forall2_lookup_r _ _ _ _ _ Hk Hi) as (? & _ & -> & ?).
    + intros p' [Hin|Hin%list_elem_of_singleton]%elem_of_app.
      * destruct (Hd p' Hin) as [D1 D2]. split; [apply lookup_insert_is_Some'; by right|].
        intros k Hk'. apply insert_slots_found. left. by apply D2.
      * subst p'. rewrite Ha. split; [apply lookup_insert_is_Some'; by left|]. intros k Hk'.
        apply insert_slots_found. by right.
  - exists maps. split_and!; [done..|]. intros addr keys k Hin Hk. apply list_elem_of_lookup in Hin as [i Hi].
    destruct (Forall2_lookup_l _ _ _ _ _ Hts Hi) as (p & Hp & Ha & _ & Hslots).
    destruct (H3' p) as [[r Hr] Hks]; [by eapply list_elem_of_lookup_2|]. simpl in *. rewrite Ha in *.
    split; [rewrite Hr; by rewrite (H1' _ _ Hr)|]. apply Hks.
    apply list_elem_of_lookup in Hk as [j Hj]. destruct (Forall2_lookup_l _ _ _ _ _ Hslots Hj) as (s & Hsj & <- & _).
    apply list_elem_of_fmap. exists s. split; [done|by eapply list_elem_of_lookup_2].
Qed.

(** ** Entries *)

Lemma address_of_word_of a : address_of_word (word_of_address a) = a.
Proof.
  unfold address_of_word. rewrite word_of_address_Z, Z.mod_small, fb_of_be_val; [done|].
  pose proof (fb_be_val_bound a) as Hb. change (256 ^ Z.of_nat 20) with (2 ^ 160) in Hb. lia.
Qed.
Lemma b256_of_word_of b : b256_of_word (word_of_b256 b) = b.
Proof.
  unfold b256_of_word, word_of_b256, u256_from_be. rewrite to_uint_small, fb_of_be_val; [done|].
  pose proof (fb_be_val_bound b) as Hb. rewrite pow256_32 in Hb. lia.
Qed.
Lemma u8_of_word (c : u8) : ucast 8 (ucast 256 c) = c ∧ uint_Z (ucast 256 c) < 2 ^ 8.
Proof.
  rewrite (ucast_wider 256 c) by lia. split; [|exact (proj2 (uint_range c))].
  apply uint_eq. unfold ucast. rewrite (to_uint_small 256); [by rewrite to_uint_id|].
  pose proof (uint_range c) as Hr. split; [lia|]. eapply Z.lt_trans; [apply Hr|]. by vm_compute.
Qed.

(** The contract's layout of a queue entry: [entry] is what its five words encode. *)
Definition queued (queue : Address) (index : u64) (entry : QueueEntryProof) : Prop :=
  Forall (λ '(slot, word), value queue slot = word) (entry_words index entry).

Lemma read_entry_truthful queue keys resp cursor offset entry : truthful_response queue keys resp →
  (∀ k, k ∈ entry_keys cursor offset → k ∈ keys) →
  queued queue (uadd cursor (to_uint 64 (Z.of_nat offset))) entry →
  ∃ e, read_entry (words_of resp) cursor offset = Ok e ∧
    verify_entry (account_storage (acct queue)) cursor offset e = Ok ().
Proof.
  intros Ht Hkeys Hq. unfold queued, entry_words in Hq. rewrite !Forall_cons_iff in Hq.
  destruct Hq as (V0 & V1 & V2 & V3 & V4 & _). unfold read_entry.
  unfold entry_keys, QUEUE_ENTRY_WORDS in *. simpl in Hkeys |- *.
  set (base := mapping_entry_location _ _) in *.
  assert (∀ k, k ∈ [base; struct_word_slot base (to_uint 8 1); struct_word_slot base (to_uint 8 2);
    struct_word_slot base (to_uint 8 3); struct_word_slot base (to_uint 8 4)] → k ∈ keys) as Hin by exact Hkeys.
  pose proof (λ k Hk, word_truthful queue keys resp k "Queue proof missing storage key " Ht (Hin k Hk)) as Hw.
  destruct (Hw base) as (p0 & -> & _ & P0); [set_solver|].
  destruct (Hw (struct_word_slot base (to_uint 8 1))) as (p1 & R1 & _ & P1); [set_solver|].
  destruct (Hw (struct_word_slot base (to_uint 8 2))) as (p2 & R2 & _ & P2); [set_solver|].
  destruct (Hw (struct_word_slot base (to_uint 8 3))) as (p3 & R3 & _ & P3); [set_solver|].
  destruct (Hw (struct_word_slot base (to_uint 8 4))) as (p4 & R4 & _ & P4); [set_solver|].
  change (to_uint 8 (Z.of_nat 1)) with (to_uint 8 1). change (to_uint 8 (Z.of_nat 2)) with (to_uint 8 2).
  change (to_uint 8 (Z.of_nat 3)) with (to_uint 8 3). change (to_uint 8 (Z.of_nat 4)) with (to_uint 8 4).
  rewrite R1, R2, R3, R4. simpl. rewrite V0, V1, V2, V3, V4 in *.
  destruct (u8_of_word (qe_collection_keys_count entry)) as [Hc Hlt]. rewrite decide_True by exact Hlt.
  eexists. split; [done|]. apply verify_entry_Ok. unfold entry_words.
  cbn [qe_target qe_slot_key qe_collection_keys_count qe_collection_keys qe_word_proofs fst snd].
  rewrite address_of_word_of, !b256_of_word_of, Hc. fold base. simpl. by repeat constructor.
Qed.

(** ** The whole witness *)
Section Accepted.
Context `{PoseidonSponge} `{!PastaFieldLaws} `{!MerkleZerosChain}.
Context (iteration : gmap Address (list B256) → list (Address * list B256)).
Context (iteration_perm : ∀ m, iteration m ≡ₚ map_to_list m).

(** The queue at the block: it exists, [hd] is its head, and the batch after
    [cursor] is laid out as the contract writes it. *)
Record queue_state (queue : Address) (cursor hd : u64) : Prop := {
  qs_account : is_Some (acct queue);
  qs_head : value queue (storage_slot_of_index QUEUE_HEAD_STORAGE_INDEX) = ucast 256 hd;
  qs_cursor : cursor ≤ hd;
  qs_entries : ∀ i, Z.of_nat i < Z.min (hd - cursor) MAX_BATCH →
    ∃ entry, queued queue (uadd cursor (to_uint 64 (Z.of_nat i))) entry
}.

Lemma get_queue_head_truthful queue cursor hd w : queue_state queue cursor hd →
  ∃ w', _get_queue_head provider queue block w = (w', [], Ok hd).
Proof.
  intros Hq. destruct (tr_storage _ _ Htrue queue (storage_slot_of_index QUEUE_HEAD_STORAGE_INDEX) w) as [w' Hw].
  exists w'. rewrite (qs_head _ _ _ Hq) in Hw.
  assert (_get_storage_word provider queue (storage_slot_of_index QUEUE_HEAD_STORAGE_INDEX) block w
    = (w', [], Ok (ucast 256 hd))) as Hg by (unfold _get_storage_word, mbind, eff_bind, rpc_call; by rewrite Hw).
  unfold _get_queue_head. rewrite (eff_bind_run _ _ _ _ _ _ Hg).
  rewrite decide_True by (rewrite ucast_wider by lia; exact (proj2 (uint_range hd))).
  cbn. do 2 f_equal. apply uint_eq. unfold ucast at 1. rewrite ucast_wider by lia. by rewrite to_uint_id.
Qed.

(** Every entry finds a verified leaf. *)
Lemma leaves_truthful es maps :
  (∀ addr k s, snd maps !! (addr, k) = Some s → slot_verifies addr k (tsp_value s) (tsp_mpt_proof s)) →
  (∀ e, e ∈ es → fst maps !! qe_target e = Some (account_storage (acct (qe_target e))) ∧
    is_Some (snd maps !! (qe_target e, qe_slot_key e))) →
  ∃ leaves, try_map (entry_leaf maps) es = Ok leaves.
Proof.
  intros Hs He. destruct (try_map_all (entry_leaf maps) (λ _ _, True) es) as (leaves & Hl & _); [|by exists leaves].
  intros e Hin. destruct (He e Hin) as [Hr [slot Hslot]].
  edestruct hash_request_leaf_Ok as (fs & _ & _ & Hhash). eexists. split; [|done].
  apply entry_leaf_Ok. eexists _, slot. split_and!; [exact Hr|exact Hslot|by apply (Hs _ _ _ Hslot)|exact Hhash].
Qed.

Lemma prepare_queue_storage_accepted queue cursor hd limit w : queue_state queue cursor hd →
  ∃ w' qs maps leaves, prepare_queue_storage iteration provider queue cursor block st limit w = (w', [], Ok qs) ∧
    proof_request_queue_address qs = queue ∧ input_cursor qs = cursor ∧ head qs = hd ∧ accepts st qs maps leaves.
Proof.
  intros Hq. destruct (get_queue_head_truthful _ _ _ w Hq) as [w1 Hhead].
  pose proof (qs_cursor _ _ _ Hq) as Hcur. pose proof (batch_size_Z _ _ Hcur) as Hbatch.
  set (batch := Z.to_nat (uint_Z (batch_size cursor hd))).
  set (head_key := storage_slot_of_index QUEUE_HEAD_STORAGE_INDEX).
  set (keys := head_key :: mjoin (entry_keys cursor <$> seq 0 batch)).
  destruct (get_proof_truthful queue keys limit w1) as (w2 & resp & Hresp & Ht).
  destruct (try_map_all (read_entry (words_of resp) cursor)
    (λ i e, verify_entry (account_storage (acct queue)) cursor i e = Ok ()) (seq 0 batch)) as (es & Hes & Hve).
  { intros i [_ Hi]%elem_of_seq. destruct (qs_entries _ _ _ Hq i) as [e He]; [unfold batch in Hi; lia|].
    apply (read_entry_truthful queue keys resp cursor i e Ht); [|done]. intros k Hk. right.
    apply list_elem_of_join. eexists. split; [exact Hk|]. apply list_elem_of_fmap. exists i. split; [done|].
    apply elem_of_seq. lia. }
  destruct (target_proofs_truthful limit (iteration (foldl note_slot ∅ es)) w2) as (w3 & ts & Hts & Htv).
  destruct (word_truthful queue keys resp head_key "Queue proof missing storage key " Ht ltac:(left)) as (hp & Hhp & _ & Hhv).
  destruct (verify_targets_truthful _ _ Htv) as (maps & Hmaps & Hslots & Hfound).
  destruct (leaves_truthful es maps Hslots) as [leaves Hleaves].
  { intros e He. destruct (note_slots es) as [_ _ Hn]. destruct (Hn e He) as (ks & Hks & Hk).
    apply (Hfound _ ks); [|done]. rewrite iteration_perm. by apply elem_of_map_to_list. }
  pose proof (tr_account _ _ _ Ht) as Hacc. destruct (qs_account _ _ _ Hq) as [a Ha]. rewrite Ha in Hacc, Hhv.
  destruct Hacc as [<- Hva]. exists w3. eexists. exists maps, leaves. split.
  - unfold prepare_queue_storage. rewrite (eff_bind_run _ _ _ _ _ _ Hhead), decide_False by lia.
    fold batch head_key keys. rewrite (eff_bind_run _ _ _ _ _ _ Hresp). rewrite Hes. unfold lift at 1.
    erewrite eff_bind_run by reflexivity. rewrite (eff_bind_run _ _ _ _ _ _ Hts), Hhp.
    erewrite eff_bind_run by reflexivity. cbn. reflexivity.
  - split_and!; [apply (tr_address _ _ _ Ht)|done|done|]. split; simpl; try done.
    + by rewrite (tr_address _ _ _ Ht).
    + by rewrite <-(qs_head _ _ _ Hq).
    + apply try_map_length in Hes. rewrite length_seq in Hes. unfold batch in Hes.
      pose proof (uint_range (batch_size cursor hd)). lia.
    + intros i e Hi. destruct (Forall2_lookup_r _ _ _ _ _ Hve Hi) as (j & [-> _]%lookup_seq & He).
      rewrite Ha in He. exact He.
Qed.
End Accepted.

(** ** Host and guest agree *)
Section Agreement.
Context `{PoseidonSponge} `{!PastaFieldLaws} `{!MerkleZerosChain} `{HeliosCore} `{!RmpSerde} `{Sha256}.
Context (iteration : gmap Address (list B256) → list (Address * list B256)).
Context (iteration_perm : ∀ m, iteration m ≡ₚ map_to_list m).

(** C4: against a truthful node the preparation succeeds at once: when the consensus
    inputs lead to a checkpoint whose state root is the node's, and the queue
    is laid out as the contract writes it, then for every chunk limit and
    every order of the targets the host returns inputs that the guest proves,
    with the consensus outputs and the queue advanced by the whole batch. *)
Theorem truthful_node_accepted join_error queue (cursor hd : u64) limit validated co w :
  queue_state queue cursor hd → consensus_program validated = Ok co →
  co_execution_state_root co = st → co_output_slot co `mod` 32 = 0 →
  ∃ w' inputs o,
    _prepare_consensus_mpt_proof_inputs iteration join_error provider queue cursor block validated st limit w
      = (w', [], Ok inputs) ∧
    consensus_mpt_program inputs = Ok o ∧ consensus_outputs o = co ∧
    po_proof_request_queue_address o = queue ∧
    uint_Z (po_output_queue_cursor o) = cursor + Z.min (hd - cursor) MAX_BATCH.
Proof.
  intros Hq Hco Hst Hslot.
  destruct (prepare_queue_storage_accepted iteration iteration_perm queue cursor hd limit w Hq)
    as (w1 & qs & maps & leaves & Hqs & Haddr & Hcur & Hhd & Hacc).
  pose proof (acc_length _ _ _ _ Hacc) as Hlen. rewrite Hcur, Hhd in Hlen.
  assert (vec_fits (entries qs)) as Hfits.
  { unfold vec_fits. assert (MAX_BATCH < 2 ^ 63) by done. lia. }
  destruct (fp_to_bytes_slice (E:=MptError) (requests_root leaves)) as (root & _ & Hroot).
  set (out := uadd cursor (batch_size cursor hd)).
  assert (uint_Z out = cursor + Z.min (hd - cursor) MAX_BATCH) as Hout by (apply cursor_advance, (qs_cursor _ _ _ Hq)).
  assert (verify_queue st qs = Ok (out, root)) as Hv.
  { apply verify_queue_Ok_iff; [done|]. exists maps, leaves. split_and!; [done|rewrite Hcur; lia|done]. }
  set (inputs := MkProofInputs (cpi_updates validated) (cpi_finality_update validated)
    (cpi_expected_current_slot validated) (cpi_store validated) (cpi_genesis_root validated)
    (cpi_forks validated) (cpi_store_hash validated) qs).
  set (o := MkProofOutputs (co_input_slot co) (co_input_store_hash co) (co_output_slot co)
    (co_output_store_hash co) (co_execution_state_root co) root (co_next_sync_committee_hash co) queue cursor
    out (co_output_block_number co)).
  assert (consensus_mpt_program inputs = Ok o) as Ho.
  { apply consensus_mpt_program_Ok.
    replace (consensus_inputs inputs) with validated by (by destruct validated).
    replace (consensus_outputs o) with co by (by destruct co).
    cbn [po_execution_state_root po_output_queue_cursor po_verified_requests_root po_output_slot
      po_proof_request_queue_address po_input_queue_cursor pi_queue_storage o inputs].
    by rewrite Hst, Hcur, Haddr. }
  exists w1, inputs, o. split_and!; [|done|by destruct co|done|done].
  unfold _prepare_consensus_mpt_proof_inputs. rewrite (eff_bind_run _ _ _ _ _ _ Hqs). fold inputs.
  unfold dry_run. rewrite Ho. done.
Qed.
End Agreement.
End Truthful.
