(* ===== verification/ExecutionRpcWitness.v ===== *)
(** * A concrete execution node

    A node for the tables of MptWitness: it answers every request, with the
    words of the tables.  The preparation of the two queued requests of that
    file runs against it. *)
From S2P Require Import Prelude Externals StorageLayout Types Merkle Instances MerkleSpec RequestLeaf Mpt MptSpec MptWitness StoreHash Consensus ConsensusSpec ConsensusWitness Detector Notice BridgeHead BridgeHeadSpec Rpc ExecutionRpc ExecutionRpcSpec ExecutionRpcComplete.

#[global] Instance toy_debug : DebugFmt := {|
  debug_address _ := "address"; debug_b256 _ := "word"; debug_u256 _ := "value"; debug_string s := s |}.

(** The state of the tables, by hashed address and key. *)
Definition n_acct (a : Address) : option TrieAccount :=
  if decide (keccak256 (fb_bytes a) = keccak256 (fb_bytes w_queue)) then Some (w_account w_queue_root)
  else if decide (keccak256 (fb_bytes a) = keccak256 (fb_bytes w_target)) then Some (w_account w_target_root)
  else None.
Definition n_value (a : Address) (key : B256) : U256 :=
  to_uint 256 (be_val (default [] (table_get w_table (account_storage (n_acct a)) (keccak256 (fb_bytes key))))).
Definition n_response (a : Address) (keys : list B256) : EIP1186AccountProofResponse :=
  let acct := default (w_account (fb_zero 32)) (n_acct a) in
  MkAccountProof a (balance acct) (code_hash acct) (nonce acct) (storage_root acct) []
    ((λ key, MkStorageProof key (n_value a key) []) <$> keys).
Definition n_node : RootProvider () :=
  MkProvider () (λ a keys _ w, (w, inl (n_response a keys))) (λ a key _ w, (w, inl (n_value a key))).

(** The rows of the tables: accounts under the state root, words elsewhere. *)
Lemma n_rows : Forall (λ '(r, _, v), r = w_state ∨ length v = 32%nat ∧ be_val v ≠ 0) w_table.
Proof. apply (bool_decide_unpack _). vm_compute. exact I. Qed.
Lemma n_word v : length v = 32%nat → be_val v ≠ 0 → Some v = expected_storage_value (to_uint 256 (be_val v)).
Proof.
  intros Hlen Hv. pose proof (be_val_bound v) as Hb. rewrite Hlen, pow256_32 in Hb.
  unfold expected_storage_value. rewrite to_uint_small by done. rewrite decide_False by done.
  unfold u256_encode, w_trie, table_trie. by rewrite to_uint_small, <-Hlen, be_bytes_be_val by done.
Qed.
Lemma n_words root key : root ≠ w_state →
  table_get w_table root key = expected_storage_value (to_uint 256 (be_val (default [] (table_get w_table root key)))).
Proof.
  intros Hroot. unfold table_get. destruct (list_find _ w_table) as [[i [[r k] v]]|] eqn:Hf; [|done].
  apply list_find_Some in Hf as (Hl & [-> ->] & _). destruct (Forall_lookup_1 _ _ _ _ n_rows Hl) as [?|[Hlen Hv]]; [done|].
  exact (n_word v Hlen Hv).
Qed.
Lemma n_roots a : account_storage (n_acct a) ≠ w_state.
Proof.
  unfold n_acct. destruct (decide _); [|destruct (decide _)];
    (apply (bool_decide_unpack _); vm_compute; exact I).
Qed.
Lemma n_account a : table_get w_table w_state (keccak256 (fb_bytes a)) = account_encode <$> n_acct a.
Proof.
  unfold n_acct, table_get.
  destruct (decide (keccak256 (fb_bytes a) = keccak256 (fb_bytes w_queue))) as [->|Hq]; [by vm_compute|].
  destruct (decide (keccak256 (fb_bytes a) = keccak256 (fb_bytes w_target))) as [->|Ht]; [by vm_compute|].
  destruct (list_find _ w_table) as [[i [[r k] v]]|] eqn:Hf; [|done]. exfalso.
  apply list_find_Some in Hf as (Hl & [-> Hk] & _).
  assert (Forall (λ '(r, k, _), r = w_state →
    k = keccak256 (fb_bytes w_queue) ∨ k = keccak256 (fb_bytes w_target)) w_table) as Hall.
  { apply (bool_decide_unpack _). vm_compute. exact I. }
  destruct (Forall_lookup_1 _ _ _ _ Hall Hl eq_refl); congruence.
Qed.

Lemma n_verify root key v : table_get w_table root key = v → verify_proof root key v [] = inl ().
Proof. intros <-. unfold verify_proof, w_trie, table_trie. by rewrite decide_True. Qed.
Lemma n_refute root key v : table_get w_table root key ≠ v → verify_proof root key v [] ≠ inl ().
Proof. intros Hne. unfold verify_proof, w_trie, table_trie. by rewrite decide_False. Qed.
Opaque w_table checksum.

Lemma n_truthful block : truthful w_state n_acct n_value n_node block.
Proof.
  split; [by intros a key []; exists ()|]. intros a keys []. exists (), (n_response a keys). split; [done|].
  unfold n_response. split; cbn [ap_address ap_storage_proof ap_account_proof].
  - done.
  - rewrite <-list_fmap_compose. apply list_fmap_id.
  - apply Forall_fmap, Forall_true. intros key. split; [done|].
    apply n_verify, n_words, n_roots.
  - pose proof (n_account a) as Ha. unfold claimed_account. cbn [ap_balance ap_code_hash ap_nonce ap_storage_hash].
    destruct (n_acct a) as [acct|]; cbn [default fmap option_fmap option_map] in *.
    + split; [by destruct acct|]. by apply n_verify.
    + split; [|by apply n_verify]. apply n_refute. unfold trie_path. simpl. simpl in Ha. by rewrite Ha.
Qed.

Definition n_validated : ConsensusProofInputs := consensus_inputs w_inputs1.
Definition n_cursor : u64 := to_uint 64 0.
Definition n_head : u64 := to_uint 64 2.
Lemma n_queued : Forall (λ '(i, e), Forall (λ '(slot, word), n_value w_queue slot = word)
  (entry_words (uadd n_cursor (to_uint 64 (Z.of_nat i))) e)) (enumerate w_entries).
Proof. apply (bool_decide_unpack _). vm_compute. exact I. Qed.
Lemma n_queue : queue_state n_acct n_value w_queue n_cursor n_head.
Proof.
  split.
  - apply (bool_decide_unpack _). vm_compute. exact I.
  - vm_compute. reflexivity.
  - done.
  - intros i Hi. change (Z.min (n_head - n_cursor) MAX_BATCH) with 2 in Hi.
    destruct (lookup_lt_is_Some_2 w_entries i) as [e He]; [change (length w_entries) with 2%nat; lia|].
    exists e. pose proof n_queued as Hall. rewrite Forall_elem in Hall.
    apply (Hall (i, e)), elem_of_enumerate, He.
Qed.

Lemma n_program : consensus_program n_validated = Ok (consensus_outputs w_outputs1) ∧
  co_execution_state_root (consensus_outputs w_outputs1) = w_state ∧
  co_output_slot (consensus_outputs w_outputs1) `mod` 32 = 0.
Proof.
  split; [apply (proj1 (consensus_mpt_program_Ok _ _) w_run1)|]. split; vm_compute; reflexivity.
Qed.

Lemma truthful_node_accepted_witness : ∃ w' inputs o,
  _prepare_consensus_mpt_proof_inputs map_to_list "join error" n_node w_queue n_cursor (to_uint 64 1032) n_validated
    w_state 3 () = (w', [], Ok inputs) ∧
  consensus_mpt_program inputs = Ok o ∧ consensus_outputs o = consensus_outputs w_outputs1 ∧
  po_proof_request_queue_address o = w_queue ∧
  uint_Z (po_output_queue_cursor o) = n_cursor + Z.min (n_head - n_cursor) MAX_BATCH.
Proof.
  exact (truthful_node_accepted w_state n_acct n_value n_node (to_uint 64 1032) (n_truthful _) map_to_list
    (λ m, reflexivity (map_to_list m)) "join error" w_queue n_cursor n_head 3 n_validated (consensus_outputs w_outputs1) ()
    n_queue (proj1 n_program) (proj1 (proj2 n_program)) (proj2 (proj2 n_program))).
Defined.

(** The result of that run. *)
Definition n_run : () * list Z * res string ProofInputs :=
  _prepare_consensus_mpt_proof_inputs map_to_list "join error" n_node w_queue n_cursor (to_uint 64 1032) n_validated
    w_state 3 ().
Definition n_inputs : ProofInputs := ok_default w_inputs1 (snd n_run).
Lemma n_run_eq :
  _prepare_consensus_mpt_proof_inputs map_to_list "join error" n_node w_queue n_cursor (to_uint 64 1032) n_validated
    w_state 3 () = (fst (fst n_run), snd (fst n_run), Ok n_inputs).
Proof.
  fold n_run. assert (is_ok (snd n_run) = true) as Hok by (vm_compute; reflexivity).
  unfold n_inputs. destruct n_run as [[w ws] [i|e|]]; done.
Qed.
Opaque n_run.

Lemma prepared_inputs_provable_witness :
  let qs := pi_queue_storage n_inputs in
  consensus_inputs n_inputs = n_validated ∧ input_cursor qs = n_cursor ∧ targets_distinct qs ∧ vec_fits (entries qs) ∧
  Z.of_nat (length (entries qs)) = Z.min (head qs - n_cursor) MAX_BATCH ∧
  ∃ o, consensus_mpt_program n_inputs = Ok o ∧
    uint_Z (po_output_queue_cursor o) = n_cursor + Z.of_nat (length (entries qs)).
Proof.
  exact (prepared_inputs_provable map_to_list (λ m, reflexivity (map_to_list m)) "join error" n_node w_queue n_cursor
    (to_uint 64 1032) n_validated w_state 3 () _ _ _ n_run_eq).
Defined.

(** A node that counts its calls and refuses the second and the third: two keys, one
    to a request. *)
Definition f_response (keys : list B256) (calls : nat) : EIP1186AccountProofResponse :=
  MkAccountProof (fb_zero 20) (to_uint 256 (Z.of_nat calls)) (fb_zero 32) (to_uint 64 0) (fb_zero 32) []
    ((λ k, MkStorageProof k (to_uint 256 (Z.of_nat calls)) []) <$> keys).
Definition f_provider : RootProvider nat := {|
  rpc_get_proof _ keys _ calls :=
    (S calls, if bool_decide (calls = 1 ∨ calls = 2)%nat then inr "busy"%string else inl (f_response keys calls));
  rpc_get_storage_at _ _ _ calls := (S calls, inr "unused"%string)
|}.
Definition f_keys : list B256 := [repeat_byte 32 x01; repeat_byte 32 x02].
Lemma get_proof_requests_witness :
  _get_proof f_provider (fb_zero 20) f_keys (to_uint 64 7) 1 0%nat =
    (4%nat, [1; 2], Ok (merged (f_response (take 1 f_keys) 0) [f_response (drop 1 f_keys) 3])) ∧
  ∃ chunks proofs, mjoin chunks = f_keys ∧
    chunks_run f_provider (fb_zero 20) (to_uint 64 7) chunks 0%nat [1; 2] proofs 4%nat.
Proof.
  split; [vm_compute; reflexivity|].
  destruct (get_proof_requests f_provider (fb_zero 20) f_keys (to_uint 64 7) 1 0%nat)
    as (chunks & proofs & Hj & _ & _ & _ & Hrun & _).
  exists chunks, proofs. split; [exact Hj|exact Hrun].
Defined.
