(* ===== verification/ExecutionRpcErrors.v ===== *)
(** * When the preparation of a witness panics

    Every failure of a node is an error of the preparation, but for one: the
    key count of an entry is read with [to::<u8>()], which panics when the node
    reports a word above 255. *)
From S2P Require Import Prelude Externals StorageLayout Types Merkle Instances MerkleSpec RequestLeaf Mpt MptSpec StoreHash Consensus ConsensusSpec Detector Notice BridgeHead BridgeHeadSpec Rpc ExecutionRpc ExecutionRpcSpec.

Section Panics.
Context {World : Type}.

Lemma rpc_call_no_panic {A} (m : World → World * (A + string)) w : ¬ panics (rpc_call m) w.
Proof. unfold panics, rpc_call. by destruct (m w). Qed.
Lemma get_proof_no_panic (provider : RootProvider World) address keys block limit w :
  ¬ panics (_get_proof provider address keys block limit) w.
Proof.
  unfold panics. intros Hp. pose proof (get_proof_run provider address keys block limit w) as Hr.
  destruct (_get_proof provider address keys block limit w) as [[w' ws] r]. simpl in Hp. subst r.
  destruct Hr as (chunks & proofs & _ & _ & _ & _ & _ & _ & Hr). by destruct proofs as [[]| |].
Qed.

Context `{Keccak}.

Lemma get_queue_head_no_panic (provider : RootProvider World) address block w :
  ¬ panics (_get_queue_head provider address block) w.
Proof.
  unfold _get_queue_head, _get_storage_word. intros [[Hc|(? & ? & [word|e] & _ & Hp)]%panics_bind|(w1 & ws & word & _ & Hp)]%panics_bind.
  - by apply rpc_call_no_panic in Hc.
  - done.
  - by apply panics_lift in Hp.
  - by case_decide.
Qed.

Context `{AlloyTrie} `{PoseidonSponge} `{DebugFmt}.

Lemma account_witness_no_panic proof st : _account_witness proof st ≠ Panic.
Proof. unfold _account_witness. by repeat destruct (verify_proof _ _ _ _). Qed.
Lemma word_at_no_panic message words key : word_at message words key ≠ Panic.
Proof. unfold word_at. by destruct (words !! key). Qed.
Lemma target_proof_no_panic (provider : RootProvider World) block st limit target w :
  ¬ panics (target_proof provider block st limit target) w.
Proof.
  destruct target as [address keys]. unfold target_proof.
  intros [Hp|(w1 & ws & proof & _ & Hp)]%panics_bind; [by apply get_proof_no_panic in Hp|].
  apply panics_bind in Hp as [Hp|(w2 & ws2 & account & _ & Hp)]; [by apply account_witness_no_panic in Hp|].
  apply panics_bind in Hp as [Hp|(w3 & ws3 & slots & _ & Hp)]; [|done]. revert Hp. apply try_map_no_panic, Forall_true.
  intros key. pose proof (word_at_no_panic "Target proof missing storage key " (words_of proof) key) as Hw.
  by destruct (word_at _ _ _) as [[]| |].
Qed.
Lemma target_proofs_no_panic (provider : RootProvider World) block st limit targets w :
  ¬ panics (target_proofs provider block st limit targets) w.
Proof.
  revert w. induction targets as [|target targets IH]; intros w; [done|].
  intros [Hp|(w1 & ws & t & _ & Hp)]%panics_bind; [by apply target_proof_no_panic in Hp|].
  apply panics_bind in Hp as [Hp|(w2 & ws2 & ts & _ & Hp)]; [by apply IH in Hp|done].
Qed.

(** ** The entries *)

(** The key of the third word of an entry, its key count. *)
Definition count_key (cursor : u64) (offset : nat) : B256 := default (fb_zero 32) (entry_keys cursor offset !! 2%nat).
(** A response answers every word of an entry. *)
Definition answered (words : gmap B256 (U256 * list Bytes)) (cursor : u64) (offset : nat) : Prop :=
  Forall (λ key, is_Some (words !! key)) (entry_keys cursor offset).
(** The key count that a response reports for an entry. *)
Definition reported_count (words : gmap B256 (U256 * list Bytes)) (cursor : u64) (offset : nat) : Z :=
  default 0 ((λ '(word, _), uint_Z word) <$> words !! count_key cursor offset).

Lemma words_read message words keys : Forall (λ key, is_Some (words !! key)) keys ↔
  ∃ ws, try_map (word_at message words) keys = Ok ws.
Proof.
  split.
  - intros Hall. destruct (try_map_steps (word_at message words) (λ _ _, True) keys) as (ws & Hws & _); [|by exists ws].
    intros key Hk. rewrite Forall_elem in Hall. destruct (Hall key Hk) as [x Hx]. exists x. unfold word_at. by rewrite Hx.
  - intros (ws & Hws%try_map_Ok). induction Hws as [|key x keys ws Hx _ IH]; constructor; [|done].
    unfold word_at in Hx. destruct (words !! key); [by eexists|done].
Qed.

(** An entry is read unless a word is missing, or the key count too large. *)
Lemma read_entry_cases words cursor offset :
  match read_entry words cursor offset with
  | Ok _ => answered words cursor offset ∧ reported_count words cursor offset < 2 ^ 8
  | Err _ => ¬ answered words cursor offset
  | Panic => answered words cursor offset ∧ 2 ^ 8 ≤ reported_count words cursor offset
  end.
Proof.
  unfold read_entry, answered. pose proof (words_read "Queue proof missing storage key " words (entry_keys cursor offset)) as Hr.
  destruct (try_map _ _) as [ws|e|] eqn:Hws; simpl.
  - apply try_map_Ok in Hws.
    assert (∃ w0 w1 w2 w3 w4, ws = [w0; w1; w2; w3; w4] ∧ words !! count_key cursor offset = Some w2) as (w0 & w1 & w2 & w3 & w4 & -> & Hc).
    { unfold count_key. unfold entry_keys in *. simpl in *.
      repeat match goal with
        | Hf : Forall2 _ (_ :: _) _ |- _ => apply Forall2_cons_inv_l in Hf as (? & ? & ? & ? & ->)
        | Hf : Forall2 _ [] _ |- _ => apply Forall2_nil_inv_l in Hf as ->
        end.
      do 5 eexists. split; [done|]. unfold word_at in *. by destruct (words !! struct_word_slot _ (to_uint 8 (Z.of_nat 2))); simplify_eq/=. }
    unfold entry_of_words, reported_count. rewrite Hc. destruct w0, w1, w2 as [w2 p2], w3, w4. simpl.
    destruct (decide (w2 < 2 ^ 8)); (split; [apply Hr; by eexists|lia]).
  - intros (ws & ?)%Hr. done.
  - exfalso. revert Hws. apply try_map_no_panic, Forall_true. intros. apply word_at_no_panic.
Qed.

Context (iteration : gmap Address (list B256) → list (Address * list B256)).
Context `{HeliosCore} `{!RmpSerde} `{Sha256}.

(** The keys that the queue proof asks for. *)
Definition queue_keys (cursor : u64) (batch : nat) : list B256 :=
  storage_slot_of_index QUEUE_HEAD_STORAGE_INDEX :: mjoin (entry_keys cursor <$> seq 0 batch).

(** C27: the preparation of a witness panics in one case only: the head of the
    queue and the proof of the batch are answered, every word up to some entry
    is answered too, and the key count reported for that entry is above 255,
    those before it are not.  Every other failure, whatever the nodes answer
    and wherever it happens (the head, the queue proof, a missing word, a
    target, the dry run of the guest), is an error that the caller reports. *)
Theorem preparation_panics_iff join_error (provider : RootProvider World) address cursor block validated st limit w :
  panics (_prepare_consensus_mpt_proof_inputs iteration join_error provider address cursor block validated st limit) w ↔
  ∃ w1 ws1 hd w2 ws2 proof,
    _get_queue_head provider address block w = (w1, ws1, Ok hd) ∧ cursor ≤ hd ∧
    let batch := Z.to_nat (Z.min (hd - cursor) MAX_BATCH) in
    _get_proof provider address (queue_keys cursor batch) block limit w1 = (w2, ws2, Ok proof) ∧
    ∃ offset, (offset < batch)%nat ∧ 2 ^ 8 ≤ reported_count (words_of proof) cursor offset ∧
      (∀ i, (i ≤ offset)%nat → answered (words_of proof) cursor i) ∧
      ∀ i, (i < offset)%nat → reported_count (words_of proof) cursor i < 2 ^ 8.
Proof.
  unfold _prepare_consensus_mpt_proof_inputs. rewrite panics_bind.
  assert (∀ (P : Prop) Q, ¬ Q → (P ∨ Q ↔ P)) as Hor by tauto. rewrite Hor; clear Hor.
  2: { intros (w1 & ws & qs & _ & Hp). apply panics_bind in Hp as [Hp%panics_lift|(? & ? & ? & _ & Hp)]; [|done].
    unfold dry_run in Hp. by destruct (consensus_mpt_program _). }
  unfold prepare_queue_storage. split.
  - intros [Hp|(w1 & ws1 & hd & Hh & Hp)]%panics_bind; [by apply get_queue_head_no_panic in Hp|].
    destruct (decide (hd < cursor)); [done|].
    rewrite batch_size_Z in Hp by lia. fold (queue_keys cursor (Z.to_nat (Z.min (hd - cursor) MAX_BATCH))) in Hp.
    apply panics_bind in Hp as [Hp|(w2 & ws2 & proof & Hq & Hp)]; [by apply get_proof_no_panic in Hp|].
    exists w1, ws1, hd, w2, ws2, proof. split_and!; [done|lia|done|].
    apply panics_bind in Hp as [Hp|(w3 & ws3 & es & _ & Hp)].
    + apply panics_lift, try_map_Panic in Hp as (i & offset & [-> Hi]%lookup_seq & Hpanic & Hbefore). rewrite Nat.add_0_l in *.
      pose proof (read_entry_cases (words_of proof) cursor i) as Hc. rewrite Hpanic in Hc.
      assert (∀ j, (j < i)%nat → answered (words_of proof) cursor j ∧ reported_count (words_of proof) cursor j < 2 ^ 8) as Hj.
      { intros j Hj. destruct (Hbefore j) as [e He].
        - rewrite take_seq. apply elem_of_seq. lia.
        - pose proof (read_entry_cases (words_of proof) cursor j) as Hcj. by rewrite He in Hcj. }
      exists i. split_and!; [done|apply Hc| |intros; by apply Hj]. intros j Hle.
      destruct (decide (j = i)) as [->|]; [apply Hc|apply Hj; lia].
    + exfalso. apply panics_bind in Hp as [Hp|(w4 & ws4 & ts & _ & Hp)]; [by apply target_proofs_no_panic in Hp|].
      apply panics_bind in Hp as [Hp%panics_lift|(? & ? & [] & _ & Hp)]; [by apply word_at_no_panic in Hp|done].
  - intros (w1 & ws1 & hd & w2 & ws2 & proof & Hh & Hle & Hq & offset & Hlt & Hbig & Hans & Hsmall).
    apply panics_bind. right. exists w1, ws1, hd. split; [done|]. rewrite decide_False by lia.
    rewrite batch_size_Z by lia. apply panics_bind. right. exists w2, ws2, proof. split; [exact Hq|].
    apply panics_bind. left. apply panics_lift, try_map_Panic. exists offset, offset.
    rewrite lookup_seq_lt by done. split_and!; [done| |].
    + pose proof (read_entry_cases (words_of proof) cursor offset) as Hc.
      destruct (read_entry _ _ _); [lia|by destruct Hc; apply Hans|done].
    + intros j Hj. rewrite take_seq in Hj. apply elem_of_seq in Hj.
      pose proof (read_entry_cases (words_of proof) cursor j) as Hc.
      destruct (read_entry (words_of proof) cursor j) as [e|e|]; [by exists e|destruct Hc; apply Hans; lia|].
      specialize (Hsmall j). lia.
Qed.
End Panics.
