(* ===== verification/ConsensusRpc.v ===== *)
(** * nori/src/rpcs/consensus/mod.rs: validated inputs from beacon nodes

    A light client is bootstrapped at the input slot, its store is brought back
    to the state the last proof ended in, and the transition to the finality
    head is run natively before anything is proved.  Several beacon nodes are
    asked at once; the first validated answer goes to the execution node. *)
From stdpp Require Import pretty.
From S2P Require Import Prelude Externals StorageLayout Types Merkle RequestLeaf Mpt StoreHash Consensus Rpc ExecutionRpc.

(** The accessors of the helios types that the host uses, and beacon blocks. *)
Class HeliosHost `{HeliosCore} := {
  update_finalized_header : Update → LightClientHeader;
  finality_finalized_header : FinalityUpdate → LightClientHeader;
  (** the [{}] form of the error of [verify_update] *)
  verify_error_display : VerifyError → string;
  (** [calc_sync_period::<S>] *)
  calc_sync_period : u64 → u64;
  BeaconBlock : Type;
  (** [B256::from_slice(block.tree_hash_root().as_ref())] *)
  block_root : BeaconBlock → B256
}.

Definition MAX_REQUEST_LIGHT_CLIENT_UPDATES : u8 := to_uint 8 128.

Section ConsensusRpc.
  Context `{HeliosHost} {World : Type}.

(** [helios_ethereum]'s [ConsensusRpc], with [Inner::bootstrap] (which checks the
    checkpoint against the bootstrap data it fetches) and the client's clock. *)
Record BeaconNode := MkBeaconNode {
  rpc_get_block : u64 → World → World * (BeaconBlock + string);
  rpc_bootstrap : B256 → World → World * (LightClientStore + string);
  rpc_get_finality_update : World → World * (FinalityUpdate + string);
  rpc_get_updates : u64 → u8 → World → World * (list Update + string);
  expected_current_slot : World → u64
}.

(** The configuration that [Client::new] derives from the environment. *)
Record ChainConfig := MkChainConfig { genesis_root : B256; forks : Forks }.
Record Client := MkClient { client_node : BeaconNode; client_store : LightClientStore; client_config : ChainConfig }.

(** A call that fails with a message of its own. *)
Definition node_call {A} (context : string) (m : World → World * (A + string)) : rpc World A :=
  answer ← rpc_call m;
  match answer with inl a => mret a | inr e => lift (Err (context +:+ e)) end.

(** [new_result] is what [Client::new] returns: a configuration or an error. *)
Definition bootstrap_from_checkpoint (new_result : res string ChainConfig) (consensus_rpc : BeaconNode) (checkpoint : B256)
    : rpc World Client :=
  config ← lift new_result;
  store ← node_call "Failed to bootstrap client with checkpoint: " (rpc_bootstrap consensus_rpc checkpoint);
  mret (MkClient consensus_rpc store config).

Definition bootstrap_from_slot (new_result : res string ChainConfig) (consensus_rpc : BeaconNode) (slot : u64)
    : rpc World Client :=
  _ ← lift new_result;
  block ← node_call ("Failed to fetch block for slot " +:+ pretty (uint_Z slot) +:+ ": ") (rpc_get_block consensus_rpc slot);
  bootstrap_from_checkpoint new_result consensus_rpc (block_root block).

Definition get_current_finalizer_header_beacon_slot (client : Client) : u64 :=
  beacon_slot (finalized_header (client_store client)).

Definition get_latest_finality_update (client : Client) : rpc World FinalityUpdate :=
  node_call "Failed to fetch finality update via RPC: " (rpc_get_finality_update (client_node client)).

Definition get_latest_finality_slot (client : Client) : rpc World u64 :=
  finality_update ← get_latest_finality_update client;
  mret (beacon_slot (finality_finalized_header finality_update)).

Definition get_updates (client : Client) : rpc World (list Update) :=
  let period := calc_sync_period (beacon_slot (finalized_header (client_store client))) in
  node_call "" (rpc_get_updates (client_node client) period MAX_REQUEST_LIGHT_CLIENT_UPDATES).

Definition get_first_update (client : Client) : rpc World Update :=
  let period := calc_sync_period (get_current_finalizer_header_beacon_slot client) in
  updates ← node_call ("Failed to fetch light client updates for period " +:+ pretty (uint_Z period) +:+ ": ")
    (rpc_get_updates (client_node client) period (to_uint 8 1));
  match updates with
  | [] => lift (Err "Error updates were missing 0th update."%string)
  | first :: _ => mret first
  end.

Definition set_committee (next : option SyncCommittee) (previous current : u64) (store : LightClientStore) : LightClientStore :=
  MkStore (finalized_header store) (current_sync_committee store) next previous current (store_rest store).

Definition get_store_with_next_sync_committee (expected_current_slot : u64) (store : LightClientStore)
    (genesis_root : B256) (forks : Forks) (first_update : Update) : res string LightClientStore :=
  let store_clone := store in
  match verify_update first_update expected_current_slot store genesis_root forks with
  | inr e => Err ("Verify update failed: " +:+ verify_error_display e)
  | inl _ =>
    let store := apply_update store first_update in
    Ok (set_committee (next_sync_committee store) (previous_max_active_participants store)
          (current_max_active_participants store) store_clone)
  end.

(** The store to prove from, and the updates that are left. *)
Definition synced_store (expected_current_slot input_slot : u64) (store : LightClientStore) (config : ChainConfig)
    (updates : list Update) : res string (list Update * LightClientStore) :=
  match updates with
  | [] => Err "Error updates were missing 0th update."%string
  | first_update :: rest =>
    let first_update_slot := beacon_slot (update_finalized_header first_update) in
    if decide (first_update_slot < input_slot) then
      match verify_update first_update expected_current_slot store (genesis_root config) (forks config) with
      | inr e => Err ("Verify update failed: " +:+ verify_error_display e)
      | inl _ => Ok (rest, apply_update store first_update)
      end
    else
      store ← get_store_with_next_sync_committee expected_current_slot store (genesis_root config) (forks config)
        first_update;
      Ok (updates, store)
  end.

Definition prepare_consensus_proof_inputs (new_result : res string ChainConfig) (consensus_rpc : BeaconNode)
    (input_slot : u64) (store_hash : B256) : rpc World ConsensusProofInputs :=
  client ← bootstrap_from_slot new_result consensus_rpc input_slot;
  finality_update ← get_latest_finality_update client;
  updates ← get_updates client;
  expected_current_slot ← gets (expected_current_slot (client_node client));
  '(updates, store) ← lift (synced_store expected_current_slot input_slot (client_store client) (client_config client) updates);
  mret (MkConsensusProofInputs updates finality_update expected_current_slot store
          (genesis_root (client_config client)) (forks (client_config client)) store_hash).

Context `{!RmpSerde} `{Sha256} `{DebugFmt}.

(** [latest_checkpoint] is what [get_latest_checkpoint] fetched. *)
Definition get_latest_finality_slot_and_store_hash (new_result : res string ChainConfig)
    (latest_checkpoint : res string B256) (consensus_rpc : BeaconNode) : rpc World (u64 * B256) :=
  latest_checkpoint ← lift latest_checkpoint;
  client ← bootstrap_from_checkpoint new_result consensus_rpc latest_checkpoint;
  let slot := get_current_finalizer_header_beacon_slot client in
  first_update ← get_first_update client;
  expected_current_slot ← gets (expected_current_slot (client_node client));
  synced_store ← lift (get_store_with_next_sync_committee expected_current_slot (client_store client)
    (genesis_root (client_config client)) (forks (client_config client)) first_update);
  store_hash ← lift (sha256_hash_helios_store synced_store);
  mret (slot, store_hash).

(** ** The native run in a blocking task *)

Definition run_and_validate (join_error : string) (validate : bool) (input_slot : u64) (consensus_proof_inputs : ConsensusProofInputs)
    : res string (u64 * ConsensusProofInputs * B256 * B256 * u64) :=
  match consensus_program consensus_proof_inputs with
  | Panic => Err join_error
  | Err e => Err (program_error_fmt e)
  | Ok proof_outputs =>
    let output_slot := co_output_slot proof_outputs in
    if validate && bool_decide (output_slot ≤ input_slot) then
      Err ("Output slot " +:+ pretty (uint_Z output_slot) +:+ " was not greater than input slot " +:+ pretty (uint_Z input_slot))
    else if validate && bool_decide (checkpoint_remainder output_slot > 0) then
      Err ("Output slot " +:+ pretty (uint_Z output_slot)
           +:+ " was a non-checkpoint slot. Preventing this as it prevents bootstrapping if we go offline.")
    else if validate && bool_decide (co_next_sync_committee_hash proof_outputs = fb_zero 32) then
      Err "Next sync committee was zero. Preventing this as it could stop the recovery of the input_store_hash when restarting."%string
    else
      Ok (output_slot, consensus_proof_inputs, co_output_store_hash proof_outputs,
          co_execution_state_root proof_outputs, co_output_block_number proof_outputs)
  end.

(** The output slot must be one that can be bootstrapped from. *)
Definition check_bootstraps (new_result : res string ChainConfig) (url : BeaconNode) (url_text : string) (output_slot : u64)
    : rpc World () :=
  λ w, match bootstrap_from_slot new_result url output_slot w with
       | (w', ws, Ok _) => (w', ws, Ok ())
       | (w', ws, Err e) =>
         (w', ws, Err ("Failed to bootstrap from slot " +:+ pretty (uint_Z output_slot) +:+ " using " +:+ url_text
           +:+ ". Preventing the use of this output_slot as it could lead to a stall of the bridge:
" +:+ e))
       | (w', ws, Panic) => (w', ws, Panic)
       end.

(** What one beacon node contributes. *)
Definition validated_transition (join_error : string) (new_result : res string ChainConfig) (url : BeaconNode) (url_text : string)
    (validate : bool) (input_slot : u64) (store_hash : B256)
    : rpc World (u64 * ConsensusProofInputs * B256 * B256 * u64) :=
  consensus_proof_inputs ← prepare_consensus_proof_inputs new_result url input_slot store_hash;
  result ← (lift (run_and_validate join_error validate input_slot consensus_proof_inputs) : rpc World _);
  let '(output_slot, _, _, _, _) := result in
  _ ← (if validate then check_bootstraps new_result url url_text output_slot else mret ());
  mret result.

Context `{Keccak} `{AlloyTrie} `{PoseidonSponge} {XWorld : Type}.
Context (iteration : gmap Address (list B256) → list (Address * list B256)).

(** [ConsensusHttpProxy] *)
Record ConsensusHttpProxy := MkConsensusHttpProxy {
  principal_provider_url : BeaconNode;
  backup_providers_urls : list BeaconNode;
  all_providers_urls : list BeaconNode;
  consensus_validation_timeout : string;
  execution_proxy : ExecutionHttpProxy (World := XWorld)
}.

(** How the nodes behave during one preparation: what each sees, whether its
    deadline passes first, and the order in which they complete. *)
Record Circumstances := MkCircumstances {
  beacon_world : BeaconNode → World;
  beacon_late : BeaconNode → bool;
  beacon_finish : list BeaconNode;
  beacon_text : BeaconNode → string;
  execution_world : RootProvider XWorld → XWorld;
  execution_late : RootProvider XWorld → bool;
  execution_finish : list (RootProvider XWorld)
}.

Definition consensus_prepare_mpt (join_error : string) (new_result : res string ChainConfig) (self : ConsensusHttpProxy)
    (c : Circumstances) (input_slot : u64) (store_hash : B256) (input_queue_cursor : u64) (validate : bool)
    : res string ProofInputsWithWindow :=
  '(output_slot, validated_consensus_proof_inputs, expected_output_store_hash, expected_execution_state_root,
    expected_output_block_number) ←
    multiplex (consensus_validation_timeout self)
      (λ url, if beacon_late c url then None else
        Some (snd (validated_transition join_error new_result url (beacon_text c url) validate input_slot store_hash
                     (beacon_world c url))))
      (all_providers_urls self) (beacon_finish c);
  match execution (finalized_header (cpi_store validated_consensus_proof_inputs)) with
  | inr _ => Err "Failed to get input finalized execution header"%string
  | inl execution_header =>
    let input_block_number := payload_block_number execution_header in
    prepare_consensus_mpt_proof_inputs iteration join_error (execution_proxy self) (execution_world c) (execution_late c)
      (execution_finish c) input_slot output_slot input_block_number expected_output_block_number input_queue_cursor
      validated_consensus_proof_inputs expected_output_store_hash expected_execution_state_root
  end.

(** [CONSENSUS_PROVIDER_TIMEOUT], by its [Debug] text. *)
Definition CONSENSUS_PROVIDER_TIMEOUT : string := "20s".

Definition proxy_latest_finality_slot_and_store_hash (new_result : res string ChainConfig)
    (latest_checkpoint : BeaconNode → res string B256) (self : ConsensusHttpProxy) (c : Circumstances) : res string (u64 * B256) :=
  query_with_fallback CONSENSUS_PROVIDER_TIMEOUT
    (λ url, if beacon_late c url then None else
      Some (snd (get_latest_finality_slot_and_store_hash new_result (latest_checkpoint url) url (beacon_world c url))))
    (principal_provider_url self) (backup_providers_urls self) (beacon_finish c).

Definition proxy_latest_finality_slot (new_result : res string ChainConfig)
    (latest_checkpoint : BeaconNode → res string B256) (self : ConsensusHttpProxy) (c : Circumstances) : res string u64 :=
  multiplex CONSENSUS_PROVIDER_TIMEOUT
    (λ url, if beacon_late c url then None else
      Some (snd ((checkpoint ← lift (latest_checkpoint url);
                  client ← bootstrap_from_checkpoint new_result url checkpoint;
                  get_latest_finality_slot client) (beacon_world c url))))
    (all_providers_urls self) (beacon_finish c).
End ConsensusRpc.
