(* ===== verification/ConsensusRpcSpec.v ===== *)
(** * What a validated window guarantees

    The windows that the detector emits and the observer stages come from
    [consensus_prepare_mpt]; whatever the nodes answered, a window agrees with
    the outputs that its proof will commit. *)
From S2P Require Import Prelude Externals StorageLayout Types Merkle Instances MerkleSpec RequestLeaf Mpt MptSpec StoreHash Consensus ConsensusSpec Detector DetectorSpec Notice BridgeHead BridgeHeadSpec Rpc ExecutionRpc ExecutionRpcSpec ConsensusRpc.

Lemma multiplex_sound {P R} t (f : P → outcome R) providers finish r :
  multiplex t f providers finish = Ok r → ∃ p, p ∈ finish ∧ f p = Some (Ok r).
Proof.
  unfold multiplex. destruct providers as [|p0 ps]; [done|]. destruct (select_ok _) eqn:Hs; intros [= ->].
  apply select_ok_Ok, list_elem_of_fmap in Hs as (p & Hp & Hin). exists p. split; [done|].
  unfold within_timeout in Hp. destruct (f p); naive_solver.
Qed.

Section Native.
Context `{HeliosHost} `{!RmpSerde} `{Sha256} `{DebugFmt} {World : Type}.

Lemma consensus_program_store_hash i o : consensus_program i = Ok o → co_input_store_hash o = cpi_store_hash i.
Proof.
  rewrite consensus_program_Ok. intros (store' & payload & hash & _ & _ & _ & ->). by destruct i.
Qed.

(** Each field that the native run returns is an output of the program. *)
Lemma run_and_validate_Ok join_error validate slot inputs result :
  run_and_validate join_error validate slot inputs = Ok result →
  ∃ o, consensus_program inputs = Ok o ∧
    result = (co_output_slot o, inputs, co_output_store_hash o, co_execution_state_root o, co_output_block_number o) ∧
    (validate = true → slot < co_output_slot o ∧ co_output_slot o `mod` 32 = 0 ∧ co_next_sync_committee_hash o ≠ fb_zero 32).
Proof.
  unfold run_and_validate. destruct (consensus_program inputs) as [o|e|]; [|done..]. intros Hr. exists o.
  destruct validate; simpl in Hr; [|by injection Hr as <-].
  destruct (bool_decide (co_output_slot o ≤ slot)) eqn:Hle; [done|]. apply bool_decide_eq_false in Hle.
  destruct (bool_decide (checkpoint_remainder (co_output_slot o) > 0)) eqn:Hc; [done|]. apply bool_decide_eq_false in Hc.
  destruct (bool_decide (co_next_sync_committee_hash o = fb_zero 32)) eqn:Hn; [done|]. apply bool_decide_eq_false in Hn.
  injection Hr as <-. split_and!; [done..|]. intros _. unfold checkpoint_remainder in Hc.
  pose proof (Z.mod_pos_bound (co_output_slot o) 32). split_and!; [lia|lia|done].
Qed.
Lemma prepare_consensus_store_hash new_result (url : BeaconNode (World:=World)) slot h w w' ws inputs :
  prepare_consensus_proof_inputs new_result url slot h w = (w', ws, Ok inputs) → cpi_store_hash inputs = h.
Proof.
  unfold prepare_consensus_proof_inputs. intros Hp.
  apply eff_bind_Ok in Hp as (? & ? & client & ? & _ & Hp & _). apply eff_bind_Ok in Hp as (? & ? & fu & ? & _ & Hp & _).
  apply eff_bind_Ok in Hp as (? & ? & us & ? & _ & Hp & _). apply eff_bind_Ok in Hp as (? & ? & now & ? & _ & Hp & _).
  apply eff_bind_Ok in Hp as (? & ? & [us' store] & ? & _ & Hp & _). by apply ret_Ok in Hp as (_ & _ & ->).
Qed.
Lemma validated_transition_Ok join_error new_result (url : BeaconNode (World:=World)) text validate slot h w w' ws result :
  validated_transition join_error new_result url text validate slot h w = (w', ws, Ok result) →
  ∃ inputs, cpi_store_hash inputs = h ∧ run_and_validate join_error validate slot inputs = Ok result.
Proof.
  unfold validated_transition. intros Hp. apply eff_bind_Ok in Hp as (? & ? & inputs & ? & Hi & Hp & _).
  apply eff_bind_Ok in Hp as (? & ? & [[[[s i] sh] sr] bn] & ? & Hr & Hp & _). apply lift_Ok in Hr as (_ & _ & Hr).
  apply eff_bind_Ok in Hp as (? & ? & ? & ? & _ & Hp & _). apply ret_Ok in Hp as (_ & _ & ->).
  exists inputs. split; [by eapply prepare_consensus_store_hash|done].
Qed.
End Native.

Section Window.
Context `{HeliosHost} `{!RmpSerde} `{Sha256} `{DebugFmt} `{Keccak} `{AlloyTrie} `{PoseidonSponge}.
Context `{!PastaFieldLaws} `{!MerkleZerosChain} {World XWorld : Type}.
Context (iteration : gmap Address (list B256) → list (Address * list B256)).
Context (iteration_perm : ∀ m, iteration m ≡ₚ map_to_list m).

(** The window agrees with the outputs [o] of its own inputs. *)
Record window_agrees (w : ProofInputsWithWindow) (o : ProofOutputs) : Prop := {
  agrees_program : consensus_mpt_program (proof_inputs w) = Ok o;
  agrees_slot : po_output_slot o = expected_output_slot w;
  agrees_store_hash : po_output_store_hash o = expected_output_store_hash w;
  agrees_block : po_output_block_number o = expected_output_block_number w;
  agrees_cursor : po_output_queue_cursor o = expected_output_queue_cursor w;
  agrees_staged : staged_queue_cursor (proof_inputs w) = expected_output_queue_cursor w;
  agrees_checkpoint : expected_output_slot w `mod` 32 = 0;
  agrees_targets : targets_distinct (pi_queue_storage (proof_inputs w));
  agrees_fits : vec_fits (entries (pi_queue_storage (proof_inputs w)))
}.

Lemma execution_prepare_Ok join_error proxy world late finish slot out_slot in_block out_block cursor validated co sh w :
  consensus_program validated = Ok co → co_output_slot co = out_slot → co_output_store_hash co = sh →
  co_output_block_number co = out_block →
  prepare_consensus_mpt_proof_inputs (World:=XWorld) iteration join_error proxy world late finish slot out_slot in_block
    out_block cursor validated sh (co_execution_state_root co) = Ok w →
  finish ≡ₚ backup_providers proxy →
  input_slot w = slot ∧ ∃ o, window_agrees w o ∧ consensus_outputs o = co ∧ po_input_queue_cursor o = cursor.
Proof.
  intros Hco <- <- <- Hp Hfin. unfold prepare_consensus_mpt_proof_inputs in Hp.
  apply bind_Ok in Hp as (inputs & Hq & Hp). injection Hp as <-. split; [done|].
  apply query_with_fallback_sound in Hq as (p & _ & Hq); [|done]. destruct (late p); [done|].
  injection Hq as Hq. destruct (_prepare_consensus_mpt_proof_inputs _ _ _ _ _ _ _ _ _ _) as [[w' ws] r] eqn:Hrun.
  simpl in Hq. subst r.
  destruct (prepared_inputs_ok iteration iteration_perm _ _ _ _ _ _ _ _ _ _ _ _ Hrun)
    as (Hval & Hcur & Hdist & Hfits & _ & o & Ho & Hout).
  exists o. pose proof Ho as (Hcons & _ & Hmod & _ & Hin)%consensus_mpt_program_Ok. rewrite Hval, Hco in Hcons.
  injection Hcons as ->.
  assert (po_output_queue_cursor o = uadd cursor (len_u64 (entries (pi_queue_storage inputs)))) as Hadd.
  { apply uint_eq. rewrite uadd_small; rewrite len_u64_fits by done; [done|]. rewrite <-Hout. apply uint_range. }
  split_and!; [|done|by rewrite Hin, Hcur].
  split; simpl; try done. unfold staged_queue_cursor. by rewrite Hcur.
Qed.

Lemma validated_window_ok join_error new_result (proxy : ConsensusHttpProxy (World:=World) (XWorld:=XWorld)) c slot h cursor validate w :
  execution_finish c ≡ₚ backup_providers (execution_proxy proxy) →
  consensus_prepare_mpt iteration join_error new_result proxy c slot h cursor validate = Ok w →
  input_slot w = slot ∧ ∃ o, window_agrees w o ∧ po_input_store_hash o = h ∧ po_input_queue_cursor o = cursor ∧
    (validate = true → slot < po_output_slot o ∧ po_next_sync_committee_hash o ≠ fb_zero 32).
Proof.
  intros Hfin Hp. unfold consensus_prepare_mpt in Hp.
  apply bind_Ok in Hp as ([[[[out_slot validated] sh] sr] bn] & Hm & Hp).
  apply multiplex_sound in Hm as (url & _ & Hm). destruct (beacon_late c url); [done|]. injection Hm as Hm.
  destruct (validated_transition _ _ _ _ _ _ _ _) as [[w1 ws1] r] eqn:Hv. simpl in Hm. subst r.
  apply validated_transition_Ok in Hv as (inputs & Hh & (co & Hco & Hres & Hvalid)%run_and_validate_Ok).
  injection Hres as -> -> -> -> ->. destruct (execution _) as [payload|]; [|done].
  apply (execution_prepare_Ok _ _ _ _ _ _ _ _ _ _ _ co) in Hp as (Hin & o & Hagree & Ho & Hcur); [|done..].
  split; [done|]. exists o. apply consensus_program_store_hash in Hco. rewrite Hh, <-Ho in Hco.
  split_and!; [done|done|done|]. intros Hval. rewrite <-Ho in Hvalid. destruct (Hvalid Hval) as (? & _ & ?). done.
Qed.

(** C9: a window promises what its proof will commit: whatever the nodes answered and
    in whatever order, the guest accepts the inputs of a prepared window, and
    its outputs are the slot, store hash, block and cursor the window expects,
    from the store hash and cursor asked for; with validation the slot
    advances and the next committee is known; the output slot is a checkpoint
    with or without validation. *)
Theorem validated_window_agrees join_error new_result (proxy : ConsensusHttpProxy (World:=World) (XWorld:=XWorld)) c slot h cursor validate w :
  execution_finish c ≡ₚ backup_providers (execution_proxy proxy) →
  consensus_prepare_mpt iteration join_error new_result proxy c slot h cursor validate = Ok w →
  input_slot w = slot ∧ ∃ o, window_agrees w o ∧ po_input_store_hash o = h ∧ po_input_queue_cursor o = cursor ∧
    (validate = true → slot < po_output_slot o ∧ po_next_sync_committee_hash o ≠ fb_zero 32).
Proof. apply validated_window_ok. Qed.

(** The law the detector relies on. *)
Lemma host_prepare_law join_error new_result (proxy : ConsensusHttpProxy (World:=World) (XWorld:=XWorld)) c :
  execution_finish c ≡ₚ backup_providers (execution_proxy proxy) →
  prepare_law (consensus_prepare_mpt iteration join_error new_result proxy c).
Proof. intros Hfin s h cur v w Hp. by apply (validated_window_ok _ _ _ _ _ _ _ _ _ Hfin) in Hp as [? _]. Qed.
End Window.
