(* ===== verification/ConsensusRpcWitness.v ===== *)
(** * A concrete beacon node

    One beacon node beside the execution node of ExecutionRpcWitness: a client
    at slot 7, one committee update at slot 20 and finality at slot 32. *)
From S2P Require Import Prelude Externals StorageLayout Types Merkle Instances MerkleSpec RequestLeaf Mpt MptSpec MptWitness StoreHash Consensus ConsensusSpec ConsensusWitness Detector Notice BridgeHead BridgeHeadSpec Rpc ExecutionRpc ExecutionRpcSpec ExecutionRpcComplete ExecutionRpcWitness ConsensusRpc ConsensusRpcSpec.

#[global] Instance toy_host_types : HeliosHost := {|
  update_finalized_header u := fst u;
  finality_finalized_header f := f;
  verify_error_display e := e;
  calc_sync_period s := to_uint 64 (s / 8192);
  BeaconBlock := u64;
  block_root b := fb_of_Z 32 b
|}.

Definition b_update : Update := (w_header 20, repeat_byte 32 x32).
Definition b_node : BeaconNode (World := ()) :=
  MkBeaconNode (λ s w, (w, inl s)) (λ _ w, (w, inl (w_store 7 512))) (λ w, (w, inl (w_header 32 : FinalityUpdate)))
    (λ _ _ w, (w, inl [b_update])) (λ _, to_uint 64 100).
(** The store that the last proof ended in: the bootstrapped one with the next committee. *)
Definition b_hash : B256 := w_hash (set_committee (Some (repeat_byte 32 x32)) (to_uint 64 0) (to_uint 64 512) (w_store 7 512)).
Definition b_config : ChainConfig := MkChainConfig (fb_zero 32) (() : Forks).
Definition b_proxy : ConsensusHttpProxy (World := ()) (XWorld := ()) :=
  MkConsensusHttpProxy b_node [] [b_node] "300s" (MkExecutionHttpProxy n_node [] w_queue "300s" 100).
Definition b_circumstances : Circumstances (World := ()) (XWorld := ()) :=
  MkCircumstances (λ _, ()) (λ _, false) [b_node] (λ _, "http://beacon"%string) (λ _, ()) (λ _, false) [].
Definition b_window : ProofInputsWithWindow :=
  ok_default (MkProofInputsWithWindow (to_uint 64 0) (to_uint 64 0) (to_uint 64 0) (to_uint 64 0) w_inputs1 (fb_zero 32) n_cursor)
    (consensus_prepare_mpt map_to_list "join error" (Ok b_config) b_proxy b_circumstances (to_uint 64 7) b_hash n_cursor true).
Lemma b_run :
  consensus_prepare_mpt map_to_list "join error" (Ok b_config) b_proxy b_circumstances (to_uint 64 7) b_hash n_cursor true
  = Ok b_window.
Proof. apply ok_default_eq. vm_compute. reflexivity. Qed.

Lemma validated_window_agrees_witness :
  input_slot b_window = to_uint 64 7 ∧ ∃ o, window_agrees b_window o ∧ po_input_store_hash o = b_hash ∧
    po_input_queue_cursor o = n_cursor ∧
    (true = true → to_uint 64 7 < po_output_slot o ∧ po_next_sync_committee_hash o ≠ fb_zero 32).
Proof.
  exact (validated_window_agrees map_to_list (λ m, reflexivity (map_to_list m)) "join error" (Ok b_config) b_proxy
    b_circumstances (to_uint 64 7) b_hash n_cursor true b_window (Permutation_refl []) b_run).
Defined.
