(* ===== verification/FixtureGenerator.v ===== *)
(** * nori-test-fixtures: the generator of the non-checkpoint fixture

    [generate_non_checkpoint_fixture] starts at the latest finalized slot and
    chains unvalidated windows until one ends in a slot that is not a checkpoint;
    the inputs of that window are the fixture of the regression test
    nori/tests/1eb72_non_checkpoint_regression.rs.  Every preparation runs the
    guest, which rejects such a slot, so the loop has no exit. *)
From S2P Require Import Prelude Externals StorageLayout Types Merkle Instances MerkleSpec RequestLeaf Mpt MptSpec MptWitness StoreHash Consensus ConsensusSpec ConsensusWitness Detector DetectorSpec Notice BridgeHead BridgeHeadSpec Rpc ExecutionRpc ExecutionRpcSpec ExecutionRpcComplete ExecutionRpcWitness ConsensusRpc ConsensusRpcSpec ConsensusRpcWitness.

Section Generator.
Context `{HeliosHost} `{!RmpSerde} `{Sha256} `{DebugFmt} `{Keccak} `{AlloyTrie} `{PoseidonSponge} {World XWorld : Type}.
Context (iteration : gmap Address (list B256) → list (Address * list B256)).
Context (join_error : string) (new_result : res string ChainConfig).
Context (latest_checkpoint : BeaconNode (World:=World) → res string B256).
Context (consensus_client : ConsensusHttpProxy (World:=World) (XWorld:=XWorld)).

(** Where [main] is: in the cold start, in the loop, or past the write of the fixture. *)
Inductive Generator :=
| ColdStart
| Chaining (input_slot : u64) (store_hash : B256)
| Written (output_slot : u64) (fixture : ProofInputs).

(** One attempt of the cold start, or one round of the loop; an error is
    retried after [SLOT_DURATION_SECS]. *)
Definition generator_round (g : Generator) (c : Circumstances (World:=World) (XWorld:=XWorld)) : res string Generator :=
  match g with
  | ColdStart =>
    match proxy_latest_finality_slot_and_store_hash new_result latest_checkpoint consensus_client c with
    | Ok (slot, store_hash) => Ok (Chaining slot store_hash)
    | Err _ => Ok ColdStart
    | Panic => Panic
    end
  | Chaining input_slot store_hash =>
    match consensus_prepare_mpt iteration join_error new_result consensus_client c input_slot store_hash (to_uint 64 0) false with
    | Ok w =>
      let output_slot := expected_output_slot w in
      if decide (checkpoint_remainder output_slot ≠ 0) then Ok (Written output_slot (proof_inputs w))
      else Ok (Chaining output_slot (expected_output_store_hash w))
    | Err _ => Ok (Chaining input_slot store_hash)
    | Panic => Panic
    end
  | Written _ _ => Ok g
  end.

(** [main], for as many rounds as [rounds] has answers of the nodes. *)
Definition generate (rounds : list (Circumstances (World:=World) (XWorld:=XWorld))) : res string Generator :=
  try_fold generator_round ColdStart rounds.

Context `{!PastaFieldLaws} `{!MerkleZerosChain}.
Context (iteration_perm : ∀ m, iteration m ≡ₚ map_to_list m).

Definition is_written (g : Generator) : bool := match g with Written _ _ => true | _ => false end.

(** Whatever the nodes answer, for however long, no fixture is written. *)
Lemma generator_writes_nothing rounds g :
  Forall (λ c, execution_finish c ≡ₚ backup_providers (execution_proxy consensus_client)) rounds →
  generate rounds = Ok g → is_written g = false.
Proof.
  unfold generate. intros Hr. assert (is_written ColdStart = false) as H0' by done. revert H0'. generalize ColdStart.
  induction Hr as [|c rounds Hc _ IH]; intros g0 H0'; [by intros [= <-]|].
  intros (g1 & Hg & Hf)%bind_Ok. apply (IH g1); [|done]. clear IH Hf.
  destruct g0 as [|slot h|]; [|destruct (consensus_prepare_mpt iteration join_error new_result consensus_client c slot h
    (to_uint 64 0) false) as [w| |] eqn:Hp|done]; simpl in Hg.
  - destruct (proxy_latest_finality_slot_and_store_hash _ _ _ _) as [[? ?]| |]; naive_solver.
  - rewrite Hp in Hg. destruct (validated_window_ok iteration iteration_perm _ _ _ _ _ _ _ _ _ Hc Hp)
      as (_ & o & Ha & _). rewrite decide_False in Hg; [by injection Hg as <-|].
    unfold checkpoint_remainder. rewrite (agrees_checkpoint _ _ Ha). lia.
  - rewrite Hp in Hg. by injection Hg as <-.
  - by rewrite Hp in Hg.
Qed.
End Generator.

(** Two rounds with the node of ConsensusRpcWitness: the loop goes on at a checkpoint. *)
Example generator_chains :
  generate map_to_list "join error" (Ok b_config) (λ _, Ok (fb_of_Z 32 7)) b_proxy [b_circumstances; b_circumstances]
  = Ok (Chaining (expected_output_slot b_window) (expected_output_store_hash b_window)).
Proof. vm_compute. reflexivity. Qed.
