(* ===== verification/EndToEnd.v ===== *)
(** * End to end: from the nodes' answers to the published proofs

    The running bridge head of System, with the validation of ConsensusRpc and a
    prover whose proofs carry the outputs of the guest: every job that runs can
    be proved, and what is published is what was asked for, read from the queue
    and proved. *)
From S2P Require Import Prelude Externals StorageLayout Types Merkle Instances MerkleSpec RequestLeaf Mpt MptSpec StoreHash Consensus ConsensusSpec Detector DetectorSpec Notice BridgeHead BridgeHeadSpec Observer System SystemSpec SystemWindows Rpc ExecutionRpc ExecutionRpcSpec ConsensusRpc ConsensusRpcSpec.

Section EndToEnd.
Context `{HeliosHost} `{!RmpSerde} `{Sha256} `{DebugFmt} `{Keccak} `{AlloyTrie} `{PoseidonSponge}.
Context `{!PastaFieldLaws} `{!MerkleZerosChain} `{HostRuntime} {World XWorld : Type}.
Context (iteration : gmap Address (list B256) → list (Address * list B256)).
Context (iteration_perm : ∀ m, iteration m ≡ₚ map_to_list m).

(** A window that validation let through, and the outputs its proof commits. *)
Definition promised (w : ProofInputsWithWindow) (o : ProofOutputs) : Prop :=
  window_agrees w o ∧ input_slot w < po_output_slot o ∧ po_next_sync_committee_hash o ≠ fb_zero 32.

(** A message that publishes the outputs [o] of the window [w]. *)
Record publishes (w : ProofInputsWithWindow) (o : ProofOutputs) (m : ProofMessage) : Prop := {
  pub_input : (pm_input_slot m, pm_input_store_hash m, pm_input_queue_cursor m) =
    (po_input_slot o, po_input_store_hash o, po_input_queue_cursor o);
  pub_output : (pm_output_slot m, pm_output_store_hash m, pm_output_queue_cursor m, pm_output_block_number m) =
    (expected_output_slot w, expected_output_store_hash w, expected_output_queue_cursor w,
     expected_output_block_number w);
  pub_requests : ∃ leaves, try_map published_leaf (pm_verified_requests m) = Ok leaves ∧
    fb_bytes (pm_verified_requests_root m) = fp_to_bytes (requests_root leaves);
  pub_cursor : uint_Z (pm_output_queue_cursor m) =
    pm_input_queue_cursor m + Z.of_nat (length (pm_verified_requests m))
}.

(** The environment: the validation actor asks the nodes of some proxy, which
    answer as they like, and a finished proof carries the guest's outputs. *)
Definition deployed (s : System) (a : action) : Prop :=
  match a with
  | Validate prepare => ∃ join_error new_result (proxy : ConsensusHttpProxy (World:=World) (XWorld:=XWorld)) c,
      execution_finish c ≡ₚ backup_providers (execution_proxy proxy) ∧
      prepare = consensus_prepare_mpt iteration join_error new_result proxy c
  | ProverDone i proof => ∀ id slot inputs, sy_running s !! i = Some (id, slot, inputs) →
      ∃ o, consensus_mpt_program inputs = Ok o ∧ public_values proof = ProofOutputs_to_bytes o
  | _ => True
  end.

Lemma deployed_honest s a : deployed s a →
  honest (λ w, ∃ o, promised w o) (λ inputs o, consensus_mpt_program inputs = Ok o) s a.
Proof.
  destruct a as [| | | |prepare| |now|now|i proof|i error|]; simpl; try done.
  intros (je & nr & proxy & c & Hfin & ->) slot h cur w Hp.
  apply (validated_window_ok iteration iteration_perm _ _ _ _ _ _ _ _ _ Hfin) in Hp as (Hs & o & Ha & _ & _ & Hv).
  exists o. destruct (Hv eq_refl). by rewrite <-Hs in *.
Qed.

Lemma promised_publishes job now proof o : (∃ o, promised (inputs_with_window job) o) →
  consensus_mpt_program (proof_inputs (inputs_with_window job)) = Ok o →
  ∃ w o', promised w o' ∧ publishes w o' (proof_message job now proof o).
Proof.
  intros (o' & Hp) Ho. pose proof (agrees_program _ _ (proj1 Hp)) as Ho'. rewrite Ho in Ho'. injection Ho' as <-.
  exists (inputs_with_window job), o. split; [done|]. destruct Hp as [[] _].
  destruct (published_requests _ o Ho) as (leaves & Hl & Hr & Hc & _); [done..|].
  split; simpl; [done|by repeat f_equal|by exists leaves|done].
Qed.

(** C3: end to end: in every run of the bridge head, whatever the nodes answer and
    however the actors interleave, the guest accepts the inputs of every job
    that runs, and every published proof message carries the outputs of the
    guest on a window that validation let through: it advances the slot to a
    checkpoint, its outputs are those the detector was promised, its requests
    hash to the committed root, and its cursor moves by their number. *)
Theorem published_end_to_end slot h c latest inflight n s : Z.of_nat n < 2 ^ 64 →
  run_under deployed (sys_start slot h c latest inflight) n s →
  (∀ id head inputs, (id, head, inputs) ∈ sy_running s → ∃ o, consensus_mpt_program inputs = Ok o) ∧
  (∀ m, ProofEvent m ∈ sy_events s → ∃ w o, promised w o ∧ publishes w o m).
Proof.
  intros Hn Hrun%(run_under_mono _ _ _ _ _ deployed_honest).
  pose proof (windows_inv_run (λ w, ∃ o, promised w o) (λ m, ∃ w o, promised w o ∧ publishes w o m)
    (λ inputs o, consensus_mpt_program inputs = Ok o) promised_publishes
    _ _ _ _ _ _ _ Hn Hrun) as [].
  split.
  - intros id head inputs (job & Hjob & <-)%w_running. destruct (w_jobs _ _ Hjob) as (o & Ho & _).
    exists o. apply Ho.
  - intros m Hm. apply (w_events _ Hm).
Qed.
End EndToEnd.
