(* ===== verification/EndToEndWitness.v ===== *)
(** * A concrete run from the nodes' answers to a published proof

    The beacon node of ConsensusRpcWitness and the execution node of
    ExecutionRpcWitness, behind the running bridge head of System. *)
From S2P Require Import Prelude Externals StorageLayout Types Merkle Instances MerkleSpec RequestLeaf Mpt MptSpec MptWitness StoreHash Consensus ConsensusSpec ConsensusWitness Detector Notice BridgeHead BridgeHeadSpec Observer System SystemSpec SystemWitness SystemWindows Rpc ExecutionRpc ExecutionRpcSpec ExecutionRpcComplete ExecutionRpcWitness ConsensusRpc ConsensusRpcSpec ConsensusRpcWitness EndToEnd.

Definition e_prepare : u64 → B256 → u64 → bool → res anyhow ProofInputsWithWindow :=
  consensus_prepare_mpt map_to_list "join error" (Ok b_config) b_proxy b_circumstances.
Definition e_start : System := sys_start (to_uint 64 7) b_hash n_cursor (to_uint 64 7) None.
(** One window is validated, detected and staged. *)
Definition e_staging : list action :=
  [DetectorTick; Validate e_prepare; DetectorResult; BridgeFinality; ObserverEvent; ObserverEvent; BridgeCommand ()].
Definition e_running : System := sys_after e_staging e_start.
Lemma e_running_eq : e_running = sys_after e_staging e_start.
Proof. reflexivity. Qed.
#[local] Opaque e_running sys_after.
(** The inputs of the running jobs, and the guest on the first of them. *)
Definition first_inputs (s : System) : list ProofInputs := snd <$> sy_running s.
Definition guest_run (inputs : list ProofInputs) : res ProgramError ProofOutputs :=
  match inputs with inputs :: _ => consensus_mpt_program inputs | [] => Panic end.
Definition e_guest : res ProgramError ProofOutputs := guest_run (first_inputs e_running).
Lemma e_guest_ok : is_ok e_guest = true.
Proof. vm_compute. reflexivity. Qed.
Definition e_outputs : ProofOutputs := ok_default w_outputs1 e_guest.
Definition e_run : list action := e_staging ++ [ProverDone 0 (ProofOutputs_to_bytes e_outputs); BridgeJobResult ()].
Definition e_end : System := sys_after e_run e_start.

(** The guest's outputs answer the job that runs. *)
Lemma e_proved (s : System) i id slot inputs : is_ok (guest_run (first_inputs s)) = true → length (sy_running s) = 1%nat →
  sy_running s !! i = Some (id, slot, inputs) →
  consensus_mpt_program inputs = Ok (ok_default w_outputs1 (guest_run (first_inputs s))).
Proof.
  unfold first_inputs. destruct (sy_running s) as [|[[? ?] inputs'] [|]]; [done| |done].
  intros Hok _ Hi. destruct i as [|i]; [|by destruct i]. injection Hi as -> -> ->. by apply ok_default_eq.
Qed.
Lemma e_one_job : length (sy_running e_running) = 1%nat.
Proof. vm_compute. reflexivity. Qed.
Lemma e_proof_done : deployed (World := ()) (XWorld := ()) map_to_list e_running (ProverDone 0 (ProofOutputs_to_bytes e_outputs)).
Proof.
  intros id slot inputs Hin. exists e_outputs. split; [|reflexivity]. exact (e_proved e_running 0 _ _ _ e_guest_ok e_one_job Hin).
Qed.
Lemma e_deployed k a : e_run !! k = Some a → deployed (World := ()) (XWorld := ()) map_to_list (sys_after (take k e_run) e_start) a.
Proof.
  destruct k as [|[|[|[|[|[|[|[|[|k]]]]]]]]]; intros [= <-]; try exact I.
  - exists "join error"%string, (Ok b_config), b_proxy, b_circumstances. split; [apply Permutation_refl|reflexivity].
  - change (take 7 e_run) with e_staging. rewrite <-e_running_eq. exact e_proof_done.
Qed.
Lemma e_end_run : run_under (deployed (World := ()) (XWorld := ()) map_to_list) e_start 9 e_end.
Proof. apply (under_schedule _ e_run); [vm_compute; reflexivity|exact e_deployed]. Qed.

(** A proof is published in this run. *)
Lemma e_published : existsb is_job_end (sy_events e_end) = true.
Proof. vm_compute. reflexivity. Qed.

Lemma published_end_to_end_witness :
  (∀ id head inputs, (id, head, inputs) ∈ sy_running e_end → ∃ o, consensus_mpt_program inputs = Ok o) ∧
  (∀ m, ProofEvent m ∈ sy_events e_end → ∃ w o, promised w o ∧ publishes w o m).
Proof.
  exact (published_end_to_end (World := ()) (XWorld := ()) map_to_list (λ m, reflexivity (map_to_list m)) _ _ _ _ _ 9 e_end eq_refl e_end_run).
Defined.
