(* ===== verification/ProverConfig.v ===== *)
(** * nori/src/sp1_prover_config.rs and sp1_prover.rs

    The configuration of the SP1 prover from environment variables, the request
    that is built from it, and the job that runs it.  Parsers of other crates
    (addresses, URLs, keys) are parameters; those of the standard library are
    defined here. *)
From Stdlib Require Import Ascii.
From S2P Require Import Prelude Externals StorageLayout Types Detector Notice BridgeHead Rpc ExecutionRpc.

(** ** Parsing, as the standard library does it *)

Definition digit_value (c : ascii) : option Z :=
  let n := Z.of_nat (nat_of_ascii c) in
  if decide (48 ≤ n ≤ 57) then Some (n - 48) else None.
Fixpoint digits_value (acc : Z) (s : string) : option Z :=
  match s with
  | EmptyString => Some acc
  | String c s => d ← digit_value c; digits_value (10 * acc + d) s
  end.
(** [str::parse::<u64>]: digits after an optional plus sign, without overflow. *)
Definition parse_u64 (s : string) : option u64 :=
  let digits := match s with String "+" s => s | _ => s end in
  match digits with
  | EmptyString => None
  | _ => v ← digits_value 0 digits; if decide (v < 2 ^ 64) then Some (to_uint 64 v) else None
  end.
(** [str::parse::<bool>] *)
Definition parse_bool (s : string) : option bool :=
  if decide (s = "true"%string) then Some true else if decide (s = "false"%string) then Some false else None.

(** [s.split(',')]: always at least one piece. *)
Fixpoint split_comma (s : string) : list string :=
  match s with
  | EmptyString => [""%string]
  | String "," s => ""%string :: split_comma s
  | String c s => match split_comma s with p :: ps => String c p :: ps | [] => [String c ""] end
  end.
(** [str::trim], on ASCII white space. *)
Definition is_space (c : ascii) : bool :=
  let n := nat_of_ascii c in bool_decide (n = 32%nat ∨ (9 ≤ n ≤ 13)%nat).
Fixpoint trim_start (s : string) : string :=
  match s with String c s' => if is_space c then trim_start s' else s | EmptyString => s end.
Fixpoint trim_end (s : string) : string :=
  match s with
  | EmptyString => EmptyString
  | String c s => match trim_end s with
                  | EmptyString => if is_space c then EmptyString else String c ""
                  | t => String c t
                  end
  end.
Definition trim (s : string) : string := trim_end (trim_start s).

(** ** Constants *)
Definition SDK_DEFAULT_PRICE_PER_PGU : u64 := to_uint 64 1000000000.
Definition SDK_MAINNET_RPC_URL : string := "https://rpc.mainnet.succinct.xyz".
Definition SDK_RESERVED_RPC_URL : string := "https://rpc.production.succinct.xyz".
Definition SDK_DEFAULT_AUCTION_TIMEOUT_SECS : u64 := to_uint 64 30.
Definition SDK_DEFAULT_MIN_AUCTION_PERIOD_SECS : u64 := to_uint 64 1.
Definition SDK_MAINNET_DEFAULT_CYCLE_LIMIT : u64 := to_uint 64 1000000000000.
Definition SDK_RESERVED_DEFAULT_CYCLE_LIMIT : u64 := to_uint 64 100000000.
Definition SDK_DEFAULT_GAS_LIMIT : u64 := to_uint 64 1000000000.
Definition SDK_DEFAULT_TIMEOUT_SECS : u64 := to_uint 64 600.
Definition SDK_DEFAULT_SKIP_SIMULATION : bool := false.

(** ** Data; a [Duration] is its whole seconds *)
Inductive NetworkMode := Mainnet | Reserved.
Inductive LocalProverMode := Mock | Cpu | Cuda.
Inductive ProofType := Plonk | Groth16.
Inductive FulfillmentConfig :=
| FulfillmentAuction (timeout min_auction_period : u64)
| FulfillmentHosted
| FulfillmentReserved.
Record NetworkConfig := MkNetworkConfig {
  network_mode : NetworkMode;
  private_key : string;
  rpc_url : string;
  fulfillment : FulfillmentConfig;
  max_price_per_pgu : u64;
  cycle_limit : option u64;
  gas_limit : option u64;
  skip_simulation : bool;
  timeout : u64;
  whitelist : option (list Address);
  whitelist_add_high_availability : bool;
  whitelist_add_default : bool
}.
Inductive ProverMode := Local (mode : LocalProverMode) | Network (net : NetworkConfig).
Record ProverConfig := MkProverConfig { mode : ProverMode; proof_type : ProofType }.

(** [ProverConfig::mock] and its two shorthands *)
Definition mock (proof_type : ProofType) : ProverConfig := MkProverConfig (Local Mock) proof_type.
Definition mock_groth16 : ProverConfig := mock Groth16.
Definition mock_plonk : ProverConfig := mock Plonk.

(** ** Loading from the environment *)
Section FromEnv.
  (** [std::env::var], [None] for its errors; the parsers of other crates. *)
  Context (env : string → option string) (parse_address : string → option Address)
    (valid_private_key valid_url : string → bool).

Definition quoted (s : string) : string := "'" +:+ s +:+ "'".

(** [match env::var(name) { Ok(val) => val.parse().with_context(..)?, Err(_) => default }] *)
Definition env_or {A} (name kind hint : string) (parse : string → option A) (default : A) : res string A :=
  match env name with
  | Some val =>
    ok_or (parse val) ("Failed to parse " +:+ name +:+ " as " +:+ kind +:+ ". Got: " +:+ quoted val +:+ hint)
  | None => Ok default
  end.
Definition env_opt {A} (name kind : string) (parse : string → option A) : res string (option A) :=
  match env name with
  | Some val => Some <$> ok_or (parse val) ("Failed to parse " +:+ name +:+ " as " +:+ kind +:+ ". Got: " +:+ quoted val)
  | None => Ok None
  end.
Definition invalid {A} (name val expected : string) : res string A :=
  Err ("Invalid " +:+ name +:+ " value: " +:+ quoted val +:+ ". Expected " +:+ expected).
Definition missing {A} (name expected : string) : res string A :=
  Err ("Missing " +:+ name +:+ " environment variable. Expected " +:+ expected).

Definition proof_type_from_env : res string ProofType :=
  match env "SP1_PROOF_TYPE" with
  | Some val =>
    if decide (val = "plonk"%string) then Ok Plonk
    else if decide (val = "groth16"%string) then Ok Groth16
    else invalid "SP1_PROOF_TYPE" val "'plonk' or 'groth16'"
  | None => missing "SP1_PROOF_TYPE" "'plonk' or 'groth16'"
  end.

Definition mock_from_env : res string ProverConfig :=
  proof_type ← proof_type_from_env;
  Ok (MkProverConfig (Local Mock) proof_type).

Definition network_mode_from_env : res string NetworkMode :=
  match env "SP1_NETWORK_MODE" with
  | Some val =>
    if decide (val = "mainnet"%string) then Ok Mainnet
    else if decide (val = "reserved"%string) then Ok Reserved
    else invalid "SP1_NETWORK_MODE" val "'mainnet' or 'reserved'"
  | None => Ok Mainnet
  end.

Definition private_key_from_env : res string string :=
  private_key ← ok_or (env "SP1_NETWORK_PRIVATE_KEY") "SP1_NETWORK_PRIVATE_KEY required for network mode"%string;
  if valid_private_key private_key then Ok private_key
  else Err "Failed to parse SP1_NETWORK_PRIVATE_KEY as PrivateKeySigner."%string.

Definition rpc_url_from_env (network_mode : NetworkMode) : res string string :=
  match env "SP1_NETWORK_RPC_URL" with
  | Some val =>
    if valid_url val then Ok val
    else Err ("Environment variable SP1_NETWORK_RPC_URL contains invalid URL: " +:+ quoted val)
  | None => Ok match network_mode with Mainnet => SDK_MAINNET_RPC_URL | Reserved => SDK_RESERVED_RPC_URL end
  end.

Definition fulfillment_from_env (network_mode : NetworkMode) (min_auction_period : u64) : res string FulfillmentConfig :=
  match env "SP1_FULFILLMENT_STRATEGY" with
  | Some val =>
    if decide (val = "auction"%string) then
      secs ← env_or "SP1_AUCTION_TIMEOUT_SECS" "u64" "" parse_u64 SDK_DEFAULT_AUCTION_TIMEOUT_SECS;
      Ok (FulfillmentAuction secs min_auction_period)
    else if decide (val = "hosted"%string) then Ok FulfillmentHosted
    else if decide (val = "reserved"%string) then Ok FulfillmentReserved
    else invalid "SP1_FULFILLMENT_STRATEGY" val "'auction', 'hosted', or 'reserved'"
  | None => Ok match network_mode with
               | Mainnet => FulfillmentAuction SDK_DEFAULT_AUCTION_TIMEOUT_SECS min_auction_period
               | Reserved => FulfillmentReserved
               end
  end.

(** The limits: required, and so defaulted, when the simulation is skipped. *)
Definition default_limits (network_mode : NetworkMode) (skip_simulation : bool) (limits : option u64 * option u64)
    : option u64 * option u64 :=
  let '(cycle_limit, gas_limit) := limits in
  if skip_simulation then
    (match cycle_limit with
     | None => match network_mode with
               | Mainnet => Some SDK_MAINNET_DEFAULT_CYCLE_LIMIT
               | Reserved => Some SDK_RESERVED_DEFAULT_CYCLE_LIMIT
               end
     | Some _ => cycle_limit
     end,
     match gas_limit with None => Some SDK_DEFAULT_GAS_LIMIT | Some _ => gas_limit end)
  else limits.

Definition whitelist_from_env : res string (option (list Address)) :=
  match env "SP1_WHITELIST" with
  | Some s =>
    Some <$> try_map (λ addr, let addr := trim addr in
      ok_or (parse_address addr) ("Invalid address in SP1_WHITELIST: " +:+ quoted addr)) (split_comma s)
  | None => Ok None
  end.

(** A flag that extends a whitelist: not even parsed without one. *)
Definition whitelist_flag (name : string) (whitelist : option (list Address)) : res string bool :=
  match whitelist with
  | Some _ => env_or name "bool" "" parse_bool false
  | None => Ok false
  end.

Definition network_from_env : res string NetworkConfig :=
  network_mode ← network_mode_from_env;
  private_key ← private_key_from_env;
  rpc_url ← rpc_url_from_env network_mode;
  min_auction_period ← env_or "SP1_MIN_AUCTION_PERIOD_SECS" "u64" "" parse_u64 SDK_DEFAULT_MIN_AUCTION_PERIOD_SECS;
  fulfillment ← fulfillment_from_env network_mode min_auction_period;
  max_price_per_pgu ← env_or "SP1_MAX_PRICE_PER_PGU" "u64" "" parse_u64 SDK_DEFAULT_PRICE_PER_PGU;
  skip_simulation ← env_or "SP1_SKIP_SIMULATION" "bool" ". Expected 'true' or 'false'" parse_bool SDK_DEFAULT_SKIP_SIMULATION;
  cycle_limit ← env_opt "SP1_CYCLE_LIMIT" "u64" parse_u64;
  gas_limit ← env_opt "SP1_GAS_LIMIT" "u64" parse_u64;
  let '(cycle_limit, gas_limit) := default_limits network_mode skip_simulation (cycle_limit, gas_limit) in
  timeout ← env_or "SP1_TIMEOUT_SECS" "u64" "" parse_u64 SDK_DEFAULT_TIMEOUT_SECS;
  whitelist ← whitelist_from_env;
  whitelist_add_high_availability ← whitelist_flag "SP1_WHITELIST_ADD_HIGH_AVAILABILITY" whitelist;
  whitelist_add_default ← whitelist_flag "SP1_WHITELIST_ADD_DEFAULT" whitelist;
  whitelist_open ← env_or "SP1_WHITELIST_OPEN" "bool" ". Expected 'true' or 'false'" parse_bool false;
  match whitelist_open, whitelist with
  | true, Some _ => Err ("SP1_WHITELIST_OPEN and SP1_WHITELIST are mutually exclusive. Set SP1_WHITELIST_OPEN to opt out of any whitelist, "
         +:+ "or provide SP1_WHITELIST to restrict bidders — not both.")
  | _, _ =>
    let whitelist := if whitelist_open : bool then Some [] else whitelist in
    Ok (MkNetworkConfig network_mode private_key rpc_url fulfillment max_price_per_pgu cycle_limit gas_limit
          skip_simulation timeout whitelist whitelist_add_high_availability whitelist_add_default)
  end.

Definition from_env : res string ProverConfig :=
  proof_type ← proof_type_from_env;
  mode ← match env "SP1_PROVER" with
         | Some val =>
           if decide (val = "mock"%string) then Ok (Local Mock)
           else if decide (val = "cpu"%string) then Ok (Local Cpu)
           else if decide (val = "cuda"%string) then Ok (Local Cuda)
           else if decide (val = "network"%string) then Network <$> network_from_env
           else Err ("Invalid SP1_PROVER value: " +:+ quoted val +:+ ". Expected one of: mock, cpu, cuda, network")
         | None => Err "Missing SP1_PROVER environment variable. Expected one of: mock, cpu, cuda, network"%string
         end;
  Ok (MkProverConfig mode proof_type).
End FromEnv.

(** ** The proof request and the job *)

(** [FulfillmentStrategy] of the SDK *)
Inductive FulfillmentStrategy := StrategyAuction | StrategyHosted | StrategyReserved.
Definition get_fulfillment_strategy (config : FulfillmentConfig) : FulfillmentStrategy :=
  match config with
  | FulfillmentAuction _ _ => StrategyAuction
  | FulfillmentHosted => StrategyHosted
  | FulfillmentReserved => StrategyReserved
  end.

(** What the builder of the network request is told. *)
Record ProofRequest := MkProofRequest {
  rq_proof_type : ProofType;
  rq_strategy : FulfillmentStrategy;
  rq_auction_timeout : option u64;
  rq_min_auction_period : option u64;
  rq_max_price_per_pgu : u64;
  rq_skip_simulation : bool;
  rq_timeout : u64;
  rq_whitelist : option (list Address);
  rq_cycle_limit : option u64;
  rq_gas_limit : option u64
}.
Definition proof_request (proof_type : ProofType) (net : NetworkConfig) (extended_whitelist : option (list Address)) : ProofRequest :=
  MkProofRequest proof_type (get_fulfillment_strategy (fulfillment net))
    (match fulfillment net with FulfillmentAuction timeout _ => Some timeout | _ => None end)
    (match fulfillment net with FulfillmentAuction _ min_auction_period => Some min_auction_period | _ => None end)
    (max_price_per_pgu net) (skip_simulation net) (timeout net)
    (match extended_whitelist with Some l => Some l | None => whitelist net end)
    (cycle_limit net) (gas_limit net).

Section Job.
  Context {World : Type}.
  (** [try_get_fallback_whitelist(config, high_availability_only)]: a query of the prover network. *)
  Context (try_get_fallback_whitelist : NetworkConfig → bool → World → World * (list Address + string)).

(** [get_fallback_whitelist], with [left] attempts to go; it sleeps milliseconds. *)
Fixpoint fallback_attempts (config : NetworkConfig) (high_availability_only : bool) (left : nat) (backoff_ms : Z)
    : rpc World (list Address) :=
  answer ← rpc_call (try_get_fallback_whitelist config high_availability_only);
  match answer, left with
  | inl whitelist, _ => mret whitelist
  | inr e, S left' =>
    _ ← send (λ _, true) ""%string backoff_ms;
    fallback_attempts config high_availability_only left' (backoff_ms * 2)
  | inr e, O =>
    lift (Err ("Failed to fetch " +:+ (if high_availability_only then "high-availability" else "default-pool")
               +:+ " provers after 3 attempts: " +:+ e))
  end.
Definition get_fallback_whitelist (config : NetworkConfig) (high_availability_only : bool) : rpc World (list Address) :=
  fallback_attempts config high_availability_only 2 500.

(** [append_unique]: the list with the set of what it holds. *)
Definition append_unique (st : list Address * gset Address) (fetched : list Address) : list Address * gset Address :=
  foldl (λ '(extended, seen) addr,
    if decide (addr ∈ seen) then (extended, seen) else (extended ++ [addr], {[addr]} ∪ seen)) st fetched.

(** One of the two extensions; a failed fetch is skipped. *)
Definition extend_with (net : NetworkConfig) (flag high_availability_only : bool) (st : list Address * gset Address)
    : rpc World (list Address * gset Address) :=
  if flag then
    answer ← rpc_call (try_get_fallback_whitelist net high_availability_only);
    match answer with
    | inl fallback => mret (append_unique st fallback)
    | inr _ => mret st
    end
  else mret st.

Definition extended_whitelist (config : ProverConfig) : rpc World (option (list Address)) :=
  match mode config with
  | Network net =>
    if whitelist_add_high_availability net || whitelist_add_default net then
      let extended := default [] (whitelist net) in
      st ← extend_with net (whitelist_add_high_availability net) true (extended, list_to_set extended);
      st ← extend_with net (whitelist_add_default net) false st;
      mret (Some (fst st))
    else mret None
  | Local _ => mret None
  end.

Context `{HeliosTypes} `{HostRuntime}.
(** [serde_cbor::to_vec], and the provers of the SDK: the network prover with a
    request, a local prover with its mode and proof type. *)
Context (to_cbor : ProofInputs → list byte + string)
  (prove_network : NetworkConfig → ProofRequest → list byte → World → World * (SP1ProofWithPublicValues + string))
  (prove_with_type : LocalProverMode → ProofType → list byte → World → World * (SP1ProofWithPublicValues + string)).

Definition generate_proof (config : ProverConfig) (stdin : list byte) (extended_whitelist : option (list Address))
    : rpc World SP1ProofWithPublicValues :=
  answer ← rpc_call (match mode config with
    | Network net => prove_network net (proof_request (proof_type config) net extended_whitelist) stdin
    | Local local_mode => prove_with_type local_mode (proof_type config) stdin
    end);
  lift (of_sum answer).

Definition finality_update_job (config : ProverConfig) (job_id input_head : u64) (inputs : ProofInputs) : rpc World ProverJobOutput :=
  encoded_proof_inputs ← lift (of_sum (to_cbor inputs));
  extended ← extended_whitelist config;
  proof ← generate_proof config encoded_proof_inputs extended;
  mret (MkProverJobOutput job_id input_head proof).
End Job.
