(* ===== verification/ProverConfigSpec.v ===== *)
(** * Correctness of the prover configuration

    What a configuration that loads guarantees, and how the whitelist of a
    proof request is made. *)
From S2P Require Import Prelude Externals StorageLayout Types Detector Notice BridgeHead Rpc ExecutionRpc ProverConfig.

(** ** Configurations that load *)
Section FromEnv.
Context (env : string → option string) (parse_address : string → option Address)
  (valid_private_key valid_url : string → bool).

Lemma default_limits_some network_mode cycle gas :
  let '(cycle', gas') := default_limits network_mode true (cycle, gas) in is_Some cycle' ∧ is_Some gas'.
Proof. by destruct cycle, gas, network_mode. Qed.
Lemma split_comma_nonempty s : split_comma s ≠ [].
Proof.
  induction s as [|c s IH]; [done|]. simpl. destruct (split_comma s); [done|].
  destruct c as [[] [] [] [] [] [] [] []]; done.
Qed.
Lemma whitelist_from_env_nonempty : whitelist_from_env env parse_address ≠ Ok (Some []).
Proof.
  unfold whitelist_from_env. destruct (env _) as [s|]; [|done]. intros (l & Hl & Heq)%fmap_Ok.
  injection Heq as <-. apply try_map_length in Hl. symmetry in Hl. by apply nil_length_inv, split_comma_nonempty in Hl.
Qed.
Lemma whitelist_flag_none name b : whitelist_flag env name None = Ok b → b = false.
Proof. by intros [= <-]. Qed.

(** The whitelist of a configuration: open, the default of the network, or the
    user's, and only the last can be extended. *)
Definition whitelist_ok (net : NetworkConfig) : Prop :=
  whitelist_add_high_availability net || whitelist_add_default net = true →
  ∃ a l, whitelist net = Some (a :: l).

Lemma network_from_env_ok net : network_from_env env parse_address valid_private_key valid_url = Ok net →
  (skip_simulation net = true → is_Some (cycle_limit net) ∧ is_Some (gas_limit net)) ∧ whitelist_ok net ∧
  (env "SP1_WHITELIST_OPEN" = Some "true"%string → env "SP1_WHITELIST" = None ∧ whitelist net = Some []) ∧
  valid_private_key (private_key net) = true.
Proof.
  unfold network_from_env. intros Hn.
  apply bind_Ok in Hn as (nm & _ & Hn). apply bind_Ok in Hn as (key & Hkey & Hn). apply bind_Ok in Hn as (url & _ & Hn).
  do 2 apply bind_Ok in Hn as (? & _ & Hn). apply bind_Ok in Hn as (price & _ & Hn).
  apply bind_Ok in Hn as (skip & _ & Hn). apply bind_Ok in Hn as (cycle & _ & Hn). apply bind_Ok in Hn as (gas & _ & Hn).
  destruct (default_limits nm skip (cycle, gas)) as [cycle' gas'] eqn:Hlim.
  apply bind_Ok in Hn as (secs & _ & Hn). apply bind_Ok in Hn as (wl & Hwl & Hn).
  apply bind_Ok in Hn as (ha & Hha & Hn). apply bind_Ok in Hn as (dp & Hdp & Hn). apply bind_Ok in Hn as (op & Hop & Hn).
  assert (valid_private_key key = true) as Hvalid.
  { unfold private_key_from_env in Hkey. apply bind_Ok in Hkey as (k & _ & Hk).
    destruct (valid_private_key k) eqn:Hv; [|done]. by injection Hk as <-. }
  assert (skip = true → is_Some cycle' ∧ is_Some gas') as Hskip.
  { intros ->. pose proof (default_limits_some nm cycle gas) as Hs. by rewrite Hlim in Hs. }
  assert (wl = None → ha = false ∧ dp = false) as Hnone by (intros ->; split; by eapply whitelist_flag_none).
  assert (env "SP1_WHITELIST_OPEN" = Some "true"%string → op = true) as Hopen.
  { intros Ho. unfold env_or in Hop. rewrite Ho in Hop. by injection Hop as <-. }
  assert (wl = None → env "SP1_WHITELIST" = None) as Hunset.
  { intros ->. unfold whitelist_from_env in Hwl. destruct (env "SP1_WHITELIST"); [|done].
    by apply fmap_Ok in Hwl as (l & _ & ?). }
  pose proof whitelist_from_env_nonempty as Hne. rewrite Hwl in Hne.
  destruct op, wl as [wl|]; try done; injection Hn as <-; unfold whitelist_ok; cbn; split_and!; try done.
  - intros Hor. by destruct (Hnone eq_refl) as [-> ->].
  - intros _. split; [by apply Hunset|done].
  - intros _. destruct wl as [|a l]; [done|]. by exists a, l.
  - intros Ho. by specialize (Hopen Ho).
  - intros Hor. by destruct (Hnone eq_refl) as [-> ->].
  - intros Ho. by specialize (Hopen Ho).
Qed.

(** C39: a network configuration that loads gives requests the prover network can
    serve: the limits are set whenever the simulation that would find them is
    skipped, an open whitelist excludes a given one and is sent empty, only a
    whitelist that the user gave is ever extended, and the private key parses. *)
Theorem from_env_requests cfg net extended :
  from_env env parse_address valid_private_key valid_url = Ok cfg → mode cfg = Network net →
  let request := proof_request (proof_type cfg) net extended in
  (rq_skip_simulation request = true → is_Some (rq_cycle_limit request) ∧ is_Some (rq_gas_limit request)) ∧
  (env "SP1_WHITELIST_OPEN" = Some "true"%string →
    env "SP1_WHITELIST" = None ∧ rq_whitelist (proof_request (proof_type cfg) net None) = Some []) ∧
  whitelist_ok net ∧ valid_private_key (private_key net) = true.
Proof.
  unfold from_env. intros Hf Hmode. apply bind_Ok in Hf as (pt & _ & Hf). apply bind_Ok in Hf as (m & Hm & Hf).
  injection Hf as <-. simpl in Hmode. subst m.
  assert (network_from_env env parse_address valid_private_key valid_url = Ok net) as Hnet.
  { destruct (env "SP1_PROVER"); [|done]. repeat case_decide; try done.
    apply fmap_Ok in Hm as (n & Hn & [= <-]). done. }
  apply network_from_env_ok in Hnet as (Hskip & Hwl & Hopen & Hkey). cbn. split_and!; [done| |done|done].
  intros Ho. destruct (Hopen Ho) as [Hu ->]. done.
Qed.

(** A defaulted auction ignores the timeout variable, malformed or not. *)
Lemma default_auction_ignores_timeout min_auction_period : env "SP1_FULFILLMENT_STRATEGY" = None →
  fulfillment_from_env env Mainnet min_auction_period =
  Ok (FulfillmentAuction SDK_DEFAULT_AUCTION_TIMEOUT_SECS min_auction_period).
Proof. unfold fulfillment_from_env. by intros ->. Qed.
End FromEnv.

(** ** The whitelist of a job *)

Lemma append_unique_spec base added seen fetched :
  (∀ a, a ∈ seen ↔ a ∈ base ++ added) → NoDup added → (∀ a, a ∈ added → a ∉ base) →
  ∃ added' seen', append_unique (base ++ added, seen) fetched = (base ++ added ++ added', seen') ∧
    (∀ a, a ∈ seen' ↔ a ∈ base ++ added ++ added') ∧ NoDup (added ++ added') ∧
    (∀ a, a ∈ added ++ added' → a ∉ base) ∧ (∀ a, a ∈ fetched → a ∈ base ++ added ++ added').
Proof.
  revert added seen. induction fetched as [|x fetched IH]; intros added seen Hseen Hnd Hdis; unfold append_unique; simpl.
  - exists [], seen. rewrite app_nil_r. split_and!; try done. intros a Ha. by apply elem_of_nil in Ha.
  - case_decide as Hx.
    + destruct (IH added seen Hseen Hnd Hdis) as (added' & seen' & Hrun & Hs & Hn & Hd & Hf).
      exists added', seen'. split_and!; [exact Hrun|done..|]. intros a [->|Ha]%elem_of_cons; [|by apply Hf].
      apply Hseen in Hx. rewrite app_assoc. apply elem_of_app. by left.
    + destruct (IH (added ++ [x]) ({[x]} ∪ seen)) as (added' & seen' & Hrun & Hs & Hn & Hd & Hf).
      * intros a. rewrite elem_of_union, elem_of_singleton, Hseen, app_assoc, (elem_of_app (base ++ added)). set_solver.
      * apply list.NoDup_app. split_and!; [done| |apply NoDup_singleton]. intros a Ha ->%list_elem_of_singleton.
        apply Hx, Hseen. set_solver.
      * intros a [Ha| ->%list_elem_of_singleton]%elem_of_app; [by apply Hdis|]. intros Hb. apply Hx, Hseen. set_solver.
      * rewrite <-app_assoc in Hn, Hd. exists ([x] ++ added'), seen'. rewrite <-app_assoc in Hrun, Hs, Hf.
        split_and!; [by rewrite <-app_assoc|done|done|done|]. intros a [->|Ha]%elem_of_cons; [set_solver|by apply Hf].
Qed.

Section Job.
Context {World : Type} (fetch : NetworkConfig → bool → World → World * (list Address + string)).

Lemma extend_with_spec net flag ha base added seen w :
  (∀ a, a ∈ seen ↔ a ∈ base ++ added) → NoDup added → (∀ a, a ∈ added → a ∉ base) →
  ∃ w' added' seen', extend_with fetch net flag ha (base ++ added, seen) w = (w', [], Ok (base ++ added', seen')) ∧
    (∀ a, a ∈ seen' ↔ a ∈ base ++ added') ∧ NoDup added' ∧ (∀ a, a ∈ added' → a ∉ base) ∧ added `prefix_of` added'.
Proof.
  intros Hs Hn Hd. unfold extend_with. destruct flag; [|by exists w, added, seen].
  unfold mbind, eff_bind, rpc_call. destruct (fetch net ha w) as [w' [fetched|e]]; [|by exists w', added, seen].
  destruct (append_unique_spec base added seen fetched Hs Hn Hd) as (added' & seen' & Hrun & Hs' & Hn' & Hd' & _).
  exists w', (added ++ added'), seen'. rewrite Hrun. split_and!; [done..|]. by exists added'.
Qed.

(** Extending the whitelist of a job never fails and never reorders or repeats:
    the result is the configured list followed by new provers, each once and
    none of them listed before, and a local prover or a configuration without
    the flags leaves the whitelist alone. *)
Lemma extended_whitelist_extends config w :
  ∃ w' r, extended_whitelist fetch config w = (w', [], Ok r) ∧
  match r with
  | Some l => ∃ net added, mode config = Network net ∧ l = default [] (whitelist net) ++ added ∧
      NoDup added ∧ (∀ a, a ∈ added → a ∉ default [] (whitelist net))
  | None => ∀ net, mode config = Network net →
      whitelist_add_high_availability net = false ∧ whitelist_add_default net = false
  end.
Proof.
  unfold extended_whitelist. destruct (mode config) as [m|net]; [by exists w, None|].
  destruct (whitelist_add_high_availability net || whitelist_add_default net) eqn:Hflag.
  2: { exists w, None. split; [done|]. intros ? [= <-]. by apply orb_false_iff in Hflag. }
  set (base := default [] (whitelist net)).
  destruct (extend_with_spec net (whitelist_add_high_availability net) true base [] (list_to_set base) w)
    as (w1 & a1 & s1 & R1 & Hs1 & Hn1 & Hd1 & _); [|constructor|intros a Ha; by apply elem_of_nil in Ha|].
  { intros a. by rewrite elem_of_list_to_set, app_nil_r. }
  destruct (extend_with_spec net (whitelist_add_default net) false base a1 s1 w1 Hs1 Hn1 Hd1)
    as (w2 & a2 & s2 & R2 & _ & Hn2 & Hd2 & _).
  exists w2, (Some (base ++ a2)). rewrite app_nil_r in R1.
  split; [|by exists net, a2]. by rewrite (eff_bind_run _ _ _ _ _ _ R1), (eff_bind_run _ _ _ _ _ _ R2).
Qed.

(** The standalone fetch gives up after three attempts and one and a half seconds. *)
Lemma get_fallback_whitelist_bounded config ha w :
  let '(_, ws, r) := get_fallback_whitelist fetch config ha w in
  r ≠ Panic ∧ ws `prefix_of` [500; 1000] ∧ (∀ e, r = Err e → ws = [500; 1000]).
Proof.
  unfold get_fallback_whitelist, fallback_attempts, mbind, eff_bind, rpc_call, send.
  destruct (fetch config ha w) as [w1 [l|e]]; [split_and!; [done|by exists [500; 1000]|done]|].
  destruct (fetch config ha w1) as [w2 [l|e2]]; [split_and!; [done|by exists [1000]|done]|].
  destruct (fetch config ha w2) as [w3 [l|e3]]; (split_and!; [done|by exists []|done]).
Qed.
End Job.

(** An open whitelist without simulation. *)
Definition e_env (name : string) : option string :=
  snd <$> (snd <$> list_find (λ '(n, _), n = name)
    [("SP1_PROOF_TYPE", "groth16"); ("SP1_PROVER", "network"); ("SP1_NETWORK_PRIVATE_KEY", "key");
     ("SP1_SKIP_SIMULATION", "true"); ("SP1_GAS_LIMIT", "+5000"); ("SP1_WHITELIST_OPEN", "true")]%string).
Definition e_net : NetworkConfig :=
  MkNetworkConfig Mainnet "key" SDK_MAINNET_RPC_URL
    (FulfillmentAuction SDK_DEFAULT_AUCTION_TIMEOUT_SECS SDK_DEFAULT_MIN_AUCTION_PERIOD_SECS)
    SDK_DEFAULT_PRICE_PER_PGU (Some SDK_MAINNET_DEFAULT_CYCLE_LIMIT) (Some (to_uint 64 5000)) true
    SDK_DEFAULT_TIMEOUT_SECS (Some []) false false.
Lemma e_loads : from_env e_env (λ _, None) (λ _, true) (λ _, true) = Ok (MkProverConfig (Network e_net) Groth16).
Proof. vm_compute. reflexivity. Qed.

Lemma from_env_requests_witness :
  let request := proof_request Groth16 e_net None in
  (rq_skip_simulation request = true → is_Some (rq_cycle_limit request) ∧ is_Some (rq_gas_limit request)) ∧
  (e_env "SP1_WHITELIST_OPEN" = Some "true"%string →
    e_env "SP1_WHITELIST" = None ∧ rq_whitelist (proof_request Groth16 e_net None) = Some []) ∧
  whitelist_ok e_net ∧ true = true.
Proof.
  exact (from_env_requests e_env (λ _, None) (λ _, true) (λ _, true) _ e_net None e_loads eq_refl).
Defined.
