(* ===== verification/Env.v ===== *)
(** * Start-up from the environment

    nori/src/rpcs/execution/http.rs and rpcs/consensus/mod.rs ([from_env] of the
    two proxies, [Client::new], the checkpoint queries), contract.rs,
    bridge_head/validate.rs, and the part of [BridgeHead::run] that loads the
    configuration.  URLs, addresses and networks are parsed by other crates. *)
From stdpp Require Import pretty.
From Stdlib Require Import Ascii.
From S2P Require Import Prelude Externals StorageLayout Types Merkle RequestLeaf Mpt StoreHash Consensus Detector Notice BridgeHead Rpc ExecutionRpc ConsensusRpc ProverConfig.

(** ** Parsing integers, with the errors of [ParseIntError] *)

Definition EMPTY_ERROR : string := "cannot parse integer from empty string".
Definition INVALID_DIGIT : string := "invalid digit found in string".
Definition POS_OVERFLOW : string := "number too large to fit in target type".
Fixpoint parse_digits (acc : Z) (s : string) : res string u64 :=
  match s with
  | EmptyString => Ok (to_uint 64 acc)
  | String c s =>
    match digit_value c with
    | None => Err INVALID_DIGIT
    | Some d => if decide (10 * acc + d < 2 ^ 64) then parse_digits (10 * acc + d) s else Err POS_OVERFLOW
    end
  end.
(** [str::parse::<u64>] and, on a 64-bit host, [str::parse::<usize>] *)
Definition parse_int (s : string) : res string u64 :=
  match s with
  | EmptyString => Err EMPTY_ERROR
  | String "+" EmptyString => Err INVALID_DIGIT
  | String "+" digits => parse_digits 0 digits
  | _ => parse_digits 0 s
  end.

(** The [Debug] text of [Duration::from_secs]. *)
Definition duration_debug (secs : u64) : string :=
  if decide (uint_Z secs = 0) then "0ns" else pretty (uint_Z secs) +:+ "s".

(** The text of [VarError::NotPresent]. *)
Definition NOT_PRESENT : string := "environment variable not found".

Section Env.
  (** The environment, the parsers of [reqwest::Url] and [Address], and the
      networks of helios by chain id. *)
  Context (env : string → option string) (parse_address : string → option Address)
    {Url : Type} (parse_url : string → Url + string).

(** [env::var(name).ok().map(parse).transpose()?.unwrap_or(default)] *)
Definition env_int (name kind : string) (default : u64) : res string u64 :=
  match env name with
  | Some v => map_err (λ e, "Failed to parse " +:+ name +:+ " as " +:+ kind +:+ ": " +:+ e) (parse_int v)
  | None => Ok default
  end.

(** The valid URLs of a comma-separated list, in order; the others are skipped. *)
Definition valid_urls (urls : string) : list Url :=
  omap (λ s, match parse_url s with inl url => Some url | inr _ => None end)
    (filter (λ s, s ≠ ""%string) (trim <$> split_comma urls)).

Definition get_proof_queue_address : res string Address :=
  text ← ok_or (env "NORI_PROOF_QUEUE_ADDRESS") "Missing NORI_PROOF_QUEUE_ADDRESS in environment"%string;
  ok_or (parse_address text) "Invalid Ethereum address format"%string.

Section Execution.
  Context {XWorld : Type} (connect_http : Url → RootProvider XWorld).

(** [ExecutionHttpProxy::from_env] *)
Definition execution_from_env : res string (ExecutionHttpProxy (World := XWorld)) :=
  validation_timeout_sec ← env_int "NORI_EXECUTION_PROOF_INPUT_VALIDATION_TIMEOUT" "u64" (to_uint 64 300);
  chunk_limit ← env_int "NORI_EXECUTION_CHUNK_LIMIT" "usize" (to_uint 64 100);
  source_execution_http_urls ← ok_or (env "NORI_SOURCE_EXECUTION_HTTP_RPCS")
    "Missing NORI_SOURCE_EXECUTION_HTTP_RPCS in environment"%string;
  match (connect_http <$> valid_urls source_execution_http_urls : list (RootProvider XWorld)) with
  | [] => Err "No valid execution RPC URLs found in NORI_SOURCE_EXECUTION_HTTP_RPCS."%string
  | principal_provider :: providers =>
    proof_queue_address ← get_proof_queue_address;
    Ok (MkExecutionHttpProxy principal_provider providers proof_queue_address
          (duration_debug validation_timeout_sec) (Z.to_nat (uint_Z chunk_limit)))
  end.
End Execution.

Section Consensus.
  Context `{HeliosHost} {World XWorld : Type} (connect_http : Url → RootProvider XWorld)
    (beacon_node : Url → BeaconNode (World := World)).

(** [ConsensusHttpProxy::from_env] *)
Definition consensus_from_env : res string (ConsensusHttpProxy (World := World) (XWorld := XWorld)) :=
  validation_timeout_sec ← env_int "NORI_CONSENSUS_PROOF_INPUT_VALIDATION_TIMEOUT" "u64" (to_uint 64 300);
  source_urls ← ok_or (env "NORI_SOURCE_CONSENSUS_HTTP_RPCS") NOT_PRESENT;
  match (beacon_node <$> valid_urls source_urls : list BeaconNode) with
  | [] => Err "No valid consensus RPC URLs found in NORI_SOURCE_CONSENSUS_HTTP_RPCS"%string
  | (principal_provider_url :: backup_providers_urls) as urls =>
    execution_proxy ← execution_from_env connect_http;
    Ok (MkConsensusHttpProxy principal_provider_url backup_providers_urls urls (duration_debug validation_timeout_sec)
          execution_proxy)
  end.

(** [try_from_env]: [.unwrap()] *)
Definition consensus_try_from_env : res string (ConsensusHttpProxy (World := World) (XWorld := XWorld)) :=
  match consensus_from_env with Ok proxy => Ok proxy | _ => Panic end.

(** *** [Client] *)

(** [Network::from_chain_id] with [to_base_config]. *)
Context (network : u64 → ChainConfig + string).

Definition chain_config (missing : string) : res string ChainConfig :=
  chain_id ← ok_or (env "NORI_SOURCE_CHAIN_ID") (missing +:+ NOT_PRESENT);
  chain_id ← map_err (λ e, "Invalid chain ID format: " +:+ e) (parse_int chain_id);
  map_err (λ e, "Failed to convert chain ID to network: " +:+ e) (of_sum (network chain_id)).
(** [Client::new] *)
Definition client_new : res string ChainConfig := chain_config "NORI_SOURCE_CHAIN_ID not set or invalid: ".

(** [Client::get_latest_checkpoint], with the two queries of [CheckpointFallback]. *)
Definition get_latest_checkpoint {CheckpointFallback : Type} (build : World → World * (CheckpointFallback + string))
    (fetch_latest_checkpoint : CheckpointFallback → ChainConfig → World → World * (B256 + string)) : rpc World B256 :=
  cf ← node_call "Failed to build checkpoint fallback: " build;
  network ← lift (chain_config "NORI_SOURCE_CHAIN_ID environment variable not set: ");
  node_call "Failed to fetch latest checkpoint: " (fetch_latest_checkpoint cf network).

Definition get_current_finalized_header (client : Client (World := World)) : LightClientHeader :=
  finalized_header (client_store client).

(** [Client::get_current_checkpoint] *)
Definition get_current_checkpoint (client : Client (World := World)) : rpc World B256 :=
  let slot := get_current_finalizer_header_beacon_slot client in
  block ← node_call ("Failed to fetch block for slot " +:+ pretty (uint_Z slot) +:+ ": ") (rpc_get_block (client_node client) slot);
  mret (block_root block).

(** ** [BridgeHead::new] and the head of [BridgeHead::run] *)

(** [validate_env]: [Err] is [panic_more], which exits the process. *)
Definition validate_env (env_vars : list string) : res string () :=
  try_iter (λ var_name, match env var_name with
    | Some _ => Ok ()
    | None => Err ("Critical boot error: Missing " +:+ var_name +:+ " environment variable")
    end) env_vars.
Definition REQUIRED_ENV : list string :=
  ["NORI_SOURCE_EXECUTION_HTTP_RPCS"; "NORI_SOURCE_CONSENSUS_HTTP_RPCS"; "NORI_PROOF_QUEUE_ADDRESS"; "NORI_SOURCE_CHAIN_ID"]%string.
Definition bridge_head_checked_new `{HostRuntime} : res string BridgeHead :=
  _ ← validate_env REQUIRED_ENV;
  Ok bridge_head_new.

(** The prover configuration and the proxies, or a panic of the task. *)
Definition run_configuration (valid_private_key valid_url : string → bool) :
    res string (ProverConfig * ConsensusHttpProxy (World := World) (XWorld := XWorld)) :=
  match from_env env parse_address valid_private_key valid_url with
  | Ok sp1_config => proxy ← consensus_try_from_env; Ok (sp1_config, proxy)
  | _ => Panic
  end.
End Consensus.
End Env.
