(* ===== verification/EnvSpec.v ===== *)
(** * What start-up accepts

    The parsers of integers agree with each other and with printing; the
    proxies are built exactly from well-formed variables; and the environment
    that [validate_env] checks is only part of what start-up needs. *)
From stdpp Require Import pretty.
From Stdlib Require Import Ascii.
From S2P Require Import Prelude Externals StorageLayout Types Merkle RequestLeaf Mpt StoreHash Consensus Detector Notice BridgeHead Rpc ExecutionRpc ConsensusRpc ProverConfig Env.

(** ** Integers *)

Lemma digit_value_range c d : digit_value c = Some d → 0 ≤ d < 10.
Proof. unfold digit_value. case_decide; intros [= <-]. lia. Qed.
Lemma digits_value_mono acc s v : 0 ≤ acc → digits_value acc s = Some v → acc ≤ v.
Proof.
  revert acc. induction s as [|c s IH]; intros acc Ha; simpl; [intros [= ->]; lia|].
  destruct (digit_value c) as [d|] eqn:Hd; [|done]. simpl. intros Hv. apply digit_value_range in Hd.
  apply IH in Hv; lia.
Qed.
Lemma parse_digits_Ok acc s n : 0 ≤ acc < 2 ^ 64 →
  parse_digits acc s = Ok n ↔ ∃ v, digits_value acc s = Some v ∧ v < 2 ^ 64 ∧ n = to_uint 64 v.
Proof.
  revert acc. induction s as [|c s IH]; intros acc Ha; simpl.
  - split; [intros [= <-]; exists acc; split_and!; [done|lia|done]|]. by intros (v & [= <-] & _ & ->).
  - destruct (digit_value c) as [d|] eqn:Hd; simpl; [|by split; [|intros (? & ? & _)]].
    apply digit_value_range in Hd. case_decide as Hlt; [apply IH; lia|]. split; [done|].
    intros (v & Hv & Hlt' & _). apply digits_value_mono in Hv; lia.
Qed.

(** The two parsers of the model are the same function, up to the error text. *)
Lemma parse_int_u64 s n : parse_int s = Ok n ↔ parse_u64 s = Some n.
Proof.
  assert (∀ t, t ≠ ""%string → parse_digits 0 t = Ok n ↔
    (v ← digits_value 0 t; if decide (v < 2 ^ 64) then Some (to_uint 64 v) else None) = Some n) as Hd.
  { intros t _. rewrite parse_digits_Ok by lia. destruct (digits_value 0 t) as [v|]; simpl; [|naive_solver].
    case_decide; naive_solver. }
  unfold parse_int, parse_u64. destruct s as [|c s]; [done|].
  destruct (decide (c = "+"%char)) as [->|Hne].
  - destruct s as [|c s]; [done|]. by apply Hd.
  - destruct c as [[] [] [] [] [] [] [] []]; try (by apply Hd). by destruct Hne.
Qed.

Lemma pretty_char_value x : (x < 10)%N → digit_value (pretty_N_char x) = Some (Z.of_N x).
Proof.
  intros Hx. assert (∃ k : nat, (k < 10)%nat ∧ x = N.of_nat k) as (k & Hk & ->) by (exists (N.to_nat x); lia).
  do 10 (destruct k as [|k]; [done|]). lia.
Qed.
Lemma parse_pretty_go x s : (Z.of_N x < 2 ^ 64) → parse_digits 0 (pretty_N_go x s) = parse_digits (Z.of_N x) s.
Proof.
  revert s. induction (N.lt_wf_0 x) as [x _ IH]. intros s Hx.
  destruct (decide (0 < x)%N) as [Hp|Hz].
  - rewrite pretty_N_go_step by done. assert (x `div` 10 < x)%N as Hd by (apply N.div_lt; lia).
    rewrite IH; [|done|lia]. simpl. rewrite pretty_char_value by (apply N.mod_lt; lia).
    assert (10 * Z.of_N (x `div` 10) + Z.of_N (x `mod` 10) = Z.of_N x) as ->.
    { pose proof (N.div_mod x 10). lia. }
    by rewrite decide_True.
  - assert (x = 0%N) as -> by lia. done.
Qed.

Lemma parse_int_digits s n : s ≠ ""%string → parse_digits 0 s = Ok n → parse_int s = Ok n.
Proof.
  intros Hne Hp. destruct s as [|c s]; [done|].
  by destruct c as [[] [] [] [] [] [] [] []].
Qed.

(** A printed integer is read back. *)
Lemma parse_int_pretty (n : u64) : parse_int (pretty (uint_Z n)) = Ok n.
Proof.
  pose proof (uint_range n) as Hn. change (2 ^ Z.of_nat 64) with (2 ^ 64) in Hn.
  rewrite <-(to_uint_id n) at 2. destruct (uint_Z n) as [|p|p]; [done| |lia].
  change (pretty (Z.pos p)) with (pretty_N_go (N.pos p) "").
  pose proof (parse_pretty_go (N.pos p) "" (proj2 Hn)) as Hp. simpl in Hp.
  apply parse_int_digits; [|done]. intros Hs. rewrite Hs in Hp. simpl in Hp. injection Hp as Hp.
  rewrite (Z.mod_small (Z.pos p)) in Hp by (change (2 ^ Z.of_nat 64) with (2 ^ 64); lia). done.
Qed.

(** ** The proxies *)

Section Proxies.
Context (env : string → option string) (parse_address : string → option Address)
  {Url : Type} (parse_url : string → Url + string).
Context `{HeliosHost} {World XWorld : Type} (connect_http : Url → RootProvider XWorld)
  (beacon_node : Url → BeaconNode (World := World)).

(** A variable that holds an integer, or is absent and then has its default. *)
Definition holds_int (name : string) (default n : u64) : Prop :=
  match env name with Some v => parse_int v = Ok n | None => n = default end.
Lemma env_int_Ok name kind default n : env_int env name kind default = Ok n ↔ holds_int name default n.
Proof.
  unfold env_int, holds_int. destruct (env name); [apply map_err_Ok|]. split; [by intros [= ->]|by intros ->].
Qed.
Lemma get_proof_queue_address_Ok a : get_proof_queue_address env parse_address = Ok a ↔
  ∃ text, env "NORI_PROOF_QUEUE_ADDRESS" = Some text ∧ parse_address text = Some a.
Proof. unfold get_proof_queue_address. rewrite bind_Ok. by setoid_rewrite ok_or_Ok. Qed.

Lemma parse_int_errs s : errs_in (λ _, True) (parse_int s).
Proof.
  assert (∀ s acc, errs_in (λ _, True) (parse_digits acc s)) as Hd.
  { clear. induction s as [|c s IH]; intros acc; simpl; [done|]. destruct (digit_value c); [|done].
    case_decide; [apply IH|done]. }
  destruct s as [|c s]; [done|]. destruct c as [[] [] [] [] [] [] [] []]; try apply Hd. destruct s; [done|apply Hd].
Qed.
Lemma env_int_errs name kind d : errs_in (λ _, True) (env_int env name kind d).
Proof. unfold env_int. destruct (env name); [apply errs_in_map_err, parse_int_errs|done]. Qed.

(** The variables of the execution proxy, and the proxy they describe. *)
Definition execution_described (proxy : ExecutionHttpProxy (World := XWorld)) : Prop :=
  ∃ timeout chunk urls text,
    holds_int "NORI_EXECUTION_PROOF_INPUT_VALIDATION_TIMEOUT" (to_uint 64 300) timeout ∧
    holds_int "NORI_EXECUTION_CHUNK_LIMIT" (to_uint 64 100) chunk ∧
    env "NORI_SOURCE_EXECUTION_HTTP_RPCS" = Some urls ∧
    connect_http <$> valid_urls parse_url urls = principal_provider proxy :: backup_providers proxy ∧
    env "NORI_PROOF_QUEUE_ADDRESS" = Some text ∧ parse_address text = Some (proof_queue_address' proxy) ∧
    validation_timeout proxy = duration_debug timeout ∧ chunk_limit' proxy = Z.to_nat (uint_Z chunk).
Lemma execution_from_env_Ok proxy :
  execution_from_env env parse_address parse_url connect_http = Ok proxy ↔ execution_described proxy.
Proof.
  unfold execution_from_env, execution_described. split.
  - intros (t & Ht%env_int_Ok & (c & Hc%env_int_Ok & (u & Hu%ok_or_Ok & Hp)%bind_Ok)%bind_Ok)%bind_Ok.
    destruct (connect_http <$> _) as [|pr ps] eqn:Hl; [done|].
    apply bind_Ok in Hp as (a & (text & Ht1 & Ht2)%get_proof_queue_address_Ok & [= <-]).
    exists t, c, u, text. simpl. rewrite Hl. done.
  - intros (t & c & u & text & Ht%(env_int_Ok _ "u64") & Hc%(env_int_Ok _ "usize") & Hu & Hl & Ha1 & Ha2 & Hv & Hch).
    rewrite Ht. simpl. rewrite Hc. simpl. rewrite Hu. simpl. rewrite Hl.
    rewrite (proj2 (get_proof_queue_address_Ok _)) by eauto. simpl. rewrite <-Hv, <-Hch. by destruct proxy.
Qed.

(** Start-up of the proxies: [ConsensusHttpProxy::from_env] succeeds exactly when
    the integer variables parse or are absent, both URL lists hold a valid URL
    and the queue address parses; the proxy then has every valid URL in the
    order listed, the first of them as principal and the others as its
    backups, and never panics. *)
Lemma consensus_from_env_iff proxy :
  let result := consensus_from_env env parse_address parse_url connect_http beacon_node in
  (result = Ok proxy ↔
    ∃ timeout urls,
      holds_int "NORI_CONSENSUS_PROOF_INPUT_VALIDATION_TIMEOUT" (to_uint 64 300) timeout ∧
      env "NORI_SOURCE_CONSENSUS_HTTP_RPCS" = Some urls ∧
      all_providers_urls proxy = beacon_node <$> valid_urls parse_url urls ∧
      all_providers_urls proxy = principal_provider_url proxy :: backup_providers_urls proxy ∧
      consensus_validation_timeout proxy = duration_debug timeout ∧
      execution_described (execution_proxy proxy)) ∧
  result ≠ Panic.
Proof.
  intros result. split.
  - unfold result, consensus_from_env. split.
    + intros (t & Ht%env_int_Ok & (u & Hu%ok_or_Ok & Hp)%bind_Ok)%bind_Ok.
      destruct (beacon_node <$> _) as [|pr ps] eqn:Hl; [done|].
      apply bind_Ok in Hp as (x & Hx%execution_from_env_Ok & [= <-]). exists t, u. simpl. by rewrite Hl.
    + intros (t & u & Ht%(env_int_Ok _ "u64") & Hu & Hl & Hc & Hv & Hx%execution_from_env_Ok).
      rewrite Ht. simpl. rewrite Hu. simpl. rewrite <-Hl, Hc, Hx. simpl. rewrite <-Hv, <-Hc. by destruct proxy.
  - apply (errs_in_no_panic (λ _, True)). unfold result, consensus_from_env.
    apply errs_in_bind; [apply env_int_errs|intros t _]. apply errs_in_bind; [by apply errs_in_ok_or|intros u _].
    destruct (beacon_node <$> _); [done|]. apply errs_in_bind; [|done]. unfold execution_from_env.
    apply errs_in_bind; [apply env_int_errs|intros t' _]. apply errs_in_bind; [apply env_int_errs|intros k _].
    apply errs_in_bind; [by apply errs_in_ok_or|intros u' _]. destruct (connect_http <$> _); [done|].
    apply errs_in_bind; [|done]. apply errs_in_bind; [by apply errs_in_ok_or|]. intros. by apply errs_in_ok_or.
Qed.

(** What [validate_env] looks for is there; whether it is well-formed it does not say. *)
Lemma validate_env_Ok vars : validate_env env vars = Ok () ↔ ∀ v, v ∈ vars → is_Some (env v).
Proof.
  unfold validate_env. rewrite try_iter_Ok, Forall_elem. apply forall_proper. intros v.
  split; intros Hv Hin; specialize (Hv Hin); by destruct (env v).
Qed.
End Proxies.
