(* ===== verification/LocalProver.v ===== *)
(** * nori/src/sp1_prover.rs and grpc.rs: local provers and the prover network

    The local provers with their cached proving keys, and the query of the prover
    network behind the extension of the whitelist.  The clients of the SP1 SDK
    and of the network are parameters. *)
From S2P Require Import Prelude Externals StorageLayout Types Detector Notice BridgeHead Rpc ExecutionRpc ProverConfig.

(** ** Proving keys *)

Section Keys.
  Context {ProvingKey CudaKey Proof W : Type}.
  (** [client.setup] of a mock and of a CUDA client; and [p.prove(pk, stdin)],
      with [.plonk()] or [.groth16()], of each kind of prover. *)
  Context (setup_mock : W → W * (ProvingKey + string)) (setup_cuda : W → W * (CudaKey + string)).
  Context (prove_mock prove_cpu : ProvingKey → list byte → ProofType → W → W * (Proof + string))
    (prove_cuda : CudaKey → list byte → ProofType → W → W * (Proof + string)).

(** The process: the two [OnceCell]s, and the rest of the world. *)
Record ProverWorld := MkProverWorld {
  PROVING_KEY : option ProvingKey;
  CUDA_PROVING_KEY : option CudaKey;
  outside : W
}.
Definition set_outside (w : ProverWorld) (o : W) : ProverWorld := MkProverWorld (PROVING_KEY w) (CUDA_PROVING_KEY w) o.
(** A call to the outside. *)
Definition outside_call {A} (m : W → W * (A + string)) : rpc ProverWorld A :=
  λ w, let '(o, r) := m (outside w) in (set_outside w o, [], of_sum r).

(** [get_or_try_init]: the value of the first initialisation that succeeds. *)
Definition get_proving_key : rpc ProverWorld ProvingKey :=
  cell ← gets PROVING_KEY;
  match cell with
  | Some pk => mret pk
  | None =>
    pk ← outside_call setup_mock;
    _ ← modify (λ w, MkProverWorld (Some pk) (CUDA_PROVING_KEY w) (outside w));
    mret pk
  end.
Definition get_cuda_proving_key : rpc ProverWorld CudaKey :=
  cell ← gets CUDA_PROVING_KEY;
  match cell with
  | Some pk => mret pk
  | None =>
    pk ← outside_call setup_cuda;
    _ ← modify (λ w, MkProverWorld (PROVING_KEY w) (Some pk) (outside w));
    mret pk
  end.

(** [LocalProver], by its constructors; the SDK's clients carry no state. *)
Inductive LocalProver := LocalProverMock | LocalProverCpu | LocalProverCuda.
Definition local_prover (local_mode : LocalProverMode) : LocalProver :=
  match local_mode with Mock => LocalProverMock | Cpu => LocalProverCpu | Cuda => LocalProverCuda end.

Definition prove_with_type (self : LocalProver) (stdin : list byte) (proof_type : ProofType) : rpc ProverWorld Proof :=
  match self with
  | LocalProverMock => pk ← get_proving_key; outside_call (prove_mock pk stdin proof_type)
  | LocalProverCpu => pk ← get_proving_key; outside_call (prove_cpu pk stdin proof_type)
  | LocalProverCuda => cuda_pk ← get_cuda_proving_key; outside_call (prove_cuda cuda_pk stdin proof_type)
  end.

(** *** Keys are set up once *)

Definition keys_kept (w w' : ProverWorld) : Prop :=
  (∀ pk, PROVING_KEY w = Some pk → PROVING_KEY w' = Some pk) ∧
  (∀ pk, CUDA_PROVING_KEY w = Some pk → CUDA_PROVING_KEY w' = Some pk).
#[export] Instance keys_kept_preorder : PreOrder keys_kept.
Proof. split; [done|]. intros w1 w2 w3 [H1 H1'] [H2 H2']. split; auto. Qed.

Lemma get_proving_key_eq w : get_proving_key w =
  match PROVING_KEY w with
  | Some pk => (w, [], Ok pk)
  | None => let '(o, r) := setup_mock (outside w) in
      match r with
      | inl pk => (MkProverWorld (Some pk) (CUDA_PROVING_KEY w) o, [], Ok pk)
      | inr e => (set_outside w o, [], Err e)
      end
  end.
Proof.
  unfold get_proving_key, outside_call. eff_unfold. destruct w as [[pk|] c o]; [done|]. simpl.
  by destruct (setup_mock o) as [o' [pk|e]].
Qed.
Lemma get_cuda_proving_key_eq w : get_cuda_proving_key w =
  match CUDA_PROVING_KEY w with
  | Some pk => (w, [], Ok pk)
  | None => let '(o, r) := setup_cuda (outside w) in
      match r with
      | inl pk => (MkProverWorld (PROVING_KEY w) (Some pk) o, [], Ok pk)
      | inr e => (set_outside w o, [], Err e)
      end
  end.
Proof.
  unfold get_cuda_proving_key, outside_call. eff_unfold. destruct w as [p [pk|] o]; [done|]. simpl.
  by destruct (setup_cuda o) as [o' [pk|e]].
Qed.

(** The key a prover of this kind finds cached. *)
Definition key_ready (self : LocalProver) (w : ProverWorld) : Prop :=
  match self with
  | LocalProverCuda => is_Some (CUDA_PROVING_KEY w)
  | _ => is_Some (PROVING_KEY w)
  end.

(** The outcome of proving with the key of this kind. *)
Definition prove_cached (self : LocalProver) (stdin : list byte) (proof_type : ProofType) (w : ProverWorld) :
    option (W * (Proof + string)) :=
  match self with
  | LocalProverMock => pk ← PROVING_KEY w; Some (prove_mock pk stdin proof_type (outside w))
  | LocalProverCpu => pk ← PROVING_KEY w; Some (prove_cpu pk stdin proof_type (outside w))
  | LocalProverCuda => pk ← CUDA_PROVING_KEY w; Some (prove_cuda pk stdin proof_type (outside w))
  end.

(** Proving keys: however often and with whatever provers the process proves, a
    key that was set up is never replaced; a proof is made with the key in the
    cell of its kind, after at most one set-up; and a prover that finds its key
    does not set one up. *)
Lemma prove_with_type_keys self stdin proof_type w w' sleeps r :
  prove_with_type self stdin proof_type w = (w', sleeps, r) →
  keys_kept w w' ∧ sleeps = [] ∧
  (∀ proof, r = Ok proof → key_ready self w' ∧
     ∃ o o', prove_cached self stdin proof_type (set_outside w' o) = Some (o', inl proof) ∧ outside w' = o') ∧
  (key_ready self w → prove_cached self stdin proof_type w =
     match r with Ok proof => Some (outside w', inl proof) | Err e => Some (outside w', inr e) | Panic => None end).
Proof.
  unfold prove_with_type, prove_cached. destruct self; simpl; unfold mbind at 1, eff_bind at 1;
    rewrite ?get_proving_key_eq, ?get_cuda_proving_key_eq.
  all: destruct w as [[pk|] [cpk|] o]; simpl.
  all: try match goal with
    | |- context [setup_mock ?o] => destruct (setup_mock o) as [o1 [pk'|e1]]
    | |- context [setup_cuda ?o] => destruct (setup_cuda o) as [o1 [pk'|e1]]
    end.
  all: unfold outside_call; simpl.
  all: try match goal with
    | |- context [prove_mock ?k ?s ?t ?x] => destruct (prove_mock k s t x) as [o2 [p|e]] eqn:Hp
    | |- context [prove_cpu ?k ?s ?t ?x] => destruct (prove_cpu k s t x) as [o2 [p|e]] eqn:Hp
    | |- context [prove_cuda ?k ?s ?t ?x] => destruct (prove_cuda k s t x) as [o2 [p|e]] eqn:Hp
    end.
  all: simpl.
  all: intros [= <- <- <-]; (split; [split; naive_solver|]); (split; [done|]); (split; [|try done; by intros [? ?]]).
  all: intros proof [=]; subst; (split; [by eexists|]); do 2 eexists; (split; [simpl; by rewrite Hp|done]).
Qed.
End Keys.

(** ** The prover network *)

Section Network.
  Context {World Channel : Type}.

(** The settings of [configure_endpoint], in seconds. *)
Record EndpointConfig := MkEndpointConfig {
  ep_addr : string;
  ep_timeout : Z;
  ep_connect_timeout : Z;
  ep_keep_alive_while_idle : bool;
  ep_http2_keep_alive_interval : Z;
  ep_keep_alive_timeout : Z;
  ep_tcp_keepalive : option Z;
  ep_tcp_nodelay : bool;
  ep_tls : bool
}.
(** [Endpoint::new] accepts the address; [tls_config] accepts the default roots. *)
Context (endpoint_valid tls_valid : string → () + string).

Definition configure_endpoint (addr : string) : res string EndpointConfig :=
  _ ← of_sum (endpoint_valid addr);
  let endpoint := MkEndpointConfig addr 60 15 true 15 15 (Some 60) true in
  if String.prefix "https://" addr then
    _ ← of_sum (tls_valid addr);
    Ok (endpoint true)
  else Ok (endpoint false).

(** [connect], and the call [get_provers_by_uptime]. *)
Context (connect : EndpointConfig → World → World * (Channel + string))
  (get_provers_by_uptime : Channel → bool → World → World * (list (list byte) + string)).

(** A prover whose address is not twenty bytes panics. *)
Definition try_get_fallback_whitelist (config : NetworkConfig) (high_availability_only : bool) : rpc World (list Address) :=
  endpoint ← lift (configure_endpoint (rpc_url config));
  answer ← rpc_call (connect endpoint);
  channel ← lift (of_sum answer);
  answer ← rpc_call (get_provers_by_uptime channel high_availability_only);
  provers ← lift (of_sum answer);
  lift (try_map (from_slice 20) provers).
End Network.
