(* ===== verification/Logging.v ===== *)
(** * nori/src/utils.rs and the printed configuration

    File names of saved proofs, log levels, and the lines that [print_config]
    logs.  Writing files and logging are left to the outside. *)
From stdpp Require Import pretty.
From Stdlib Require Import Ascii.
From S2P Require Import Prelude Externals StorageLayout Types Detector Notice BridgeHead Rpc ExecutionRpc ProverConfig Env EnvSpec.

(** ** Strings *)

(** [s.contains(pattern)] *)
Fixpoint contains (pattern s : string) : bool :=
  String.prefix pattern s ||
  match s with EmptyString => false | String _ s => contains pattern s end.

(** ** Log levels: the value given to [RUST_LOG] *)

Section Logs.
  Context (env : string → option string).

(** [env::var(name).unwrap_or_default()] *)
Definition env_text (name : string) : string := default ""%string (env name).

Definition enable_logging_from_cargo_run : string :=
  let nori_log := env_text "NORI_LOG" in
  if contains "debug" nori_log || contains "trace" nori_log then nori_log
  else if decide (nori_log = ""%string) then "alloy_transport_http=off"
  else nori_log +:+ ",alloy_transport_http=off".

Definition enable_logging_from_cargo_run_with_helios_suppression : string :=
  let nori_log := env_text "NORI_LOG" in
  if decide (nori_log = ""%string) then "helios::consensus=error"
  else nori_log +:+ ",helios::consensus=error".

(** ** Names of saved proofs *)

Definition if_mock : string := if decide (env_text "SP1_PROVER" = "mock"%string) then "mock-" else "".
Definition proof_file_name (number : u64) (sp1_version : string) : string :=
  if_mock +:+ pretty (uint_Z number) +:+ "-" +:+ sp1_version +:+ ".json".
(** [handle_nori_proof]: the file it writes. *)
Definition nori_proof_path (latest_block : u64) (sp1_version : string) : string :=
  "./sp1-helios-proofs/" +:+ proof_file_name latest_block sp1_version.
(** [handle_nori_proof_message] *)
Definition nori_proof_message_path (msg_input_slot : u64) (sp1_version : string) : string :=
  "./sp1-helios-proof-messages/" +:+ proof_file_name msg_input_slot sp1_version.
End Logs.

(** *** Different slots have different files *)

Lemma string_app_inj s1 s2 t : t +:+ s1 = t +:+ s2 → s1 = s2.
Proof. induction t as [|c t IH]; [done|]. intros [= ?]. auto. Qed.
(** What comes before the first dash. *)
Fixpoint before_dash (s : string) : string :=
  match s with
  | EmptyString => EmptyString
  | String c s => if decide (c = "-"%char) then EmptyString else String c (before_dash s)
  end.
Lemma before_dash_digits s t acc v : digits_value acc s = Some v → before_dash (s +:+ "-" +:+ t) = s.
Proof.
  revert acc. induction s as [|c s IH]; intros acc; simpl; [done|].
  destruct (digit_value c) as [d|] eqn:Hd; [|done]. simpl. intros Hv. rewrite decide_False.
  - f_equal. by eapply IH.
  - intros ->. done.
Qed.
Lemma pretty_digits (n : u64) : ∃ v, digits_value 0 (pretty (uint_Z n)) = Some v.
Proof.
  pose proof (parse_int_pretty n) as Hp. pose proof (uint_range n) as Hn. change (2 ^ Z.of_nat 64) with (2 ^ 64) in Hn.
  destruct (uint_Z n) as [|p|p]; [by exists 0| |lia].
  change (pretty (Z.pos p)) with (pretty_N_go (N.pos p) "").
  pose proof (parse_pretty_go (N.pos p) "" (proj2 Hn)) as Hgo. simpl in Hgo.
  apply parse_digits_Ok in Hgo as (v & Hv & _); [by exists v|lia].
Qed.

(** With the same prover and SDK version, two slots never share a file. *)
Lemma proof_file_name_inj env n m version : proof_file_name env n version = proof_file_name env m version → n = m.
Proof.
  unfold proof_file_name. intros He%string_app_inj.
  destruct (pretty_digits n) as [v Hv], (pretty_digits m) as [v' Hv'].
  apply (f_equal before_dash) in He. erewrite !before_dash_digits in He by done.
  pose proof (parse_int_pretty n) as Hn. rewrite He, parse_int_pretty in Hn. by injection Hn.
Qed.

(** ** [print_config] *)

Section Print.
  (** [Display] of an address (with its checksum) *)
  Context (display_address : Address → string).

Definition display_u64 (n : u64) : string := pretty (uint_Z n).
Definition display_bool (b : bool) : string := if b then "true" else "false".
Definition RULE : string := "========================================".

Definition print_whitelist (net : NetworkConfig) : list string :=
  match whitelist net with
  | Some [] => ["  Whitelist: (open - empty list sent, any prover can participate)"]
  | Some addresses =>
    ["  Whitelist:"] ++ ((λ addr, "    - " +:+ display_address addr) <$> addresses)
    ++ ["  Whitelist add high availability: " +:+ display_bool (whitelist_add_high_availability net);
        "  Whitelist add default pool: " +:+ display_bool (whitelist_add_default net)]
  | None => ["  Whitelist: (SDK default - recently reliable provers)"]
  end.

Definition print_network (net : NetworkConfig) : list string :=
  (["Prover Mode: network"; "----------------------------------------"; "Network Configuration:";
    "  Network Mode: " +:+ match network_mode net with Mainnet => "mainnet" | Reserved => "reserved" end;
    "  RPC URL: " +:+ rpc_url net;
    match fulfillment net with
    | FulfillmentAuction timeout min_auction_period =>
      "  Fulfillment Strategy: auction (timeout: " +:+ display_u64 timeout +:+ "s, min_auction_period: "
      +:+ display_u64 min_auction_period +:+ "s)"
    | FulfillmentHosted => "  Fulfillment Strategy: hosted"
    | FulfillmentReserved => "  Fulfillment Strategy: reserved"
    end;
    "  Max Price per PGU: " +:+ display_u64 (max_price_per_pgu net);
    "  Skip Simulation: " +:+ display_bool (skip_simulation net);
    match cycle_limit net with
    | Some limit => "  Cycle Limit: " +:+ display_u64 limit
    | None => "  Cycle Limit: (determined by simulation)"
    end;
    match gas_limit net with
    | Some limit => "  Gas Limit: " +:+ display_u64 limit
    | None => "  Gas Limit: (determined by simulation)"
    end;
    "  Timeout: " +:+ display_u64 (timeout net) +:+ "s"] ++ print_whitelist net).

Definition print_config (config : ProverConfig) : list string :=
  ([RULE; "SP1 Prover Configuration"; RULE;
    "Proof Type: " +:+ match proof_type config with Plonk => "plonk" | Groth16 => "groth16" end] ++
   match mode config with
   | Local local_mode =>
     ["Prover Mode: " +:+ match local_mode with Mock => "mock" | Cpu => "cpu" | Cuda => "cuda" end +:+ " (local)"]
   | Network net => print_network net
   end ++ [RULE]).

(** The private key is not among what is printed: the lines are a function of the
    rest of the configuration. *)
Definition with_private_key (key : string) (net : NetworkConfig) : NetworkConfig :=
  MkNetworkConfig (network_mode net) key (rpc_url net) (fulfillment net) (max_price_per_pgu net) (cycle_limit net)
    (gas_limit net) (skip_simulation net) (timeout net) (whitelist net) (whitelist_add_high_availability net)
    (whitelist_add_default net).
Lemma print_config_hides_key net key proof_type :
  print_config (MkProverConfig (Network (with_private_key key net)) proof_type) =
  print_config (MkProverConfig (Network net) proof_type).
Proof. done. Qed.
End Print.
