(* ===== verification/Startup.v ===== *)
(** * The start of the process

    nori/bin/nori_bridge_head.rs ([main]), the part of [BridgeHead::run] before
    its loop and the part of the finality change detector before its loop: from
    the environment and the checkpoint file to the tasks that run. *)
From S2P Require Import Prelude Externals StorageLayout Types Merkle Instances MerkleSpec RequestLeaf Mpt StoreHash Consensus Detector Notice BridgeHead Observer System SystemSpec Json NoticeCodec Checkpoint Rpc ExecutionRpc ConsensusRpc ProverConfig Env EnvSpec Supervision.

Section Startup.
Context `{HeliosHost} `{!RmpSerde} `{Sha256} `{DebugFmt} `{HostRuntime} `{!SerdeParams} `{!JsonText} {World XWorld : Type}.
(** The environment and the parsers of other crates, as in Env; [parse_f64] is
    [str::parse::<f64>], and [ticks] says that [Duration::from_secs_f64] and
    [tokio::time::interval] accept the number (they panic unless it is positive
    and in range). *)
Context (env : string → option string) (parse_address : string → option Address) (valid_private_key valid_url : string → bool)
  {Url : Type} (parse_url : string → Url + string) (parse_f64 : string → option F64) (ticks : F64 → bool)
  (connect_http : Url → RootProvider XWorld) (beacon_node : Url → BeaconNode (World := World))
  (network : u64 → ChainConfig + string) (latest_checkpoint : BeaconNode (World := World) → res string B256).

(** ** The detector, before its loop *)

Definition polling_interval_sec : res string F64 :=
  unwrap (parse_f64 (default "10.0"%string (env "NORI_HELIOS_POLLING_INTERVAL"))).

(** The latest beacon slot and the locals of the detector; the second part tells
    whether the spawned task survives the making of its interval. *)
Definition start_validated_consensus_finality_change_detector (proxy : ConsensusHttpProxy (World := World) (XWorld := XWorld))
    (c : Circumstances (World := World) (XWorld := XWorld)) (slot : u64) (store_hash : B256) (queue_cursor : u64)
    (pipeline_inflight_next_expected_output : option FinalityChangeDetectorUpdate) : res string (u64 * Detector * bool) :=
  polling_interval_sec ← polling_interval_sec;
  init_latest_beacon_slot ← match proxy_latest_finality_slot (client_new env network) latest_checkpoint proxy c with
                            | Ok slot => Ok slot | _ => Panic end;
  Ok (init_latest_beacon_slot, detector_init slot store_hash queue_cursor pipeline_inflight_next_expected_output,
      ticks polling_interval_sec).

(** ** The bridge head, before its loop *)

(** The actors' states before [run] has started anything. *)
Definition sys_idle (head : BridgeHead) (slot : u64) (store_hash : B256) (queue_cursor : u64)
    (inflight : option FinalityChangeDetectorUpdate) : System :=
  MkSystem (detector_init slot store_hash queue_cursor inflight) [] [] [] [] [] head [] [] [] [] observer_new.

(** The process when the loops start: the state of the actors and who is alive.
    A panic of [run] before its loop leaves the observer alone. *)
Definition run (head : BridgeHead) (c : Circumstances (World := World) (XWorld := XWorld)) (current_slot : u64) (store_hash : B256)
    (queue_cursor : u64) (inflight : option FinalityChangeDetectorUpdate) : System * Process :=
  match
    ('(_, proxy) ← run_configuration env parse_address parse_url connect_http beacon_node valid_private_key valid_url;
     start_validated_consensus_finality_change_detector proxy c current_slot store_hash queue_cursor inflight)
  with
  | Ok (init_latest_beacon_slot, detector, survives) =>
    let '(b, ms, _) := run_init (λ _, true) "" current_slot store_hash queue_cursor init_latest_beacon_slot head in
    (with_bridge b ms (MkSystem detector [] [] [] [] [] head [] [] [] [] observer_new),
     if survives : bool then all_alive else without_detector all_alive)
  | _ => (sys_idle head current_slot store_hash queue_cursor inflight, MkProcess false false false true false)
  end.

(** ** [main] *)

Inductive boot_outcome :=
(** [main] panics: the process ends *)
| MainPanics
(** [panic_more] with this message *)
| Exits (message : string)
| Boots (s : System) (p : Process).

Definition main (file : CheckpointFile) (c0 c : Circumstances (World := World) (XWorld := XWorld)) : boot_outcome :=
  match main_head file
    (proxy ← consensus_try_from_env env parse_address parse_url connect_http beacon_node;
     proxy_latest_finality_slot_and_store_hash (client_new env network) latest_checkpoint proxy c0)
  with
  | Ok (current_slot, store_hash, queue_cursor) =>
    match bridge_head_checked_new env with
    | Ok bridge_head => let '(s, p) := run bridge_head c current_slot store_hash queue_cursor None in Boots s p
    | Err message => Exits message
    | Panic => MainPanics
    end
  | _ => MainPanics
  end.

(** ** What a start leads to *)

Lemma main_head_no_err file get : (∀ e, main_head file get ≠ Err e).
Proof.
  intros e. unfold main_head, load_nb_checkpoint. destruct file as [text|]; simpl.
  - by destruct (json_parse text ≫= _).
  - by destruct get as [[]| |].
Qed.
Lemma bridge_head_checked_new_Ok head : bridge_head_checked_new env = Ok head →
  head = bridge_head_new ∧ ∀ v, v ∈ REQUIRED_ENV → is_Some (env v).
Proof. intros ([] & Hv & [= <-])%bind_Ok. split; [done|]. by apply validate_env_Ok. Qed.

(** What [run] needs before its loop. *)
Definition configured (c : Circumstances (World := World) (XWorld := XWorld)) (latest : u64) : Prop :=
  ∃ config proxy interval,
    from_env env parse_address valid_private_key valid_url = Ok config ∧
    consensus_from_env env parse_address parse_url connect_http beacon_node = Ok proxy ∧
    polling_interval_sec = Ok interval ∧ ticks interval = true ∧
    proxy_latest_finality_slot (client_new env network) latest_checkpoint proxy c = Ok latest.

Lemma run_cases c slot h cursor inflight s p : run bridge_head_new c slot h cursor inflight = (s, p) →
  (p = all_alive ∧ ∃ latest, configured c latest ∧ s = sys_start slot h cursor latest inflight) ∨
  (p ≠ all_alive ∧ exited p = false ∧ observer_alive p = true ∧ drained (pop_events [] s)).
Proof.
  unfold run. destruct (_ ≫= _) as [[[latest d] survives]| |] eqn:Hc.
  - intros [= <- <-]. apply bind_Ok in Hc as ([config proxy] & Hconf & Hstart).
    apply bind_Ok in Hstart as (interval & Hi & (latest' & Hl & [= -> <- <-])%bind_Ok).
    destruct (ticks interval) eqn:Ht; [left|right; done].
    split; [done|]. exists latest. split; [|done]. exists config, proxy, interval.
    unfold run_configuration in Hconf. destruct (from_env _ _ _ _); [|done..].
    apply bind_Ok in Hconf as (proxy' & Hp & [= -> ->]). unfold consensus_try_from_env in Hp.
    destruct (consensus_from_env _ _ _ _ _) eqn:Hcons; [|done..]. injection Hp as ->.
    destruct (proxy_latest_finality_slot _ _ _ _) eqn:Hpl; [|done..]. by injection Hl as ->.
  - intros [= <- <-]. right. done.
  - intros [= <- <-]. right. done.
Qed.

(** C10: no half-started bridge: when [main] gets past its own checks, either all tasks
    run, in the start state from the head that was loaded (with the latest slot
    that the nodes gave), the prover configuration and the proxies are valid and
    the polling interval is usable, or something is missing there and the process
    exits, after at most four receptions on closed channels. *)
Theorem boot_runs_or_exits (now : Instant) file c0 c s p : main file c0 c = Boots s p →
  ∃ slot h cursor,
    main_head file
      (proxy ← consensus_try_from_env env parse_address parse_url connect_http beacon_node;
       proxy_latest_finality_slot_and_store_hash (client_new env network) latest_checkpoint proxy c0) = Ok (slot, h, cursor) ∧
    (∀ v, v ∈ REQUIRED_ENV → is_Some (env v)) ∧
    (p = all_alive → ∃ latest, configured c latest ∧ s = sys_start slot h cursor latest None) ∧
    (p ≠ all_alive →
      (∃ cs p', closing_run now (pop_events [] s) p cs = Some p' ∧ ∀ a, closing_step now (pop_events [] s) p' a = None) ∧
      ∀ cs p', closing_run now (pop_events [] s) p cs = Some p' →
        (length cs ≤ 4)%nat ∧ ((∀ a, closing_step now (pop_events [] s) p' a = None) → exited p' = true)).
Proof.
  unfold main. destruct (main_head _ _) as [[[slot h] cursor]| |] eqn:Hhead; [|done..].
  destruct (bridge_head_checked_new env) as [head| |] eqn:Hnew; [|done..].
  apply bridge_head_checked_new_Ok in Hnew as [-> Hreq].
  destruct (run _ _ _ _ _ _) as [s' p'] eqn:Hrun. intros [= -> ->]. exists slot, h, cursor. split; [done|]. split; [done|].
  apply run_cases in Hrun as [(-> & latest & Hconf & ->)|(Hp & Hx & Ho & Hd)].
  - split; [|done]. intros _. by exists latest.
  - split; [done|]. intros _. destruct (dead_actor_settles now _ _ Hd Hx Hp) as [Hex Hall]. split; [done|].
    intros cs p' Hcs. destruct (Hall cs p' Hcs) as [Hlen Hend]. split; [done|].
    intros Hstuck. destruct (Hend Hstuck) as [_ ->]. done.
Qed.
End Startup.
