(* ===== verification/StartupWitness.v ===== *)
(** * Concrete starts

    A complete environment with the checkpoint file of CodecWitness, and the
    same environment without [SP1_PROVER]. *)
From S2P Require Import Prelude Externals StorageLayout Types Merkle Instances MerkleSpec RequestLeaf Mpt MptSpec MptWitness StoreHash Consensus ConsensusSpec ConsensusWitness Detector Notice BridgeHead Observer System SystemSpec SystemWitness Json NoticeCodec Checkpoint CodecWitness Rpc ExecutionRpc ExecutionRpcSpec ExecutionRpcComplete ExecutionRpcWitness ConsensusRpc ConsensusRpcSpec ConsensusRpcWitness ProverConfig Env EnvSpec Supervision Startup.

Definition s_lookup (table : list (string * string)) (name : string) : option string :=
  snd <$> (snd <$> list_find (λ e, fst e = name) table).
Definition s_required : list (string * string) :=
  [("NORI_SOURCE_EXECUTION_HTTP_RPCS", "http://execution"); ("NORI_SOURCE_CONSENSUS_HTTP_RPCS", "http://beacon");
   ("NORI_PROOF_QUEUE_ADDRESS", "0x0e"); ("NORI_SOURCE_CHAIN_ID", "1"); ("SP1_PROOF_TYPE", "plonk")]%string.
Definition s_env : string → option string := s_lookup (("SP1_PROVER", "mock")%string :: s_required).
(** A node that bootstraps from any checkpoint. *)
Definition s_checkpoint (node : BeaconNode (World := ())) : res string B256 := Ok (fb_zero 32).
Definition s_main (env : string → option string) : boot_outcome :=
  main env (λ _, Some w_queue) (λ _, true) (λ _, true) (λ url, inl url) (λ text, Some (() : F64)) (λ _, true)
    (λ _, n_node) (λ _ : string, b_node) (λ _, inl b_config) s_checkpoint w_file0 b_circumstances b_circumstances.

Definition boots (o : boot_outcome) : bool := match o with Boots _ _ => true | _ => false end.
Definition booted (o : boot_outcome) : System * Process :=
  match o with Boots s p => (s, p) | _ => (w_start, all_alive) end.
Lemma boots_eq o : boots o = true → o = Boots (fst (booted o)) (snd (booted o)).
Proof. by destruct o. Qed.

Definition s_started : System * Process := booted (s_main s_env).
Lemma s_main_boots : s_main s_env = Boots (fst s_started) (snd s_started).
Proof. apply boots_eq. vm_compute. reflexivity. Qed.
(** All tasks run; without the variable that [validate_env] does not look for, only the observer does. *)
Example s_alive : snd s_started = all_alive ∧
  snd (booted (s_main (s_lookup s_required))) = MkProcess false false false true false ∧
  s_main (λ _, None) = Exits "Critical boot error: Missing NORI_SOURCE_EXECUTION_HTTP_RPCS environment variable".
Proof. vm_compute. done. Qed.

Lemma boot_runs_or_exits_witness :
  let s := fst s_started in let p := snd s_started in
  ∃ slot h cursor,
    main_head w_file0
      (proxy ← consensus_try_from_env s_env (λ _, Some w_queue) (λ url, inl url) (λ _, n_node) (λ _ : string, b_node);
       proxy_latest_finality_slot_and_store_hash (client_new s_env (λ _, inl b_config)) s_checkpoint proxy b_circumstances)
      = Ok (slot, h, cursor) ∧
    (∀ v, v ∈ REQUIRED_ENV → is_Some (s_env v)) ∧
    (p = all_alive → ∃ latest,
      configured s_env (λ _, Some w_queue) (λ _, true) (λ _, true) (λ url, inl url) (λ text, Some (() : F64)) (λ _, true)
        (λ _, n_node) (λ _ : string, b_node) (λ _, inl b_config) s_checkpoint b_circumstances latest ∧
      s = sys_start slot h cursor latest None) ∧
    (p ≠ all_alive →
      (∃ cs p', closing_run () (pop_events [] s) p cs = Some p' ∧ ∀ a, closing_step () (pop_events [] s) p' a = None) ∧
      ∀ cs p', closing_run () (pop_events [] s) p cs = Some p' →
        (length cs ≤ 4)%nat ∧ ((∀ a, closing_step () (pop_events [] s) p' a = None) → exited p' = true)).
Proof.
  exact (boot_runs_or_exits s_env (λ _, Some w_queue) (λ _, true) (λ _, true) (λ url, inl url) (λ text, Some (() : F64))
    (λ _, true) (λ _, n_node) (λ _ : string, b_node) (λ _, inl b_config) s_checkpoint (() : Instant) w_file0
    b_circumstances b_circumstances (fst s_started) (snd s_started) s_main_boots).
Defined.

(** The validation actor has panicked, while nothing is in flight. *)
Definition s_idle : System := pop_events [] w_start.
Lemma s_idle_drained : drained s_idle.
Proof. done. Qed.
Lemma dead_actor_ends_process_witness :
  (∃ cs p', closing_run () s_idle (without_validator all_alive) cs = Some p' ∧ ∀ c, closing_step () s_idle p' c = None) ∧
  ∀ cs p', closing_run () s_idle (without_validator all_alive) cs = Some p' →
    (length cs ≤ 4)%nat ∧
    ((∀ c, closing_step () s_idle p' c = None) → alive_count p' = 0%nat ∧ exited p' = true).
Proof. exact (dead_actor_ends_process (() : Instant) s_idle (without_validator all_alive) s_idle_drained eq_refl ltac:(done)). Defined.
